(* ===== verification/_CoqProject ===== *)
-Q . S2P
Prelude.v
Rational.v
TimeRange.v
Timecode.v
Undo.v
Ids.v
Value.v
Keyframe.v
NodeCore.v
Graph.v
Arena.v
Dag.v
GraphOps.v
Copies.v
Block.v
Track.v
Timeline.v
TrackCommands.v
Marker.v
WorkArea.v
SplitCommands.v
GeneralCommands.v
GapCommands.v
