(* ===== verification/Prelude.v ===== *)
(** * Verification of the Oak video editor's core

    Oak is a video editor in Rust (src/crates/).  A project is a graph of nodes;
    a sequence is a node whose tracks hold blocks (clips, gaps, transitions) as
    further nodes; every edit of the timeline is an undoable command over that
    graph.  This library models those parts and proves what makes them correct.

    ** Parts, and how they interact

    - Numbers and time: Rational.v and Timecode.v (oak-core/src/rational.rs; the
      second holds the binary64 conversions and [TimeRangeList::snap]),
      TimeRange.v (oak-core/src/timerange.rs).  Everything else measures time
      with them.
    - Undo: Undo.v (oak-undo/src/{undocommand,undostack,global,error}.rs).  A
      command is an instance of the class [Command]: [redo] and [undo] from the
      command and a world to both.  The timeline's commands are instances over
      the graph ([G], the world), markers and work areas over the shared list or
      range.
    - Node data: Ids.v, Value.v, Keyframe.v, NodeCore.v (ids, values with the
      sample format of oak-core/src/samplefmt.rs, keyframe tracks with their
      interpolation, inputs and the data every node has:
      oak-node/src/{id,value,keyframe,input,node}.rs).
    - The node graph: Graph.v (oak-node/src/graph.rs with its error codes and
      the two endpoint nodes, one Definition per method), and its theorems in
      Arena.v (ids and slots), Dag.v (connections and cycles), GraphOps.v
      (links, arrays, transfers, and all reachable graphs) and Copies.v
      (dependency copies, and the edge set as an ordered vector).  What the
      graph calls on a node is the class [NodeBehavior].
    - Blocks and tracks: Block.v and Track.v (oak-node/src/{block,track}.rs),
      made into one concrete behaviour in Timeline.v, which also holds the
      sequence behaviour (oak-node/src/sequence.rs) and the queries and
      mutations of oak-timeline/src/util.rs.
    - Timeline commands (oak-timeline/src/): TrackCommands.v (undocommon.rs,
      undotrack.rs), SplitCommands.v (undosplit.rs), GeneralCommands.v and
      GapCommands.v (undogeneral.rs), Marker.v and WorkArea.v (marker.rs,
      workarea.rs).  They call Timeline.v and are run by Undo.v's stack.
    - This file: fixed-width integers, fuel-bounded loops, binary search,
      vectors, and the tactics and hints the other files share.

    ** How the code is represented

    Rust structs are Records, enums Inductives, and a method that mutates its
    receiver returns the new value.  [Result] is a sum or a pair with an
    optional error; a panic or an absent value is [None], and where a panic and
    a loop that may not end have to be told apart the result is an [Outcome]
    (Keyframe.v).  Integers are [Z] with [wrap_signed], [wrap_unsigned], [i32],
    [i64] or [usize] written where the release build wraps, or [N] for unsigned
    words; counts and indices that cannot overflow are [nat].  A [BTreeSet] or
    [Vec] is a list, a [HashMap] a [gmap] or, where its iteration order shows,
    an association list with the order as an argument: [transfer_all] takes
    it, [MapOrder] is the class for it in SplitCommands.v.  A stored [f64] is
    its bit pattern; computations run on the Standard Library's executable
    binary64.  Shared [Arc<Mutex<..>>] state is the world the commands act on.
    Three things are parameters: the string hasher of input ids ([InputHash]),
    the node types other than blocks, tracks and sequences ([OtherBehavior]),
    and the map order.

    ** What the theorems show

    - Rational.v, TimeRange.v: reduction is canonical, the order is total,
      arithmetic on a grid is integer arithmetic, printing round-trips; range
      lists are sets of instants under insertion and removal, but not sorted.
      Timecode.v adds that frame numbers survive the trip through doubles.
    - Undo.v: jumping in the history reaches exactly the recorded worlds; a
      composite is undone in reverse order; a new command discards the redo
      tail; groups are all or nothing.
    - Ids.v, Value.v, Keyframe.v, NodeCore.v: packed ids round-trip; sample
      offsets stay inside the payload while its described size fits; a keyframe
      track is a sorted finite map; [value_at] picks the keys the time asks for,
      with what interpolation does on each branch, its panic and its loop;
      array elements are shifted up and down with their values and tracks.
    - Arena.v, Dag.v, GraphOps.v, Copies.v: removed nodes come back under their
      id and stale ids are detected; [reaches] decides reachability; [connect]
      accepts exactly the edges that keep the graph a DAG with one source per
      input element, and every graph the operations can build is one; links
      are symmetric; array edits move connections; a dependency copy adds
      exactly the new nodes and edges it should.
    - Block.v, Track.v, Timeline.v and the command files: span edits, time
      queries, block list edits; block lists and the blocks' track references
      agree; each command's effect and its exact undo; splitting copies the
      whole effect chain, and undo and redo detach and re-attach it.
    - Marker.v, WorkArea.v: the marker list stays sorted and its queries answer;
      commands restore what they changed, or provably do not.

    ** Loops, fuel and bounds

    A loop whose recursion is not structural is [while_fuel] over its body;
    [while_fuel_spec] turns a measure that decreases into a proof that the fuel
    given in the definition is enough, so the [default] of an exhausted loop is
    never returned: the continued fraction by its denominators, binary searches
    by their interval, the walk of the graph by the edges not yet followed, the
    jump in the history by its distance.  The recursion of a dependency copy has
    one unit of fuel per slot and one more; the ancestors of a node bound its
    depth ([rank_arc]).  The bisection of the Bezier interpolation alone takes
    its fuel as an argument, because it need not end ([bisection_may_not_end]);
    a value it returns does not depend on it.  Arena theorems ask for room below
    the last slot number, [u32::MAX], and the theorem on stale ids for fewer
    than 2^32 additions, the period of a generation.

    ** What modelling showed

    Where the code does something its comments or names do not say, a lemma or
    theorem states what it does: an unsorted range list; a frame lost by
    [snap] ([snap_loses_a_frame]); sample offsets that wrap
    ([sample_offset_wraps]); an in handle whose height is ignored, a panic on
    keys of different types and an endless bisection (Keyframe.v); negative
    elements accepted by [connect]; an array insertion that merges connections,
    two that wrap onto one element, an [unlink] of a stale id that edits the
    slot's new node, a transfer that drops every edge (GraphOps.v); a media in
    point overwritten by block edits and splits; a marker's time undone on the
    wrong marker; gap merges undone into an inconsistent track (GapCommands.v).

    ** Not modelled, and why

    Sample reads and writes convert between number formats and are left out, as
    are the retiming of clips and track heights (floats on their own) and XML
    save and load.  The ripple and pointer commands, the default transition
    command, project, folder and footage nodes, serialization, traversal and
    evaluation are further parts of the same crates.  Rendering, codecs, audio devices,
    OpenFX, the database, OTIO exchange, worker processes and the user interface
    are other crates; several are bindings to C libraries or a GPU.  Effect
    nodes take part in graphs as instances of [OtherBehavior]. *)

From Stdlib Require Export ZArith Lia.
From stdpp Require Export base list strings option numbers countable gmap.

#[export] Set Default Goal Selector "!".

(** * Fixed-width integers

    Rust's [as] casts keep the low bits of the source; the release profile of
    the workspace leaves overflow checks off, so a plain negation or addition
    on [i64] wraps the same way. *)

Declare Scope oak_scope.
Delimit Scope oak_scope with oak.

Definition wrap_signed (w x : Z) : Z := (x + 2 ^ (w - 1)) mod 2 ^ w - 2 ^ (w - 1).
Definition wrap_unsigned (w x : Z) : Z := x mod 2 ^ w.

Definition i64 (x : Z) : Z := wrap_signed 64 x.
Definition i32 (x : Z) : Z := wrap_signed 32 x.

(** [usize] and [u64] of a 64-bit target. *)
Definition usize (x : Z) : Z := wrap_unsigned 64 x.

Definition I32_MAX : Z := 2147483647.
Definition I32_MIN : Z := -2147483648.

Definition fits_i64 (x : Z) : Prop := (- 2 ^ 63 <= x < 2 ^ 63)%Z.
Definition fits_i128 (x : Z) : Prop := (- 2 ^ 127 <= x < 2 ^ 127)%Z.

Lemma i64_id x : fits_i64 x -> i64 x = x.
Proof.
  unfold fits_i64, i64, wrap_signed. intros H.
  rewrite Z.mod_small; lia.
Qed.

Lemma usize_id x : (0 <= x < 2 ^ 64)%Z -> usize x = x.
Proof. unfold usize, wrap_unsigned. apply Z.mod_small. Qed.

Lemma i32_id x : (I32_MIN <= x <= I32_MAX)%Z -> i32 x = x.
Proof.
  unfold i32, wrap_signed, I32_MIN, I32_MAX. intros H.
  rewrite Z.mod_small; lia.
Qed.

Lemma i32_range x : (I32_MIN <= i32 x <= I32_MAX)%Z.
Proof.
  unfold i32, wrap_signed, I32_MIN, I32_MAX.
  pose proof (Z.mod_pos_bound (x + 2 ^ (32 - 1)) (2 ^ 32)). lia.
Qed.

(** * Bounded loops

    A Rust [loop]/[while] is a step function from the loop state to either
    the next state or the loop's result.  [while_fuel] runs it; a measure
    that decreases on every step bounds the fuel it needs. *)

Fixpoint while_fuel {S R : Type} (fuel : nat) (step : S -> S + R) (s : S) : option R :=
  match fuel with
  | O => None
  | Datatypes.S fuel =>
      match step s with
      | inl s' => while_fuel fuel step s'
      | inr r => Some r
      end
  end.

Lemma while_fuel_spec {S R : Type} (step : S -> S + R) (Inv : S -> Prop)
    (Post : R -> Prop) (m : S -> nat) :
  (forall s, Inv s ->
     match step s with
     | inl s' => Inv s' /\ (m s' < m s)%nat
     | inr r => Post r
     end) ->
  forall fuel s, Inv s -> (m s < fuel)%nat ->
  exists r, while_fuel fuel step s = Some r /\ Post r.
Proof.
  intros Hstep fuel. induction fuel as [|fuel IH]; intros s Hs Hm; [lia|].
  simpl. specialize (Hstep s Hs). destruct (step s) as [s'|r].
  - destruct Hstep as [Hs' Hlt]. apply IH; [done|lia].
  - by exists r.
Qed.

(** Fuel that was enough stays enough. *)
Lemma while_fuel_mono {S R : Type} (step : S -> S + R) n m s r :
  (n <= m)%nat -> while_fuel n step s = Some r -> while_fuel m step s = Some r.
Proof.
  revert m s. induction n as [|n IH]; intros [|m] s Hle H; [done|done|lia|].
  simpl in *. destruct (step s); [|done]. apply IH; [lia|done].
Qed.

(** A loop that reaches a state that is its own successor never ends. *)
Fixpoint run_steps {S R : Type} (k : nat) (step : S -> S + R) (s : S) : option S :=
  match k with
  | O => Some s
  | Datatypes.S k => match step s with inl s' => run_steps k step s' | inr _ => None end
  end.

Lemma while_fuel_stuck {S R : Type} (step : S -> S + R) n k s s' :
  run_steps k step s = Some s' -> step s' = inl s' -> while_fuel n step s = None.
Proof.
  intros Hrun Hstuck. revert s n Hrun. induction k as [|k IH]; intros s n Hrun; simpl in Hrun.
  - injection Hrun as ->. induction n as [|n IHn]; [done|]. simpl. by rewrite Hstuck.
  - destruct n as [|n]; [done|]. simpl. destruct (step s); [|done]. by apply IH.
Qed.

(** * Binary search

    [slice::binary_search_by] of the standard library: [inl] is [Ok], [inr] is
    [Err] with the insertion point. *)

Section binary_search.
Context {A : Type} (f : A -> comparison) (l : list A).

Definition cmp_at (i : nat) : comparison := match l !! i with Some x => f x | None => Gt end.

Definition binary_search_step (s : nat * nat) : nat * nat + nat :=
  let '(base, size) := s in
  if (1 <? size)%nat then
    let half := (size / 2)%nat in
    let mid := (base + half)%nat in
    inl (match cmp_at mid with Gt => base | _ => mid end, size - half)%nat
  else inr base.

Definition binary_search_by : nat + nat :=
  match length l with
  | O => inr O
  | _ =>
      let base := default O (while_fuel (S (length l)) binary_search_step (O, length l)) in
      match cmp_at base with
      | Eq => inl base
      | Lt => inr (S base)
      | Gt => inr base
      end
  end.

(** The order of the list with respect to the target. *)
Definition split_by : Prop :=
  (forall i j x y, (i < j)%nat -> l !! i = Some x -> l !! j = Some y -> f x = Gt -> f y = Gt) /\
  (forall i j x y, (i < j)%nat -> l !! i = Some x -> l !! j = Some y -> f y = Lt -> f x = Lt).

Lemma binary_search_by_spec :
  split_by ->
  match binary_search_by with
  | inl i => exists x, l !! i = Some x /\ f x = Eq
  | inr i => (i <= length l)%nat /\
      (forall j x, (j < i)%nat -> l !! j = Some x -> f x = Lt) /\
      (forall j x, (i <= j)%nat -> l !! j = Some x -> f x = Gt)
  end.
Proof.
  intros [Hup Hdown]. unfold binary_search_by.
  destruct (length l) as [|n] eqn:Hlen.
  { split; [done|]. split; [intros; lia|]. intros j x _ Hx.
    apply lookup_lt_Some in Hx. lia. }
  destruct (while_fuel_spec binary_search_step
    (fun s => (0 < s.2)%nat /\ (s.1 + s.2 <= S n)%nat /\
      (s.1 = O \/ cmp_at s.1 <> Gt) /\
      (forall j x, (s.1 + s.2 <= j)%nat -> l !! j = Some x -> f x = Gt))
    (fun base => (base < S n)%nat /\ (base = O \/ cmp_at base <> Gt) /\
      (forall j x, (base < j)%nat -> l !! j = Some x -> f x = Gt))
    (fun s => s.2)) with (fuel := S (S n)) (s := (O, S n)) as (base & -> & Hb & Hg & Hhi).
  - intros [base size] (H0 & H1 & H2 & H3). cbn [fst snd] in *. cbv beta iota zeta delta [binary_search_step].
    destruct (Nat.ltb_spec 1 size).
    + assert (0 < size / 2 < size)%nat.
      { split; [apply Nat.div_str_pos; lia|apply Nat.div_lt; lia]. }
      pose proof (Nat.Div0.mul_div_le size 2).
      split; [|cbn [snd]; lia]. cbn [fst snd]. destruct (cmp_at (base + size / 2)) eqn:Hc.
      * repeat split; [lia|lia|right; congruence|]. intros j x Hj. apply H3. lia.
      * repeat split; [lia|lia|right; congruence|]. intros j x Hj. apply H3. lia.
      * repeat split; [lia|lia|done|]. intros j x Hj Hx.
        unfold cmp_at in Hc. destruct (l !! (base + size / 2)%nat) as [y|] eqn:Hy.
        -- destruct (decide (j = base + size / 2)%nat) as [->|]; [by simplify_eq|].
           apply (Hup (base + size / 2)%nat j y x); [lia|done..].
        -- apply lookup_ge_None in Hy. apply lookup_lt_Some in Hx. lia.
    + split; [lia|split; [done|]]. intros j x Hj. apply H3. lia.
  - simpl. split; [lia|split; [lia|split; [by left|]]]. intros j x Hj Hx.
    apply lookup_lt_Some in Hx. lia.
  - simpl. lia.
  - simpl. unfold id. destruct (lookup_lt_is_Some_2 l base) as [x Hx]; [lia|].
    unfold cmp_at in Hg |- *. rewrite Hx in Hg |- *. destruct (f x) eqn:Hf.
    + by exists x.
    + split; [lia|]. split; [|intros j y Hj; apply Hhi; lia].
      intros j y Hj Hy. destruct (decide (j = base)) as [->|]; [by simplify_eq|].
      apply (Hdown j base y x); [lia|done..].
    + destruct Hg as [->|]; [|done]. split; [lia|]. split; [intros; lia|].
      intros j y _ Hy. destruct j; [by simplify_eq|]. apply (Hhi (S j)); [lia|done].
Qed.
End binary_search.

(** * Vectors

    Rust's [Vec::insert], [iter().position] and [Vec::retain] on lists;
    [Vec::remove] is stdpp's [delete] on an index in range. *)

Definition vec_insert {A : Type} (i : nat) (x : A) (l : list A) : list A :=
  take i l ++ x :: drop i l.

Fixpoint position {A : Type} (p : A -> bool) (l : list A) : option nat :=
  match l with
  | [] => None
  | x :: l => if p x then Some O else S <$> position p l
  end.

Definition retain {A : Type} (p : A -> bool) (l : list A) : list A :=
  List.filter p l.

(** [Vec::get(i)] as a [nat] index; [find]: the first element satisfying [p]. *)
Definition find {A : Type} (p : A -> bool) (l : list A) : option A := List.find p l.

Definition update_at {A : Type} (i : nat) (f : A -> A) (l : list A) : list A :=
  match l !! i with Some x => <[i := f x]> l | None => l end.

Section vectors.
Context {A : Type}.
Implicit Types (l : list A) (p : A -> bool).

Lemma length_vec_insert i x l : length (vec_insert i x l) = S (length l).
Proof.
  unfold vec_insert. rewrite length_app. simpl.
  rewrite length_take, length_drop. lia.
Qed.

Lemma elem_of_vec_insert i x l y : y ∈ vec_insert i x l <-> y = x \/ y ∈ l.
Proof.
  unfold vec_insert. rewrite elem_of_app, elem_of_cons.
  rewrite <- (take_drop i l) at 3. rewrite elem_of_app. tauto.
Qed.

Lemma vec_insert_Permutation i x l : vec_insert i x l ≡ₚ x :: l.
Proof.
  unfold vec_insert. rewrite <- Permutation_middle, take_drop. done.
Qed.

Lemma position_Some p l i :
  position p l = Some i ->
  exists x, l !! i = Some x /\ p x = true /\
    forall j y, (j < i)%nat -> l !! j = Some y -> p y = false.
Proof.
  revert i; induction l as [|x l IH]; intros i; simpl; [done|].
  destruct (p x) eqn:Hp.
  - intros [= <-]. exists x. split; [done|split; [done|]]. intros; lia.
  - intros Hi. destruct (position p l) as [k|]; [|done].
    simplify_eq/=. destruct (IH k eq_refl) as (y & ? & ? & Hlt).
    exists y. split; [done|split; [done|]].
    intros [|j] z Hj Hz; simplify_eq/=; [done|]. apply (Hlt j); [lia|done].
Qed.

Lemma position_None p l : position p l = None <-> forall x, x ∈ l -> p x = false.
Proof.
  induction l as [|x l IH]; simpl.
  - split; [|done]. intros _ x Hx. by apply elem_of_nil in Hx.
  - destruct (p x) eqn:Hp; split.
    + done.
    + intros H. specialize (H x). rewrite Hp in H.
      discriminate H. apply elem_of_cons. by left.
    + intros H y Hy. apply elem_of_cons in Hy as [->|Hy]; [done|].
      destruct (position p l); [done|]. by apply IH.
    + intros H. destruct IH as [_ IH]. rewrite IH; [done|].
      intros y Hy. apply H. apply elem_of_cons. by right.
Qed.

Lemma position_app_r p l1 x l2 :
  (forall y, y ∈ l1 -> p y = false) -> p x = true ->
  position p (l1 ++ x :: l2) = Some (length l1).
Proof.
  intros H1 Hx. induction l1 as [|y l1 IH]; simpl.
  - by rewrite Hx.
  - rewrite (H1 y) by (apply elem_of_cons; by left).
    rewrite IH; [done|]. intros z Hz. apply H1. apply elem_of_cons. by right.
Qed.

Lemma elem_of_retain p l x : x ∈ retain p l <-> x ∈ l /\ p x = true.
Proof.
  unfold retain. rewrite !list_elem_of_In. apply List.filter_In.
Qed.

Lemma retain_all p l : (forall x, x ∈ l -> p x = true) -> retain p l = l.
Proof.
  unfold retain. induction l as [|x l IH]; intros H; simpl; [done|].
  rewrite (H x) by (apply elem_of_cons; by left).
  f_equal. apply IH. intros y Hy. apply H. apply elem_of_cons. by right.
Qed.

Lemma retain_cons p x l : retain p (x :: l) = if p x then x :: retain p l else retain p l.
Proof. done. Qed.

Lemma retain_app p l1 l2 : retain p (l1 ++ l2) = retain p l1 ++ retain p l2.
Proof. unfold retain. apply List.filter_app. Qed.

Lemma retain_ext p q l : (forall x, x ∈ l -> p x = q x) -> retain p l = retain q l.
Proof.
  intros H. unfold retain. apply List.filter_ext_in. intros x Hx. apply H. by apply list_elem_of_In.
Qed.

Lemma retain_retain p q l : retain p (retain q l) = retain (fun x => q x && p x) l.
Proof.
  unfold retain. induction l as [|x l IH]; simpl; [done|].
  destruct (q x); simpl; [|done]. destruct (p x); by rewrite IH.
Qed.

Lemma retain_NoDup p l : NoDup l -> NoDup (retain p l).
Proof.
  unfold retain. induction 1 as [|x l Hx Hl IH]; simpl; [constructor|].
  destruct (p x); [|done]. constructor; [|done].
  intros Hin. apply Hx. apply list_elem_of_In in Hin.
  apply List.filter_In in Hin as [Hin _]. by apply list_elem_of_In.
Qed.

Lemma length_update_at i f l : length (update_at i f l) = length l.
Proof. unfold update_at. destruct (l !! i); [by rewrite length_insert|done]. Qed.

Lemma lookup_update_at i f l j :
  update_at i f l !! j = if decide (i = j) then f <$> l !! j else l !! j.
Proof.
  unfold update_at. destruct (l !! i) as [x|] eqn:Hi; case_decide; subst.
  - rewrite Hi. simpl. apply list_lookup_insert_eq.
    by apply lookup_lt_Some in Hi.
  - by rewrite list_lookup_insert_ne.
  - by rewrite Hi.
  - done.
Qed.

Lemma update_at_id i f l x : l !! i = Some x -> f x = x -> update_at i f l = l.
Proof.
  intros Hi Hf. unfold update_at. rewrite Hi, Hf. by apply list_insert_id.
Qed.

Lemma update_at_compose i f g l :
  update_at i g (update_at i f l) = update_at i (fun x => g (f x)) l.
Proof.
  apply list_eq. intros j. rewrite !lookup_update_at.
  case_decide; [|done]. by destruct (l !! j).
Qed.
End vectors.

Arguments vec_insert : simpl never.
Arguments update_at : simpl never.

Create HintDb oak discriminated.
#[export] Hint Resolve retain_NoDup : oak.

(** * Tactics *)

(** Turn boolean comparisons on [Z] into propositions. *)
Ltac b2p :=
  repeat match goal with
  | H : (_ && _)%bool = true |- _ => apply andb_true_iff in H; destruct H
  | H : (_ || _)%bool = false |- _ => apply orb_false_iff in H; destruct H
  | H : negb _ = true |- _ => apply negb_true_iff in H
  | H : negb _ = false |- _ => apply negb_false_iff in H
  | H : (_ =? _)%Z = true |- _ => apply Z.eqb_eq in H
  | H : (_ =? _)%Z = false |- _ => apply Z.eqb_neq in H
  | H : (_ <? _)%Z = true |- _ => apply Z.ltb_lt in H
  | H : (_ <? _)%Z = false |- _ => apply Z.ltb_ge in H
  | H : (_ <=? _)%Z = true |- _ => apply Z.leb_le in H
  | H : (_ <=? _)%Z = false |- _ => apply Z.leb_gt in H
  | H : (_ =? _)%nat = true |- _ => apply Nat.eqb_eq in H
  | H : (_ =? _)%nat = false |- _ => apply Nat.eqb_neq in H
  | H : (_ <? _)%nat = true |- _ => apply Nat.ltb_lt in H
  | H : (_ <? _)%nat = false |- _ => apply Nat.ltb_ge in H
  end.

(** Split on the first [Z] comparison of the goal. *)
Ltac zcase :=
  match goal with
  | |- context [(?a =? ?b)%Z] => destruct (Z.eqb_spec a b)
  | |- context [(?a <? ?b)%Z] => destruct (Z.ltb_spec a b)
  | |- context [(?a <=? ?b)%Z] => destruct (Z.leb_spec a b)
  end.
