(* ===== verification/Rational.v ===== *)
(** Rational numbers with the oakcore semantics (crates/oak-core/src/rational.rs):
    fractions capped at [i32::MAX], the [0/0] sentinel, FFmpeg's [av_reduce]
    continued-fraction rounding and the total order the timeline sorts by. *)

From Stdlib Require Import Znumtheory QArith Lqa Ascii DecimalString DecimalZ DecimalPos DecimalFacts.
From S2P Require Import Prelude.

#[local] Open Scope Z_scope.

(** * Definitions *)

(** [REDUCE_MAX = i32::MAX as i128]. *)
Definition REDUCE_MAX : Z := I32_MAX.

Record Rational : Type := mkRational { num : Z; den : Z }.

#[export] Instance Rational_eq_dec : EqDecision Rational.
Proof. solve_decision. Defined.

Definition RATIONAL_MIN : Rational := mkRational (-2147483647) 1.
Definition RATIONAL_MAX : Rational := mkRational 2147483647 1.

(** [Rational::NULL], and [Default]: 0/0. *)
Definition NULL : Rational := mkRational 0 0.

(** Euclid's loop of [i64_gcd]; [%] on [i128] is the truncated remainder. *)
Definition gcd_step (s : Z * Z) : (Z * Z) + Z :=
  let '(a, b) := s in
  if b =? 0 then inr a else inl (b, Z.rem a b).

Definition gcd_measure (s : Z * Z) : nat :=
  let '(a, b) := s in
  if b =? 0 then O
  else if b <=? a then Z.to_nat (1 + Z.log2 a + Z.log2 b)
  else Z.to_nat (2 + Z.log2 a + Z.log2 b).

Definition i64_gcd (a b : Z) : Z :=
  let a := if a <? 0 then - a else a in
  let b := if b <? 0 then - b else b in
  default 0 (while_fuel (S (gcd_measure (a, b))) gcd_step (a, b)).

(** State of the [av_reduce] loop: the last two convergents and the pair the
    continued fraction is expanded from. *)
Record Conv : Type := mkConv {
  a0n : Z; a0d : Z; a1n : Z; a1d : Z; cn : Z; cd : Z
}.

(** One iteration of the loop; [break] and loop exit both deliver [a1]. *)
Definition conv_step (max : Z) (s : Conv) : Conv + (Z * Z) :=
  let '(mkConv a0n a0d a1n a1d n d) := s in
  if d =? 0 then inr (a1n, a1d) else
  let x := Z.quot n d in
  let next_den := n - d * x in
  let a2n := x * a1n + a0n in
  let a2d := x * a1d + a0d in
  if (max <? a2n) || (max <? a2d) then
    let x := if negb (a1n =? 0) then Z.quot (max - a0n) a1n else x in
    let x := if negb (a1d =? 0) && (Z.quot (max - a0d) a1d <? x)
             then Z.quot (max - a0d) a1d else x in
    if n * a1d <? d * (2 * x * a1d + a0d)
    then inr (x * a1n + a0n, x * a1d + a0d)
    else inr (a1n, a1d)
  else inl (mkConv a1n a1d a2n a2d d next_den).

Definition conv_measure (s : Conv) : nat := gcd_measure (cn s, cd s).

Definition conv_init (num den : Z) : Conv := mkConv 0 1 1 0 num den.

Definition convergent (num den max : Z) : Z * Z :=
  default (0, 0)
    (while_fuel (S (conv_measure (conv_init num den))) (conv_step max) (conv_init num den)).

(** [reduce_fraction(&mut num, &mut den, max)], returning the two updated values. *)
Definition reduce_fraction (num den max : Z) : Z * Z :=
  if den =? 0 then (0, den) else
  let sign := xorb (num <? 0) (den <? 0) in
  let gcd := i64_gcd num den in
  let '(num, den) :=
    if negb (gcd =? 0)
    then (Z.quot (if num <? 0 then - num else num) gcd,
          Z.quot (if den <? 0 then - den else den) gcd)
    else (num, den) in
  if (num <=? max) && (den <=? max)
  then ((if sign then - num else num), den)
  else let '(a1n, a1d) := convergent num den max in
       ((if sign then - a1n else a1n), a1d).

(** [fix_signs(&mut num, &mut den)] on [i64]s: negation wraps. *)
Definition fix_signs (num den : Z) : Z * Z :=
  if den <? 0 then (i64 (- num), i64 (- den))
  else if den =? 0 then (0, den)
  else if num =? 0 then (num, 1)
  else (num, den).

Definition from_reduced (num den : Z) : Rational :=
  let '(num, den) := fix_signs (i64 num) (i64 den) in
  mkRational num den.

(** [compare_fractions]; [>>] on [i64] is the arithmetic shift. *)
Definition compare_fractions (an ad bn bd : Z) : Z :=
  let tmp := an * bd - bn * ad in
  if negb (tmp =? 0) then (if 0 <? tmp then 1 else -1)
  else if negb (bd =? 0) && negb (ad =? 0) then 0
  else if negb (an =? 0) && negb (bn =? 0)
       then i32 (Z.shiftr an 31 - Z.shiftr bn 31)
  else I32_MIN.

(** [Rational::new]. *)
Definition new (num den : Z) : Rational :=
  let '(num, den) := fix_signs num den in
  let '(num, den) := reduce_fraction num den REDUCE_MAX in
  mkRational (i64 num) (i64 den).

Definition numerator (r : Rational) : Z := num r.
Definition denominator (r : Rational) : Z := den r.
Definition is_null (r : Rational) : bool := num r =? 0.
Definition is_nan (r : Rational) : bool := den r =? 0.

Definition is_minmax (r : Rational) : bool :=
  bool_decide (r = RATIONAL_MIN) || bool_decide (r = RATIONAL_MAX).

Definition flipped (r : Rational) : Rational :=
  if num r =? 0 then r
  else let '(n, d) := fix_signs (den r) (num r) in mkRational n d.

(** [timestamp_to_time(ts, timebase)]. *)
Definition timestamp_to_time (ts : Z) (timebase : Rational) : Rational :=
  let '(n, d) := reduce_fraction (num timebase * ts) (den timebase) REDUCE_MAX in
  from_reduced n d.

(** The four operators share the sentinel guards. *)
Definition guarded (op : Rational -> Rational -> Rational) (a b : Rational) : Rational :=
  if is_minmax a || is_minmax b then NULL
  else if is_nan a then a
  else if is_nan b then NULL
  else op a b.

Definition reduced (n d : Z) : Rational :=
  let '(n, d) := reduce_fraction n d REDUCE_MAX in from_reduced n d.

Definition add : Rational -> Rational -> Rational :=
  guarded (fun a b => reduced (num a * den b + num b * den a) (den a * den b)).
Definition sub : Rational -> Rational -> Rational :=
  guarded (fun a b => reduced (num a * den b - num b * den a) (den a * den b)).
Definition mul : Rational -> Rational -> Rational :=
  guarded (fun a b => reduced (num a * num b) (den a * den b)).
Definition div : Rational -> Rational -> Rational :=
  guarded (fun a b => reduced (num a * den b) (den a * num b)).

(** [Ord::cmp]. *)
Definition cmp (a b : Rational) : comparison :=
  match den a =? 0, den b =? 0 with
  | true, true => Eq
  | true, false => Lt
  | false, true => Gt
  | false, false =>
      let c := compare_fractions (num a) (den a) (num b) (den b) in
      if c =? 0 then Eq else if c =? 1 then Gt else Lt
  end.

(** The comparison operators and [std::cmp::{min,max}] derived from [Ord]:
    [max] returns its second argument on a tie, [min] its first. *)
Definition ltb (a b : Rational) : bool := match cmp a b with Lt => true | _ => false end.
Definition leb (a b : Rational) : bool := match cmp a b with Gt => false | _ => true end.
Definition eqb (a b : Rational) : bool := bool_decide (a = b).
Definition rmax (a b : Rational) : Rational := if ltb b a then a else b.
Definition rmin (a b : Rational) : Rational := if ltb b a then b else a.

(** [Rational::new(0, 1)], the literal the callers write. *)
Definition ZERO : Rational := new 0 1.

Declare Scope rat_scope.
Delimit Scope rat_scope with rat.
Bind Scope rat_scope with Rational.
Infix "+" := add : rat_scope.
Infix "-" := sub : rat_scope.
Infix "<?" := ltb : rat_scope.
Infix "<=?" := leb : rat_scope.
Infix "=?" := eqb : rat_scope.

(** ** Text form *)

(** [str::trim]: Rust strings are UTF-8, and [trim] removes the code points
    with the Unicode [White_Space] property.  [is_space] holds the one-byte
    ones (U+0009 to U+000D, U+0020), [is_space2] the two-byte ones (U+0085,
    U+00A0) and [is_space3] the three-byte ones (U+1680, U+2000 to U+200A,
    U+2028, U+2029, U+202F, U+205F, U+3000). *)
Definition is_space (c : ascii) : bool :=
  let n := N_of_ascii c in ((n =? 32) || ((9 <=? n) && (n <=? 13)))%N.

Definition is_space2 (c d : ascii) : bool :=
  let n := N_of_ascii d in
  ((N_of_ascii c =? 0xC2) && ((n =? 0x85) || (n =? 0xA0)))%N.

Definition is_space3 (c d e : ascii) : bool :=
  let x := N_of_ascii c in let y := N_of_ascii d in let n := N_of_ascii e in
  (((x =? 0xE1) && (y =? 0x9A) && (n =? 0x80))
   || ((x =? 0xE2) && (y =? 0x80)
       && (((0x80 <=? n) && (n <=? 0x8A)) || (n =? 0xA8) || (n =? 0xA9) || (n =? 0xAF)))
   || ((x =? 0xE2) && (y =? 0x81) && (n =? 0x9F))
   || ((x =? 0xE3) && (y =? 0x80) && (n =? 0x80)))%N.

Fixpoint trim_start (s : string) : string :=
  match s with
  | String c r =>
      if is_space c then trim_start r
      else match r with
           | String d r2 =>
               if is_space2 c d then trim_start r2
               else match r2 with
                    | String e r3 => if is_space3 c d e then trim_start r3 else s
                    | EmptyString => s
                    end
           | EmptyString => s
           end
  | EmptyString => EmptyString
  end.

(** The tail is cut where nothing but white space is left. *)
Fixpoint trim_end (s : string) : string :=
  match s with
  | EmptyString => EmptyString
  | String c r =>
      match trim_start s with
      | EmptyString => EmptyString
      | String _ _ => String c (trim_end r)
      end
  end.

Definition trim (s : string) : string := trim_end (trim_start s).

(** [str::parse::<i64>]: an optional sign, at least one digit, in range. *)
Definition parse_digits (s : string) : option Z :=
  Z.of_uint <$> NilZero.uint_of_string s.

Definition parse_signed (s : string) : option Z :=
  match s with
  | EmptyString => None
  | String c r =>
      if (c =? "-")%char then Z.opp <$> parse_digits r
      else if (c =? "+")%char then parse_digits r
      else parse_digits s
  end.

Definition parse_i64 (s : string) : option Z :=
  match parse_signed s with
  | Some z => if (- 2 ^ 63 <=? z) && (z <? 2 ^ 63) then Some z else None
  | None => None
  end.

(** [to_int]: garbage or empty input yields 0. *)
Definition to_int (s : string) : Z := default 0 (parse_i64 (trim s)).

(** [str::split('/')]. *)
Fixpoint split_slash (s : string) : list string :=
  match s with
  | EmptyString => [EmptyString]
  | String c r =>
      if (c =? "/")%char then EmptyString :: split_slash r
      else match split_slash r with
           | [] => [String c EmptyString]
           | e :: es => String c e :: es
           end
  end.

Definition from_string (s : string) : Rational :=
  match split_slash s with
  | [e0] => new (to_int e0) 1
  | [e0; e1] => new (to_int e0) (to_int e1)
  | _ => NULL
  end.

(** [format!("{}/{}", num, den)]. *)
Definition fmt_i64 (z : Z) : string := NilZero.string_of_int (Z.to_int z).
Definition to_display_string (r : Rational) : string :=
  (fmt_i64 (num r) +:+ "/" +:+ fmt_i64 (den r))%string.

(** The canonical form [new] and the operators produce: the sentinel [0/0],
    or a fraction in lowest terms with a positive denominator, both parts
    within the cap. *)
Definition wf (r : Rational) : Prop :=
  (num r = 0 /\ den r = 0) \/
  (0 < den r <= REDUCE_MAX /\ Z.abs (num r) <= REDUCE_MAX /\ Z.gcd (num r) (den r) = 1).

(** * Euclid's loop *)

Lemma log2_rem a b : 0 < b <= a -> Z.rem a b <> 0 -> Z.log2 (Z.rem a b) < Z.log2 a.
Proof.
  intros Hb Hr. rewrite Z.rem_mod_nonneg in * by lia.
  pose proof (Z.mod_pos_bound a b ltac:(lia)).
  assert (2 * (a mod b) <= a).
  { pose proof (Z.div_mod a b ltac:(lia)). pose proof (Z.div_le_lower_bound a b 1 ltac:(lia) ltac:(lia)). nia. }
  enough (Z.log2 (2 * (a mod b)) <= Z.log2 a).
  { rewrite Z.log2_double in * by lia. lia. }
  apply Z.log2_le_mono; lia.
Qed.

Lemma gcd_measure_decreases a b :
  0 <= a -> 0 <= b -> b <> 0 -> (gcd_measure (b, Z.rem a b) < gcd_measure (a, b))%nat.
Proof.
  intros Ha Hb Hb0. unfold gcd_measure.
  pose proof (Z.log2_nonneg a). pose proof (Z.log2_nonneg b).
  pose proof (Z.rem_bound_pos a b ltac:(lia) ltac:(lia)).
  destruct (Z.eqb_spec b 0); [lia|].
  destruct (Z.leb_spec b a).
  - destruct (Z.eqb_spec (Z.rem a b) 0); [lia|].
    destruct (Z.leb_spec (Z.rem a b) b); [|lia].
    pose proof (log2_rem a b ltac:(lia) ltac:(lia)).
    pose proof (Z.log2_nonneg (Z.rem a b)). lia.
  - rewrite Z.rem_small by lia.
    destruct (Z.eqb_spec a 0); [lia|].
    destruct (Z.leb_spec a b); lia.
Qed.

Lemma gcd_rem a b : b <> 0 -> Z.gcd b (Z.rem a b) = Z.gcd a b.
Proof.
  intros Hb.
  replace (Z.rem a b) with (a + - (Z.quot a b) * b)
    by (pose proof (Z.quot_rem a b Hb); lia).
  rewrite Z.gcd_add_mult_diag_r. apply Z.gcd_comm.
Qed.

Lemma i64_gcd_gcd a b : i64_gcd a b = Z.gcd a b.
Proof.
  unfold i64_gcd.
  set (x := if a <? 0 then - a else a). set (y := if b <? 0 then - b else b).
  assert (Hx : x = Z.abs a) by (unfold x; zcase; lia).
  assert (Hy : y = Z.abs b) by (unfold y; zcase; lia).
  clearbody x y. subst x y.
  destruct (while_fuel_spec gcd_step
    (fun '(p, q) => 0 <= p /\ 0 <= q /\ Z.gcd p q = Z.gcd a b)
    (fun r => r = Z.gcd a b) gcd_measure) with
    (fuel := S (gcd_measure (Z.abs a, Z.abs b))) (s := (Z.abs a, Z.abs b))
    as (r & -> & ->); [| |lia|done].
  - intros [p q] (Hp & Hq & Hg). unfold gcd_step. destruct (Z.eqb_spec q 0) as [->|Hq0].
    + rewrite Z.gcd_0_r in Hg. lia.
    + pose proof (Z.rem_bound_pos p q ltac:(lia) ltac:(lia)).
      split; [|by apply gcd_measure_decreases].
      rewrite gcd_rem by done. lia.
  - rewrite Z.gcd_abs_l, Z.gcd_abs_r. lia.
Qed.

(** * The continued-fraction loop *)

Section conv.
Context (N D max : Z) (Hmax : 1 <= max) (HN : 0 <= N) (HD : 0 < D).
Context (Hgcd : Z.gcd N D = 1) (Hbig : ~ (N <= max /\ D <= max)).

(** The convergents stay within the cap and in lowest terms (their
    determinant is a unit), and the fraction being expanded is recovered
    from them and the current remainder pair. *)
Definition conv_inv (s : Conv) : Prop :=
  (0 <= a0n s <= max /\ 0 <= a0d s <= max) /\
  (0 <= a1n s <= max /\ 0 <= a1d s <= max) /\
  (0 <= cn s /\ 0 <= cd s) /\
  N = a1n s * cn s + a0n s * cd s /\
  D = a1d s * cn s + a0d s * cd s /\
  Z.abs (a1n s * a0d s - a0n s * a1d s) = 1.

Definition conv_post (r : Z * Z) : Prop :=
  0 <= r.1 <= max /\ 0 < r.2 <= max /\ Z.gcd r.1 r.2 = 1.

Lemma det_gcd p q u v : Z.abs (p * u - v * q) = 1 -> Z.gcd p q = 1.
Proof.
  intros Hdet.
  pose proof (Z.gcd_nonneg p q).
  assert ((Z.gcd p q | 1)).
  { destruct (Z.gcd_divide_l p q) as [k Hk]. destruct (Z.gcd_divide_r p q) as [m Hm].
    set (g := Z.gcd p q) in *. clearbody g.
    destruct (Z.abs_spec (p * u - v * q)) as [[_ E]|[_ E]]; rewrite E in Hdet.
    - exists (k * u - v * m). rewrite <- Hdet, Hk, Hm. ring.
    - exists (v * m - k * u). rewrite <- Hdet, Hk, Hm. ring. }
  apply Z.divide_1_r_nonneg in H0; lia.
Qed.

Lemma conv_exit s : conv_inv s -> cd s = 0 -> False.
Proof.
  destruct s as [p0 q0 p1 q1 n d]. unfold conv_inv; simpl.
  intros (_ & ? & ? & HNe & HDe & _) ->.
  apply Hbig. rewrite !Z.mul_0_r, !Z.add_0_r in *.
  assert (Hn : (n | 1)).
  { rewrite <- Hgcd. apply Z.gcd_greatest; [exists p1|exists q1]; lia. }
  apply Z.divide_1_r_nonneg in Hn; [|lia]. subst n. lia.
Qed.

Lemma conv_break s x :
  conv_inv s -> 0 <= x -> 0 < cd s ->
  x * a1n s + a0n s <= max -> x * a1d s + a0d s <= max ->
  cn s * a1d s < cd s * (2 * x * a1d s + a0d s) ->
  conv_post (x * a1n s + a0n s, x * a1d s + a0d s).
Proof.
  destruct s as [p0 q0 p1 q1 n d]. unfold conv_inv, conv_post; simpl.
  intros ((? & ?) & (? & ?) & (? & ?) & HNe & HDe & Hdet) Hx Hd Hb1 Hb2 Hc.
  split; [nia|]. split.
  - split; [|done].
    assert (0 <= n * q1) by nia.
    assert (0 < 2 * x * q1 + q0) by nia. nia.
  - apply (det_gcd _ _ q1 p1).
    replace ((x * p1 + p0) * q1 - p1 * (x * q1 + q0))
      with (- (p1 * q0 - p0 * q1)) by ring.
    by rewrite Z.abs_opp.
Qed.

Lemma conv_keep s :
  conv_inv s -> 0 < cd s ->
  (a1d s = 0 -> False) -> conv_post (a1n s, a1d s).
Proof.
  destruct s as [p0 q0 p1 q1 n d]. unfold conv_inv, conv_post; simpl.
  intros ((? & ?) & (? & ?) & (? & ?) & HNe & HDe & Hdet) Hd Hq.
  split; [done|]. split; [lia|]. by apply (det_gcd _ _ q0 p0).
Qed.

(** The clamped quotient [x] of the last, partial step. *)
Lemma conv_clamp s x0 :
  conv_inv s -> 0 <= x0 -> 0 < cd s ->
  let x1 := if negb (a1n s =? 0) then Z.quot (max - a0n s) (a1n s) else x0 in
  let x := if negb (a1d s =? 0) && (Z.quot (max - a0d s) (a1d s) <? x1)
           then Z.quot (max - a0d s) (a1d s) else x1 in
  0 <= x /\ x * a1n s + a0n s <= max /\ x * a1d s + a0d s <= max.
Proof.
  destruct s as [p0 q0 p1 q1 n d]. unfold conv_inv; simpl.
  intros ((? & ?) & (? & ?) & (? & ?) & HNe & HDe & Hdet) Hx0 Hd.
  assert (Hq : forall u v, 0 <= u -> 0 < v -> 0 <= Z.quot u v /\ Z.quot u v * v <= u).
  { intros u v Hu Hv. rewrite Z.quot_div_nonneg by lia. split.
    - apply Z.div_pos; lia.
    - pose proof (Z.mul_div_le u v Hv). lia. }
  destruct (Z.eqb_spec p1 0) as [Hp1|Hp1]; destruct (Z.eqb_spec q1 0) as [Hq1|Hq1]; simpl;
    try (exfalso; subst; rewrite ?Z.mul_0_l, ?Z.mul_0_r in Hdet; simpl in Hdet; lia).
  - destruct (Hq (max - q0) q1) as [? ?]; [lia|lia|]. subst p1.
    destruct (Z.ltb_spec (Z.quot (max - q0) q1) x0); nia.
  - destruct (Hq (max - p0) p1) as [? ?]; [lia|lia|]. subst q1. nia.
  - destruct (Hq (max - p0) p1) as [? ?]; [lia|lia|].
    destruct (Hq (max - q0) q1) as [? ?]; [lia|lia|].
    destruct (Z.ltb_spec (Z.quot (max - q0) q1) (Z.quot (max - p0) p1)); nia.
Qed.

Lemma conv_step_ok s :
  conv_inv s ->
  match conv_step max s with
  | inl s' => conv_inv s' /\ (conv_measure s' < conv_measure s)%nat
  | inr r => conv_post r
  end.
Proof.
  intros Hinv. pose proof (conv_exit s Hinv) as Hexit.
  pose proof (conv_break s) as Hbreak. pose proof (conv_keep s Hinv) as Hkeep.
  pose proof (conv_clamp s) as Hclamp.
  destruct s as [p0 q0 p1 q1 n d]. unfold conv_step. simpl in *.
  destruct (Z.eqb_spec d 0) as [->|Hd0]; [by destruct Hexit|].
  pose proof Hinv as ((? & ?) & (? & ?) & (? & ?) & HNe & HDe & Hdet). simpl in *.
  pose proof (Z.quot_rem n d Hd0) as Hqr.
  pose proof (Z.rem_bound_pos n d ltac:(lia) ltac:(lia)) as Hrem.
  assert (Hq0 : 0 <= Z.quot n d) by (apply Z.quot_pos; lia).
  destruct (orb _ _) eqn:Hover.
  - specialize (Hclamp (Z.quot n d) Hinv Hq0 ltac:(lia)).
    set (x := if negb (q1 =? 0) && _ then _ else _) in *. clearbody x.
    destruct Hclamp as (Hx & Hb1 & Hb2).
    destruct (Z.ltb_spec (n * q1) (d * (2 * x * q1 + q0))) as [Hc|Hc].
    + apply Hbreak; [done|lia..].
    + apply Hkeep; [lia|]. intros ->.
      assert (Hu : Z.abs (p1 * q0) = 1) by (rewrite <- Hdet; f_equal; lia).
      assert (q0 <> 0) by (intros ->; rewrite Z.mul_0_r in Hu; done).
      nia.
  - b2p. split.
    + unfold conv_inv; simpl. repeat split; try lia; try nia.
    + replace (n - d * Z.quot n d) with (Z.rem n d) by lia.
      apply gcd_measure_decreases; lia.
Qed.

Lemma convergent_post : conv_post (convergent N D max).
Proof.
  unfold convergent.
  destruct (while_fuel_spec (conv_step max) conv_inv conv_post conv_measure conv_step_ok)
    with (fuel := S (conv_measure (conv_init N D))) (s := conv_init N D)
    as (r & -> & Hr); [|lia|done].
  unfold conv_inv; simpl. repeat split; lia.
Qed.
End conv.

(** * [reduce_fraction] *)

Lemma quot_abs_gcd n d : d <> 0 ->
  Z.quot (Z.abs n) (Z.gcd n d) * Z.gcd n d = Z.abs n.
Proof.
  intros Hd. assert (0 < Z.gcd n d).
  { pose proof (Z.gcd_nonneg n d). assert (Z.gcd n d <> 0); [|lia].
    intros E. apply Z.gcd_eq_0 in E. lia. }
  destruct (Z.gcd_divide_l n d) as [k Hk].
  rewrite Z.mul_comm, Z.quot_div_nonneg by lia.
  rewrite <- Z.divide_div_mul_exact; [|lia|].
  - rewrite Z.mul_comm. apply Z.div_mul. lia.
  - apply Z.divide_abs_r. by exists k.
Qed.

(** Lowest terms, by dividing out the greatest common divisor. *)
Definition lowest (n d : Z) : Z * Z := (Z.quot n (Z.gcd n d), Z.quot d (Z.gcd n d)).

Lemma lowest_spec n d : 0 < d ->
  let '(n', d') := lowest n d in
  n' * d = n * d' /\ 0 < d' <= d /\ Z.gcd n' d' = 1 /\ Z.abs n' <= Z.abs n.
Proof.
  intros Hd. unfold lowest. set (g := Z.gcd n d).
  assert (Hg : 0 < g).
  { pose proof (Z.gcd_nonneg n d). assert (g <> 0); [|lia].
    intros E. apply Z.gcd_eq_0 in E. lia. }
  destruct (Z.gcd_divide_l n d) as [k Hk], (Z.gcd_divide_r n d) as [m Hm].
  fold g in Hk, Hm. rewrite Hk, Hm, !Z.quot_mul by lia.
  assert (Hm0 : 0 < m) by nia.
  split; [ring|]. split; [nia|]. split; [|nia].
  assert (Hgg : Z.gcd (k * g) (m * g) = g) by (rewrite <- Hk, <- Hm; done).
  rewrite Z.gcd_mul_mono_r_nonneg in Hgg by lia. nia.
Qed.

Lemma coprime_unique n d n' d' :
  0 < d -> 0 < d' -> Z.gcd n d = 1 -> Z.gcd n' d' = 1 -> n * d' = n' * d ->
  n = n' /\ d = d'.
Proof.
  intros Hd Hd' Hg Hg' E.
  assert (d = d').
  { apply Z.divide_antisym_nonneg; [lia|lia| |].
    - apply (Z.gauss d n d'); [exists n'; lia|]. by rewrite Z.gcd_comm.
    - apply (Z.gauss d' n' d); [exists n; lia|]. by rewrite Z.gcd_comm. }
  split; [|done]. subst d'. nia.
Qed.

Lemma reduce_fraction_pos n d :
  0 < d ->
  let '(n', d') := lowest (Z.abs n) d in
  reduce_fraction n d REDUCE_MAX =
  let s := if n <? 0 then -1 else 1 in
  if (n' <=? REDUCE_MAX) && (d' <=? REDUCE_MAX) then (s * n', d')
  else let '(p, q) := convergent n' d' REDUCE_MAX in (s * p, q).
Proof.
  intros Hd. unfold lowest, reduce_fraction.
  rewrite Z.gcd_abs_l, i64_gcd_gcd.
  assert (Z.gcd n d <> 0) by (intros E; apply Z.gcd_eq_0 in E; lia).
  destruct (Z.eqb_spec d 0); [lia|]. destruct (Z.ltb_spec d 0); [lia|].
  destruct (Z.eqb_spec (Z.gcd n d) 0); [lia|]. simpl.
  replace (if n <? 0 then - n else n) with (Z.abs n) by (zcase; lia).
  destruct (_ && _); [|destruct (convergent _ _ _) as [p q]];
    destruct (Z.ltb_spec n 0); simpl; f_equal; lia.
Qed.

Lemma reduce_fraction_opp n d :
  d < 0 -> reduce_fraction n d REDUCE_MAX = reduce_fraction (- n) (- d) REDUCE_MAX \/
           (n = 0 /\ (reduce_fraction n d REDUCE_MAX).1 = 0).
Proof.
  intros Hd. unfold reduce_fraction. rewrite !i64_gcd_gcd, Z.gcd_opp_l, Z.gcd_opp_r.
  destruct (Z.eqb_spec d 0); [lia|]. destruct (Z.eqb_spec (-d) 0); [lia|].
  destruct (Z.eqb_spec n 0) as [->|Hn].
  - right. split; [done|].
    assert (Hg : Z.gcd 0 d <> 0) by (intros E; apply Z.gcd_eq_0 in E; lia).
    destruct (Z.eqb_spec (Z.gcd 0 d) 0); [lia|]. simpl.
    destruct (Z.ltb_spec d 0); [|lia]. rewrite Z.quot_0_l by lia.
    rewrite Z.gcd_0_l, Z.abs_neq by lia. rewrite Z.quot_same by lia. done.
  - left. assert (Hg : Z.gcd n d <> 0) by (intros E; apply Z.gcd_eq_0 in E; lia).
    destruct (Z.eqb_spec (Z.gcd n d) 0); [lia|].
    destruct (Z.ltb_spec d 0); [|lia]. destruct (Z.ltb_spec (-d) 0); [lia|].
    rewrite !Z.opp_involutive.
    destruct (Z.ltb_spec n 0), (Z.ltb_spec (-n) 0); try lia; simpl;
      rewrite ?Z.opp_involutive; done.
Qed.

Definition reduced_ok (p : Z * Z) : Prop :=
  Z.abs p.1 <= REDUCE_MAX /\ 0 < p.2 <= REDUCE_MAX /\ Z.gcd p.1 p.2 = 1.

Lemma reduce_fraction_ok n d : 0 < d -> reduced_ok (reduce_fraction n d REDUCE_MAX).
Proof.
  intros Hd. pose proof (reduce_fraction_pos n d Hd) as E.
  pose proof (lowest_spec (Z.abs n) d Hd) as Hl.
  destruct (lowest (Z.abs n) d) as [n' d']. rewrite E. clear E.
  destruct Hl as (Hcross & Hd' & Hg & Hn').
  assert (0 <= n') by nia.
  assert (Hs : forall s p q, s = 1 \/ s = -1 -> 0 <= p <= REDUCE_MAX ->
             0 < q <= REDUCE_MAX -> Z.gcd p q = 1 -> reduced_ok (s * p, q)).
  { intros s p q [-> | ->] Hp Hq Hpq; unfold reduced_ok; simpl fst; simpl snd.
    - rewrite Z.mul_1_l. lia.
    - replace (-1 * p) with (- p) by lia. rewrite Z.gcd_opp_l. lia. }
  assert (Hsgn : (if n <? 0 then -1 else 1) = 1 \/ (if n <? 0 then -1 else 1) = -1)
    by (zcase; auto).
  destruct (_ && _) eqn:Hfit; simpl.
  - b2p. apply Hs; [done|lia|lia|done].
  - assert (Hc : conv_post REDUCE_MAX (convergent n' d' REDUCE_MAX)).
    { apply convergent_post; [unfold REDUCE_MAX, I32_MAX; lia|lia|lia|done|].
      intros [? ?]. apply andb_false_iff in Hfit. destruct Hfit as [Hf|Hf]; b2p; lia. }
    destruct (convergent n' d' REDUCE_MAX) as [p q].
    destruct Hc as (Hp & Hq & Hpq); simpl in *. by apply Hs.
Qed.

Lemma reduce_fraction_exact n d n' d' :
  0 < d -> lowest n d = (n', d') -> Z.abs n' <= REDUCE_MAX -> d' <= REDUCE_MAX ->
  reduce_fraction n d REDUCE_MAX = (n', d').
Proof.
  intros Hd Hl Hn' Hd'.
  pose proof (reduce_fraction_pos n d Hd) as E.
  pose proof (lowest_spec n d Hd) as S1. rewrite Hl in S1.
  pose proof (lowest_spec (Z.abs n) d Hd) as S2.
  destruct (lowest (Z.abs n) d) as [m e]. rewrite E. clear E Hl.
  destruct S1 as (C1 & D1 & G1 & _). destruct S2 as (C2 & D2 & G2 & _).
  assert (Hu : Z.abs n' = m /\ d' = e).
  { apply coprime_unique; [lia|lia|by rewrite Z.gcd_abs_l|done|].
    apply (f_equal Z.abs) in C1. rewrite !Z.abs_mul, (Z.abs_eq d), (Z.abs_eq d') in C1 by lia.
    apply Z.mul_reg_r with d; [lia|].
    rewrite <- (Z.mul_assoc m), (Z.mul_comm d' d), (Z.mul_assoc m), C2.
    rewrite <- (Z.mul_assoc _ e), (Z.mul_comm e d), (Z.mul_assoc _ d), C1. ring. }
  destruct Hu as [<- <-].
  destruct (Z.leb_spec (Z.abs n') REDUCE_MAX); [|lia].
  destruct (Z.leb_spec d' REDUCE_MAX); [|lia]. simpl.
  f_equal. destruct (Z.ltb_spec n 0); nia.
Qed.

(** * Canonical forms are closed under the constructors and operators *)

Lemma REDUCE_MAX_val : REDUCE_MAX = 2147483647. Proof. done. Qed.

Lemma wf_NULL : wf NULL. Proof. left. done. Qed.

Lemma reduced_ok_from p : reduced_ok p -> from_reduced p.1 p.2 = mkRational p.1 p.2 /\ wf (mkRational p.1 p.2).
Proof.
  destruct p as [n d]. unfold reduced_ok; simpl. intros (Hn & Hd & Hg).
  rewrite REDUCE_MAX_val in *.
  unfold from_reduced. rewrite !i64_id by (unfold fits_i64; lia).
  unfold fix_signs. destruct (Z.ltb_spec d 0); [lia|]. destruct (Z.eqb_spec d 0); [lia|].
  split.
  - destruct (Z.eqb_spec n 0) as [->|]; [|done].
    rewrite Z.gcd_0_l in Hg. f_equal. lia.
  - right. simpl. rewrite REDUCE_MAX_val. lia.
Qed.

Lemma reduced_wf n d : wf (reduced n d) /\ (d <> 0 -> den (reduced n d) <> 0).
Proof.
  unfold reduced. destruct (Z.eq_dec d 0) as [->|Hd].
  { unfold reduce_fraction. simpl. split; [by left|done]. }
  assert (Hcase : reduced_ok (reduce_fraction n d REDUCE_MAX) \/
                  (n = 0 /\ (reduce_fraction n d REDUCE_MAX) = (0, 1))).
  { destruct (Z.lt_ge_cases d 0) as [Hneg|Hpos].
    - destruct (reduce_fraction_opp n d Hneg) as [->|[-> Hz]].
      + left. apply reduce_fraction_ok. lia.
      + right. split; [done|]. unfold reduce_fraction. rewrite i64_gcd_gcd.
        destruct (Z.eqb_spec d 0); [lia|]. rewrite Z.gcd_0_l, Z.abs_neq by lia.
        destruct (Z.eqb_spec (-d) 0); [lia|]. destruct (Z.ltb_spec d 0); [|lia]. simpl.
        rewrite Z.quot_0_l, Z.quot_same by lia. done.
    - left. apply reduce_fraction_ok. lia. }
  destruct Hcase as [Hok|[-> E]].
  - destruct (reduced_ok_from _ Hok) as [E Hw].
    destruct (reduce_fraction n d REDUCE_MAX) as [p q]. simpl in *. rewrite E.
    split; [done|]. destruct Hok as (_ & ? & _). simpl in *. lia.
  - rewrite E. vm_compute. split; [|done]. right. split; [split|split]; done.
Qed.

Lemma new_reduced n d : fits_i64 n -> fits_i64 d -> d <> - 2 ^ 63 -> n <> - 2 ^ 63 ->
  new n d = reduced n d /\ wf (new n d).
Proof.
  intros Hn Hd Hd0 Hn0. unfold fits_i64 in *.
  assert (E : new n d = reduced n d); [|rewrite E; split; [done|apply reduced_wf]].
  unfold new, reduced, fix_signs.
  destruct (Z.ltb_spec d 0) as [Hneg|Hpos].
  - rewrite !i64_id by (unfold fits_i64; lia).
    assert (Hok := reduce_fraction_ok (-n) (-d) ltac:(lia)).
    destruct (reduced_ok_from _ Hok) as [E1 _].
    destruct (reduce_fraction_opp n d Hneg) as [->|[-> Hz]].
    + destruct (reduce_fraction (-n) (-d) REDUCE_MAX) as [p q]. simpl in E1. rewrite E1.
      destruct Hok as (? & ? & _). simpl in *. rewrite REDUCE_MAX_val in *.
      rewrite !i64_id by (unfold fits_i64; lia). done.
    + pose proof (proj1 (reduced_wf 0 d)) as Hw. pose proof (proj2 (reduced_wf 0 d) ltac:(lia)) as Hd1.
      unfold reduced in *. destruct (reduce_fraction 0 d REDUCE_MAX) as [p q].
      simpl in Hz. subst p. simpl in *.
      unfold reduce_fraction. destruct (Z.eqb_spec (-d) 0); [lia|]. rewrite i64_gcd_gcd.
      rewrite Z.gcd_0_l, Z.abs_eq by lia. destruct (Z.eqb_spec (-d) 0); [lia|].
      destruct (Z.ltb_spec (-d) 0); [lia|]. simpl. rewrite Z.quot_0_l, Z.quot_same by lia. simpl.
      unfold from_reduced in *. destruct (fix_signs (i64 0) (i64 q)) as [x y] eqn:Hfs.
      unfold fix_signs in Hfs. simpl in Hfs.
      destruct Hw as [[Hx Hy]|(Hy & Hx & Hg)]; simpl in *; [done|].
      change (i64 0) with 0 in Hfs. change (i64 1) with 1.
      destruct (Z.ltb_spec (i64 q) 0); [|destruct (Z.eqb_spec (i64 q) 0)]; simplify_eq/=; try done.
      change (i64 0) with 0 in *. simpl in Hg. rewrite Z.abs_eq in Hg by lia. by rewrite Hg.
  - destruct (Z.eqb_spec d 0) as [->|Hd00]; [done|].
    destruct (Z.eqb_spec n 0) as [->|Hn00].
    + assert (E0 : reduce_fraction 0 d REDUCE_MAX = (0, 1)).
      { apply reduce_fraction_exact; [lia| |vm_compute; done|vm_compute; done].
        unfold lowest. rewrite Z.gcd_0_l, Z.abs_eq, Z.quot_0_l, Z.quot_same by lia. done. }
      rewrite E0. done.
    + assert (Hok := reduce_fraction_ok n d ltac:(lia)).
      destruct (reduced_ok_from _ Hok) as [E1 _].
      destruct (reduce_fraction n d REDUCE_MAX) as [p q]. simpl in E1. rewrite E1.
      destruct Hok as (? & ? & _). simpl in *. rewrite REDUCE_MAX_val in *.
      rewrite !i64_id by (unfold fits_i64; lia). done.
Qed.

Lemma guarded_wf op a b :
  wf a -> wf b ->
  (forall a b, wf (op a b)) -> wf (guarded op a b).
Proof.
  intros Ha Hb Hop. unfold guarded.
  repeat case_match; auto using wf_NULL.
Qed.

Lemma add_wf a b : wf a -> wf b -> wf (add a b).
Proof. intros. apply guarded_wf; [done..|]. intros. apply reduced_wf. Qed.
Lemma sub_wf a b : wf a -> wf b -> wf (sub a b).
Proof. intros. apply guarded_wf; [done..|]. intros. apply reduced_wf. Qed.
Lemma mul_wf a b : wf a -> wf b -> wf (mul a b).
Proof. intros. apply guarded_wf; [done..|]. intros. apply reduced_wf. Qed.
Lemma div_wf a b : wf a -> wf b -> wf (div a b).
Proof. intros. apply guarded_wf; [done..|]. intros. apply reduced_wf. Qed.

#[export] Hint Resolve wf_NULL add_wf sub_wf mul_wf div_wf : oak.

(** * The order *)

Lemma wf_nan r : wf r -> is_nan r = true -> r = NULL.
Proof.
  unfold is_nan. intros [[H1 H2]|(H & _)] Hn; b2p; [|lia].
  destruct r; simpl in *; by subst.
Qed.

Lemma cmp_compare a b :
  0 < den a -> 0 < den b -> cmp a b = (num a * den b ?= num b * den a).
Proof.
  intros Ha Hb. unfold cmp, compare_fractions.
  destruct (Z.eqb_spec (den a) 0); [lia|]. destruct (Z.eqb_spec (den b) 0); [lia|].
  simpl. destruct (Z.compare_spec (num a * den b) (num b * den a)) as [E|E|E].
  - rewrite E, Z.sub_diag. done.
  - destruct (Z.eqb_spec (num a * den b - num b * den a) 0); [lia|].
    simpl. destruct (Z.ltb_spec 0 (num a * den b - num b * den a)); [lia|]. done.
  - destruct (Z.eqb_spec (num a * den b - num b * den a) 0); [lia|].
    simpl. destruct (Z.ltb_spec 0 (num a * den b - num b * den a)); [|lia]. done.
Qed.

(** Every case analysis on [cmp] of canonical values goes through this view:
    a value is the sentinel or a positive-denominator fraction. *)
Lemma wf_cases r : wf r -> r = NULL \/ (0 < den r /\ Z.gcd (num r) (den r) = 1).
Proof.
  intros [[H1 H2]|(? & ? & ?)]; [left|right; lia].
  destruct r; simpl in *; by subst.
Qed.

Lemma cmp_NULL_l b : cmp NULL b = if den b =? 0 then Eq else Lt.
Proof. unfold cmp. simpl. by destruct (den b =? 0). Qed.
Lemma cmp_NULL_r a : cmp a NULL = if den a =? 0 then Eq else Gt.
Proof. unfold cmp. simpl. by destruct (den a =? 0). Qed.

Lemma cmp_Eq a b : wf a -> wf b -> cmp a b = Eq <-> a = b.
Proof.
  intros Ha Hb. destruct (wf_cases a Ha) as [->|[Pa Ga]], (wf_cases b Hb) as [->|[Pb Gb]].
  - rewrite cmp_NULL_l. done.
  - rewrite cmp_NULL_l. destruct (Z.eqb_spec (den b) 0); [lia|].
    split; [done|]. intros <-. done.
  - rewrite cmp_NULL_r. destruct (Z.eqb_spec (den a) 0); [lia|].
    split; [done|]. intros ->. done.
  - rewrite cmp_compare by done. rewrite Z.compare_eq_iff. split.
    + intros E. destruct (coprime_unique (num a) (den a) (num b) (den b)) as [? ?];
        [done..|]. destruct a, b; simpl in *; by subst.
    + by intros ->.
Qed.

Lemma cmp_antisym a b : wf a -> wf b -> cmp b a = CompOpp (cmp a b).
Proof.
  intros Ha Hb. destruct (wf_cases a Ha) as [->|[Pa Ga]], (wf_cases b Hb) as [->|[Pb Gb]].
  - done.
  - rewrite cmp_NULL_l, cmp_NULL_r. by destruct (den b =? 0).
  - rewrite cmp_NULL_l, cmp_NULL_r. by destruct (den a =? 0).
  - rewrite !cmp_compare by done. by rewrite Z.compare_antisym.
Qed.

Lemma leb_trans a b c : wf a -> wf b -> wf c ->
  leb a b = true -> leb b c = true -> leb a c = true.
Proof.
  unfold leb. intros Ha Hb Hc.
  destruct (wf_cases a Ha) as [->|[Pa Ga]].
  { rewrite !cmp_NULL_l. by destruct (den c =? 0). }
  destruct (wf_cases b Hb) as [->|[Pb Gb]].
  { rewrite cmp_NULL_r. destruct (Z.eqb_spec (den a) 0); [lia|done]. }
  destruct (wf_cases c Hc) as [->|[Pc Gc]].
  { rewrite (cmp_NULL_r b). destruct (Z.eqb_spec (den b) 0); [lia|done]. }
  rewrite !cmp_compare by done.
  destruct (Z.compare_spec (num a * den b) (num b * den a));
  destruct (Z.compare_spec (num b * den c) (num c * den b));
  destruct (Z.compare_spec (num a * den c) (num c * den a)); try done; intros _ _; nia.
Qed.

(** Order lemmas in the form the clients use. *)
Section order.
Context (a b : Rational) (Ha : wf a) (Hb : wf b).

Lemma leb_negb_ltb : leb a b = negb (ltb b a).
Proof. unfold leb, ltb. rewrite (cmp_antisym a b) by done. by destruct (cmp a b). Qed.
Lemma ltb_negb_leb : ltb a b = negb (leb b a).
Proof. unfold leb, ltb. rewrite (cmp_antisym a b) by done. by destruct (cmp a b). Qed.
Lemma leb_total : leb a b = true \/ leb b a = true.
Proof. unfold leb. rewrite (cmp_antisym a b) by done. destruct (cmp a b); auto. Qed.
Lemma ltb_leb : ltb a b = true -> leb a b = true.
Proof. unfold leb, ltb. by destruct (cmp a b). Qed.
Lemma leb_antisym : leb a b = true -> leb b a = true -> a = b.
Proof.
  unfold leb. rewrite (cmp_antisym a b) by done.
  destruct (cmp a b) eqn:E; try done. intros _ _. by apply cmp_Eq.
Qed.
End order.

Lemma leb_refl a : wf a -> leb a a = true.
Proof. intros Ha. destruct (leb_total a a); done. Qed.
Lemma ltb_irrefl a : wf a -> ltb a a = false.
Proof. intros Ha. rewrite ltb_negb_leb by done. by rewrite leb_refl. Qed.
Lemma ltb_leb_trans a b c : wf a -> wf b -> wf c ->
  ltb a b = true -> leb b c = true -> ltb a c = true.
Proof.
  intros Ha Hb Hc. rewrite !ltb_negb_leb by done. rewrite !negb_true_iff.
  intros Hab Hbc. destruct (leb c a) eqn:E; [|done].
  rewrite (leb_trans b c a) in Hab by done. done.
Qed.
Lemma leb_ltb_trans a b c : wf a -> wf b -> wf c ->
  leb a b = true -> ltb b c = true -> ltb a c = true.
Proof.
  intros Ha Hb Hc. rewrite !ltb_negb_leb by done. rewrite !negb_true_iff.
  intros Hab Hbc. destruct (leb c a) eqn:E; [|done].
  rewrite (leb_trans c a b) in Hbc by done. done.
Qed.

(** ** Finite values as rationals of the Standard Library

    Away from the [0/0] sentinel the order is that of the fractions, so a
    client can reason about comparisons with [lra]. *)

Definition finite (r : Rational) : Prop := wf r /\ den r <> 0.
Definition val (r : Rational) : Q := Qmake (num r) (Z.to_pos (den r)).

Lemma finite_pos r : finite r -> 0 < den r.
Proof. intros [Hw Hd]. destruct (wf_cases r Hw) as [->|[? ?]]; done. Qed.

Lemma finite_wf r : finite r -> wf r.
Proof. by intros [? ?]. Qed.

Lemma cmp_val a b : finite a -> finite b -> cmp a b = (val a ?= val b)%Q.
Proof.
  intros Ha Hb. apply finite_pos in Ha, Hb. rewrite cmp_compare by done.
  unfold Qcompare, val. simpl. by rewrite !Z2Pos.id by done.
Qed.

Lemma ltb_spec a b : finite a -> finite b ->
  BoolSpec (val a < val b)%Q (val b <= val a)%Q (ltb a b).
Proof.
  intros Ha Hb. unfold ltb. rewrite cmp_val by done.
  destruct (val a ?= val b)%Q eqn:E; constructor.
  - apply Qeq_alt in E. rewrite E. apply Qle_refl.
  - by apply Qlt_alt.
  - apply Qgt_alt in E. by apply Qlt_le_weak.
Qed.

Lemma leb_spec a b : finite a -> finite b ->
  BoolSpec (val a <= val b)%Q (val b < val a)%Q (leb a b).
Proof.
  intros Ha Hb. rewrite leb_negb_ltb by (by apply finite_wf).
  destruct (ltb_spec b a) as [H|H]; [done..| |]; constructor; exact H.
Qed.

Lemma ltb_val a b : finite a -> finite b -> ltb a b = true <-> (val a < val b)%Q.
Proof. intros Ha Hb. destruct (ltb_spec a b Ha Hb); split; try done. intros; lra. Qed.

Lemma leb_val a b : finite a -> finite b -> leb a b = true <-> (val a <= val b)%Q.
Proof. intros Ha Hb. destruct (leb_spec a b Ha Hb); split; try done. intros; lra. Qed.

Lemma val_inj a b : finite a -> finite b -> (val a == val b)%Q -> a = b.
Proof.
  intros Ha Hb E. apply cmp_Eq; [by apply finite_wf..|].
  rewrite cmp_val by done. by apply Qeq_alt.
Qed.

Lemma finite_rmin a b : finite a -> finite b -> finite (rmin a b).
Proof. intros. unfold rmin. by case_match. Qed.
Lemma finite_rmax a b : finite a -> finite b -> finite (rmax a b).
Proof. intros. unfold rmax. by case_match. Qed.
#[export] Hint Resolve finite_rmin finite_rmax finite_wf : oak.

(** * The frame grid

    Times on a timeline are integer multiples of [1/D] for the denominator of
    the sequence's timebase.  On that grid, and away from the saturated
    extremes, the operators are exact integer arithmetic. *)

Definition grid (D k : Z) : Rational := let '(n, d) := lowest k D in mkRational n d.

Arguments grid : simpl never.

Lemma lowest_eq n d n' d' : 0 < d -> 0 < d' -> n * d' = n' * d -> lowest n d = lowest n' d'.
Proof.
  intros Hd Hd' E.
  pose proof (lowest_spec n d Hd) as S1. pose proof (lowest_spec n' d' Hd') as S2.
  destruct (lowest n d) as [p q], (lowest n' d') as [p' q'].
  destruct S1 as (C1 & Q1 & G1 & _), S2 as (C2 & Q2 & G2 & _).
  destruct (coprime_unique p q p' q') as [-> ->]; [lia|lia|done|done| |done].
  apply Z.mul_reg_r with (d * d'); [nia|].
  transitivity ((p * d) * d' * q'); [ring|]. rewrite C1.
  transitivity ((n * d') * q * q'); [ring|]. rewrite E.
  transitivity ((n' * q') * (d * q)); [ring|]. rewrite <- C2. ring.
Qed.

Class GridDen (D : Z) : Prop := grid_den : 0 < D <= REDUCE_MAX.
Definition in_grid (k : Z) : Prop := Z.abs k < REDUCE_MAX.

Section grid.
Context (D : Z) {HD : GridDen D}.

Lemma grid_den_pos : 0 < D <= REDUCE_MAX. Proof. apply HD. Qed.

Lemma grid_cross k :
  num (grid D k) * D = k * den (grid D k) /\ 0 < den (grid D k) <= D /\
  Z.gcd (num (grid D k)) (den (grid D k)) = 1 /\ Z.abs (num (grid D k)) <= Z.abs k.
Proof.
  pose proof (lowest_spec k D ltac:(apply HD)) as S.
  unfold grid. by destruct (lowest k D) as [p q].
Qed.

Lemma grid_wf k : in_grid k -> wf (grid D k).
Proof.
  intros Hk. right. unfold in_grid in Hk.
  pose proof (grid_cross k). pose proof grid_den_pos. lia.
Qed.

Lemma reduced_grid n d k :
  0 < d -> n * D = k * d -> in_grid k -> reduced n d = grid D k.
Proof.
  intros Hd E Hk. unfold reduced.
  pose proof (grid_cross k) as (_ & Hq & Hg & Hp). pose proof grid_den_pos.
  unfold in_grid in Hk.
  rewrite (reduce_fraction_exact n d (num (grid D k)) (den (grid D k))); [|done| |lia|lia].
  - destruct (reduced_ok_from (num (grid D k), den (grid D k))) as [E1 _].
    + unfold reduced_ok; cbn [fst snd]. repeat split; try done; lia.
    + cbn [fst snd] in E1. rewrite E1. by destruct (grid D k).
  - rewrite (lowest_eq n d k D) by lia. unfold grid. by destruct (lowest k D).
Qed.

Lemma grid_not_minmax k : in_grid k -> is_minmax (grid D k) = false.
Proof.
  unfold in_grid, is_minmax. intros Hk. pose proof (grid_cross k) as (_ & _ & _ & Hp).
  rewrite REDUCE_MAX_val in Hk.
  rewrite !bool_decide_eq_false_2; [done|intros E; rewrite E in Hp; simpl in Hp; lia..].
Qed.

Lemma grid_not_nan k : is_nan (grid D k) = false.
Proof.
  unfold is_nan. pose proof (grid_cross k) as (_ & Hq & _).
  apply Z.eqb_neq. lia.
Qed.

Lemma grid_add j k : in_grid j -> in_grid k -> in_grid (j + k) ->
  add (grid D j) (grid D k) = grid D (j + k).
Proof.
  intros Hj Hk Hjk. unfold add, guarded.
  rewrite !grid_not_minmax, !grid_not_nan by done. cbn [orb].
  pose proof (grid_cross j) as (Cj & Qj & _). pose proof (grid_cross k) as (Ck & Qk & _).
  apply reduced_grid; [apply Z.mul_pos_pos; lia| |done].
  transitivity (num (grid D j) * D * den (grid D k) + num (grid D k) * D * den (grid D j)); [ring|].
  rewrite Cj, Ck. ring.
Qed.

Lemma grid_sub j k : in_grid j -> in_grid k -> in_grid (j - k) ->
  sub (grid D j) (grid D k) = grid D (j - k).
Proof.
  intros Hj Hk Hjk. unfold sub, guarded.
  rewrite !grid_not_minmax, !grid_not_nan by done. cbn [orb].
  pose proof (grid_cross j) as (Cj & Qj & _). pose proof (grid_cross k) as (Ck & Qk & _).
  apply reduced_grid; [apply Z.mul_pos_pos; lia| |done].
  transitivity (num (grid D j) * D * den (grid D k) - num (grid D k) * D * den (grid D j)); [ring|].
  rewrite Cj, Ck. ring.
Qed.

Lemma grid_cmp j k : cmp (grid D j) (grid D k) = (j ?= k).
Proof.
  pose proof (grid_cross j) as (Cj & Qj & _). pose proof (grid_cross k) as (Ck & Qk & _).
  rewrite cmp_compare by lia. pose proof grid_den_pos.
  assert (E1 : num (grid D j) * den (grid D k) * D = j * (den (grid D j) * den (grid D k)))
    by (transitivity (num (grid D j) * D * den (grid D k)); [ring|rewrite Cj; ring]).
  assert (E2 : num (grid D k) * den (grid D j) * D = k * (den (grid D j) * den (grid D k)))
    by (transitivity (num (grid D k) * D * den (grid D j)); [ring|rewrite Ck; ring]).
  assert (0 < den (grid D j) * den (grid D k)) by (apply Z.mul_pos_pos; lia).
  rewrite (Zmult_compare_compat_r _ _ D), E1, E2 by lia.
  by rewrite <- Zmult_compare_compat_r by lia.
Qed.

Lemma grid_ltb j k : ltb (grid D j) (grid D k) = (j <? k).
Proof. unfold ltb. rewrite grid_cmp. unfold Z.ltb. done. Qed.
Lemma grid_leb j k : leb (grid D j) (grid D k) = (j <=? k).
Proof. unfold leb. rewrite grid_cmp. unfold Z.leb. done. Qed.
Lemma grid_inj j k : grid D j = grid D k <-> j = k.
Proof.
  split; [|by intros ->]. intros E.
  pose proof (grid_cmp j k) as C. rewrite E, grid_cmp, Z.compare_refl in C.
  symmetry in C. by apply Z.compare_eq_iff in C.
Qed.
Lemma grid_eqb j k : eqb (grid D j) (grid D k) = (j =? k).
Proof.
  unfold eqb. destruct (Z.eqb_spec j k) as [->|]; [by apply bool_decide_eq_true|].
  apply bool_decide_eq_false. by rewrite grid_inj.
Qed.
Lemma grid_0 : grid D 0 = ZERO.
Proof.
  unfold grid, lowest. pose proof grid_den_pos. rewrite Z.gcd_0_l, Z.abs_eq by lia.
  rewrite Z.quot_0_l, Z.quot_same by lia. done.
Qed.
Lemma grid_is_null k : is_null (grid D k) = (k =? 0).
Proof.
  unfold is_null. pose proof (grid_cross k) as (Ck & Qk & Gk & _). pose proof grid_den_pos.
  destruct (Z.eqb_spec k 0) as [->|]; [apply Z.eqb_eq|apply Z.eqb_neq]; nia.
Qed.
End grid.

(** Evaluate arithmetic and comparisons of grid points; side conditions are
    bounds on the integers. *)
Ltac in_grid_solve := first [assumption | unfold in_grid in *; rewrite ?REDUCE_MAX_val in *; lia].
Ltac grid_simp :=
  repeat first
    [ rewrite grid_add by in_grid_solve
    | rewrite grid_sub by in_grid_solve
    | rewrite grid_ltb
    | rewrite grid_leb
    | rewrite grid_eqb
    | rewrite grid_is_null ].

(** * Text round trip *)

(** Characters a decimal integer is made of. *)
Definition plain (c : ascii) : Prop :=
  (N_of_ascii c <? 128)%N = true /\ is_space c = false /\ (c =? "/")%char = false.
Fixpoint all_plain (s : string) : Prop :=
  match s with EmptyString => True | String c r => plain c /\ all_plain r end.

Lemma all_plain_uint d : all_plain (NilEmpty.string_of_uint d).
Proof. induction d; simpl; try done; split; try done; split; done. Qed.

Lemma all_plain_fmt z : all_plain (fmt_i64 z).
Proof.
  unfold fmt_i64. destruct (Z.to_int z) as [d|d]; simpl;
    destruct d; simpl; repeat split; try done; apply all_plain_uint.
Qed.

Lemma plain_not_space2 c d : plain c -> is_space2 c d = false.
Proof.
  intros [Hc _]. apply N.ltb_lt in Hc. unfold is_space2.
  by rewrite (proj2 (N.eqb_neq (N_of_ascii c) 0xC2)) by lia.
Qed.

Lemma plain_not_space3 c d e : plain c -> is_space3 c d e = false.
Proof.
  intros [Hc _]. apply N.ltb_lt in Hc. unfold is_space3. cbv zeta.
  by rewrite (proj2 (N.eqb_neq (N_of_ascii c) 0xE1)), (proj2 (N.eqb_neq (N_of_ascii c) 0xE2)),
    (proj2 (N.eqb_neq (N_of_ascii c) 0xE3)) by lia.
Qed.

Lemma trim_start_plain s : all_plain s -> trim_start s = s.
Proof.
  destruct s as [|c r]; [done|]. intros [Hc _]. simpl.
  rewrite (proj1 (proj2 Hc)). destruct r as [|d [|e r]]; [done| |];
    rewrite plain_not_space2 by done; [done|]. by rewrite plain_not_space3.
Qed.

Lemma trim_end_plain s : all_plain s -> trim_end s = s.
Proof.
  induction s as [|c r IH]; [done|]. intros H. cbn [trim_end].
  rewrite trim_start_plain by done. by rewrite IH by apply H.
Qed.

Lemma trim_plain s : all_plain s -> trim s = s.
Proof.
  intros H. unfold trim. rewrite trim_start_plain by done. by apply trim_end_plain.
Qed.

Lemma split_slash_plain s : all_plain s -> split_slash s = [s].
Proof.
  induction s as [|c r IH]; [done|]. intros [[_ [_ Hc]] Hr]. simpl.
  by rewrite Hc, IH.
Qed.

Lemma split_slash_pair s t :
  all_plain s -> all_plain t -> split_slash (s +:+ "/" +:+ t)%string = [s; t].
Proof.
  intros Hs Ht. induction s as [|c r IH]; simpl.
  - by rewrite split_slash_plain.
  - destruct Hs as [[_ [_ Hc]] Hr]. by rewrite Hc, IH.
Qed.

Lemma parse_digits_uint d : d <> Decimal.Nil -> parse_digits (NilZero.string_of_uint d) = Some (Z.of_uint d).
Proof. intros Hd. unfold parse_digits. by rewrite NilZero.usu. Qed.

Lemma string_of_uint_head d :
  NilZero.string_of_uint d <> EmptyString /\
  forall r, NilZero.string_of_uint d <> String "-" r /\ NilZero.string_of_uint d <> String "+" r.
Proof. destruct d; simpl; split; try done; intros; split; done. Qed.

Lemma parse_fmt z : fits_i64 z -> parse_i64 (fmt_i64 z) = Some z.
Proof.
  intros Hz. unfold parse_i64.
  assert (Hv : parse_signed (fmt_i64 z) = Some z).
  { unfold fmt_i64. pose proof (DecimalZ.of_to z) as Hz'.
    destruct (Z.to_int z) as [d|d] eqn:E; simpl in *;
      (assert (Hd : d <> Decimal.Nil) by (by intros ->; destruct z)).
    - destruct (string_of_uint_head d) as [Hne Hh].
      rewrite <- Hz', <- parse_digits_uint by done.
      destruct (NilZero.string_of_uint d) as [|c r]; [done|].
      destruct (Hh r) as [H1 H2]. unfold parse_signed.
      destruct (Ascii.eqb_spec c "-"); [by subst|].
      destruct (Ascii.eqb_spec c "+"); [by subst|]. done.
    - rewrite parse_digits_uint by done. simpl. f_equal. done. }
  rewrite Hv. unfold fits_i64 in Hz.
  destruct (Z.leb_spec (- 2 ^ 63) z); [|lia]. destruct (Z.ltb_spec z (2 ^ 63)); [|lia]. done.
Qed.

Lemma new_wf_id r : wf r -> new (num r) (den r) = r.
Proof.
  intros Hr. destruct (wf_cases r Hr) as [->|[Hd Hg]]; [done|].
  destruct Hr as [[_ ?]|(Hd' & Hn & _)]; [lia|]. rewrite REDUCE_MAX_val in *.
  destruct (new_reduced (num r) (den r)) as [-> _]; [unfold fits_i64; lia..|].
  unfold reduced. rewrite (reduce_fraction_exact _ _ (num r) (den r)); [|done| |rewrite REDUCE_MAX_val; lia..].
  - destruct (reduced_ok_from (num r, den r)) as [E _].
    + unfold reduced_ok; cbn [fst snd]. rewrite REDUCE_MAX_val. lia.
    + cbn [fst snd] in E. rewrite E. by destruct r.
  - unfold lowest. rewrite Hg, !Z.quot_1_r. done.
Qed.

(** * Properties *)

(** C1: [i64_gcd] computes the greatest common divisor of its arguments'
    absolute values; its loop always terminates within the fuel given. *)
Theorem i64_gcd_correct (a b : Z) : i64_gcd a b = Z.gcd a b.
Proof. apply i64_gcd_gcd. Qed.

(** C2: [reduce_fraction] always returns a fraction in lowest terms within
    the [i32::MAX] cap with a positive denominator, and is exact whenever
    the value can be represented at all: any capped fraction equal to the
    input is equal to the output. *)
Theorem reduce_fraction_canonical (n d : Z) (Hd : 0 < d) :
  let '(p, q) := reduce_fraction n d REDUCE_MAX in
  Z.abs p <= REDUCE_MAX /\ 0 < q <= REDUCE_MAX /\ Z.gcd p q = 1 /\
  forall p' q', Z.abs p' <= REDUCE_MAX -> 0 < q' <= REDUCE_MAX ->
    p' * d = n * q' -> p * q' = p' * q.
Proof.
  pose proof (reduce_fraction_ok n d Hd) as Hok.
  destruct (reduce_fraction n d REDUCE_MAX) as [p q] eqn:E.
  destruct Hok as (Hp & Hq & Hg). simpl in *. do 3 (split; [done|]).
  intros p' q' Hp' Hq' Hc.
  pose proof (lowest_spec p' q' ltac:(lia)) as S1.
  rewrite (lowest_eq p' q' n d) in S1 by lia.
  destruct (lowest n d) as [u v] eqn:El. destruct S1 as (C1 & V1 & _ & U1).
  rewrite (reduce_fraction_exact n d u v) in E by (done || lia). by simplify_eq.
Qed.

Lemma reduce_fraction_canonical_witness :
  let '(p, q) := reduce_fraction 600000 20020 REDUCE_MAX in
  Z.abs p <= REDUCE_MAX /\ 0 < q <= REDUCE_MAX /\ Z.gcd p q = 1 /\
  forall p' q', Z.abs p' <= REDUCE_MAX -> 0 < q' <= REDUCE_MAX ->
    p' * 20020 = 600000 * q' -> p * q' = p' * q.
Proof. apply reduce_fraction_canonical. lia. Defined.

(** C3: on canonical values [Ord::cmp] is a total order that agrees with the
    derived structural equality: comparing equal means being the same
    value, swapping the arguments reverses the answer, and [<=] is
    transitive. The [0/0] sentinel orders first. *)
Theorem cmp_total_order (a b c : Rational) (Ha : wf a) (Hb : wf b) (Hc : wf c) :
  (cmp a b = Eq <-> a = b) /\
  cmp b a = CompOpp (cmp a b) /\
  (leb a b = true -> leb b c = true -> leb a c = true) /\
  leb NULL a = true.
Proof.
  split; [by apply cmp_Eq|]. split; [by apply cmp_antisym|].
  split; [by apply leb_trans|]. unfold leb. rewrite cmp_NULL_l. by destruct (den a =? 0).
Qed.

Lemma cmp_total_order_witness :
  let a := new 1001 30000 in let b := new 1 24 in let c := RATIONAL_MAX in
  (cmp a b = Eq <-> a = b) /\
  cmp b a = CompOpp (cmp a b) /\
  (leb a b = true -> leb b c = true -> leb a c = true) /\
  leb NULL a = true.
Proof.
  apply cmp_total_order.
  - apply new_reduced; unfold fits_i64; lia.
  - apply new_reduced; unfold fits_i64; lia.
  - right. vm_compute. repeat split; discriminate || done.
Defined.

(** C4: timeline arithmetic on a frame grid is exact integer arithmetic:
    for points [j/D] and [k/D] whose sum and difference stay below the cap,
    [+], [-] and the comparisons are those of the integers [j] and [k]. *)
Theorem grid_arithmetic (D j k : Z) (HD : GridDen D)
    (Hj : in_grid j) (Hk : in_grid k) (Hadd : in_grid (j + k)) (Hsub : in_grid (j - k)) :
  add (grid D j) (grid D k) = grid D (j + k) /\
  sub (grid D j) (grid D k) = grid D (j - k) /\
  cmp (grid D j) (grid D k) = (j ?= k) /\
  new j D = grid D j.
Proof.
  split; [by apply grid_add|]. split; [by apply grid_sub|].
  split; [by apply grid_cmp|].
  unfold in_grid in Hj. pose proof (grid_den_pos D) as HDp. rewrite REDUCE_MAX_val in Hj, HDp.
  destruct (new_reduced j D) as [-> _]; [unfold fits_i64; lia..|].
  apply (reduced_grid D); [lia|done|]. unfold in_grid. by rewrite REDUCE_MAX_val.
Qed.

Lemma grid_arithmetic_witness :
  add (grid 30000 1001) (grid 30000 2002) = grid 30000 (1001 + 2002) /\
  sub (grid 30000 1001) (grid 30000 2002) = grid 30000 (1001 - 2002) /\
  cmp (grid 30000 1001) (grid 30000 2002) = (1001 ?= 2002) /\
  new 1001 30000 = grid 30000 1001.
Proof.
  apply grid_arithmetic; unfold GridDen, in_grid; rewrite REDUCE_MAX_val; lia.
Defined.

(** C5: project files round-trip times exactly: parsing the text written for
    a canonical rational, the [0/0] and saturated sentinels included, gives
    the same value back. *)
Theorem display_string_roundtrip (r : Rational) (Hr : wf r) :
  from_string (to_display_string r) = r.
Proof.
  assert (Hf : fits_i64 (num r) /\ fits_i64 (den r)).
  { unfold fits_i64. destruct Hr as [[-> ->]|(? & ? & _)];
      rewrite ?REDUCE_MAX_val in *; lia. }
  unfold from_string, to_display_string.
  rewrite split_slash_pair by apply all_plain_fmt.
  unfold to_int. rewrite !trim_plain, !parse_fmt by (apply all_plain_fmt || apply Hf).
  simpl. by apply new_wf_id.
Qed.

Lemma display_string_roundtrip_witness :
  from_string (to_display_string (mkRational 30000 1001)) = mkRational 30000 1001.
Proof.
  apply display_string_roundtrip. right. vm_compute. repeat split; discriminate || done.
Defined.

Lemma rational_examples :
  from_string " 12 / -8 " = mkRational (-3) 2 /\ from_string "x/2" = mkRational 0 1 /\
  from_string "1/2/3" = NULL /\ new 2147483648 1 = RATIONAL_MAX /\
  add RATIONAL_MAX (new 1 1) = NULL /\ div (new 1 2) (new 0 1) = NULL /\
  rmax (new 1 2) NULL = new 1 2.
Proof. vm_compute. repeat split. Qed.

(** A no-break space (U+00A0) before and an ideographic space (U+3000) after
    the number are trimmed, a lone continuation byte is not. *)
Lemma trim_unicode_examples :
  to_int (String "194" (String "160" (String "7" (String "227" (String "128" (String "128" EmptyString)))))) = 7 /\
  trim (String "160" "7") = String "160" "7".
Proof. vm_compute. done. Qed.
