(* ===== verification/TimeRange.v ===== *)
(** Time ranges and range lists (crates/oak-core/src/timerange.rs): half-open
    intervals normalised on construction, and the list with its
    merge-on-insert and subtraction semantics. *)

From Stdlib Require Import QArith Lqa Qminmax.
From S2P Require Import Prelude Rational.

(** * TimeRange *)

Record TimeRange : Type := mkTimeRange { in_ : Rational; out : Rational }.

#[export] Instance TimeRange_eq_dec : EqDecision TimeRange.
Proof. solve_decision. Defined.

(** [TimeRange::default()]: both ends 0/0. *)
Definition TimeRange_default : TimeRange := mkTimeRange NULL NULL.

(** [normalize]: swap if [out < in]. *)
Definition normalize (r : TimeRange) : TimeRange :=
  if ltb (out r) (in_ r) then mkTimeRange (out r) (in_ r) else r.

Definition TimeRange_new (i o : Rational) : TimeRange := normalize (mkTimeRange i o).

Definition length_ (r : TimeRange) : Rational := sub (out r) (in_ r).

Definition contains (r : TimeRange) (t : Rational) : bool :=
  leb (in_ r) t && ltb t (out r).

Definition contains_range (self compare : TimeRange) (in_inclusive out_inclusive : bool) : bool :=
  let contains_in :=
    if in_inclusive then leb (in_ self) (in_ compare) else ltb (in_ self) (in_ compare) in
  let contains_out :=
    if out_inclusive then leb (out compare) (out self) else ltb (out compare) (out self) in
  contains_in && contains_out.

Definition overlaps_with (self a : TimeRange) (in_inclusive out_inclusive : bool) : bool :=
  let does_not_overlap_in :=
    if in_inclusive then ltb (out a) (in_ self) else leb (out a) (in_ self) in
  let does_not_overlap_out :=
    if out_inclusive then ltb (out self) (in_ a) else leb (out self) (in_ a) in
  negb does_not_overlap_in && negb does_not_overlap_out.

Definition intersected (self other : TimeRange) : TimeRange :=
  TimeRange_new (rmax (in_ self) (in_ other)) (rmin (out self) (out other)).

Definition combined (self other : TimeRange) : TimeRange :=
  TimeRange_new (rmin (in_ self) (in_ other)) (rmax (out self) (out other)).

Definition set_in (r : TimeRange) (i : Rational) : TimeRange :=
  normalize (mkTimeRange i (out r)).
Definition set_out (r : TimeRange) (o : Rational) : TimeRange :=
  normalize (mkTimeRange (in_ r) o).

(** * TimeRangeList

    The list is its [ranges] vector. *)

Definition list_contains_range (l : list TimeRange) (range : TimeRange) : bool :=
  existsb (fun r => contains_range r range true true) l.

(** The [while] loop of [insert]: every element overlapping or touching the
    growing range is removed from the list and merged into it. *)
Fixpoint insert_loop (l : list TimeRange) (range : TimeRange) : list TimeRange * TimeRange :=
  match l with
  | [] => ([], range)
  | compare :: l =>
      if overlaps_with compare range true true
      then insert_loop l (combined compare range)
      else let '(l, range) := insert_loop l range in (compare :: l, range)
  end.

Definition TimeRangeList_insert (l : list TimeRange) (range : TimeRange) : list TimeRange :=
  if list_contains_range l range then l
  else let '(l, range) := insert_loop l range in l ++ [range].

(** The [while] loop of [remove]: the surviving elements and [additions]. *)
Fixpoint remove_loop (l : list TimeRange) (range : TimeRange) : list TimeRange * list TimeRange :=
  match l with
  | [] => ([], [])
  | compare :: l =>
      if contains_range range compare true true then remove_loop l range
      else if contains_range compare range false false then
        (set_out compare (in_ range) :: l, [set_in compare (out range)])
      else
        let compare :=
          if ltb (in_ compare) (in_ range) && ltb (in_ range) (out compare)
          then set_out compare (in_ range)
          else if ltb (in_ compare) (out range) && ltb (out range) (out compare)
          then set_in compare (out range)
          else compare in
        let '(l, additions) := remove_loop l range in (compare :: l, additions)
  end.

Definition TimeRangeList_remove (l : list TimeRange) (range : TimeRange) : list TimeRange :=
  let '(l, additions) := remove_loop l range in l ++ additions.

Definition is_empty (l : list TimeRange) : bool :=
  match l with [] => true | _ => false end.

Definition total_length (l : list TimeRange) : Rational :=
  fold_left (fun total r => add total (length_ r)) l ZERO.

Definition first (l : list TimeRange) : Rational :=
  match l with [] => NULL | r :: _ => in_ r end.

(** * Well-formed ranges *)

(** Both ends finite, in order. *)
Definition range_wf (r : TimeRange) : Prop :=
  finite (in_ r) /\ finite (out r) /\ leb (in_ r) (out r) = true.

Definition list_wf (l : list TimeRange) : Prop := Forall range_wf l.

(** The instants a list covers, and equivalence of lists covering the same
    instants. *)
Definition covers (l : list TimeRange) (t : Rational) : Prop :=
  Exists (fun r => contains r t = true) l.

Definition same_cover (l1 l2 : list TimeRange) : Prop :=
  forall t, finite t -> covers l1 t <-> covers l2 t.

(** Two elements that neither overlap nor touch, and a list of such: what
    merge-on-insert maintains. *)
Definition apart (a b : TimeRange) : Prop := overlaps_with a b true true = false.
Definition separated (l : list TimeRange) : Prop := ForallOrdPairs apart l.

#[export] Instance same_cover_equiv : Equivalence same_cover.
Proof.
  split.
  - by intros l t _.
  - intros l1 l2 H t Ht. by rewrite (H t Ht).
  - intros l1 l2 l3 H12 H23 t Ht. by rewrite (H12 t Ht), (H23 t Ht).
Qed.

#[export] Instance app_same_cover : Proper (same_cover ==> same_cover ==> same_cover) app.
Proof.
  intros l1 l1' H1 l2 l2' H2 t Ht. unfold covers. rewrite !Exists_app.
  specialize (H1 t Ht). specialize (H2 t Ht). unfold covers in *. tauto.
Qed.

#[export] Instance cons_same_cover r : Proper (same_cover ==> same_cover) (cons r).
Proof.
  intros l l' H t Ht. specialize (H t Ht). unfold covers in *.
  rewrite !Exists_cons. tauto.
Qed.

(** Reduce a statement about the boolean operations on finite ranges to
    linear arithmetic over their values. *)
Ltac rat_unfold :=
  unfold apart, contains, contains_range, overlaps_with, combined, intersected, set_in, set_out,
    TimeRange_new, normalize, rmin, rmax, range_wf in *; simpl in *.
Ltac rat_split :=
  repeat match goal with
  | H : context [ltb ?a ?b] |- _ => destruct (ltb_spec a b); [assumption..| |]; simpl in *
  | H : context [leb ?a ?b] |- _ => destruct (leb_spec a b); [assumption..| |]; simpl in *
  | |- context [ltb ?a ?b] => destruct (ltb_spec a b); [assumption..| |]; simpl in *
  | |- context [leb ?a ?b] => destruct (leb_spec a b); [assumption..| |]; simpl in *
  end.
Ltac rat := rat_unfold; rat_split; try done; try lra.

Lemma range_wf_val r : range_wf r ->
  finite (in_ r) /\ finite (out r) /\ (val (in_ r) <= val (out r))%Q.
Proof.
  intros (Hi & Ho & Hle). destruct (leb_spec (in_ r) (out r)); done.
Qed.

Lemma contains_val r t : range_wf r -> finite t ->
  contains r t = true <-> (val (in_ r) <= val t /\ val t < val (out r))%Q.
Proof.
  intros Hr Ht. apply range_wf_val in Hr as (Hi & Ho & Hle). unfold contains.
  destruct (leb_spec (in_ r) t), (ltb_spec t (out r)); try done; simpl;
    (split; [try done|]); intros [? ?]; try done; lra.
Qed.

Lemma apart_val a b : range_wf a -> range_wf b ->
  apart a b <-> (val (out b) < val (in_ a) \/ val (out a) < val (in_ b))%Q.
Proof.
  intros Ha Hb. apply range_wf_val in Ha as (? & ? & ?), Hb as (? & ? & ?).
  unfold apart, overlaps_with.
  destruct (ltb_spec (out b) (in_ a)), (ltb_spec (out a) (in_ b)); try done; simpl;
    split; intros; try done; try tauto; lra.
Qed.

Lemma combined_wf a b : range_wf a -> range_wf b -> range_wf (combined a b) /\
  (val (in_ (combined a b)) == Qminmax.Qmin (val (in_ a)) (val (in_ b)))%Q /\
  (val (out (combined a b)) == Qminmax.Qmax (val (out a)) (val (out b)))%Q.
Proof.
  intros Ha Hb. apply range_wf_val in Ha as (? & ? & ?), Hb as (? & ? & ?).
  unfold combined, TimeRange_new, normalize; simpl.
  assert (Hmin : (val (rmin (in_ a) (in_ b)) == Qminmax.Qmin (val (in_ a)) (val (in_ b)))%Q).
  { unfold rmin. destruct (ltb_spec (in_ b) (in_ a)); [done..| |].
    - rewrite Qminmax.Q.min_r; [done|lra].
    - rewrite Qminmax.Q.min_l; [done|lra]. }
  assert (Hmax : (val (rmax (out a) (out b)) == Qminmax.Qmax (val (out a)) (val (out b)))%Q).
  { unfold rmax. destruct (ltb_spec (out b) (out a)); [done..| |].
    - rewrite Qminmax.Q.max_l; [done|lra].
    - rewrite Qminmax.Q.max_r; [done|lra]. }
  assert (Hle : (val (rmin (in_ a) (in_ b)) <= val (rmax (out a) (out b)))%Q).
  { rewrite Hmin, Hmax. pose proof (Qminmax.Q.le_min_l (val (in_ a)) (val (in_ b))).
    pose proof (Qminmax.Q.le_max_l (val (out a)) (val (out b))). lra. }
  destruct (ltb_spec (rmax (out a) (out b)) (rmin (in_ a) (in_ b))); [auto with oak..|lra|].
  simpl. split; [|done]. unfold range_wf; simpl. split; [auto with oak|split; [auto with oak|]].
  destruct (leb_spec (rmin (in_ a) (in_ b)) (rmax (out a) (out b))); [auto with oak..|done|lra].
Qed.

(** A range and the one it overlaps or touches combine to exactly their union. *)
Lemma combined_spec a b : range_wf a -> range_wf b -> overlaps_with a b true true = true ->
  (forall t, finite t -> contains (combined a b) t = true <-> contains a t = true \/ contains b t = true) /\
  (forall k, range_wf k -> apart k a -> apart k b -> apart k (combined a b)).
Proof.
  intros Ha Hb Hov.
  destruct (combined_wf a b Ha Hb) as (Hc & Ei & Eo).
  pose proof (range_wf_val _ Ha) as (_ & _ & ?). pose proof (range_wf_val _ Hb) as (_ & _ & ?).
  assert (Hna : (val (in_ a) <= val (out b) /\ val (in_ b) <= val (out a))%Q).
  { pose proof (apart_val a b Ha Hb) as Hap. unfold apart in Hap. rewrite Hov in Hap.
    destruct (Qlt_le_dec (val (out b)) (val (in_ a))); [destruct Hap as [_ Hap]; discriminate Hap; tauto|].
    destruct (Qlt_le_dec (val (out a)) (val (in_ b))); [destruct Hap as [_ Hap]; discriminate Hap; tauto|].
    done. }
  split.
  - intros t Ht. rewrite !contains_val by done. rewrite Ei, Eo.
    rewrite Qminmax.Q.min_le_iff, Qminmax.Q.max_lt_iff.
    split; [|intros [[? ?]|[? ?]]; split; auto]. intros [Hl Hr].
    destruct (Qlt_le_dec (val t) (val (in_ a))), (Qlt_le_dec (val t) (val (in_ b))),
      (Qlt_le_dec (val t) (val (out a))), (Qlt_le_dec (val t) (val (out b)));
      first [left; split; lra | right; split; lra | exfalso; destruct Hl, Hr; lra].
  - intros k Hk. rewrite !apart_val by done. rewrite Ei, Eo.
    rewrite Qminmax.Q.max_lub_lt_iff, Qminmax.Q.min_glb_lt_iff.
    pose proof (range_wf_val _ Hk) as (_ & _ & ?).
    intros [?|?] [?|?]; try tauto; lra.
Qed.

(** * Merge-on-insert *)

Lemma insert_loop_spec l range :
  list_wf l -> range_wf range ->
  let '(l', range') := insert_loop l range in
  list_wf l' /\ range_wf range' /\ sublist l' l /\
  (forall t, finite t -> (covers l' t \/ contains range' t = true) <->
                         (covers l t \/ contains range t = true)) /\
  (forall k, range_wf k -> apart k range -> Forall (apart k) l -> apart k range') /\
  (separated l -> Forall (fun k => apart k range') l').
Proof.
  revert range. induction l as [|c l IH]; intros range Hl Hr; simpl.
  { split; [done|]. split; [done|]. split; [constructor|]. split; [done|].
    split; [done|]. intros _. constructor. }
  apply list.Forall_cons in Hl as [Hc Hl].
  destruct (overlaps_with c range true true) eqn:Hov.
  - destruct (combined_spec c range Hc Hr Hov) as [Hcov Hap].
    destruct (combined_wf c range Hc Hr) as (Hw & _).
    specialize (IH (combined c range) Hl Hw).
    destruct (insert_loop l (combined c range)) as [l' range'].
    destruct IH as (Hl' & Hr' & Hsub & Hcovers & Hk & Hsep).
    split; [done|]. split; [done|]. split; [by constructor|]. split; [|split].
    + intros t Ht. rewrite (Hcovers t Ht), (Hcov t Ht). unfold covers.
      rewrite Exists_cons. tauto.
    + intros k Hkw Hkr Hkl. apply list.Forall_cons in Hkl as [Hkc Hkl]. apply Hk; auto.
    + intros Hs. inversion Hs; subst. auto.
  - specialize (IH range Hl Hr). destruct (insert_loop l range) as [l' range'].
    destruct IH as (Hl' & Hr' & Hsub & Hcovers & Hk & Hsep).
    split; [by constructor|]. split; [done|]. split; [by constructor|]. split; [|split].
    + intros t Ht. specialize (Hcovers t Ht). unfold covers in *. rewrite !Exists_cons. tauto.
    + intros k Hkw Hkr Hkl. apply list.Forall_cons in Hkl as [Hkc Hkl]. auto.
    + intros Hs. inversion Hs as [|? ? Hcl Hs']; subst. constructor; auto.
Qed.

Lemma apart_sym a b : range_wf a -> range_wf b -> apart a b -> apart b a.
Proof. intros Ha Hb. rewrite !apart_val by done. tauto. Qed.

Lemma sublist_separated l' l : sublist l' l -> separated l -> separated l'.
Proof.
  intros Hs Hl. unfold separated in *. revert l' Hs.
  induction Hl as [|c l Hcl Hl IH]; intros l' Hs.
  - apply sublist_nil_r in Hs as ->. constructor.
  - inversion Hs as [|? l1 ? Hs1|? l1 ? Hs1]; subst; [|by apply IH].
    constructor; [|by apply IH]. rewrite list.Forall_forall in *. intros x Hx.
    apply Hcl. by eapply elem_of_sublist.
Qed.

Lemma separated_snoc l r : separated l -> Forall (fun k => apart k r) l -> separated (l ++ [r]).
Proof.
  unfold separated. induction 1 as [|c l Hcl Hl IH]; intros Hr; simpl.
  - constructor; constructor.
  - apply list.Forall_cons in Hr as [Hc Hr]. constructor; [|by apply IH].
    rewrite Forall_app. split; [done|]. by constructor.
Qed.

Lemma list_contains_covers l r t : list_wf l -> range_wf r -> finite t ->
  list_contains_range l r = true -> contains r t = true -> covers l t.
Proof.
  unfold list_contains_range, covers. intros Hl Hr Ht Hc Hrt.
  apply List.existsb_exists in Hc as (x & Hx & Hxr). apply list_elem_of_In in Hx.
  apply list.Exists_exists. exists x. split; [done|].
  apply (proj1 (list.Forall_forall _ _) Hl) in Hx.
  rewrite contains_val in * by done.
  apply range_wf_val in Hx as (? & ? & ?), Hr as (? & ? & ?). unfold contains_range in Hxr.
  destruct (leb_spec (in_ x) (in_ r)), (leb_spec (out r) (out x)); try done; lra.
Qed.

(** * Subtraction *)

Lemma set_out_val c o : range_wf c -> finite o -> (val (in_ c) <= val o)%Q ->
  set_out c o = mkTimeRange (in_ c) o /\ range_wf (set_out c o).
Proof.
  intros Hc Ho Hle. apply range_wf_val in Hc as (? & ? & ?).
  unfold set_out, normalize; simpl. destruct (ltb_spec o (in_ c)); [done..|lra|].
  split; [done|]. split; [done|]. split; [done|]. simpl.
  destruct (leb_spec (in_ c) o); [done..|lra].
Qed.

Lemma set_in_val c i : range_wf c -> finite i -> (val i <= val (out c))%Q ->
  set_in c i = mkTimeRange i (out c) /\ range_wf (set_in c i).
Proof.
  intros Hc Hi Hle. apply range_wf_val in Hc as (? & ? & ?).
  unfold set_in, normalize; simpl. destruct (ltb_spec (out c) i); [done..|lra|].
  split; [done|]. split; [done|]. split; [done|]. simpl.
  destruct (leb_spec i (out c)); [done..|lra].
Qed.

Lemma contains_false_val r t : range_wf r -> finite t ->
  contains r t = false <-> (val t < val (in_ r) \/ val (out r) <= val t)%Q.
Proof.
  intros Hr Ht. apply range_wf_val in Hr as (Hi & Ho & Hle). unfold contains.
  destruct (leb_spec (in_ r) t), (ltb_spec t (out r)); try done; simpl;
    split; intros; try done; try tauto; try lra.
Qed.

(** Compare two finite instants. *)
Ltac ltcase a b := destruct (ltb_spec a b); [assumption|assumption| |].
Ltac lecase a b := destruct (leb_spec a b); [assumption|assumption| |].

(** The piece of [c] that survives outside [range] when [range] neither
    swallows [c] nor splits it. *)
Definition trimmed (c range : TimeRange) : TimeRange :=
  if ltb (in_ c) (in_ range) && ltb (in_ range) (out c) then set_out c (in_ range)
  else if ltb (in_ c) (out range) && ltb (out range) (out c) then set_in c (out range)
  else c.

Lemma trimmed_spec c range : range_wf c -> range_wf range ->
  contains_range range c true true = false ->
  contains_range c range false false = false ->
  range_wf (trimmed c range) /\
  (forall t, finite t -> contains (trimmed c range) t = true <->
     contains c t = true /\ contains range t = false) /\
  (val (in_ c) <= val (in_ (trimmed c range)))%Q /\
  (val (out (trimmed c range)) <= val (out c))%Q.
Proof.
  intros Hc Hr H1 H2. unfold contains_range in *.
  pose proof (range_wf_val _ Hc) as (Fci & Fco & ?). pose proof (range_wf_val _ Hr) as (Fri & Fro & ?).
  assert (Hgoal : forall c', range_wf c' ->
    (forall t, (val (in_ c') <= t /\ t < val (out c'))%Q <->
       ((val (in_ c) <= t /\ t < val (out c)) /\ (t < val (in_ range) \/ val (out range) <= t))%Q) ->
    (forall t, finite t -> contains c' t = true <-> contains c t = true /\ contains range t = false)).
  { intros c' Hc' Hv t Ht. rewrite !contains_val, contains_false_val by done. apply Hv. }
  unfold trimmed.
  lecase (in_ range) (in_ c); lecase (out c) (out range); simpl in H1; try done;
    ltcase (in_ c) (in_ range); try lra; ltcase (out range) (out c); try lra;
    simpl in H2; try done; simpl.
  - destruct (ltb_spec (in_ c) (out range)); [done..| |]; simpl.
    + destruct (set_in_val c (out range) Hc Fro) as [E Hw]; [lra|].
      rewrite E in *. split; [done|]. split; [|simpl; lra].
      apply Hgoal; [done|]. simpl. intros t. split; intros; lra.
    + split; [done|]. split; [|lra]. apply Hgoal; [done|]. intros t. split; intros; [|lra].
      destruct (Qlt_le_dec t (val (in_ range))); lra.
  - destruct (ltb_spec (in_ range) (out c)); [done..| |]; simpl.
    + destruct (set_out_val c (in_ range) Hc Fri) as [E Hw]; [lra|].
      rewrite E in *. split; [done|]. split; [|simpl; lra].
      apply Hgoal; [done|]. simpl. intros t. split; intros; lra.
    + rewrite andb_false_r. split; [done|]. split; [|lra]. apply Hgoal; [done|].
      intros t. split; intros; lra.
Qed.

Lemma remove_loop_trimmed c l range :
  remove_loop (c :: l) range =
  if contains_range range c true true then remove_loop l range
  else if contains_range c range false false
  then (set_out c (in_ range) :: l, [set_in c (out range)])
  else let '(l', adds) := remove_loop l range in (trimmed c range :: l', adds).
Proof. done. Qed.

Lemma swallowed_spec c range t : range_wf c -> range_wf range -> finite t ->
  contains_range range c true true = true -> contains c t = true -> contains range t = true.
Proof.
  intros Hc Hr Ht H. rewrite !contains_val by done. unfold contains_range in H.
  pose proof (range_wf_val _ Hc) as (? & ? & ?). pose proof (range_wf_val _ Hr) as (? & ? & ?).
  lecase (in_ range) (in_ c); lecase (out c) (out range); try done. lra.
Qed.

(** Splitting an element strictly around the removed range. *)
Lemma split_spec c range : range_wf c -> range_wf range ->
  contains_range c range false false = true ->
  range_wf (set_out c (in_ range)) /\ range_wf (set_in c (out range)) /\
  (forall t, finite t ->
    (contains (set_out c (in_ range)) t = true \/ contains (set_in c (out range)) t = true) <->
    (contains c t = true /\ contains range t = false)) /\
  (forall k t, range_wf k -> finite t -> apart c k -> contains k t = true ->
    contains range t = false).
Proof.
  intros Hc Hr H. unfold contains_range in H.
  pose proof (range_wf_val _ Hc) as (? & ? & ?). pose proof (range_wf_val _ Hr) as (? & ? & ?).
  ltcase (in_ c) (in_ range); ltcase (out range) (out c); try done.
  destruct (set_out_val c (in_ range)) as [Eo Ho]; [done|done|lra|].
  destruct (set_in_val c (out range)) as [Ei Hi]; [done|done|lra|].
  rewrite Eo, Ei in *. split; [done|]. split; [done|]. split.
  - intros t Ht. rewrite !contains_val, contains_false_val by done. simpl.
    split; [intros [[? ?]|[? ?]]; lra|]. intros [[? ?] [?|?]]; [left|right]; lra.
  - intros k t Hk Ht. rewrite apart_val, contains_val, contains_false_val by done. lra.
Qed.

Lemma remove_loop_spec l range :
  list_wf l -> range_wf range -> separated l ->
  let '(l', adds) := remove_loop l range in
  list_wf l' /\ list_wf adds /\
  (forall t, finite t -> (covers l' t \/ covers adds t) <->
                         (covers l t /\ contains range t = false)).
Proof.
  intros Hl Hr Hs. induction l as [|c l IH].
  { simpl. split; [constructor|split; [constructor|]]. intros t Ht. unfold covers.
    rewrite Exists_nil. tauto. }
  rewrite remove_loop_trimmed.
  apply list.Forall_cons in Hl as [Hc Hl]. inversion Hs as [|? ? Hap Hs']; subst.
  destruct (contains_range range c true true) eqn:H1.
  - specialize (IH Hl Hs'). destruct (remove_loop l range) as [l' adds].
    destruct IH as (Hl' & Ha & Hcov). split; [done|split; [done|]].
    intros t Ht. rewrite (Hcov t Ht). unfold covers. rewrite List.Exists_cons.
    pose proof (swallowed_spec c range t Hc Hr Ht H1).
    split; [tauto|]. intros [[Hct|Hct] Hf]; [|tauto]. rewrite H in Hf by done. done.
  - destruct (contains_range c range false false) eqn:H2.
    + destruct (split_spec c range Hc Hr H2) as (Ho & Hi & Hcov & Hap').
      split; [by constructor|]. split; [by constructor; [|constructor]|].
      intros t Ht. specialize (Hcov t Ht). unfold covers. rewrite !List.Exists_cons, Exists_nil.
      assert (Hrest : Exists (fun r => contains r t = true) l -> contains range t = false).
      { intros (k & Hk & Hkt)%list.Exists_exists.
        apply (Hap' k); [by eapply list.Forall_forall|done| |done].
        by eapply list.Forall_forall. }
      tauto.
    + destruct (trimmed_spec c range Hc Hr H1 H2) as (Hw & Hcov & _).
      specialize (IH Hl Hs'). destruct (remove_loop l range) as [l' adds].
      destruct IH as (Hl' & Ha & Hcovl). split; [by constructor|]. split; [done|].
      intros t Ht. specialize (Hcovl t Ht). specialize (Hcov t Ht).
      unfold covers in *. rewrite !List.Exists_cons. tauto.
Qed.

(** * Properties *)

(** C6: [TimeRange::new] and every mutator built on it ([set_in], [set_out],
    [intersected], [combined]) keep a range ordered: on canonical endpoints
    the result's in point never exceeds its out point, and its two ends are
    the two given. *)
Theorem TimeRange_new_ordered (i o : Rational) (Hi : wf i) (Ho : wf o) :
  leb (in_ (TimeRange_new i o)) (out (TimeRange_new i o)) = true /\
  ((in_ (TimeRange_new i o) = i /\ out (TimeRange_new i o) = o /\ leb i o = true) \/
   (in_ (TimeRange_new i o) = o /\ out (TimeRange_new i o) = i /\ ltb o i = true)).
Proof.
  unfold TimeRange_new, normalize; simpl. destruct (ltb o i) eqn:E; simpl.
  - split; [by apply ltb_leb|by right].
  - rewrite leb_negb_ltb, E by done. split; [done|]. by left.
Qed.

Lemma TimeRange_new_ordered_witness :
  leb (in_ (TimeRange_new (new 5 1) (new 2 1))) (out (TimeRange_new (new 5 1) (new 2 1))) = true /\
  ((in_ (TimeRange_new (new 5 1) (new 2 1)) = new 5 1 /\
    out (TimeRange_new (new 5 1) (new 2 1)) = new 2 1 /\ leb (new 5 1) (new 2 1) = true) \/
   (in_ (TimeRange_new (new 5 1) (new 2 1)) = new 2 1 /\
    out (TimeRange_new (new 5 1) (new 2 1)) = new 5 1 /\ ltb (new 2 1) (new 5 1) = true)).
Proof. apply TimeRange_new_ordered; apply new_reduced; unfold fits_i64; lia. Defined.

(** C7: inserting into a range list adds exactly the inserted range to the
    covered instants and keeps the elements pairwise non-overlapping and
    non-touching. *)
Theorem TimeRangeList_insert_covers (l : list TimeRange) (r : TimeRange)
    (Hl : list_wf l) (Hr : range_wf r) (Hs : separated l) :
  list_wf (TimeRangeList_insert l r) /\ separated (TimeRangeList_insert l r) /\
  same_cover (TimeRangeList_insert l r) (r :: l).
Proof.
  unfold TimeRangeList_insert. destruct (list_contains_range l r) eqn:Hc.
  - split; [done|split; [done|]]. intros t Ht. unfold covers. rewrite List.Exists_cons.
    pose proof (list_contains_covers l r t Hl Hr Ht Hc). unfold covers in *. tauto.
  - pose proof (insert_loop_spec l r Hl Hr) as Hspec.
    destruct (insert_loop l r) as [l' r'].
    destruct Hspec as (Hl' & Hr' & Hsub & Hcov & _ & Hsep).
    split; [unfold list_wf; rewrite Forall_app; split; [done|by constructor]|]. split.
    + apply separated_snoc; [by eapply sublist_separated|by apply Hsep].
    + intros t Ht. specialize (Hcov t Ht). unfold covers in *.
      rewrite Exists_app, !List.Exists_cons, Exists_nil. tauto.
Qed.

Definition sec (a b : Z) : TimeRange := mkTimeRange (new a 1) (new b 1).

Ltac range_wf_tac :=
  repeat match goal with
  | |- list_wf _ => unfold list_wf
  | |- Forall _ _ => constructor
  | |- range_wf _ => unfold range_wf
  | |- finite _ => split; [right; vm_compute; repeat split; discriminate || done|done]
  | |- _ /\ _ => split
  | |- _ => done
  end.

Lemma TimeRangeList_insert_covers_witness :
  let l := [sec 10 20; sec 30 40] in let r := sec 15 30 in
  list_wf (TimeRangeList_insert l r) /\ separated (TimeRangeList_insert l r) /\
  same_cover (TimeRangeList_insert l r) (r :: l).
Proof.
  apply TimeRangeList_insert_covers; [range_wf_tac..|].
  unfold separated. repeat constructor.
Defined.

(** C8: subtracting a range from a list removes exactly its instants: a time
    is covered afterwards precisely when it was covered before and lies
    outside the removed range. *)
Theorem TimeRangeList_remove_covers (l : list TimeRange) (r : TimeRange)
    (Hl : list_wf l) (Hr : range_wf r) (Hs : separated l) :
  list_wf (TimeRangeList_remove l r) /\
  forall t, finite t ->
    covers (TimeRangeList_remove l r) t <-> (covers l t /\ contains r t = false).
Proof.
  unfold TimeRangeList_remove. pose proof (remove_loop_spec l r Hl Hr Hs) as Hspec.
  destruct (remove_loop l r) as [l' adds]. destruct Hspec as (Hl' & Ha & Hcov).
  split; [by apply Forall_app|]. intros t Ht. rewrite <- (Hcov t Ht).
  unfold covers. by rewrite Exists_app.
Qed.

Lemma TimeRangeList_remove_covers_witness :
  let l := [sec 10 20; sec 30 40] in let r := sec 32 35 in
  list_wf (TimeRangeList_remove l r) /\
  forall t, finite t ->
    covers (TimeRangeList_remove l r) t <-> (covers l t /\ contains r t = false).
Proof.
  apply TimeRangeList_remove_covers; [range_wf_tac..|].
  unfold separated. repeat constructor.
Defined.

(** A range apart from every element is appended as it is. *)
Lemma insert_loop_apart l range :
  Forall (fun k => apart k range) l -> insert_loop l range = (l, range).
Proof.
  induction 1 as [|c l Hc Hl IH]; [done|]. cbn [insert_loop].
  unfold apart in Hc. by rewrite Hc, IH.
Qed.

Lemma list_contains_apart l range : list_wf l -> range_wf range ->
  Forall (fun k => apart k range) l -> list_contains_range l range = false.
Proof.
  intros Hl Hr Hap. apply not_true_is_false. intros Hc.
  apply List.existsb_exists in Hc as (x & Hx & Hxr). apply list_elem_of_In in Hx.
  pose proof (proj1 (list.Forall_forall _ _) Hl _ Hx) as Hwx.
  pose proof (proj1 (list.Forall_forall _ _) Hap _ Hx) as Hax. cbv beta in Hax.
  apply apart_val in Hax; [|done..].
  apply range_wf_val in Hwx as (? & ? & ?), Hr as (? & ? & ?). unfold contains_range in Hxr.
  destruct (leb_spec (in_ x) (in_ range)), (leb_spec (out range) (out x)); try done; lra.
Qed.

(** C9: the list is kept in insertion order, not sorted: inserting a range
    that neither overlaps nor touches any range of a non-empty list puts it
    last, so [first] does not change; when that range starts before the head
    of the list, [first] then answers with a time later than an instant the
    list covers. *)
Theorem TimeRangeList_first_not_earliest (l : list TimeRange) (r : TimeRange)
    (Hl : list_wf l) (Hr : range_wf r) (Hne : l <> [])
    (Hap : Forall (fun k => apart k r) l) :
  TimeRangeList_insert l r = l ++ [r] /\
  first (TimeRangeList_insert l r) = first l /\
  (ltb (in_ r) (out r) = true -> ltb (in_ r) (first l) = true ->
   covers (TimeRangeList_insert l r) (in_ r) /\
   ltb (in_ r) (first (TimeRangeList_insert l r)) = true).
Proof.
  assert (E : TimeRangeList_insert l r = l ++ [r]).
  { unfold TimeRangeList_insert. by rewrite list_contains_apart, insert_loop_apart by done. }
  rewrite E. split; [done|]. destruct l as [|c l]; [done|]. split; [done|].
  intros Hlt Hbefore. split; [|done].
  unfold covers. apply Exists_app. right. constructor.
  apply range_wf_val in Hr as (Hi & Ho & _). unfold contains. rewrite Hlt.
  by destruct (leb_spec (in_ r) (in_ r)); [| | |lra].
Qed.

Lemma TimeRangeList_first_not_earliest_witness :
  let l := TimeRangeList_insert [sec 10 20; sec 30 40] (sec 0 5) in
  l = [sec 10 20; sec 30 40; sec 0 5] /\ first l = new 10 1 /\
  covers l (new 0 1) /\ ltb (new 0 1) (first l) = true.
Proof.
  destruct (TimeRangeList_first_not_earliest [sec 10 20; sec 30 40] (sec 0 5)) as (E & F & H).
  - range_wf_tac.
  - range_wf_tac.
  - done.
  - repeat constructor.
  - cbv zeta. split; [exact E|]. split; [exact F|]. apply H; by vm_compute.
Defined.
