(* ===== verification/Timecode.v ===== *)
(** The binary64 side of oak-core (crates/oak-core/src/rational.rs and
    [TimeRangeList::snap] of timerange.rs): conversions between rationals and
    doubles, and the frame-number conversions that go through a double.

    A double is the Standard Library's [spec_float]; the operators are its
    executable IEEE-754 binary64 functions (53 significant bits, exponents
    below 1024, round to nearest even). *)

From Stdlib Require Import SpecFloat QArith Lqa Qpower Qabs.
From S2P Require Import Prelude Rational TimeRange.

#[local] Open Scope Z_scope.

(** * Doubles *)

Abbreviation f64 := spec_float.
Definition f64_of_int (z : Z) : f64 := binary_normalize 53 1024 z 0 false.
Definition f64_scaled (m e : Z) : f64 := binary_normalize 53 1024 m e false.
Definition f64_mul : f64 -> f64 -> f64 := SFmul 53 1024.
Definition f64_div : f64 -> f64 -> f64 := SFdiv 53 1024.
Definition f64_add : f64 -> f64 -> f64 := SFadd 53 1024.
Definition f64_sub : f64 -> f64 -> f64 := SFsub 53 1024.

Definition f64_is_nan (x : f64) : bool := match x with S754_nan => true | _ => false end.

(** The integer [floor], [ceil] and [round] (half away from zero) deliver for
    the finite value [(-1)^s * m * 2^e]. *)
Definition signed (s : bool) (z : Z) : Z := if s then - z else z.

Definition int_floor (s : bool) (m : positive) (e : Z) : Z :=
  if 0 <=? e then signed s (Z.pos m * 2 ^ e) else signed s (Z.pos m) / 2 ^ (- e).
Definition int_ceil (s : bool) (m : positive) (e : Z) : Z :=
  if 0 <=? e then signed s (Z.pos m * 2 ^ e) else - (- signed s (Z.pos m) / 2 ^ (- e)).
Definition int_round (s : bool) (m : positive) (e : Z) : Z :=
  if 0 <=? e then signed s (Z.pos m * 2 ^ e)
  else signed s ((Z.pos m + 2 ^ (- e - 1)) / 2 ^ (- e)).

Definition f64_integral (f : bool -> positive -> Z -> Z) (x : f64) : f64 :=
  match x with
  | S754_finite s m e => binary_normalize 53 1024 (f s m e) 0 s
  | x => x
  end.

Definition f64_floor : f64 -> f64 := f64_integral int_floor.
Definition f64_ceil : f64 -> f64 := f64_integral int_ceil.
Definition f64_round : f64 -> f64 := f64_integral int_round.

(** [x as i64]: truncation, saturating at the ends, 0 on NaN. *)
Definition saturate (z : Z) : Z := Z.max (- 2 ^ 63) (Z.min z (2 ^ 63 - 1)).
Definition f64_as_i64 (x : f64) : Z :=
  match x with
  | S754_zero _ | S754_nan => 0
  | S754_infinity s => if s then - 2 ^ 63 else 2 ^ 63 - 1
  | S754_finite s m e =>
      saturate (if 0 <=? e then signed s (Z.pos m * 2 ^ e) else signed s (Z.pos m / 2 ^ (- e)))
  end.

(** [frexp]'s exponent: the mantissa lies in [0.5, 1); zero, NaN and the
    infinities pass with exponent 0. *)
Definition frexp_exp (x : f64) : Z :=
  match x with S754_finite _ _ _ => snd (SFfrexp 53 1024 x) | _ => 0 end.

(** * Rational and double *)

Definition to_f64 (r : Rational) : f64 :=
  if den r =? 0 then S754_nan else f64_div (f64_of_int (num r)) (f64_of_int (den r)).

(** [Rational::from_double]. *)
Definition from_double (value : f64) : Rational :=
  if f64_is_nan value || SFltb (f64_add (f64_of_int I32_MAX) (f64_of_int 3)) (SFabs value)
  then NULL
  else
    let exponent := Z.max (frexp_exp value - 1) 0 in
    let den := Z.shiftl 1 (62 - exponent) in
    let num := f64_as_i64 (f64_floor (f64_add (f64_mul value (f64_of_int den)) (f64_scaled 1 (-1)))) in
    let '(rnum, rden) := reduce_fraction num den I32_MAX in
    let '(rnum, rden) :=
      if ((rnum =? 0) || (rden =? 0)) && negb (SFeqb value (S754_zero false))
      then reduce_fraction (f64_as_i64 (f64_mul value (f64_of_int (2 ^ 63 - 1)))) (2 ^ 63 - 1) I32_MAX
      else (rnum, rden) in
    from_reduced rnum rden.

Inductive Rounding : Type := Round | Floor.

(** The double nearest to the literal [0.000000000001]. *)
Definition eps : f64 := S754_finite false 4951760157141521 (-92).

(** [time_to_timestamp_rnd]. *)
Definition time_to_timestamp_rnd (time timebase : Rational) (rnd : Rounding) : Z :=
  let d := f64_mul (to_f64 time) (to_f64 (flipped timebase)) in
  if f64_is_nan d then 0
  else match rnd with
  | Round => f64_as_i64 (f64_round d)
  | Floor =>
      if SFltb (f64_sub (f64_ceil d) eps) d then f64_as_i64 (f64_ceil d)
      else f64_as_i64 (f64_floor d)
  end.

(** [Rational::time_to_timestamp], the timebase being the receiver. *)
Definition time_to_timestamp (timebase time : Rational) : Z :=
  time_to_timestamp_rnd time timebase Round.

Definition snap_time_to_timebase (time timebase : Rational) : Rational :=
  timestamp_to_time (time_to_timestamp_rnd time timebase Floor) timebase.

(** [TimeRangeList::snap] ignores the list. *)
Definition snap (self : list TimeRange) (time timebase : Rational) : Rational :=
  snap_time_to_timebase time timebase.

(** * The rounding error of one operation

    Everything below is about positive magnitudes [m * 2^e], as rationals. *)

Definition B (e : Z) : Q := Qpower (2 # 1) e.
Definition mag (m e : Z) : Q := inject_Z m * B e.
Definition delta : Q := B (-52).

Lemma B_pos e : (0 < B e)%Q.
Proof. apply Qpower_0_lt. done. Qed.

Lemma B_plus a b : (B (a + b) == B a * B b)%Q.
Proof. apply Qpower_plus. done. Qed.

Lemma B_int k : 0 <= k -> (B k == inject_Z (2 ^ k))%Q.
Proof.
  intros Hk. unfold B. change (2 # 1)%Q with (inject_Z 2). rewrite <- Zpower_Qpower by done. done.
Qed.

Lemma mag_shift m e k : 0 <= k -> (mag (m * 2 ^ k) (e - k) == mag m e)%Q.
Proof.
  intros Hk. unfold mag. rewrite inject_Z_mult, <- B_int by done.
  replace e with (k + (e - k))%Z at 2 by lia. rewrite B_plus. ring.
Qed.

Lemma mag_le m n e : m <= n -> (mag m e <= mag n e)%Q.
Proof.
  intros H. unfold mag. apply Qmult_le_compat_r; [by rewrite <- Zle_Qle|].
  apply Qlt_le_weak, B_pos.
Qed.

Lemma mag_succ m e : (mag (m + 1) e == mag m e + B e)%Q.
Proof. unfold mag. rewrite inject_Z_plus. ring. Qed.

(** ** Digits and shifts *)

Lemma digits2_log2 p : Z.pos (digits2_pos p) = Z.log2 (Z.pos p) + 1.
Proof.
  induction p as [p IH|p IH|]; cbn [digits2_pos].
  - rewrite Pos2Z.inj_succ, IH. change (Z.pos p~1) with (2 * Z.pos p + 1).
    rewrite Z.log2_succ_double by lia. lia.
  - rewrite Pos2Z.inj_succ, IH. change (Z.pos p~0) with (2 * Z.pos p).
    rewrite Z.log2_double by lia. lia.
  - done.
Qed.

Lemma Zdigits2_log2 m : 0 < m -> Zdigits2 m = Z.log2 m + 1.
Proof. destruct m as [|p|p]; intros H; try lia. cbn [Zdigits2]. apply digits2_log2. Qed.

Lemma iter_pos_nat {A} (f : A -> A) p x : SpecFloat.iter_pos f p x = Nat.iter (Pos.to_nat p) f x.
Proof.
  revert x. induction p as [p IH|p IH|]; intros x; cbn [SpecFloat.iter_pos].
  - rewrite !IH, Pos2Nat.inj_xI. rewrite <- Nat.iter_add, <- Nat.iter_succ_r.
    f_equal. lia.
  - rewrite !IH, Pos2Nat.inj_xO. rewrite <- Nat.iter_add. f_equal. lia.
  - by rewrite Pos2Nat.inj_1.
Qed.

Lemma shr_1_m r : 0 <= shr_m r -> shr_m (shr_1 r) = shr_m r / 2.
Proof.
  destruct r as [m b s]. cbn [shr_m shr_1]. intros Hm. destruct m as [|p|p]; [done| |lia].
  destruct p as [p|p|]; cbn [shr_m]; [..|done].
  - change (Z.pos p~1) with (2 * Z.pos p + 1). by rewrite Z.mul_comm, Z.div_add_l, Z.add_0_r.
  - change (Z.pos p~0) with (2 * Z.pos p). by rewrite Z.mul_comm, Z.div_mul.
Qed.

Lemma shr_iter n r : 0 <= shr_m r -> shr_m (Nat.iter n shr_1 r) = shr_m r / 2 ^ Z.of_nat n.
Proof.
  intros Hm. induction n as [|n IH]; [by rewrite Z.pow_0_r, Z.div_1_r|].
  rewrite Nat.iter_succ, shr_1_m, IH.
  - rewrite Z.div_div by lia. f_equal. rewrite Nat2Z.inj_succ, Z.pow_succ_r by lia. lia.
  - rewrite IH. apply Z.div_pos; lia.
Qed.

Lemma shr_m_of_loc m l : shr_m (shr_record_of_loc m l) = m.
Proof. by destruct l as [|[]]. Qed.

Abbreviation fexp64 := (fexp 53 1024).

(** In the normal range a mantissa is shifted down to 53 digits, and one
    that has fewer is left as it is. *)
Lemma shr_fexp_spec m e l : 0 < m -> -1000 <= Z.log2 m + 1 + e ->
  let k := Z.max 0 (Z.log2 m - 52) in
  shr_m (shr_fexp 53 1024 m e l).1 = m / 2 ^ k /\ (shr_fexp 53 1024 m e l).2 = e + k /\
  (k = 0 -> (shr_fexp 53 1024 m e l).1 = shr_record_of_loc m l).
Proof.
  intros Hm Hd k. unfold shr_fexp. rewrite Zdigits2_log2 by done.
  assert (Hf : fexp64 (Z.log2 m + 1 + e) - e = Z.log2 m - 52).
  { unfold fexp, emin. lia. }
  rewrite Hf. unfold shr. destruct (Z.log2 m - 52) as [|p|p] eqn:E; cbn [fst snd].
  - replace k with 0 by lia. by rewrite shr_m_of_loc, Z.pow_0_r, Z.div_1_r, Z.add_0_r.
  - replace k with (Z.pos p) by lia. split; [|done].
    rewrite iter_pos_nat, shr_iter, shr_m_of_loc by (rewrite shr_m_of_loc; lia).
    by rewrite positive_nat_Z.
  - replace k with 0 by lia. by rewrite shr_m_of_loc, Z.pow_0_r, Z.div_1_r, Z.add_0_r.
Qed.

Lemma top_digits m : 0 < m -> let k := Z.max 0 (Z.log2 m - 52) in
  m / 2 ^ k < 2 ^ 53 /\ (0 < k -> 2 ^ 52 <= m / 2 ^ k) /\ 0 < m / 2 ^ k.
Proof.
  intros Hm k. destruct (Z.log2_spec m Hm) as [H1 H2].
  assert (Hk : 0 < 2 ^ k) by lia.
  destruct (Z.le_gt_cases (Z.log2 m) 52).
  - replace k with 0 by lia. rewrite Z.pow_0_r, Z.div_1_r. split; [|lia].
    apply (Z.lt_le_trans _ _ _ H2). apply Z.pow_le_mono_r; lia.
  - replace k with (Z.log2 m - 52) in * by lia.
    assert (E1 : 2 ^ Z.log2 m = 2 ^ (Z.log2 m - 52) * 2 ^ 52) by (rewrite <- Z.pow_add_r by lia; f_equal; lia).
    assert (E2 : 2 ^ Z.succ (Z.log2 m) = 2 ^ (Z.log2 m - 52) * 2 ^ 53) by (rewrite <- Z.pow_add_r by lia; f_equal; lia).
    rewrite E1 in H1. rewrite E2 in H2.
    assert (2 ^ 52 <= m / 2 ^ (Z.log2 m - 52)) by (apply Z.div_le_lower_bound; lia).
    split; [apply Z.div_lt_upper_bound; lia|]. lia.
Qed.

Lemma rne_choice m l : round_nearest_even m l = m \/ round_nearest_even m l = m + 1.
Proof. destruct l as [|[]]; cbn; auto. destruct (Z.even m); auto. Qed.

(** The second normalisation of [binary_round_aux]: a mantissa of at most
    2^53 keeps its value. *)
Lemma renormalise m e : 0 < m <= 2 ^ 53 -> -1000 <= Z.log2 m + 1 + e ->
  exists m' e', shr_m (shr_fexp 53 1024 m e loc_Exact).1 = Z.pos m' /\
    (shr_fexp 53 1024 m e loc_Exact).2 = e' /\ (mag (Z.pos m') e' == mag m e)%Q /\ e' <= e + 1.
Proof.
  intros [Hm Hle] Hd. destruct (shr_fexp_spec m e loc_Exact Hm Hd) as (E1 & E2 & _).
  destruct (top_digits m Hm) as (_ & _ & Hpos).
  assert (Hk : Z.max 0 (Z.log2 m - 52) = 0 \/ m = 2 ^ 53).
  { destruct (Z.eq_dec m (2 ^ 53)); [by right|]. left.
    assert (Z.log2 m < 53) by (apply Z.log2_lt_pow2; lia). lia. }
  rewrite E1, E2. destruct Hk as [-> | ->].
  - exists (Z.to_pos m), e. rewrite Z2Pos.id, Z.pow_0_r, Z.div_1_r, Z.add_0_r by done.
    repeat split; try lia.
  - exists (2 ^ 52)%positive, (e + 1). split; [done|]. split; [done|]. split; [|lia].
    rewrite <- (mag_shift (Z.pos (2 ^ 52)) (e + 1) 1) by done. by replace (e + 1 - 1) with e by lia.
Qed.

Lemma mag_div m e k : 0 <= k ->
  (mag (m / 2 ^ k) (e + k) <= mag m e)%Q /\ (mag (m + 1) e <= mag (m / 2 ^ k + 1) (e + k))%Q.
Proof.
  intros Hk. pose proof (Z.pow_pos_nonneg 2 k ltac:(lia) Hk).
  pose proof (Z.div_mod m (2 ^ k) ltac:(lia)). pose proof (Z.mod_pos_bound m (2 ^ k) ltac:(lia)).
  rewrite <- (mag_shift (m / 2 ^ k) (e + k) k), <- (mag_shift (m / 2 ^ k + 1) (e + k) k) by done.
  replace (e + k - k) with e by lia. split; apply mag_le; nia.
Qed.

Lemma delta_ulp M e x : 2 ^ 52 <= M -> (mag M e <= x)%Q -> (B e <= x * delta)%Q.
Proof.
  intros HM Hx. pose proof (mag_le _ _ e HM) as Hle.
  assert (E : (B e == mag (2 ^ 52) e * delta)%Q).
  { unfold mag, delta. rewrite <- (B_int 52) by lia. rewrite (Qmult_comm (B 52)), <- Qmult_assoc, <- B_plus.
    change (B (52 + -52)) with 1%Q. ring. }
  rewrite E. apply Qmult_le_compat_r; [lra|]. apply Qlt_le_weak, B_pos.
Qed.

(** A positive magnitude between two neighbours, given enough digits or
    exactly, comes out of [binary_round_aux] within a relative [2^-52], and
    unchanged when it was exact and fitted. *)
Lemma round_aux_error sx m e l (x : Q) :
  0 < m -> (mag m e <= x)%Q -> (x < mag (m + 1) e)%Q -> (l = loc_Exact -> (x == mag m e)%Q) ->
  l = loc_Exact \/ 2 ^ 52 <= m -> -900 <= Z.log2 m + e <= 900 ->
  exists m' e', binary_round_aux 53 1024 sx m e l = S754_finite sx m' e' /\
    (Qabs (mag (Z.pos m') e' - x) <= x * delta)%Q /\
    (l = loc_Exact -> m < 2 ^ 53 -> (mag (Z.pos m') e' == x)%Q).
Proof.
  intros Hm Hlo Hhi Hex Hdig Hrange. pose proof (Z.log2_nonneg m).
  set (k := Z.max 0 (Z.log2 m - 52)). assert (Hk : 0 <= k) by lia.
  destruct (shr_fexp_spec m e l Hm ltac:(lia)) as (E1 & E2 & E3). fold k in E1, E2, E3.
  destruct (top_digits m Hm) as (Htop & Hbig & Hpos). fold k in Htop, Hbig, Hpos.
  destruct (mag_div m e k Hk) as [Hd1 Hd2]. set (M := m / 2 ^ k) in *.
  assert (Hk0 : k = 0 -> M = m) by (intros Hz; unfold M; rewrite Hz; apply Z.div_1_r).
  unfold binary_round_aux. destruct (shr_fexp 53 1024 m e l) as [mrs e1]. cbn [fst snd] in *. subst e1.
  rewrite E1. set (R := round_nearest_even M (loc_of_shr_record mrs)).
  assert (HR : R = M \/ R = M + 1) by apply rne_choice.
  assert (Hexact : l = loc_Exact -> k = 0 -> R = m).
  { intros Hl Hz. unfold R. rewrite (E3 Hz), Hl. by apply Hk0. }
  assert (HlogR : -1000 <= Z.log2 R + 1 + (e + k)).
  { destruct (Z.eq_dec k 0) as [Hz|Hz].
    - assert (Z.log2 m <= Z.log2 R) by (apply Z.log2_le_mono; specialize (Hk0 Hz); clear -HR Hk0; clearbody M R; lia). lia.
    - assert (2 ^ 52 <= R) by lia. assert (52 <= Z.log2 R) by (change 52 with (Z.log2 (2 ^ 52)); by apply Z.log2_le_mono).
      lia. }
  destruct (renormalise R (e + k)) as (m' & e' & F1 & F2 & F3 & F4); [lia|done|].
  destruct (shr_fexp 53 1024 R (e + k) loc_Exact) as [mrs2 e2]. cbn [fst snd] in *. subst e2. rewrite F1.
  destruct (Z.leb_spec e' (1024 - 53)); [|lia].
  exists m', e'. split; [done|].
  assert (Hsame : l = loc_Exact -> k = 0 -> (mag (Z.pos m') e' == x)%Q).
  { intros Hl Hz. rewrite F3, (Hexact Hl Hz), Hz, (Hex Hl). by rewrite Z.add_0_r. }
  split.
  - assert (Hx0 : (0 <= x * delta)%Q).
    { apply Qmult_le_0_compat; [|apply Qlt_le_weak, B_pos]. unfold mag in Hlo. pose proof (B_pos e).
      assert (0 <= inject_Z m * B e)%Q by (apply Qmult_le_0_compat; [change 0%Q with (inject_Z 0); rewrite <- Zle_Qle; lia|lra]). lra. }
    destruct (Z.le_gt_cases (2 ^ 52) M) as [HM|HM].
    + rewrite F3. pose proof (delta_ulp M (e + k) x HM ltac:(lra)). rewrite (mag_succ M) in Hd2.
      apply Qabs_Qle_condition. destruct HR as [-> | ->]; [|rewrite (mag_succ M)]; split; lra.
    + assert (Hz : k = 0) by (destruct (Z.eq_dec k 0); [done|exfalso; lia]).
      destruct Hdig as [Hl|Hl]; [|rewrite Hk0 in HM by done; lia].
      assert (E0 : (x - x == 0)%Q) by ring. rewrite (Hsame Hl Hz), E0. done.
  - intros Hl Hfit. apply Hsame; [done|].
    assert (Z.log2 m < 53) by (apply Z.log2_lt_pow2; lia). lia.
Qed.

Lemma B_lt a b : a < b -> (B a < B b)%Q.
Proof.
  intros H. replace b with (a + (b - a))%Z by lia. rewrite B_plus, (B_int (b - a)) by lia.
  assert (inject_Z 1 < inject_Z (2 ^ (b - a)))%Q.
  { rewrite <- Zlt_Qlt. apply Z.pow_gt_1; lia. }
  pose proof (B_pos a). rewrite <- (Qmult_1_r (B a)) at 1. by apply Qmult_lt_l.
Qed.

Lemma B_le_inv a b : (B a <= B b)%Q -> a <= b.
Proof. intros H. destruct (Z.le_gt_cases a b) as [|Hlt]; [done|]. pose proof (B_lt b a Hlt). lra. Qed.

(** The exponent of the leading digit brackets the value. *)
Lemma mag_log2 m e : 0 < m ->
  (B (Z.log2 m + e) <= mag m e)%Q /\ (mag (m + 1) e <= B (Z.log2 m + e + 1))%Q.
Proof.
  intros Hm. destruct (Z.log2_spec m Hm) as [H1 H2]. pose proof (Z.log2_nonneg m).
  assert (Hb : forall k, 0 <= k -> (B (k + e) == mag (2 ^ k) e)%Q).
  { intros k Hk. unfold mag. by rewrite B_plus, B_int. }
  replace (Z.log2 m + e + 1) with (Z.log2 m + 1 + e) by lia. rewrite !Hb by lia.
  split; apply mag_le; [done|]. replace (Z.log2 m + 1) with (Z.succ (Z.log2 m)) by lia. lia.
Qed.

(** The magnitudes this file computes with. *)
Definition moderate (n : Z) (x : Q) : Prop := (B (- n) <= x)%Q /\ (x <= B n)%Q.

Lemma round_aux_moderate sx m e l (x : Q) :
  0 < m -> (mag m e <= x)%Q -> (x < mag (m + 1) e)%Q -> (l = loc_Exact -> (x == mag m e)%Q) ->
  l = loc_Exact \/ 2 ^ 52 <= m -> moderate 800 x ->
  exists m' e', binary_round_aux 53 1024 sx m e l = S754_finite sx m' e' /\
    (Qabs (mag (Z.pos m') e' - x) <= x * delta)%Q /\
    (l = loc_Exact -> m < 2 ^ 53 -> (mag (Z.pos m') e' == x)%Q).
Proof.
  intros Hm Hlo Hhi Hex Hdig [Hx1 Hx2]. apply round_aux_error; try done.
  destruct (mag_log2 m e Hm) as [H1 H2].
  assert (Z.log2 m + e <= 800) by (apply B_le_inv; lra).
  assert (Z.opp 800 <= Z.log2 m + e + 1) by (apply B_le_inv; lra). lia.
Qed.

Lemma mag_pos p e : (0 < mag (Z.pos p) e)%Q.
Proof. unfold mag. apply Qmult_lt_0_compat; [done|apply B_pos]. Qed.

Lemma mag_lt_succ m e : (mag m e < mag (m + 1) e)%Q.
Proof. rewrite mag_succ. pose proof (B_pos e). lra. Qed.

(** * The operations *)

Lemma iter_xO p d : Z.pos (Pos.iter xO p d) = Z.pos p * 2 ^ Z.pos d.
Proof.
  induction d as [|d IH] using Pos.peano_ind; [by rewrite Z.mul_comm|].
  rewrite Pos.iter_succ, Pos2Z.inj_xO, IH, Pos2Z.inj_succ, Z.pow_succ_r by lia. lia.
Qed.

(** Small integers are exact. *)
Lemma f64_of_int_exact z : z <> 0 -> Z.abs z < 2 ^ 53 ->
  exists m e, f64_of_int z = S754_finite (z <? 0) m e /\ (mag (Z.pos m) e == inject_Z (Z.abs z))%Q.
Proof.
  intros Hz Hlt.
  assert (Hround : forall s p, Z.pos p = Z.abs z -> exists m e,
    binary_round 53 1024 s p 0 = S754_finite s m e /\ (mag (Z.pos m) e == inject_Z (Z.pos p))%Q).
  { intros s p Hp. unfold binary_round. rewrite digits2_log2, Z.add_0_r.
    assert (Hlog : 0 <= Z.log2 (Z.pos p) < 53).
    { split; [apply Z.log2_nonneg|]. apply Z.log2_lt_pow2; lia. }
    assert (Hf : fexp64 (Z.log2 (Z.pos p) + 1) = Z.log2 (Z.pos p) - 52) by (unfold fexp, emin; lia).
    rewrite Hf. unfold shl_align. rewrite Z.sub_0_r.
    assert (Hmod : moderate 800 (inject_Z (Z.pos p))).
    { destruct (mag_log2 (Z.pos p) 0) as [H1 H2]; [done|].
      assert (E : (mag (Z.pos p) 0 == inject_Z (Z.pos p))%Q) by (unfold mag; change (B 0) with 1%Q; ring).
      pose proof (mag_lt_succ (Z.pos p) 0). rewrite E in *.
      split; [pose proof (B_lt (Z.opp 800) (Z.log2 (Z.pos p) + 0) ltac:(lia))
             |pose proof (B_lt (Z.log2 (Z.pos p) + 0 + 1) 800 ltac:(lia))]; lra. }
    assert (Hgo : forall q k, 0 <= k -> Z.pos q = Z.pos p * 2 ^ k -> Z.pos q < 2 ^ 53 -> exists m e,
      binary_round_aux 53 1024 s (Z.pos q) (0 - k) loc_Exact = S754_finite s m e /\
      (mag (Z.pos m) e == inject_Z (Z.pos p))%Q).
    { intros q k Hk Hq Hq53.
      assert (E : (mag (Z.pos q) (0 - k) == inject_Z (Z.pos p))%Q).
      { rewrite Hq, mag_shift by done. unfold mag. change (B 0) with 1%Q. ring. }
      destruct (round_aux_moderate s (Z.pos q) (0 - k) loc_Exact (inject_Z (Z.pos p)))
        as (m & e & F1 & _ & F3); [done|lra|rewrite <- E; apply mag_lt_succ|intros _; by symmetry|by left|done|].
      exists m, e. auto. }
    destruct (Z.log2 (Z.pos p) - 52) as [|d|d] eqn:Ed; [| lia |].
    - destruct (Hgo p 0) as (m & e & H1 & H2); [done|lia|lia|]. by exists m, e.
    - pose proof (iter_xO p d) as Hsh.
      destruct (Hgo (Pos.iter xO p d) (Z.pos d)) as (m & e & H1 & H2); [done|done| |by exists m, e].
      rewrite Hsh. destruct (Z.log2_spec (Z.pos p) ltac:(done)) as [_ Hs].
      replace 53 with (Z.succ (Z.log2 (Z.pos p)) + Z.pos d) by lia. rewrite Z.pow_add_r by lia.
      apply Z.mul_lt_mono_pos_r; lia. }
  unfold f64_of_int. destruct z as [|p|p]; [done| |]; cbn [binary_normalize Z.abs Z.ltb Z.compare].
  - by apply Hround.
  - by apply Hround.
Qed.

Lemma mul_le_cross (a b c d : Q) : (0 <= a)%Q -> (a <= b)%Q -> (0 <= c)%Q -> (c <= d)%Q -> (a * c <= b * d)%Q.
Proof. intros. nra. Qed.

Lemma f64_mul_error s1 m1 e1 s2 m2 e2 :
  moderate 300 (mag (Z.pos m1) e1) -> moderate 300 (mag (Z.pos m2) e2) ->
  let X := (mag (Z.pos m1) e1 * mag (Z.pos m2) e2)%Q in
  exists m e, f64_mul (S754_finite s1 m1 e1) (S754_finite s2 m2 e2) = S754_finite (xorb s1 s2) m e /\
    (Qabs (mag (Z.pos m) e - X) <= X * delta)%Q.
Proof.
  intros [A1 A2] [C1 C2] X. unfold f64_mul. cbn [SFmul].
  assert (E : (mag (Z.pos (m1 * m2)) (e1 + e2) == X)%Q).
  { unfold X, mag. rewrite Pos2Z.inj_mul, inject_Z_mult, B_plus. ring. }
  destruct (round_aux_moderate (xorb s1 s2) (Z.pos (m1 * m2)) (e1 + e2) loc_Exact X)
    as (m & e & F1 & F2 & _); [done|lra|rewrite <- E; apply mag_lt_succ|intros _; by symmetry|by left| |].
  - pose proof (B_lt (Z.opp 800) (Z.opp 300 + Z.opp 300) ltac:(lia)) as L1. pose proof (B_lt (300 + 300) 800 ltac:(lia)) as L2.
    rewrite B_plus in L1, L2. pose proof (B_pos (Z.opp 300)).
    assert (B (Z.opp 300) * B (Z.opp 300) <= X)%Q by (apply mul_le_cross; lra).
    assert (X <= B 300 * B 300)%Q by (apply mul_le_cross; lra). split; lra.
  - by exists m, e.
Qed.

Lemma new_location_exact n r : new_location n r = loc_Exact -> r = 0.
Proof.
  unfold new_location, new_location_even, new_location_odd.
  destruct (Z.even n), (Z.eqb_spec r 0); congruence.
Qed.

Lemma moderate_log2 n m e : 0 < m -> moderate n (mag m e) -> - n - 1 <= Z.log2 m + e <= n.
Proof.
  intros Hm [H1 H2]. destruct (mag_log2 m e Hm) as [L1 L2]. pose proof (mag_lt_succ m e).
  split; [|apply B_le_inv; lra].
  assert (- n <= Z.log2 m + e + 1) by (apply B_le_inv; lra). lia.
Qed.

(** The quotient [SFdiv_core_binary] delivers has enough digits and brackets
    the exact one. *)
Lemma div_core_spec m1 e1 m2 e2 :
  -101 <= Z.log2 (Z.pos m1) + e1 <= 100 -> -101 <= Z.log2 (Z.pos m2) + e2 <= 100 ->
  exists q e l, SFdiv_core_binary 53 1024 (Z.pos m1) e1 (Z.pos m2) e2 = (q, e, l) /\ 2 ^ 52 <= q /\
    (mag q e * mag (Z.pos m2) e2 <= mag (Z.pos m1) e1)%Q /\
    (mag (Z.pos m1) e1 < mag (q + 1) e * mag (Z.pos m2) e2)%Q /\
    (l = loc_Exact -> (mag q e * mag (Z.pos m2) e2 == mag (Z.pos m1) e1)%Q).
Proof.
  intros H1 H2. unfold SFdiv_core_binary. rewrite !Zdigits2_log2 by done.
  set (D := Z.log2 (Z.pos m1) + 1 + e1 - (Z.log2 (Z.pos m2) + 1 + e2)).
  assert (Hf : fexp64 D = D - 53) by (unfold fexp, emin; lia). rewrite Hf.
  set (E := Z.min (D - 53) (e1 - e2)). set (s := e1 - e2 - E).
  assert (Hs : 0 <= s) by lia.
  assert (Hm' : match s with 0 => Z.pos m1 | Z.pos _ => Z.shiftl (Z.pos m1) s | Z.neg _ => 0 end
                = Z.pos m1 * 2 ^ s).
  { destruct s; [lia| |lia]. by rewrite Z.shiftl_mul_pow2. }
  rewrite Hm'. set (M := Z.pos m1 * 2 ^ s).
  pose proof (Z_div_mod M (Z.pos m2) ltac:(done)) as Hdm.
  destruct (Z.div_eucl M (Z.pos m2)) as [q r]. destruct Hdm as [HM Hr].
  exists q, E, (new_location (Z.pos m2) r). split; [done|].
  assert (Emag : (mag (Z.pos m1) e1 == inject_Z M * B (E + e2))%Q).
  { unfold M. rewrite <- (mag_shift (Z.pos m1) e1 s) by done. unfold mag.
    by replace (e1 - s) with (E + e2) by lia. }
  assert (Eprod : forall n, (mag n E * mag (Z.pos m2) e2 == inject_Z (n * Z.pos m2) * B (E + e2))%Q).
  { intros n. unfold mag. rewrite inject_Z_mult, B_plus. ring. }
  assert (Hbig : 2 ^ 52 <= q).
  { destruct (Z.log2_spec (Z.pos m1) ltac:(done)) as [L1 _].
    destruct (Z.log2_spec (Z.pos m2) ltac:(done)) as [_ L2].
    assert (Z.pos m2 * 2 ^ 52 <= M).
    { apply Z.le_trans with (2 ^ (Z.log2 (Z.pos m1) + s)).
      - apply Z.le_trans with (2 ^ (Z.succ (Z.log2 (Z.pos m2)) + 52)).
        + rewrite Z.pow_add_r by (pose proof (Z.log2_nonneg (Z.pos m2)); lia).
          apply Z.mul_le_mono_pos_r; lia.
        + apply Z.pow_le_mono_r; lia.
      - unfold M. rewrite Z.pow_add_r by (pose proof (Z.log2_nonneg (Z.pos m1)); lia).
        apply Z.mul_le_mono_nonneg_r; [apply Z.pow_nonneg|]; lia. }
    assert (2 ^ 52 < q + 1) by nia. lia. }
  pose proof (B_pos (E + e2)) as HB.
  split; [done|]. split; [|split].
  - rewrite Eprod, Emag. apply Qmult_le_compat_r; [rewrite <- Zle_Qle; lia|lra].
  - rewrite Eprod, Emag. apply Qmult_lt_r; [done|]. rewrite <- Zlt_Qlt. lia.
  - intros Hl%new_location_exact. rewrite Eprod, Emag. by replace M with (q * Z.pos m2) by lia.
Qed.

Lemma f64_div_error s1 m1 e1 s2 m2 e2 (X : Q) :
  moderate 100 (mag (Z.pos m1) e1) -> moderate 100 (mag (Z.pos m2) e2) ->
  (X * mag (Z.pos m2) e2 == mag (Z.pos m1) e1)%Q -> moderate 800 X ->
  exists m e, f64_div (S754_finite s1 m1 e1) (S754_finite s2 m2 e2) = S754_finite (xorb s1 s2) m e /\
    (Qabs (mag (Z.pos m) e - X) <= X * delta)%Q.
Proof.
  intros H1 H2 HX Hmod. unfold f64_div. cbn [SFdiv].
  destruct (div_core_spec m1 e1 m2 e2) as (q & e & l & -> & Hq & Hlo & Hhi & Hex);
    [by apply (moderate_log2 100)|by apply (moderate_log2 100)|].
  pose proof (mag_pos m2 e2) as Hp. rewrite <- HX in Hlo, Hhi, Hex.
  destruct (round_aux_moderate (xorb s1 s2) q e l X) as (m & e' & F1 & F2 & _); [lia| | | |by right|done|].
  - by apply Qmult_le_r in Hlo.
  - by apply Qmult_lt_r in Hhi.
  - intros Hl. specialize (Hex Hl). apply Qmult_inj_r in Hex; [by symmetry|]. intros E0. lra.
  - by exists m, e'.
Qed.

(** A quotient of two small integers. *)
Lemma f64_quotient a b : a <> 0 -> b <> 0 -> Z.abs a < 2 ^ 53 -> Z.abs b < 2 ^ 53 ->
  exists m e, f64_div (f64_of_int a) (f64_of_int b) = S754_finite (xorb (a <? 0) (b <? 0)) m e /\
    (Qabs (mag (Z.pos m) e - inject_Z (Z.abs a) / inject_Z (Z.abs b))
     <= inject_Z (Z.abs a) / inject_Z (Z.abs b) * delta)%Q.
Proof.
  intros Ha Hb Ha53 Hb53.
  destruct (f64_of_int_exact a Ha Ha53) as (m1 & e1 & -> & E1).
  destruct (f64_of_int_exact b Hb Hb53) as (m2 & e2 & -> & E2).
  assert (Hint : forall z, z <> 0 -> Z.abs z < 2 ^ 53 ->
    (1 <= inject_Z (Z.abs z))%Q /\ (inject_Z (Z.abs z) <= B 53)%Q).
  { intros z Hz Hz53. change 1%Q with (inject_Z 1). rewrite (B_int 53), <- !Zle_Qle by done. lia. }
  destruct (Hint a Ha Ha53) as [A1 A2], (Hint b Hb Hb53) as [C1 C2].
  pose proof (B_lt (Z.opp 100) 0 ltac:(lia)) as L1. pose proof (B_lt 53 100 ltac:(lia)) as L2.
  change (B 0) with 1%Q in L1.
  assert (Hnz : ~ (inject_Z (Z.abs b) == 0)%Q) by (intros E0; lra).
  set (X := (inject_Z (Z.abs a) / inject_Z (Z.abs b))%Q).
  assert (HX : (X * inject_Z (Z.abs b) == inject_Z (Z.abs a))%Q) by (unfold X; by field).
  apply f64_div_error.
  - split; rewrite E1; lra.
  - split; rewrite E2; lra.
  - by rewrite E1, E2.
  - assert (Hpow : (B (-53) * B 53 == 1)%Q) by (rewrite <- B_plus; done).
    pose proof (B_lt (Z.opp 800) (-53) ltac:(lia)). pose proof (B_lt 53 800 ltac:(lia)).
    pose proof (B_pos (-53)).
    assert (B (-53) <= X)%Q.
    { apply (Qmult_le_r _ _ (inject_Z (Z.abs b))); [lra|]. rewrite HX. nra. }
    assert (X <= B 53)%Q.
    { apply (Qmult_le_r _ _ (inject_Z (Z.abs b))); [lra|]. rewrite HX. nra. }
    split; lra.
Qed.

(** * Reading an integer back *)

Lemma mag_Z m e : 0 <= e -> (mag m e == inject_Z (m * 2 ^ e))%Q.
Proof. intros He. unfold mag. by rewrite inject_Z_mult, B_int. Qed.

Lemma mag_frac m e : e < 0 -> (mag m e * inject_Z (2 ^ (- e)) == inject_Z m)%Q.
Proof.
  intros He. unfold mag. rewrite <- B_int, <- Qmult_assoc, <- B_plus by lia.
  replace (e + - e) with 0 by lia. change (B 0) with 1%Q. ring.
Qed.

Lemma inject_lt a b : (inject_Z a < inject_Z b)%Q <-> a < b.
Proof. by rewrite Zlt_Qlt. Qed.

(** A magnitude less than half away from an integer rounds to it. *)
Lemma int_round_near s m e z : 0 < z -> (Qabs (mag (Z.pos m) e - inject_Z z) < 1 # 2)%Q ->
  int_round s m e = signed s z.
Proof.
  intros Hz H. apply Qabs_Qlt_condition in H as [H1 H2]. unfold int_round.
  destruct (Z.leb_spec 0 e) as [He|He].
  - rewrite mag_Z in H1, H2 by done. f_equal.
    assert (Z.pos m * 2 ^ e < z + 1) by (rewrite <- inject_lt, inject_Z_plus; change (inject_Z 1) with 1%Q; lra).
    assert (z < Z.pos m * 2 ^ e + 1) by (rewrite <- inject_lt, inject_Z_plus; change (inject_Z 1) with 1%Q; lra).
    lia.
  - f_equal. symmetry. set (k := - e) in *.
    assert (Hk : 0 < 2 ^ (k - 1)) by (apply Z.pow_pos_nonneg; lia).
    assert (E : 2 ^ k = 2 * 2 ^ (k - 1)) by (rewrite <- Z.pow_succ_r by lia; f_equal; lia).
    pose proof (mag_frac (Z.pos m) e He) as Hm. fold k in Hm.
    assert (HQ : (0 < inject_Z (2 ^ (k - 1)))%Q) by (change 0%Q with (inject_Z 0); rewrite inject_lt; done).
    rewrite E, inject_Z_mult in Hm. change (inject_Z 2) with 2%Q in Hm. rewrite E.
    set (h := 2 ^ (k - 1)) in *. set (v := mag (Z.pos m) e) in *.
    assert (L1 : ((inject_Z z - (1 # 2)) * (2 * inject_Z h) < inject_Z (Z.pos m))%Q).
    { rewrite <- Hm. apply Qmult_lt_r; lra. }
    assert (L2 : (inject_Z (Z.pos m) < (inject_Z z + (1 # 2)) * (2 * inject_Z h))%Q).
    { rewrite <- Hm. apply Qmult_lt_r; lra. }
    assert (z * (2 * h) - h < Z.pos m).
    { rewrite <- inject_lt. unfold Z.sub. rewrite inject_Z_plus, inject_Z_opp, !inject_Z_mult.
      change (inject_Z 2) with 2%Q. lra. }
    assert (Z.pos m < z * (2 * h) + h).
    { rewrite <- inject_lt, inject_Z_plus, !inject_Z_mult. change (inject_Z 2) with 2%Q. lra. }
    apply (Z.div_unique _ _ _ (Z.pos m + h - z * (2 * h))); lia.
Qed.

Lemma as_i64_of_int s z : 0 < z < 2 ^ 53 ->
  f64_as_i64 (binary_normalize 53 1024 (signed s z) 0 s) = signed s z.
Proof.
  intros Hz. assert (Hnz : signed s z <> 0) by (destruct s; cbn [signed]; lia).
  assert (Habs : Z.abs (signed s z) = z) by (destruct s; cbn [signed]; lia).
  assert (Hneg : (signed s z <? 0) = s) by (destruct s; cbn [signed]; lia).
  destruct (f64_of_int_exact (signed s z) Hnz ltac:(lia)) as (m & e & E1 & E2).
  rewrite Habs in E2. rewrite Hneg in E1.
  replace (binary_normalize 53 1024 (signed s z) 0 s) with (f64_of_int (signed s z))
    by (unfold f64_of_int; by destruct (signed s z)).
  rewrite E1. unfold f64_as_i64.
  assert (Hv : (if 0 <=? e then signed s (Z.pos m * 2 ^ e) else signed s (Z.pos m / 2 ^ (- e))) = signed s z).
  { destruct (Z.leb_spec 0 e) as [He|He]; f_equal.
    - rewrite mag_Z in E2 by done. by apply (proj1 (inject_Z_injective _ _)).
    - pose proof (mag_frac (Z.pos m) e He) as Hm. rewrite E2, <- inject_Z_mult in Hm.
      apply (proj1 (inject_Z_injective _ _)) in Hm. rewrite <- Hm. apply Z.div_mul.
      pose proof (Z.pow_pos_nonneg 2 (- e)). lia. }
  rewrite Hv. unfold saturate. destruct s; cbn [signed]; lia.
Qed.

Lemma round_near s m e z : 0 < z < 2 ^ 53 -> (Qabs (mag (Z.pos m) e - inject_Z z) < 1 # 2)%Q ->
  f64_as_i64 (f64_round (S754_finite s m e)) = signed s z.
Proof.
  intros Hz H. unfold f64_round, f64_integral. rewrite (int_round_near s m e z) by (done || lia).
  by apply as_i64_of_int.
Qed.

(** * Frame numbers *)

Lemma delta_val : (delta == 1 # 4503599627370496)%Q.
Proof. done. Qed.

(** Three roundings of a product that is an integer below 2^40 stay less than
    half away from it. *)
Lemma three_roundings (x1 x2 t1 t2 p : Q) z : 0 < z < 2 ^ 40 ->
  (0 < x1)%Q -> (0 < x2)%Q -> (x1 * x2 == inject_Z z)%Q ->
  (Qabs (t1 - x1) <= x1 * delta)%Q -> (Qabs (t2 - x2) <= x2 * delta)%Q ->
  (Qabs (p - t1 * t2) <= t1 * t2 * delta)%Q ->
  (Qabs (p - inject_Z z) < 1 # 2)%Q.
Proof.
  intros Hz Hx1 Hx2 Hx H1 H2 H3. rewrite delta_val in *.
  apply Qabs_Qle_condition in H1, H2, H3.
  assert (Hz40 : (0 < inject_Z z /\ inject_Z z < 1099511627776)%Q).
  { change 0%Q with (inject_Z 0). change 1099511627776%Q with (inject_Z 1099511627776).
    rewrite !inject_lt. lia. }
  assert (Hup : (t1 * t2 <= (x1 * (1 + (1 # 4503599627370496))) * (x2 * (1 + (1 # 4503599627370496))))%Q)
    by (apply mul_le_cross; lra).
  assert (Hlo : ((x1 * (1 - (1 # 4503599627370496))) * (x2 * (1 - (1 # 4503599627370496))) <= t1 * t2)%Q)
    by (apply mul_le_cross; lra).
  assert (E : forall c, ((x1 * c) * (x2 * c) == inject_Z z * (c * c))%Q) by (intros c; rewrite <- Hx; ring).
  rewrite E in Hup, Hlo. apply Qabs_Qlt_condition. split; lra.
Qed.

Lemma flipped_pos tb : 0 < num tb -> 0 < den tb -> flipped tb = mkRational (den tb) (num tb).
Proof.
  intros H Hd. unfold flipped, fix_signs. destruct (Z.eqb_spec (num tb) 0); [lia|].
  destruct (Z.ltb_spec (num tb) 0); [lia|]. destruct (Z.eqb_spec (num tb) 0); [lia|].
  destruct (Z.eqb_spec (den tb) 0); [lia|done].
Qed.

Lemma quotient_moderate a b : 0 < a <= REDUCE_MAX -> 0 < b <= REDUCE_MAX ->
  let x := (inject_Z a / inject_Z b)%Q in
  (0 < x)%Q /\ (B (-31) <= x)%Q /\ (x <= B 31)%Q.
Proof.
  intros Ha Hb x. rewrite REDUCE_MAX_val in *.
  assert (Hint : forall z, 0 < z <= 2147483647 -> (1 <= inject_Z z)%Q /\ (inject_Z z <= B 31)%Q).
  { intros z Hz. change 1%Q with (inject_Z 1). rewrite (B_int 31), <- !Zle_Qle by done. lia. }
  destruct (Hint a Ha), (Hint b Hb). assert (~ (inject_Z b == 0)%Q) by lra.
  assert (HX : (x * inject_Z b == inject_Z a)%Q) by (unfold x; by field).
  assert (Hpow : (B (-31) * B 31 == 1)%Q) by (rewrite <- B_plus; done).
  pose proof (B_pos (-31)).
  assert (B (-31) <= x)%Q by (apply (Qmult_le_r _ _ (inject_Z b)); [lra|]; rewrite HX; nra).
  split; [lra|]. split; [done|]. apply (Qmult_le_r _ _ (inject_Z b)); [lra|]. rewrite HX. nra.
Qed.

Lemma perturbed_moderate t x : (B (-31) <= x)%Q -> (x <= B 31)%Q -> (Qabs (t - x) <= x * delta)%Q ->
  moderate 300 t.
Proof.
  intros H1 H2 H3. rewrite delta_val in H3. apply Qabs_Qle_condition in H3.
  pose proof (B_lt (Z.opp 300) (-32) ltac:(lia)). pose proof (B_lt 32 300 ltac:(lia)).
  assert ((B (-31) == 2 * B (-32))%Q /\ (B 32 == 2 * B 31)%Q) as [E1 E2] by (split; reflexivity).
  pose proof (B_pos (-32)). pose proof (B_pos 31). split; lra.
Qed.

(** The frame number of an exact frame time, whatever the rounding of the
    three floating-point operations. *)
Lemma exact_frame_number time tb ts : finite time -> finite tb -> 0 < num tb ->
  num time * den tb = ts * num tb * den time -> Z.abs ts < 2 ^ 40 ->
  time_to_timestamp tb time = ts.
Proof.
  intros Ht Htb Hpos Hex Hts. pose proof (finite_pos _ Ht) as Hdt. pose proof (finite_pos _ Htb) as Hdb.
  destruct Ht as [[[_ ?]|(D1 & N1 & _)] _]; [lia|]. destruct Htb as [[[_ ?]|(D2 & N2 & _)] _]; [lia|].
  unfold time_to_timestamp, time_to_timestamp_rnd. rewrite flipped_pos by done. unfold to_f64. cbn [num den].
  destruct (Z.eqb_spec (den time) 0); [lia|]. destruct (Z.eqb_spec (num tb) 0); [lia|].
  rewrite REDUCE_MAX_val in *.
  destruct (f64_quotient (den tb) (num tb)) as (m2 & e2 & -> & Q2); [lia..|].
  destruct (Z.eq_dec ts 0) as [->|Hts0].
  { assert (num time = 0) as -> by nia.
    destruct (f64_of_int_exact (den time)) as (m & e & Ef & _); [lia..|].
    change (f64_of_int 0) with (S754_zero false). rewrite Ef. done. }
  assert (Hnt : num time <> 0) by nia.
  destruct (f64_quotient (num time) (den time)) as (m1 & e1 & -> & Q1); [lia..|].
  rewrite (Z.abs_eq (den time)) in Q1 by lia. rewrite (Z.abs_eq (den tb)), (Z.abs_eq (num tb)) in Q2 by lia.
  replace (den time <? 0) with false by (symmetry; apply Z.ltb_ge; lia).
  replace (den tb <? 0) with false by (symmetry; apply Z.ltb_ge; lia).
  replace (num tb <? 0) with false by (symmetry; apply Z.ltb_ge; lia).
  rewrite !xorb_false_r.
  destruct (quotient_moderate (Z.abs (num time)) (den time)) as (P1 & L1 & U1); [rewrite REDUCE_MAX_val; lia..|].
  destruct (quotient_moderate (den tb) (num tb)) as (P2 & L2 & U2); [rewrite REDUCE_MAX_val; lia..|].
  destruct (f64_mul_error (num time <? 0) m1 e1 false m2 e2) as (m & e & -> & Q3);
    [exact (perturbed_moderate _ _ L1 U1 Q1)|exact (perturbed_moderate _ _ L2 U2 Q2)|].
  rewrite xorb_false_r. unfold f64_is_nan.
  assert (Hprod : (inject_Z (Z.abs (num time)) / inject_Z (den time) *
                   (inject_Z (den tb) / inject_Z (num tb)) == inject_Z (Z.abs ts))%Q).
  { assert (E : Z.abs (num time) * den tb = Z.abs ts * num tb * den time).
    { apply (f_equal Z.abs) in Hex. rewrite !Z.abs_mul in Hex.
      rewrite (Z.abs_eq (den tb)), (Z.abs_eq (num tb)), (Z.abs_eq (den time)) in Hex by lia. done. }
    apply (f_equal inject_Z) in E. rewrite !inject_Z_mult in E.
    assert (~ (inject_Z (den time) == 0)%Q /\ ~ (inject_Z (num tb) == 0)%Q) as [Z1 Z2].
    { change 0%Q with (inject_Z 0). split; intros K; apply (proj1 (inject_Z_injective _ _)) in K; lia. }
    transitivity ((inject_Z (Z.abs (num time)) * inject_Z (den tb)) / (inject_Z (den time) * inject_Z (num tb)))%Q;
      [by field|]. rewrite E. by field. }
  rewrite (round_near _ _ _ (Z.abs ts)); [|lia|].
  - unfold signed. destruct (Z.ltb_spec (num time) 0); nia.
  - eapply three_roundings; [| | |exact Hprod|exact Q1|exact Q2|exact Q3]; [lia|done|done].
Qed.

Lemma timestamp_to_time_exact ts tb : finite tb -> 0 < num tb ->
  Z.abs (lowest (num tb * ts) (den tb)).1 <= REDUCE_MAX ->
  finite (timestamp_to_time ts tb) /\
  num (timestamp_to_time ts tb) * den tb = ts * num tb * den (timestamp_to_time ts tb).
Proof.
  intros Htb Hpos Hrep. pose proof (finite_pos _ Htb) as Hd.
  destruct Htb as [[[_ ?]|(D & _ & _)] _]; [lia|]. unfold timestamp_to_time.
  pose proof (lowest_spec (num tb * ts) (den tb) Hd) as Hl.
  destruct (lowest (num tb * ts) (den tb)) as [n d] eqn:E. cbn [fst] in Hrep.
  destruct Hl as (Hx & Hdd & Hg & _).
  rewrite (reduce_fraction_exact _ _ n d) by (done || lia).
  destruct (reduced_ok_from (n, d)) as [F Hw]; [unfold reduced_ok; cbn [fst snd]; lia|].
  cbn [fst snd] in F, Hw. rewrite F. cbn [num den]. split; [split; [done|cbn [den]; lia]|]. nia.
Qed.

(** Finding: the same conversion with floor rounding, which [snap] uses, lacks
    the tolerance: from a few thousand frames on, one unit in the last place
    exceeds [eps] and a time that is exactly a frame snaps to the one before. *)
Lemma snap_loses_a_frame :
  snap [] (timestamp_to_time 6407 (new 1 25)) (new 1 25) = timestamp_to_time 6406 (new 1 25) /\
  snap [] (timestamp_to_time 4127 (new 1001 30000)) (new 1001 30000)
  = timestamp_to_time 4126 (new 1001 30000).
Proof. vm_compute. done. Qed.

(** * Properties *)

(** Frame numbers survive the detour through doubles: for every positive
    timebase and every frame number below 2^40 in magnitude,
    [time_to_timestamp] answers exactly that number on every time that equals
    frame [ts], the three roundings of the conversion notwithstanding, and so
    inverts [timestamp_to_time] wherever the product is representable. *)
Theorem frame_number_roundtrip (tb : Rational) (ts : Z)
    (Htb : wf tb) (Hpos : 0 < num tb) (Hts : Z.abs ts < 2 ^ 40) :
  (forall time, finite time -> num time * den tb = ts * num tb * den time ->
     time_to_timestamp tb time = ts) /\
  (Z.abs (lowest (num tb * ts) (den tb)).1 <= REDUCE_MAX ->
     time_to_timestamp tb (timestamp_to_time ts tb) = ts).
Proof.
  assert (Hf : finite tb).
  { split; [done|]. destruct Htb as [[? _]|[? _]]; lia. }
  split; [intros time Ht Hex; by apply exact_frame_number|].
  intros Hrep. destruct (timestamp_to_time_exact ts tb Hf Hpos Hrep). by apply exact_frame_number.
Qed.

Lemma frame_number_roundtrip_witness :
  time_to_timestamp (new 1001 30000) (new 1234567 7500) = 4933 /\
  ((forall time, finite time -> num time * den (new 1 25) = 6407 * num (new 1 25) * den time ->
     time_to_timestamp (new 1 25) time = 6407) /\
   (Z.abs (lowest (num (new 1 25) * 6407) (den (new 1 25))).1 <= REDUCE_MAX ->
     time_to_timestamp (new 1 25) (timestamp_to_time 6407 (new 1 25)) = 6407)).
Proof.
  split; [by vm_compute|]. apply frame_number_roundtrip; [|by vm_compute|lia].
  apply new_reduced; unfold fits_i64; lia.
Defined.
