(* ===== verification/Undo.v ===== *)
(** Undo commands, the composite command, the history stack and the
    process-wide stack with its groups and observers
    (crates/oak-undo/src/{undocommand,undostack,global}.rs).

    A command acts on a world [W], the state its closures capture (for the
    timeline commands, the project graph). *)

From S2P Require Import Prelude.

(** * Errors (crates/oak-undo/src/error.rs) *)

Inductive UndoError : Type :=
| Invalid
| State
| Failed (msg : string)
| NotFound
| NoMem.

Definition UndoError_code (e : UndoError) : Z :=
  match e with
  | Invalid => -20001
  | State => -20002
  | Failed _ => -20003
  | NotFound => -20004
  | NoMem => -20005
  end.

Definition Result (A : Type) : Type := (A + UndoError)%type.

(** * Commands *)

(** The [Command] trait: [redo]/[undo] take [&mut self] and act on the
    world. *)
Class Command (C W : Type) : Type := {
  redo : C -> W -> C * W;
  undo : C -> W -> C * W
}.

Section undo.
Context {W : Type}.

(** [UndoCommand], a boxed [dyn Command] with its state flags.  The box is
    either a plain command, with the state the trait object owns, or the
    composite ([as_multi] is [Some] exactly for the latter). *)
Inductive UndoCommand : Type :=
| mkUndoCommand (inner : Inner) (done_ modified prepared is_empty_ : bool)
with Inner : Type :=
| Plain (T : Type) (s : T) (redo_ undo_ : T -> W -> T * W)
| Multi (children : list UndoCommand).

Definition inner (c : UndoCommand) : Inner := let '(mkUndoCommand i _ _ _ _) := c in i.
Definition is_done (c : UndoCommand) : bool := let '(mkUndoCommand _ d _ _ _) := c in d.
Definition has_prepared (c : UndoCommand) : bool := let '(mkUndoCommand _ _ _ p _) := c in p.
Definition cmd_is_empty (c : UndoCommand) : bool := let '(mkUndoCommand _ _ _ _ e) := c in e.

(** [UndoCommand::new] of a trait object. *)
Definition UndoCommand_new_dyn (i : Inner) : UndoCommand := mkUndoCommand i false false true false.

Definition UndoCommand_new {C : Type} `{Command C W} (c : C) : UndoCommand :=
  UndoCommand_new_dyn (Plain C c redo undo).

(** A closure pair shares no state of its own beyond the world. *)
Definition UndoCommand_from_closures (r u : W -> W) : UndoCommand :=
  UndoCommand_new_dyn (Plain unit tt (fun s w => (s, r w)) (fun s w => (s, u w))).

Definition UndoCommand_multi : UndoCommand := UndoCommand_new_dyn (Multi []).

Definition UndoCommand_empty : UndoCommand :=
  let '(mkUndoCommand i d m p _) := UndoCommand_from_closures (fun w => w) (fun w => w) in
  mkUndoCommand i d m p true.

(** [multi_add_child] panics on a plain command ([None]). *)
Definition multi_add_child (c child : UndoCommand) : option UndoCommand :=
  let '(mkUndoCommand i d m p e) := c in
  match i with
  | Multi cs => Some (mkUndoCommand (Multi (cs ++ [child])) d m p e)
  | Plain _ _ _ _ => None
  end.

Definition multi_child_count (c : UndoCommand) : nat :=
  match inner c with Multi cs => length cs | Plain _ _ _ _ => O end.

Definition multi_child (c : UndoCommand) (index : nat) : Result UndoCommand :=
  match inner c with
  | Multi cs => match cs !! index with Some x => inl x | None => inr NotFound end
  | Plain _ _ _ _ => inr Invalid
  end.

Definition is_multi (c : UndoCommand) : bool :=
  match inner c with Multi _ => true | Plain _ _ _ _ => false end.

Definition set_done (c : UndoCommand) (done : bool) : UndoCommand :=
  let '(mkUndoCommand i _ m p e) := c in mkUndoCommand i done m p e.

Definition set_prepared (c : UndoCommand) : UndoCommand :=
  let '(mkUndoCommand i d m _ e) := c in mkUndoCommand i d m true e.

(** [redo_now] with the dispatch to the boxed command: a composite redoes its
    children in order. *)
Fixpoint redo_now (c : UndoCommand) (w : W) {struct c} : UndoCommand * W :=
  let '(mkUndoCommand i d m p e) := c in
  if d then (c, w)
  else let '(i, w) := inner_redo i w in (mkUndoCommand i true m true e, w)
with inner_redo (i : Inner) (w : W) {struct i} : Inner * W :=
  match i with
  | Plain T s r u => let '(s, w) := r s w in (Plain T s r u, w)
  | Multi cs =>
      let '(cs, w) :=
        (fix redo_children (cs : list UndoCommand) (w : W) : list UndoCommand * W :=
           match cs with
           | [] => ([], w)
           | c :: cs =>
               let '(c, w) := redo_now c w in
               let '(cs, w) := redo_children cs w in (c :: cs, w)
           end) cs w in
      (Multi cs, w)
  end.

(** [undo_now]: a composite undoes its children in reverse order. *)
Fixpoint undo_now (c : UndoCommand) (w : W) {struct c} : UndoCommand * W :=
  let '(mkUndoCommand i d m p e) := c in
  if d then let '(i, w) := inner_undo i w in (mkUndoCommand i false m p e, w)
  else (c, w)
with inner_undo (i : Inner) (w : W) {struct i} : Inner * W :=
  match i with
  | Plain T s r u => let '(s, w) := u s w in (Plain T s r u, w)
  | Multi cs =>
      let '(cs, w) :=
        (fix undo_children (cs : list UndoCommand) (w : W) : list UndoCommand * W :=
           match cs with
           | [] => ([], w)
           | c :: cs =>
               let '(cs, w) := undo_children cs w in
               let '(c, w) := undo_now c w in (c :: cs, w)
           end) cs w in
      (Multi cs, w)
  end.

Definition redo_and_set_modified := redo_now.
Definition undo_and_set_modified := undo_now.

(** The loops of [MultiUndoCommand::redo]/[undo], named for reasoning. *)
Fixpoint multi_redo (cs : list UndoCommand) (w : W) : list UndoCommand * W :=
  match cs with
  | [] => ([], w)
  | c :: cs =>
      let '(c, w) := redo_and_set_modified c w in
      let '(cs, w) := multi_redo cs w in (c :: cs, w)
  end.

Fixpoint multi_undo (cs : list UndoCommand) (w : W) : list UndoCommand * W :=
  match cs with
  | [] => ([], w)
  | c :: cs =>
      let '(cs, w) := multi_undo cs w in
      let '(c, w) := undo_and_set_modified c w in (c :: cs, w)
  end.

(** * The stack *)

Definition K_MAX_UNDO_COMMANDS : nat := 200.

Record CommandEntry : Type := mkEntry { command : UndoCommand; name : string }.

(** Both deques front first: [commands] oldest first, [undone] most recently
    undone first. *)
Record UndoStack : Type := mkStack { commands : list CommandEntry; undone : list CommandEntry }.

Definition UndoStack_clear (s : UndoStack) : UndoStack :=
  mkStack [mkEntry UndoCommand_empty "New/Open Project"] [].

Definition UndoStack_new : UndoStack := UndoStack_clear (mkStack [] []).

Definition UndoStack_can_redo (s : UndoStack) : bool :=
  negb (match undone s with [] => true | _ => false end).

Definition UndoStack_can_undo (s : UndoStack) : bool :=
  negb (match commands s with [] => true | _ => false end) &&
  negb (match list.last (commands s) with Some e => cmd_is_empty (command e) | None => true end).

(** The tail shared by [push] and [push_pre_executed]: record the entry and
    evict the oldest row beyond the cap. *)
Definition record_entry (s : UndoStack) (e : CommandEntry) : UndoStack :=
  let commands := commands s ++ [e] in
  mkStack (if (K_MAX_UNDO_COMMANDS <? length commands)%nat then tail commands else commands)
    (undone s).

Definition drop_redo_tail (s : UndoStack) : UndoStack :=
  if UndoStack_can_redo s then mkStack (commands s) [] else s.

Definition UndoStack_push (s : UndoStack) (c : UndoCommand) (nm : string) (w : W) : UndoStack * W :=
  if is_multi c && (multi_child_count c =? 0)%nat then (s, w)
  else
    let s := drop_redo_tail s in
    let '(c, w) := redo_and_set_modified c w in
    (record_entry s (mkEntry c nm), w).

Definition UndoStack_push_pre_executed (s : UndoStack) (c : UndoCommand) (nm : string) : UndoStack :=
  if is_multi c && (multi_child_count c =? 0)%nat then s
  else record_entry (drop_redo_tail s) (mkEntry (set_done c true) nm).

Definition UndoStack_undo (s : UndoStack) (w : W) : UndoStack * W :=
  if UndoStack_can_undo s then
    match list.last (commands s) with
    | Some e =>
        let '(c, w) := undo_and_set_modified (command e) w in
        (mkStack (removelast (commands s)) (mkEntry c (name e) :: undone s), w)
    | None => (s, w)
    end
  else (s, w).

Definition UndoStack_redo (s : UndoStack) (w : W) : UndoStack * W :=
  if UndoStack_can_redo s then
    match undone s with
    | e :: rest =>
        let '(c, w) := redo_and_set_modified (command e) w in
        (mkStack (commands s ++ [mkEntry c (name e)]) rest, w)
    | [] => (s, w)
    end
  else (s, w).

(** The two loops of [jump]; each iteration moves one row. *)
Definition jump_back_step (index : Z) (st : UndoStack * W) : (UndoStack * W) + (UndoStack * W) :=
  let '(s, w) := st in
  if (index <? Z.of_nat (length (commands s)))%Z && UndoStack_can_undo s
  then inl (UndoStack_undo s w) else inr (s, w).

Definition jump_forward_step (index : Z) (st : UndoStack * W) : (UndoStack * W) + (UndoStack * W) :=
  let '(s, w) := st in
  if (Z.of_nat (length (commands s)) <? index)%Z && UndoStack_can_redo s
  then inl (UndoStack_redo s w) else inr (s, w).

Definition UndoStack_jump (s : UndoStack) (index : Z) (w : W) : UndoStack * W :=
  let index := Z.max index 0 in
  let '(s, w) := default (s, w)
    (while_fuel (S (length (commands s))) (jump_back_step index) (s, w)) in
  default (s, w)
    (while_fuel (S (length (undone s))) (jump_forward_step index) (s, w)).

Definition UndoStack_command_count (s : UndoStack) : Z :=
  Z.of_nat (length (commands s) + length (undone s)).
Definition UndoStack_done_count (s : UndoStack) : Z := Z.of_nat (length (commands s)).

Definition UndoStack_command_is_done (s : UndoStack) (row : Z) : Result bool :=
  if ((row <? 0) || (UndoStack_command_count s <=? row))%Z then inr NotFound
  else inl (row <? Z.of_nat (length (commands s)))%Z.

Definition UndoStack_command_name (s : UndoStack) (row : Z) : Result string :=
  if ((row <? 0) || (UndoStack_command_count s <=? row))%Z then inr NotFound
  else
    let row := Z.to_nat row in
    match (if (row <? length (commands s))%nat then commands s !! row
           else undone s !! (row - length (commands s))%nat) with
    | Some e => inl (name e)
    | None => inr NotFound
    end.

(** * The process-wide state (crates/oak-undo/src/global.rs)

    The statics [STACK], [GROUP] and [OBSERVERS] in one record.  An observer
    is a callback that may write the world (the write-through session does). *)

Definition CommandObserver : Type := W -> W.

Record OpenGroup : Type := mkGroup { multi : UndoCommand; group_name : string }.

Record Global : Type := mkGlobal {
  STACK : UndoStack; GROUP : option OpenGroup; OBSERVERS : list CommandObserver }.

Definition with_stack (g : Global) (s : UndoStack) : Global := mkGlobal s (GROUP g) (OBSERVERS g).
Definition with_group (g : Global) (o : option OpenGroup) : Global := mkGlobal (STACK g) o (OBSERVERS g).

Definition add_observer (g : Global) (f : CommandObserver) : Global :=
  mkGlobal (STACK g) (GROUP g) (OBSERVERS g ++ [f]).

Definition notify_observers (g : Global) (w : W) : W := foldl (fun w cb => cb w) w (OBSERVERS g).

Definition group_begin (g : Global) (nm : string) : Result unit * Global :=
  match GROUP g with
  | Some _ => (inr State, g)
  | None => (inl tt, with_group g (Some (mkGroup UndoCommand_multi nm)))
  end.

Definition group_end (g : Global) (w : W) : Result unit * Global * W :=
  match GROUP g with
  | None => (inr State, g, w)
  | Some o =>
      let g := with_group g None in
      let g := with_stack g (UndoStack_push_pre_executed (STACK g) (multi o) (group_name o)) in
      (inl tt, g, notify_observers g w)
  end.

(** [multi_child_mut(i)] written back. *)
Definition multi_set_child (c : UndoCommand) (index : nat) (child : UndoCommand) : UndoCommand :=
  let '(mkUndoCommand i d m p e) := c in
  match i with
  | Multi cs => mkUndoCommand (Multi (<[index := child]> cs)) d m p e
  | Plain _ _ _ _ => c
  end.

(** The loop [for i in (0..count).rev()] of [group_abort]. *)
Fixpoint abort_loop (count : nat) (c : UndoCommand) (w : W) : Result unit * W :=
  match count with
  | O => (inl tt, w)
  | S i =>
      match multi_child c i with
      | inr e => (inr e, w)
      | inl child =>
          let '(child, w) := undo_now child w in abort_loop i (multi_set_child c i child) w
      end
  end.

Definition group_abort (g : Global) (w : W) : Result unit * Global * W :=
  match GROUP g with
  | None => (inr State, g, w)
  | Some o =>
      let g := with_group g None in
      let '(r, w) := abort_loop (multi_child_count (multi o)) (multi o) w in (r, g, w)
  end.

(** [push]; [None] is the panic of [multi_add_child]. *)
Definition push (g : Global) (c : UndoCommand) (nm : string) (w : W) : option (Global * W) :=
  match GROUP g with
  | Some o =>
      let '(c, w) := redo_now c w in
      m ← multi_add_child (multi o) c;
      Some (with_group g (Some (mkGroup m (group_name o))), w)
  | None =>
      let '(s, w) := UndoStack_push (STACK g) c nm w in
      let g := with_stack g s in Some (g, notify_observers g w)
  end.

Definition jump (g : Global) (index : Z) (w : W) : Global * W :=
  let '(s, w) := UndoStack_jump (STACK g) index w in
  let g := with_stack g s in (g, notify_observers g w).

Definition global_count (g : Global) : Z := UndoStack_command_count (STACK g).
Definition global_index (g : Global) : Z := UndoStack_done_count (STACK g).
Definition global_can_undo (g : Global) : bool := UndoStack_can_undo (STACK g).
Definition global_can_redo (g : Global) : bool := UndoStack_can_redo (STACK g).

Definition global_undo (g : Global) (w : W) : Global * W := jump g (global_index g - 1) w.
Definition global_redo (g : Global) (w : W) : Global * W := jump g (global_index g + 1) w.
Definition global_clear (g : Global) : Global := with_stack g (UndoStack_clear (STACK g)).
Definition command_name (g : Global) (row : Z) : Result string := UndoStack_command_name (STACK g) row.
Definition command_done (g : Global) (row : Z) : Result bool := UndoStack_command_is_done (STACK g) row.

(** * Reversible commands

    [links c w0 w1]: however often [c] is redone on [w0] and undone on [w1] in
    alternation, it swings the world between the two and tracks its flag. *)

Definition swings (P : bool -> UndoCommand -> Prop) (w0 w1 : W) : Prop :=
  (forall c, P false c -> is_done c = false /\ (redo_now c w0).2 = w1 /\ P true (redo_now c w0).1) /\
  (forall c, P true c -> is_done c = true /\ (undo_now c w1).2 = w0 /\ P false (undo_now c w1).1).

Definition links (c : UndoCommand) (w0 w1 : W) : Prop :=
  exists P, swings P w0 w1 /\ P (is_done c) c.

(** Children run one after the other, all with the flag [b]. *)
Inductive chain (b : bool) : list UndoCommand -> W -> W -> Prop :=
| chain_nil w : chain b [] w w
| chain_cons c cs w0 w1 w2 :
    is_done c = b -> links c w0 w1 -> chain b cs w1 w2 -> chain b (c :: cs) w0 w2.

Lemma links_redo c w0 w1 :
  links c w0 w1 -> is_done c = false ->
  exists c', redo_now c w0 = (c', w1) /\ is_done c' = true /\ links c' w0 w1.
Proof.
  intros (P & [H1 H2] & Hc) Hd. rewrite Hd in Hc.
  destruct (H1 c Hc) as (_ & Hw & Hc'). destruct (redo_now c w0) as [c' w'].
  simpl in *. subst w'. exists c'. destruct (H2 c' Hc') as (Hd' & _).
  split; [done|]. split; [done|]. exists P. split; [done|]. by rewrite Hd'.
Qed.

Lemma links_undo c w0 w1 :
  links c w0 w1 -> is_done c = true ->
  exists c', undo_now c w1 = (c', w0) /\ is_done c' = false /\ links c' w0 w1.
Proof.
  intros (P & [H1 H2] & Hc) Hd. rewrite Hd in Hc.
  destruct (H2 c Hc) as (_ & Hw & Hc'). destruct (undo_now c w1) as [c' w'].
  simpl in *. subst w'. exists c'. destruct (H1 c' Hc') as (Hd' & _).
  split; [done|]. split; [done|]. exists P. split; [done|]. by rewrite Hd'.
Qed.

(** A closure pair that inverts on the two worlds is such a command. *)
Lemma links_closures_flags r u m p e w0 w1 :
  r w0 = w1 -> u w1 = w0 ->
  links (mkUndoCommand (Plain unit tt (fun s w => (s, r w)) (fun s w => (s, u w))) false m p e) w0 w1.
Proof.
  intros Hr Hu.
  exists (fun b c => exists m' p' e', c = mkUndoCommand
    (Plain unit tt (fun s w => (s, r w)) (fun s w => (s, u w))) b m' p' e').
  split; [split|].
  - intros c (? & ? & ? & ->). split; [done|]. simpl. rewrite Hr. eauto.
  - intros c (? & ? & ? & ->). split; [done|]. simpl. rewrite Hu. eauto.
  - simpl. eauto.
Qed.

Lemma links_closures r u w0 w1 :
  r w0 = w1 -> u w1 = w0 -> links (UndoCommand_from_closures r u) w0 w1.
Proof. apply links_closures_flags. Qed.

(** A trait object is one when its state machine alternates between two
    invariants [P false] and [P true]. *)
Lemma links_new {C : Type} `{Command C W} (P : bool -> C -> Prop) (c : C) w0 w1 :
  (forall c, P false c -> exists c', redo c w0 = (c', w1) /\ P true c') ->
  (forall c, P true c -> exists c', undo c w1 = (c', w0) /\ P false c') ->
  P false c -> links (UndoCommand_new c) w0 w1.
Proof.
  intros H1 H2 Hc.
  exists (fun b k => exists c m p e, k = mkUndoCommand (Plain C c redo undo) b m p e /\ P b c).
  split; [split|].
  - intros k (d & m & p & e & -> & Hd). split; [done|].
    destruct (H1 d Hd) as (d' & Hr & Hd'). simpl. rewrite Hr. simpl. eauto 10.
  - intros k (d & m & p & e & -> & Hd). split; [done|].
    destruct (H2 d Hd) as (d' & Hr & Hd'). simpl. rewrite Hr. simpl. eauto 10.
  - simpl. unfold UndoCommand_new, UndoCommand_new_dyn. eauto 10.
Qed.

Lemma chain_app b cs1 cs2 w0 w2 :
  chain b (cs1 ++ cs2) w0 w2 <-> exists w1, chain b cs1 w0 w1 /\ chain b cs2 w1 w2.
Proof.
  revert w0. induction cs1 as [|c cs1 IH]; intros w0; simpl; split.
  - intros H. exists w0. split; [constructor|done].
  - intros (w1 & H1 & H2). inversion H1; subst. done.
  - intros H. inversion H as [|? ? ? w ? ? ? H3]; subst. apply IH in H3 as (w1 & ? & ?).
    exists w1. split; [econstructor; eauto|done].
  - intros (w1 & H1 & H2). inversion H1; subst. econstructor; eauto. apply IH. eauto.
Qed.

Lemma multi_redo_chain cs w0 w1 :
  chain false cs w0 w1 -> exists cs', multi_redo cs w0 = (cs', w1) /\ chain true cs' w0 w1.
Proof.
  induction 1 as [w|c cs w0 w1 w2 Hd Hc Hcs (cs' & Heq & Hch)]; simpl.
  - exists []. split; [done|constructor].
  - destruct (links_redo c w0 w1 Hc Hd) as (c' & Hr & ? & ?).
    unfold redo_and_set_modified. rewrite Hr, Heq. exists (c' :: cs').
    split; [done|]. by apply chain_cons with w1.
Qed.

Lemma multi_undo_chain cs w0 w1 :
  chain true cs w0 w1 -> exists cs', multi_undo cs w1 = (cs', w0) /\ chain false cs' w0 w1.
Proof.
  induction 1 as [w|c cs w0 w1 w2 Hd Hc Hcs (cs' & Heq & Hch)]; simpl.
  - exists []. split; [done|constructor].
  - destruct (links_undo c w0 w1 Hc Hd) as (c' & Hr & ? & ?).
    rewrite Heq. unfold undo_and_set_modified. rewrite Hr. exists (c' :: cs').
    split; [done|]. by apply chain_cons with w1.
Qed.

(** The dispatch of the composite is the named loops. *)
Lemma inner_redo_multi cs w :
  inner_redo (Multi cs) w = let '(cs, w) := multi_redo cs w in (Multi cs, w).
Proof. done. Qed.

Lemma inner_undo_multi cs w :
  inner_undo (Multi cs) w = let '(cs, w) := multi_undo cs w in (Multi cs, w).
Proof. done. Qed.

Lemma redo_now_multi cs m p e w :
  redo_now (mkUndoCommand (Multi cs) false m p e) w =
  let '(cs, w) := multi_redo cs w in (mkUndoCommand (Multi cs) true m true e, w).
Proof.
  change (redo_now _ _) with
    (let '(i, w) := inner_redo (Multi cs) w in (mkUndoCommand i true m true e, w)).
  rewrite inner_redo_multi. by destruct (multi_redo cs w).
Qed.

Lemma undo_now_multi cs m p e w :
  undo_now (mkUndoCommand (Multi cs) true m p e) w =
  let '(cs, w) := multi_undo cs w in (mkUndoCommand (Multi cs) false m p e, w).
Proof.
  change (undo_now _ _) with
    (let '(i, w) := inner_undo (Multi cs) w in (mkUndoCommand i false m p e, w)).
  rewrite inner_undo_multi. by destruct (multi_undo cs w).
Qed.

Lemma links_multi_flag b cs m p e w0 w1 :
  chain b cs w0 w1 -> links (mkUndoCommand (Multi cs) b m p e) w0 w1.
Proof.
  intros H.
  exists (fun b k => exists cs m p e, k = mkUndoCommand (Multi cs) b m p e /\ chain b cs w0 w1).
  split; [split|].
  - intros k (ks & ? & ? & ? & -> & Hk). split; [done|]. rewrite redo_now_multi.
    destruct (multi_redo_chain _ _ _ Hk) as (ks' & Heq & Hk'). rewrite Heq. simpl. eauto 10.
  - intros k (ks & ? & ? & ? & -> & Hk). split; [done|]. rewrite undo_now_multi.
    destruct (multi_undo_chain _ _ _ Hk) as (ks' & Heq & Hk'). rewrite Heq. simpl. eauto 10.
  - simpl. eauto 10.
Qed.

(** * History *)

(** The world before the first entry, then the world after each. *)
Inductive trail : list CommandEntry -> list W -> Prop :=
| trail_nil w : trail [] [w]
| trail_cons e es w0 w1 ws :
    links (command e) w0 w1 -> trail es (w1 :: ws) -> trail (e :: es) (w0 :: w1 :: ws).

(** [history s ws w]: the rows of [s] lead through the worlds [ws], [w] is
    the one at the current position, flags agree with the two deques and
    only the very bottom may be the non-undoable empty command. *)
Record history (s : UndoStack) (ws : list W) (w : W) : Prop := {
  hist_trail : trail (commands s ++ undone s) ws;
  hist_now : ws !! length (commands s) = Some w;
  hist_done : Forall (fun e => is_done (command e) = true) (tail (commands s));
  hist_bottom : forall e, head (commands s) = Some e ->
    cmd_is_empty (command e) = false -> is_done (command e) = true;
  hist_undone : Forall (fun e => is_done (command e) = false) (undone s);
  hist_full : Forall (fun e => cmd_is_empty (command e) = false) (tail (commands s) ++ undone s)
}.

Definition rows (s : UndoStack) : list string := name <$> (commands s ++ undone s).

(** How far the stack can be undone: the empty bottom row stays. *)
Definition floor (s : UndoStack) : nat :=
  match commands s with e :: _ => if cmd_is_empty (command e) then 1 else 0 | [] => 0 end.

Lemma redo_now_empty c w : cmd_is_empty (redo_now c w).1 = cmd_is_empty c.
Proof. destruct c as [i [] m p e]; simpl; [done|]. by destruct (inner_redo i w). Qed.

Lemma undo_now_empty c w : cmd_is_empty (undo_now c w).1 = cmd_is_empty c.
Proof. destruct c as [i [] m p e]; simpl; [|done]. by destruct (inner_undo i w). Qed.

Lemma trail_length es ws : trail es ws -> length ws = S (length es).
Proof. induction 1; simpl in *; lia. Qed.

Lemma trail_lookup es ws i e :
  trail es ws -> es !! i = Some e ->
  exists w0 w1, ws !! i = Some w0 /\ ws !! S i = Some w1 /\ links (command e) w0 w1.
Proof.
  intros H. revert i. induction H as [w|d es w0 w1 ws Hd Hes IH]; intros i Hi; [done|].
  destruct i as [|i]; simplify_eq/=; [by exists w0, w1|]. by apply IH.
Qed.

(** Replacing a row's command by one that links the same worlds. *)
Lemma trail_replace es1 e e' es2 ws :
  trail (es1 ++ e :: es2) ws ->
  (forall w0 w1, ws !! length es1 = Some w0 -> ws !! S (length es1) = Some w1 ->
     links (command e) w0 w1 -> links (command e') w0 w1) ->
  trail (es1 ++ e' :: es2) ws.
Proof.
  revert ws. induction es1 as [|d es1 IH]; intros ws H Hl; simpl in *.
  - inversion H; subst. constructor; [by apply Hl|done].
  - inversion H as [|? ? w0 w1 ws' Hd Hes]; subst. constructor; [done|]. by apply IH.
Qed.

Lemma can_undo_floor s ws w :
  history s ws w -> UndoStack_can_undo s = (floor s <? length (commands s))%nat.
Proof.
  intros H. unfold UndoStack_can_undo, floor. pose proof (hist_full _ _ _ H) as Hf.
  destruct (commands s) as [|e l]; [done|]. simpl in *.
  destruct l as [|d l _] using rev_ind; simpl.
  - by destruct (cmd_is_empty (command e)).
  - rewrite app_comm_cons, last_snoc. rewrite !Forall_app, Forall_singleton in Hf.
    destruct Hf as [[_ ->] _]. simpl. symmetry. rewrite length_app. simpl.
    apply Nat.ltb_lt. destruct (cmd_is_empty _); lia.
Qed.

(** The frame a move along the history keeps. *)
Definition moved (s s' : UndoStack) : Prop :=
  rows s' = rows s /\ floor s' = floor s.

Lemma moved_total s s' :
  moved s s' -> (length (commands s') + length (undone s') = length (commands s) + length (undone s))%nat.
Proof.
  intros [Hr _]. apply (f_equal length) in Hr. unfold rows in Hr.
  by rewrite !length_fmap, !length_app in Hr.
Qed.

Lemma history_undo s ws w :
  history s ws w -> UndoStack_can_undo s = true ->
  exists s' w', UndoStack_undo s w = (s', w') /\ history s' ws w' /\ moved s s' /\
    length (commands s) = S (length (commands s')).
Proof.
  intros H Hcan. pose proof (can_undo_floor _ _ _ H) as Hfl.
  unfold UndoStack_undo. rewrite Hcan. rewrite Hcan in Hfl. symmetry in Hfl.
  apply Nat.ltb_lt in Hfl. destruct H as [Ht Hn Hd Hb Hu Hf].
  destruct s as [cs us]. simpl in *.
  destruct cs as [|e cs _] using rev_ind; [simpl in Hfl; lia|].
  rewrite last_snoc, removelast_last. rewrite <- app_assoc in Ht. simpl in Ht.
  rewrite length_app, Nat.add_comm in Hn. simpl in Hn.
  destruct (trail_lookup _ _ (length cs) e Ht) as (w0 & w1 & Hw0 & Hw1 & Hl).
  { by rewrite lookup_app_r, Nat.sub_diag by done. }
  rewrite Hw1 in Hn. injection Hn as ->.
  assert (Hne : cmd_is_empty (command e) = false).
  { unfold UndoStack_can_undo in Hcan. simpl in Hcan. rewrite last_snoc in Hcan. b2p. done. }
  assert (He : is_done (command e) = true).
  { destruct cs as [|d cs]; simpl in *; [by apply Hb|].
    by rewrite Forall_app, Forall_singleton in Hd; destruct Hd. }
  destruct (links_undo _ _ _ Hl He) as (c' & Hc' & Hd' & Hl').
  pose proof (undo_now_empty (command e) w) as Hemp.
  unfold undo_and_set_modified. rewrite Hc' in Hemp |- *. simpl in Hemp.
  eexists _, _. split; [done|]. split; [|split].
  - split; simpl; [| done | | | |].
    + eapply trail_replace; [exact Ht|]. intros v0 v1 E0 E1 _. simpl. by simplify_eq.
    + destruct cs; simpl in *; [constructor|]. by apply Forall_app in Hd as [? _].
    + intros x Hx Hxe. apply Hb; [|done]. by destruct cs.
    + by constructor.
    + rewrite Forall_app in Hf |- *. split.
      * destruct cs; simpl in *; [constructor|]. destruct Hf as [Hf _].
        by apply Forall_app in Hf as [? _].
      * constructor; [simpl; congruence|apply Hf].
  - split; unfold rows, floor; simpl.
    + rewrite <- app_assoc. simpl. by rewrite !fmap_app.
    + destruct cs; simpl; [|done]. by rewrite Hne.
  - rewrite length_app. simpl. lia.
Qed.

Lemma history_redo s ws w :
  history s ws w -> UndoStack_can_redo s = true ->
  exists s' w', UndoStack_redo s w = (s', w') /\ history s' ws w' /\ moved s s' /\
    length (commands s') = S (length (commands s)).
Proof.
  intros H Hcan. unfold UndoStack_redo. rewrite Hcan.
  destruct H as [Ht Hn Hd Hb Hu Hf]. destruct s as [cs [|e us]]; [done|]. simpl in *.
  destruct (trail_lookup _ _ (length cs) e Ht) as (w0 & w1 & Hw0 & Hw1 & Hl).
  { by rewrite lookup_app_r, Nat.sub_diag by done. }
  rewrite Hw0 in Hn. injection Hn as ->. apply list.Forall_cons in Hu as [He Hu].
  rewrite Forall_app, list.Forall_cons in Hf. destruct Hf as (Hf1 & Hne & Hf2).
  destruct (links_redo _ _ _ Hl He) as (c' & Hc' & Hd' & Hl').
  pose proof (redo_now_empty (command e) w) as Hemp.
  unfold redo_and_set_modified. rewrite Hc' in Hemp |- *. simpl in Hemp.
  eexists _, _. split; [done|]. split; [|split].
  - split; simpl; [| | | |done|].
    + rewrite <- app_assoc. simpl. eapply trail_replace; [exact Ht|].
      intros v0 v1 E0 E1 _. simpl. by simplify_eq.
    + rewrite length_app, Nat.add_comm. done.
    + destruct cs; simpl in *; [constructor|]. rewrite Forall_app, Forall_singleton. done.
    + destruct cs; simpl in *; [|done]. by intros ? [= <-].
    + rewrite Forall_app. split; [|done]. destruct cs; simpl in *; [constructor|].
      rewrite Forall_app, Forall_singleton. split; [done|]. simpl. congruence.
  - split; unfold rows, floor; simpl.
    + rewrite <- app_assoc. simpl. by rewrite !fmap_app.
    + destruct cs; simpl; [|done]. by rewrite Hemp, Hne.
  - cbn [commands]. rewrite length_app. simpl. lia.
Qed.

(** * Jumping *)

Lemma jump_back_spec s ws w index :
  history s ws w ->
  exists s' w',
    while_fuel (S (length (commands s))) (jump_back_step (Z.of_nat index)) (s, w) = Some (s', w') /\
    history s' ws w' /\ moved s s' /\
    length (commands s') = Nat.min (length (commands s)) (Nat.max index (floor s)).
Proof.
  intros H.
  set (Inv := fun st : UndoStack * W => history st.1 ws st.2 /\ moved s st.1 /\
    Nat.min (length (commands st.1)) (Nat.max index (floor s)) =
    Nat.min (length (commands s)) (Nat.max index (floor s))).
  destruct (while_fuel_spec (jump_back_step (Z.of_nat index)) Inv
    (fun st => Inv st /\ (length (commands st.1) <= Nat.max index (floor s))%nat)
    (fun st => length (commands st.1))) with (fuel := S (length (commands s))) (s := (s, w))
    as ([s' w'] & Hr & (Hh & Hm & Hl) & Hle).
  - intros [t v] (Hh & Hm & Hl). simpl in *. unfold jump_back_step.
    pose proof (can_undo_floor _ _ _ Hh) as Hcan. pose proof (proj2 Hm) as Hfl.
    destruct (Z.of_nat index <? Z.of_nat (length (commands t)))%Z eqn:Hlt; simpl; b2p.
    + destruct (UndoStack_can_undo t) eqn:Hc.
      * destruct (history_undo _ _ _ Hh Hc) as (t' & v' & -> & Hh' & Hm' & Hlen).
        symmetry in Hcan. b2p. split; [|simpl; lia]. unfold Inv; simpl.
        destruct Hm, Hm'. split; [done|]. split; [split; congruence|lia].
      * symmetry in Hcan. b2p. split; [done|]. simpl. lia.
    + split; [done|]. simpl. lia.
  - by split.
  - simpl. lia.
  - simpl in *. exists s', w'. split; [done|]. split; [done|]. split; [done|]. lia.
Qed.

Lemma jump_forward_spec s ws w index :
  history s ws w ->
  exists s' w',
    while_fuel (S (length (undone s))) (jump_forward_step (Z.of_nat index)) (s, w) = Some (s', w') /\
    history s' ws w' /\ moved s s' /\
    length (commands s') =
      Nat.max (length (commands s)) (Nat.min index (length (commands s) + length (undone s))).
Proof.
  intros H. set (T := (length (commands s) + length (undone s))%nat).
  set (Inv := fun st : UndoStack * W => history st.1 ws st.2 /\ moved s st.1 /\
    Nat.max (length (commands st.1)) (Nat.min index T) =
    Nat.max (length (commands s)) (Nat.min index T)).
  destruct (while_fuel_spec (jump_forward_step (Z.of_nat index)) Inv
    (fun st => Inv st /\ (Nat.min index T <= length (commands st.1))%nat)
    (fun st => length (undone st.1))) with (fuel := S (length (undone s))) (s := (s, w))
    as ([s' w'] & Hr & (Hh & Hm & Hl) & Hle).
  - intros [t v] (Hh & Hm & Hl). simpl in *. unfold jump_forward_step.
    pose proof (moved_total _ _ Hm) as Ht.
    destruct (Z.of_nat (length (commands t)) <? Z.of_nat index)%Z eqn:Hlt; simpl; b2p.
    + destruct (UndoStack_can_redo t) eqn:Hc.
      * destruct (history_redo _ _ _ Hh Hc) as (t' & v' & -> & Hh' & Hm' & Hlen).
        pose proof (moved_total _ _ Hm') as Ht'.
        split; [|simpl; lia]. unfold Inv; simpl.
        destruct Hm, Hm'. split; [done|]. split; [split; congruence|lia].
      * split; [done|]. simpl. unfold UndoStack_can_redo in Hc.
        destruct (undone t); simpl in *; [lia|done].
    + split; [done|]. simpl. lia.
  - by split.
  - simpl. lia.
  - simpl in *. exists s', w'. split; [done|]. split; [done|]. split; [done|]. lia.
Qed.

Lemma floor_le s : (floor s <= length (commands s))%nat.
Proof.
  unfold floor. destruct (commands s) as [|e l]; simpl; [done|]. destruct (cmd_is_empty _); lia.
Qed.

Lemma jump_spec s ws w index :
  history s ws w ->
  exists s' w', UndoStack_jump s index w = (s', w') /\ history s' ws w' /\ moved s s' /\
    length (commands s') = Nat.max (floor s)
      (Nat.min (Z.to_nat index) (length (commands s) + length (undone s))).
Proof.
  intros H. unfold UndoStack_jump.
  replace (Z.max index 0) with (Z.of_nat (Z.to_nat index)) by lia.
  destruct (jump_back_spec s ws w (Z.to_nat index) H) as (s1 & w1 & -> & H1 & M1 & L1). cbn [from_option].
  unfold id.
  destruct (jump_forward_spec s1 ws w1 (Z.to_nat index) H1) as (s2 & w2 & E2 & H2 & M2 & L2).
  rewrite E2. exists s2, w2. split; [done|]. split; [done|].
  pose proof (floor_le s). pose proof (moved_total _ _ M1). destruct M1, M2.
  split; [split; congruence|lia].
Qed.

(** C10: undo and redo are exact: [jump] to any row terminates in the world
    the row was recorded with, keeps all rows, their labels and their
    worlds, and ends at the requested row clamped between the non-undoable
    bottom and the top of the history. *)
Theorem jump_reaches_recorded_world s ws w index :
  history s ws w ->
  exists s' w', UndoStack_jump s index w = (s', w') /\ history s' ws w' /\
    rows s' = rows s /\
    ws !! length (commands s') = Some w' /\
    length (commands s') = Nat.max (floor s)
      (Nat.min (Z.to_nat index) (length (commands s) + length (undone s))).
Proof.
  intros H. destruct (jump_spec s ws w index H) as (s' & w' & E & H' & [M _] & L).
  exists s', w'. split; [done|]. split; [done|]. split; [done|]. split; [by destruct H'|done].
Qed.

(** * Recording *)

Lemma trail_snoc es ws e w0 w1 :
  trail es ws -> list.last ws = Some w0 -> links (command e) w0 w1 -> trail (es ++ [e]) (ws ++ [w1]).
Proof.
  induction 1 as [w|d es v0 v1 ws Hd Hes IH]; intros Hl He.
  - simplify_eq/=. repeat constructor. done.
  - simpl. constructor; [done|]. apply IH; [|done]. by destruct ws.
Qed.

Lemma trail_take es1 es2 ws :
  trail (es1 ++ es2) ws -> trail es1 (take (S (length es1)) ws).
Proof.
  revert ws. induction es1 as [|e es1 IH]; intros ws H; simpl in *.
  - destruct ws; [inversion H|constructor].
  - inversion H as [|? ? w0 w1 ws' He Hes]; subst. apply IH in Hes. simpl in *.
    by constructor.
Qed.

Lemma trail_tail e es ws : trail (e :: es) ws -> trail es (tail ws).
Proof. by inversion 1. Qed.

(** The worlds after a push: the redo tail's are dropped, the new one is
    added, and an eviction at the cap drops the oldest. *)
Definition worlds_after_push (s : UndoStack) (ws : list W) (w' : W) : list W :=
  let ws := take (S (length (commands s))) ws ++ [w'] in
  if (K_MAX_UNDO_COMMANDS <? S (length (commands s)))%nat then tail ws else ws.

Lemma drop_redo_tail_eq s : drop_redo_tail s = mkStack (commands s) [].
Proof. destruct s as [cs []]; done. Qed.

Lemma history_record s ws w w' c nm :
  history s ws w -> (length (commands s) <= K_MAX_UNDO_COMMANDS)%nat ->
  links c w w' -> is_done c = true -> cmd_is_empty c = false ->
  let s' := record_entry (drop_redo_tail s) (mkEntry c nm) in
  history s' (worlds_after_push s ws w') w' /\ undone s' = [] /\
  (length (commands s') <= K_MAX_UNDO_COMMANDS)%nat.
Proof.
  intros [Ht Hn Hd Hb Hu Hf] Hcap Hl Hdone Hemp. rewrite drop_redo_tail_eq.
  unfold record_entry, worlds_after_push. cbn [commands undone].
  pose proof (trail_length _ _ Ht) as Hlen. rewrite length_app in Hlen.
  apply trail_take in Ht.
  assert (Hsn : trail (commands s ++ [mkEntry c nm]) (take (S (length (commands s))) ws ++ [w'])).
  { eapply trail_snoc; [done| |done]. rewrite last_lookup, length_take.
    replace (Nat.pred _) with (length (commands s)) by lia.
    rewrite lookup_take_lt by lia. done. }
  assert (Hlen' : length (take (S (length (commands s))) ws) = S (length (commands s))).
  { rewrite length_take. lia. }
  assert (Hnow : (take (S (length (commands s))) ws ++ [w']) !! S (length (commands s)) = Some w').
  { rewrite lookup_app_r by (rewrite Hlen'; done). by rewrite Hlen', Nat.sub_diag. }
  clear Hlen'. rewrite Forall_app in Hf. destruct Hf as [Hf _].
  replace (length (commands s ++ [mkEntry c nm])) with (S (length (commands s)))
    by (rewrite length_app; simpl; lia).
  destruct (commands s) as [|e cs] eqn:Hcs.
  - replace (K_MAX_UNDO_COMMANDS <? _)%nat with false by done.
    split; [|split; [done|unfold K_MAX_UNDO_COMMANDS; simpl; lia]]. split; simpl; [exact Hsn| |constructor| |constructor|constructor].
    + done.
    + by intros ? [= <-].
  - assert (Hd' : Forall (fun e => is_done (command e) = true) (cs ++ [mkEntry c nm])).
    { rewrite Forall_app, Forall_singleton. done. }
    assert (Hf' : Forall (fun e => cmd_is_empty (command e) = false) (cs ++ [mkEntry c nm])).
    { rewrite Forall_app, Forall_singleton. done. }
    destruct (_ <? _)%nat eqn:Hcmp; b2p.
    + split; [|split; [done|cbn [commands app tail]; simpl in *; rewrite length_app; simpl; lia]].
      split; cbn [commands undone app tail].
      * rewrite app_nil_r. exact (trail_tail _ _ _ Hsn).
      * rewrite lookup_tail, length_app, Nat.add_comm. exact Hnow.
      * by destruct cs; simpl in *; [|apply list.Forall_cons in Hd'; destruct Hd'].
      * intros x Hx _. destruct cs; simplify_eq/=; [done|].
        by apply list.Forall_cons in Hd' as [? _].
      * constructor.
      * rewrite app_nil_r.
        by destruct cs; simpl in *; [|apply list.Forall_cons in Hf'; destruct Hf'].
    + split; [|split; [done|]].
      * split; cbn [commands undone app tail].
        -- rewrite app_nil_r. exact Hsn.
        -- cbn [length]. rewrite length_app, Nat.add_comm. exact Hnow.
        -- done.
        -- intros x Hx. apply Hb. done.
        -- constructor.
        -- by rewrite app_nil_r.
      * simpl in *. rewrite length_app. simpl. lia.
Qed.

(** Recording an executed plain command. *)
Lemma push_history s ws w w' c nm :
  history s ws w -> (length (commands s) <= K_MAX_UNDO_COMMANDS)%nat ->
  links c w w' -> is_done c = false -> cmd_is_empty c = false ->
  is_multi c && (multi_child_count c =? 0)%nat = false ->
  exists s', UndoStack_push s c nm w = (s', w') /\
    history s' (worlds_after_push s ws w') w' /\
    undone s' = [] /\ name <$> list.last (commands s') = Some nm /\
    (length (commands s') <= K_MAX_UNDO_COMMANDS)%nat.
Proof.
  intros H Hcap Hl Hd He Hm. unfold UndoStack_push. rewrite Hm.
  destruct (links_redo _ _ _ Hl Hd) as (c' & Hr & Hd' & Hl').
  pose proof (redo_now_empty c w) as He'. unfold redo_and_set_modified. rewrite Hr in He' |- *.
  simpl in He'. eexists. split; [reflexivity|].
  destruct (history_record s ws w w' c' nm H Hcap Hl' Hd') as (H1 & H2 & H3); [congruence|].
  split; [done|]. split; [done|]. split; [|done].
  unfold record_entry. cbn [commands]. rewrite drop_redo_tail_eq. cbn [commands].
  destruct (_ <? _)%nat eqn:Hc; [|by rewrite last_snoc].
  destruct (commands s) as [|e cs]; simpl; [b2p; simpl in Hc; unfold K_MAX_UNDO_COMMANDS in Hc; lia|].
  by rewrite last_snoc.
Qed.

(** C11: [push] executes the command and records it: the redo tail is
    dropped, the world becomes the command's result, the history of worlds
    grows by it (and loses its oldest beyond the 200-row cap), so the invariant
    [history] holds again; an empty composite changes nothing. *)
Theorem push_records s ws w w' c nm :
  history s ws w -> (length (commands s) <= K_MAX_UNDO_COMMANDS)%nat ->
  links c w w' -> is_done c = false -> cmd_is_empty c = false ->
  (is_multi c && (multi_child_count c =? 0)%nat = true -> UndoStack_push s c nm w = (s, w)) /\
  (is_multi c && (multi_child_count c =? 0)%nat = false ->
   exists s', UndoStack_push s c nm w = (s', w') /\
     history s' (worlds_after_push s ws w') w' /\
     undone s' = [] /\ name <$> list.last (commands s') = Some nm /\
     (length (commands s') <= K_MAX_UNDO_COMMANDS)%nat).
Proof.
  intros H Hcap Hl Hd He. split; [|by apply push_history].
  intros Hm. unfold UndoStack_push. by rewrite Hm.
Qed.

(** * Composite commands and groups *)

(** [n] alternating executions. *)
Fixpoint toggle (n : nat) (c : UndoCommand) (w : W) : UndoCommand * W :=
  match n with
  | O => (c, w)
  | S n => let '(c, w) := if is_done c then undo_now c w else redo_now c w in toggle n c w
  end.

Lemma links_toggle n c w0 w1 :
  links c w0 w1 ->
  (toggle n c (if is_done c then w1 else w0)).2 =
    if xorb (is_done c) (Nat.odd n) then w1 else w0.
Proof.
  revert c. induction n as [|n IH]; intros c H.
  - simpl. by destruct (is_done c).
  - rewrite Nat.odd_succ, <- Nat.negb_odd. cbn [toggle]. destruct (is_done c) eqn:Hd.
    + destruct (links_undo _ _ _ H Hd) as (c' & -> & Hd' & Hl).
      specialize (IH c' Hl). rewrite Hd' in IH. rewrite IH. by destruct (Nat.odd n).
    + destruct (links_redo _ _ _ H Hd) as (c' & -> & Hd' & Hl).
      specialize (IH c' Hl). rewrite Hd' in IH. rewrite IH. by destruct (Nat.odd n).
Qed.

Fixpoint add_children (m : UndoCommand) (cs : list UndoCommand) : option UndoCommand :=
  match cs with
  | [] => Some m
  | c :: cs => m ← multi_add_child m c; add_children m cs
  end.

Lemma add_children_multi cs0 d m p e cs :
  add_children (mkUndoCommand (Multi cs0) d m p e) cs = Some (mkUndoCommand (Multi (cs0 ++ cs)) d m p e).
Proof.
  revert cs0. induction cs as [|c cs IH]; intros cs0; simpl.
  - by rewrite app_nil_r.
  - rewrite IH. by rewrite <- app_assoc.
Qed.

(** C12: a composite built from commands that each swing one world to the
    next swings the first world to the last: executing it runs them in order,
    undoing it runs them backwards, any number of times. *)
Theorem multi_command_reversible cs w0 w1 n :
  chain false cs w0 w1 ->
  exists m, add_children UndoCommand_multi cs = Some m /\ multi_child_count m = length cs /\
    links m w0 w1 /\ (toggle n m w0).2 = if Nat.odd n then w1 else w0.
Proof.
  intros H. unfold UndoCommand_multi, UndoCommand_new_dyn. rewrite add_children_multi.
  eexists. split; [done|]. split; [done|]. simpl app.
  pose proof (links_multi_flag _ _ false true false _ _ H) as Hl. split; [done|].
  pose proof (links_toggle n _ _ _ Hl) as Ht. exact Ht.
Qed.

Lemma multi_undo_app cs1 cs2 w :
  multi_undo (cs1 ++ cs2) w =
  let '(cs2', w) := multi_undo cs2 w in
  let '(cs1', w) := multi_undo cs1 w in (cs1' ++ cs2', w).
Proof.
  induction cs1 as [|c cs1 IH]; simpl.
  - by destruct (multi_undo cs2 w).
  - rewrite IH. destruct (multi_undo cs2 w) as [a v]. destruct (multi_undo cs1 v) as [b u].
    by destruct (undo_and_set_modified c u).
Qed.

(** The index loop of [group_abort] is the composite's reverse undo. *)
Lemma abort_loop_spec n cs d m p e w :
  (n <= length cs)%nat ->
  abort_loop n (mkUndoCommand (Multi cs) d m p e) w = (inl tt, (multi_undo (take n cs) w).2).
Proof.
  revert cs w. induction n as [|n IH]; intros cs w Hn; simpl; [done|].
  destruct (lookup_lt_is_Some_2 cs n) as [c Hc]; [lia|].
  unfold multi_child. cbn [inner]. rewrite Hc.
  rewrite (take_S_r _ _ _ Hc), multi_undo_app. simpl. unfold undo_and_set_modified.
  destruct (undo_now c w) as [c' w']. rewrite IH by (rewrite length_insert; lia).
  rewrite take_insert_ge by done. by destruct (multi_undo (take n cs) w').
Qed.

(** Successive [push] calls. *)
Fixpoint push_all (g : Global) (cs : list (UndoCommand * string)) (w : W) : option (Global * W) :=
  match cs with
  | [] => Some (g, w)
  | (c, nm) :: cs => '(g, w) ← push g c nm w; push_all g cs w
  end.

Lemma push_all_group s ob nm cs0 cs w v0 w1 :
  chain true cs0 v0 w -> chain false (fst <$> cs) w w1 ->
  exists cs', push_all (mkGlobal s (Some (mkGroup (mkUndoCommand (Multi cs0) false false true false) nm)) ob) cs w =
    Some (mkGlobal s (Some (mkGroup (mkUndoCommand (Multi cs') false false true false) nm)) ob, w1) /\
    chain true cs' v0 w1 /\ length cs' = (length cs0 + length cs)%nat.
Proof.
  revert cs0 w. induction cs as [|[c cn] cs IH]; intros cs0 w H0 H.
  - inversion H; subst. exists cs0. simpl. auto.
  - inversion H as [|? ? ? w' ? Hd Hl Hcs]; subst.
    destruct (links_redo _ _ _ Hl Hd) as (c' & Hr & Hd' & Hl').
    destruct (IH (cs0 ++ [c']) w') as (cs' & Hp & Hc & Hlen); [|done|].
    + apply chain_app. exists w. split; [done|]. econstructor; eauto. constructor.
    + exists cs'. cbn [push_all]. unfold push at 1. cbn [GROUP]. rewrite Hr. simpl.
      split; [exact Hp|]. split; [done|]. rewrite Hlen, length_app. simpl. lia.
Qed.

(** C13: an undo group is a transaction: the commands pushed between
    [group_begin] and its end run at once and do not touch the stack;
    [group_abort] restores the world and the state exactly, with no
    observer called; [group_end] records all of them as one entry labelled
    with the group's name and notifies the observers once. *)
Theorem group_is_transaction g nm cs w0 w1 ws :
  GROUP g = None -> cs <> [] -> chain false (fst <$> cs) w0 w1 ->
  history (STACK g) ws w0 -> (length (commands (STACK g)) <= K_MAX_UNDO_COMMANDS)%nat ->
  exists g1 g2 g3, group_begin g nm = (inl tt, g1) /\ push_all g1 cs w0 = Some (g2, w1) /\
    STACK g2 = STACK g /\
    group_abort g2 w1 = (inl tt, g, w0) /\
    group_end g2 w1 = (inl tt, g3, notify_observers g w1) /\ GROUP g3 = None /\
    history (STACK g3) (worlds_after_push (STACK g) ws w1) w1 /\
    name <$> list.last (commands (STACK g3)) = Some nm /\
    is_Some (GROUP g2) /\ group_begin g2 nm = (inr State, g2).
Proof.
  intros Hg Hcs H Hh Hcap. unfold group_begin. rewrite Hg.
  destruct g as [s gr ob]. simpl in *. subst gr.
  destruct (push_all_group s ob nm [] cs w0 w0 w1) as (cs' & Hp & Hc & Hlen); [constructor|done|].
  simpl in Hlen. assert (Hne : (length cs' =? 0)%nat = false).
  { apply Nat.eqb_neq. rewrite Hlen. by destruct cs. }
  unfold with_group, UndoCommand_multi, UndoCommand_new_dyn. simpl.
  eexists _, _, _. split; [reflexivity|]. split; [exact Hp|]. split; [done|].
  unfold group_abort, group_end. cbn [GROUP multi multi_child_count inner with_group STACK OBSERVERS].
  rewrite abort_loop_spec by done. rewrite firstn_all.
  destruct (multi_undo_chain _ _ _ Hc) as (cs'' & -> & _).
  split; [done|]. split; [reflexivity|]. split; [done|].
  unfold UndoStack_push_pre_executed. cbn. rewrite Hne.
  destruct (history_record s ws w0 w1 (mkUndoCommand (Multi cs') true false true false) nm Hh Hcap)
    as (H1 & _); [by apply links_multi_flag|done|done|].
  split; [exact H1|]. split; [|by eauto].
  rewrite drop_redo_tail_eq. unfold record_entry. cbn [commands].
  destruct (_ <? _)%nat eqn:Hcm; [|by rewrite last_snoc].
  destruct (commands s); simpl; [done|]. by rewrite last_snoc.
Qed.

(** A fresh stack is the history of one empty command. *)
Lemma history_new w : history UndoStack_new [w; w] w.
Proof.
  split; simpl; [|done| | | |]; try constructor.
  - by apply links_closures_flags.
  - constructor.
  - by intros ? [= <-].
Qed.

End undo.

(** * Concrete runs

    The world is a counter; [bump k] adds and subtracts [k]. *)

Definition bump (k : Z) : @UndoCommand Z :=
  UndoCommand_from_closures (fun w => w + k)%Z (fun w => w - k)%Z.

Lemma bump_links k w : links (bump k) w (w + k)%Z.
Proof. apply links_closures; lia. Qed.

Definition two_bumps : UndoStack * Z :=
  let '(s, w) := UndoStack_push UndoStack_new (bump 5) "five" 0%Z in
  UndoStack_push s (bump 7) "seven" w.

Example two_bumps_back : UndoStack_done_count (UndoStack_jump two_bumps.1 1 two_bumps.2).1 = 1%Z /\
  (UndoStack_jump two_bumps.1 1 two_bumps.2).2 = 0%Z /\
  (UndoStack_jump two_bumps.1 (-4) two_bumps.2).2 = 0%Z /\
  rows two_bumps.1 = ["New/Open Project"; "five"; "seven"].
Proof. vm_compute. done. Qed.

Lemma two_bumps_history : history two_bumps.1 [0; 0; 5; 12]%Z 12%Z.
Proof.
  destruct (history_record UndoStack_new [0; 0]%Z 0%Z 5%Z (redo_now (bump 5) 0%Z).1 "five")
    as (H1 & _ & L1).
  - apply history_new.
  - unfold K_MAX_UNDO_COMMANDS. simpl. lia.
  - destruct (links_redo (bump 5) 0%Z 5%Z) as (c & E & _ & ?); [apply bump_links|done|].
    by rewrite E.
  - done.
  - done.
  - destruct (history_record _ _ _ 12%Z (redo_now (bump 7) 5%Z).1 "seven" H1 L1) as (H2 & _).
    + destruct (links_redo (bump 7) 5%Z 12%Z) as (c & E & _ & ?); [apply (bump_links 7 5)|done|].
      by rewrite E.
    + done.
    + done.
    + exact H2.
Qed.

Lemma jump_reaches_recorded_world_witness :
  history two_bumps.1 [0; 0; 5; 12]%Z 12%Z /\
  exists s' w', UndoStack_jump two_bumps.1 2 12%Z = (s', w') /\ history s' [0; 0; 5; 12]%Z w' /\
    rows s' = rows two_bumps.1 /\
    [0; 0; 5; 12]%Z !! length (commands s') = Some w' /\
    length (commands s') = Nat.max (floor two_bumps.1)
      (Nat.min (Z.to_nat 2) (length (commands two_bumps.1) + length (undone two_bumps.1))).
Proof.
  split; [apply two_bumps_history|].
  apply (jump_reaches_recorded_world two_bumps.1 [0; 0; 5; 12]%Z 12%Z 2 two_bumps_history).
Defined.

Lemma push_records_witness :
  exists s', UndoStack_push UndoStack_new (bump 5) "five" 0%Z = (s', 5%Z) /\
    history s' (worlds_after_push UndoStack_new [0; 0]%Z 5%Z) 5%Z /\
    undone s' = [] /\ name <$> list.last (commands s') = Some "five" /\
    (length (commands s') <= K_MAX_UNDO_COMMANDS)%nat.
Proof.
  refine (proj2 (push_records UndoStack_new [0; 0]%Z 0%Z 5%Z (bump 5) "five" _ _ _ _ _) _).
  - apply history_new.
  - unfold K_MAX_UNDO_COMMANDS. simpl. lia.
  - apply (bump_links 5 0).
  - reflexivity.
  - reflexivity.
  - reflexivity.
Defined.

Lemma bumps_chain : chain false [bump 5; bump 7] 0%Z 12%Z.
Proof.
  apply chain_cons with 5%Z; [done|apply (bump_links 5 0)|].
  apply chain_cons with 12%Z; [done|apply (bump_links 7 5)|constructor].
Qed.

Lemma multi_command_reversible_witness :
  exists m, add_children UndoCommand_multi [bump 5; bump 7] = Some m /\
    multi_child_count m = length [bump 5; bump 7] /\
    links m 0%Z 12%Z /\ (toggle 3 m 0%Z).2 = if Nat.odd 3 then 12%Z else 0%Z.
Proof. apply (multi_command_reversible [bump 5; bump 7] 0%Z 12%Z 3 bumps_chain). Defined.

Lemma group_is_transaction_witness :
  let g := mkGlobal UndoStack_new None [] in
  exists g1 g2 g3, group_begin g "grouped" = (inl tt, g1) /\
    push_all g1 [(bump 5, "c1"); (bump 7, "c2")] 0%Z = Some (g2, 12%Z) /\
    STACK g2 = STACK g /\
    group_abort g2 12%Z = (inl tt, g, 0%Z) /\
    group_end g2 12%Z = (inl tt, g3, notify_observers g 12%Z) /\ GROUP g3 = None /\
    history (STACK g3) (worlds_after_push (STACK g) [0; 0]%Z 12%Z) 12%Z /\
    name <$> list.last (commands (STACK g3)) = Some "grouped" /\
    is_Some (GROUP g2) /\ group_begin g2 "grouped" = (inr State, g2).
Proof.
  apply (group_is_transaction (mkGlobal UndoStack_new None []) "grouped"
    [(bump 5, "c1"); (bump 7, "c2")] 0%Z 12%Z [0; 0]%Z).
  - reflexivity.
  - discriminate.
  - apply bumps_chain.
  - apply history_new.
  - unfold K_MAX_UNDO_COMMANDS. simpl. lia.
Defined.
