(* ===== verification/Ids.v ===== *)
(** Generational node identifiers (crates/oak-node/src/id.rs): the id type
    with its derived equality and order, and the packed 64-bit identity.
    Unsigned machine words are [N]. *)

From S2P Require Import Prelude.

Local Open Scope N_scope.

Record NodeId : Type := mkNodeId { index : N; generation : N }.

#[export] Instance NodeId_eq_dec : EqDecision NodeId.
Proof. solve_decision. Defined.

#[export] Instance NodeId_countable : Countable NodeId.
Proof.
  refine (inj_countable' (fun i => (index i, generation i)) (fun p => mkNodeId p.1 p.2) _).
  by intros [].
Defined.

Definition U32_MAX : N := 4294967295.

(** The cast [as u32] (and [u32] addition, which wraps). *)
Definition as_u32 (x : N) : N := x mod 2 ^ 32.

Definition INVALID : NodeId := mkNodeId U32_MAX 0.

Definition valid (i : NodeId) : bool := negb (index i =? U32_MAX).

(** The derived [Ord]: by slot, then by generation. *)
Definition NodeId_cmp (a b : NodeId) : comparison :=
  match index a ?= index b with Eq => generation a ?= generation b | c => c end.

Definition NodeId_eqb (a b : NodeId) : bool := bool_decide (a = b).

Definition identity (i : NodeId) : N := N.lor (N.shiftl (generation i) 32) (index i).

Definition from_identity (id : N) : option NodeId :=
  let index := as_u32 (N.land id 0xffffffff) in
  let generation := as_u32 (N.shiftr id 32) in
  if index =? U32_MAX then None else Some (mkNodeId index generation).

(** * Widths and order *)

Definition is_u32 (x : N) : Prop := x < 2 ^ 32.
Definition id_wf (i : NodeId) : Prop := is_u32 (index i) /\ is_u32 (generation i).

Lemma as_u32_lt x : is_u32 (as_u32 x).
Proof. unfold is_u32, as_u32. apply N.mod_lt. lia. Qed.

Lemma as_u32_id x : is_u32 x -> as_u32 x = x.
Proof. unfold is_u32, as_u32. intros. by apply N.mod_small. Qed.

Lemma NodeId_eqb_true a b : NodeId_eqb a b = true <-> a = b.
Proof. unfold NodeId_eqb. apply bool_decide_eq_true. Qed.

Lemma NodeId_eqb_false a b : NodeId_eqb a b = false <-> a <> b.
Proof. unfold NodeId_eqb. apply bool_decide_eq_false. Qed.

Lemma NodeId_eqb_refl a : NodeId_eqb a a = true.
Proof. by apply NodeId_eqb_true. Qed.

Lemma NodeId_cmp_Eq a b : NodeId_cmp a b = Eq <-> a = b.
Proof.
  unfold NodeId_cmp. destruct a as [i g], b as [j h]; simpl.
  destruct (N.compare_spec i j), (N.compare_spec g h); split; intros E; simplify_eq; try done; lia.
Qed.

(** Packing two 32-bit halves. *)
Lemma identity_sum i : id_wf i -> identity i = generation i * 2 ^ 32 + index i.
Proof.
  intros [Hi Hg]. unfold identity. rewrite N.shiftl_mul_pow2.
  assert (Hd : N.land (generation i * 2 ^ 32) (index i) = 0).
  { apply N.bits_inj_0. intros n. rewrite N.land_spec.
    destruct (N.lt_ge_cases n 32).
    - by rewrite N.mul_pow2_bits_low.
    - rewrite (N.bits_above_log2 (index i)); [by rewrite andb_false_r|].
      unfold is_u32 in Hi. destruct (N.eq_dec (index i) 0) as [->|]; [simpl; lia|].
      apply N.log2_lt_pow2 in Hi; lia. }
  symmetry. rewrite N.add_nocarry_lxor by done. by apply N.lxor_lor.
Qed.

Lemma from_identity_sum g x :
  is_u32 g -> is_u32 x ->
  from_identity (g * 2 ^ 32 + x) = if x =? U32_MAX then None else Some (mkNodeId x g).
Proof.
  intros Hg Hx. unfold from_identity.
  change 0xffffffff with (N.ones 32). rewrite N.land_ones, N.shiftr_div_pow2.
  rewrite N.add_comm, N.Div0.mod_add, N.div_add by lia.
  rewrite (N.mod_small x) by apply Hx. rewrite (N.div_small x) by apply Hx.
  rewrite N.add_0_l. rewrite !as_u32_id by done. done.
Qed.

(** C14: the packed identity of an id is a 64-bit value from which
    [from_identity] recovers exactly that id, the invalid slot is refused,
    different ids have different identities, and every 64-bit integer that
    unpacks is the identity of what it unpacks to. *)
Theorem identity_roundtrip (i : NodeId) (Hi : id_wf i) :
  identity i < 2 ^ 64 /\
  from_identity (identity i) = (if valid i then Some i else None) /\
  (forall j, id_wf j -> identity j = identity i -> j = i) /\
  (forall n j, n < 2 ^ 64 -> from_identity n = Some j -> identity j = n /\ valid j = true /\ id_wf j).
Proof.
  assert (Hr : forall j, id_wf j -> from_identity (identity j) = if valid j then Some j else None).
  { intros j Hj. rewrite identity_sum by done. destruct Hj. rewrite from_identity_sum by done.
    unfold valid. destruct (_ =? _); [done|]. by destruct j. }
  unfold id_wf, is_u32 in *. split; [|split; [by apply Hr|split]].
  - rewrite identity_sum by done. lia.
  - intros j Hj Hij. rewrite !identity_sum in Hij by done.
    destruct i, j; simpl in *. f_equal; lia.
  - intros n j Hn Hj.
    assert (Hs : n = n / 2 ^ 32 * 2 ^ 32 + n mod 2 ^ 32).
    { rewrite N.mul_comm. apply N.div_mod. lia. }
    assert (is_u32 (n / 2 ^ 32)) by (apply N.Div0.div_lt_upper_bound; lia).
    assert (is_u32 (n mod 2 ^ 32)) by (apply N.mod_lt; lia).
    rewrite Hs in Hj. rewrite from_identity_sum in Hj by done.
    destruct (_ =? U32_MAX) eqn:E; [done|]. injection Hj as <-.
    split; [|split; [|by split]].
    + rewrite identity_sum by done. simpl index; simpl generation. symmetry. exact Hs.
    + unfold valid. simpl. by rewrite E.
Qed.

Lemma identity_roundtrip_witness :
  identity (mkNodeId 7 3) < 2 ^ 64 /\
  from_identity (identity (mkNodeId 7 3)) = Some (mkNodeId 7 3) /\
  (forall j, id_wf j -> identity j = identity (mkNodeId 7 3) -> j = mkNodeId 7 3) /\
  (forall n j, n < 2 ^ 64 -> from_identity n = Some j -> identity j = n /\ valid j = true /\ id_wf j).
Proof. apply (identity_roundtrip (mkNodeId 7 3)). split; reflexivity. Defined.

Example identity_examples :
  identity (mkNodeId 5 2) = 0x200000005 /\ from_identity 0x200000005 = Some (mkNodeId 5 2) /\
  from_identity 0x1ffffffff = None /\ valid INVALID = false.
Proof. done. Qed.
