(* ===== verification/Value.v ===== *)
(** Node values and sample buffers (crates/oak-node/src/value.rs,
    crates/oak-core/src/samplefmt.rs): the tagged value union, the type tags
    with their tables, numeric conversion and linear interpolation, splitting
    into component tracks, and the addressing of sample payloads.

    A stored [f64] is its 64-bit pattern [F64]; where the code computes with
    it, [f64_of_bits] and [bits_of_f64] pass to and from the executable
    binary64 numbers of Timecode.v (a NaN a computation returns is the quiet
    one with an empty payload).  An opaque render handle is an integer. *)

From Stdlib Require Import SpecFloat.
From S2P Require Import Prelude Rational Timecode Ids.

Local Open Scope Z_scope.

Definition F64 : Type := Z.
Definition CHandle : Type := Z.

(** * Sample formats *)

Inductive SampleFormat : Type :=
| SF_Invalid
| SF_U8Planar | SF_S16Planar | SF_S32Planar | SF_S64Planar | SF_F32Planar | SF_F64Planar
| SF_U8 | SF_S16 | SF_S32 | SF_S64 | SF_F32 | SF_F64.

#[export] Instance SampleFormat_eq_dec : EqDecision SampleFormat.
Proof. solve_decision. Defined.

(** The enum discriminant ([self as i32]). *)
Definition SampleFormat_discriminant (f : SampleFormat) : Z :=
  match f with
  | SF_Invalid => -1
  | SF_U8Planar => 0 | SF_S16Planar => 1 | SF_S32Planar => 2
  | SF_S64Planar => 3 | SF_F32Planar => 4 | SF_F64Planar => 5
  | SF_U8 => 6 | SF_S16 => 7 | SF_S32 => 8 | SF_S64 => 9 | SF_F32 => 10 | SF_F64 => 11
  end.

Definition bytes_per_sample (f : SampleFormat) : Z :=
  match f with
  | SF_Invalid => 0
  | SF_U8Planar | SF_U8 => 1
  | SF_S16Planar | SF_S16 => 2
  | SF_S32Planar | SF_S32 | SF_F32Planar | SF_F32 => 4
  | SF_S64Planar | SF_S64 | SF_F64Planar | SF_F64 => 8
  end.

Definition is_planar (f : SampleFormat) : bool :=
  (0 <=? SampleFormat_discriminant f) && (SampleFormat_discriminant f <? 6).

Definition to_packed (f : SampleFormat) : SampleFormat :=
  match f with
  | SF_U8Planar => SF_U8 | SF_S16Planar => SF_S16 | SF_S32Planar => SF_S32
  | SF_S64Planar => SF_S64 | SF_F32Planar => SF_F32 | SF_F64Planar => SF_F64
  | other => other
  end.

Definition to_planar (f : SampleFormat) : SampleFormat :=
  match f with
  | SF_U8 => SF_U8Planar | SF_S16 => SF_S16Planar | SF_S32 => SF_S32Planar
  | SF_S64 => SF_S64Planar | SF_F32 => SF_F32Planar | SF_F64 => SF_F64Planar
  | other => other
  end.

(** * Values *)

Inductive ValueType : Type :=
| VT_None | VT_Int | VT_Float | VT_Color | VT_Text | VT_Boolean | VT_Texture | VT_Samples
| VT_Rational | VT_Vec2 | VT_Vec3 | VT_Vec4 | VT_Matrix | VT_Combo | VT_StrCombo
| VT_VideoParams | VT_AudioParams | VT_Binary | VT_NodeRef | VT_PushButton | VT_Parametric.

#[export] Instance ValueType_eq_dec : EqDecision ValueType.
Proof. solve_decision. Defined.

(** [data] is the raw payload, [sample_count] counts per channel; [usize]
    values are non-negative integers. *)
Record SampleBuffer : Type := mkSampleBuffer {
  sb_format : SampleFormat; channels : Z; sample_count : Z; data : list Z }.

Definition SampleBuffer_default : SampleBuffer := mkSampleBuffer SF_Invalid 0 0 [].

Record VideoParams : Type := mkVideoParams {
  width : Z; height : Z; frame_rate : Rational; pixel_format : Z; vp_channels : Z; interlaced : bool }.

Record AudioParams : Type := mkAudioParams {
  sample_rate : Z; channel_layout : Z; ap_format : Z }.

Inductive NodeValue : Type :=
| NV_None
| NV_Int (i : Z)
| NV_Float (f : F64)
| NV_Color (c0 c1 c2 c3 : F64)
| NV_Text (s : string)
| NV_Boolean (b : bool)
| NV_Texture (h : CHandle)
| NV_Samples (s : SampleBuffer)
| NV_Rational (r : Rational)
| NV_Vec2 (v0 v1 : F64)
| NV_Vec3 (v0 v1 v2 : F64)
| NV_Vec4 (v0 v1 v2 v3 : F64)
| NV_Matrix (m : list F64)
| NV_Vec4Array (a : list (F64 * F64 * F64 * F64))
| NV_Combo (i : Z)
| NV_StrCombo (s : string)
| NV_VideoParams (p : VideoParams)
| NV_AudioParams (p : AudioParams)
| NV_Binary (b : list Z)
| NV_NodeRef (n : NodeId)
| NV_PushButton.

Definition value_type (v : NodeValue) : ValueType :=
  match v with
  | NV_None => VT_None
  | NV_Int _ => VT_Int
  | NV_Float _ => VT_Float
  | NV_Color _ _ _ _ => VT_Color
  | NV_Text _ => VT_Text
  | NV_Boolean _ => VT_Boolean
  | NV_Texture _ => VT_Texture
  | NV_Samples _ => VT_Samples
  | NV_Rational _ => VT_Rational
  | NV_Vec2 _ _ => VT_Vec2
  | NV_Vec3 _ _ _ => VT_Vec3
  | NV_Vec4 _ _ _ _ => VT_Vec4
  | NV_Vec4Array _ => VT_Vec4
  | NV_Matrix _ => VT_Matrix
  | NV_Combo _ => VT_Combo
  | NV_StrCombo _ => VT_StrCombo
  | NV_VideoParams _ => VT_VideoParams
  | NV_AudioParams _ => VT_AudioParams
  | NV_Binary _ => VT_Binary
  | NV_NodeRef _ => VT_NodeRef
  | NV_PushButton => VT_PushButton
  end.

Definition ValueType_can_interpolate (t : ValueType) : bool :=
  match t with
  | VT_Float | VT_Vec2 | VT_Vec3 | VT_Vec4 | VT_Color | VT_Rational => true
  | _ => false
  end.

Definition can_interpolate (v : NodeValue) : bool := ValueType_can_interpolate (value_type v).

(** The pinned [oaknode_value_type] discriminants. *)
Definition to_oak (t : ValueType) : Z :=
  match t with
  | VT_Int => 1 | VT_Float => 2 | VT_Boolean => 3 | VT_Rational => 4 | VT_Color => 5
  | VT_Vec2 => 6 | VT_Vec3 => 7 | VT_Vec4 => 8 | VT_Combo => 9
  | VT_Text | VT_StrCombo | VT_Parametric => 10
  | _ => 0
  end.

Definition is_string (t : ValueType) : bool :=
  match t with VT_Text | VT_StrCombo | VT_Parametric => true | _ => false end.

Definition to_cpp_discriminant (t : ValueType) : Z :=
  match t with
  | VT_None => 0 | VT_Int => 1 | VT_Float => 2 | VT_Rational => 3 | VT_Boolean => 4
  | VT_Color => 5 | VT_Matrix => 6 | VT_Text => 7 | VT_Texture => 10 | VT_Samples => 11
  | VT_Vec2 => 12 | VT_Vec3 => 13 | VT_Vec4 => 14 | VT_Combo => 16 | VT_StrCombo => 17
  | VT_VideoParams => 18 | VT_AudioParams => 19 | VT_Binary => 21 | VT_PushButton => 22
  | VT_NodeRef | VT_Parametric => 0
  end.

Definition keyframe_track_count (t : ValueType) : nat :=
  match t with VT_Vec2 => 2 | VT_Vec3 => 3 | VT_Vec4 | VT_Color => 4 | _ => 1 end.

(** The writes [vals[i] = x] of [split_into_tracks] into a vector of [count]
    empty values; an index past the end panics ([None]). *)
Fixpoint assign_from (i : nat) (xs vals : list NodeValue) : option (list NodeValue) :=
  match xs with
  | [] => Some vals
  | x :: xs => if (i <? length vals)%nat then assign_from (S i) xs (<[i := x]> vals) else None
  end.

Definition split_into_tracks (v : NodeValue) (declared : ValueType) : option (list NodeValue) :=
  let vals := replicate (keyframe_track_count declared) NV_None in
  match v with
  | NV_Vec2 a b => assign_from 0 [NV_Float a; NV_Float b] vals
  | NV_Vec3 a b c => assign_from 0 [NV_Float a; NV_Float b; NV_Float c] vals
  | NV_Vec4 a b c d | NV_Color a b c d =>
      assign_from 0 [NV_Float a; NV_Float b; NV_Float c; NV_Float d] vals
  | _ => assign_from 0 [v] vals
  end.

(** * Values as doubles, and interpolation *)

Definition f64_of_bits (b : F64) : f64 :=
  let s := Z.testbit b 63 in
  let ex := (b / 2 ^ 52) mod 2 ^ 11 in
  let fr := b mod 2 ^ 52 in
  if ex =? 2047 then if fr =? 0 then S754_infinity s else S754_nan
  else if ex =? 0 then
    match fr with Z.pos m => S754_finite s m (-1074) | _ => S754_zero s end
  else match fr + 2 ^ 52 with Z.pos m => S754_finite s m (ex - 1075) | _ => S754_nan end.

Definition sign_bit (s : bool) : Z := if s then 2 ^ 63 else 0.

Definition bits_of_f64 (x : f64) : F64 :=
  match x with
  | S754_zero s => sign_bit s
  | S754_infinity s => sign_bit s + 2047 * 2 ^ 52
  | S754_nan => 2047 * 2 ^ 52 + 2 ^ 51
  | S754_finite s m e =>
      sign_bit s +
      (if Z.pos m <? 2 ^ 52 then Z.pos m else (e + 1075) * 2 ^ 52 + (Z.pos m - 2 ^ 52))
  end.

Definition to_double (v : NodeValue) : f64 :=
  match v with
  | NV_Int i => f64_of_int i
  | NV_Float f => f64_of_bits f
  | NV_Color c0 _ _ _ => f64_of_bits c0
  | NV_Boolean b => if b then f64_of_int 1 else f64_of_int 0
  | NV_Rational r => to_f64 r
  | NV_Vec2 v0 _ => f64_of_bits v0
  | NV_Vec3 v0 _ _ => f64_of_bits v0
  | NV_Vec4 v0 _ _ _ => f64_of_bits v0
  | NV_Combo i => f64_of_int i
  | _ => f64_of_int 0
  end.

(** [comp(i)]: the number of the [i]-th track, 0 past the end. *)
Definition comp (tracks : list NodeValue) (i : nat) : F64 :=
  bits_of_f64 (from_option to_double (f64_of_int 0) (tracks !! i)).

Definition combine_tracks (tracks : list NodeValue) (declared : ValueType) : NodeValue :=
  match tracks with
  | [] => NV_None
  | t0 :: _ =>
      match declared with
      | VT_Vec2 => NV_Vec2 (comp tracks 0) (comp tracks 1)
      | VT_Vec3 => NV_Vec3 (comp tracks 0) (comp tracks 1) (comp tracks 2)
      | VT_Vec4 => NV_Vec4 (comp tracks 0) (comp tracks 1) (comp tracks 2) (comp tracks 3)
      | VT_Color => NV_Color (comp tracks 0) (comp tracks 1) (comp tracks 2) (comp tracks 3)
      | _ => t0
      end
  end.

Definition lerp_f (a b t : f64) : f64 :=
  f64_add (f64_mul a (f64_sub (f64_of_int 1) t)) (f64_mul b t).

(** One component of [lerp_arr2], [lerp_arr3] and [lerp_arr4]. *)
Definition lerp_bits (t : f64) (a b : F64) : F64 :=
  bits_of_f64 (lerp_f (f64_of_bits a) (f64_of_bits b) t).

Definition lerp (self other : NodeValue) (t : f64) : NodeValue :=
  let l := lerp_bits t in
  match self, other with
  | NV_Float a, NV_Float b => NV_Float (l a b)
  | NV_Color a0 a1 a2 a3, NV_Color b0 b1 b2 b3 => NV_Color (l a0 b0) (l a1 b1) (l a2 b2) (l a3 b3)
  | NV_Vec2 a0 a1, NV_Vec2 b0 b1 => NV_Vec2 (l a0 b0) (l a1 b1)
  | NV_Vec3 a0 a1 a2, NV_Vec3 b0 b1 b2 => NV_Vec3 (l a0 b0) (l a1 b1) (l a2 b2)
  | NV_Vec4 a0 a1 a2 a3, NV_Vec4 b0 b1 b2 b3 => NV_Vec4 (l a0 b0) (l a1 b1) (l a2 b2) (l a3 b3)
  | NV_Rational _, _ | _, NV_Rational _ =>
      NV_Rational (from_double (lerp_f (to_double self) (to_double other) t))
  | _, _ => self
  end.

Definition with_scalar (self : NodeValue) (declared : ValueType) (scalar : f64) : NodeValue :=
  let s := bits_of_f64 scalar in
  let z := bits_of_f64 (f64_of_int 0) in
  match declared with
  | VT_Int => NV_Int (f64_as_i64 scalar)
  | VT_Float => NV_Float s
  | VT_Boolean => NV_Boolean (negb (SFeqb scalar (f64_of_int 0)))
  | VT_Combo => NV_Combo (f64_as_i64 scalar)
  | VT_Color => NV_Color s z z z
  | VT_Vec2 => NV_Vec2 s z
  | VT_Vec3 => NV_Vec3 s z z
  | VT_Vec4 => NV_Vec4 s z z z
  | _ => self
  end.

(** * Sample addressing *)

Definition is_allocated (s : SampleBuffer) : bool :=
  negb (match data s with [] => true | _ => false end).

Definition sample_offset (s : SampleBuffer) (channel index : Z) : option Z :=
  if match sb_format s with SF_Invalid => true | _ => false end
     || (channels s <=? channel) || (sample_count s <=? index)
  then None
  else
    let bps := bytes_per_sample (sb_format s) in
    let pos := if is_planar (sb_format s) then usize (usize (channel * sample_count s) + index)
               else usize (usize (index * channels s) + channel) in
    let byte := usize (pos * bps) in
    if Z.of_nat (length (data s)) <? usize (byte + bps) then None else Some byte.

(** * Lemmas *)

(** Row-major positions are unique and in range. *)
Lemma row_major_inj (n a b a' b' : Z) :
  0 <= b < n -> 0 <= b' < n -> a * n + b = a' * n + b' -> a = a' /\ b = b'.
Proof. intros H H' E. assert (a = a') by nia. subst. lia. Qed.

Lemma bytes_per_sample_pos f : f <> SF_Invalid -> 0 < bytes_per_sample f.
Proof. by destruct f. Qed.

(** The number of the sample in the payload, before any wrap. *)
Definition sample_position (s : SampleBuffer) (channel index : Z) : Z :=
  if is_planar (sb_format s) then channel * sample_count s + index
  else index * channels s + channel.

(** The whole payload the header describes fits the address space. *)
Definition addressable (s : SampleBuffer) : Prop :=
  0 <= channels s /\ 0 <= sample_count s /\
  channels s * sample_count s * bytes_per_sample (sb_format s) < 2 ^ 64.

Lemma sample_position_bound (s : SampleBuffer) (c i : Z) :
  0 <= c < channels s -> 0 <= i < sample_count s ->
  0 <= sample_position s c i /\ sample_position s c i + 1 <= channels s * sample_count s.
Proof. intros Hc Hi. unfold sample_position. destruct (is_planar _); nia. Qed.

(** No product and no sum of the address wraps in an addressable buffer. *)
Lemma sample_offset_exact (s : SampleBuffer) (c i : Z) :
  addressable s -> 0 <= c -> 0 <= i ->
  sample_offset s c i =
    if decide (sb_format s <> SF_Invalid /\ c < channels s /\ i < sample_count s /\
               (sample_position s c i + 1) * bytes_per_sample (sb_format s) <= Z.of_nat (length (data s)))
    then Some (sample_position s c i * bytes_per_sample (sb_format s)) else None.
Proof.
  intros (Hch & Hcnt & Hfit) Hc Hi. unfold sample_offset.
  destruct (decide (sb_format s = SF_Invalid)) as [E|E].
  { rewrite E at 1. cbn [orb]. by rewrite decide_False by tauto. }
  assert (match sb_format s with SF_Invalid => true | _ => false end = false) as ->
    by (by destruct (sb_format s)).
  destruct (Z.leb_spec (channels s) c) as [H1|H1]; [by rewrite decide_False by lia|].
  destruct (Z.leb_spec (sample_count s) i) as [H2|H2]; [by rewrite decide_False by lia|].
  cbn [orb]. cbv zeta. pose proof (bytes_per_sample_pos _ E) as Hb.
  destruct (sample_position_bound s c i) as [Hp0 Hp]; [lia..|].
  set (bps := bytes_per_sample (sb_format s)) in *.
  assert (Hp1 : (sample_position s c i + 1) * bps <= channels s * sample_count s * bps)
    by (apply Z.mul_le_mono_nonneg_r; lia).
  assert (Hp2 : channels s * sample_count s <= channels s * sample_count s * bps) by nia.
  assert ((if is_planar (sb_format s) then usize (usize (c * sample_count s) + i)
           else usize (usize (i * channels s) + c)) = sample_position s c i) as ->.
  { unfold sample_position in *. destruct (is_planar _).
    - assert (0 <= c * sample_count s) by nia. rewrite (usize_id (c * _)) by lia. apply usize_id. lia.
    - assert (0 <= i * channels s) by nia. rewrite (usize_id (i * _)) by lia. apply usize_id. lia. }
  assert (0 <= sample_position s c i * bps) by nia.
  rewrite !usize_id by (rewrite ?usize_id; lia).
  destruct (Z.ltb_spec (Z.of_nat (length (data s))) (sample_position s c i * bps + bps)).
  - rewrite decide_False; [done|]. lia.
  - rewrite decide_True; [done|]. split; [done|]. lia.
Qed.

Lemma sample_offset_Some (s : SampleBuffer) (c i o : Z) :
  addressable s -> 0 <= c -> 0 <= i ->
  sample_offset s c i = Some o <->
  sb_format s <> SF_Invalid /\ c < channels s /\ i < sample_count s /\
  o = sample_position s c i * bytes_per_sample (sb_format s) /\
  o + bytes_per_sample (sb_format s) <= Z.of_nat (length (data s)).
Proof.
  intros Ha Hc Hi. rewrite sample_offset_exact by done. split.
  - destruct (decide _) as [H|H]; [|done]. intros [= <-]. destruct H as (? & ? & ? & ?).
    repeat split; [done|done|done|]. lia.
  - intros (? & ? & ? & -> & ?). rewrite decide_True; [done|]. split; [done|]. lia.
Qed.

(** C15: sample addressing is safe and unambiguous in a buffer whose described
    payload, channels times samples times bytes per sample, is below 2^64, so
    that no [usize] product or sum wraps: an offset is returned exactly for an
    existing channel and sample whose byte window lies inside the payload, it
    is the planar or interleaved position times the sample size, two different
    samples never share a byte, and a payload of the full size has an offset
    for every sample. *)
Theorem sample_offset_sound (s : SampleBuffer) (Ha : addressable s) :
  (forall c i o, 0 <= c -> 0 <= i ->
     sample_offset s c i = Some o <->
     sb_format s <> SF_Invalid /\ c < channels s /\ i < sample_count s /\
     o = (if is_planar (sb_format s) then c * sample_count s + i else i * channels s + c)
         * bytes_per_sample (sb_format s) /\
     o + bytes_per_sample (sb_format s) <= Z.of_nat (length (data s))) /\
  (forall c i o c' i' o', 0 <= c -> 0 <= i -> 0 <= c' -> 0 <= i' ->
     sample_offset s c i = Some o -> sample_offset s c' i' = Some o' -> (c, i) <> (c', i') ->
     o + bytes_per_sample (sb_format s) <= o' \/ o' + bytes_per_sample (sb_format s) <= o) /\
  (forall c i, 0 <= c < channels s -> 0 <= i < sample_count s -> sb_format s <> SF_Invalid ->
     channels s * sample_count s * bytes_per_sample (sb_format s) <= Z.of_nat (length (data s)) ->
     is_Some (sample_offset s c i)).
Proof.
  split; [|split].
  - intros c i o Hc Hi. by apply sample_offset_Some.
  - intros c i o c' i' o' Hc Hi Hc' Hi' Ho Ho' Hne.
    apply sample_offset_Some in Ho as (Hf & ? & ? & -> & _); [|done..].
    apply sample_offset_Some in Ho' as (_ & ? & ? & -> & _); [|done..].
    pose proof (bytes_per_sample_pos _ Hf).
    assert (sample_position s c i <> sample_position s c' i').
    { unfold sample_position. intros Hp. apply Hne.
      destruct (is_planar _); apply row_major_inj in Hp as [-> ->]; done. }
    nia.
  - intros c i Hc Hi Hf Hlen. eexists. apply sample_offset_Some; [done|lia|lia|].
    split; [done|]. split; [lia|]. split; [lia|]. split; [reflexivity|].
    destruct (sample_position_bound s c i Hc Hi) as [_ Hp].
    pose proof (bytes_per_sample_pos _ Hf).
    apply (Z.mul_le_mono_nonneg_r _ _ (bytes_per_sample (sb_format s))) in Hp; lia.
Qed.

Lemma sample_offset_sound_witness :
  let s := mkSampleBuffer SF_S16 2 3 (repeat 0 12) in
  sample_offset s 1 2 = Some 10 /\ sample_offset s 0 2 = Some 8 /\ sample_offset s 2 0 = None /\
  (10 + 2 <= 8 \/ 8 + 2 <= 10).
Proof.
  split; [reflexivity|]. split; [reflexivity|]. split; [reflexivity|].
  refine (proj1 (proj2 (sample_offset_sound (mkSampleBuffer SF_S16 2 3 (repeat 0 12)) _))
            1 2 10 0 2 8 _ _ _ _ _ _ _); try done.
Defined.

(** Without that bound the address wraps: with 2^63 16-bit samples per channel
    the first samples of both channels get the same offset. *)
Lemma sample_offset_wraps :
  let s := mkSampleBuffer SF_S16Planar 2 (2 ^ 63) [0; 0] in
  sample_offset s 0 0 = Some 0 /\ sample_offset s 1 0 = Some 0.
Proof. vm_compute. done. Qed.

(** Splitting a vector or colour yields one float per declared track. *)
Lemma split_into_tracks_own v :
  split_into_tracks v (value_type v) <> None.
Proof. by destruct v. Qed.
