(* ===== verification/Keyframe.v ===== *)
(** Keyframe tracks (crates/oak-node/src/keyframe.rs): the sorted track, its
    edits by binary search, the bracket search of [value_at], and the
    interpolation between two keys: linear, or along a quadratic or cubic
    Bezier curve whose parameter a bisection finds.

    The doubles are the executable binary64 numbers of Timecode.v.  The
    bisection need not end, so the interpolation takes fuel and its outcome
    tells a value from a panic and from fuel that ran out. *)

From Stdlib Require Import SpecFloat.
From stdpp Require Import sorting.
From S2P Require Import Prelude Rational Timecode Value.

Local Open Scope Z_scope.

Inductive Interpolation : Type := Hold | Linear | Bezier.

#[export] Instance Interpolation_eq_dec : EqDecision Interpolation.
Proof. solve_decision. Defined.

Record Keyframe : Type := mkKeyframe {
  time : Rational; value : NodeValue; interpolation : Interpolation;
  bezier_in : F64 * F64; bezier_out : F64 * F64 }.

(** The private vector [keys]. *)
Abbreviation KeyframeTrack := (list Keyframe).

Definition KeyframeTrack_default : KeyframeTrack := [].

Definition keys (t : KeyframeTrack) : list Keyframe := t.

Definition set_key (t : KeyframeTrack) (key : Keyframe) : KeyframeTrack :=
  match binary_search_by (fun k => cmp (time k) (time key)) t with
  | inl i => <[i := key]> t
  | inr i => vec_insert i key t
  end.

Definition set_key_value (t : KeyframeTrack) (tm : Rational) (v : NodeValue) : KeyframeTrack * bool :=
  match position (fun k => eqb (time k) tm) t with
  | Some i => (update_at i (fun k =>
      mkKeyframe (time k) v (interpolation k) (bezier_in k) (bezier_out k)) t, true)
  | None => (t, false)
  end.

Definition remove_key (t : KeyframeTrack) (tm : Rational) : KeyframeTrack * bool :=
  match binary_search_by (fun k => cmp (time k) tm) t with
  | inl i => (delete i t, true)
  | inr _ => (t, false)
  end.

(** The bracket search: a pair of adjacent keys, none, or an index out of
    bounds (a panic). *)
Inductive Bracket : Type :=
| Between (before after : nat)
| NoBracket
| OutOfBounds.

Definition bracket_step (t : KeyframeTrack) (tm : Rational) (s : Z * Z) : Z * Z + Bracket :=
  let '(low, high) := s in
  if low <=? high then
    let mid := low + (high - low) / 2 in
    match t !! Z.to_nat mid, t !! Z.to_nat (mid + 1) with
    | Some mid_key, Some next_key =>
        if leb (time mid_key) tm && ltb tm (time next_key) then
          inr (Between (Z.to_nat mid) (Z.to_nat (mid + 1)))
        else if ltb (time mid_key) tm then inl (mid + 1, high)
        else inl (low, usize (mid - 1))
    | _, _ => inr OutOfBounds
    end
  else inr NoBracket.

(** The loop runs at most once per key and once more. *)
Definition find_bracket (t : KeyframeTrack) (tm : Rational) : Bracket :=
  default OutOfBounds
    (while_fuel (S (length t)) (bracket_step t tm) (0, Z.of_nat (length t) - 1)).

(** * Interpolation *)

(** What a call does: return, panic, or outlast the fuel. *)
Inductive Outcome (A : Type) : Type :=
| Done (a : A)
| Panics
| OutOfFuel.
Arguments Done {A} a.
Arguments Panics {A}.
Arguments OutOfFuel {A}.

Definition and_then {A B : Type} (x : Outcome A) (k : A -> Outcome B) : Outcome B :=
  match x with Done a => k a | Panics => Panics | OutOfFuel => OutOfFuel end.

Definition or_panic {A : Type} (x : option A) : Outcome A :=
  match x with Some a => Done a | None => Panics end.

(** [f64::min], [f64::max], [f64::clamp] (which asserts [min <= max]) and
    [powi] for the two exponents the curves use. *)
Definition f64_min (a b : f64) : f64 :=
  if f64_is_nan a then b else if f64_is_nan b then a else if SFltb b a then b else a.
Definition f64_max (a b : f64) : f64 :=
  if f64_is_nan a then b else if f64_is_nan b then a else if SFltb a b then b else a.
Definition f64_clamp (x mn mx : f64) : Outcome f64 :=
  if SFleb mn mx then
    let x := if SFltb x mn then mn else x in
    Done (if SFltb mx x then mx else x)
  else Panics.
Definition powi2 (x : f64) : f64 := f64_mul x x.
Definition powi3 (x : f64) : f64 := f64_mul x (f64_mul x x).

Definition one : f64 := Eval vm_compute in f64_of_int 1.
Definition two : f64 := Eval vm_compute in f64_of_int 2.
Definition three : f64 := Eval vm_compute in f64_of_int 3.
Definition zero : f64 := S754_zero false.
Definition half : f64 := Eval vm_compute in f64_scaled 1 (-1).

(** The double nearest to the literal [0.000001]. *)
Definition tolerance : f64 := S754_finite false 4722366482869645 (-72).

Definition quadratic_tto_y (a b c t : f64) : f64 :=
  let u := f64_sub one t in
  f64_add (f64_add (f64_mul (powi2 u) a) (f64_mul (f64_mul (f64_mul two u) t) b))
    (f64_mul (powi2 t) c).

Definition cubic_tto_y (a b c d t : f64) : f64 :=
  let u := f64_sub one t in
  f64_add
    (f64_add
       (f64_add (f64_mul (powi3 u) a) (f64_mul (f64_mul (f64_mul three (powi2 u)) t) b))
       (f64_mul (f64_mul (f64_mul three u) (powi2 t)) c))
    (f64_mul (powi3 t) d).

(** One turn of the bisection over [(bottom, top)]. *)
Definition calculate_step (cubic : bool) (x a b c d : f64) (s : f64 * f64) : f64 * f64 + f64 :=
  let '(bottom, top) := s in
  if SFeqb bottom top then inr bottom
  else
    let mid := f64_mul (f64_add bottom top) half in
    let test := if cubic then cubic_tto_y a b c d mid else quadratic_tto_y a b c mid in
    if SFltb (SFabs (f64_sub test x)) tolerance then inr mid
    else if SFltb test x then inl (mid, top)
    else inl (bottom, mid).

Definition calculate_t_from_x (fuel : nat) (cubic : bool) (x a b c d : f64) : Outcome f64 :=
  match while_fuel fuel (calculate_step cubic x a b c d) (zero, one) with
  | Some t => Done t
  | None => OutOfFuel
  end.

Definition cubic_xto_t (fuel : nat) (x a b c d : f64) : Outcome f64 :=
  and_then (f64_clamp x (f64_min a d) (f64_max a d)) (fun x => calculate_t_from_x fuel true x a b c d).

Definition quadratic_xto_t (fuel : nat) (x a b c : f64) : Outcome f64 :=
  and_then (f64_clamp x (f64_min a c) (f64_max a c)) (fun x => calculate_t_from_x fuel false x a b c zero).

Definition valid_bezier_out (key : Keyframe) (next_time : Rational) : f64 * f64 :=
  let t := to_f64 (time key) in
  let adjusted_x := f64_min (f64_add t (f64_of_bits (bezier_out key).1)) (to_f64 next_time) in
  (f64_sub adjusted_x t, f64_of_bits (bezier_out key).2).

Definition valid_bezier_in (key : Keyframe) (prev_time : Rational) : f64 * f64 :=
  let t := to_f64 (time key) in
  let adjusted_x := f64_max (f64_add t (f64_of_bits (bezier_in key).1)) (to_f64 prev_time) in
  (f64_sub adjusted_x t, f64_of_bits (bezier_in key).2).

Definition is_bezier (k : Keyframe) : bool := bool_decide (interpolation k = Bezier).

(** The shared parameter with the handle offsets: [(t, bcp_y, acp_y,
    quad_before)]; both one-handle branches set the flag. *)
Definition curve_parameter (fuel : nat) (before after : Keyframe) (tm : Rational)
    : Outcome (f64 * f64 * f64 * bool) :=
  let b := to_f64 (time before) in
  let a := to_f64 (time after) in
  if is_bezier before && is_bezier after then
    let '(cp1_x, cp1_y) := valid_bezier_out before (time after) in
    let '(cp2_x, cp2_y) := valid_bezier_in after (time before) in
    and_then (cubic_xto_t fuel (to_f64 tm) b (f64_add b cp1_x) (f64_add a cp2_x) a)
      (fun t => Done (t, cp1_y, cp2_y, false))
  else if is_bezier before then
    let '(x, y) := valid_bezier_out before (time after) in
    and_then (quadratic_xto_t fuel (to_f64 tm) b (f64_add b x) a)
      (fun t => Done (t, y, zero, true))
  else
    let '(x, y) := valid_bezier_in after (time before) in
    and_then (quadratic_xto_t fuel (to_f64 tm) b (f64_add a x) a)
      (fun t => Done (t, zero, y, true)).

(** The closure [eval]. *)
Definition eval (both_bezier : bool) (curve : f64 * f64 * f64 * bool) (bv av : f64) : f64 :=
  let '(t, bcp_y, acp_y, quad_before) := curve in
  if both_bezier then cubic_tto_y bv (f64_add bv bcp_y) (f64_add av acp_y) av t
  else if quad_before then quadratic_tto_y bv (f64_add bv bcp_y) av t
  else quadratic_tto_y bv (f64_add av acp_y) av t.

Definition is_vector (t : ValueType) : bool :=
  match t with VT_Color | VT_Vec2 | VT_Vec3 | VT_Vec4 => true | _ => false end.

Definition interpolate (fuel : nat) (before after : Keyframe) (tm : Rational) : Outcome NodeValue :=
  let declared := value_type (value before) in
  let both_bezier := is_bezier before && is_bezier after in
  let one_bezier := is_bezier before || is_bezier after in
  if negb both_bezier && negb one_bezier then
    let period_progress :=
      f64_div (f64_sub (to_f64 tm) (to_f64 (time before)))
        (f64_sub (to_f64 (time after)) (to_f64 (time before))) in
    Done (lerp (value before) (value after) period_progress)
  else
    and_then (curve_parameter fuel before after tm) (fun curve =>
      let ev := eval both_bezier curve in
      if bool_decide (declared = VT_Rational) then
        Done (NV_Rational (from_double (ev (to_double (value before)) (to_double (value after)))))
      else
        and_then (or_panic (split_into_tracks (value before) declared)) (fun b_tracks =>
        and_then (or_panic (split_into_tracks (value after) declared)) (fun a_tracks =>
          let out := zip_with (fun bv av =>
            if is_vector declared then NV_Float (bits_of_f64 (ev (to_double bv) (to_double av)))
            else with_scalar (lerp (value before) (value after) zero) declared
                   (ev (to_double bv) (to_double av))) b_tracks a_tracks in
          Done (combine_tracks out declared)))).

(** [Done None] is the code's [None]. *)
Definition value_at (fuel : nat) (t : KeyframeTrack) (tm : Rational) : Outcome (option NodeValue) :=
  match t !! O, list.last t with
  | Some k0, Some kn =>
      if leb tm (time k0) then Done (Some (value k0))
      else if leb (time kn) tm then Done (Some (value kn))
      else
        match find_bracket t tm with
        | OutOfBounds => Panics
        | NoBracket => Done None
        | Between b a =>
            match t !! b, t !! a with
            | Some before_key, Some after_key =>
                if eqb (time before_key) tm then Done (Some (value before_key))
                else if negb (can_interpolate (value before_key)) ||
                        bool_decide (interpolation before_key = Hold)
                then Done (Some (value before_key))
                else if eqb (time after_key) tm then Done (Some (value after_key))
                else if ltb (time before_key) tm && ltb tm (time after_key)
                then and_then (interpolate fuel before_key after_key tm) (fun v => Done (Some v))
                else Done None
            | _, _ => Panics
            end
        end
  | _, _ => Done None
  end.

(** * The track invariant *)

Definition before (a b : Keyframe) : Prop := ltb (time a) (time b) = true.

(** Times are canonical rationals in strictly increasing order. *)
Definition track_wf (t : KeyframeTrack) : Prop :=
  Forall (fun k => wf (time k)) t /\ StronglySorted before t.

Definition key_at (t : KeyframeTrack) (tm : Rational) : option Keyframe :=
  find (fun k => eqb (time k) tm) t.

Lemma cmp_Lt_ltb a b : cmp a b = Lt <-> ltb a b = true.
Proof. unfold ltb. by destruct (cmp a b). Qed.

Lemma cmp_Gt_ltb a b : wf a -> wf b -> cmp a b = Gt <-> ltb b a = true.
Proof.
  intros Ha Hb. unfold ltb. rewrite (cmp_antisym a b Ha Hb). by destruct (cmp a b).
Qed.

Lemma ltb_trans a b c : wf a -> wf b -> wf c -> ltb a b = true -> ltb b c = true -> ltb a c = true.
Proof.
  intros Ha Hb Hc H1 H2. apply (ltb_leb_trans a b c Ha Hb Hc H1). by apply ltb_leb.
Qed.

Lemma StronglySorted_lookup {A} (R : A -> A -> Prop) l i j x y :
  StronglySorted R l -> (i < j)%nat -> l !! i = Some x -> l !! j = Some y -> R x y.
Proof.
  intros H. revert i j. induction H as [|z l H IH Hz]; intros [|i] [|j] Hij Hx Hy; simplify_eq/=; try lia.
  - rewrite list.Forall_forall in Hz. apply Hz. by apply list_elem_of_lookup_2 in Hy.
  - apply (IH i j); [lia|done..].
Qed.

(** Times increase along a track, so a target splits it. *)
Lemma track_split_by t tm : track_wf t -> wf tm -> split_by (fun k => cmp (time k) tm) t.
Proof.
  intros [Hwf Hs] Htm.
  assert (Hk : forall i k, t !! i = Some k -> wf (time k)) by (intros; by eapply Forall_lookup_1 in Hwf).
  split; intros a b x y Hab Hx Hy Hc;
    pose proof (StronglySorted_lookup _ _ _ _ _ _ Hs Hab Hx Hy) as Hxy;
    pose proof (Hk _ _ Hx); pose proof (Hk _ _ Hy).
  - rewrite cmp_Gt_ltb in Hc |- * by done. by apply (ltb_trans tm (time x) (time y)).
  - rewrite cmp_Lt_ltb in Hc |- *. by apply (ltb_trans (time x) (time y) tm).
Qed.

(** Searching a well-formed track for a time. *)
Lemma track_search t tm :
  track_wf t -> wf tm ->
  match binary_search_by (fun k => cmp (time k) tm) t with
  | inl i => exists l k r, t = l ++ k :: r /\ length l = i /\ time k = tm
  | inr i => exists l r, t = l ++ r /\ length l = i /\
      Forall (fun k => ltb (time k) tm = true) l /\ Forall (fun k => ltb tm (time k) = true) r
  end.
Proof.
  intros Ht Htm.
  pose proof (binary_search_by_spec _ t (track_split_by t tm Ht Htm)) as Hbs.
  destruct Ht as [Hwf Hs].
  assert (Hk : forall i k, t !! i = Some k -> wf (time k)) by (intros; by eapply Forall_lookup_1 in Hwf).
  destruct (binary_search_by _ t) as [i|i].
  - destruct Hbs as (k & Hi & Hc). apply cmp_Eq in Hc; [|by eauto|done].
    exists (take i t), k, (drop (S i) t). rewrite take_drop_middle by done.
    rewrite length_take. apply lookup_lt_Some in Hi. split; [done|]. split; [lia|done].
  - destruct Hbs as (Hi & Hlt & Hgt).
    exists (take i t), (drop i t). rewrite take_drop, length_take.
    split; [done|]. split; [lia|]. split; apply Forall_lookup_2.
    + intros j k Hj. pose proof Hj as Hj'. apply lookup_lt_Some in Hj'. rewrite length_take in Hj'.
      rewrite lookup_take_lt in Hj by lia. apply cmp_Lt_ltb. apply (Hlt j); [lia|done].
    + intros j k Hj. rewrite lookup_drop in Hj. apply cmp_Gt_ltb; [by eauto|done|].
      apply (Hgt (i + j)%nat); [lia|done].
Qed.

(** * Lookups *)

Lemma eqb_true a b : eqb a b = true <-> a = b.
Proof. unfold eqb. by rewrite bool_decide_eq_true. Qed.

Lemma eqb_false a b : eqb a b = false <-> a <> b.
Proof. unfold eqb. by rewrite bool_decide_eq_false. Qed.

Lemma key_at_app l r tm : key_at (l ++ r) tm = match key_at l tm with Some k => Some k | None => key_at r tm end.
Proof.
  unfold key_at, find. induction l as [|k l IH]; simpl; [done|]. by destruct (eqb _ _).
Qed.

Lemma key_at_cons k l tm : key_at (k :: l) tm = if decide (time k = tm) then Some k else key_at l tm.
Proof.
  unfold key_at, find. simpl. destruct (eqb (time k) tm) eqn:E.
  - apply eqb_true in E. by rewrite decide_True.
  - apply eqb_false in E. by rewrite decide_False.
Qed.

Lemma key_at_absent l tm : Forall (fun k => time k <> tm) l -> key_at l tm = None.
Proof. induction 1; [done|]. rewrite key_at_cons. by rewrite decide_False. Qed.

Lemma track_wf_app l r :
  track_wf (l ++ r) <-> track_wf l /\ track_wf r /\ (forall x y, x ∈ l -> y ∈ r -> before x y).
Proof.
  unfold track_wf. rewrite Forall_app, StronglySorted_app. tauto.
Qed.

Lemma track_wf_cons k l : track_wf (k :: l) <-> wf (time k) /\ track_wf l /\ Forall (before k) l.
Proof.
  unfold track_wf. rewrite list.Forall_cons, StronglySorted_cons. tauto.
Qed.

Lemma before_ne x y : wf (time x) -> before x y -> time x <> time y.
Proof. unfold before. intros Hx H E. rewrite <- E, ltb_irrefl in H by done. done. Qed.

(** In a well-formed track the key in the middle is the only one at its time. *)
Lemma key_at_middle l k r tm :
  track_wf (l ++ k :: r) ->
  key_at (l ++ k :: r) tm = if decide (time k = tm) then Some k
    else match key_at l tm with Some k => Some k | None => key_at r tm end.
Proof.
  intros H. rewrite key_at_app, key_at_cons. case_decide as Hd; [|done].
  rewrite key_at_absent; [done|]. apply track_wf_app in H as ((Hl & _) & _ & Hb).
  rewrite list.Forall_forall in Hl |- *. intros x Hx. rewrite <- Hd.
  apply before_ne; [by apply Hl|]. apply Hb; [done|]. apply elem_of_cons. by left.
Qed.

Lemma insert_middle {A} (l : list A) x y r : <[length l := y]> (l ++ x :: r) = l ++ y :: r.
Proof. rewrite insert_app_r_alt by done. by rewrite Nat.sub_diag. Qed.

Lemma vec_insert_middle {A} (l : list A) y r : vec_insert (length l) y (l ++ r) = l ++ y :: r.
Proof. unfold vec_insert. by rewrite take_app_length, drop_app_length. Qed.

Lemma track_wf_middle l k r :
  track_wf (l ++ k :: r) <->
  track_wf l /\ track_wf r /\ wf (time k) /\ Forall (fun x => before x k) l /\ Forall (before k) r /\
  (forall x y, x ∈ l -> y ∈ r -> before x y).
Proof.
  rewrite track_wf_app, track_wf_cons, (list.Forall_forall (fun x => before x k)).
  setoid_rewrite elem_of_cons. split.
  - intros (Hl & (Hk & Hr & Hkr) & H). repeat split; try tauto; try apply Hl; try apply Hr; auto.
  - intros (Hl & Hr & Hk & Hlk & Hkr & H). split; [done|]. split; [done|].
    intros x y Hx [->|Hy]; auto.
Qed.

(** Inserting between two runs that surround the new time. *)
Lemma track_wf_insert l key r :
  track_wf (l ++ r) -> wf (time key) ->
  Forall (fun k => before k key) l -> Forall (before key) r -> track_wf (l ++ key :: r).
Proof. rewrite track_wf_middle, track_wf_app. tauto. Qed.

(** Replacing a key by one of the same time. *)
Lemma track_wf_replace l k key r :
  track_wf (l ++ k :: r) -> time key = time k -> track_wf (l ++ key :: r).
Proof. rewrite !track_wf_middle. unfold before. by intros H ->. Qed.

Lemma track_wf_delete l k r : track_wf (l ++ k :: r) -> track_wf (l ++ r).
Proof. rewrite track_wf_middle, track_wf_app. tauto. Qed.

(** C16: a keyframe track stays strictly sorted by time under [set_key] and
    [remove_key], and behaves as a finite map from times to keys: [set_key]
    binds its key's time and nothing else, [remove_key] unbinds exactly its
    time and reports whether it was bound. *)
Theorem keyframe_track_is_sorted_map (t : KeyframeTrack) (key : Keyframe) (tm : Rational)
    (Ht : track_wf t) (Hk : wf (time key)) (Htm : wf tm) :
  (track_wf (set_key t key) /\
   forall u, key_at (set_key t key) u = if decide (time key = u) then Some key else key_at t u) /\
  (track_wf (remove_key t tm).1 /\
   (forall u, key_at (remove_key t tm).1 u = if decide (tm = u) then None else key_at t u) /\
   ((remove_key t tm).2 = true <-> is_Some (key_at t tm))).
Proof.
  split.
  - pose proof (track_search t (time key) Ht Hk) as Hs. unfold set_key.
    destruct (binary_search_by _ t) as [i|i].
    + destruct Hs as (l & k & r & -> & <- & E). rewrite insert_middle.
      pose proof (track_wf_replace _ _ key _ Ht (eq_sym E)) as Ht'. split; [done|]. intros u.
      rewrite !key_at_middle by done. rewrite E. by case_decide.
    + destruct Hs as (l & r & -> & <- & Hl & Hr). rewrite vec_insert_middle.
      pose proof (track_wf_insert _ key _ Ht Hk Hl Hr) as Ht'. split; [done|]. intros u.
      rewrite key_at_middle by done. case_decide; [done|]. by rewrite key_at_app.
  - pose proof (track_search t tm Ht Htm) as Hs. unfold remove_key.
    destruct (binary_search_by _ t) as [i|i]; simpl.
    + destruct Hs as (l & k & r & -> & <- & E).
      rewrite delete_middle.
      split; [by eapply track_wf_delete|]. split.
      * intros u. case_decide as Hu.
        -- subst u. apply track_wf_middle in Ht as ((Hl & _) & (Hr & _) & Hwk & Hb & Ha & _).
           rewrite <- E. rewrite key_at_app, !key_at_absent; [done| |].
           ++ rewrite list.Forall_forall in Hr, Ha |- *. intros x Hx E'.
              specialize (Ha x Hx). by apply before_ne in Ha.
           ++ rewrite list.Forall_forall in Hl, Hb |- *. intros x Hx.
              apply before_ne; [by apply Hl|by apply Hb].
        -- rewrite key_at_middle by done. rewrite key_at_app, decide_False by congruence. done.
      * rewrite key_at_middle by done. rewrite decide_True by done. split; [by eexists|done].
    + destruct Hs as (l & r & -> & <- & Hl & Hr). split; [done|].
      assert (Hn : key_at (l ++ r) tm = None).
      { rewrite key_at_app, !key_at_absent; [done| |].
        - eapply Forall_impl; [exact Hr|]. intros x Hx E. simpl in Hx. rewrite E, ltb_irrefl in Hx; done.
        - eapply Forall_impl; [exact Hl|]. intros x Hx E. simpl in Hx. rewrite E, ltb_irrefl in Hx; done. }
      split.
      * intros u. case_decide; [by subst|done].
      * rewrite Hn. split; [done|]. by intros [? ?].
Qed.

(** * The bracket search *)

Lemma track_time_wf t i k : track_wf t -> t !! i = Some k -> wf (time k).
Proof. intros [H _] Hi. by eapply Forall_lookup_1 in H. Qed.

Lemma track_time_lt t i j x y :
  track_wf t -> (i < j)%nat -> t !! i = Some x -> t !! j = Some y -> ltb (time x) (time y) = true.
Proof. intros [_ H] Hij Hx Hy. exact (StronglySorted_lookup before t i j x y H Hij Hx Hy). Qed.

(** Everything up to a key at or before a time is; everything from a key
    after it is. *)
Lemma track_upto_leb t i j x y tm :
  track_wf t -> wf tm -> (i <= j)%nat -> t !! i = Some x -> t !! j = Some y ->
  leb (time y) tm = true -> leb (time x) tm = true.
Proof.
  intros Ht Htm Hij Hx Hy H. destruct (decide (i = j)) as [->|]; [by simplify_eq|].
  apply ltb_leb, (ltb_leb_trans _ (time y)); [by eapply track_time_wf..|done| |done].
  apply (track_time_lt t i j); [done|lia|done..].
Qed.

Lemma track_from_ltb t i j x y tm :
  track_wf t -> wf tm -> (i <= j)%nat -> t !! i = Some x -> t !! j = Some y ->
  ltb tm (time x) = true -> ltb tm (time y) = true.
Proof.
  intros Ht Htm Hij Hx Hy H. destruct (decide (i = j)) as [->|]; [by simplify_eq|].
  apply (ltb_trans _ (time x)); [done|by eapply track_time_wf..|done|].
  apply (track_time_lt t i j); [done|lia|done..].
Qed.

(** The adjacent pair around a time strictly inside the track. *)
Lemma bracket_exists t tm k0 kn :
  track_wf t -> wf tm -> t !! O = Some k0 -> list.last t = Some kn ->
  leb (time k0) tm = true -> ltb tm (time kn) = true ->
  exists l b a r, t = l ++ b :: a :: r /\ leb (time b) tm = true /\ ltb tm (time a) = true.
Proof.
  intros Hwf Htm. revert k0. induction t as [|k t IH]; intros k0 H0 Hl H1 H2; simplify_eq/=.
  destruct t as [|a t]; simplify_eq/=.
  - rewrite leb_negb_ltb in H1 by (apply track_wf_cons in Hwf; tauto). by rewrite H2 in H1.
  - apply track_wf_cons in Hwf as (Hk & Hwf & _).
    assert (wf (time a)) by (apply track_wf_cons in Hwf; tauto).
    destruct (ltb tm (time a)) eqn:E.
    + by exists [], k0, a, t.
    + destruct (IH Hwf a) as (l & b & a' & r & -> & ? & ?); [done|done| |done|].
      * rewrite leb_negb_ltb by done. by rewrite E.
      * by exists (k0 :: l), b, a', r.
Qed.

Lemma find_bracket_spec l b a r tm :
  let t := l ++ b :: a :: r in
  track_wf t -> wf tm -> Z.of_nat (length t) < 2 ^ 63 ->
  leb (time b) tm = true -> ltb tm (time a) = true ->
  find_bracket t tm = Between (length l) (S (length l)).
Proof.
  intros t Ht Htm Hlen Hb Ha. unfold find_bracket.
  assert (Hl : t !! length l = Some b) by (by apply list_lookup_middle).
  assert (Hl' : t !! S (length l) = Some a).
  { subst t. rewrite cons_middle, app_assoc.
    apply list_lookup_middle. rewrite length_app. simpl. lia. }
  assert (Hn : (S (length l) < length t)%nat) by (by eapply lookup_lt_Some).
  assert (Hlow : forall i k, (i <= length l)%nat -> t !! i = Some k -> leb (time k) tm = true)
    by (intros i k Hi Hik; by apply (track_upto_leb t i (length l) k b)).
  assert (Hhigh : forall i k, (length l < i)%nat -> t !! i = Some k -> ltb tm (time k) = true)
    by (intros i k Hi Hik; by apply (track_from_ltb t (S (length l)) i a k)).
  destruct (while_fuel_spec (bracket_step t tm)
    (fun s => 0 <= s.1 <= Z.of_nat (length l) /\ Z.of_nat (length l) <= s.2 < Z.of_nat (length t))
    (fun x => x = Between (length l) (S (length l)))
    (fun s => Z.to_nat (s.2 - s.1 + 1))) with (fuel := S (length t)) (s := (0, Z.of_nat (length t) - 1))
    as (x & -> & ->); [| | |done].
  - intros [low high] [H1 H2]. cbn [fst snd] in *. unfold bracket_step.
    rewrite (proj2 (Z.leb_le _ _)) by lia. set (mid := low + (high - low) / 2).
    assert (Hmid : low <= mid <= high /\ (low < high -> mid < high)).
    { subst mid. split; [split|]; [apply Z.le_sub_le_add_l; rewrite Z.sub_diag; apply Z.div_pos; lia| |];
        [pose proof (Z.div_le_upper_bound (high - low) 2 (high - low))|
         intros; pose proof (Z.div_lt_upper_bound (high - low) 2 (high - low))]; lia. }
    destruct (lookup_lt_is_Some_2 t (Z.to_nat mid)) as [mk Hmk]; [lia|].
    destruct (lookup_lt_is_Some_2 t (Z.to_nat (mid + 1))) as [nk Hnk]; [lia|].
    rewrite Hmk, Hnk.
    destruct (decide (mid <= Z.of_nat (length l))) as [Hle|Hgt].
    + rewrite (Hlow (Z.to_nat mid) mk ltac:(lia) Hmk). simpl.
      destruct (decide (mid = Z.of_nat (length l))) as [Heq|Hne].
      * rewrite (Hhigh (Z.to_nat (mid + 1)) nk ltac:(lia) Hnk). f_equal; lia.
      * pose proof (Hlow (Z.to_nat (mid + 1)) nk ltac:(lia) Hnk) as Hnk'.
        pose proof (track_time_wf _ _ _ Ht Hmk). pose proof (track_time_wf _ _ _ Ht Hnk).
        assert (ltb tm (time nk) = false) as ->.
        { rewrite leb_negb_ltb in Hnk' by done. by apply negb_true_iff. }
        assert (ltb (time mk) tm = true) as ->.
        { apply (ltb_leb_trans _ (time nk)); [done..| |done].
          apply (track_time_lt t (Z.to_nat mid) (Z.to_nat (mid + 1))); [done|lia|done..]. }
        split; [|cbn [fst snd]; lia]. cbn [fst snd]. lia.
    + pose proof (Hhigh (Z.to_nat mid) mk ltac:(lia) Hmk) as Hmk'.
      pose proof (track_time_wf _ _ _ Ht Hmk).
      assert (leb (time mk) tm = false) as Hf.
      { rewrite leb_negb_ltb by done. by rewrite Hmk'. }
      rewrite Hf. assert (ltb (time mk) tm = false) as ->.
      { destruct (ltb (time mk) tm) eqn:E; [|done]. apply ltb_leb in E. congruence. }
      simpl. rewrite usize_id by lia. split; lia.
  - cbn [fst snd]. lia.
  - cbn [fst snd]. lia.
Qed.

Lemma not_leb_ltb a b : wf a -> wf b -> leb a b = true -> ltb b a = true -> False.
Proof. intros Ha Hb H1 H2. rewrite leb_negb_ltb, H2 in H1 by done. done. Qed.

Lemma leb_false_ltb a b : wf a -> wf b -> leb a b = false -> ltb b a = true.
Proof. intros Ha Hb. rewrite leb_negb_ltb by done. by rewrite negb_false_iff. Qed.

Lemma key_at_lookup t tm k : key_at t tm = Some k -> exists i, t !! i = Some k /\ time k = tm.
Proof.
  unfold key_at, find. intros H. apply List.find_some in H as [Hin E].
  apply list_elem_of_In, list_elem_of_lookup in Hin as [i Hi]. exists i. split; [done|]. by apply eqb_true.
Qed.

(** What the doc of [value_at] promises of its result. *)
Definition value_spec (fuel : nat) (t : KeyframeTrack) (tm : Rational) (v : Outcome NodeValue) : Prop :=
  (forall k, key_at t tm = Some k -> v = Done (value k)) /\
  (forall k, t !! O = Some k -> ltb tm (time k) = true -> v = Done (value k)) /\
  (forall k, list.last t = Some k -> ltb (time k) tm = true -> v = Done (value k)) /\
  (forall l b a r, t = l ++ b :: a :: r -> ltb (time b) tm = true -> ltb tm (time a) = true ->
     v = if negb (can_interpolate (value b)) || bool_decide (interpolation b = Hold)
         then Done (value b) else interpolate fuel b a tm).

(** The time falls between two neighbours whose values are interpolated. *)
Definition segment (t : KeyframeTrack) (tm : Rational) (b a : Keyframe) : Prop :=
  (exists l r, t = l ++ b :: a :: r /\ ltb (time b) tm = true /\ ltb tm (time a) = true) /\
  can_interpolate (value b) = true /\ interpolation b <> Hold.

(** How far [tm] lies between the keys, as the linear branch computes it. *)
Definition linear_progress (b a : Keyframe) (tm : Rational) : f64 :=
  f64_div (f64_sub (to_f64 tm) (to_f64 (time b))) (f64_sub (to_f64 (time a)) (to_f64 (time b))).

Section value_at_spec.
Context (fuel : nat).
Context (t : KeyframeTrack) (tm : Rational) (Ht : track_wf t) (Htm : wf tm).
Context (k0 kn : Keyframe) (H0 : t !! O = Some k0) (Hn : list.last t = Some kn).

Lemma last_index : t !! Nat.pred (length t) = Some kn.
Proof. by rewrite <- last_lookup. Qed.

(** At or before the first key. *)
Lemma value_spec_front : leb tm (time k0) = true -> value_spec fuel t tm (Done (value k0)).
Proof.
  intros Hle. assert (Hk0 : wf (time k0)) by (by eapply track_time_wf).
  assert (Hno : forall i k, t !! i = Some k -> ltb (time k) tm = true -> False).
  { intros i k Hi Hlt. assert (Hk : wf (time k)) by (by eapply track_time_wf).
    apply (not_leb_ltb tm (time k0)); [done..|].
    destruct i as [|i]; [by simplify_eq|].
    apply (ltb_trans _ (time k)); [done..| |done].
    apply (track_time_lt t O (S i)); [done|lia|done..]. }
  split; [|split; [|split]].
  - intros k Hk. apply key_at_lookup in Hk as (i & Hi & E). destruct i as [|i]; [by simplify_eq|].
    exfalso. apply (not_leb_ltb tm (time k0)); [done..|]. rewrite <- E.
    apply (track_time_lt t O (S i)); [done|lia|done..].
  - intros k Hk _. by simplify_eq.
  - intros k Hk Hlt. rewrite last_lookup in Hk. by destruct (Hno _ _ Hk Hlt).
  - intros l b a r -> Hlt. destruct (Hno (length l) b); [by apply list_lookup_middle|done].
Qed.

(** At or after the last key. *)
Lemma value_spec_back :
  leb tm (time k0) = false -> leb (time kn) tm = true -> value_spec fuel t tm (Done (value kn)).
Proof.
  intros Hf Hle. pose proof last_index as Hl.
  assert (Hkn : wf (time kn)) by (by eapply track_time_wf).
  assert (Hk0 : wf (time k0)) by (by eapply track_time_wf).
  apply leb_false_ltb in Hf; [|done..].
  assert (Hno : forall i k, t !! i = Some k -> ltb tm (time k) = true -> False).
  { intros i k Hi Hlt. pose proof (lookup_lt_Some _ _ _ Hi).
    apply (not_leb_ltb (time kn) tm); [done..|].
    apply (track_from_ltb t i (Nat.pred (length t)) k kn); [done..|lia|done|done|done]. }
  split; [|split; [|split]].
  - intros k Hk. apply key_at_lookup in Hk as (i & Hi & E). pose proof (lookup_lt_Some _ _ _ Hi).
    destruct (decide (i = Nat.pred (length t))) as [->|]; [congruence|].
    exfalso. apply (not_leb_ltb (time kn) tm); [done..|]. rewrite <- E.
    apply (track_time_lt t i (Nat.pred (length t))); [done|lia|done..].
  - intros k Hk Hlt. by destruct (Hno _ _ Hk Hlt).
  - intros k Hk _. congruence.
  - intros l b a r E _ Hlt. destruct (Hno (S (length l)) a); [|done]. subst t.
    rewrite cons_middle, app_assoc. apply list_lookup_middle. rewrite length_app. simpl. lia.
Qed.

(** Strictly inside, between the neighbours [b] and [a]. *)
Lemma value_spec_inside l b a r v :
  t = l ++ b :: a :: r ->
  leb tm (time k0) = false -> leb (time kn) tm = false ->
  leb (time b) tm = true -> ltb tm (time a) = true ->
  (time b = tm -> v = Done (value b)) ->
  (time b <> tm -> v = if negb (can_interpolate (value b)) || bool_decide (interpolation b = Hold)
                       then Done (value b) else interpolate fuel b a tm) ->
  value_spec fuel t tm v.
Proof.
  intros E Hf Hg Hb Ha Heq Hne. pose proof last_index as Hl.
  assert (Hlb : t !! length l = Some b) by (subst t; by apply list_lookup_middle).
  assert (Hla : t !! S (length l) = Some a).
  { subst t. rewrite cons_middle, app_assoc. apply list_lookup_middle. rewrite length_app. simpl. lia. }
  assert (Hwb : wf (time b)) by (by eapply track_time_wf).
  assert (Hwa : wf (time a)) by (by eapply track_time_wf).
  split; [|split; [|split]].
  - intros k Hk. apply key_at_lookup in Hk as (i & Hi & Ek).
    destruct (Nat.lt_trichotomy i (length l)) as [Hlt|[->|Hgt]]; [| |].
    + exfalso. apply (not_leb_ltb (time b) tm); [done..|]. rewrite <- Ek.
      by apply (track_time_lt t i (length l)).
    + simplify_eq. by apply Heq.
    + exfalso. pose proof (track_from_ltb t (S (length l)) i a k tm Ht Htm ltac:(lia) Hla Hi Ha) as Hlt.
      rewrite Ek, ltb_irrefl in Hlt by done. done.
  - intros k Hk Hlt. simplify_eq. apply ltb_leb in Hlt. congruence.
  - intros k Hk Hlt. assert (k = kn) as -> by congruence. apply ltb_leb in Hlt. congruence.
  - intros l' b' a' r' E' Hb' Ha'.
    assert (Hlb' : t !! length l' = Some b') by (rewrite E'; by apply list_lookup_middle).
    assert (Hla' : t !! S (length l') = Some a').
    { rewrite E', cons_middle, app_assoc. apply list_lookup_middle. rewrite length_app. simpl. lia. }
    destruct (Nat.lt_trichotomy (length l') (length l)) as [Hlt|[Hll|Hgt]].
    + exfalso. pose proof (track_time_wf _ _ _ Ht Hla'). apply (not_leb_ltb (time a') tm); [done..| |done].
      by apply (track_upto_leb t (S (length l')) (length l) a' b).
    + rewrite Hll in Hlb', Hla'. simplify_eq. apply Hne. intros Eb. rewrite Eb, ltb_irrefl in Hb' by done. done.
    + exfalso. pose proof (track_time_wf _ _ _ Ht Hlb').
      apply (not_leb_ltb (time b') tm); [done..|by apply ltb_leb|].
      by apply (track_from_ltb t (S (length l)) (length l') a b').
Qed.
End value_at_spec.

(** The search ends and settles every case but the interpolation. *)
Lemma value_at_search (fuel : nat) (t : KeyframeTrack) (tm : Rational) :
  track_wf t -> wf tm -> t <> [] -> Z.of_nat (length t) < 2 ^ 63 ->
  exists o, value_at fuel t tm = and_then o (fun v => Done (Some v)) /\ value_spec fuel t tm o /\
    ((exists v, o = Done v) \/
     (exists b a, o = interpolate fuel b a tm /\ segment t tm b a)).
Proof.
  intros Ht Htm Hne Hlen.
  destruct (t !! O) as [k0|] eqn:H0; [|by destruct t].
  destruct (list.last t) as [kn|] eqn:Hn; [|by apply last_None in Hn].
  unfold value_at. rewrite H0, Hn.
  assert (wf (time k0)) by (by eapply track_time_wf).
  assert (wf (time kn)) by (rewrite last_lookup in Hn; by eapply track_time_wf).
  destruct (leb tm (time k0)) eqn:E1.
  { exists (Done (value k0)). split; [done|]. split; [by eapply value_spec_front|eauto]. }
  destruct (leb (time kn) tm) eqn:E2.
  { exists (Done (value kn)). split; [done|]. split; [by eapply value_spec_back|eauto]. }
  destruct (bracket_exists t tm k0 kn) as (l & b & a & r & Et & Hb & Ha); [done..| | |].
  { by apply ltb_leb, leb_false_ltb. }
  { by apply leb_false_ltb. }
  assert (Hlb : t !! length l = Some b) by (subst t; by apply list_lookup_middle).
  assert (Hla : t !! S (length l) = Some a).
  { subst t. rewrite cons_middle, app_assoc. apply list_lookup_middle. rewrite length_app. simpl. lia. }
  assert (Hbr : find_bracket t tm = Between (length l) (S (length l))).
  { subst t. by apply find_bracket_spec. }
  rewrite Hbr, Hlb, Hla. cbv iota.
  assert (Hba : wf (time b)) by (by eapply track_time_wf).
  assert (Hwa : wf (time a)) by (by eapply track_time_wf).
  pose proof (value_spec_inside fuel t tm Ht Htm k0 kn H0 Hn l b a r) as Hin.
  destruct (eqb (time b) tm) eqn:Eb.
  { apply eqb_true in Eb. exists (Done (value b)). split; [done|]. split; [by apply Hin|eauto]. }
  apply eqb_false in Eb.
  destruct (negb _ || _) eqn:Ei.
  { exists (Done (value b)). split; [done|]. split; [|eauto]. apply Hin; rewrite ?Ei; done. }
  assert (eqb (time a) tm = false) as ->.
  { apply eqb_false. intros Ea. rewrite Ea, ltb_irrefl in Ha by done. done. }
  assert (Hbt : ltb (time b) tm = true).
  { rewrite ltb_negb_leb by done. apply negb_true_iff. destruct (leb tm (time b)) eqn:E; [|done].
    by destruct Eb; apply leb_antisym. }
  rewrite Hbt, Ha. exists (interpolate fuel b a tm). split; [done|]. split; [apply Hin; rewrite ?Ei; done|].
  right. exists b, a. split; [done|]. apply orb_false_iff in Ei as [Ei Eh].
  split; [by exists l, r|]. split; [by apply negb_false_iff|]. by apply bool_decide_eq_false in Eh.
Qed.

(** * The interpolation's outcome *)

Lemma and_then_Done {A B} (x : Outcome A) (k : A -> Outcome B) r :
  and_then x k = Done r -> exists a, x = Done a /\ k a = Done r.
Proof. destruct x; simpl; [eauto|done|done]. Qed.

Lemma SFltb_leb a b : SFltb a b = true -> SFleb a b = true.
Proof. unfold SFltb, SFleb. by destruct (SFcompare a b) as [[]|]. Qed.

Lemma SFleb_refl a : f64_is_nan a = false -> SFleb a a = true.
Proof.
  unfold SFleb. destruct a as [s|[]| |[] m e]; simpl; try done; intros _;
    by rewrite Z.compare_refl, Pos.compare_cont_refl.
Qed.

(** [clamp] between the minimum and the maximum of two numbers passes its
    assertion unless both are NaN. *)
Lemma clamp_min_max x a d : f64_is_nan a && f64_is_nan d = false ->
  exists y, f64_clamp x (f64_min a d) (f64_max a d) = Done y.
Proof.
  intros H. assert (SFleb (f64_min a d) (f64_max a d) = true) as E.
  { unfold f64_min, f64_max.
    destruct (f64_is_nan a) eqn:Ea; [by apply SFleb_refl|].
    destruct (f64_is_nan d) eqn:Ed; [by apply SFleb_refl|].
    destruct (SFltb d a) eqn:E1, (SFltb a d) eqn:E2; auto using SFltb_leb, SFleb_refl. }
  unfold f64_clamp. rewrite E. eauto.
Qed.

Lemma to_f64_not_nan r : wf r -> den r <> 0 -> f64_is_nan (to_f64 r) = false.
Proof.
  intros [[_ ?]|(Hd & Hn & _)] Hz; [done|]. rewrite REDUCE_MAX_val in *.
  unfold to_f64. destruct (Z.eqb_spec (den r) 0); [done|].
  destruct (Z.eq_dec (num r) 0) as [->|Hnz].
  - destruct (f64_of_int_exact (den r)) as (m & e & -> & _); [lia..|done].
  - destruct (f64_quotient (num r) (den r)) as (m & e & -> & _); [lia..|done].
Qed.

(** Of two different times at most one is the 0/0 sentinel. *)
Lemma times_not_both_nan a b : wf a -> wf b -> a <> b ->
  f64_is_nan (to_f64 a) && f64_is_nan (to_f64 b) = false.
Proof.
  intros Ha Hb Hne. apply andb_false_iff.
  destruct (Z.eq_dec (den a) 0) as [Ea|Ea]; [|left; by apply to_f64_not_nan].
  destruct (Z.eq_dec (den b) 0) as [Eb|Eb]; [|right; by apply to_f64_not_nan].
  destruct Hne, a as [na da], b as [nb db]. cbn [num den] in *. subst.
  destruct Ha as [[? _]|[? _]], Hb as [[? _]|[? _]]; cbn [num den] in *; try lia. by subst.
Qed.

Lemma calculate_not_panics fuel c x a b d e : calculate_t_from_x fuel c x a b d e <> Panics.
Proof. unfold calculate_t_from_x. by destruct (while_fuel _ _ _). Qed.

Lemma curve_parameter_not_panics fuel b a tm :
  wf (time b) -> wf (time a) -> time b <> time a -> curve_parameter fuel b a tm <> Panics.
Proof.
  intros Hb Ha Hne. unfold curve_parameter, cubic_xto_t, quadratic_xto_t.
  destruct (clamp_min_max (to_f64 tm) (to_f64 (time b)) (to_f64 (time a))) as [y Ey];
    [by apply times_not_both_nan|].
  destruct (_ && _); [|destruct (is_bezier b)].
  - destruct (valid_bezier_out b (time a)), (valid_bezier_in a (time b)). rewrite Ey. cbn [and_then].
    pose proof (calculate_not_panics fuel true y (to_f64 (time b))) as Hc.
    by destruct (calculate_t_from_x _ _ _ _ _ _ _) eqn:E; [|destruct (Hc _ _ _ E)|].
  - destruct (valid_bezier_out b (time a)). rewrite Ey. cbn [and_then].
    pose proof (calculate_not_panics fuel false y (to_f64 (time b))) as Hc.
    by destruct (calculate_t_from_x _ _ _ _ _ _ _) eqn:E; [|destruct (Hc _ _ _ E)|].
  - destruct (valid_bezier_in a (time b)). rewrite Ey. cbn [and_then].
    pose proof (calculate_not_panics fuel false y (to_f64 (time b))) as Hc.
    by destruct (calculate_t_from_x _ _ _ _ _ _ _) eqn:E; [|destruct (Hc _ _ _ E)|].
Qed.

Lemma lerp_type v w t : value_type v = value_type w -> value_type (lerp v w t) = value_type v.
Proof. by destruct v, w. Qed.

(** Values of one type: the tracks exist and recombine to that type. *)
Lemma tracks_combine (f : NodeValue -> NodeValue -> NodeValue) v w :
  can_interpolate v = true -> value_type v = value_type w -> value_type v <> VT_Rational ->
  (is_vector (value_type v) = false -> forall x y, value_type (f x y) = value_type v) ->
  exists bs ws, split_into_tracks v (value_type v) = Some bs /\
    split_into_tracks w (value_type v) = Some ws /\
    value_type (combine_tracks (zip_with f bs ws) (value_type v)) = value_type v.
Proof.
  intros Hc Hvw Hr Hf.
  destruct v; try discriminate Hc; try (by destruct Hr); destruct w; try discriminate Hvw;
    do 2 eexists; (split; [reflexivity|]); (split; [reflexivity|]); cbn; try done; by apply Hf.
Qed.

Lemma segment_times t tm b a : track_wf t -> wf tm -> segment t tm b a ->
  wf (time b) /\ wf (time a) /\ time b <> time a.
Proof.
  intros Ht Htm ((l & r & Et & H1 & H2) & _).
  assert (Hlb : t !! length l = Some b) by (subst t; by apply list_lookup_middle).
  assert (Hla : t !! S (length l) = Some a).
  { subst t. rewrite cons_middle, app_assoc. apply list_lookup_middle. rewrite length_app. simpl. lia. }
  assert (Hb : wf (time b)) by (by eapply track_time_wf).
  assert (Ha : wf (time a)) by (by eapply track_time_wf).
  split; [done|]. split; [done|]. intros E. rewrite E in H1.
  apply (not_leb_ltb (time a) tm); [done..|by apply ltb_leb|done].
Qed.

(** What one interpolated segment can do. *)
Lemma interpolate_outcome fuel b a tm :
  wf (time b) -> wf (time a) -> time b <> time a -> can_interpolate (value b) = true ->
  (is_bezier b || is_bezier a = false ->
     interpolate fuel b a tm = Done (lerp (value b) (value a) (linear_progress b a tm))) /\
  (interpolate fuel b a tm = OutOfFuel ->
     is_bezier b || is_bezier a = true /\ curve_parameter fuel b a tm = OutOfFuel) /\
  (value_type (value b) = value_type (value a) -> interpolate fuel b a tm <> Panics /\
     forall v, interpolate fuel b a tm = Done v -> value_type v = value_type (value b)) /\
  (interpolate fuel b a tm = Panics -> is_bezier b || is_bezier a = true).
Proof.
  intros Hb Ha Hne Hc. unfold interpolate.
  pose proof (curve_parameter_not_panics fuel b a tm Hb Ha Hne) as Hnp.
  destruct (is_bezier b || is_bezier a) eqn:Eo; rewrite ?andb_true_r, ?andb_false_r.
  2:{ apply orb_false_iff in Eo as [-> ->]. cbn [andb negb]. split; [done|]. split; [done|].
      split; [|done]. intros Ht. split; [done|]. intros v [= <-]. by apply lerp_type. }
  split; [done|]. destruct (curve_parameter fuel b a tm) as [curve| |] eqn:Ep; [|done|].
  2:{ cbn [and_then]. split; [done|]. by split. }
  cbn [and_then]. case_bool_decide as Er.
  { split; [done|]. split; [|done]. intros _. split; [done|]. by intros v [= <-]. }
  split.
  { destruct (split_into_tracks (value b) _); [|done].
    by destruct (split_into_tracks (value a) (value_type (value b))). }
  split; [|done]. intros Ht.
  destruct (tracks_combine (fun bv av =>
      if is_vector (value_type (value b))
      then NV_Float (bits_of_f64 (eval (is_bezier b && is_bezier a) curve (to_double bv) (to_double av)))
      else with_scalar (lerp (value b) (value a) zero) (value_type (value b))
             (eval (is_bezier b && is_bezier a) curve (to_double bv) (to_double av)))
    (value b) (value a)) as (bs & ws & E1 & E2 & E3); [done..| |].
  - intros Hs x y. rewrite Hs. unfold can_interpolate in Hc.
    by destruct (value_type (value b)).
  - rewrite E1, E2. cbn [or_panic and_then]. split; [done|]. by intros v [= <-].
Qed.

(** More fuel does not change a result. *)
Lemma interpolate_fuel fuel fuel' b a tm v : (fuel <= fuel')%nat ->
  interpolate fuel b a tm = Done v -> interpolate fuel' b a tm = Done v.
Proof.
  intros Hle. unfold interpolate. destruct (_ && _); [done|]. intros H.
  apply and_then_Done in H as (curve & Hc & Hk).
  assert (curve_parameter fuel' b a tm = Done curve) as ->; [|done].
  assert (Hcalc : forall c x u w y z r, calculate_t_from_x fuel c x u w y z = Done r ->
    calculate_t_from_x fuel' c x u w y z = Done r).
  { intros c x u w y z r. unfold calculate_t_from_x.
    destruct (while_fuel fuel _ _) as [r'|] eqn:E; [|done]. intros [= ->].
    by rewrite (while_fuel_mono _ _ _ _ _ Hle E). }
  revert Hc. unfold curve_parameter, cubic_xto_t, quadratic_xto_t.
  destruct (_ && _); [|destruct (is_bezier b)].
  - destruct (valid_bezier_out b (time a)), (valid_bezier_in a (time b)).
    destruct (f64_clamp _ _ _); [|done..]. cbn [and_then]. intros H.
    apply and_then_Done in H as (r & Hr & E). by rewrite (Hcalc _ _ _ _ _ _ _ Hr).
  - destruct (valid_bezier_out b (time a)).
    destruct (f64_clamp _ _ _); [|done..]. cbn [and_then]. intros H.
    apply and_then_Done in H as (r & Hr & E). by rewrite (Hcalc _ _ _ _ _ _ _ Hr).
  - destruct (valid_bezier_in a (time b)).
    destruct (f64_clamp _ _ _); [|done..]. cbn [and_then]. intros H.
    apply and_then_Done in H as (r & Hr & E). by rewrite (Hcalc _ _ _ _ _ _ _ Hr).
Qed.

Lemma value_at_fuel fuel fuel' t tm v : (fuel <= fuel')%nat ->
  value_at fuel t tm = Done (Some v) -> value_at fuel' t tm = Done (Some v).
Proof.
  intros Hle. unfold value_at.
  repeat case_match; try done.
  intros Hv. apply and_then_Done in Hv as (w & Hw & [= ->]).
  by rewrite (interpolate_fuel _ _ _ _ _ _ Hle Hw).
Qed.

(** C17: on a well-formed, non-empty track the search of [value_at] ends and
    selects what the doc says: the first key's value before it, the last key's
    after it, the exact value at every key time, and between two neighbours
    the previous key's value where it holds or cannot be interpolated.
    Otherwise two linear keys yield [lerp] at the elapsed share of the
    segment, and a segment with a Bezier key yields a value of the keys' type
    whenever the keys agree on it and the bisection ends: the only panic is a
    Bezier segment between values of different types, the only way not to
    return is a bisection that does not end, and a returned value does not
    depend on the fuel. *)
Theorem value_at_total (fuel : nat) (t : KeyframeTrack) (tm : Rational)
    (Ht : track_wf t) (Htm : wf tm) (Hne : t <> []) (Hlen : Z.of_nat (length t) < 2 ^ 63) :
  exists o, value_at fuel t tm = and_then o (fun v => Done (Some v)) /\ value_spec fuel t tm o /\
    (forall b a, segment t tm b a ->
       (is_bezier b || is_bezier a = false ->
          o = Done (lerp (value b) (value a) (linear_progress b a tm))) /\
       (value_type (value b) = value_type (value a) ->
          forall v, o = Done v -> value_type v = value_type (value b))) /\
    (o = Panics -> exists b a, segment t tm b a /\ is_bezier b || is_bezier a = true /\
       value_type (value b) <> value_type (value a)) /\
    (o = OutOfFuel -> exists b a, segment t tm b a /\ is_bezier b || is_bezier a = true /\
       curve_parameter fuel b a tm = OutOfFuel) /\
    (forall fuel' v, (fuel <= fuel')%nat -> o = Done v -> value_at fuel' t tm = Done (Some v)).
Proof.
  destruct (value_at_search fuel t tm Ht Htm Hne Hlen) as (o & E & Hs & Hor).
  assert (Hseg : forall b a, segment t tm b a ->
    o = interpolate fuel b a tm /\ wf (time b) /\ wf (time a) /\ time b <> time a /\
    can_interpolate (value b) = true).
  { intros b a Hba. pose proof (segment_times t tm b a Ht Htm Hba) as (Hb & Ha & Hn).
    destruct Hba as ((l & r & Et & H1 & H2) & Hc & Hh).
    split; [|done]. rewrite (proj2 (proj2 (proj2 Hs)) l b a r Et H1 H2), Hc.
    by rewrite bool_decide_eq_false_2. }
  exists o. split; [done|]. split; [done|]. split; [|split; [|split]].
  - intros b a Hba. destruct (Hseg b a Hba) as (-> & Hb & Ha & Hn & Hc).
    destruct (interpolate_outcome fuel b a tm Hb Ha Hn Hc) as (H1 & _ & H3 & _).
    split; [done|]. intros Hty. by apply H3.
  - intros ->. destruct Hor as [(? & ?)|(b & a & Eo & Hba)]; [done|].
    destruct (Hseg b a Hba) as (_ & Hb & Ha & Hn & Hc).
    destruct (interpolate_outcome fuel b a tm Hb Ha Hn Hc) as (_ & _ & H3 & H4).
    exists b, a. split; [done|]. split; [by apply H4|]. intros Hty. by destruct (H3 Hty).
  - intros ->. destruct Hor as [(? & ?)|(b & a & Eo & Hba)]; [done|].
    destruct (Hseg b a Hba) as (_ & Hb & Ha & Hn & Hc).
    destruct (interpolate_outcome fuel b a tm Hb Ha Hn Hc) as (_ & H2 & _).
    exists b, a. split; [done|]. by apply H2.
  - intros fuel' v Hle ->. by apply (value_at_fuel fuel).
Qed.

(** A three-key track at 0, 1/2 and 2 seconds. *)
Definition three_keys : KeyframeTrack :=
  Eval vm_compute in
  let key n d v i := mkKeyframe (new n d) (NV_Float v) i (0, 0) (0, 0) in
  set_key (set_key (set_key [] (key 2 1 30 Linear)) (key 0 1 10 Linear)) (key 1 2 20 Hold).

Lemma three_keys_wf : track_wf three_keys.
Proof.
  split.
  - repeat (apply list.Forall_cons; split; [right; vm_compute; intuition discriminate|]). constructor.
  - repeat constructor.
Qed.

Lemma wf_time n d : 0 < d <= REDUCE_MAX -> Z.abs n <= REDUCE_MAX -> Z.gcd n d = 1 -> wf (mkRational n d).
Proof. right. done. Qed.

Lemma keyframe_track_is_sorted_map_witness :
  let key := mkKeyframe (mkRational 3 2) (NV_Float 25) Bezier (0, 0) (0, 0) in
  let t := three_keys in let tm := mkRational 1 2 in
  (track_wf (set_key t key) /\
   forall u, key_at (set_key t key) u = if decide (time key = u) then Some key else key_at t u) /\
  (track_wf (remove_key t tm).1 /\
   (forall u, key_at (remove_key t tm).1 u = if decide (tm = u) then None else key_at t u) /\
   ((remove_key t tm).2 = true <-> is_Some (key_at t tm))).
Proof.
  apply (keyframe_track_is_sorted_map three_keys
    (mkKeyframe (mkRational 3 2) (NV_Float 25) Bezier (0, 0) (0, 0)) (mkRational 1 2)).
  - apply three_keys_wf.
  - apply wf_time; vm_compute; intuition discriminate.
  - apply wf_time; vm_compute; intuition discriminate.
Defined.

Definition num_value (z : Z) : NodeValue := NV_Float (bits_of_f64 (f64_of_int z)).
Definition curve_key (n : Z) (v : NodeValue) (i : Interpolation) (x_in y_in x_out y_out : Z) : Keyframe :=
  let f z := bits_of_f64 (f64_of_int z) in
  mkKeyframe (new n 1) v i (f x_in, f y_in) (f x_out, f y_out).

(** A cubic segment from 0 to 10 s whose handles reach a third into it. *)
Definition cubic_keys : KeyframeTrack :=
  Eval vm_compute in
  [curve_key 0 (num_value 0) Bezier 0 0 4 0; curve_key 10 (num_value 8) Bezier (-4) 0 0 0].

Lemma cubic_keys_wf : track_wf cubic_keys.
Proof.
  split.
  - repeat (apply list.Forall_cons; split; [right; vm_compute; intuition discriminate|]). constructor.
  - repeat constructor.
Qed.

Lemma value_at_total_witness :
  value_at 60 cubic_keys (mkRational 5 1) = Done (Some (num_value 4)) /\
  value_at 200 cubic_keys (mkRational 5 1) = Done (Some (num_value 4)).
Proof.
  destruct (value_at_total 60 cubic_keys (mkRational 5 1)) as (o & E & _ & _ & _ & _ & H).
  - apply cubic_keys_wf.
  - apply wf_time; vm_compute; intuition discriminate.
  - discriminate.
  - reflexivity.
  - assert (value_at 60 cubic_keys (mkRational 5 1) = Done (Some (num_value 4))) as Hv by (vm_compute; reflexivity).
    split; [exact Hv|]. rewrite Hv in E. destruct o as [v| |]; [|discriminate E|discriminate E].
    injection E as <-. apply H; [lia|reflexivity].
Defined.

Example three_keys_values :
  let k n v i := curve_key n (num_value v) i 0 0 0 0 in
  let t := [k 0 10 Linear; k 2 20 Hold; k 4 30 Linear] in
  map (fun tm => value_at 0 t tm)
    [mkRational (-1) 1; mkRational 0 1; mkRational 1 1; mkRational 2 1; mkRational 3 1; mkRational 5 1] =
  map (fun v => Done (Some (num_value v))) [10; 10; 15; 20; 20; 30] /\
  (remove_key three_keys (mkRational 1 3)).2 = false.
Proof. vm_compute. done. Qed.

(** * Findings *)

(** Where only the second key is Bezier, its handle's height is ignored: both
    one-handle branches set [quad_before], which selects the first key's
    height, there 0. *)
Lemma lone_in_handle_height_ignored fuel b tm v i x y y' tm2 o :
  is_bezier b = false ->
  interpolate fuel b (mkKeyframe tm2 v i (x, y) o) tm = interpolate fuel b (mkKeyframe tm2 v i (x, y') o) tm.
Proof.
  intros Hb. unfold interpolate, curve_parameter, valid_bezier_in.
  change (is_bezier (mkKeyframe tm2 v i (x, y) o)) with (is_bezier (mkKeyframe tm2 v i (x, y') o)).
  rewrite Hb. cbn [andb orb negb]. destruct (negb _); [done|]. cbn [time value bezier_in fst snd].
  by destruct (quadratic_xto_t _ _ _ _ _).
Qed.

(** A Bezier key of a two-component value before a four-component one panics
    on an index out of bounds. *)
Lemma mixed_vectors_panic :
  value_at 60 [curve_key 0 (NV_Vec2 0 0) Bezier 0 0 0 0; curve_key 10 (NV_Vec4 0 0 0 0) Linear 0 0 0 0]
    (mkRational 5 1) = Panics.
Proof. vm_compute. done. Qed.

(** The bisection can run forever: with an out handle of -10^20 seconds its
    bounds become neighbouring doubles whose midpoint rounds to one of them. *)
Definition steep_keys : KeyframeTrack :=
  Eval vm_compute in
  [curve_key 0 (num_value 0) Bezier 0 0 (- 10 ^ 20) 0; curve_key 10 (num_value 8) Bezier 0 0 0 0].

Lemma steep_curve_not_ending fuel x a b c d :
  x = f64_of_int 5 -> a = zero -> b = f64_of_int (- 10 ^ 20) -> c = f64_of_int 10 -> d = c ->
  calculate_t_from_x fuel true x a b c d = OutOfFuel.
Proof.
  intros -> -> -> -> ->. unfold calculate_t_from_x.
  set (step := calculate_step _ _ _ _ _ _).
  set (s := (S754_finite false 9007199253578167 (-53), S754_finite false 9007199253578168 (-53))).
  assert (run_steps 60 step (zero, one) = Some s) as H1 by (vm_compute; reflexivity).
  assert (step s = inl s) as H2 by (vm_compute; reflexivity).
  by rewrite (while_fuel_stuck step fuel 60 (zero, one) s H1 H2).
Qed.

Lemma steep_parameter_not_ending fuel b a :
  steep_keys = [b; a] -> curve_parameter fuel b a (mkRational 5 1) = OutOfFuel.
Proof.
  intros [= <- <-]. unfold curve_parameter, cubic_xto_t.
  change (_ && _) with true. cbv iota.
  destruct (valid_bezier_out _ _) as [x1 y1] eqn:E1. vm_compute in E1. injection E1 as <- <-.
  destruct (valid_bezier_in _ _) as [x2 y2] eqn:E2. vm_compute in E2. injection E2 as <- <-.
  destruct (f64_clamp _ _ _) as [z| |] eqn:E3; vm_compute in E3; [|done..]. injection E3 as <-.
  cbn [and_then]. by rewrite steep_curve_not_ending by (vm_compute; reflexivity).
Qed.

Lemma bisection_may_not_end fuel : value_at fuel steep_keys (mkRational 5 1) = OutOfFuel.
Proof.
  assert (exists b a, steep_keys = [b; a] /\ leb (mkRational 5 1) (time b) = false /\
    leb (time a) (mkRational 5 1) = false /\ find_bracket [b; a] (mkRational 5 1) = Between 0 1 /\
    eqb (time b) (mkRational 5 1) = false /\ can_interpolate (value b) = true /\
    interpolation b = Bezier /\ eqb (time a) (mkRational 5 1) = false /\
    ltb (time b) (mkRational 5 1) && ltb (mkRational 5 1) (time a) = true)
    as (b & a & E & H1 & H2 & H3 & H4 & H5 & H6 & H7 & H8).
  { do 2 eexists. split; [reflexivity|]. by vm_compute. }
  pose proof (steep_parameter_not_ending fuel b a E) as Hc. unfold value_at. rewrite E.
  cbn [lookup list_lookup list.last]. rewrite H1, H2, H3. cbn [lookup list_lookup].
  rewrite H4, H5, H6, H7, H8. cbn [negb orb]. rewrite bool_decide_eq_false_2 by done.
  unfold interpolate. rewrite Hc. assert (is_bezier b = true) as -> by (unfold is_bezier; by rewrite H6).
  by destruct (is_bezier a).
Qed.
