(* ===== verification/NodeCore.v ===== *)
(** Inputs and the shared node data (crates/oak-node/src/{input,node}.rs):
    input descriptors, standard values, keyframe tracks, hints, context
    positions and the element shifts of array inputs. *)

From S2P Require Import Prelude Rational Ids Value Keyframe.

Local Open Scope Z_scope.

(** * Inputs *)

Definition NOT_CONNECTABLE : Z := Z.shiftl 1 0.
Definition NOT_KEYFRAMABLE : Z := Z.shiftl 1 1.
Definition ARRAY : Z := Z.shiftl 1 2.
Definition HIDDEN : Z := Z.shiftl 1 3.
Definition IGNORE_INVALIDATIONS : Z := Z.shiftl 1 4.

Record Input : Type := mkInput {
  id : string; input_type : ValueType; default_value : NodeValue; flags : Z;
  display_name : string; properties : list (string * NodeValue); array_size : nat }.

Definition Input_new (i : string) (t : ValueType) (d : NodeValue) : Input :=
  mkInput i t d 0 i [] 0.

Definition is_array (i : Input) : bool := negb (Z.land (flags i) ARRAY =? 0).
Definition is_connectable (i : Input) : bool := Z.land (flags i) NOT_CONNECTABLE =? 0.

Definition with_flags (i : Input) (f : Z) : Input :=
  mkInput (id i) (input_type i) (default_value i) f (display_name i) (properties i) (array_size i).
Definition with_array_size (i : Input) (n : nat) : Input :=
  mkInput (id i) (input_type i) (default_value i) (flags i) (display_name i) (properties i) n.

Record ValueHint : Type := mkHint { types : list ValueType; hint_index : Z; tag : string }.

(** * Node data *)

Record Gizmo : Type := mkGizmo {
  position_inputs : list (string * Z * Z); drag_point : F64 * F64 }.

Record NodeCaches : Type := mkCaches {
  video : CHandle; thumbnail : CHandle; audio : CHandle; waveform : CHandle }.

(** The null handle. *)
Definition NodeCaches_default : NodeCaches := mkCaches 0 0 0 0.

Record NodeCore : Type := mkCore {
  inputs : list Input;
  keyframes : list (string * Z * KeyframeTrack);
  caches : NodeCaches;
  core_flags : Z;
  node_position : F64 * F64;
  label : string;
  override_color : Z;
  effect_input : string;
  hints : list ((string * Z) * ValueHint);
  context_positions : list (NodeId * (F64 * F64) * bool);
  links : list NodeId;
  bin_folder : option NodeId;
  caches_enabled : bool;
  gizmos : list Gizmo;
  current_gizmo : option Z;
  standard_values : gmap (string * Z) NodeValue }.

Definition ENABLED_INPUT : string := "enabled_in".

Definition DONT_SHOW_IN_PARAM_VIEW : Z := 0x1.
Definition VIDEO_EFFECT : Z := 0x2.
Definition AUDIO_EFFECT : Z := 0x4.
Definition DONT_SHOW_IN_CREATE_MENU : Z := 0x8.
Definition IS_ITEM : Z := 0x10.

Definition NodeCore_empty : NodeCore :=
  mkCore [] [] NodeCaches_default 0 (0, 0) "" (-1) "" [] [] [] None true [] None ∅.

Section setters.
Context (c : NodeCore).
Definition with_inputs x := mkCore x (keyframes c) (caches c) (core_flags c) (node_position c) (label c)
  (override_color c) (effect_input c) (hints c) (context_positions c) (links c) (bin_folder c)
  (caches_enabled c) (gizmos c) (current_gizmo c) (standard_values c).
Definition with_keyframes x := mkCore (inputs c) x (caches c) (core_flags c) (node_position c) (label c)
  (override_color c) (effect_input c) (hints c) (context_positions c) (links c) (bin_folder c)
  (caches_enabled c) (gizmos c) (current_gizmo c) (standard_values c).
Definition with_core_flags x := mkCore (inputs c) (keyframes c) (caches c) x (node_position c) (label c)
  (override_color c) (effect_input c) (hints c) (context_positions c) (links c) (bin_folder c)
  (caches_enabled c) (gizmos c) (current_gizmo c) (standard_values c).
Definition with_label x := mkCore (inputs c) (keyframes c) (caches c) (core_flags c) (node_position c) x
  (override_color c) (effect_input c) (hints c) (context_positions c) (links c) (bin_folder c)
  (caches_enabled c) (gizmos c) (current_gizmo c) (standard_values c).
Definition with_hints x := mkCore (inputs c) (keyframes c) (caches c) (core_flags c) (node_position c) (label c)
  (override_color c) (effect_input c) x (context_positions c) (links c) (bin_folder c)
  (caches_enabled c) (gizmos c) (current_gizmo c) (standard_values c).
Definition with_context_positions x := mkCore (inputs c) (keyframes c) (caches c) (core_flags c) (node_position c)
  (label c) (override_color c) (effect_input c) (hints c) x (links c) (bin_folder c)
  (caches_enabled c) (gizmos c) (current_gizmo c) (standard_values c).
Definition with_links x := mkCore (inputs c) (keyframes c) (caches c) (core_flags c) (node_position c) (label c)
  (override_color c) (effect_input c) (hints c) (context_positions c) x (bin_folder c)
  (caches_enabled c) (gizmos c) (current_gizmo c) (standard_values c).
Definition with_standard_values x := mkCore (inputs c) (keyframes c) (caches c) (core_flags c) (node_position c)
  (label c) (override_color c) (effect_input c) (hints c) (context_positions c) (links c) (bin_folder c)
  (caches_enabled c) (gizmos c) (current_gizmo c) x.
End setters.

Definition is_input (i : string) (x : Input) : bool := (id x =? i)%string.

Definition add_input (c : NodeCore) (i : Input) : NodeCore := with_inputs c (inputs c ++ [i]).

Definition NodeCore_new : NodeCore :=
  add_input NodeCore_empty (Input_new ENABLED_INPUT VT_Boolean (NV_Boolean true)).

Definition get_input (c : NodeCore) (i : string) : option Input := find (is_input i) (inputs c).

(** [get_input_mut]: apply [f] to the input, when it exists. *)
Definition modify_input (c : NodeCore) (i : string) (f : Input -> Input) : NodeCore :=
  match position (is_input i) (inputs c) with
  | Some k => with_inputs c (update_at k f (inputs c))
  | None => c
  end.

Definition input_index (c : NodeCore) (i : string) : option nat := position (is_input i) (inputs c).
Definition has_input (c : NodeCore) (i : string) : bool := existsb (is_input i) (inputs c).

Definition remove_input (c : NodeCore) (i : string) : NodeCore * bool :=
  let kept := retain (fun x => negb (is_input i x)) (inputs c) in
  (with_inputs c kept, negb (length kept =? length (inputs c))%nat).

Definition input_data_type (c : NodeCore) (i : string) : option ValueType := input_type <$> get_input c i.
Definition input_flags (c : NodeCore) (i : string) : Z :=
  match get_input c i with Some x => flags x | None => 0 end.
Definition input_display_name (c : NodeCore) (i : string) : string :=
  match get_input c i with Some x => display_name x | None => i end.
Definition input_array_size (c : NodeCore) (i : string) : nat :=
  match get_input c i with Some x => array_size x | None => 0 end.

(** ** Elements of array inputs *)

Definition element_key (i : string) (e : nat) : string * Z := (i, i32 (Z.of_nat e)).

Definition is_track (i : string) (e : Z) (x : string * Z * KeyframeTrack) : bool :=
  (x.1.1 =? i)%string && (x.1.2 =? e).

Definition move_element_value (c : NodeCore) (i : string) (from to : nat) : NodeCore :=
  match standard_values c !! element_key i from with
  | Some v => with_standard_values c
      (<[element_key i to := v]> (delete (element_key i from) (standard_values c)))
  | None => c
  end.

Definition move_element_keyframes (c : NodeCore) (i : string) (from to : nat) : NodeCore :=
  match position (is_track i (i32 (Z.of_nat from))) (keyframes c) with
  | None => c
  | Some k =>
      match keyframes c !! k with
      | None => c
      | Some (_, track) =>
          let ks := delete k (keyframes c) in
          with_keyframes c
            (match position (is_track i (i32 (Z.of_nat to))) ks with
             | Some j => update_at j (fun x => (x.1, track)) ks
             | None => ks ++ [(element_key i to, track)]
             end)
      end
  end.

Definition remove_element_keyframes (c : NodeCore) (i : string) (e : nat) : NodeCore :=
  with_keyframes c (retain (fun x => negb (is_track i (i32 (Z.of_nat e)) x)) (keyframes c)).

Definition remove_element_value (c : NodeCore) (i : string) (e : nat) : NodeCore :=
  with_standard_values c (delete (element_key i e) (standard_values c)).

Definition move_element (i : string) (c : NodeCore) (from to : nat) : NodeCore :=
  move_element_keyframes (move_element_value c i from to) i from to.

Definition core_input_array_insert (c : NodeCore) (i : string) (index : nat) : NodeCore :=
  let c := modify_input c i (fun x => with_array_size x (S (array_size x))) in
  let size := input_array_size c i in
  let c := foldl (fun c e => move_element i c (e - 1) e) c
             (reverse (seq (index + 1) (size - (index + 1)))) in
  let c := remove_element_value c i index in
  remove_element_keyframes c i index.

Definition core_input_array_remove (c : NodeCore) (i : string) (index : nat) : NodeCore :=
  let size := input_array_size c i in
  if (size <=? index)%nat then c
  else
    let c := remove_element_value c i index in
    let c := remove_element_keyframes c i index in
    let c := foldl (fun c e => move_element i c (e + 1) e) c (seq index (size - 1 - index)) in
    let c := remove_element_value c i (size - 1) in
    let c := remove_element_keyframes c i (size - 1) in
    modify_input c i (fun x => with_array_size x (array_size x - 1)).

Definition keyframe_track (c : NodeCore) (i : string) (e : Z) : option KeyframeTrack :=
  snd <$> find (is_track i e) (keyframes c).

(** [keyframe_track_mut]: apply [f] to the track, created on demand. *)
Definition modify_keyframe_track (c : NodeCore) (i : string) (e : Z)
    (f : KeyframeTrack -> KeyframeTrack) : NodeCore :=
  match position (is_track i e) (keyframes c) with
  | Some k => with_keyframes c (update_at k (fun x => (x.1, f x.2)) (keyframes c))
  | None => with_keyframes c (keyframes c ++ [(i, e, f KeyframeTrack_default)])
  end.

Definition standard_value (c : NodeCore) (i : string) (e : Z) : NodeValue :=
  match standard_values c !! (i, e) with
  | Some v => v
  | None => match get_input c i with Some x => default_value x | None => NV_None end
  end.

Definition set_standard_value (c : NodeCore) (i : string) (e : Z) (v : NodeValue) : NodeCore :=
  with_standard_values c (<[(i, e) := v]> (standard_values c)).

Definition is_input_keyframing (c : NodeCore) (i : string) (e : Z) : bool :=
  match keyframe_track c i e with Some t => negb (match keys t with [] => true | _ => false end) | None => false end.

Definition value_at_time (fuel : nat)
    (c : NodeCore) (i : string) (e : Z) (tm : Rational) : Outcome NodeValue :=
  match keyframe_track c i e with
  | Some t =>
      match keys t with
      | [] => Done (standard_value c i e)
      | _ => and_then (value_at fuel t tm)
               (fun r => Done (match r with Some v => v | None => standard_value c i e end))
      end
  | None => Done (standard_value c i e)
  end.

(** [connected]: the input has a value in the render-time row. *)
Definition is_input_static (c : NodeCore) (connected : string -> bool) (i : string) (e : Z) : bool :=
  negb (connected i) && negb (is_input_keyframing c i e).

Definition is_hint (i : string) (e : Z) (x : (string * Z) * ValueHint) : bool :=
  (x.1.1 =? i)%string && (x.1.2 =? e).

Definition set_value_hint (c : NodeCore) (i : string) (e : Z) (h : ValueHint) : NodeCore :=
  match position (is_hint i e) (hints c) with
  | Some k => with_hints c (update_at k (fun x => (x.1, h)) (hints c))
  | None => with_hints c (hints c ++ [((i, e), h)])
  end.

Definition value_hint (c : NodeCore) (i : string) (e : Z) : option ValueHint :=
  snd <$> find (is_hint i e) (hints c).

Definition in_context (ctx : NodeId) (x : NodeId * (F64 * F64) * bool) : bool := NodeId_eqb x.1.1 ctx.

Definition context_contains (c : NodeCore) (ctx : NodeId) : bool := existsb (in_context ctx) (context_positions c).

Definition set_context_position (c : NodeCore) (ctx : NodeId) (x y : F64) (expanded : bool) : NodeCore * bool :=
  let added := negb (context_contains c ctx) in
  (match position (in_context ctx) (context_positions c) with
   | Some k => with_context_positions c
       (update_at k (fun e => (e.1.1, (x, y), expanded)) (context_positions c))
   | None => with_context_positions c (context_positions c ++ [(ctx, (x, y), expanded)])
   end, added).

Definition remove_from_context (c : NodeCore) (ctx : NodeId) : NodeCore * bool :=
  let kept := retain (fun x => negb (in_context ctx x)) (context_positions c) in
  (with_context_positions c kept, negb (length kept =? length (context_positions c))%nat).

(** * Element shifts

    Standard values and keyframe tracks are both maps from (input, element);
    a move takes the entry of one key to another. *)

Section shifts.
Context {V : Type} (key : nat -> string * Z) (bound : nat).
Hypothesis key_inj : forall a b, (a <= bound)%nat -> (b <= bound)%nat -> key a = key b -> a = b.
Implicit Types m : gmap (string * Z) V.

Definition gmove m (a b : string * Z) : gmap (string * Z) V :=
  match m !! a with Some v => <[b := v]> (delete a m) | None => m end.

Lemma lookup_gmove m a b k :
  a <> b -> m !! b = None ->
  gmove m a b !! k = if decide (k = b) then m !! a else if decide (k = a) then None else m !! k.
Proof.
  intros Hab Hb. unfold gmove. destruct (m !! a) as [v|] eqn:Ha.
  - rewrite lookup_insert, lookup_delete. repeat case_decide; congruence.
  - repeat case_decide; congruence.
Qed.

(** The value an upward shift of the [n] elements after [lo] leaves at a key. *)
Lemma shift_up_spec n : forall lo m,
  (lo + n <= bound)%nat -> m !! key (lo + n) = None ->
  let m' := foldl (fun m e => gmove m (key (e - 1)) (key e)) m (reverse (seq (lo + 1) n)) in
  (forall e, (e <= bound)%nat -> m' !! key e =
     if decide (lo < e <= lo + n)%nat then m !! key (e - 1)%nat
     else if decide (e = lo) then None else m !! key e) /\
  (forall k, (forall e, (lo <= e <= lo + n)%nat -> k <> key e) -> m' !! k = m !! k).
Proof.
  induction n as [|n IH]; intros lo m Hb Hn m'; subst m'.
  - simpl. split; [|done]. intros e He. rewrite decide_False by lia.
    case_decide; [|done]. subst. by rewrite Nat.add_0_r in Hn.
  - assert (Hseq : reverse (seq (lo + 1) (S n)) = (lo + S n)%nat :: reverse (seq (lo + 1) n)).
    { rewrite seq_S, reverse_snoc. f_equal. lia. }
    rewrite Hseq. cbn [foldl].
    replace (lo + S n - 1)%nat with (lo + n)%nat by lia.
    assert (Hne : key (lo + n)%nat <> key (lo + S n)%nat).
    { intros E. apply key_inj in E; lia. }
    set (m1 := gmove m (key (lo + n)%nat) (key (lo + S n)%nat)).
    assert (Hm1 : forall k, m1 !! k = if decide (k = key (lo + S n)%nat) then m !! key (lo + n)%nat
      else if decide (k = key (lo + n)%nat) then None else m !! k).
    { intros k. by apply lookup_gmove. }
    destruct (IH lo m1) as [H1 H2]; [lia| |].
    { rewrite Hm1. rewrite decide_False by done. by rewrite decide_True. }
    split.
    + intros e He. rewrite H1 by done.
      destruct (decide (lo < e <= lo + n)%nat).
      * rewrite decide_True by lia. rewrite Hm1.
        rewrite decide_False by (intros E; apply key_inj in E; lia).
        rewrite decide_False by (intros E; apply key_inj in E; lia). done.
      * destruct (decide (e = lo + S n)%nat) as [->|].
        -- rewrite (decide_True (P := (lo < _ <= _)%nat)) by lia. rewrite decide_False by lia.
           rewrite Hm1, decide_True by done. f_equal. f_equal. lia.
        -- rewrite (decide_False (P := (lo < e <= lo + S n)%nat)) by lia. case_decide; [done|].
           rewrite Hm1. rewrite !decide_False by (intros E; apply key_inj in E; lia). done.
    + intros k Hk. rewrite H2 by (intros e He; apply Hk; lia). rewrite Hm1.
      rewrite !decide_False by (apply Hk; lia). done.
Qed.

(** The value a downward shift into [lo] leaves at a key. *)
Lemma shift_down_spec n : forall lo m,
  (lo + n <= bound)%nat -> m !! key lo = None ->
  let m' := foldl (fun m e => gmove m (key (e + 1)) (key e)) m (seq lo n) in
  (forall e, (e <= bound)%nat -> m' !! key e =
     if decide (lo <= e < lo + n)%nat then m !! key (e + 1)%nat
     else if decide (e = lo + n)%nat then None else m !! key e) /\
  (forall k, (forall e, (lo <= e <= lo + n)%nat -> k <> key e) -> m' !! k = m !! k).
Proof.
  induction n as [|n IH]; intros lo m Hb Hn m'; subst m'.
  - simpl. split; [|done]. intros e He. rewrite decide_False by lia.
    case_decide; [|done]. subst. by rewrite Nat.add_0_r.
  - cbn [seq foldl]. assert (Hne : key (lo + 1)%nat <> key lo).
    { intros E. apply key_inj in E; lia. }
    set (m1 := gmove m (key (lo + 1)%nat) (key lo)).
    assert (Hm1 : forall k, m1 !! k = if decide (k = key lo) then m !! key (lo + 1)%nat
      else if decide (k = key (lo + 1)%nat) then None else m !! k).
    { intros k. by apply lookup_gmove. }
    destruct (IH (S lo) m1) as [H1 H2]; [lia| |].
    { rewrite Hm1. rewrite decide_False by (intros E; apply key_inj in E; lia).
      rewrite decide_True; [done|]. f_equal. lia. }
    split.
    + intros e He. rewrite H1 by done.
      destruct (decide (S lo <= e < S lo + n)%nat).
      * rewrite decide_True by lia. rewrite Hm1.
        rewrite !decide_False by (intros E; apply key_inj in E; lia). done.
      * destruct (decide (e = lo)) as [->|].
        -- rewrite (decide_True (P := (lo <= lo < _)%nat)) by lia. rewrite decide_False by lia.
           rewrite Hm1, decide_True by done. done.
        -- rewrite (decide_False (P := (lo <= e < lo + S n)%nat)) by lia.
           destruct (decide (e = S lo + n)%nat).
           ++ rewrite decide_True by lia. done.
           ++ rewrite decide_False by lia. rewrite Hm1.
              rewrite !decide_False by (intros E; apply key_inj in E; lia). done.
    + intros k Hk. rewrite H2 by (intros e He; apply Hk; lia). rewrite Hm1.
      rewrite !decide_False by (apply Hk; lia). done.
Qed.
End shifts.

(** * The two maps of a node

    [tracks] reads the keyframe vector as a map; keys are unique in every
    reachable core. *)

Definition tracks (c : NodeCore) : gmap (string * Z) KeyframeTrack := list_to_map (keyframes c).
Definition tracks_unique (c : NodeCore) : Prop := NoDup (keyframes c).*1.

Lemma is_track_true i e x : is_track i e x = true <-> x.1 = (i, e).
Proof.
  destruct x as [[j f] t]. unfold is_track. simpl. rewrite andb_true_iff, String.eqb_eq, Z.eqb_eq.
  split; [by intros [-> ->]|by intros [= -> ->]].
Qed.

Lemma keyframe_track_lookup c i e : keyframe_track c i e = tracks c !! (i, e).
Proof.
  unfold keyframe_track, tracks, find. induction (keyframes c) as [|[k t] l IH]; simpl; [done|].
  rewrite lookup_insert. destruct (is_track i e (k, t)) eqn:E.
  - apply is_track_true in E. simpl in E. by rewrite decide_True.
  - rewrite decide_False; [done|]. intros ->. by rewrite (proj2 (is_track_true i e (i, e, t))) in E.
Qed.

Section assoc.
Context {V : Type}.
Implicit Types l : list ((string * Z) * V).

Lemma assoc_delete l k x :
  NoDup l.*1 -> l !! k = Some x ->
  list_to_map (delete k l) = (delete x.1 (list_to_map l) : gmap _ V) /\ NoDup (delete k l).*1 /\
  x.1 ∉ (delete k l).*1.
Proof.
  intros Hnd Hk. destruct x as [a v]. apply list_elem_of_split_length in Hk as (l1 & l2 & -> & ->).
  rewrite delete_middle. rewrite fmap_app, fmap_cons in Hnd. simpl in *.
  pose proof Hnd as Hnd'. rewrite <- Permutation_middle in Hnd'. apply NoDup_cons in Hnd' as [Hni Hnd'].
  rewrite fmap_app. split; [|done].
  rewrite (list_to_map_proper (l1 ++ (a, v) :: l2) ((a, v) :: l1 ++ l2)).
  - simpl. rewrite delete_insert_id; [done|]. apply not_elem_of_list_to_map. by rewrite fmap_app.
  - by rewrite fmap_app.
  - by rewrite <- Permutation_middle.
Qed.

Lemma assoc_update l j (x : (string * Z) * V) v :
  NoDup l.*1 -> l !! j = Some x ->
  list_to_map (<[j := (x.1, v)]> l) = (<[x.1 := v]> (list_to_map l) : gmap _ V) /\
  (<[j := (x.1, v)]> l).*1 = l.*1.
Proof.
  intros Hnd Hj. assert (Hf : (<[j := (x.1, v)]> l).*1 = l.*1).
  { rewrite list_fmap_insert. simpl. apply list_insert_id. by rewrite list_lookup_fmap, Hj. }
  split; [|done]. destruct x as [a w]. apply list_elem_of_split_length in Hj as (l1 & l2 & -> & ->).
  rewrite insert_app_r_alt, Nat.sub_diag in * by done. simpl in *.
  rewrite (list_to_map_proper (l1 ++ (a, v) :: l2) ((a, v) :: l1 ++ l2)),
    (list_to_map_proper (l1 ++ (a, w) :: l2) ((a, w) :: l1 ++ l2)).
  - simpl. by rewrite insert_insert_eq.
  - done.
  - by rewrite <- Permutation_middle.
  - by rewrite Hf.
  - by rewrite <- Permutation_middle.
Qed.

Lemma assoc_snoc l a v :
  NoDup l.*1 -> a ∉ l.*1 ->
  list_to_map (l ++ [(a, v)]) = (<[a := v]> (list_to_map l) : gmap _ V) /\ NoDup (l ++ [(a, v)]).*1.
Proof.
  intros Hnd Ha. rewrite fmap_app. simpl.
  assert (Hn : NoDup (l.*1 ++ [a])).
  { apply NoDup_app. split; [done|]. split; [|apply NoDup_singleton].
    intros x Hx. rewrite list_elem_of_singleton. by intros ->. }
  split; [|done]. rewrite (list_to_map_proper _ ((a, v) :: l)); [done| |].
  - by rewrite fmap_app.
  - by rewrite Permutation_app_comm.
Qed.

Lemma assoc_retain l a (p : (string * Z) * V -> bool) :
  (forall x, p x = negb (bool_decide (x.1 = a))) -> NoDup l.*1 ->
  list_to_map (retain p l) = (delete a (list_to_map l) : gmap _ V) /\ NoDup (retain p l).*1.
Proof.
  intros Hp. induction l as [|[b v] l IH]; intros Hnd; simpl.
  - by rewrite delete_empty.
  - apply NoDup_cons in Hnd as [Hb Hnd]. destruct (IH Hnd) as [H1 H2].
    unfold retain in *. simpl. rewrite Hp. simpl. case_bool_decide as Hab; simpl.
    + subst. rewrite delete_insert_eq. split; [done|done].
    + rewrite H1, delete_insert_ne by done. split; [done|]. constructor; [|done].
      intros Hin. apply Hb. apply list_elem_of_fmap in Hin as (y & -> & Hy).
      apply list_elem_of_fmap. exists y. split; [done|].
      apply list_elem_of_In, List.filter_In in Hy as [Hy _]. by apply list_elem_of_In.
Qed.
End assoc.

Lemma position_track_None i e l :
  position (is_track i e) l = None -> (i, e) ∉ l.*1.
Proof.
  rewrite position_None. intros H Hin. apply list_elem_of_fmap in Hin as (x & Hx & Hin).
  specialize (H x Hin). by rewrite (proj2 (is_track_true i e x)) in H.
Qed.

Lemma position_track_Some i e l k :
  position (is_track i e) l = Some k -> exists t, l !! k = Some ((i, e), t).
Proof.
  intros H. apply position_Some in H as ([a t] & Hk & E & _). apply is_track_true in E.
  simpl in E. subst. eauto.
Qed.

(** Nothing but the two maps changes. *)
Definition same_inputs (c c' : NodeCore) : Prop := inputs c' = inputs c.

Lemma move_element_keyframes_spec c i from to :
  element_key i from <> element_key i to -> tracks_unique c ->
  let c' := move_element_keyframes c i from to in
  tracks c' = gmove (tracks c) (element_key i from) (element_key i to) /\ tracks_unique c' /\
  standard_values c' = standard_values c /\ same_inputs c c'.
Proof.
  intros Hne Hu. unfold move_element_keyframes.
  destruct (position _ (keyframes c)) as [k|] eqn:Hp.
  - apply position_track_Some in Hp as [t Hk]. rewrite Hk.
    destruct (assoc_delete _ _ _ Hu Hk) as (Hd & Hu' & Hni). simpl in Hd, Hni.
    assert (Ht : tracks c !! element_key i from = Some t).
    { apply elem_of_list_to_map; [done|]. by apply list_elem_of_lookup_2 in Hk. }
    unfold gmove. rewrite Ht. simpl.
    destruct (position _ (delete k (keyframes c))) as [j|] eqn:Hj.
    + apply position_track_Some in Hj as [t' Hj].
      destruct (assoc_update _ _ _ t Hu' Hj) as [Hm Hf]. simpl in Hm, Hf.
      unfold tracks, tracks_unique. simpl. unfold update_at. rewrite Hj. simpl.
      rewrite Hm, Hd, Hf. done.
    + apply position_track_None in Hj.
      destruct (assoc_snoc _ (element_key i to) t Hu' Hj) as [Hm Hn].
      unfold tracks, tracks_unique. simpl. rewrite Hm, Hd. done.
  - apply position_track_None in Hp. unfold gmove, tracks.
    rewrite not_elem_of_list_to_map_1 by done. done.
Qed.

Lemma move_element_spec c i from to :
  element_key i from <> element_key i to -> tracks_unique c ->
  let c' := move_element i c from to in
  standard_values c' = gmove (standard_values c) (element_key i from) (element_key i to) /\
  tracks c' = gmove (tracks c) (element_key i from) (element_key i to) /\ tracks_unique c' /\
  same_inputs c c'.
Proof.
  intros Hne Hu. unfold move_element.
  assert (Hv : standard_values (move_element_value c i from to) =
      gmove (standard_values c) (element_key i from) (element_key i to) /\
    keyframes (move_element_value c i from to) = keyframes c /\
    inputs (move_element_value c i from to) = inputs c).
  { unfold move_element_value, gmove. by destruct (_ !! _). }
  destruct Hv as (Hv1 & Hv2 & Hv3).
  destruct (move_element_keyframes_spec (move_element_value c i from to) i from to Hne) as (H1 & H2 & H3 & H4).
  { unfold tracks_unique. by rewrite Hv2. }
  unfold tracks in H1 at 2. rewrite Hv2 in H1. unfold same_inputs in *.
  split; [congruence|]. split; [done|]. split; [done|congruence].
Qed.

Lemma move_elements_spec i (f : nat -> nat) es : forall c,
  (forall e, e ∈ es -> element_key i (f e) <> element_key i e) -> tracks_unique c ->
  let c' := foldl (fun c e => move_element i c (f e) e) c es in
  standard_values c' =
    foldl (fun m e => gmove m (element_key i (f e)) (element_key i e)) (standard_values c) es /\
  tracks c' = foldl (fun m e => gmove m (element_key i (f e)) (element_key i e)) (tracks c) es /\
  tracks_unique c' /\ same_inputs c c'.
Proof.
  induction es as [|e es IH]; intros c Hes Hu; [done|]. cbn [foldl].
  destruct (move_element_spec c i (f e) e) as (H1 & H2 & H3 & H4); [|done|].
  { apply Hes. apply elem_of_cons. by left. }
  destruct (IH (move_element i c (f e) e)) as (H5 & H6 & H7 & H8); [|done|].
  { intros d Hd. apply Hes. apply elem_of_cons. by right. }
  rewrite H1 in H5. rewrite H2 in H6. unfold same_inputs in *.
  split; [done|]. split; [done|]. split; [done|congruence].
Qed.

Lemma remove_element_keyframes_spec c i e :
  tracks_unique c ->
  let c' := remove_element_keyframes c i e in
  tracks c' = delete (element_key i e) (tracks c) /\ tracks_unique c' /\
  standard_values c' = standard_values c /\ same_inputs c c'.
Proof.
  intros Hu.
  destruct (assoc_retain (keyframes c) (element_key i e)
    (fun x => negb (is_track i (i32 (Z.of_nat e)) x))) as [H1 H2]; [|done|].
  - intros x. f_equal. apply eq_true_iff_eq. rewrite is_track_true, bool_decide_eq_true. done.
  - unfold tracks, tracks_unique. simpl. rewrite H1. done.
Qed.

(** Distinct elements have distinct keys below [2^31]. *)
Lemma element_key_inj i bound a b :
  Z.of_nat bound < 2 ^ 31 -> (a <= bound)%nat -> (b <= bound)%nat ->
  element_key i a = element_key i b -> a = b.
Proof.
  unfold element_key, i32, wrap_signed. intros Hb Ha Hb' [= E].
  rewrite !Z.mod_small in E by lia. lia.
Qed.

Lemma get_modify_input c i f x :
  get_input c i = Some x -> id (f x) = i ->
  get_input (modify_input c i f) i = Some (f x) /\
  standard_values (modify_input c i f) = standard_values c /\
  keyframes (modify_input c i f) = keyframes c.
Proof.
  unfold get_input, modify_input, find. intros Hx Hid.
  assert (Hp : forall l, List.find (is_input i) l = Some x ->
    exists k, position (is_input i) l = Some k /\ List.find (is_input i) (update_at k f l) = Some (f x)).
  { induction l as [|y l IH]; simpl; [done|]. destruct (is_input i y) eqn:E.
    - intros [= ->]. exists O. split; [done|]. unfold update_at. simpl.
      unfold is_input at 1. by rewrite Hid, String.eqb_refl.
    - intros Hl. destruct (IH Hl) as (k & Hk & Hf). exists (S k). rewrite Hk. split; [done|].
      unfold update_at in *. simpl. destruct (l !! k); simpl; by rewrite E. }
  destruct (Hp _ Hx) as (k & -> & Hf). done.
Qed.

Lemma get_input_same c c' i : same_inputs c c' -> get_input c' i = get_input c i.
Proof. unfold same_inputs, get_input. by intros ->. Qed.


(** How an insertion at [index] into [n] elements moves a map's entries, and a
    removal from [n]. *)
Definition shifted_up {V} (m m' : gmap (string * Z) V) (i : string) (index n : nat) : Prop :=
  (forall e, (e <= n)%nat -> m' !! element_key i e =
     if decide (e < index)%nat then m !! element_key i e
     else if decide (e = index) then None else m !! element_key i (e - 1)%nat) /\
  (forall k, (forall e, (e <= n)%nat -> k <> element_key i e) -> m' !! k = m !! k).

Definition shifted_down {V} (m m' : gmap (string * Z) V) (i : string) (index n : nat) : Prop :=
  (forall e, (e < n)%nat -> m' !! element_key i e =
     if decide (e < index)%nat then m !! element_key i e
     else if decide (e = n - 1)%nat then None else m !! element_key i (e + 1)%nat) /\
  (forall k, (forall e, (e < n)%nat -> k <> element_key i e) -> m' !! k = m !! k).

Lemma shifted_up_loop {V} (m : gmap (string * Z) V) i index n :
  Z.of_nat n < 2 ^ 31 -> (index <= n)%nat -> m !! element_key i n = None ->
  shifted_up m (delete (element_key i index)
    (foldl (fun m e => gmove m (element_key i (e - 1)) (element_key i e)) m
       (reverse (seq (index + 1) (n - index))))) i index n.
Proof.
  intros Hn Hi Hm. pose proof (fun a b => element_key_inj i n a b Hn) as Hinj.
  destruct (shift_up_spec (element_key i) n Hinj (n - index) index m) as [H1 H2]; [lia| |].
  { by replace (index + (n - index))%nat with n by lia. }
  split.
  - intros e He. rewrite lookup_delete, H1 by done.
    destruct (decide (element_key i index = element_key i e)) as [E|E].
    + apply Hinj in E; [|lia..]. subst. rewrite decide_False by lia. by rewrite decide_True.
    + destruct (decide (e < index)%nat).
      * rewrite decide_False by lia. by rewrite decide_False by lia.
      * assert (e <> index) by congruence. rewrite decide_True by lia. by rewrite decide_False.
  - intros k Hk. rewrite lookup_delete_ne by (intros E; by apply (Hk index)).
    apply H2. intros e He. apply Hk. lia.
Qed.

Lemma shifted_down_loop {V} (m : gmap (string * Z) V) i index n :
  Z.of_nat n < 2 ^ 31 -> (index < n)%nat ->
  shifted_down m (delete (element_key i (n - 1))
    (foldl (fun m e => gmove m (element_key i (e + 1)) (element_key i e))
       (delete (element_key i index) m) (seq index (n - 1 - index)))) i index n.
Proof.
  intros Hn Hi. pose proof (fun a b => element_key_inj i n a b Hn) as Hinj.
  destruct (shift_down_spec (element_key i) n Hinj (n - 1 - index) index (delete (element_key i index) m))
    as [H1 H2]; [lia|by rewrite lookup_delete_eq|].
  split.
  - intros e He. rewrite lookup_delete, H1 by lia.
    destruct (decide (element_key i (n - 1) = element_key i e)) as [E|E].
    + apply Hinj in E; [|lia..]. subst. rewrite decide_False by lia. by rewrite decide_True.
    + assert (e <> n - 1)%nat by congruence. destruct (decide (e < index)%nat).
      * rewrite decide_False by lia. rewrite decide_False by lia.
        rewrite lookup_delete_ne; [done|]. intros E'. apply Hinj in E'; lia.
      * rewrite decide_True by lia. rewrite (decide_False (P := e = (n - 1)%nat)) by done.
        rewrite lookup_delete_ne; [done|]. intros E'. apply Hinj in E'; lia.
  - intros k Hk. rewrite lookup_delete_ne by (intros E; apply (Hk (n - 1)%nat); [lia|done]).
    rewrite H2 by (intros e He; apply Hk; lia).
    rewrite lookup_delete_ne; [done|]. intros E. by apply (Hk index).
Qed.

Lemma shifted_roundtrip {V} (m m1 m2 : gmap (string * Z) V) i index n :
  Z.of_nat n + 1 < 2 ^ 31 -> (index <= n)%nat -> m !! element_key i n = None ->
  shifted_up m m1 i index n -> shifted_down m1 m2 i index (S n) -> m2 = m.
Proof.
  intros Hn Hi Hm [U1 U2] [D1 D2]. apply map_eq. intros k.
  destruct (decide (k ∈ element_key i <$> seq 0 (S n))) as [Hin|Hout].
  - apply list_elem_of_fmap in Hin as (e & -> & He). apply elem_of_seq in He.
    rewrite D1 by lia. destruct (decide (e < index)%nat).
    + rewrite U1 by lia. by rewrite decide_True.
    + destruct (decide (e = S n - 1)%nat) as [->|].
      * replace (S n - 1)%nat with n by lia. done.
      * rewrite U1 by lia. rewrite decide_False by lia. rewrite decide_False by lia.
        f_equal. f_equal. lia.
  - assert (Hk : forall e, (e <= n)%nat -> k <> element_key i e).
    { intros e He ->. apply Hout. apply list_elem_of_fmap. exists e. split; [done|].
      apply elem_of_seq. lia. }
    rewrite D2 by (intros e He; apply Hk; lia). by apply U2.
Qed.

Lemma core_insert_spec c i x index :
  get_input c i = Some x -> tracks_unique c ->
  Z.of_nat (array_size x) < 2 ^ 31 -> (index <= array_size x)%nat ->
  standard_values c !! element_key i (array_size x) = None ->
  tracks c !! element_key i (array_size x) = None ->
  let c' := core_input_array_insert c i index in
  get_input c' i = Some (with_array_size x (S (array_size x))) /\ tracks_unique c' /\
  shifted_up (standard_values c) (standard_values c') i index (array_size x) /\
  shifted_up (tracks c) (tracks c') i index (array_size x).
Proof.
  intros Hx Hu Hn Hi Hv Ht. unfold core_input_array_insert.
  assert (Hid : id x = i).
  { unfold get_input, find in Hx. apply List.find_some in Hx as [_ E]. by apply String.eqb_eq. }
  destruct (get_modify_input c i (fun x => with_array_size x (S (array_size x))) x Hx Hid) as (G & Hsv & Hkf).
  set (c1 := modify_input _ _ _) in *.
  assert (Hsz : input_array_size c1 i = S (array_size x)) by (unfold input_array_size; by rewrite G).
  rewrite Hsz. replace (S (array_size x) - (index + 1))%nat with (array_size x - index)%nat by lia.
  assert (Hu1 : tracks_unique c1) by (unfold tracks_unique; by rewrite Hkf).
  destruct (move_elements_spec i (fun e => e - 1)%nat (reverse (seq (index + 1) (array_size x - index))) c1)
    as (M1 & M2 & M3 & M4); [|done|].
  { intros e He E. apply elem_of_reverse, elem_of_seq in He.
    apply (element_key_inj i (array_size x)) in E; lia. }
  set (c2 := foldl _ _ _) in *.
  destruct (remove_element_keyframes_spec (remove_element_value c2 i index) i index) as (R1 & R2 & R3 & R4); [done|].
  split; [|split; [done|split]].
  - rewrite <- G. apply get_input_same. transitivity (inputs c2); [exact R4|exact M4].
  - rewrite R3. simpl. rewrite M1, Hsv. by apply shifted_up_loop.
  - rewrite R1. change (tracks (remove_element_value c2 i index)) with (tracks c2). rewrite M2.
    unfold tracks at 2. rewrite Hkf. by apply shifted_up_loop.
Qed.

Lemma core_remove_spec c i x index :
  get_input c i = Some x -> tracks_unique c ->
  Z.of_nat (array_size x) < 2 ^ 31 -> (index < array_size x)%nat ->
  let c' := core_input_array_remove c i index in
  get_input c' i = Some (with_array_size x (array_size x - 1)) /\ tracks_unique c' /\
  shifted_down (standard_values c) (standard_values c') i index (array_size x) /\
  shifted_down (tracks c) (tracks c') i index (array_size x).
Proof.
  intros Hx Hu Hn Hi. unfold core_input_array_remove.
  assert (Hid : id x = i).
  { unfold get_input, find in Hx. apply List.find_some in Hx as [_ E]. by apply String.eqb_eq. }
  assert (Hsz : input_array_size c i = array_size x) by (unfold input_array_size; by rewrite Hx).
  rewrite Hsz. rewrite (proj2 (Nat.leb_gt _ _)) by done.
  destruct (remove_element_keyframes_spec (remove_element_value c i index) i index) as (R1 & R2 & R3 & R4); [done|].
  set (c1 := remove_element_keyframes _ _ _) in *.
  destruct (move_elements_spec i (fun e => e + 1)%nat (seq index (array_size x - 1 - index)) c1)
    as (M1 & M2 & M3 & M4); [|done|].
  { intros e He E. apply elem_of_seq in He. apply (element_key_inj i (array_size x)) in E; lia. }
  set (c2 := foldl _ _ _) in *.
  destruct (remove_element_keyframes_spec (remove_element_value c2 i (array_size x - 1)) i (array_size x - 1))
    as (S1 & S2 & S3 & S4); [done|].
  set (c3 := remove_element_keyframes (remove_element_value c2 i (array_size x - 1)) i (array_size x - 1)) in *.
  assert (G : get_input c3 i = Some x).
  { rewrite (get_input_same c c3); [done|]. transitivity (inputs c2); [exact S4|].
    transitivity (inputs c1); [exact M4|exact R4]. }
  destruct (get_modify_input c3 i (fun x => with_array_size x (array_size x - 1)) x G Hid) as (G' & Hsv & Hkf).
  split; [done|]. split; [unfold tracks_unique; by rewrite Hkf|]. split.
  - rewrite Hsv, S3. simpl. rewrite M1, R3. by apply shifted_down_loop.
  - unfold tracks at 2. rewrite Hkf. fold (tracks c3). rewrite S1.
    change (tracks (remove_element_value c2 i (array_size x - 1))) with (tracks c2).
    rewrite M2, R1. by apply shifted_down_loop.
Qed.

(** The shifts never touch the input descriptors. *)
Lemma move_element_inputs i c from to : inputs (move_element i c from to) = inputs c.
Proof.
  unfold move_element, move_element_keyframes, move_element_value.
  destruct (standard_values c !! _); simpl; (destruct (position _ _); [|done]);
    (destruct (keyframes c !! _) as [[]|]; done).
Qed.

Lemma core_insert_input c i x index :
  get_input c i = Some x ->
  get_input (core_input_array_insert c i index) i = Some (with_array_size x (S (array_size x))).
Proof.
  intros Hx. assert (Hid : id x = i).
  { unfold get_input, find in Hx. apply List.find_some in Hx as [_ E]. by apply String.eqb_eq. }
  destruct (get_modify_input c i (fun x => with_array_size x (S (array_size x))) x Hx Hid) as (G & _ & _).
  rewrite <- G. apply get_input_same. unfold core_input_array_insert, same_inputs. simpl.
  generalize (reverse (seq (index + 1) (input_array_size
    (modify_input c i (fun x => with_array_size x (S (array_size x)))) i - (index + 1)))) as es.
  generalize (modify_input c i (fun x => with_array_size x (S (array_size x)))) as d.
  intros d es. revert d. induction es as [|e es IH]; intros d; [done|]. simpl. rewrite IH.
  apply move_element_inputs.
Qed.

(** C18: inserting an element into an array input grows it by one, shifts the
    standard values and keyframe tracks of the elements from the index up,
    leaves the new element without either and touches no other input's;
    removing any element drops its own value and track, moves those of the
    elements above it down by one, holes included, shrinks the input by one
    and touches no other input's, while an index past the end does nothing;
    and removing the inserted element gives back every value and every
    track. *)
Theorem array_element_roundtrip (c : NodeCore) (i : string) (x : Input) (index : nat)
    (Hx : get_input c i = Some x) (Hu : tracks_unique c)
    (Hn : Z.of_nat (array_size x) + 1 < 2 ^ 31) (Hi : (index <= array_size x)%nat)
    (Hv : standard_values c !! element_key i (array_size x) = None)
    (Ht : tracks c !! element_key i (array_size x) = None) :
  let c1 := core_input_array_insert c i index in
  let c2 := core_input_array_remove c1 i index in
  input_array_size c1 i = S (array_size x) /\
  shifted_up (standard_values c) (standard_values c1) i index (array_size x) /\
  shifted_up (tracks c) (tracks c1) i index (array_size x) /\
  shifted_down (standard_values c1) (standard_values c2) i index (S (array_size x)) /\
  shifted_down (tracks c1) (tracks c2) i index (S (array_size x)) /\
  get_input c2 i = Some x /\ standard_values c2 = standard_values c /\
  (forall j e, keyframe_track c2 j e = keyframe_track c j e) /\
  (forall k, (k < array_size x)%nat ->
     let d := core_input_array_remove c i k in
     get_input d i = Some (with_array_size x (array_size x - 1)) /\
     shifted_down (standard_values c) (standard_values d) i k (array_size x) /\
     shifted_down (tracks c) (tracks d) i k (array_size x)) /\
  (forall k, (array_size x <= k)%nat -> core_input_array_remove c i k = c).
Proof.
  destruct (core_insert_spec c i x index) as (G1 & U1 & V1 & T1); [done|done|lia|done|done|done|].
  destruct (core_remove_spec (core_input_array_insert c i index) i _ index G1 U1) as (G2 & U2 & V2 & T2);
    [simpl; lia|simpl; lia|].
  simpl array_size in V2, T2, G2. cbv zeta.
  split; [unfold input_array_size; by rewrite G1|].
  split; [done|]. split; [done|]. split; [done|]. split; [done|].
  split; [|split; [|split; [|split]]].
  - rewrite G2. f_equal. destruct x; unfold with_array_size; simpl. f_equal. lia.
  - by eapply shifted_roundtrip.
  - intros j e. rewrite !keyframe_track_lookup. f_equal. by eapply shifted_roundtrip.
  - intros k Hk. destruct (core_remove_spec c i x k) as (Gk & _ & Vk & Tk); [done|done|lia|done|]. done.
  - intros k Hk. unfold core_input_array_remove, input_array_size. rewrite Hx.
    by rewrite (proj2 (Nat.leb_le _ _)).
Qed.

(** An array input of three elements with a value, a track and a hole. *)
Definition array_core : NodeCore :=
  let c := add_input NodeCore_new
    (with_array_size (with_flags (Input_new "points_in" VT_Vec4 NV_None) ARRAY) 3) in
  let c := set_standard_value c "points_in" 0 (NV_Int 10) in
  let c := set_standard_value c "points_in" 2 (NV_Int 12) in
  modify_keyframe_track c "points_in" 1 (fun t => set_key t (mkKeyframe ZERO (NV_Int 5) Hold (0, 0) (0, 0))).

Definition values_at (c : NodeCore) : list (option NodeValue) :=
  map (fun e => standard_values c !! element_key "points_in" e) [0; 1; 2]%nat.

(** Elements 0 and 2 carry values, element 1 a track: removing element 0 does
    not leave its value behind in the hole that moves into its place. *)
Lemma array_element_roundtrip_witness :
  let d := core_input_array_remove array_core "points_in" 0 in
  values_at array_core = [Some (NV_Int 10); None; Some (NV_Int 12)] /\
  values_at d = [None; Some (NV_Int 12); None] /\ input_array_size d "points_in" = 2%nat /\
  shifted_down (tracks array_core) (tracks d) "points_in" 0 3 /\
  let c2 := core_input_array_remove (core_input_array_insert array_core "points_in" 1) "points_in" 1 in
  standard_values c2 = standard_values array_core.
Proof.
  split; [reflexivity|]. split; [reflexivity|]. split; [reflexivity|].
  destruct (array_element_roundtrip array_core "points_in"
    (with_array_size (with_flags (Input_new "points_in" VT_Vec4 NV_None) ARRAY) 3) 1)
    as (_ & _ & _ & _ & _ & _ & Hsv & _ & Hrem & _).
  - reflexivity.
  - apply NoDup_singleton.
  - reflexivity.
  - simpl. lia.
  - reflexivity.
  - reflexivity.
  - split; [|exact Hsv]. apply (Hrem 0%nat). simpl. lia.
Defined.
