(* ===== verification/Graph.v ===== *)
(** The graph arena (crates/oak-node/src/graph.rs): slots with generations
    and a free list, the ordered edge set, connections with cycle rejection,
    links, array elements, transfers and dependency copies.

    The dynamic behaviours are a type with the [NodeBehavior] interface; the
    default hasher of edge input ids is the class [InputHash]. *)

From S2P Require Import Prelude Rational Ids Value Keyframe NodeCore.

Local Open Scope Z_scope.

(** * Interfaces *)

(** [NodeBehavior] as the graph uses it, with the three behaviours it
    constructs itself. *)
Class NodeBehavior (B : Type) : Type := {
  type_id : B -> string;
  duplicate : B -> NodeCore -> option B;
  EmptyBehavior : B;
  GraphInputNode : B;
  GraphOutputNode : B
}.

Definition GRAPH_INPUT_TYPE_ID : string := "org.olivevideoeditor.Olive.graphinput".
Definition GRAPH_OUTPUT_TYPE_ID : string := "org.olivevideoeditor.Olive.graphoutput".
Definition GRAPH_INPUT_FEED_INPUT : string := "feed_in".
Definition GRAPH_OUTPUT_INPUT : string := "tex_in".

(** What the three behaviours report of themselves. *)
Class NodeBehaviorLaws (B : Type) `{NodeBehavior B} : Prop := {
  empty_type_id : type_id EmptyBehavior = "";
  empty_duplicate c : duplicate EmptyBehavior c = Some EmptyBehavior;
  graph_input_type_id : type_id GraphInputNode = GRAPH_INPUT_TYPE_ID;
  graph_output_type_id : type_id GraphOutputNode = GRAPH_OUTPUT_TYPE_ID;
  graph_input_duplicate c : duplicate GraphInputNode c = None;
  graph_output_duplicate c : duplicate GraphOutputNode c = None
}.

(** [hash_str]: the standard library's default string hasher. *)
Class InputHash : Type := hash_str : string -> Z.

(** * Errors *)

Inductive NodeError : Type :=
| E_Invalid
| E_State
| E_Failed (msg : string)
| E_NotFound
| E_NoMem.

Definition NodeError_code (e : NodeError) : Z :=
  match e with
  | E_Invalid => -30001
  | E_State => -30002
  | E_Failed _ => -30003
  | E_NotFound => -30004
  | E_NoMem => -30005
  end.

(** * Edges *)

Record Edge : Type := mkEdge { from : NodeId; to : NodeId; input_key : Z; element : Z }.

#[export] Instance Edge_eq_dec : EqDecision Edge.
Proof. solve_decision. Defined.

(** The derived [Ord], field by field. *)
Definition Edge_cmp (a b : Edge) : comparison :=
  match NodeId_cmp (from a) (from b) with
  | Eq =>
      match NodeId_cmp (to a) (to b) with
      | Eq =>
          match input_key a ?= input_key b with
          | Eq => element a ?= element b
          | c => c
          end
      | c => c
      end
  | c => c
  end.

(** A [BTreeSet] is the list of its elements in ascending order. *)
Fixpoint edge_insert (e : Edge) (l : list Edge) : list Edge :=
  match l with
  | [] => [e]
  | x :: l' =>
      match Edge_cmp e x with
      | Lt => e :: l
      | Eq => l
      | Gt => x :: edge_insert e l'
      end
  end.

Definition edge_remove (e : Edge) (l : list Edge) : list Edge :=
  retain (fun x => negb (bool_decide (x = e))) l.

(** A sorted vector of ids. *)
Fixpoint id_insert (i : NodeId) (l : list NodeId) : list NodeId :=
  match l with
  | [] => [i]
  | x :: l' => match NodeId_cmp i x with Gt => x :: id_insert i l' | _ => i :: l end
  end.
Definition id_sort (l : list NodeId) : list NodeId := foldr id_insert [] l.

Fixpoint dedup (l : list NodeId) : list NodeId :=
  match l with
  | x :: (y :: _) as l' => if NodeId_eqb x y then dedup l' else x :: dedup l'
  | _ => l
  end.

Section graph.
Context {B : Type} `{NodeBehavior B} `{InputHash}.

(** * The arena *)

Record NodeEntry : Type := mkEntry {
  core : NodeCore; behavior : B; entry_generation : N; vacant : bool }.

Record Graph : Type := mkGraph {
  entries : list NodeEntry; free_list : list N; edges : list Edge; input_names : gmap Z string }.

Definition Graph_new : Graph := mkGraph [] [] [] ∅.

Definition with_entries (g : Graph) x := mkGraph x (free_list g) (edges g) (input_names g).
Definition with_free_list (g : Graph) x := mkGraph (entries g) x (edges g) (input_names g).
Definition with_edges (g : Graph) x := mkGraph (entries g) (free_list g) x (input_names g).

Definition slot (i : N) : nat := N.to_nat i.

(** [wrapping_add(1)] on [u32]. *)
Definition next_generation (x : N) : N := as_u32 (x + 1).

(** A fresh slot at the end, or the slot last freed under its next
    generation; shared by [add_node] and the fallback of [add_entry]. *)
Definition allocate (g : Graph) (c : NodeCore) (b : B) : Graph * NodeId :=
  match list.last (free_list g) with
  | Some i =>
      let gen := match entries g !! slot i with
                 | Some e => next_generation (entry_generation e)
                 | None => 0%N
                 end in
      (mkGraph (<[slot i := mkEntry c b gen false]> (entries g)) (removelast (free_list g))
         (edges g) (input_names g), mkNodeId i gen)
  | None =>
      let index := as_u32 (N.of_nat (length (entries g))) in
      (with_entries g (entries g ++ [mkEntry c b 0%N false]), mkNodeId index 0%N)
  end.

Definition add_node (g : Graph) (c : NodeCore) (b : B) : Graph * NodeId := allocate g c b.

Definition add_entry (g : Graph) (e : NodeEntry) (i : NodeId) : Graph * NodeId :=
  match entries g !! slot (index i) with
  | Some old =>
      if vacant old then
        (mkGraph (<[slot (index i) := e]> (entries g))
           (retain (fun x => negb (x =? index i)%N) (free_list g)) (edges g) (input_names g),
         mkNodeId (index i) (entry_generation e))
      else allocate g (core e) (behavior e)
  | None => allocate g (core e) (behavior e)
  end.

Definition is_valid (g : Graph) (i : NodeId) : bool :=
  valid i &&
  match entries g !! slot (index i) with
  | Some e => negb (vacant e) && (entry_generation e =? generation i)%N
  | None => false
  end.

Definition get (g : Graph) (i : NodeId) : option NodeEntry :=
  if is_valid g i then entries g !! slot (index i) else None.

(** [get_mut]: apply [f] to a live entry. *)
Definition modify (g : Graph) (i : NodeId) (f : NodeEntry -> NodeEntry) : Graph :=
  if is_valid g i then with_entries g (update_at (slot (index i)) f (entries g)) else g.

Definition modify_core (f : NodeCore -> NodeCore) (e : NodeEntry) : NodeEntry :=
  mkEntry (f (core e)) (behavior e) (entry_generation e) (vacant e).

Definition vacant_entry (gen : N) : NodeEntry := mkEntry NodeCore_empty EmptyBehavior gen true.

Definition drop_edges_touching (g : Graph) (i : NodeId) : Graph :=
  let doomed := retain (fun e => NodeId_eqb (from e) i || NodeId_eqb (to e) i) (edges g) in
  with_edges g (foldl (fun es e => edge_remove e es) (edges g) doomed).

Definition without_link (i : NodeId) (c : NodeCore) : NodeCore :=
  with_links c (retain (fun l => negb (NodeId_eqb l i)) (links c)).

Definition take_node (g : Graph) (i : NodeId) : Graph * option NodeEntry :=
  if negb (is_valid g i) then (g, None)
  else
    match entries g !! slot (index i) with
    | None => (g, None)
    | Some taken =>
        let g := with_entries g (<[slot (index i) := vacant_entry (entry_generation taken)]> (entries g)) in
        let g := with_free_list g (free_list g ++ [index i]) in
        let g := drop_edges_touching g i in
        let g := foldl (fun g partner => modify g partner (modify_core (without_link i)))
                   g (links (core taken)) in
        (g, Some taken)
    end.

Definition is_endpoint (g : Graph) (i : NodeId) : bool :=
  match get g i with
  | Some e => (type_id (behavior e) =? GRAPH_INPUT_TYPE_ID)%string ||
              (type_id (behavior e) =? GRAPH_OUTPUT_TYPE_ID)%string
  | None => false
  end.

Definition remove_node (g : Graph) (i : NodeId) : Graph * option B :=
  if is_endpoint g i then (g, None)
  else let '(g, e) := take_node g i in (g, behavior <$> e).

Definition node_count (g : Graph) : nat := length (entries g) - length (free_list g).

(** Live ids in slot order. *)
Fixpoint live_ids (k : nat) (es : list NodeEntry) : list NodeId :=
  match es with
  | [] => []
  | e :: es =>
      if vacant e then live_ids (S k) es
      else mkNodeId (as_u32 (N.of_nat k)) (entry_generation e) :: live_ids (S k) es
  end.
Definition node_ids (g : Graph) : list NodeId := live_ids 0 (entries g).

Definition endpoint_of_type (g : Graph) (t : string) : option NodeId :=
  find (fun i => match get g i with Some e => (type_id (behavior e) =? t)%string | None => false end)
    (node_ids g).

Definition endpoints (g : Graph) : option (NodeId * NodeId) :=
  input ← endpoint_of_type g GRAPH_INPUT_TYPE_ID;
  output ← endpoint_of_type g GRAPH_OUTPUT_TYPE_ID;
  Some (input, output).

(** * Connections *)

Definition feeds (g_to : NodeId) (key elem : Z) (e : Edge) : bool :=
  NodeId_eqb (to e) g_to && (input_key e =? key) && (element e =? elem).

Definition connected_output (g : Graph) (t : NodeId) (input : string) (elem : Z) : option NodeId :=
  from <$> find (feeds t (hash_str input) elem) (edges g).

Definition is_input_connected (g : Graph) (t : NodeId) (input : string) (elem : Z) : bool :=
  bool_decide (is_Some (connected_output g t input elem)).

Definition targets (g : Graph) (n : NodeId) : list NodeId :=
  to <$> retain (fun e => NodeId_eqb (from e) n) (edges g).

(** The depth-first search of [reaches]: the stack's top is at the end. *)
Definition reaches_step (g : Graph) (goal : NodeId) (s : list NodeId * gset NodeId)
    : list NodeId * gset NodeId + bool :=
  let '(stack, seen) := s in
  match list.last stack with
  | None => inr false
  | Some n =>
      let stack := removelast stack in
      if NodeId_eqb n goal then inr true
      else if bool_decide (n ∈ seen) then inl (stack, seen)
      else inl (stack ++ targets g n, {[n]} ∪ seen)
  end.

(** Every edge is pushed at most once. *)
Definition reaches (g : Graph) (f t : NodeId) : bool :=
  default false (while_fuel (S (S (length (edges g)))) (reaches_step g t) ([f], ∅)).

(** [entry(key).or_insert_with]. *)
Definition intern_input (g : Graph) (input : string) : Graph * Z :=
  let key := hash_str input in
  (mkGraph (entries g) (free_list g) (edges g)
     (match input_names g !! key with Some _ => input_names g | None => <[key := input]> (input_names g) end),
   key).

Definition connect (g : Graph) (f t : NodeId) (input : string) (elem : Z) : Graph * option NodeError :=
  if negb (is_valid g f) || negb (is_valid g t) then (g, Some E_NotFound)
  else
    match (e ← get g t; get_input (core e) input) with
    | None => (g, Some E_NotFound)
    | Some i =>
        if negb (Z.land (flags i) NOT_CONNECTABLE =? 0) then (g, Some E_Invalid)
        else if (Z.land (flags i) ARRAY =? 0) && negb (elem =? -1) then (g, Some E_Invalid)
        else if NodeId_eqb f t then (g, Some E_State)
        else if is_input_connected g t input elem then (g, Some E_State)
        else if reaches g t f then (g, Some E_State)
        else
          let '(g, key) := intern_input g input in
          (with_edges g (edge_insert (mkEdge f t key elem) (edges g)), None)
    end.

Definition disconnect (g : Graph) (f t : NodeId) (input : string) (elem : Z) : Graph :=
  with_edges g (edge_remove (mkEdge f t (hash_str input) elem) (edges g)).

Definition disconnect_input (g : Graph) (t : NodeId) (input : string) (elem : Z) : Graph * option NodeId :=
  match connected_output g t input elem with
  | None => (g, None)
  | Some f => (disconnect g f t input elem, Some f)
  end.

Definition input_name (g : Graph) (key : Z) : string := default "" (input_names g !! key).

Definition input_connections (g : Graph) (i : NodeId) : list (NodeId * string * Z) :=
  (fun e => (from e, input_name g (input_key e), element e)) <$>
    retain (fun e => NodeId_eqb (to e) i) (edges g).

Definition output_connections (g : Graph) (i : NodeId) : list (NodeId * string * Z) :=
  (fun e => (to e, input_name g (input_key e), element e)) <$>
    retain (fun e => NodeId_eqb (from e) i) (edges g).

Definition output_connections_all (g : Graph) : list (NodeId * NodeId * string * Z) :=
  (fun e => (from e, to e, input_name g (input_key e), element e)) <$> edges g.

Definition upstream (g : Graph) (i : NodeId) : list NodeId :=
  id_sort (from <$> retain (fun e => NodeId_eqb (to e) i) (edges g)).

Definition downstream (g : Graph) (i : NodeId) : list NodeId :=
  dedup (id_sort (targets g i)).

(** The two endpoints and the default edge. *)
Definition create_graph_input : NodeCore * B :=
  let feed := Input_new GRAPH_INPUT_FEED_INPUT VT_Texture NV_None in
  let core := add_input NodeCore_new (with_flags feed (Z.lor (flags feed) NOT_KEYFRAMABLE)) in
  (with_core_flags core (Z.lor (core_flags core) DONT_SHOW_IN_CREATE_MENU), GraphInputNode).

Definition create_graph_output : NodeCore * B :=
  let tex := Input_new GRAPH_OUTPUT_INPUT VT_Texture NV_None in
  let core := add_input NodeCore_new (with_flags tex (Z.lor (flags tex) NOT_KEYFRAMABLE)) in
  (with_core_flags core (Z.lor (core_flags core) DONT_SHOW_IN_CREATE_MENU), GraphOutputNode).

Definition ensure_endpoints (g : Graph) : Graph * (NodeId * NodeId) :=
  let '(g, input) :=
    match endpoint_of_type g GRAPH_INPUT_TYPE_ID with
    | Some i => (g, i)
    | None => add_node g create_graph_input.1 create_graph_input.2
    end in
  let '(g, output) :=
    match endpoint_of_type g GRAPH_OUTPUT_TYPE_ID with
    | Some i => (g, i)
    | None => add_node g create_graph_output.1 create_graph_output.2
    end in
  let g := if is_input_connected g output GRAPH_OUTPUT_INPUT (-1) then g
           else (connect g input output GRAPH_OUTPUT_INPUT (-1)).1 in
  (g, (input, output)).

(** * Topological order (Kahn) *)

Definition bump_degree (d : gmap NodeId nat) (e : Edge) : gmap NodeId nat :=
  let d := <[to e := S (default O (d !! to e))]> d in
  match d !! from e with Some _ => d | None => <[from e := O]> d end.

Definition indegrees (g : Graph) : gmap NodeId nat := foldl bump_degree ∅ (edges g).

(** One outgoing edge: decrement its target, which becomes ready at zero;
    [ready] is a [BTreeSet], an ascending duplicate-free vector. *)
Definition ready_insert (i : NodeId) (l : list NodeId) : list NodeId :=
  if bool_decide (i ∈ l) then l else id_insert i l.

Definition relax (s : gmap NodeId nat * list NodeId) (e : Edge) : gmap NodeId nat * list NodeId :=
  let '(d, ready) := s in
  let n := (default O (d !! to e) - 1)%nat in
  (<[to e := n]> d, if (n =? 0)%nat then ready_insert (to e) ready else ready).

Definition kahn_step (g : Graph) (s : gmap NodeId nat * list NodeId * list NodeId)
    : gmap NodeId nat * list NodeId * list NodeId + gmap NodeId nat * list NodeId :=
  let '(d, ready, order) := s in
  match ready with
  | [] => inr (d, order)
  | n :: ready =>
      let '(d, ready) := foldl relax (d, ready) (retain (fun e => NodeId_eqb (from e) n) (edges g)) in
      inl (d, ready, order ++ [n])
  end.

Definition topological_order (g : Graph) : list NodeId :=
  let d := indegrees g in
  let ready := id_sort (fst <$> List.filter (fun p => (p.2 =? 0)%nat) (map_to_list d)) in
  let '(d, order) :=
    default (d, []) (while_fuel (S (size d)) (kahn_step g) (d, ready, [])) in
  order ++ retain (fun n => negb (bool_decide (is_Some (d !! n)))) (node_ids g).

(** * Links *)

Definition links_to (g : Graph) (a b : NodeId) : bool :=
  match get g a with Some e => bool_decide (b ∈ links (core e)) | None => false end.

(** Both slots are taken out behind placeholders, edited and put back. *)
Definition edit_two (g : Graph) (a b : NodeId) (fa fb : NodeCore -> NodeCore) : Graph :=
  match entries g !! slot (index a), entries g !! slot (index b) with
  | Some ea, Some eb =>
      let es := <[slot (index a) := vacant_entry (entry_generation ea)]> (entries g) in
      match es !! slot (index b) with
      | Some b_entry =>
          let es := <[slot (index b) := vacant_entry (entry_generation eb)]> es in
          with_entries g
            (<[slot (index b) := modify_core fb b_entry]>
               (<[slot (index a) := modify_core fa ea]> es))
      | None => g
      end
  | _, _ => g
  end.

Definition push_link (i : NodeId) (c : NodeCore) : NodeCore := with_links c (links c ++ [i]).

Definition link (g : Graph) (a b : NodeId) : Graph * bool :=
  if NodeId_eqb a b || negb (is_valid g a) || negb (is_valid g b) then (g, false)
  else
    let a_has := links_to g a b in
    let b_has := links_to g b a in
    if a_has && b_has then (g, false)
    else
      (edit_two g a b (fun c => if a_has then c else push_link b c)
         (fun c => if b_has then c else push_link a c), true).

Definition are_linked (g : Graph) (a b : NodeId) : bool := links_to g a b || links_to g b a.

(** [unlink] indexes both slots; out of range panics ([None]). *)
Definition unlink (g : Graph) (a b : NodeId) : option (Graph * bool) :=
  if negb (are_linked g a b) then Some (g, false)
  else
    match entries g !! slot (index a), entries g !! slot (index b) with
    | Some _, Some _ => Some (edit_two g a b (without_link b) (without_link a), true)
    | _, _ => None
    end.

Definition links_of (g : Graph) (i : NodeId) : list NodeId :=
  match get g i with Some e => links (core e) | None => [] end.

(** * Array elements *)

Definition with_element (e : Edge) (x : Z) : Edge := mkEdge (from e) (to e) (input_key e) x.

Definition moved_edges (g : Graph) (i : NodeId) (key index : Z) : list Edge :=
  retain (fun e => NodeId_eqb (to e) i && (input_key e =? key) && (index <=? element e)) (edges g).

Definition input_array_insert (g : Graph) (i : NodeId) (input : string) (index : Z)
    : Graph * option NodeError :=
  match get g i with
  | None => (g, Some E_NotFound)
  | Some entry =>
      match get_input (core entry) input with
      | None => (g, Some E_NotFound)
      | Some x =>
          if negb (is_array x) then (g, Some E_Invalid)
          else if (index <? 0) || (i32 (Z.of_nat (array_size x)) <? index) then (g, Some E_Invalid)
          else
            let g := modify g i (modify_core (fun c => core_input_array_insert c input (Z.to_nat index))) in
            let moves := moved_edges g i (hash_str input) index in
            (with_edges g
               (foldl (fun es e => edge_insert (with_element e (i32 (element e + 1))) (edge_remove e es))
                  (edges g) moves), None)
      end
  end.

Definition input_array_remove (g : Graph) (i : NodeId) (input : string) (index : Z)
    : Graph * option NodeError :=
  match get g i with
  | None => (g, Some E_NotFound)
  | Some entry =>
      match get_input (core entry) input with
      | None => (g, Some E_NotFound)
      | Some x =>
          if negb (is_array x) then (g, Some E_Invalid)
          else if (index <? 0) || (i32 (Z.of_nat (array_size x)) <=? index) then (g, Some E_Invalid)
          else
            let g := modify g i (modify_core (fun c => core_input_array_remove c input (Z.to_nat index))) in
            let moves := moved_edges g i (hash_str input) index in
            (with_edges g
               (foldl (fun es e =>
                  let es := edge_remove e es in
                  if index <? element e then edge_insert (with_element e (i32 (element e - 1))) es else es)
                  (edges g) moves), None)
      end
  end.

(** * Transfers and copies *)

Definition IdMap : Type := list (NodeId * NodeId).
Definition map_get (m : IdMap) (i : NodeId) : option NodeId :=
  snd <$> find (fun p => NodeId_eqb p.1 i) m.

(** One iteration of each of the three loops of [transfer_all]. *)
Definition transfer_one (s : Graph * Graph * IdMap) (i : NodeId) : Graph * Graph * IdMap :=
  let '(g, other, m) := s in
  match take_node other i with
  | (other, None) => (g, other, m)
  | (other, Some e) => let '(g, n) := add_entry g e i in (g, other, m ++ [(i, n)])
  end.

Definition reconnect (m : IdMap) (g : Graph) (e : NodeId * NodeId * string * Z) : Graph :=
  let '(f, t, input, elem) := e in
  (connect g (default f (map_get m f)) (default t (map_get m t)) input elem).1.

Definition relink (g : Graph) (i : NodeId) : Graph :=
  foldl (fun g partner =>
    modify g partner (modify_core (fun c => if bool_decide (i ∈ links c) then c else push_link i c)))
    g (links_of g i).

(** Returns the receiving graph, the emptied one and the id mapping.  The
    last loop follows [values], the order in which the [HashMap] yields the
    new ids, which the standard library leaves open. *)
Definition transfer_all (values : IdMap -> list NodeId) (g other : Graph) : Graph * Graph * IdMap :=
  let '(g, other, m) := foldl transfer_one (g, other, []) (node_ids other) in
  let g := foldl (reconnect m) g (output_connections_all other) in
  (foldl relink g (values m), other, m).

Definition remap_contexts (m : IdMap) (c : NodeCore) : NodeCore :=
  with_context_positions c
    ((fun x => (default x.1.1 (map_get m x.1.1), x.1.2, x.2)) <$> context_positions c).

(** The recursion follows upstream edges; [fuel] bounds its depth.  The graph
    and the map are mutated in place, so they are returned on failure too. *)
Fixpoint copy_dependency_graph_internal (fuel : nat) (g : Graph) (node : NodeId) (created : IdMap)
    : Graph * IdMap * option NodeId :=
  match fuel with
  | O => (g, created, None)
  | S fuel =>
      match map_get created node with
      | Some existing => (g, created, Some existing)
      | None =>
          match get g node with
          | None => (g, created, None)
          | Some entry =>
              match duplicate (behavior entry) (core entry) with
              | None => (g, created, None)
              | Some b =>
                  if negb (Z.land (core_flags (core entry)) IS_ITEM =? 0)
                  then (g, created ++ [(node, node)], Some node)
                  else
                    let c := remap_contexts created (with_links (core entry) []) in
                    let '(g, copy) := add_node g c b in
                    let created := created ++ [(node, copy)] in
                    (fix copy_inputs (es : list (NodeId * string * Z)) (g : Graph) (created : IdMap)
                        : Graph * IdMap * option NodeId :=
                       match es with
                       | [] => (g, created, Some copy)
                       | (f, input, elem) :: es =>
                           match copy_dependency_graph_internal fuel g f created with
                           | (g, created, None) => (g, created, None)
                           | (g, created, Some f') =>
                               copy_inputs es (connect g f' copy input elem).1 created
                           end
                       end) (input_connections g node) g created
              end
          end
      end
  end.

Definition copy_node_and_dependency_graph_minus_items (g : Graph) (root : NodeId)
    : Graph * option (NodeId * IdMap) :=
  match copy_dependency_graph_internal (S (length (entries g))) g root [] with
  | (g, created, Some copy) => (g, Some (copy, created))
  | (g, _, None) => (g, None)
  end.

End graph.

Arguments NodeEntry B : clear implicits.
Arguments Graph B : clear implicits.
