(* ===== verification/Arena.v ===== *)
(** The arena of the graph (crates/oak-node/src/graph.rs): what ids resolve
    to, the slot invariant, and what allocation, detachment and re-insertion
    do to it. *)

From S2P Require Import Prelude Rational Ids Value Keyframe NodeCore Graph.

Local Open Scope N_scope.

(** * Edge sets *)

Lemma Edge_cmp_Eq a b : Edge_cmp a b = Eq <-> a = b.
Proof.
  unfold Edge_cmp. destruct a as [f t k e], b as [f' t' k' e']; simpl. split.
  - destruct (NodeId_cmp f f') eqn:Ef; [|done..]. apply NodeId_cmp_Eq in Ef as ->.
    destruct (NodeId_cmp t t') eqn:Et; [|done..]. apply NodeId_cmp_Eq in Et as ->.
    destruct (Z.compare_spec k k') as [->| |]; [|done..].
    by destruct (Z.compare_spec e e') as [->| |].
  - intros [= -> -> -> ->]. rewrite (proj2 (NodeId_cmp_Eq f' f')) by done.
    rewrite (proj2 (NodeId_cmp_Eq t' t')) by done. by rewrite !Z.compare_refl.
Qed.

Lemma elem_of_edge_insert x e l : x ∈ edge_insert e l <-> x = e \/ x ∈ l.
Proof.
  induction l as [|y l IH]; simpl.
  - rewrite list_elem_of_singleton, elem_of_nil. tauto.
  - pose proof (Edge_cmp_Eq e y) as He. destruct (Edge_cmp e y).
    + destruct He as [He _]. rewrite (He eq_refl), elem_of_cons. tauto.
    + by rewrite elem_of_cons.
    + rewrite !elem_of_cons, IH. tauto.
Qed.

Lemma elem_of_edge_remove x e l : x ∈ edge_remove e l <-> x ∈ l /\ x <> e.
Proof.
  unfold edge_remove. rewrite elem_of_retain, negb_true_iff, bool_decide_eq_false. done.
Qed.

Lemma edge_remove_all ds es :
  foldl (fun es e => edge_remove e es) es ds = retain (fun x => negb (bool_decide (x ∈ ds))) es.
Proof.
  revert es. induction ds as [|d ds IH]; intros es; simpl.
  - symmetry. apply retain_all. done.
  - rewrite IH. unfold edge_remove. rewrite retain_retain. apply retain_ext. intros x _.
    rewrite <- negb_orb. f_equal.
    apply eq_true_iff_eq. rewrite orb_true_iff, !bool_decide_eq_true, elem_of_cons. tauto.
Qed.

Section arena.
Context {B : Type} `{NodeBehavior B} `{InputHash}.
Implicit Types (g : Graph B) (e : NodeEntry B) (i j : NodeId).

Definition touches i (x : Edge) : bool := NodeId_eqb (from x) i || NodeId_eqb (to x) i.

Lemma drop_edges_spec g i :
  drop_edges_touching g i = with_edges g (retain (fun x => negb (touches i x)) (edges g)).
Proof.
  unfold drop_edges_touching. f_equal. rewrite edge_remove_all. apply retain_ext. intros x Hx. f_equal.
  apply eq_true_iff_eq. rewrite bool_decide_eq_true, elem_of_retain. unfold touches. tauto.
Qed.

(** * Resolving ids *)

Lemma slot_inj a b : slot a = slot b -> a = b.
Proof. unfold slot. lia. Qed.

Lemma is_valid_get g i : is_valid g i = bool_decide (is_Some (get g i)).
Proof.
  unfold get. destruct (is_valid g i) eqn:E.
  - symmetry. apply bool_decide_eq_true. unfold is_valid in E. b2p. by destruct (entries g !! _).
  - symmetry. apply bool_decide_eq_false. by intros [? ?].
Qed.

Lemma get_Some g i e :
  get g i = Some e <->
  valid i = true /\ entries g !! slot (index i) = Some e /\ vacant e = false /\ entry_generation e = generation i.
Proof.
  unfold get, is_valid. destruct (valid i); simpl; [|split; [done|by intros []]].
  destruct (entries g !! slot (index i)) as [e'|]; [|split; [done|by intros (_ & ? & _)]].
  destruct (vacant e') eqn:Hv, (entry_generation e' =? generation i) eqn:Hg; simpl;
    rewrite ?N.eqb_eq, ?N.eqb_neq in Hg; split; try (intros ?; simplify_eq; done);
    try (intros (_ & ? & ? & ?); simplify_eq; congruence).
Qed.

Lemma get_valid g i e : get g i = Some e -> is_valid g i = true.
Proof. intros Hg. rewrite is_valid_get. apply bool_decide_eq_true. by exists e. Qed.

Lemma valid_get g i : is_valid g i = true -> exists e, get g i = Some e.
Proof. rewrite is_valid_get, bool_decide_eq_true. by intros [e ?]; exists e. Qed.

Lemma get_invalid g i : is_valid g i = false -> get g i = None.
Proof. unfold get. by intros ->. Qed.

(** Ids of one live slot agree. *)
Lemma get_same_index g i j e e' : get g i = Some e -> get g j = Some e' -> index i = index j -> i = j.
Proof.
  intros Hi Hj E. apply get_Some in Hi as (_ & Hi & _ & Gi), Hj as (_ & Hj & _ & Gj).
  rewrite E in Hi. simplify_eq. destruct i, j; simpl in *. congruence.
Qed.

Lemma get_with_edges g i x : get (with_edges g x) i = get g i.
Proof. done. Qed.

Lemma get_with_free_list g i x : get (with_free_list g x) i = get g i.
Proof. done. Qed.

(** Only the vector of slots matters. *)
Lemma get_entries g g' i : entries g' = entries g -> get g' i = get g i.
Proof. unfold get, is_valid. by intros ->. Qed.

(** Edits of an entry that keep its slot's state. *)
Definition slot_keeping (f : NodeEntry B -> NodeEntry B) : Prop :=
  forall e, entry_generation (f e) = entry_generation e /\ vacant (f e) = vacant e.

Lemma modify_core_keeping h : slot_keeping (modify_core h).
Proof. by intros e. Qed.

Lemma is_valid_modify g i f j : slot_keeping f -> is_valid (modify g i f) j = is_valid g j.
Proof.
  intros Hf. unfold modify. destruct (is_valid g i) eqn:Hv; [|done].
  unfold is_valid. simpl. rewrite lookup_update_at. f_equal.
  case_decide as E; [|done]. destruct (entries g !! slot (index j)) as [e|] eqn:He; simpl; [|done].
  destruct (Hf e) as [-> ->]. done.
Qed.

Lemma get_modify_slot g i f j : slot_keeping f ->
  get (modify g i f) j = if decide (j = i) then f <$> get g j else get g j.
Proof.
  intros Hf. unfold get at 1. rewrite is_valid_modify by done.
  destruct (is_valid g j) eqn:Hj.
  - apply valid_get in Hj as [e He]. rewrite He. apply get_Some in He as Hs.
    destruct Hs as (_ & Hs & _). unfold modify. destruct (is_valid g i) eqn:Hi.
    + apply valid_get in Hi as [e' He']. simpl. rewrite lookup_update_at, Hs. simpl.
      destruct (decide (slot (index i) = slot (index j))) as [E|E].
      * apply slot_inj in E. by rewrite decide_True by (symmetry; by eapply get_same_index).
      * by rewrite decide_False by congruence.
    + rewrite decide_False by (intros ->; apply get_valid in He; congruence). done.
  - apply get_invalid in Hj. rewrite Hj. by case_decide.
Qed.

Lemma get_modify g i (h : NodeCore -> NodeCore) j :
  get (modify g i (modify_core h)) j = if decide (j = i) then modify_core h <$> get g j else get g j.
Proof. apply get_modify_slot, modify_core_keeping. Qed.

(** Two edits of one node are one edit; edits of different nodes commute; an
    edit that changes nothing is none. *)
Lemma modify_modify g i f h : slot_keeping f -> modify (modify g i f) i h = modify g i (fun e => h (f e)).
Proof.
  intros Hf. unfold modify at 1. rewrite is_valid_modify by done. unfold modify.
  destruct (is_valid g i); [|done]. simpl. by rewrite update_at_compose.
Qed.

Lemma modify_id g i f : (forall e, get g i = Some e -> f e = e) -> modify g i f = g.
Proof.
  intros Hf. unfold modify. destruct (is_valid g i) eqn:Hv; [|done].
  apply valid_get in Hv as [e He]. specialize (Hf e He). apply get_Some in He as (_ & He & _).
  rewrite (update_at_id _ _ _ _ He Hf). by destruct g.
Qed.

Lemma update_at_comm {A} k l (f h : A -> A) (xs : list A) : k <> l ->
  update_at l h (update_at k f xs) = update_at k f (update_at l h xs).
Proof.
  intros Hkl. apply list_eq. intros n. rewrite !lookup_update_at.
  repeat case_decide; try done. congruence.
Qed.

Lemma modify_comm g i j f h : i <> j -> slot_keeping f -> slot_keeping h ->
  modify (modify g i f) j h = modify (modify g j h) i f.
Proof.
  intros Hij Hf Hh. unfold modify at 1 3. rewrite !is_valid_modify by done. unfold modify.
  destruct (is_valid g i) eqn:Hi, (is_valid g j) eqn:Hj; simpl; try done.
  unfold with_entries; simpl. f_equal. apply update_at_comm. intros E. apply slot_inj in E.
  apply valid_get in Hi as [? Hi], Hj as [? Hj]. by apply Hij; eapply get_same_index.
Qed.

Lemma modify_ext g i f h : (forall e, get g i = Some e -> f e = h e) -> modify g i f = modify g i h.
Proof.
  intros Hf. unfold modify. destruct (is_valid g i) eqn:Hv; [|done].
  apply valid_get in Hv as [e He]. specialize (Hf e He). apply get_Some in He as (_ & He & _).
  unfold update_at. by rewrite He, Hf.
Qed.

Lemma get_modify_all g (h : NodeCore -> NodeCore) ps j :
  (forall c, h (h c) = h c) ->
  get (foldl (fun g p => modify g p (modify_core h)) g ps) j =
    if bool_decide (j ∈ ps) then modify_core h <$> get g j else get g j.
Proof.
  intros Hh. revert g. induction ps as [|p ps IH]; intros g; simpl.
  - done.
  - rewrite IH, get_modify. destruct (decide (j = p)) as [->|Hne].
    + rewrite (bool_decide_eq_true_2 (p ∈ p :: ps)) by (apply elem_of_cons; by left).
      case_bool_decide; [|done]. destruct (get g p) as [e|]; [|done]. simpl.
      unfold modify_core. simpl. by rewrite Hh.
    + assert (bool_decide (j ∈ p :: ps) = bool_decide (j ∈ ps)) as ->; [|done].
      apply bool_decide_ext. rewrite elem_of_cons. intuition congruence.
Qed.

Lemma modify_frame g i f :
  edges (modify g i f) = edges g /\ free_list (modify g i f) = free_list g /\
  input_names (modify g i f) = input_names g /\ length (entries (modify g i f)) = length (entries g).
Proof. unfold modify. destruct (is_valid g i); [|done]. simpl. by rewrite length_update_at. Qed.

Lemma modify_all_frame g f ps :
  let g' := foldl (fun g p => modify g p f) g ps in
  edges g' = edges g /\ free_list g' = free_list g /\ input_names g' = input_names g /\
  length (entries g') = length (entries g).
Proof.
  revert g. induction ps as [|p ps IH]; intros g; [done|]. simpl.
  destruct (IH (modify g p f)) as (E1 & E2 & E3 & E4), (modify_frame g p f) as (F1 & F2 & F3 & F4).
  repeat split; congruence.
Qed.

(** * The slot invariant *)

Record arena_wf g : Prop := {
  arena_room : N.of_nat (length (entries g)) <= U32_MAX;
  arena_free_NoDup : NoDup (free_list g);
  arena_free (k : N) : k ∈ free_list g <-> exists e, entries g !! slot k = Some e /\ vacant e = true;
  arena_gen k e : entries g !! k = Some e -> is_u32 (entry_generation e)
}.

Lemma slot_lt g (k : N) e : arena_wf g -> entries g !! slot k = Some e -> k < U32_MAX.
Proof.
  intros Hg Hi. apply lookup_lt_Some in Hi. pose proof (arena_room _ Hg). unfold slot in Hi. lia.
Qed.

Lemma valid_lt i : index i < U32_MAX -> valid i = true.
Proof. unfold valid. intros Hi. apply negb_true_iff, N.eqb_neq. lia. Qed.

Lemma arena_live_not_free g i e : arena_wf g -> get g i = Some e -> index i ∉ free_list g.
Proof.
  intros Hg Hi Hin. apply get_Some in Hi as (_ & Hi & Hv & _).
  apply (arena_free _ Hg) in Hin as (e' & Hi' & Hv'). simplify_eq. congruence.
Qed.

(** An edit of live cores keeps the slots. *)
Lemma arena_wf_modify_slot g i f : slot_keeping f -> arena_wf g -> arena_wf (modify g i f).
Proof.
  intros Hf Hg. destruct (modify_frame g i f) as (_ & Hfl & _ & Hlen).
  assert (Hl : forall k e, entries (modify g i f) !! k = Some e ->
    exists e', entries g !! k = Some e' /\ vacant e = vacant e' /\ entry_generation e = entry_generation e').
  { intros k e. unfold modify. destruct (is_valid g i); [|by eauto]. simpl. rewrite lookup_update_at.
    case_decide; [|by eauto]. destruct (entries g !! k) as [e'|] eqn:E; simpl; [|done].
    intros [= <-]. exists e'. by destruct (Hf e'). }
  assert (Hl' : forall k e', entries g !! k = Some e' -> exists e,
    entries (modify g i f) !! k = Some e /\ vacant e = vacant e').
  { intros k e' Hk. unfold modify. destruct (is_valid g i); [|by eauto]. simpl. rewrite lookup_update_at.
    case_decide; [|by eauto]. rewrite Hk. simpl. eexists. split; [done|]. apply Hf. }
  destruct Hg as [H1 H2 H3 H4]. split.
  - by rewrite Hlen.
  - by rewrite Hfl.
  - intros k. rewrite Hfl, H3. split.
    + intros (e & Hk & Hv). destruct (Hl' _ _ Hk) as (e' & ? & ?). exists e'. split; [done|congruence].
    + intros (e & Hk & Hv). destruct (Hl _ _ Hk) as (e' & ? & ? & ?). exists e'. split; [done|congruence].
  - intros k e Hk. destruct (Hl _ _ Hk) as (e' & Hk' & _ & ->). by apply (H4 k).
Qed.

Lemma arena_wf_modify g i h : arena_wf g -> arena_wf (modify g i (modify_core h)).
Proof. apply arena_wf_modify_slot, modify_core_keeping. Qed.

Lemma arena_wf_modify_all g h ps :
  arena_wf g -> arena_wf (foldl (fun g p => modify g p (modify_core h)) g ps).
Proof.
  revert g. induction ps as [|p ps IH]; intros g Hg; [done|]. simpl. apply IH. by apply arena_wf_modify.
Qed.

Lemma arena_wf_same g g' :
  entries g' = entries g -> free_list g' = free_list g -> arena_wf g -> arena_wf g'.
Proof. intros He Hf [H1 H2 H3 H4]. split; rewrite ?He, ?Hf; try done. Qed.

(** * Allocation *)

(** Room for one more node. *)
Definition has_room g : Prop := free_list g <> [] \/ N.of_nat (length (entries g)) < U32_MAX.

Lemma removelast_last_split {A} (l : list A) x :
  list.last l = Some x -> l = removelast l ++ [x].
Proof. intros Hl. apply last_Some in Hl as [l' ->]. by rewrite removelast_last. Qed.

Lemma allocate_spec g c b :
  arena_wf g -> has_room g ->
  let '(g', n) := allocate g c b in
  arena_wf g' /\ edges g' = edges g /\ input_names g' = input_names g /\ valid n = true /\
  get g n = None /\
  forall j, get g' j = if decide (j = n) then Some (mkEntry c b (generation n) false) else get g j.
Proof.
  intros Hg Hroom. unfold allocate. destruct (list.last (free_list g)) as [i|] eqn:Hl.
  - pose proof (removelast_last_split _ _ Hl) as Hsplit.
    assert (Hi : i ∈ free_list g) by (rewrite Hsplit; apply elem_of_app; right; by apply list_elem_of_singleton).
    apply (arena_free _ Hg) in Hi as (e & He & Hv). rewrite He.
    set (gen := next_generation _). set (e' := mkEntry c b gen false).
    pose proof (slot_lt _ _ _ Hg He) as Hlt.
    assert (Hlen : (slot i < length (entries g))%nat) by (by eapply lookup_lt_Some).
    pose proof (arena_free_NoDup _ Hg) as Hnd. rewrite Hsplit in Hnd.
    apply NoDup_app in Hnd as (Hnd & Hni & _).
    split; [|split; [done|split; [done|split; [by apply valid_lt|split]]]].
    + destruct Hg as [H1 H2 H3 H4]. split; simpl.
      * by rewrite length_insert.
      * done.
      * intros k. transitivity (k ∈ free_list g /\ k <> i).
        { rewrite Hsplit at 2. rewrite elem_of_app, list_elem_of_singleton. split.
          - intros Hk. split; [by left|]. intros ->. apply (Hni i Hk). by apply list_elem_of_singleton.
          - by intros [[?|?] ?]. }
        rewrite H3. split.
        -- intros [(x & Hx & Hvx) Hne]. exists x. rewrite list_lookup_insert_ne; [done|].
           intros E. apply slot_inj in E. by subst.
        -- intros (x & Hx & Hvx). destruct (decide (k = i)) as [->|Hne].
           ++ rewrite list_lookup_insert_eq in Hx by done. by simplify_eq.
           ++ rewrite list_lookup_insert_ne in Hx by (intros E; by apply slot_inj in E). eauto.
      * intros k x Hx. apply list_lookup_insert_Some in Hx as [(<- & <- & _)|[_ Hx]].
        -- apply as_u32_lt.
        -- by apply (H4 k).
    + destruct (get g (mkNodeId i gen)) as [x|] eqn:Hx; [|done].
      apply get_Some in Hx as (_ & Hx & Hvx & _). simpl in Hx. simplify_eq. congruence.
    + intros j. unfold get at 1, is_valid. simpl. destruct (decide (slot i = slot (index j))) as [E|E].
      * rewrite <- E, list_lookup_insert_eq by done. simpl. apply slot_inj in E.
        case_decide as Hj.
        -- subst j. rewrite N.eqb_refl. by rewrite valid_lt.
        -- rewrite (proj2 (N.eqb_neq _ _)), andb_false_r.
           ++ destruct (get g j) as [x|] eqn:Hx; [|done].
              apply get_Some in Hx as (_ & Hx & Hvx & _). rewrite <- E in Hx. simplify_eq. congruence.
           ++ intros Hgen. apply Hj. destruct j; simpl in *. by subst.
      * rewrite list_lookup_insert_ne by done. rewrite decide_False; [done|].
        intros ->. by apply E.
  - apply last_None in Hl. destruct Hroom as [?|Hroom]; [done|].
    set (n := as_u32 _). assert (Hn : n = N.of_nat (length (entries g))).
    { apply as_u32_id. unfold is_u32, U32_MAX in *. lia. }
    assert (Hsn : slot n = length (entries g)) by (unfold slot; lia).
    split; [|split; [done|split; [done|split; [apply valid_lt; simpl; lia|split]]]].
    + destruct Hg as [H1 H2 H3 H4]. split; simpl.
      * rewrite length_app. simpl. lia.
      * done.
      * intros k. rewrite H3. split.
        -- intros (x & Hx & Hvx). exists x. split; [by apply lookup_app_l_Some|done].
        -- intros (x & Hx & Hvx). apply lookup_app_Some in Hx as [Hx|[Hle Hx]]; [by eauto|].
           apply list_lookup_singleton_Some in Hx as [_ <-]. done.
      * intros k x Hx. apply lookup_app_Some in Hx as [Hx|[Hle Hx]]; [by apply (H4 k)|].
        apply list_lookup_singleton_Some in Hx as [_ <-]. done.
    + destruct (get g (mkNodeId n 0)) as [x|] eqn:Hx; [|done].
      apply get_Some in Hx as (_ & Hx & _). apply lookup_lt_Some in Hx. simpl in Hx. lia.
    + intros j. unfold get at 1, is_valid. simpl.
      destruct (decide (slot (index j) = length (entries g))) as [E|E].
      * rewrite E, list_lookup_middle by done. cbn [vacant entry_generation negb andb].
        assert (Ej : index j = n) by (apply slot_inj; congruence).
        case_decide as Hj.
        -- subst j. simpl. rewrite valid_lt by (simpl; lia). done.
        -- rewrite (proj2 (N.eqb_neq _ _)), andb_false_r.
           ++ destruct (get g j) as [x|] eqn:Hx; [|done].
              apply get_Some in Hx as (_ & Hx & _). apply lookup_lt_Some in Hx. lia.
           ++ intros Hgen. apply Hj. destruct j; simpl in *. by subst.
      * rewrite decide_False by (intros ->; by apply E).
        unfold get, is_valid. destruct (decide (slot (index j) < length (entries g))%nat).
        -- by rewrite lookup_app_l.
        -- rewrite !lookup_ge_None_2; [done|lia|]. rewrite length_app. simpl. lia.
Qed.
(** * Detaching *)

Lemma modify_vacant_slot g i f k x :
  entries g !! k = Some x -> vacant x = true -> entries (modify g i f) !! k = Some x.
Proof.
  intros Hk Hv. unfold modify. destruct (is_valid g i) eqn:Hi; [|done]. simpl.
  rewrite lookup_update_at, decide_False; [done|]. intros <-.
  apply valid_get in Hi as [e He]. apply get_Some in He as (_ & He & Hne & _). simplify_eq. congruence.
Qed.

Lemma modify_all_vacant_slot g f ps k x :
  entries g !! k = Some x -> vacant x = true ->
  entries (foldl (fun g p => modify g p f) g ps) !! k = Some x.
Proof.
  revert g. induction ps as [|p ps IH]; intros g Hk Hv; [done|]. simpl.
  apply IH; [|done]. by apply modify_vacant_slot.
Qed.

(** Marking a live slot vacant and putting it on the free list. *)
Definition vacate g i : Graph B :=
  match entries g !! slot (index i) with
  | Some e => with_free_list
      (with_entries g (<[slot (index i) := vacant_entry (entry_generation e)]> (entries g)))
      (free_list g ++ [index i])
  | None => g
  end.

Lemma vacate_spec g i e :
  arena_wf g -> get g i = Some e ->
  arena_wf (vacate g i) /\
  entries (vacate g i) !! slot (index i) = Some (vacant_entry (entry_generation e)) /\
  forall j, get (vacate g i) j = if decide (j = i) then None else get g j.
Proof.
  intros Hg He. pose proof (arena_live_not_free _ _ _ Hg He) as Hnf.
  pose proof He as He'. apply get_Some in He' as (Hvi & Hi & Hv & Hgen).
  assert (Hlen : (slot (index i) < length (entries g))%nat) by (by eapply lookup_lt_Some).
  unfold vacate. rewrite Hi. split; [|split].
  - destruct Hg as [H1 H2 H3 H4]. split; simpl.
    + by rewrite length_insert.
    + apply NoDup_app. split; [done|]. split; [|apply NoDup_singleton].
      intros x Hx. rewrite list_elem_of_singleton. by intros ->.
    + intros k. rewrite elem_of_app, list_elem_of_singleton, H3. split.
      * intros [(x & Hx & Hvx)| ->].
        -- exists x. rewrite list_lookup_insert_ne; [done|]. intros E. rewrite E in Hi. simplify_eq. congruence.
        -- eexists. by rewrite list_lookup_insert_eq.
      * intros (x & Hx & Hvx). apply list_lookup_insert_Some in Hx as [(E & _ & _)|[_ Hx]]; [|by eauto].
        right. symmetry. by apply slot_inj.
    + intros k x Hx. apply list_lookup_insert_Some in Hx as [(_ & <- & _)|[_ Hx]].
      * simpl. by apply (H4 _ _ Hi).
      * by apply (H4 k).
  - simpl. by apply list_lookup_insert_eq.
  - intros j. unfold get, is_valid. simpl. destruct (decide (slot (index i) = slot (index j))) as [E|E].
    + rewrite <- E, list_lookup_insert_eq by done. simpl. rewrite andb_false_r.
      case_decide as Hj; [done|]. apply slot_inj in E.
      rewrite Hi, Hv, (proj2 (N.eqb_neq _ _)); [by rewrite !andb_false_r|].
      intros Hgj. apply Hj. destruct i, j; simpl in *. congruence.
    + rewrite list_lookup_insert_ne by done. rewrite decide_False; [done|]. intros ->. by apply E.
Qed.

Lemma without_link_idemp i c : without_link i (without_link i c) = without_link i c.
Proof.
  unfold without_link. simpl. f_equal. rewrite retain_retain. apply retain_ext. intros x _.
  by rewrite andb_diag.
Qed.

Lemma take_node_spec g i e :
  arena_wf g -> get g i = Some e ->
  exists g', take_node g i = (g', Some e) /\ arena_wf g' /\
    edges g' = retain (fun x => negb (touches i x)) (edges g) /\ input_names g' = input_names g /\
    free_list g' = free_list g ++ [index i] /\ length (entries g') = length (entries g) /\
    entries g' !! slot (index i) = Some (vacant_entry (entry_generation e)) /\
    (links (core e) = [] -> entries g' = <[slot (index i) := vacant_entry (entry_generation e)]> (entries g)) /\
    forall j, get g' j =
      if decide (j = i) then None
      else if bool_decide (j ∈ links (core e)) then modify_core (without_link i) <$> get g j else get g j.
Proof.
  intros Hg He. destruct (vacate_spec g i e Hg He) as (Hw & Hs & Hget).
  pose proof He as He'. apply get_Some in He' as (_ & Hi & _ & _).
  unfold take_node. rewrite (get_valid _ _ _ He). simpl. rewrite Hi.
  set (g1 := with_free_list _ _). assert (Eg1 : g1 = vacate g i) by (unfold vacate; by rewrite Hi).
  rewrite drop_edges_spec. set (g2 := with_edges g1 _).
  eexists. split; [reflexivity|].
  destruct (modify_all_frame g2 (modify_core (without_link i)) (links (core e))) as (E1 & E2 & E3 & E4).
  rewrite <- Eg1 in Hw, Hs, Hget.
  split; [|split; [by rewrite E1|split; [by rewrite E3|split; [by rewrite E2|split; [|split; [|split]]]]]].
  - apply arena_wf_modify_all. by apply (arena_wf_same g1).
  - rewrite E4. simpl. by rewrite length_insert.
  - by apply modify_all_vacant_slot.
  - intros ->. done.
  - intros j. rewrite get_modify_all by apply without_link_idemp. change (get g2 j) with (get g1 j). rewrite Hget.
    case_decide; [by case_bool_decide|done].
Qed.

(** * Re-inserting *)

Lemma add_entry_vacant_spec g i e old :
  arena_wf g -> entries g !! slot (index i) = Some old -> vacant old = true ->
  vacant e = false -> is_u32 (entry_generation e) ->
  let n := mkNodeId (index i) (entry_generation e) in
  exists g', add_entry g e i = (g', n) /\ arena_wf g' /\
    edges g' = edges g /\ input_names g' = input_names g /\
    free_list g' = retain (fun x => negb (x =? index i)) (free_list g) /\
    entries g' = <[slot (index i) := e]> (entries g) /\ get g n = None /\
    forall j, get g' j = if decide (j = n) then Some e else get g j.
Proof.
  intros Hg Hold Hvo Hve Hgen n. unfold add_entry. rewrite Hold, Hvo.
  eexists. split; [reflexivity|]. pose proof (slot_lt _ _ _ Hg Hold) as Hlt.
  assert (Hlen : (slot (index i) < length (entries g))%nat) by (by eapply lookup_lt_Some).
  split; [|split; [done|split; [done|split; [done|split; [done|split]]]]].
  - destruct Hg as [H1 H2 H3 H4]. split; simpl.
    + by rewrite length_insert.
    + by apply retain_NoDup.
    + intros k. rewrite elem_of_retain, negb_true_iff, N.eqb_neq, H3. split.
      * intros [(x & Hx & Hvx) Hne]. exists x. rewrite list_lookup_insert_ne; [done|].
        intros E. apply slot_inj in E. by subst.
      * intros (x & Hx & Hvx). destruct (decide (k = index i)) as [->|Hne].
        -- rewrite list_lookup_insert_eq in Hx by done. simplify_eq. congruence.
        -- rewrite list_lookup_insert_ne in Hx by (intros E; by apply slot_inj in E). eauto.
    + intros k x Hx. apply list_lookup_insert_Some in Hx as [(_ & <- & _)|[_ Hx]]; [done|by apply (H4 k)].
  - destruct (get g n) as [x|] eqn:Hx; [|done].
    apply get_Some in Hx as (_ & Hx & Hvx & _). simpl in Hx. simplify_eq. congruence.
  - intros j. unfold get at 1, is_valid. simpl. destruct (decide (slot (index i) = slot (index j))) as [E|E].
    + rewrite <- E, list_lookup_insert_eq by done. rewrite Hve. simpl. apply slot_inj in E.
      case_decide as Hj.
      * subst j. simpl. rewrite N.eqb_refl. by rewrite valid_lt.
      * rewrite (proj2 (N.eqb_neq _ _)), andb_false_r.
        -- destruct (get g j) as [x|] eqn:Hx; [|done].
           apply get_Some in Hx as (_ & Hx & Hvx & _). rewrite <- E in Hx. simplify_eq. congruence.
        -- intros Hgj. apply Hj. destruct j; simpl in *. by subst.
    + rewrite list_lookup_insert_ne by done. rewrite decide_False; [done|]. intros ->. by apply E.
Qed.

Lemma next_generation_ne x : is_u32 x -> next_generation x <> x.
Proof.
  unfold next_generation, as_u32, is_u32. intros Hx.
  destruct (N.eq_dec (x + 1) (2 ^ 32)) as [E|E].
  - rewrite E, N.Div0.mod_same. lia.
  - rewrite N.mod_small; lia.
Qed.

Lemma retain_free_snoc (k : N) l : k ∉ l -> retain (fun x => negb (x =? k)) (l ++ [k]) = l.
Proof.
  intros Hk. rewrite retain_app, retain_all.
  - unfold retain. simpl. rewrite N.eqb_refl. simpl. apply app_nil_r.
  - intros x Hx. apply negb_true_iff, N.eqb_neq. by intros ->.
Qed.

(** A node nothing refers to is detached and re-inserted without a trace. *)
Lemma take_add_isolated g i e :
  arena_wf g -> get g i = Some e -> links (core e) = [] -> (forall x, x ∈ edges g -> touches i x = false) ->
  exists g1, take_node g i = (g1, Some e) /\ arena_wf g1 /\ add_entry g1 e i = (g, i).
Proof.
  intros Hg He Hlinks Htouch.
  destruct (take_node_spec g i e Hg He) as (g1 & Ht & Hw1 & Hed & Hin & Hf & _ & Hs & Hiso & _).
  pose proof (arena_live_not_free _ _ _ Hg He) as Hnf.
  apply get_Some in He as (_ & Hi & Hv & Hgen).
  exists g1. split; [done|]. split; [done|].
  unfold add_entry. rewrite Hs. cbn [vacant vacant_entry].
  rewrite (Hiso Hlinks), Hin, Hed, Hf, list_insert_insert_eq, list_insert_id, retain_free_snoc by done.
  rewrite retain_all by (intros x Hx; by rewrite Htouch).
  rewrite Hgen. by destruct g, i.
Qed.

(** C20: detaching a node and re-inserting its entry (delete and undo of a
    node) gives back the same id and the same entry; other nodes only lose
    their links to it, which [are_linked] still reports from the restored
    side, and only edges touching it are gone.  A node without edges and
    links is restored to the identical graph. *)
Theorem take_add_roundtrip g i e :
  arena_wf g -> get g i = Some e ->
  exists g1 g2, take_node g i = (g1, Some e) /\ add_entry g1 e i = (g2, i) /\ arena_wf g2 /\
    get g2 i = Some e /\
    (forall j, j <> i -> get g2 j =
       if bool_decide (j ∈ links (core e)) then modify_core (without_link i) <$> get g j else get g j) /\
    (forall j, j ∈ links (core e) -> are_linked g2 i j = true) /\
    edges g2 = retain (fun x => negb (touches i x)) (edges g) /\
    free_list g2 = free_list g /\
    (links (core e) = [] -> (forall x, x ∈ edges g -> touches i x = false) -> g2 = g).
Proof.
  intros Hg He.
  destruct (take_node_spec g i e Hg He) as (g1 & Ht & Hw1 & Hed & Hin & Hf & Hl & Hs & Hiso & Hget1).
  pose proof (arena_live_not_free _ _ _ Hg He) as Hnf.
  pose proof He as He'. apply get_Some in He' as (Hvi & Hi & Hv & Hgen).
  pose proof (arena_gen _ Hg _ _ Hi) as Hu.
  destruct (add_entry_vacant_spec g1 i e _ Hw1 Hs eq_refl Hv Hu) as
    (g2 & Ha & Hw2 & Hed2 & Hin2 & Hf2 & Hent2 & _ & Hget2).
  rewrite Hgen in Ha, Hget2. replace (mkNodeId (index i) (generation i)) with i in Ha, Hget2 by (by destruct i).
  exists g1, g2. split; [done|]. split; [done|]. split; [done|].
  assert (Hi2 : get g2 i = Some e) by (by rewrite Hget2, decide_True).
  split; [done|]. split; [|split; [|split; [by rewrite Hed2|split]]].
  - intros j Hj. rewrite Hget2, decide_False, Hget1, decide_False by done. done.
  - intros j Hj. unfold are_linked, links_to. rewrite Hi2.
    by rewrite (bool_decide_eq_true_2 (j ∈ links (core e))).
  - rewrite Hf2, Hf. by apply retain_free_snoc.
  - intros Hlinks Htouch.
    destruct (take_add_isolated g i e Hg He Hlinks Htouch) as (g1' & Ht' & _ & Ha').
    rewrite Ht in Ht'. simplify_eq. rewrite Ha in Ha'. by simplify_eq.
Qed.

End arena.

(** * A concrete behaviour

    For the runs below a behaviour is its type id; the two endpoints refuse
    duplication. *)

Definition name_behavior : NodeBehavior string := {|
  type_id b := b;
  duplicate b _ := if (b =? GRAPH_INPUT_TYPE_ID)%string || (b =? GRAPH_OUTPUT_TYPE_ID)%string
                   then None else Some b;
  EmptyBehavior := "";
  GraphInputNode := GRAPH_INPUT_TYPE_ID;
  GraphOutputNode := GRAPH_OUTPUT_TYPE_ID
|}.

#[local] Existing Instance name_behavior.

#[local] Instance name_behavior_laws : NodeBehaviorLaws string.
Proof. by split. Qed.

(** Two linked nodes and a third. *)
Definition three_nodes : Graph string :=
  let '(g, a) := add_node Graph_new NodeCore_new "a" in
  let '(g, b) := add_node g NodeCore_new "b" in
  let '(g, c) := add_node g NodeCore_new "c" in
  (link g a b).1.

Lemma arena_wf_new {B} `{NodeBehavior B} : arena_wf (Graph_new : Graph B).
Proof.
  split; simpl; [done|constructor| |].
  - intros k. rewrite elem_of_nil. split; [done|]. by intros (e & ? & _).
  - done.
Qed.

Lemma three_nodes_wf : arena_wf three_nodes.
Proof.
  split.
  - vm_compute; discriminate.
  - constructor.
  - intros k. change (free_list three_nodes) with (@nil N). rewrite elem_of_nil. split; [done|].
    intros (e & He & Hv). apply list_elem_of_lookup_2 in He.
    change (entries three_nodes) with (entries three_nodes) in He.
    vm_compute in He. repeat (apply elem_of_cons in He as [->|He]; [done|]). by apply elem_of_nil in He.
  - intros k e He. apply list_elem_of_lookup_2 in He. vm_compute in He.
    repeat (apply elem_of_cons in He as [->|He]; [done|]). by apply elem_of_nil in He.
Qed.

Lemma take_add_roundtrip_witness :
  exists e g1 g2, get three_nodes (mkNodeId 1 0) = Some e /\
    take_node three_nodes (mkNodeId 1 0) = (g1, Some e) /\
    add_entry g1 e (mkNodeId 1 0) = (g2, mkNodeId 1 0) /\
    get g2 (mkNodeId 1 0) = Some e /\ are_linked g2 (mkNodeId 1 0) (mkNodeId 0 0) = true.
Proof.
  destruct (get three_nodes (mkNodeId 1 0)) as [e|] eqn:He; [|vm_compute in He; discriminate].
  destruct (take_add_roundtrip three_nodes (mkNodeId 1 0) e three_nodes_wf He)
    as (g1 & g2 & H1 & H2 & _ & H3 & _ & H4 & _).
  exists e, g1, g2. split; [reflexivity|]. split; [exact H1|]. split; [exact H2|]. split; [exact H3|].
  apply H4. vm_compute in He. injection He as <-. apply elem_of_cons. left. reflexivity.
Defined.
