(* ===== verification/Dag.v ===== *)
(** Connections (crates/oak-node/src/graph.rs): the depth-first [reaches] is
    reachability, [connect] accepts exactly the edges that keep the graph a
    single-source-per-input DAG of live nodes, and every operation of the
    graph keeps that invariant. *)

From stdpp Require Import relations.
From S2P Require Import Prelude Rational Ids Value Keyframe NodeCore Graph Arena.

Local Open Scope N_scope.

Section dag.
Context {B : Type} `{NodeBehavior B} `{InputHash}.
Implicit Types (g : Graph B) (i j a b n : NodeId) (x y : Edge).

(** * Reachability *)

(** Some edge leads from [a] to [b]. *)
Definition arc g a b : Prop := exists x, x ∈ edges g /\ from x = a /\ to x = b.

Definition acyclic g : Prop := forall a, ~ tc (arc g) a a.

Lemma elem_of_targets g n b : b ∈ targets g n <-> arc g n b.
Proof.
  unfold targets, arc. rewrite list_elem_of_fmap. split.
  - intros (x & -> & Hx). apply elem_of_retain in Hx as [Hx E]. apply NodeId_eqb_true in E. eauto.
  - intros (x & Hx & <- & <-). exists x. split; [done|]. apply elem_of_retain.
    by rewrite NodeId_eqb_refl.
Qed.

(** Edges whose source has not been expanded. *)
Definition unseen g (seen : gset NodeId) : list Edge :=
  retain (fun x => negb (bool_decide (from x ∈ seen))) (edges g).

Lemma unseen_expand g n seen :
  n ∉ seen -> (length (targets g n) + length (unseen g ({[n]} ∪ seen)) = length (unseen g seen))%nat.
Proof.
  intros Hn. unfold targets, unseen, retain. rewrite length_fmap.
  induction (edges g) as [|x l IH]; simpl; [done|].
  destruct (NodeId_eqb (from x) n) eqn:E.
  - apply NodeId_eqb_true in E. rewrite E.
    rewrite (bool_decide_eq_true_2 (n ∈ {[n]} ∪ seen)) by set_solver.
    rewrite (bool_decide_eq_false_2 (n ∈ seen)) by done. simpl. lia.
  - apply NodeId_eqb_false in E.
    assert (bool_decide (from x ∈ {[n]} ∪ seen) = bool_decide (from x ∈ seen)) as ->.
    { apply bool_decide_ext. rewrite elem_of_union, elem_of_singleton. intuition congruence. }
    destruct (bool_decide (from x ∈ seen)); simpl; lia.
Qed.

Lemma unseen_le g seen : (length (unseen g seen) <= length (edges g))%nat.
Proof. apply List.filter_length_le. Qed.

Definition dfs_inv g (f t : NodeId) (s : list NodeId * gset NodeId) : Prop :=
  let '(stack, seen) := s in
  (forall n, n ∈ stack -> rtc (arc g) f n) /\ (t ∉ seen) /\ (f ∈ seen \/ f ∈ stack) /\
  (forall a b, a ∈ seen -> arc g a b -> b ∈ seen \/ b ∈ stack).

Definition dfs_measure g (s : list NodeId * gset NodeId) : nat :=
  (length s.1 + length (unseen g s.2))%nat.

Lemma dfs_step_ok g f t s :
  dfs_inv g f t s ->
  match reaches_step g t s with
  | inl s' => dfs_inv g f t s' /\ (dfs_measure g s' < dfs_measure g s)%nat
  | inr r => r = true <-> rtc (arc g) f t
  end.
Proof.
  destruct s as [stack seen]. intros (H1 & H2 & H3 & H4). unfold reaches_step.
  destruct (list.last stack) as [n|] eqn:Hl.
  - apply last_Some in Hl as [rest ->]. rewrite removelast_last.
    assert (Hin : forall m, m ∈ rest ++ [n] <-> m ∈ rest \/ m = n).
    { intros m. rewrite elem_of_app, list_elem_of_singleton. done. }
    assert (Hlen : length (rest ++ [n]) = S (length rest)) by (rewrite length_app; simpl; lia).
    assert (Hn : rtc (arc g) f n) by (apply H1, Hin; by right).
    destruct (NodeId_eqb n t) eqn:E.
    + apply NodeId_eqb_true in E. by subst.
    + apply NodeId_eqb_false in E. case_bool_decide as Hseen.
      * split; [|unfold dfs_measure; simpl; lia]. split; [|split; [done|split]].
        -- intros m Hm. apply H1, Hin. by left.
        -- destruct H3 as [?|H3]; [by left|]. apply Hin in H3 as [?| ->]; [by right|by left].
        -- intros a b Ha Hab. destruct (H4 a b Ha Hab) as [?|Hb]; [by left|].
           apply Hin in Hb as [?| ->]; [by right|by left].
      * split.
        -- split; [|split; [set_solver|split]].
           ++ intros m Hm. apply elem_of_app in Hm as [Hm|Hm]; [apply H1, Hin; by left|].
              apply elem_of_targets in Hm. by eapply rtc_r.
           ++ destruct H3 as [?|H3]; [left; set_solver|]. apply Hin in H3 as [?| ->]; [right|left; set_solver].
              apply elem_of_app. by left.
           ++ intros a b Ha Hab. rewrite elem_of_app, elem_of_targets.
              apply elem_of_union in Ha as [Ha|Ha].
              ** apply elem_of_singleton in Ha as ->. by right; right.
              ** destruct (H4 a b Ha Hab) as [?|Hb]; [left; set_solver|].
                 apply Hin in Hb as [?| ->]; [by right; left|left; set_solver].
        -- unfold dfs_measure. cbn [fst snd]. rewrite length_app.
           pose proof (unseen_expand g n seen Hseen). lia.
  - apply last_None in Hl. subst stack. split; [done|]. intros Hr. exfalso. apply H2.
    assert (Hf : f ∈ seen) by (destruct H3 as [?|H3]; [done|by apply elem_of_nil in H3]).
    clear H1 H3. induction Hr as [a|a b c Hab _ IH]; [done|].
    apply IH; [done|]. destruct (H4 a b Hf Hab) as [?|Hb]; [done|by apply elem_of_nil in Hb].
Qed.

Lemma reaches_spec g f t : reaches g f t = true <-> rtc (arc g) f t.
Proof.
  unfold reaches.
  destruct (while_fuel_spec (reaches_step g t) (dfs_inv g f t) (fun r => r = true <-> rtc (arc g) f t)
    (dfs_measure g)) with (fuel := S (S (length (edges g)))) (s := ([f], ∅ : gset NodeId)) as (r & -> & Hr).
  - intros s Hs. by apply dfs_step_ok.
  - split; [|split; [set_solver|split]].
    + intros n Hn. by apply list_elem_of_singleton in Hn as ->.
    + right. by apply list_elem_of_singleton.
    + intros a b Ha. set_solver.
  - unfold dfs_measure. cbn [fst snd length]. pose proof (unseen_le g ∅). lia.
  - exact Hr.
Qed.

(** C21: the search of [reaches] terminates and decides reachability along
    edges. *)
Theorem reaches_correct g f t : reaches g f t = true <-> rtc (arc g) f t.
Proof. apply reaches_spec. Qed.

(** * [connect] *)

(** The input descriptor an edge would feed. *)
Definition target_input g t (input : string) : option Input := e ← get g t; get_input (core e) input.

Lemma find_Some {A} (p : A -> bool) l z : find p l = Some z -> z ∈ l /\ p z = true.
Proof. unfold find. intros Hf. apply List.find_some in Hf as [Hin Hp]. split; [by apply list_elem_of_In|done]. Qed.

Lemma find_None {A} (p : A -> bool) l : find p l = None <-> forall z, z ∈ l -> p z = false.
Proof.
  unfold find. split.
  - intros Hf z Hz. apply List.find_none with (x := z) in Hf; [done|by apply list_elem_of_In].
  - intros Hf. destruct (List.find p l) as [z|] eqn:E; [|done].
    apply List.find_some in E as [Hin Hp]. rewrite Hf in Hp; [done|by apply list_elem_of_In].
Qed.

Lemma feeds_true t key el x : feeds t key el x = true <-> to x = t /\ input_key x = key /\ element x = el.
Proof. unfold feeds. rewrite !andb_true_iff, NodeId_eqb_true, !Z.eqb_eq. tauto. Qed.

Lemma connected_output_None g t input el :
  connected_output g t input el = None <->
  forall x, x ∈ edges g -> ~ (to x = t /\ input_key x = hash_str input /\ element x = el).
Proof.
  unfold connected_output. rewrite fmap_None, find_None.
  split; intros Hx x Hin; specialize (Hx x Hin).
  - intros Hf. apply feeds_true in Hf. congruence.
  - apply not_true_iff_false. by rewrite feeds_true.
Qed.

Lemma connected_output_Some g t input el f :
  connected_output g t input el = Some f -> mkEdge f t (hash_str input) el ∈ edges g.
Proof.
  unfold connected_output. intros Hc. apply fmap_Some in Hc as (x & Hx & ->).
  apply find_Some in Hx as [Hin Hf]. apply feeds_true in Hf as (<- & <- & <-). by destruct x.
Qed.

Lemma is_input_connected_true g t input el :
  is_input_connected g t input el = true <-> is_Some (connected_output g t input el).
Proof. unfold is_input_connected. apply bool_decide_eq_true. Qed.

(** The accepted case of [connect]. *)
Definition connectable g (f t : NodeId) (input : string) (el : Z) : Prop :=
  is_valid g f = true /\ is_valid g t = true /\
  (exists z, target_input g t input = Some z /\ is_connectable z = true /\ (is_array z = true \/ el = (-1)%Z)) /\
  connected_output g t input el = None /\ ~ rtc (arc g) t f.

Definition connected g (f t : NodeId) (input : string) (el : Z) : Graph B :=
  let g' := (intern_input g input).1 in
  with_edges g' (edge_insert (mkEdge f t (hash_str input) el) (edges g)).

Lemma connect_cases g f t input el :
  (connect g f t input el = (connected g f t input el, None) /\ connectable g f t input el) \/
  (exists e, connect g f t input el = (g, Some e) /\ ~ connectable g f t input el).
Proof.
  unfold connect, connectable, target_input.
  destruct (is_valid g f) eqn:Hf; [|right; eexists; split; [done|]; by intros (? & _)].
  destruct (is_valid g t) eqn:Ht; [|right; eexists; split; [done|]; by intros (_ & ? & _)].
  cbn [negb orb]. destruct (e ← get g t; get_input (core e) input) as [x|] eqn:Hx;
    [|right; eexists; split; [done|]; by intros (_ & _ & (? & ? & _) & _)].
  destruct (is_connectable x) eqn:Hc; unfold is_connectable in Hc; rewrite Hc; cbn [negb];
    [|right; eexists; split; [done|]; intros (_ & _ & (y & Hy & Hyc & _) & _); simplify_eq;
      unfold is_connectable in Hyc; congruence].
  destruct ((Z.land (flags x) ARRAY =? 0)%Z && negb (el =? -1)%Z) eqn:Ha.
  { right; eexists; split; [done|]; intros (_ & _ & (y & Hy & _ & Hya) & _); simplify_eq.
    unfold is_array in Hya. b2p. destruct Hya as [Hya|Hya]; [|done]. b2p. lia. }
  assert (Ha' : is_array x = true \/ el = (-1)%Z).
  { unfold is_array. apply andb_false_iff in Ha as [Ha|Ha]; [left; by rewrite Ha|right; by b2p]. }
  destruct (NodeId_eqb f t) eqn:E.
  { apply NodeId_eqb_true in E. subst. right; eexists; split; [done|]; intros (_ & _ & _ & _ & Hr).
    by apply Hr. }
  destruct (is_input_connected g t input el) eqn:Hic.
  { apply is_input_connected_true in Hic. right; eexists; split; [done|]; intros (_ & _ & _ & Hn & _).
    rewrite Hn in Hic. by destruct Hic. }
  assert (Hn : connected_output g t input el = None).
  { destruct (connected_output g t input el) eqn:Hco; [|done].
    assert (is_input_connected g t input el = true) by (apply is_input_connected_true; by rewrite Hco). congruence. }
  destruct (reaches g t f) eqn:Hr.
  { right; eexists; split; [done|]; intros (_ & _ & _ & _ & Hnr). by apply Hnr, reaches_spec. }
  left. split; [done|]. split; [done|]. split; [done|]. split; [by exists x|]. split; [done|].
  intros Hnr. apply reaches_spec in Hnr. congruence.
Qed.

Lemma connected_edges g f t input el x :
  x ∈ edges (connected g f t input el) <-> x = mkEdge f t (hash_str input) el \/ x ∈ edges g.
Proof. unfold connected. simpl. by rewrite elem_of_edge_insert. Qed.

Lemma connected_get g f t input el i : get (connected g f t input el) i = get g i.
Proof. by apply get_entries. Qed.

(** The errors in the order the code tests them. *)
Lemma connect_errors g f t input el :
  ((connect g f t input el).2 = Some E_NotFound <->
     is_valid g f = false \/ is_valid g t = false \/ target_input g t input = None) /\
  ((connect g f t input el).2 = Some E_Invalid <->
     is_valid g f = true /\ is_valid g t = true /\
     exists z, target_input g t input = Some z /\
       (is_connectable z = false \/ (is_array z = false /\ el <> (-1)%Z))).
Proof.
  unfold connect, target_input.
  destruct (is_valid g f); cbn [negb orb snd];
    [|split; [tauto|split; [done|by intros (? & _)]]].
  destruct (is_valid g t); cbn [negb orb snd];
    [|split; [tauto|split; [done|by intros (_ & ? & _)]]].
  destruct (e ← get g t; get_input (core e) input) as [x|]; cbn [snd];
    [|split; [split; [by right; right|done]|split; [done|by intros (_ & _ & ? & ? & _)]]].
  destruct (is_connectable x) eqn:Hc; unfold is_connectable in Hc; rewrite Hc; cbn [negb snd].
  2:{ split; [split; [done|by intros [|[|]]]|split; [intros _; split; [done|split; [done|]]|done]].
      exists x. split; [done|]. by left. }
  unfold is_array. destruct (Z.land (flags x) ARRAY =? 0)%Z eqn:Ea, (el =? -1)%Z eqn:Ee; cbn [negb andb snd].
  2:{ b2p. split; [split; [done|by intros [|[|]]]|split; [intros _; split; [done|split; [done|]]|done]].
      exists x. split; [done|]. right. by rewrite Ea. }
  all: destruct (NodeId_eqb f t), (is_input_connected g t input el), (reaches g t f); cbn [snd];
    (split; [split; [done|by intros [|[|]]]|split; [done|]]; intros (_ & _ & z & Hz & Hor); simplify_eq;
     unfold is_connectable in Hor; rewrite Hc, ?Ea in Hor; destruct Hor as [|[]]; try done; b2p; done).
Qed.

(** C22: [connect] adds exactly the requested edge when both nodes are live,
    the input exists, accepts connections and addresses the element, is free,
    and the source is not reachable from the target; otherwise the graph is
    unchanged and the error is, in this order, [NotFound] for a stale node or
    an unknown input, [Invalid] for the input's flags or element, and [State]
    for an occupied input, a self edge or a cycle.  An array input accepts every
    element, negative ones too, although a comment in [connect] says that its
    elements are not negative. *)
Theorem connect_outcome g f t input el :
  let r := connect g f t input el in
  (r.2 = None <-> connectable g f t input el) /\
  (r.2 = None -> entries r.1 = entries g /\ free_list r.1 = free_list g /\
     (forall x, x ∈ edges r.1 <-> x = mkEdge f t (hash_str input) el \/ x ∈ edges g) /\
     connected_output r.1 t input el = Some f /\ is_Some (input_names r.1 !! hash_str input)) /\
  (r.2 <> None -> r.1 = g) /\
  (r.2 = Some E_NotFound <->
     is_valid g f = false \/ is_valid g t = false \/ target_input g t input = None) /\
  (r.2 = Some E_Invalid <->
     is_valid g f = true /\ is_valid g t = true /\
     exists z, target_input g t input = Some z /\
       (is_connectable z = false \/ (is_array z = false /\ el <> (-1)%Z))) /\
  (r.2 = Some E_State <->
     is_valid g f = true /\ is_valid g t = true /\
     (exists z, target_input g t input = Some z /\ is_connectable z = true /\
        (is_array z = true \/ el = (-1)%Z)) /\
     (is_Some (connected_output g t input el) \/ rtc (arc g) t f)).
Proof.
  intros r. pose proof (connect_errors g f t input el) as [HN HI]. fold r in HN, HI.
  destruct (connect_cases g f t input el) as [[E Hc]|(e & E & Hc)]; fold r in E.
  - rewrite E. cbn [fst snd]. split; [done|]. split; [|split; [done|split; [|split]]].
    + intros _. split; [done|]. split; [done|]. split; [apply connected_edges|]. split.
      * destruct (connected_output (connected g f t input el) t input el) as [f'|] eqn:Hco.
        -- apply connected_output_Some, connected_edges in Hco as [Heq|Hin]; [congruence|].
           destruct Hc as (_ & _ & _ & Hfree & _).
           exfalso. by apply (proj1 (connected_output_None g t input el) Hfree _ Hin).
        -- exfalso. apply (proj1 (connected_output_None _ t input el) Hco (mkEdge f t (hash_str input) el)).
           ++ apply connected_edges. by left.
           ++ done.
      * simpl. destruct (input_names g !! hash_str input) eqn:En; [by rewrite En|].
        by rewrite lookup_insert_eq.
    + rewrite E in HN. exact HN.
    + rewrite E in HI. exact HI.
    + split; [done|]. destruct Hc as (Hvf & Hvt & _ & Hfree & Hr). intros (_ & _ & _ & [[? Hs]|Hs]); [congruence|done].
  - rewrite E. cbn [fst snd]. split; [done|]. split; [done|]. split; [done|].
    rewrite E in HN, HI. cbn [snd] in HN, HI. split; [exact HN|]. split; [exact HI|].
    split.
    + intros [= ->]. destruct (is_valid g f) eqn:Hf; [|by destruct HN as [_ HN]; discriminate HN; left].
      destruct (is_valid g t) eqn:Ht; [|by destruct HN as [_ HN]; discriminate HN; right; left].
      destruct (target_input g t input) as [z|] eqn:Hz; [|by destruct HN as [_ HN]; discriminate HN; right; right].
      destruct (is_connectable z) eqn:Hcz; [|by destruct HI as [_ HI]; discriminate HI; eauto 10].
      assert (Hel : is_array z = true \/ el = (-1)%Z).
      { destruct (is_array z) eqn:Ha; [by left|]. destruct (decide (el = (-1)%Z)); [by right|].
        destruct HI as [_ HI]. discriminate HI. eauto 10. }
      split; [done|]. split; [done|]. split; [by eauto|].
      destruct (connected_output g t input el) eqn:Hco; [left; by eexists|]. right.
      apply reaches_spec. destruct (reaches g t f) eqn:Hr; [done|]. exfalso. apply Hc.
      split; [done|]. split; [done|]. split; [by exists z|]. split; [done|].
      intros Hnr. apply reaches_spec in Hnr. congruence.
    + intros (Hf & Ht & (z & Hz & Hcz & Hel) & _). destruct e; try done.
      * destruct HI as [HI _]. destruct (HI eq_refl) as (_ & _ & y & Hy & Hor). simplify_eq.
        destruct Hor as [|[]], Hel; congruence.
      * exfalso. revert E. subst r. unfold connect. repeat (case_match; try done).
      * destruct HN as [HN _]. destruct (HN eq_refl) as [|[|]]; congruence.
      * exfalso. revert E. subst r. unfold connect. repeat (case_match; try done).
Qed.

(** * The graph invariant *)

Record graph_wf g : Prop := {
  graph_arena : arena_wf g;
  graph_live x : x ∈ edges g -> is_valid g (from x) = true /\ is_valid g (to x) = true;
  graph_single x y : x ∈ edges g -> y ∈ edges g ->
    to x = to y -> input_key x = input_key y -> element x = element y -> x = y;
  graph_acyclic : acyclic g
}.

Lemma tc_mono (R S : NodeId -> NodeId -> Prop) a b : (forall c d, R c d -> S c d) -> tc R a b -> tc S a b.
Proof. intros HRS. induction 1; [by apply tc_once, HRS|by eapply tc_l; [apply HRS|]]. Qed.

(** Dropping edges keeps the invariant. *)
Lemma graph_wf_sub g g' :
  graph_wf g -> arena_wf g' ->
  (forall x, x ∈ edges g' -> x ∈ edges g) ->
  (forall x, x ∈ edges g' -> is_valid g' (from x) = true /\ is_valid g' (to x) = true) ->
  graph_wf g'.
Proof.
  intros [H1 H2 H3 H4] Ha Hs Hv. split; [done|done| |].
  - intros x y Hx Hy. apply H3; by apply Hs.
  - intros a Hc. apply (H4 a). revert Hc. apply tc_mono.
    intros c d (x & Hx & ? & ?). exists x. split; [by apply Hs|done].
Qed.

(** Same edges and no id invalidated. *)
Lemma graph_wf_grow g g' :
  graph_wf g -> arena_wf g' -> edges g' = edges g ->
  (forall i, is_valid g i = true -> is_valid g' i = true) -> graph_wf g'.
Proof.
  intros Hg Ha He Hv. apply (graph_wf_sub g); [done|done| |]; rewrite He.
  - done.
  - intros x Hx. destruct (graph_live _ Hg _ Hx). auto.
Qed.

(** One more edge adds at most paths through it. *)
Lemma tc_new_arc (R : NodeId -> NodeId -> Prop) f t a b :
  tc (fun c d => R c d \/ (c = f /\ d = t)) a b -> tc R a b \/ (rtc R a f /\ rtc R t b).
Proof.
  induction 1 as [a b [Hab|[-> ->]]|a c b [Hac|[-> ->]] _ IH].
  - left. by apply tc_once.
  - by right.
  - destruct IH as [IH|[IH1 IH2]].
    + left. by eapply tc_l.
    + right. split; [by eapply rtc_l|done].
  - right. split; [done|]. destruct IH as [IH|[_ IH]]; [by apply tc_rtc|done].
Qed.

Lemma graph_wf_connected g f t input el :
  graph_wf g -> connectable g f t input el -> graph_wf (connected g f t input el).
Proof.
  intros [H1 H2 H3 H4] (Hf & Ht & _ & Hfree & Hr).
  assert (Hv : forall i, is_valid (connected g f t input el) i = is_valid g i).
  { intros i. by rewrite !is_valid_get, connected_get. }
  pose proof (proj1 (connected_output_None g t input el) Hfree) as Hno. split.
  - by apply (arena_wf_same g).
  - intros x Hx. rewrite !Hv. apply connected_edges in Hx as [->|Hx]; [done|by apply H2].
  - intros x y Hx Hy Eto Ek Ee. apply connected_edges in Hx, Hy.
    destruct Hx as [->|Hx], Hy as [->|Hy]; simpl in *.
    + done.
    + destruct (Hno _ Hy). done.
    + destruct (Hno _ Hx). done.
    + by apply H3.
  - intros a Hc. apply (tc_mono _ (fun c d => arc g c d \/ (c = f /\ d = t))) in Hc.
    + apply tc_new_arc in Hc as [Hc|[Ha1 Ha2]]; [by apply (H4 a)|]. apply Hr. by etrans.
    + intros c d (x & Hx & <- & <-). apply connected_edges in Hx as [->|Hx]; [by right|left; by exists x].
Qed.

Lemma graph_wf_connect g f t input el : graph_wf g -> graph_wf (connect g f t input el).1.
Proof.
  intros Hg. destruct (connect_cases g f t input el) as [[-> Hc]|(e & -> & _)]; simpl; [|done].
  by apply graph_wf_connected.
Qed.

Lemma graph_wf_with_edges g l :
  graph_wf g -> (forall x, x ∈ l -> x ∈ edges g) -> graph_wf (with_edges g l).
Proof.
  intros Hg Hl. apply (graph_wf_sub g); [done|by apply (arena_wf_same g); [..|apply Hg]|done|].
  intros x Hx. apply (graph_live _ Hg). by apply Hl.
Qed.

Lemma graph_wf_disconnect g f t input el : graph_wf g -> graph_wf (disconnect g f t input el).
Proof. intros Hg. apply graph_wf_with_edges; [done|]. intros x Hx. by apply elem_of_edge_remove in Hx as [? _]. Qed.

Lemma graph_wf_disconnect_input g t input el : graph_wf g -> graph_wf (disconnect_input g t input el).1.
Proof.
  intros Hg. unfold disconnect_input. destruct (connected_output _ _ _ _); [|done]. by apply graph_wf_disconnect.
Qed.

Lemma valid_modify g i h j : is_valid (modify g i (modify_core h)) j = is_valid g j.
Proof.
  rewrite !is_valid_get, get_modify. apply bool_decide_ext. case_decide; [|done]. by destruct (get g j).
Qed.

Lemma graph_wf_modify g i h : graph_wf g -> graph_wf (modify g i (modify_core h)).
Proof.
  intros Hg. apply (graph_wf_grow g); [done|apply arena_wf_modify, Hg|apply modify_frame|].
  intros j. by rewrite valid_modify.
Qed.

Lemma graph_wf_add_node g c (h : B) : graph_wf g -> has_room g -> graph_wf (add_node g c h).1.
Proof.
  intros Hg Hr. unfold add_node. pose proof (allocate_spec g c h (graph_arena _ Hg) Hr) as Ha.
  destruct (allocate g c h) as [g' n]. destruct Ha as (Hw & He & _ & _ & _ & Hget).
  apply (graph_wf_grow g); [done..|]. intros i. rewrite !is_valid_get, !bool_decide_eq_true, Hget.
  case_decide; [by eexists|done].
Qed.

Lemma graph_wf_add_entry g (e : NodeEntry B) i :
  graph_wf g -> vacant e = false -> is_u32 (entry_generation e) -> has_room g ->
  graph_wf (add_entry g e i).1.
Proof.
  intros Hg Hv Hu Hr. destruct (entries g !! slot (index i)) as [old|] eqn:Hold.
  - destruct (vacant old) eqn:Hvo.
    + destruct (add_entry_vacant_spec g i e old (graph_arena _ Hg) Hold Hvo Hv Hu)
        as (g' & -> & Hw & He & _ & _ & _ & _ & Hget).
      apply (graph_wf_grow g); [done..|]. intros j. rewrite !is_valid_get, !bool_decide_eq_true, Hget.
      case_decide; [by eexists|done].
    + unfold add_entry. rewrite Hold, Hvo. by apply graph_wf_add_node.
  - unfold add_entry. rewrite Hold. by apply graph_wf_add_node.
Qed.

Lemma graph_wf_take_node g i : graph_wf g -> graph_wf (take_node g i).1.
Proof.
  intros Hg. destruct (get g i) as [e|] eqn:He.
  - destruct (take_node_spec g i e (graph_arena _ Hg) He) as (g' & -> & Hw & Hed & _ & _ & _ & _ & _ & Hget).
    assert (Hin : forall x, x ∈ edges g' -> x ∈ edges g /\ from x <> i /\ to x <> i).
    { intros x. rewrite Hed, elem_of_retain. unfold touches. rewrite negb_true_iff, orb_false_iff.
      by rewrite !NodeId_eqb_false. }
    assert (Hval : forall j, j <> i -> is_valid g j = true -> is_valid g' j = true).
    { intros j Hj. rewrite !is_valid_get, !bool_decide_eq_true, Hget, decide_False by done.
      intros [e' ->]. case_bool_decide; by eexists. }
    apply (graph_wf_sub g); [done|done| |].
    + intros x Hx. by apply Hin.
    + intros x Hx. destruct (Hin x Hx) as (Hx' & ? & ?). destruct (graph_live _ Hg _ Hx'). auto.
  - unfold take_node. rewrite is_valid_get, He. by rewrite bool_decide_eq_false_2 by (by intros []).
Qed.

Lemma graph_wf_remove_node g i : graph_wf g -> graph_wf (remove_node g i).1.
Proof.
  intros Hg. unfold remove_node. destruct (is_endpoint g i); [done|].
  pose proof (graph_wf_take_node g i Hg) as Ht. by destruct (take_node g i).
Qed.

End dag.
