(* ===== verification/GraphOps.v ===== *)
(** The remaining operations of the graph (crates/oak-node/src/graph.rs):
    links, array elements, endpoints and transfers, and the invariant of every
    graph the operations can build. *)

From stdpp Require Import relations.
From S2P Require Import Prelude Rational Ids Value Keyframe NodeCore Graph Arena Dag.

Local Open Scope N_scope.

Section ops.
Context {B : Type} `{NodeBehavior B} `{InputHash}.
Implicit Types (g : Graph B) (i j a b n : NodeId) (x y : Edge).

(** * Links *)

(** Swapping two live slots out and back is two edits. *)
Lemma edit_two_modify g a b fa fb :
  is_valid g a = true -> is_valid g b = true -> a <> b ->
  edit_two g a b fa fb = modify (modify g a (modify_core fa)) b (modify_core fb).
Proof.
  intros Ha Hb Hab. pose proof Hb as Hb'.
  rewrite <- (valid_modify g a fa b) in Hb'. unfold modify at 1. rewrite Hb'. clear Hb'.
  unfold modify. rewrite Ha. apply valid_get in Ha as [ea Ea], Hb as [eb Eb].
  assert (Hs : slot (index a) <> slot (index b)).
  { intros E. apply Hab, (get_same_index g a b ea eb Ea Eb). by apply slot_inj. }
  apply get_Some in Ea as (_ & Ea & _), Eb as (_ & Eb & _).
  unfold edit_two. rewrite Ea, Eb, list_lookup_insert_ne, Eb by done.
  unfold with_entries. simpl. f_equal. unfold update_at. rewrite Ea.
  rewrite list_lookup_insert_ne, Eb by done.
  apply list_eq. intros k.
  destruct (decide (k = slot (index b))) as [->|Hkb].
  - assert (slot (index b) < length (entries g))%nat by (by eapply lookup_lt_Some).
    rewrite !list_lookup_insert_eq; rewrite ?length_insert; done.
  - rewrite !(list_lookup_insert_ne _ (slot (index b))) by done.
    destruct (decide (k = slot (index a))) as [->|Hka].
    + assert (slot (index a) < length (entries g))%nat by (by eapply lookup_lt_Some).
      rewrite !list_lookup_insert_eq; rewrite ?length_insert; done.
    + by rewrite !list_lookup_insert_ne by done.
Qed.

Lemma get_edit_two g a b fa fb j :
  is_valid g a = true -> is_valid g b = true -> a <> b ->
  get (edit_two g a b fa fb) j =
    if decide (j = a) then modify_core fa <$> get g j
    else if decide (j = b) then modify_core fb <$> get g j else get g j.
Proof.
  intros Ha Hb Hab. rewrite edit_two_modify, !get_modify by done.
  repeat case_decide; try done; congruence.
Qed.

(** The same entry with another link list. *)
Definition with_entry_links (e : NodeEntry B) (l : list NodeId) : NodeEntry B :=
  mkEntry (with_links (core e) l) (behavior e) (entry_generation e) (vacant e).

Lemma links_to_decide g a b e : get g a = Some e -> links_to g a b = bool_decide (b ∈ links (core e)).
Proof. unfold links_to. by intros ->. Qed.

Lemma modify_core_push i (e : NodeEntry B) :
  modify_core (fun c => if bool_decide (i ∈ links (core e)) then c else push_link i c) e =
  with_entry_links e (if decide (i ∈ links (core e)) then links (core e) else links (core e) ++ [i]).
Proof.
  unfold modify_core, with_entry_links. case_decide as E.
  - rewrite bool_decide_eq_true_2 by done. by destruct e as [[]].
  - by rewrite bool_decide_eq_false_2.
Qed.

(** Everything about [link] on two live nodes. *)
Lemma link_frame g a b ea eb :
  get g a = Some ea -> get g b = Some eb -> a <> b ->
  (forall j, get (link g a b).1 j =
     if decide (j = a) then Some (with_entry_links ea
       (if decide (b ∈ links (core ea)) then links (core ea) else links (core ea) ++ [b]))
     else if decide (j = b) then Some (with_entry_links eb
       (if decide (a ∈ links (core eb)) then links (core eb) else links (core eb) ++ [a]))
     else get g j) /\
  ((link g a b).2 = false <-> b ∈ links (core ea) /\ a ∈ links (core eb)) /\
  edges (link g a b).1 = edges g /\ free_list (link g a b).1 = free_list g /\
  input_names (link g a b).1 = input_names g.
Proof.
  intros Ea Eb Hab. assert (Ha : is_valid g a = true) by (by eapply get_valid).
  assert (Hb : is_valid g b = true) by (by eapply get_valid).
  unfold link. rewrite (proj2 (NodeId_eqb_false a b)), Ha, Hb by done. cbn [negb orb].
  rewrite (links_to_decide g a b ea Ea), (links_to_decide g b a eb Eb).
  destruct (bool_decide (b ∈ links (core ea)) && bool_decide (a ∈ links (core eb))) eqn:Hboth.
  - apply andb_true_iff in Hboth as [H1 H2]. apply bool_decide_eq_true in H1, H2. cbn [fst snd].
    split; [|split; [by split|done]]. intros j. rewrite (decide_True (P := b ∈ _)), (decide_True (P := a ∈ _)) by done.
    assert (Hid : forall e : NodeEntry B, with_entry_links e (links (core e)) = e) by (by intros [[]]).
    rewrite !Hid. repeat case_decide; by subst.
  - cbn [fst snd]. split; [|split].
    + intros j. rewrite get_edit_two by done. destruct (decide (j = a)) as [->|].
      * rewrite Ea. cbn [fmap option_fmap option_map]. by rewrite modify_core_push.
      * destruct (decide (j = b)) as [->|]; [|done].
        rewrite Eb. cbn [fmap option_fmap option_map]. by rewrite modify_core_push.
    + split; [done|]. intros [H1 H2]. by rewrite !bool_decide_eq_true_2 in Hboth.
    + rewrite edit_two_modify by done. destruct (modify_frame g a (modify_core
        (fun c => if bool_decide (b ∈ links (core ea)) then c else push_link b c))) as (F1 & F2 & F3 & _).
      match goal with |- context [modify ?d b ?h] => destruct (modify_frame d b h) as (G1 & G2 & G3 & _) end.
      by rewrite G1, G2, G3, F1, F2, F3.
Qed.

(** Everything about [unlink] of two live linked nodes. *)
Lemma unlink_frame g a b ea eb :
  get g a = Some ea -> get g b = Some eb -> a <> b -> are_linked g a b = true ->
  exists g', unlink g a b = Some (g', true) /\
  (forall j, get g' j =
     if decide (j = a) then Some (with_entry_links ea (retain (fun l => negb (NodeId_eqb l b)) (links (core ea))))
     else if decide (j = b) then
       Some (with_entry_links eb (retain (fun l => negb (NodeId_eqb l a)) (links (core eb))))
     else get g j) /\
  edges g' = edges g /\ free_list g' = free_list g /\ input_names g' = input_names g.
Proof.
  intros Ea Eb Hab Hl. assert (Ha : is_valid g a = true) by (by eapply get_valid).
  assert (Hb : is_valid g b = true) by (by eapply get_valid).
  unfold unlink. rewrite Hl. cbn [negb]. pose proof Ea as Ea'. pose proof Eb as Eb'.
  apply get_Some in Ea' as (_ & Ea' & _), Eb' as (_ & Eb' & _). rewrite Ea', Eb'.
  eexists. split; [done|]. split.
  - intros j. rewrite get_edit_two by done. destruct (decide (j = a)) as [->|]; [by rewrite Ea|].
    destruct (decide (j = b)) as [->|]; [|done]. by rewrite Eb.
  - rewrite edit_two_modify by done. destruct (modify_frame g a (modify_core (without_link b))) as (F1 & F2 & F3 & _).
    match goal with |- context [modify ?d b ?h] => destruct (modify_frame d b h) as (G1 & G2 & G3 & _) end.
    by rewrite G1, G2, G3, F1, F2, F3.
Qed.

Lemma retain_push_absent (i : NodeId) l :
  retain (fun k => negb (NodeId_eqb k i)) (if decide (i ∈ l) then l else l ++ [i]) =
  retain (fun k => negb (NodeId_eqb k i)) l.
Proof.
  case_decide; [done|]. unfold retain. rewrite List.filter_app. simpl. by rewrite NodeId_eqb_refl, app_nil_r.
Qed.

Lemma elem_of_pushed (i : NodeId) l : i ∈ (if decide (i ∈ l) then l else l ++ [i]).
Proof. case_decide; [done|]. apply elem_of_app. right. by apply list_elem_of_singleton. Qed.

Lemma not_in_retain (i : NodeId) l : i ∉ retain (fun k => negb (NodeId_eqb k i)) l.
Proof. rewrite elem_of_retain. intros [_ Hk]. by rewrite NodeId_eqb_refl in Hk. Qed.

(** C23: links are symmetric: [link] of two different live nodes appends each
    to the other's list unless it is there already, keeps the rest of both
    lists in order and everything else of both entries, and reports whether
    it changed anything; [unlink] then takes each out of the other's list,
    again keeping the rest of the entries, and a second [unlink] finds nothing
    to do; both leave every other node, all edges and the arena alone, and
    refuse equal or stale nodes. *)
Theorem link_unlink_symmetric g a b ea eb :
  get g a = Some ea -> get g b = Some eb -> a <> b ->
  let '(g', changed) := link g a b in
  get g' a = Some (with_entry_links ea
    (if decide (b ∈ links (core ea)) then links (core ea) else links (core ea) ++ [b])) /\
  get g' b = Some (with_entry_links eb
    (if decide (a ∈ links (core eb)) then links (core eb) else links (core eb) ++ [a])) /\
  links_to g' a b = true /\ links_to g' b a = true /\
  (changed = false <-> links_to g a b = true /\ links_to g b a = true) /\
  (forall j, j <> a -> j <> b -> get g' j = get g j) /\
  edges g' = edges g /\ free_list g' = free_list g /\ input_names g' = input_names g /\
  (forall j, is_valid g' j = is_valid g j) /\
  link g a a = (g, false) /\
  (forall j, is_valid g j = false -> link g a j = (g, false) /\ link g j a = (g, false)) /\
  exists g'', unlink g' a b = Some (g'', true) /\
    get g'' a = Some (with_entry_links ea (retain (fun l => negb (NodeId_eqb l b)) (links (core ea)))) /\
    get g'' b = Some (with_entry_links eb (retain (fun l => negb (NodeId_eqb l a)) (links (core eb)))) /\
    links_to g'' a b = false /\ links_to g'' b a = false /\ are_linked g'' a b = false /\
    unlink g'' a b = Some (g'', false) /\
    (forall j, j <> a -> j <> b -> get g'' j = get g j) /\
    edges g'' = edges g /\ free_list g'' = free_list g /\ input_names g'' = input_names g.
Proof.
  intros Ea Eb Hab. pose proof (link_frame g a b ea eb Ea Eb Hab) as (Hget & Hch & He & Hf & Hi).
  destruct (link g a b) as [g' changed] eqn:El. cbn [fst snd] in *.
  assert (Ga := Hget a). rewrite decide_True in Ga by done.
  assert (Gb := Hget b). rewrite decide_False, decide_True in Gb by done.
  assert (L1 : links_to g' a b = true).
  { rewrite (links_to_decide _ _ _ _ Ga). apply bool_decide_eq_true, elem_of_pushed. }
  assert (L2 : links_to g' b a = true).
  { rewrite (links_to_decide _ _ _ _ Gb). apply bool_decide_eq_true, elem_of_pushed. }
  split; [done|]. split; [done|]. split; [done|]. split; [done|].
  split; [by rewrite Hch, (links_to_decide _ _ _ _ Ea), (links_to_decide _ _ _ _ Eb), !bool_decide_eq_true|].
  split; [intros j Hja Hjb; by rewrite Hget, !decide_False|]. split; [done|]. split; [done|]. split; [done|].
  assert (Hval : forall j, is_valid g' j = is_valid g j).
  { intros j. rewrite !is_valid_get. apply bool_decide_ext. rewrite Hget.
    destruct (decide (j = a)) as [->|]; [rewrite Ea; split; by eexists|].
    destruct (decide (j = b)) as [->|]; [rewrite Eb; split; by eexists|done]. }
  split; [done|].
  split; [unfold link; by rewrite NodeId_eqb_refl|].
  split; [intros j Hj; unfold link; rewrite Hj; cbn [negb orb]; by rewrite !orb_true_r|].
  destruct (unlink_frame g' a b _ _ Ga Gb Hab) as (g'' & Hu & Uget & Ue & Uf & Ui).
  { unfold are_linked. by rewrite L1. }
  assert (Ka := Uget a). rewrite decide_True in Ka by done.
  assert (Kb := Uget b). rewrite decide_False, decide_True in Kb by done.
  simpl in Ka, Kb. rewrite retain_push_absent in Ka, Kb.
  assert (N1 : links_to g'' a b = false).
  { rewrite (links_to_decide _ _ _ _ Ka). apply bool_decide_eq_false. apply not_in_retain. }
  assert (N2 : links_to g'' b a = false).
  { rewrite (links_to_decide _ _ _ _ Kb). apply bool_decide_eq_false. apply not_in_retain. }
  exists g''. split; [done|]. split; [done|]. split; [done|]. split; [done|]. split; [done|].
  split; [unfold are_linked; by rewrite N1, N2|]. split; [unfold unlink, are_linked; by rewrite N1, N2|].
  split; [intros j Hja Hjb; by rewrite Uget, !decide_False, Hget, !decide_False|].
  by rewrite Ue, Uf, Ui.
Qed.

Lemma graph_wf_edit_two g a b fa fb :
  is_valid g a = true -> is_valid g b = true -> a <> b -> graph_wf g -> graph_wf (edit_two g a b fa fb).
Proof. intros Ha Hb Hab Hg. rewrite edit_two_modify by done. by do 2 apply graph_wf_modify. Qed.

Lemma graph_wf_link g a b : graph_wf g -> graph_wf (link g a b).1.
Proof.
  intros Hg. unfold link. destruct (NodeId_eqb a b) eqn:E; [done|].
  destruct (is_valid g a) eqn:Ha; [|done]. destruct (is_valid g b) eqn:Hb; [|done]. cbn [negb orb].
  destruct (links_to g a b && links_to g b a); [done|]. apply NodeId_eqb_false in E.
  by apply graph_wf_edit_two.
Qed.

(** * Array elements *)

(** The elements that move. *)
Definition moves i (key index : Z) (x : Edge) : bool :=
  NodeId_eqb (to x) i && (input_key x =? key)%Z && (index <=? element x)%Z.

Lemma moves_true i key index x :
  moves i key index x = true <-> to x = i /\ input_key x = key /\ (index <= element x)%Z.
Proof. unfold moves. rewrite !andb_true_iff, NodeId_eqb_true, Z.eqb_eq, Z.leb_le. tauto. Qed.

Definition insert_moves (ms es : list Edge) : list Edge :=
  foldl (fun es e => edge_insert (with_element e (element e + 1)) (edge_remove e es)) es ms.

Definition remove_moves (index : Z) (ms es : list Edge) : list Edge :=
  foldl (fun es e =>
    let es := edge_remove e es in
    if (index <? element e)%Z then edge_insert (with_element e (element e - 1)) es else es) es ms.

(** The loops of the code, whose shifts are [i32] additions; they are the two
    above as long as no shifted element leaves the range. *)
Definition wrapping_insert_moves (ms es : list Edge) : list Edge :=
  foldl (fun es e => edge_insert (with_element e (i32 (element e + 1))) (edge_remove e es)) es ms.

Definition wrapping_remove_moves (index : Z) (ms es : list Edge) : list Edge :=
  foldl (fun es e =>
    let es := edge_remove e es in
    if (index <? element e)%Z then edge_insert (with_element e (i32 (element e - 1))) es else es) es ms.

Definition elements_typed g : Prop := forall x, x ∈ edges g -> (I32_MIN <= element x <= I32_MAX)%Z.

(** No connection sits on the last element an [i32] can name. *)
Definition no_wrap g i (key index : Z) : Prop :=
  forall x, x ∈ moved_edges g i key index -> (element x < I32_MAX)%Z.

Lemma wrapping_insert_moves_exact ms es :
  (forall x, x ∈ ms -> (I32_MIN <= element x < I32_MAX)%Z) ->
  wrapping_insert_moves ms es = insert_moves ms es.
Proof.
  revert es. induction ms as [|m ms IH]; intros es Hm; [done|].
  unfold wrapping_insert_moves, insert_moves in *. cbn [foldl].
  rewrite i32_id by (specialize (Hm m (list_elem_of_here _ _)); lia).
  apply IH. intros x Hx. apply Hm, elem_of_cons. by right.
Qed.

Lemma wrapping_remove_moves_exact index ms es :
  (0 <= index)%Z -> (forall x, x ∈ ms -> (element x <= I32_MAX)%Z) ->
  wrapping_remove_moves index ms es = remove_moves index ms es.
Proof.
  intros Hi. revert es. induction ms as [|m ms IH]; intros es Hm; [done|].
  unfold wrapping_remove_moves, remove_moves in *. cbn [foldl].
  assert (E : (if (index <? element m)%Z then edge_insert (with_element m (i32 (element m - 1))) (edge_remove m es)
           else edge_remove m es) =
          (if (index <? element m)%Z then edge_insert (with_element m (element m - 1)) (edge_remove m es)
           else edge_remove m es)).
  { destruct (Z.ltb_spec index (element m)); [|done].
    rewrite i32_id; [done|]. specialize (Hm m (list_elem_of_here _ _)). unfold I32_MIN in *. lia. }
  rewrite E. apply IH. intros x Hx. apply Hm, elem_of_cons. by right.
Qed.

Lemma insert_moves_sub ms es x :
  x ∈ insert_moves ms es ->
  (x ∈ es /\ x ∉ ms) \/ exists e, e ∈ ms /\ x = with_element e (element e + 1).
Proof.
  revert es. induction ms as [|m ms IH]; intros es Hx; simpl in Hx.
  - left. split; [done|]. apply not_elem_of_nil.
  - apply IH in Hx as [[Hx Hn]|(e & He & ->)].
    + apply elem_of_edge_insert in Hx as [->|Hx].
      * right. exists m. split; [apply elem_of_cons; by left|done].
      * apply elem_of_edge_remove in Hx as [Hx Hne]. left. split; [done|].
        rewrite elem_of_cons. intros [?|?]; done.
    + right. exists e. split; [apply elem_of_cons; by right|done].
Qed.

Lemma remove_moves_sub index ms es x :
  x ∈ remove_moves index ms es ->
  (x ∈ es /\ x ∉ ms) \/ exists e, e ∈ ms /\ (index < element e)%Z /\ x = with_element e (element e - 1).
Proof.
  revert es. induction ms as [|m ms IH]; intros es Hx; simpl in Hx.
  - left. split; [done|]. apply not_elem_of_nil.
  - apply IH in Hx as [[Hx Hn]|(e & He & ? & ->)].
    + destruct (Z.ltb_spec index (element m)).
      * apply elem_of_edge_insert in Hx as [->|Hx].
        -- right. exists m. split; [apply elem_of_cons; by left|done].
        -- apply elem_of_edge_remove in Hx as [Hx Hne]. left. split; [done|].
           rewrite elem_of_cons. intros [?|?]; done.
      * apply elem_of_edge_remove in Hx as [Hx Hne]. left. split; [done|].
        rewrite elem_of_cons. intros [?|?]; done.
    + right. exists e. split; [apply elem_of_cons; by right|done].
Qed.

(** Re-addressing elements of one input keeps the invariant when no two
    resulting edges collide. *)
Lemma graph_wf_readdress g l (f : Edge -> option Z) :
  graph_wf g ->
  (forall x, x ∈ l -> exists e v, e ∈ edges g /\ f e = Some v /\ x = with_element e v) ->
  (forall d e v, d ∈ edges g -> e ∈ edges g -> to d = to e -> input_key d = input_key e ->
     f d = Some v -> f e = Some v -> element d = element e) ->
  graph_wf (with_edges g l).
Proof.
  intros [H1 H2 H3 H4] Hl Hinj. split.
  - by apply (arena_wf_same g).
  - intros x Hx. apply Hl in Hx as (e & v & He & _ & ->). by apply (H2 e).
  - intros x y Hx Hy Eto Ek Ee. apply Hl in Hx as (d & v & Hd & Hv & ->), Hy as (e & w & He & Hw & ->).
    simpl in *. subst w. assert (d = e) as ->; [|done]. apply H3; [done..|]. by apply (Hinj d e v).
  - intros a Hc. apply (H4 a). revert Hc. apply tc_mono.
    intros c d (x & Hx & <- & <-). apply Hl in Hx as (e & v & He & _ & ->). by exists e.
Qed.

Lemma elem_of_moved g i key index x :
  x ∈ moved_edges g i key index <-> x ∈ edges g /\ to x = i /\ input_key x = key /\ (index <= element x)%Z.
Proof. unfold moved_edges. rewrite elem_of_retain. fold (moves i key index x). by rewrite moves_true. Qed.

Lemma graph_wf_insert_moves g i key index :
  graph_wf g -> graph_wf (with_edges g (insert_moves (moved_edges g i key index) (edges g))).
Proof.
  intros Hg. apply (graph_wf_readdress _ _
    (fun x => Some (if moves i key index x then element x + 1 else element x)%Z)); [done| |].
  - intros x Hx. apply insert_moves_sub in Hx as [[Hx Hn]|(e & He & ->)].
    + exists x, (element x). split; [done|]. split; [|by destruct x].
      destruct (moves i key index x) eqn:E; [|done]. exfalso. apply Hn, elem_of_moved.
      apply moves_true in E. done.
    + apply elem_of_moved in He as [He Hm]. exists e, (element e + 1)%Z. split; [done|].
      by rewrite (proj2 (moves_true i key index e)).
  - intros d e v Hd He Eto Ek [= <-] [= E].
    destruct (moves i key index d) eqn:Md, (moves i key index e) eqn:Me; [lia| | |lia].
    + apply moves_true in Md as (? & ? & ?). exfalso.
      apply not_true_iff_false in Me. apply Me, moves_true. split; [congruence|]. split; [congruence|lia].
    + apply moves_true in Me as (? & ? & ?). exfalso.
      apply not_true_iff_false in Md. apply Md, moves_true. split; [congruence|]. split; [congruence|lia].
Qed.

Lemma graph_wf_remove_moves g i key index :
  graph_wf g -> graph_wf (with_edges g (remove_moves index (moved_edges g i key index) (edges g))).
Proof.
  intros Hg. apply (graph_wf_readdress _ _
    (fun x => if moves i key index x then (if (index <? element x)%Z then Some (element x - 1)%Z else None)
              else Some (element x))); [done| |].
  - intros x Hx. apply remove_moves_sub in Hx as [[Hx Hn]|(e & He & Hlt & ->)].
    + exists x, (element x). split; [done|]. split; [|by destruct x].
      destruct (moves i key index x) eqn:E; [|done]. exfalso. apply Hn, elem_of_moved.
      apply moves_true in E. done.
    + apply elem_of_moved in He as [He Hm]. exists e, (element e - 1)%Z. split; [done|].
      rewrite (proj2 (moves_true i key index e)) by done. by rewrite (proj2 (Z.ltb_lt _ _)).
  - intros d e v Hd He Eto Ek E1 E2.
    destruct (moves i key index d) eqn:Md, (moves i key index e) eqn:Me.
    + destruct (Z.ltb_spec index (element d)), (Z.ltb_spec index (element e)); simplify_eq; lia.
    + apply moves_true in Md as (? & ? & ?). destruct (Z.ltb_spec index (element d)); simplify_eq.
      exfalso. apply not_true_iff_false in Me. apply Me, moves_true. split; [congruence|]. split; [congruence|lia].
    + apply moves_true in Me as (? & ? & ?). destruct (Z.ltb_spec index (element e)); simplify_eq.
      exfalso. apply not_true_iff_false in Md. apply Md, moves_true. split; [congruence|]. split; [congruence|lia].
    + congruence.
Qed.

Lemma moved_edges_modify g i h j key index : moved_edges (modify g i h) j key index = moved_edges g j key index.
Proof. unfold moved_edges. by rewrite (proj1 (modify_frame g i h)). Qed.

Lemma graph_wf_input_array_insert g i input index :
  no_wrap g i (hash_str input) index -> graph_wf g -> graph_wf (input_array_insert g i input index).1.
Proof.
  intros Hw Hg. unfold input_array_insert. destruct (get g i) as [e|]; [|done].
  destruct (get_input (core e) input) as [z|]; [|done]. destruct (negb (is_array z)); [done|].
  destruct (Z.ltb_spec index 0) as [|Hi]; [done|]. destruct (_ || _); [done|]. cbn [fst].
  match goal with |- graph_wf (with_edges ?d _) => set (ga := d) end.
  change (foldl _ (edges ga) ?ms) with (wrapping_insert_moves ms (edges ga)).
  rewrite wrapping_insert_moves_exact; [by apply graph_wf_insert_moves, graph_wf_modify|].
  intros x Hx. subst ga. rewrite moved_edges_modify in Hx. pose proof (Hw x Hx).
  apply elem_of_moved in Hx as (_ & _ & _ & ?). unfold I32_MIN. lia.
Qed.

Lemma graph_wf_input_array_remove g i input index :
  elements_typed g -> graph_wf g -> graph_wf (input_array_remove g i input index).1.
Proof.
  intros Ht Hg. unfold input_array_remove. destruct (get g i) as [e|]; [|done].
  destruct (get_input (core e) input) as [z|]; [|done]. destruct (negb (is_array z)); [done|].
  destruct (Z.ltb_spec index 0) as [|Hi]; [done|]. destruct (_ || _); [done|]. cbn [fst].
  match goal with |- graph_wf (with_edges ?d _) => set (ga := d) end.
  change (foldl _ (edges ga) ?ms) with (wrapping_remove_moves index ms (edges ga)).
  rewrite wrapping_remove_moves_exact; [by apply graph_wf_remove_moves, graph_wf_modify|done|].
  intros x Hx. subst ga. rewrite moved_edges_modify in Hx. apply elem_of_moved in Hx as [Hx _]. by apply Ht.
Qed.

(** When no source feeds two of the moved elements, every move lands. *)
Definition distinct_sources g i key index : Prop :=
  forall d e, d ∈ moved_edges g i key index -> e ∈ moved_edges g i key index -> from d = from e -> d = e.

Lemma insert_moves_complete ms es :
  (forall d e, d ∈ ms -> e ∈ ms -> from d = from e -> d = e) ->
  (forall x, x ∈ es -> x ∉ ms -> x ∈ insert_moves ms es) /\
  (forall e, e ∈ ms -> with_element e (element e + 1) ∈ insert_moves ms es).
Proof.
  revert es. induction ms as [|m ms IH]; intros es Hd; [split; [done|]; intros e He; by apply elem_of_nil in He|].
  destruct (IH (edge_insert (with_element m (element m + 1)) (edge_remove m es))) as [I1 I2].
  { intros d e Hd' He'. apply Hd; apply elem_of_cons; by right. }
  split.
  - intros x Hx Hn. rewrite elem_of_cons in Hn. apply I1; [|tauto].
    apply elem_of_edge_insert. right. apply elem_of_edge_remove. tauto.
  - intros e He. apply elem_of_cons in He as [->|He]; [|by apply I2].
    apply I1; [apply elem_of_edge_insert; by left|]. intros Hin.
    assert (with_element m (element m + 1) = m) as E.
    { apply Hd; [apply elem_of_cons; by right|apply elem_of_cons; by left|done]. }
    apply (f_equal element) in E. simpl in E. lia.
Qed.

Lemma remove_moves_complete index ms es :
  (forall d e, d ∈ ms -> e ∈ ms -> from d = from e -> d = e) ->
  (forall x, x ∈ es -> x ∉ ms -> x ∈ remove_moves index ms es) /\
  (forall e, e ∈ ms -> (index < element e)%Z -> with_element e (element e - 1) ∈ remove_moves index ms es).
Proof.
  revert es. induction ms as [|m ms IH]; intros es Hd; [split; [done|]; intros e He; by apply elem_of_nil in He|].
  set (es1 := let es := edge_remove m es in
    if (index <? element m)%Z then edge_insert (with_element m (element m - 1)) es else es).
  destruct (IH es1) as [I1 I2].
  { intros d e Hd' He'. apply Hd; apply elem_of_cons; by right. }
  change (remove_moves index (m :: ms) es) with (remove_moves index ms es1).
  split.
  - intros x Hx Hn. rewrite elem_of_cons in Hn. apply I1; [|tauto]. subst es1. cbv zeta.
    destruct (_ <? _)%Z; [apply elem_of_edge_insert; right|]; apply elem_of_edge_remove; tauto.
  - intros e He Hlt. apply elem_of_cons in He as [->|He]; [|by apply I2].
    apply I1.
    + subst es1. cbv zeta. rewrite (proj2 (Z.ltb_lt _ _)) by done. apply elem_of_edge_insert. by left.
    + intros Hin. assert (with_element m (element m - 1) = m) as E.
      { apply Hd; [apply elem_of_cons; by right|apply elem_of_cons; by left|done]. }
      apply (f_equal element) in E. simpl in E. lia.
Qed.

(** In a well-formed graph the source of an input is its edge. *)
Lemma connected_output_edge g t input el f :
  graph_wf g -> connected_output g t input el = Some f <-> mkEdge f t (hash_str input) el ∈ edges g.
Proof.
  intros Hg. split; [apply connected_output_Some|]. intros Hin.
  destruct (connected_output g t input el) as [f'|] eqn:E.
  - apply connected_output_Some in E.
    assert (mkEdge f t (hash_str input) el = mkEdge f' t (hash_str input) el) as [= ->]; [|done].
    by apply (graph_single _ Hg).
  - exfalso. by apply (proj1 (connected_output_None g t input el) E _ Hin).
Qed.

Lemma option_eq_iff {A} (o p : option A) : (forall v, o = Some v <-> p = Some v) -> o = p.
Proof.
  intros Hop. destruct o as [v|]; [symmetry; by apply Hop|]. destruct p as [v|]; [|done]. by apply Hop.
Qed.

Lemma insert_moves_edges g i key index x :
  distinct_sources g i key index ->
  x ∈ insert_moves (moved_edges g i key index) (edges g) <->
  (x ∈ edges g /\ moves i key index x = false) \/
  (exists e, e ∈ edges g /\ moves i key index e = true /\ x = with_element e (element e + 1)).
Proof.
  intros Hd. destruct (insert_moves_complete _ (edges g) Hd) as [C1 C2].
  assert (Hm : forall e, e ∈ moved_edges g i key index <-> e ∈ edges g /\ moves i key index e = true).
  { intros e. unfold moved_edges. by rewrite elem_of_retain. }
  split.
  - intros Hx. apply insert_moves_sub in Hx as [[Hx Hn]|(e & He & ->)].
    + left. split; [done|]. apply not_true_iff_false. intros Hmv. by apply Hn, Hm.
    + apply Hm in He as [He Hmv]. right. by exists e.
  - intros [[Hx Hn]|(e & He & Hmv & ->)].
    + apply C1; [done|]. rewrite Hm. intros [_ ?]. congruence.
    + by apply C2, Hm.
Qed.

Lemma remove_moves_edges g i key index x :
  distinct_sources g i key index ->
  x ∈ remove_moves index (moved_edges g i key index) (edges g) <->
  (x ∈ edges g /\ moves i key index x = false) \/
  (exists e, e ∈ edges g /\ moves i key (index + 1) e = true /\ x = with_element e (element e - 1)).
Proof.
  intros Hd. destruct (remove_moves_complete index _ (edges g) Hd) as [C1 C2].
  assert (Hm : forall e, e ∈ moved_edges g i key index <-> e ∈ edges g /\ moves i key index e = true).
  { intros e. unfold moved_edges. by rewrite elem_of_retain. }
  assert (Hs : forall e, moves i key (index + 1) e = true <-> moves i key index e = true /\ (index < element e)%Z).
  { intros e. rewrite !moves_true. split; [intros (? & ? & ?)|intros [(? & ? & ?) ?]]; repeat split; try done; lia. }
  split.
  - intros Hx. apply remove_moves_sub in Hx as [[Hx Hn]|(e & He & Hlt & ->)].
    + left. split; [done|]. apply not_true_iff_false. intros Hmv. by apply Hn, Hm.
    + apply Hm in He as [He Hmv]. right. exists e. by rewrite Hs.
  - intros [[Hx Hn]|(e & He & Hmv & ->)].
    + apply C1; [done|]. rewrite Hm. intros [_ ?]. congruence.
    + apply Hs in Hmv as [? ?]. apply C2; [by apply Hm|done].
Qed.

(** Sources of the elements after each edit. *)
Lemma insert_moves_source g i input index t input' el :
  let g' := with_edges g (insert_moves (moved_edges g i (hash_str input) index) (edges g)) in
  graph_wf g -> distinct_sources g i (hash_str input) index ->
  connected_output g' t input' el =
    if bool_decide (t = i /\ hash_str input' = hash_str input /\ (index <= el)%Z)
    then (if (el =? index)%Z then None else connected_output g t input' (el - 1))
    else connected_output g t input' el.
Proof.
  intros g' Hg Hd. apply option_eq_iff. intros f.
  rewrite (connected_output_edge g') by (by apply graph_wf_insert_moves).
  change (edges g') with (insert_moves (moved_edges g i (hash_str input) index) (edges g)).
  rewrite insert_moves_edges by done.
  assert (Hmv : forall f el, moves i (hash_str input) index (mkEdge f t (hash_str input') el) =
    bool_decide (t = i /\ hash_str input' = hash_str input /\ (index <= el)%Z)).
  { intros f' el'. apply eq_true_iff_eq. by rewrite moves_true, bool_decide_eq_true. }
  rewrite Hmv. case_bool_decide as Hin.
  - destruct (Z.eqb_spec el index) as [->|Hne].
    + split; [|done]. intros [[_ ?]|(e & He & Hm & E)]; [done|]. apply moves_true in Hm as (_ & _ & Hm).
      apply (f_equal element) in E. simpl in E. lia.
    + rewrite connected_output_edge by done. split.
      * intros [[_ ?]|(e & He & Hm & E)]; [done|].
        assert (mkEdge f t (hash_str input') (el - 1) = e) as ->; [|done].
        destruct e; unfold with_element in E; simpl in E. simplify_eq. f_equal. lia.
      * intros He. right. exists (mkEdge f t (hash_str input') (el - 1)). split; [done|]. split.
        -- rewrite Hmv. apply bool_decide_eq_true. destruct Hin as (? & ? & ?). repeat split; try done. lia.
        -- unfold with_element. simpl. f_equal. lia.
  - rewrite connected_output_edge by done. split; [|by left]. intros [[? _]|(e & He & Hm & E)]; [done|]. exfalso. apply Hin.
    apply moves_true in Hm as (? & ? & ?). destruct e; unfold with_element in E; simpl in *. simplify_eq.
    repeat split; try done. lia.
Qed.

Lemma remove_moves_source g i input index t input' el :
  let g' := with_edges g (remove_moves index (moved_edges g i (hash_str input) index) (edges g)) in
  graph_wf g -> distinct_sources g i (hash_str input) index ->
  connected_output g' t input' el =
    if bool_decide (t = i /\ hash_str input' = hash_str input /\ (index <= el)%Z)
    then connected_output g t input' (el + 1)
    else connected_output g t input' el.
Proof.
  intros g' Hg Hd. apply option_eq_iff. intros f.
  rewrite (connected_output_edge g') by (by apply graph_wf_remove_moves).
  change (edges g') with (remove_moves index (moved_edges g i (hash_str input) index) (edges g)).
  rewrite remove_moves_edges by done.
  assert (Hmv : forall k f el, moves i (hash_str input) k (mkEdge f t (hash_str input') el) =
    bool_decide (t = i /\ hash_str input' = hash_str input /\ (k <= el)%Z)).
  { intros k f' el'. apply eq_true_iff_eq. by rewrite moves_true, bool_decide_eq_true. }
  rewrite Hmv. case_bool_decide as Hin; rewrite connected_output_edge by done.
  - split.
    + intros [[_ ?]|(e & He & Hm & E)]; [done|].
      assert (mkEdge f t (hash_str input') (el + 1) = e) as ->; [|done].
      destruct e; unfold with_element in E; simpl in E. simplify_eq. f_equal. lia.
    + intros He. right. exists (mkEdge f t (hash_str input') (el + 1)). split; [done|]. split.
      * rewrite Hmv. apply bool_decide_eq_true. destruct Hin as (? & ? & ?). repeat split; try done. lia.
      * unfold with_element. simpl. f_equal. lia.
  - split; [|by left]. intros [[? _]|(e & He & Hm & E)]; [done|]. exfalso. apply Hin.
    apply moves_true in Hm as (? & ? & ?). destruct e; unfold with_element in E; simpl in *. simplify_eq.
    repeat split; try done. lia.
Qed.


Lemma distinct_sources_inserted g i key index :
  distinct_sources g i key index ->
  distinct_sources (with_edges g (insert_moves (moved_edges g i key index) (edges g))) i key index.
Proof.
  intros Hd d e Hd' He'.
  assert (Hm : forall x, x ∈ moved_edges (with_edges g (insert_moves (moved_edges g i key index) (edges g))) i key index ->
    exists y, y ∈ moved_edges g i key index /\ x = with_element y (element y + 1)).
  { intros x Hx. apply elem_of_moved in Hx as [Hx Hmv]. apply (insert_moves_edges g i key index) in Hx; [|done].
    destruct Hx as [[_ Hn]|(y & Hy & Hym & ->)].
    - exfalso. apply not_true_iff_false in Hn. by apply Hn, moves_true.
    - exists y. split; [|done]. unfold moved_edges. by rewrite elem_of_retain. }
  apply Hm in Hd' as (d0 & Hd0 & ->), He' as (e0 & He0 & ->). simpl. intros Ef.
  by rewrite (Hd d0 e0 Hd0 He0 Ef).
Qed.

(** What both array edits refuse. *)
Lemma array_edit_refusals g i e input z :
  get g i = Some e -> get_input (core e) input = Some z -> is_array z = true ->
  (Z.of_nat (array_size z) < 2 ^ 31)%Z ->
  (forall k, (k < 0 \/ Z.of_nat (array_size z) < k)%Z ->
     input_array_insert g i input k = (g, Some E_Invalid) /\
     input_array_remove g i input k = (g, Some E_Invalid)) /\
  (forall input' z' k, get_input (core e) input' = Some z' -> is_array z' = false ->
     input_array_insert g i input' k = (g, Some E_Invalid) /\
     input_array_remove g i input' k = (g, Some E_Invalid)).
Proof.
  intros He Hz Ha Hn. unfold input_array_insert, input_array_remove. rewrite He. split.
  - intros k Hk. rewrite Hz, Ha. cbn [negb]. rewrite i32_id by (unfold I32_MIN, I32_MAX; lia).
    destruct Hk as [Hk|Hk].
    + by rewrite (proj2 (Z.ltb_lt _ _) Hk).
    + rewrite (proj2 (Z.ltb_lt _ _) Hk), orb_true_r. by rewrite (proj2 (Z.leb_le _ k)), orb_true_r by lia.
  - intros input' z' k Hz' Ha'. by rewrite Hz', Ha'.
Qed.

(** C24: inserting an array element shifts the connections of the elements
    from the index up and frees the inserted one, while other inputs keep
    theirs, and removing that element restores every connection, provided no
    source feeds two of the shifted elements and none of them is connected at
    [i32::MAX], where the shift would wrap; the node's own data is edited as
    [NodeCore] describes, and a bad index or a scalar input changes nothing. *)
Theorem array_edit_moves_connections g i e input z index :
  graph_wf g -> get g i = Some e -> get_input (core e) input = Some z -> is_array z = true ->
  (0 <= index <= Z.of_nat (array_size z))%Z -> (Z.of_nat (array_size z) + 1 < 2 ^ 31)%Z ->
  distinct_sources g i (hash_str input) index -> no_wrap g i (hash_str input) index ->
  exists g1 g2, input_array_insert g i input index = (g1, None) /\
    get g1 i = Some (modify_core (fun c => core_input_array_insert c input (Z.to_nat index)) e) /\
    (forall el, connected_output g1 i input el =
       if (el <? index)%Z then connected_output g i input el
       else if (el =? index)%Z then None else connected_output g i input (el - 1)) /\
    (forall t input' el, t <> i \/ hash_str input' <> hash_str input ->
       connected_output g1 t input' el = connected_output g t input' el) /\
    input_array_remove g1 i input index = (g2, None) /\
    (forall t input' el, connected_output g2 t input' el = connected_output g t input' el) /\
    (forall k, (k < 0 \/ Z.of_nat (array_size z) < k)%Z ->
       input_array_insert g i input k = (g, Some E_Invalid) /\
       input_array_remove g i input k = (g, Some E_Invalid)) /\
    (forall input' z' k, get_input (core e) input' = Some z' -> is_array z' = false ->
       input_array_insert g i input' k = (g, Some E_Invalid) /\
       input_array_remove g i input' k = (g, Some E_Invalid)).
Proof.
  intros Hg He Hz Ha Hi Hn Hd Hwr.
  set (h := fun c => core_input_array_insert c input (Z.to_nat index)).
  set (ga := modify g i (modify_core h)).
  assert (Hga : graph_wf ga) by (by apply graph_wf_modify).
  assert (Hea : edges ga = edges g) by apply modify_frame.
  assert (Hda : distinct_sources ga i (hash_str input) index) by (unfold distinct_sources, moved_edges; by rewrite Hea).
  assert (Hca : forall t input' el, connected_output ga t input' el = connected_output g t input' el)
    by (intros; unfold connected_output; by rewrite Hea).
  set (g1 := with_edges ga (insert_moves (moved_edges ga i (hash_str input) index) (edges ga))).
  assert (Hw1 : graph_wf g1) by (by apply graph_wf_insert_moves).
  assert (Hins : input_array_insert g i input index = (g1, None)).
  { unfold input_array_insert. rewrite He, Hz, Ha. cbn [negb].
    unfold i32, wrap_signed. rewrite Z.mod_small by lia.
    rewrite (proj2 (Z.ltb_ge _ _)) by lia. rewrite (proj2 (Z.ltb_ge _ _)) by lia. cbn [orb]. cbv zeta.
    fold h. fold ga. change (foldl _ (edges ga) ?ms) with (wrapping_insert_moves ms (edges ga)).
    rewrite wrapping_insert_moves_exact; [done|]. intros x Hx. unfold ga in Hx.
    rewrite moved_edges_modify in Hx. pose proof (Hwr x Hx).
    apply elem_of_moved in Hx as (_ & _ & _ & ?). unfold I32_MIN. lia. }
  assert (He1 : get g1 i = Some (modify_core h e)).
  { change (get g1 i) with (get ga i). unfold ga. by rewrite get_modify, decide_True, He. }
  set (gb := modify g1 i (modify_core (fun c => core_input_array_remove c input (Z.to_nat index)))).
  set (g2 := with_edges gb (remove_moves index (moved_edges gb i (hash_str input) index) (edges gb))).
  assert (Hs1 : forall t input' el, connected_output g1 t input' el =
    if bool_decide (t = i /\ hash_str input' = hash_str input /\ (index <= el)%Z)
    then (if (el =? index)%Z then None else connected_output g t input' (el - 1))
    else connected_output g t input' el).
  { intros t input' el. unfold g1. rewrite insert_moves_source by done. by rewrite !Hca. }
  exists g1, g2. split; [done|]. split; [done|]. split; [|split].
  - intros el. rewrite Hs1. destruct (Z.ltb_spec el index).
    + rewrite bool_decide_eq_false_2; [done|]. intros (_ & _ & ?). lia.
    + by rewrite bool_decide_eq_true_2.
  - intros t input' el Hor. rewrite Hs1, bool_decide_eq_false_2; [done|]. tauto.
  - pose proof (core_insert_input (core e) input z (Z.to_nat index) Hz) as Hz1.
    assert (Heb : edges gb = edges g1) by apply modify_frame.
    assert (Hdb : distinct_sources gb i (hash_str input) index).
    { pose proof (distinct_sources_inserted ga i (hash_str input) index Hda) as Hx.
      unfold distinct_sources, moved_edges in *. by rewrite Heb. }
    split; [|split].
    + unfold input_array_remove. rewrite He1. simpl core. fold (h (core e)) in Hz1. rewrite Hz1.
      change (is_array (with_array_size z (S (array_size z)))) with (is_array z). rewrite Ha. cbn [negb array_size with_array_size].
      unfold i32, wrap_signed. rewrite Z.mod_small by lia.
      rewrite (proj2 (Z.ltb_ge _ _)) by lia. rewrite (proj2 (Z.leb_gt _ _)) by lia. cbn [orb]. cbv zeta.
      fold gb. change (foldl _ (edges gb) ?ms) with (wrapping_remove_moves index ms (edges gb)).
      rewrite wrapping_remove_moves_exact; [done|lia|]. intros x Hx.
      unfold moved_edges in Hx. rewrite Heb in Hx. apply (elem_of_moved g1) in Hx as (Hx & Hto & Hk & Hle).
      change (edges g1) with (insert_moves (moved_edges ga i (hash_str input) index) (edges ga)) in Hx.
      apply insert_moves_edges in Hx as [[_ Hm]|(y & Hy & Hm & ->)]; [|  |done].
      * exfalso. apply not_true_iff_false in Hm. by apply Hm, moves_true.
      * assert (element y < I32_MAX)%Z; [|simpl; lia]. apply Hwr. rewrite Hea in Hy.
        apply elem_of_moved. split; [done|]. by apply moves_true.
    + intros t input' el. unfold g2. rewrite remove_moves_source; [|by apply graph_wf_modify|done].
      assert (Hcb : forall t input' el, connected_output gb t input' el = connected_output g1 t input' el)
        by (intros; unfold connected_output; by rewrite Heb).
      rewrite !Hcb, !Hs1. case_bool_decide as Hin.
      * destruct Hin as (-> & Ek & Hle). rewrite bool_decide_eq_true_2 by (repeat split; [done|lia]).
        rewrite (proj2 (Z.eqb_neq _ _)) by lia. f_equal. lia.
      * done.
    + apply array_edit_refusals with (e := e); done || lia.
Qed.

(** * Every graph the operations build *)

Lemma valid_add_node g c (h : B) j :
  arena_wf g -> has_room g -> is_valid g j = true -> is_valid (add_node g c h).1 j = true.
Proof.
  intros Hg Hr. pose proof (allocate_spec g c h Hg Hr) as Ha. unfold add_node.
  destruct (allocate g c h) as [g' n]. destruct Ha as (_ & _ & _ & _ & _ & Hget).
  rewrite !is_valid_get, !bool_decide_eq_true, Hget. case_decide; [by eexists|done].
Qed.

(** The operations that add no node.  An element of a connection is an
    [i32], an insertion shifts none past [i32::MAX], and the two ids of an
    [unlink] name different slots. *)
Inductive quiet_step : Graph B -> Graph B -> Prop :=
| step_take_node g i : quiet_step g (take_node g i).1
| step_remove_node g i : quiet_step g (remove_node g i).1
| step_edit g i f : quiet_step g (modify g i (modify_core f))
| step_connect g f t input el : (I32_MIN <= el <= I32_MAX)%Z -> quiet_step g (connect g f t input el).1
| step_disconnect g f t input el : quiet_step g (disconnect g f t input el)
| step_disconnect_input g t input el : quiet_step g (disconnect_input g t input el).1
| step_link g a b : quiet_step g (link g a b).1
| step_unlink g a b g' changed : index a <> index b ->
    unlink g a b = Some (g', changed) -> quiet_step g g'
| step_array_insert g i input index : no_wrap g i (hash_str input) index ->
    quiet_step g (input_array_insert g i input index).1
| step_array_remove g i input index : quiet_step g (input_array_remove g i input index).1.

(** One operation of the graph; a node is added only while the arena has
    room. *)
Inductive graph_step : Graph B -> Graph B -> Prop :=
| step_quiet g g' : quiet_step g g' -> graph_step g g'
| step_add_node g c h : has_room g -> graph_step g (add_node g c h).1
| step_add_entry g e i : vacant e = false -> is_u32 (entry_generation e) -> has_room g ->
    graph_step g (add_entry g e i).1
| step_ensure_endpoints g : has_room g -> (N.of_nat (length (entries g)) + 2 <= U32_MAX) ->
    graph_step g (ensure_endpoints g).1.

Lemma has_room_add_node g c (h : B) :
  N.of_nat (length (entries g)) + 2 <= U32_MAX -> has_room (add_node g c h).1.
Proof.
  intros Hl. right. unfold add_node, allocate. destruct (list.last (free_list g)); simpl.
  - rewrite length_insert. lia.
  - rewrite length_app. simpl. lia.
Qed.

Lemma graph_wf_ensure_endpoints g :
  graph_wf g -> has_room g -> N.of_nat (length (entries g)) + 2 <= U32_MAX -> graph_wf (ensure_endpoints g).1.
Proof.
  intros Hg Hr Hl. unfold ensure_endpoints.
  set (r1 := match endpoint_of_type g GRAPH_INPUT_TYPE_ID with Some i => (g, i) | None => _ end).
  assert (H1 : graph_wf r1.1 /\ has_room r1.1).
  { subst r1. destruct (endpoint_of_type g GRAPH_INPUT_TYPE_ID); [done|].
    split; [by apply graph_wf_add_node|by apply has_room_add_node]. }
  destruct r1 as [g1 input]. simpl in H1. destruct H1 as [H1 R1].
  set (r2 := match endpoint_of_type g1 GRAPH_OUTPUT_TYPE_ID with Some i => (g1, i) | None => _ end).
  assert (H2 : graph_wf r2.1).
  { subst r2. destruct (endpoint_of_type g1 GRAPH_OUTPUT_TYPE_ID); [done|]. by apply graph_wf_add_node. }
  destruct r2 as [g2 output]. simpl in *. destruct (is_input_connected _ _ _ _); [done|]. by apply graph_wf_connect.
Qed.

(** Editing the core in any slot, live or vacant. *)
Definition edit_slot g (k : nat) (h : NodeCore -> NodeCore) : Graph B :=
  with_entries g (update_at k (modify_core h) (entries g)).

Lemma lookup_edit_slot g k h (p : nat) :
  entries (edit_slot g k h) !! p = if decide (k = p) then modify_core h <$> entries g !! p else entries g !! p.
Proof. apply lookup_update_at. Qed.

Lemma is_valid_edit_slot g k h i : is_valid (edit_slot g k h) i = is_valid g i.
Proof.
  unfold is_valid. rewrite lookup_edit_slot. case_decide; [|done].
  by destruct (entries g !! slot (index i)).
Qed.

Lemma graph_wf_edit_slot g k h : graph_wf g -> graph_wf (edit_slot g k h).
Proof.
  intros Hg. apply (graph_wf_grow g); [done| |done|by intros j; rewrite is_valid_edit_slot].
  destruct (graph_arena _ Hg) as [H1 H2 H3 H4]. split.
  - simpl. by rewrite length_update_at.
  - done.
  - intros c. simpl. rewrite H3. setoid_rewrite lookup_edit_slot. split.
    + intros (e & He & Hv). case_decide; [|by exists e]. rewrite He. by exists (modify_core h e).
    + intros (e & He & Hv). case_decide; [|by exists e].
      destruct (entries g !! slot c) as [e'|]; [|done]. injection He as <-. by exists e'.
  - intros c e. rewrite lookup_edit_slot. case_decide; [|apply H4].
    destruct (entries g !! c) as [e'|] eqn:E; [|done]. intros [= <-]. by apply (H4 c e').
Qed.

Lemma edit_two_slots g a b fa fb : index a <> index b ->
  edit_two g a b fa fb = g \/ edit_two g a b fa fb = edit_slot (edit_slot g (slot (index a)) fa) (slot (index b)) fb.
Proof.
  intros Hab. assert (Hs : slot (index a) <> slot (index b)) by (intros E; by apply Hab, slot_inj).
  unfold edit_two. destruct (entries g !! slot (index a)) as [ea|] eqn:Ea; [|by left].
  destruct (entries g !! slot (index b)) as [eb|] eqn:Eb; [|by left].
  right. rewrite list_lookup_insert_ne, Eb by done. unfold edit_slot, with_entries. simpl. f_equal.
  assert (slot (index a) < length (entries g))%nat by (by eapply lookup_lt_Some).
  assert (slot (index b) < length (entries g))%nat by (by eapply lookup_lt_Some).
  apply list_eq. intros p. rewrite !lookup_update_at.
  destruct (decide (slot (index b) = p)) as [<-|Hb]; [|destruct (decide (slot (index a) = p)) as [<-|Ha]].
  - rewrite list_lookup_insert_eq by (rewrite !length_insert; lia). by rewrite decide_False, Eb by done.
  - rewrite list_lookup_insert_ne, list_lookup_insert_eq by (rewrite ?length_insert; done || lia).
    by rewrite Ea.
  - by rewrite !list_lookup_insert_ne by done.
Qed.

(** An edge keeps an [i32] element under every operation. *)
Lemma elements_typed_sub g g' :
  (forall x, x ∈ edges g' -> x ∈ edges g) -> elements_typed g -> elements_typed g'.
Proof. intros Hs Ht x Hx. by apply Ht, Hs. Qed.

Lemma allocate_edges g c (h : B) : edges (allocate g c h).1 = edges g.
Proof. unfold allocate. by destruct (list.last (free_list g)). Qed.

Lemma take_node_edges g i x : x ∈ edges (take_node g i).1 -> x ∈ edges g.
Proof.
  unfold take_node. destruct (negb _); [done|]. destruct (entries g !! _) as [e|]; [|done].
  cbn [fst]. rewrite (proj1 (modify_all_frame _ _ _)). unfold drop_edges_touching. simpl.
  generalize (edges g) at 2 as es. intros es. generalize (edges g) as l. clear.
  induction (retain _ es) as [|d ds IH]; intros l Hx; [done|]. simpl in Hx.
  apply IH, elem_of_edge_remove in Hx. tauto.
Qed.

Lemma elements_typed_connect g f t input el :
  (I32_MIN <= el <= I32_MAX)%Z -> elements_typed g -> elements_typed (connect g f t input el).1.
Proof.
  intros He Ht. unfold connect, intern_input.
  destruct (_ || _); [done|]. destruct (_ ≫= _) as [z|]; [|done].
  destruct (negb _); [done|]. destruct (_ && _); [done|]. destruct (NodeId_eqb f t); [done|].
  destruct (is_input_connected _ _ _ _); [done|]. destruct (reaches _ _ _); [done|].
  intros x Hx. simpl in Hx. apply elem_of_edge_insert in Hx as [->|Hx]; [done|by apply Ht].
Qed.

Lemma elements_typed_ensure g : elements_typed g -> elements_typed (ensure_endpoints g).1.
Proof.
  intros Ht. unfold ensure_endpoints.
  set (r1 := match endpoint_of_type g GRAPH_INPUT_TYPE_ID with Some i => (g, i) | None => _ end).
  assert (H1 : elements_typed r1.1).
  { subst r1. destruct (endpoint_of_type g GRAPH_INPUT_TYPE_ID); [done|].
    intros x. unfold add_node. rewrite allocate_edges. apply Ht. }
  destruct r1 as [g1 input]. simpl in H1.
  set (r2 := match endpoint_of_type g1 GRAPH_OUTPUT_TYPE_ID with Some i => (g1, i) | None => _ end).
  assert (H2 : elements_typed r2.1).
  { subst r2. destruct (endpoint_of_type g1 GRAPH_OUTPUT_TYPE_ID); [done|].
    intros x. unfold add_node. rewrite allocate_edges. apply H1. }
  destruct r2 as [g2 output]. simpl in *. destruct (is_input_connected _ _ _ _); [done|].
  by apply elements_typed_connect.
Qed.

Lemma wrapping_insert_typed ms es :
  (forall x, x ∈ es -> (I32_MIN <= element x <= I32_MAX)%Z) ->
  forall x, x ∈ wrapping_insert_moves ms es -> (I32_MIN <= element x <= I32_MAX)%Z.
Proof.
  revert es. induction ms as [|m ms IH]; intros es Ht; [done|]. apply IH. intros x Hx.
  apply elem_of_edge_insert in Hx as [->|Hx]; [apply i32_range|]. apply elem_of_edge_remove in Hx as [Hx _]. by apply Ht.
Qed.

Lemma wrapping_remove_typed index ms es :
  (forall x, x ∈ es -> (I32_MIN <= element x <= I32_MAX)%Z) ->
  forall x, x ∈ wrapping_remove_moves index ms es -> (I32_MIN <= element x <= I32_MAX)%Z.
Proof.
  revert es. induction ms as [|m ms IH]; intros es Ht; [done|]. apply IH. intros x.
  assert (Hr : forall y, y ∈ edge_remove m es -> (I32_MIN <= element y <= I32_MAX)%Z).
  { intros y Hy. apply elem_of_edge_remove in Hy as [Hy _]. by apply Ht. }
  cbv beta zeta. destruct (_ <? _)%Z; [|apply Hr].
  intros Hx. apply elem_of_edge_insert in Hx as [->|Hx]; [apply i32_range|by apply Hr].
Qed.

Lemma elements_typed_quiet g g' : elements_typed g -> quiet_step g g' -> elements_typed g'.
Proof.
  intros Ht Hs. destruct Hs.
  - apply (elements_typed_sub g); [apply take_node_edges|done].
  - unfold remove_node. destruct (is_endpoint g i); [done|].
    pose proof (take_node_edges g i) as Hsub. destruct (take_node g i). by apply (elements_typed_sub g).
  - intros x. rewrite (proj1 (modify_frame _ _ _)). apply Ht.
  - by apply elements_typed_connect.
  - apply (elements_typed_sub g); [|done]. intros x Hx. simpl in Hx. apply elem_of_edge_remove in Hx. tauto.
  - apply (elements_typed_sub g); [|done]. unfold disconnect_input.
    destruct (connected_output g t input el); [|done]. intros x Hx. simpl in Hx. apply elem_of_edge_remove in Hx. tauto.
  - apply (elements_typed_sub g); [|done]. unfold link. destruct (_ || _); [done|]. destruct (_ && _); [done|].
    intros x. unfold edit_two. by repeat match goal with |- context [match ?d with _ => _ end] => destruct d end.
  - match goal with Hu : unlink _ _ _ = _ |- _ => unfold unlink in Hu; revert Hu end.
    destruct (negb _); [by intros [= <- <-]|].
    destruct (entries g !! _); [|done]. destruct (entries g !! _); [|done]. intros [= <- <-].
    by destruct (edit_two_slots g a b (without_link b) (without_link a)) as [->| ->].
  - unfold input_array_insert.
    repeat match goal with |- context [match ?d with _ => _ end] => destruct d; try done end.
    intros x. cbn [fst]. apply wrapping_insert_typed. rewrite (proj1 (modify_frame _ _ _)). apply Ht.
  - unfold input_array_remove.
    repeat match goal with |- context [match ?d with _ => _ end] => destruct d; try done end.
    intros x. cbn [fst]. apply wrapping_remove_typed. rewrite (proj1 (modify_frame _ _ _)). apply Ht.
Qed.

Lemma elements_typed_step g g' : elements_typed g -> graph_step g g' -> elements_typed g'.
Proof.
  intros Ht Hs. destruct Hs.
  - by eapply elements_typed_quiet.
  - intros x. unfold add_node. rewrite allocate_edges. apply Ht.
  - intros x. unfold add_entry. destruct (entries g !! _) as [o|]; [destruct (vacant o)|]; try apply Ht;
      rewrite allocate_edges; apply Ht.
  - by apply elements_typed_ensure.
Qed.

Lemma graph_wf_quiet g g' : elements_typed g -> graph_wf g -> quiet_step g g' -> graph_wf g'.
Proof.
  intros Ht Hg Hs. destruct Hs.
  - by apply graph_wf_take_node.
  - by apply graph_wf_remove_node.
  - by apply graph_wf_modify.
  - by apply graph_wf_connect.
  - by apply graph_wf_disconnect.
  - by apply graph_wf_disconnect_input.
  - by apply graph_wf_link.
  - match goal with Hu : unlink _ _ _ = _ |- _ => unfold unlink in Hu; revert Hu end.
    destruct (negb _); [by intros [= <- <-]|].
    destruct (entries g !! _); [|done]. destruct (entries g !! _); [|done]. intros [= <- <-].
    destruct (edit_two_slots g a b (without_link b) (without_link a)) as [->| ->]; [done..|].
    by do 2 apply graph_wf_edit_slot.
  - by apply graph_wf_input_array_insert.
  - by apply graph_wf_input_array_remove.
Qed.

Lemma graph_wf_step g g' : elements_typed g -> graph_wf g -> graph_step g g' -> graph_wf g'.
Proof.
  intros Ht Hg Hs. destruct Hs.
  - by eapply graph_wf_quiet.
  - by apply graph_wf_add_node.
  - by apply graph_wf_add_entry.
  - by apply graph_wf_ensure_endpoints.
Qed.

Lemma graph_wf_new : graph_wf (Graph_new : Graph B).
Proof.
  split; [apply arena_wf_new| | |]; simpl.
  - intros x Hx. by apply elem_of_nil in Hx.
  - intros x y Hx. by apply elem_of_nil in Hx.
  - intros a Hc. inversion Hc as [? ? (x & Hx & _)|? ? ? (x & Hx & _)]; by apply elem_of_nil in Hx.
Qed.

(** C25: every graph built from the empty one by any sequence of operations is
    well formed: slots, generations and the free list agree, every edge joins
    two live nodes, every input element has at most one source, there is no
    cycle, and every edge names an [i32] element.  Nodes are added while the
    arena has room, an array insertion shifts no connection past [i32::MAX]
    and [unlink] gets ids of two different slots, live or stale. *)
Theorem reachable_graphs_are_dags g :
  rtc graph_step Graph_new g -> graph_wf g /\ elements_typed g.
Proof.
  intros Hr. apply (rtc_ind_r (R := graph_step) (fun d => graph_wf d /\ elements_typed d) Graph_new).
  - split; [apply graph_wf_new|]. intros x Hx. by apply elem_of_nil in Hx.
  - intros d d' _ Hs [Hd Ht]. split; [by apply (graph_wf_step d)|by apply (elements_typed_step d)].
  - done.
Qed.

(** * Slots and generations *)


















(** * Transfers *)

Lemma modify_all_edges g (f : NodeEntry B -> NodeEntry B) ps :
  edges (foldl (fun g p => modify g p f) g ps) = edges g.
Proof. apply modify_all_frame. Qed.

Lemma elem_of_live_ids k (es : list (NodeEntry B)) j :
  j ∈ live_ids k es <-> exists p e, es !! p = Some e /\ vacant e = false /\
    j = mkNodeId (as_u32 (N.of_nat (k + p))) (entry_generation e).
Proof.
  revert k. induction es as [|x es IH]; intros k; simpl.
  - rewrite elem_of_nil. split; [done|]. by intros (p & e & ? & _).
  - destruct (vacant x) eqn:Hv; [rewrite IH|rewrite elem_of_cons, IH].
    + split.
      * intros (p & e & He & Hve & ->). exists (S p), e. split; [done|]. split; [done|]. do 3 f_equal. lia.
      * intros ([|p] & e & He & Hve & ->); simplify_eq/=; [congruence|].
        exists p, e. split; [done|]. split; [done|]. do 3 f_equal. lia.
    + split.
      * intros [->|(p & e & He & Hve & ->)].
        -- exists O, x. split; [done|]. split; [done|]. do 3 f_equal. lia.
        -- exists (S p), e. split; [done|]. split; [done|]. do 3 f_equal. lia.
      * intros ([|p] & e & He & Hve & ->); simplify_eq/=.
        -- left. do 3 f_equal. lia.
        -- right. exists p, e. split; [done|]. split; [done|]. do 3 f_equal. lia.
Qed.

Lemma elem_of_node_ids g j : arena_wf g -> is_valid g j = true -> j ∈ node_ids g.
Proof.
  intros Hg Hj. apply valid_get in Hj as [e He]. apply get_Some in He as (_ & He & Hv & Hgen).
  apply elem_of_live_ids. exists (slot (index j)), e. split; [done|]. split; [done|].
  destruct j as [k gen]; simpl in *. rewrite Hgen. f_equal. unfold slot. rewrite N2Nat.id.
  symmetry. apply as_u32_id. pose proof (slot_lt _ _ _ Hg He). unfold is_u32, U32_MAX in *. lia.
Qed.

Lemma add_entry_edges g (e : NodeEntry B) i : edges (add_entry g e i).1 = edges g.
Proof.
  unfold add_entry, allocate.
  repeat match goal with |- context [match ?d with _ => _ end] => destruct d end; done.
Qed.

Lemma transfer_nodes g other m ids :
  graph_wf other ->
  let '(g', other', m') := foldl transfer_one (g, other, m) ids in
  edges g' = edges g /\ graph_wf other' /\
  (forall x, x ∈ edges other' -> x ∈ edges other /\ from x ∉ ids).
Proof.
  revert g other m. induction ids as [|i ids IH]; intros g other m Hw.
  - simpl. split; [done|]. split; [done|]. intros x Hx. split; [done|]. apply not_elem_of_nil.
  - cbn [foldl]. unfold transfer_one at 2.
    pose proof (graph_wf_take_node other i Hw) as Hw'.
    destruct (take_node other i) as [o1 r] eqn:Et. simpl in Hw'.
    assert (Hsub : forall x, x ∈ edges o1 -> x ∈ edges other /\ from x <> i).
    { intros x Hx. destruct (get other i) as [e|] eqn:He.
      - destruct (take_node_spec other i e (graph_arena _ Hw) He) as (g' & Et' & _ & Hed & _).
        rewrite Et in Et'. simplify_eq. rewrite Hed, elem_of_retain in Hx. destruct Hx as [Hx Ht].
        split; [done|]. unfold touches in Ht. rewrite negb_true_iff, orb_false_iff, !NodeId_eqb_false in Ht. tauto.
      - assert (o1 = other) as ->.
        { unfold take_node in Et. rewrite is_valid_get, He in Et.
          rewrite bool_decide_eq_false_2 in Et by (by intros []). simpl in Et. congruence. }
        split; [done|]. intros <-. destruct (graph_live _ Hw x Hx) as [Hl _].
        apply valid_get in Hl as [? ?]. congruence. }
    assert (Hgo : forall g1 m1, edges g1 = edges g ->
      let '(g', other', m') := foldl transfer_one (g1, o1, m1) ids in
      edges g' = edges g /\ graph_wf other' /\
      (forall x, x ∈ edges other' -> x ∈ edges other /\ from x ∉ i :: ids)).
    { intros g1 m1 Eg. specialize (IH g1 o1 m1 Hw'). destruct (foldl _ _ _) as [[g' o'] m'].
      destruct IH as (I1 & I2 & I3). split; [congruence|]. split; [done|].
      intros x Hx. destruct (I3 x Hx) as [Hx1 Hx2]. destruct (Hsub x Hx1). split; [done|].
      rewrite elem_of_cons. intros [?|?]; done. }
    destruct r as [e|]; [|by apply Hgo].
    pose proof (add_entry_edges g e i) as Ee. destruct (add_entry g e i) as [g1 n]. by apply Hgo.
Qed.

(** C26: [transfer_all] moves the nodes but none of the edges: it reads the
    edge list of the source only after every node was detached, which has
    already dropped them, so the receiving graph keeps exactly its own
    edges, whatever the order in which the id map is read. *)
Theorem transfer_all_loses_edges values g other :
  graph_wf other ->
  let '(g', other', m) := transfer_all values g other in edges g' = edges g /\ edges other' = [].
Proof.
  intros Hw. unfold transfer_all. pose proof (transfer_nodes g other [] (node_ids other) Hw) as Ht.
  destruct (foldl transfer_one _ _) as [[g1 o1] m]. destruct Ht as (E1 & W1 & Hn).
  assert (Eo : edges o1 = []).
  { destruct (edges o1) as [|x l] eqn:El; [done|]. exfalso.
    destruct (Hn x) as [Hx Hnot]; [apply elem_of_cons; by left|].
    apply Hnot, elem_of_node_ids; [apply Hw|]. by apply (graph_live _ Hw). }
  split; [|done]. unfold output_connections_all. rewrite Eo. simpl. rewrite <- E1. clear.
  generalize (values m) as l. intros l. revert g1. induction l as [|i l IH]; intros g1; [done|]. simpl.
  rewrite IH. unfold relink. apply modify_all_edges.
Qed.

End ops.

(** * Concrete graphs

    The hash is the length of the input id; two sources and a node with an
    array input of three elements. *)

#[local] Existing Instance name_behavior.
Definition length_hash : InputHash := fun s => Z.of_nat (String.length s).
#[local] Existing Instance length_hash.

Definition SOURCES_IN : string := "sources_in".

Definition sources_core : NodeCore :=
  add_input NodeCore_new (with_array_size (with_flags (Input_new SOURCES_IN VT_Texture NV_None) ARRAY) 3).

Definition id0 : NodeId := mkNodeId 0 0.
Definition id1 : NodeId := mkNodeId 1 0.
Definition id2 : NodeId := mkNodeId 2 0.

Definition three : Graph string :=
  let g := (add_node Graph_new NodeCore_new "left").1 in
  let g := (add_node g NodeCore_new "right").1 in
  (add_node g sources_core "multicam").1.

Definition two_sources : Graph string :=
  (connect (connect three id0 id2 SOURCES_IN 0).1 id1 id2 SOURCES_IN 1).1.

(** One source feeding two neighbouring elements. *)
Definition shared_source : Graph string :=
  (connect (connect three id0 id2 SOURCES_IN 0).1 id0 id2 SOURCES_IN 1).1.

Lemma three_wf : graph_wf three.
Proof. do 3 (apply graph_wf_add_node; [|right; reflexivity]). apply graph_wf_new. Qed.

Lemma two_sources_wf : graph_wf two_sources.
Proof. do 2 apply graph_wf_connect. apply three_wf. Qed.

Lemma shared_source_wf : graph_wf shared_source.
Proof. do 2 apply graph_wf_connect. apply three_wf. Qed.

(** The insertion of an element loses a connection of a source that feeds two
    neighbouring elements: the first shift lands on the second edge and the
    second shift then moves the only one left. *)
Example array_insert_drops_shared_source :
  connected_output shared_source id2 SOURCES_IN 0 = Some id0 /\
  connected_output shared_source id2 SOURCES_IN 1 = Some id0 /\
  (input_array_insert shared_source id2 SOURCES_IN 0).2 = None /\
  let g := (input_array_insert shared_source id2 SOURCES_IN 0).1 in
  connected_output g id2 SOURCES_IN 1 = None /\ connected_output g id2 SOURCES_IN 2 = Some id0.
Proof. vm_compute. done. Qed.

(** Undoing a deletion leaves a one-way link; deleting the partner then leaves
    a link to a dead node, which the node reusing its slot does not have. *)
Example dangling_link_after_undo :
  let g := (link three id0 id1).1 in
  let '(g, e) := take_node g id0 in
  let g := match e with Some e => (add_entry g e id0).1 | None => g end in
  let g := (remove_node g id1).1 in
  is_valid g id1 = false /\ are_linked g id0 id1 = true.
Proof. vm_compute. done. Qed.

Lemma connect_rejects_cycles :
  (connect two_sources id2 id0 "enabled_in" (-1)).2 = Some E_State /\
  (connect two_sources id0 id2 SOURCES_IN 0).2 = Some E_State /\
  (connect two_sources id0 id2 "enabled_in" 0).2 = Some E_Invalid /\
  (connect two_sources id0 (mkNodeId 2 1) SOURCES_IN 2).2 = Some E_NotFound.
Proof. vm_compute. done. Qed.



Lemma link_unlink_symmetric_witness :
  let g := (link three id1 id2).1 in
  links_of g id1 = [id2] /\
  links_of (link g id0 id1).1 id1 = [id2; id0] /\ links_of (link g id0 id1).1 id0 = [id1] /\
  exists g'', unlink (link g id0 id1).1 id0 id1 = Some (g'', true) /\
    are_linked g'' id0 id1 = false /\ edges g'' = edges g.
Proof.
  cbv zeta. split; [reflexivity|]. split; [reflexivity|]. split; [reflexivity|].
  destruct (get (link three id1 id2).1 id0) as [ea|] eqn:Ea; [|vm_compute in Ea; discriminate Ea].
  destruct (get (link three id1 id2).1 id1) as [eb|] eqn:Eb; [|vm_compute in Eb; discriminate Eb].
  pose proof (link_unlink_symmetric (link three id1 id2).1 id0 id1 ea eb Ea Eb ltac:(discriminate)) as Hall.
  destruct (link (link three id1 id2).1 id0 id1) as [g' changed].
  destruct Hall as (_ & _ & _ & _ & _ & _ & _ & _ & _ & _ & _ & _ & g'' & Hu & _ & _ & _ & _ & Hn & _ & _ & He & _).
  exists g''. split; [exact Hu|]. split; [exact Hn|exact He].
Defined.

Lemma array_edit_moves_connections_witness :
  exists e z g1 g2, get two_sources id2 = Some e /\ get_input (core e) SOURCES_IN = Some z /\
    input_array_insert two_sources id2 SOURCES_IN 1 = (g1, None) /\
    get g1 id2 = Some (modify_core (fun c => core_input_array_insert c SOURCES_IN (Z.to_nat 1)) e) /\
    (forall el, connected_output g1 id2 SOURCES_IN el =
       if (el <? 1)%Z then connected_output two_sources id2 SOURCES_IN el
       else if (el =? 1)%Z then None else connected_output two_sources id2 SOURCES_IN (el - 1)) /\
    (forall t input' el, t <> id2 \/ hash_str input' <> hash_str SOURCES_IN ->
       connected_output g1 t input' el = connected_output two_sources t input' el) /\
    input_array_remove g1 id2 SOURCES_IN 1 = (g2, None) /\
    (forall t input' el, connected_output g2 t input' el = connected_output two_sources t input' el).
Proof.
  destruct (get two_sources id2) as [e|] eqn:He; [|vm_compute in He; discriminate].
  destruct (get_input (core e) SOURCES_IN) as [z|] eqn:Hz;
    [|vm_compute in He; injection He as <-; vm_compute in Hz; discriminate].
  assert (Ez : z = with_array_size (with_flags (Input_new SOURCES_IN VT_Texture NV_None) ARRAY) 3).
  { vm_compute in He. injection He as <-. vm_compute in Hz. injection Hz as <-. reflexivity. }
  destruct (array_edit_moves_connections two_sources id2 e SOURCES_IN z 1) as (g1 & g2 & Hall).
  - exact two_sources_wf.
  - exact He.
  - exact Hz.
  - rewrite Ez. reflexivity.
  - rewrite Ez. simpl. lia.
  - rewrite Ez. reflexivity.
  - intros d e' Hd He' _.
    assert (Hm : moved_edges two_sources id2 (hash_str SOURCES_IN) 1 = [mkEdge id1 id2 10 1]) by reflexivity.
    rewrite Hm in Hd, He'. apply list_elem_of_singleton in Hd as ->, He' as ->. reflexivity.
  - intros x Hx.
    assert (Hm : moved_edges two_sources id2 (hash_str SOURCES_IN) 1 = [mkEdge id1 id2 10 1]) by reflexivity.
    rewrite Hm in Hx. apply list_elem_of_singleton in Hx as ->. reflexivity.
  - exists e, z, g1, g2. split; [reflexivity|]. split; [exact Hz|].
    destruct Hall as (H1 & H2 & H3 & H4 & H5 & H6 & _). repeat (split; [assumption|]). exact H6.
Defined.

(** A connection on the last element: the insertion wraps it round to the
    first one, where another source already sits. *)
Definition far_sources : Graph string :=
  (connect (connect three id0 id2 SOURCES_IN I32_MAX).1 id1 id2 SOURCES_IN I32_MIN).1.

Example array_insert_wraps_onto_a_source :
  let g := (input_array_insert far_sources id2 SOURCES_IN 0).1 in
  (input_array_insert far_sources id2 SOURCES_IN 0).2 = None /\
  edges g = [mkEdge id0 id2 (hash_str SOURCES_IN) I32_MIN; mkEdge id1 id2 (hash_str SOURCES_IN) I32_MIN].
Proof. vm_compute. done. Qed.

(** [unlink] writes to the slot of a stale id: it cuts the link of the node
    that has reused it. *)
Example unlink_of_stale_id_cuts_another_link :
  let g := (link three id0 id1).1 in
  let '(g, e) := take_node g id0 in
  let g := match e with Some e => (add_entry g e id0).1 | None => g end in
  let g := (remove_node g id1).1 in
  let '(g, c) := add_node g NodeCore_new "newcomer" in
  let g := (link g c id0).1 in
  links_to g c id0 = true /\
  match unlink g id0 id1 with
  | Some (g', changed) => changed = true /\ links_to g' c id0 = false /\ links_to g' id0 c = true
  | None => False
  end.
Proof. vm_compute. done. Qed.

Lemma reachable_graphs_are_dags_witness : graph_wf two_sources /\ elements_typed two_sources.
Proof.
  apply (reachable_graphs_are_dags two_sources).
  eapply rtc_r; [eapply rtc_r; [eapply rtc_r; [eapply rtc_r; [eapply rtc_r; [apply rtc_refl|]|]|]|]|].
  4-5: apply step_quiet, step_connect; unfold I32_MIN, I32_MAX; lia.
  all: apply step_add_node; right; reflexivity.
Defined.

Lemma transfer_all_loses_edges_witness :
  length (edges two_sources) = 2%nat /\
  let '(g', other', m) := transfer_all (fmap snd) three two_sources in
  edges g' = edges three /\ edges other' = [].
Proof. split; [reflexivity|]. apply (transfer_all_loses_edges (fmap snd) three two_sources two_sources_wf). Defined.
