(* ===== verification/Copies.v ===== *)
(** Dependency copies (crates/oak-node/src/graph.rs,
    [copy_node_and_dependency_graph_minus_items]) and the edge set as an
    ordered vector: the copy terminates within the nodes of the graph, adds
    only fresh nodes, shares the items, and every copy has exactly the inputs
    of its original; the edges of a detached part can be connected again one
    by one. *)

From stdpp Require Import relations sorting.
From S2P Require Import Prelude Rational Ids Value Keyframe NodeCore Graph Arena Dag GraphOps.

Local Open Scope N_scope.

(** * The ordered edge set

    [Edge_cmp] is the lexicographic order of the six numbers of an edge. *)

Fixpoint lex (x y : list Z) : comparison :=
  match x, y with
  | a :: x, b :: y => match (a ?= b)%Z with Eq => lex x y | c => c end
  | [], [] => Eq
  | [], _ => Lt
  | _, [] => Gt
  end.

Definition edge_numbers (x : Edge) : list Z :=
  [Z.of_N (index (from x)); Z.of_N (generation (from x)); Z.of_N (index (to x));
   Z.of_N (generation (to x)); input_key x; element x].

Definition Edge_lt (x y : Edge) : Prop := lex (edge_numbers x) (edge_numbers y) = Lt.
Definition edges_sorted (l : list Edge) : Prop := StronglySorted Edge_lt l.

Section order.
Implicit Types (x y z : Edge) (l : list Edge).

Lemma Edge_cmp_lex x y : Edge_cmp x y = lex (edge_numbers x) (edge_numbers y).
Proof.
  unfold Edge_cmp, NodeId_cmp, edge_numbers. cbn [lex]. rewrite <- !N2Z.inj_compare.
  by repeat case_match.
Qed.

Lemma lex_trans u v w : lex u v = Lt -> lex v w = Lt -> lex u w = Lt.
Proof.
  revert v w. induction u as [|a u IH]; intros [|b v] [|c w]; simpl; try done.
  destruct (Z.compare_spec a b), (Z.compare_spec b c), (Z.compare_spec a c); subst; try done; try lia.
  apply IH.
Qed.

Lemma lex_flip u v : lex u v = Gt -> lex v u = Lt.
Proof.
  revert v. induction u as [|a u IH]; intros [|b v]; simpl; try done.
  rewrite (Z.compare_antisym a b). destruct (Z.compare_spec a b); simpl; try done. apply IH.
Qed.

Lemma lex_irrefl u : lex u u <> Lt.
Proof. induction u as [|a u IH]; simpl; [done|]. by rewrite Z.compare_refl. Qed.

Lemma edges_sorted_insert x l : edges_sorted l -> edges_sorted (edge_insert x l).
Proof.
  induction 1 as [|y l Hl IH Hy]; simpl; [repeat constructor|].
  destruct (Edge_cmp x y) eqn:E.
  - by constructor.
  - rewrite Edge_cmp_lex in E. constructor; [by constructor|]. constructor; [done|].
    eapply Forall_impl; [exact Hy|]. intros z. by apply lex_trans.
  - rewrite Edge_cmp_lex in E. constructor; [done|]. apply Forall_forall.
    intros z Hz. apply elem_of_edge_insert in Hz as [->|Hz]; [by apply lex_flip|].
    by apply (proj1 (Forall_forall _ _) Hy).
Qed.

Lemma edges_sorted_retain p l : edges_sorted l -> edges_sorted (retain p l).
Proof.
  unfold retain. induction 1 as [|y l Hl IH Hy]; simpl; [constructor|]. destruct (p y); [|done].
  constructor; [done|]. apply Forall_forall. intros z Hz.
  apply (elem_of_retain p l) in Hz as [Hz _]. by apply (proj1 (Forall_forall _ _) Hy).
Qed.

Lemma edges_sorted_NoDup l : edges_sorted l -> NoDup l.
Proof.
  induction 1 as [|y l Hl IH Hy]; constructor; [|done]. intros Hin.
  apply (proj1 (Forall_forall _ _) Hy) in Hin. by apply lex_irrefl in Hin.
Qed.

(** A [BTreeSet] is determined by its elements. *)
Lemma edges_sorted_unique l l' : edges_sorted l -> edges_sorted l' -> (forall x, x ∈ l <-> x ∈ l') -> l = l'.
Proof.
  intros Hl Hl' He.
  assert (Hp : l ≡ₚ l') by (apply NoDup_Permutation; [by apply edges_sorted_NoDup..|done]).
  revert Hp. apply (StronglySorted_unique_strong Edge_lt); [|done|done].
  intros x y _ _ Hxy Hyx. exfalso. apply (lex_irrefl (edge_numbers x)). by eapply lex_trans.
Qed.
End order.

(** * What a copy is *)

Section copies.
Context {B : Type} `{NodeBehavior B} `{InputHash}.
Implicit Types (g : Graph B) (i j o r c f : NodeId) (x y : Edge) (l m : IdMap).

Definition is_item g i : bool :=
  match get g i with Some e => negb (Z.land (core_flags (core e)) IS_ITEM =? 0)%Z | None => false end.

(** The nodes the copy of [r] visits: [r] itself and the sources of every
    visited node that is not an item. *)
Inductive depends g r : NodeId -> Prop :=
| dep_root : depends g r r
| dep_source i j : depends g r i -> is_item g i = false -> arc g j i -> depends g r j.

Definition duplicable g r : Prop :=
  forall i e, depends g r i -> get g i = Some e -> is_Some (duplicate (behavior e) (core e)).

(** Every edge ends in an input that still exists and accepts it, under the
    name recorded for its key. *)
Definition wired_edge g x : Prop :=
  exists s z, input_names g !! input_key x = Some s /\ hash_str s = input_key x /\
    target_input g (to x) s = Some z /\ is_connectable z = true /\ (is_array z = true \/ element x = (-1)%Z).
Definition wired g : Prop := forall x, x ∈ edges g -> wired_edge g x.

Record copyable g : Prop := {
  copyable_graph : graph_wf g;
  copyable_sorted : edges_sorted (edges g);
  copyable_wired : wired g;
  copyable_room : 2 * N.of_nat (length (entries g)) <= U32_MAX
}.

(** An entry and its copy: no links, contexts moved, everything else kept. *)
Definition is_copy (e e' : NodeEntry B) : Prop :=
  (exists m, core e' = remap_contexts m (with_links (core e) [])) /\
  duplicate (behavior e) (core e) = Some (behavior e').

Definition fresh m j : Prop := exists o, (o, j) ∈ m /\ o <> j.

(** The copy [c] of [o] has the inputs of [o]. *)
Definition mirrored g g' m o c : Prop := forall x, x ∈ edges g -> to x = o ->
  exists f, (from x, f) ∈ m /\ mkEdge f c (input_key x) (element x) ∈ edges g'.

(** [g'] is [g] with a copy of the dependencies of [r]: every dependency has
    one image, items are their own, the others are new nodes with the core of
    the original and, but for the copy of [r], its duplicated behaviour; the
    new edges are the inputs of the originals, carried over. *)
Record dependency_copy g r g' m : Prop := {
  dc_all i : depends g r i <-> exists j, (i, j) ∈ m;
  dc_functional : NoDup m.*1;
  dc_injective : NoDup m.*2;
  dc_item o j : (o, j) ∈ m -> (o = j <-> is_item g o = true);
  dc_new o j : (o, j) ∈ m -> o <> j -> get g j = None /\
    exists e e', get g o = Some e /\ get g' j = Some e' /\
      (exists m', core e' = remap_contexts m' (with_links (core e) [])) /\
      (o <> r -> duplicate (behavior e) (core e) = Some (behavior e'));
  dc_edges x : x ∈ edges g' <-> x ∈ edges g \/
    exists y, y ∈ edges g /\ (from y, from x) ∈ m /\ (to y, to x) ∈ m /\ to y <> to x /\
      input_key y = input_key x /\ element y = element x
}.

(** A graph on the way from [g] to [g] with the copies of map [m]. *)
Record copying g r g' m : Prop := {
  cp_graph : graph_wf g';
  cp_sorted : edges_sorted (edges g');
  cp_names k s : input_names g !! k = Some s -> input_names g' !! k = Some s;
  cp_old j : ~ fresh m j -> get g' j = get g j;
  cp_new o j : (o, j) ∈ m -> o <> j -> get g j = None /\
    exists e e', get g o = Some e /\ get g' j = Some e' /\ is_copy e e';
  cp_item o j : (o, j) ∈ m -> (o = j <-> is_item g o = true);
  cp_source o j : (o, j) ∈ m -> is_valid g o = true /\ depends g r o;
  cp_keys : NoDup m.*1;
  cp_values : NoDup m.*2;
  cp_edges_old x : x ∈ edges g -> x ∈ edges g';
  cp_edges_new x : x ∈ edges g' -> x ∈ edges g \/
    exists y, y ∈ edges g /\ (from y, from x) ∈ m /\ (to y, to x) ∈ m /\ to y <> to x /\
      input_key y = input_key x /\ element y = element x;
  cp_room : (length (entries g') <= length (entries g) + length m)%nat
}.

Lemma key_inj m o j j' : NoDup m.*1 -> (o, j) ∈ m -> (o, j') ∈ m -> j = j'.
Proof.
  intros Hnd Hj Hj'. apply list_elem_of_lookup in Hj as [k Hk], Hj' as [k' Hk'].
  assert (k = k') as ->; [|congruence].
  eapply (NoDup_lookup (m.*1)); [done|by rewrite list_lookup_fmap, Hk|by rewrite list_lookup_fmap, Hk'].
Qed.

Lemma value_inj m o o' j : NoDup m.*2 -> (o, j) ∈ m -> (o', j) ∈ m -> o = o'.
Proof.
  intros Hnd Hj Hj'. apply list_elem_of_lookup in Hj as [k Hk], Hj' as [k' Hk'].
  assert (k = k') as ->; [|congruence].
  eapply (NoDup_lookup (m.*2)); [done|by rewrite list_lookup_fmap, Hk|by rewrite list_lookup_fmap, Hk'].
Qed.

Lemma map_get_Some m i j : map_get m i = Some j -> (i, j) ∈ m.
Proof.
  unfold map_get. intros Hm. apply fmap_Some in Hm as ([o c] & Hf & ->).
  apply find_Some in Hf as [Hin He]. apply NodeId_eqb_true in He. simpl in *. by subst.
Qed.

Lemma map_get_None m i : map_get m i = None -> i ∉ m.*1.
Proof.
  unfold map_get. rewrite fmap_None, find_None. intros Hm Hin.
  apply list_elem_of_fmap in Hin as (p & -> & Hp). specialize (Hm p Hp). apply NodeId_eqb_false in Hm. done.
Qed.

Lemma length_retain_lt {A} (p q : A -> bool) (l : list A) a :
  (forall b, p b = true -> q b = true) -> a ∈ l -> q a = true -> p a = false ->
  (length (retain p l) < length (retain q l))%nat.
Proof.
  intros Hpq Ha Hq Hp. unfold retain.
  assert (Hle : forall k, (length (List.filter p k) <= length (List.filter q k))%nat).
  { induction k as [|b k IH]; simpl; [done|]. destruct (p b) eqn:E; [rewrite (Hpq _ E); simpl; lia|].
    destruct (q b); simpl; lia. }
  induction l as [|b l IH]; [by apply elem_of_nil in Ha|]. apply elem_of_cons in Ha as [<-|Ha]; simpl.
  - rewrite Hq, Hp. simpl. specialize (Hle l). lia.
  - specialize (IH Ha). destruct (p b) eqn:E; [rewrite (Hpq _ E); simpl; lia|]. destruct (q b); simpl; lia.
Qed.

Lemma length_live_ids k (es : list (NodeEntry B)) : (length (live_ids k es) <= length es)%nat.
Proof.
  revert k. induction es as [|e es IH]; intros k; simpl; [done|].
  specialize (IH (S k)). destruct (vacant e); simpl; lia.
Qed.

Lemma allocate_length g (co : NodeCore) (b : B) :
  (length (entries (allocate g co b).1) <= S (length (entries g)))%nat.
Proof.
  unfold allocate. destruct (list.last (free_list g)); simpl.
  - rewrite length_insert. lia.
  - rewrite length_app. simpl. lia.
Qed.

Section invariant.
Context (g : Graph B) (r : NodeId) (Hg : copyable g).

Lemma fresh_dead g' m j : copying g r g' m -> fresh m j -> get g j = None.
Proof. intros Hc (o & Ho & Hne). by apply (cp_new _ _ _ _ Hc o j). Qed.

Lemma old_live g' m j e : copying g r g' m -> get g j = Some e -> get g' j = Some e.
Proof.
  intros Hc He. rewrite (cp_old _ _ _ _ Hc); [done|]. intros Hf.
  rewrite (fresh_dead _ _ _ Hc Hf) in He. done.
Qed.

Lemma value_live g' m o j : copying g r g' m -> (o, j) ∈ m -> is_valid g' j = true.
Proof.
  intros Hc Hj. rewrite is_valid_get, bool_decide_eq_true. destruct (decide (o = j)) as [->|Hne].
  - destruct (cp_source _ _ _ _ Hc _ _ Hj) as [Hv _]. apply valid_get in Hv as [e He].
    rewrite (old_live _ _ _ _ Hc He). by eexists.
  - destruct (cp_new _ _ _ _ Hc _ _ Hj Hne) as (_ & e & e' & _ & -> & _). by eexists.
Qed.

(** Paths from a copy stay among the copies. *)
Lemma copy_path g' m o c j : copying g r g' m -> (o, c) ∈ m -> o <> c -> rtc (arc g') c j ->
  exists o', (o', j) ∈ m /\ o' <> j /\ rtc (arc g) o o'.
Proof.
  intros Hc Ho Hne Hp. revert o Ho Hne. induction Hp as [c|c k j Hk Hp IH]; intros o Ho Hne; [by exists o|].
  destruct Hk as (x & Hx & <- & <-).
  apply (cp_edges_new _ _ _ _ Hc) in Hx as [Hx|(y & Hy & Hf & Ht & Hyne & _)].
  - destruct (graph_live _ (copyable_graph _ Hg) _ Hx) as [Hv _]. apply valid_get in Hv as [e He].
    destruct (cp_new _ _ _ _ Hc _ _ Ho Hne) as [E _]. congruence.
  - assert (from y = o) as <- by (by eapply value_inj; [apply Hc|..]).
    destruct (IH _ Ht Hyne) as (o' & Ho' & Hne' & Hr).
    exists o'. split; [done|]. split; [done|]. eapply rtc_l; [|done]. by exists y.
Qed.

Lemma target_input_copy g' m o c s : copying g r g' m -> (o, c) ∈ m -> o <> c ->
  target_input g' c s = target_input g o s.
Proof.
  intros Hc Ho Hne. destruct (cp_new _ _ _ _ Hc _ _ Ho Hne) as (_ & e & e' & He & He' & [mm Hm] & _).
  unfold target_input. rewrite He, He'. simpl. by rewrite Hm.
Qed.

(** Every edge of the result is wired. *)
Lemma copying_wired g' m : copying g r g' m -> wired g'.
Proof.
  intros Hc x Hx. apply (cp_edges_new _ _ _ _ Hc) in Hx as [Hx|(y & Hy & _ & Ht & Hne & Ek & Ee)].
  - destruct (copyable_wired _ Hg x Hx) as (s & z & Hs & Hh & Hz & Hz').
    exists s, z. split; [by apply (cp_names _ _ _ _ Hc)|]. split; [done|]. split; [|done].
    revert Hz. unfold target_input. destruct (get g (to x)) as [e|] eqn:He; [|done].
    by rewrite (old_live _ _ _ _ Hc He).
  - destruct (copyable_wired _ Hg y Hy) as (s & z & Hs & Hh & Hz & Hz').
    exists s, z. rewrite <- Ek, <- Ee. split; [by apply (cp_names _ _ _ _ Hc)|]. split; [done|]. split; [|done].
    by rewrite (target_input_copy _ _ _ _ s Hc Ht Hne).
Qed.

(** * The steps of a copy *)

Lemma input_name_kept g' m x : copying g r g' m -> x ∈ edges g ->
  input_name g' (input_key x) = input_name g (input_key x) /\
  hash_str (input_name g (input_key x)) = input_key x /\
  exists z, target_input g (to x) (input_name g (input_key x)) = Some z /\ is_connectable z = true /\
    (is_array z = true \/ element x = (-1)%Z).
Proof.
  intros Hc Hx. destruct (copyable_wired _ Hg x Hx) as (s & z & Hs & Hh & Hz).
  unfold input_name. rewrite (cp_names _ _ _ _ Hc _ _ Hs), Hs. simpl. by eauto.
Qed.

(** The source of an input is not reached from the copy under construction. *)
Lemma copy_not_upstream g' m x f c : copying g r g' m -> x ∈ edges g ->
  (from x, f) ∈ m -> (to x, c) ∈ m -> to x <> c -> ~ rtc (arc g') c f.
Proof.
  intros Hc Hx Hf Ht Hne Hp.
  destruct (copy_path _ _ _ _ _ Hc Ht Hne Hp) as (o & Ho & _ & Hr).
  assert (o = from x) as -> by (by eapply value_inj; [apply Hc|..]).
  apply (graph_acyclic _ (copyable_graph _ Hg) (from x)).
  eapply tc_rtc_r; [|exact Hr]. apply tc_once. by exists x.
Qed.

(** An input of the copy that is fed is fed by the copy of the source. *)
Lemma copy_input_source g' m x y f c : copying g r g' m -> x ∈ edges g ->
  (from x, f) ∈ m -> (to x, c) ∈ m -> to x <> c ->
  y ∈ edges g' -> to y = c -> input_key y = input_key x -> element y = element x ->
  y = mkEdge f c (input_key x) (element x).
Proof.
  intros Hc Hx Hf Ht Hne Hy Et Ek Ee.
  apply (cp_edges_new _ _ _ _ Hc) in Hy as [Hy|(w & Hw & Hwf & Hwt & Hwne & Ewk & Ewe)].
  - destruct (graph_live _ (copyable_graph _ Hg) _ Hy) as [_ Hv]. apply valid_get in Hv as [e He].
    destruct (cp_new _ _ _ _ Hc _ _ Ht Hne) as [E _]. congruence.
  - rewrite Et in Hwt. assert (to w = to x) by (by eapply value_inj; [apply Hc|..]).
    assert (w = x) as -> by (apply (graph_single _ (copyable_graph _ Hg)); congruence).
    assert (from y = f) by (by eapply key_inj; [apply Hc|..]).
    destruct y; simpl in *; congruence.
Qed.

Lemma connect_copy g' m x f c : copying g r g' m -> x ∈ edges g ->
  (from x, f) ∈ m -> (to x, c) ∈ m -> to x <> c ->
  let g2 := (connect g' f c (input_name g (input_key x)) (element x)).1 in
  copying g r g2 m /\ mkEdge f c (input_key x) (element x) ∈ edges g2 /\
  (forall y, y ∈ edges g' -> y ∈ edges g2).
Proof.
  intros Hc Hx Hf Ht Hne. destruct (input_name_kept _ _ _ Hc Hx) as (_ & Hh & z & Hz & Hz').
  set (s := input_name g (input_key x)) in *.
  destruct (connect_cases g' f c s (element x)) as [[-> Hcon]|(err & -> & Hcon)]; cbn [fst].
  - assert (He : forall y, y ∈ edges (connected g' f c s (element x)) <->
      y = mkEdge f c (input_key x) (element x) \/ y ∈ edges g') by (intros y; by rewrite connected_edges, Hh).
    split; [|split; [apply He; by left|intros y Hy; apply He; by right]]. split.
    + apply graph_wf_connected; [apply Hc|done].
    + apply edges_sorted_insert, Hc.
    + intros k t Hk. simpl. apply (cp_names _ _ _ _ Hc) in Hk. destruct (input_names g' !! hash_str s) eqn:E; [done|].
      rewrite lookup_insert_ne; [done|]. intros <-. congruence.
    + intros j. rewrite connected_get. apply Hc.
    + intros o j. rewrite connected_get. apply Hc.
    + apply Hc.
    + apply Hc.
    + apply Hc.
    + apply Hc.
    + intros y Hy. apply He. right. by apply (cp_edges_old _ _ _ _ Hc).
    + intros y Hy. apply He in Hy as [->|Hy]; [|by apply (cp_edges_new _ _ _ _ Hc)]. right. by exists x.
    + simpl. apply Hc.
  - split; [done|]. split; [|done]. destruct (decide (mkEdge f c (input_key x) (element x) ∈ edges g')) as [|Hout]; [done|].
    destruct Hcon. split; [by eapply value_live|]. split; [by eapply value_live|].
    split; [exists z; by rewrite (target_input_copy _ _ _ _ s Hc Ht Hne)|]. split.
    + apply connected_output_None. intros y Hy (Et & Ek & Ee). apply Hout. rewrite Hh in Ek.
      by rewrite <- (copy_input_source _ _ x y f c Hc Hx Hf Ht Hne Hy Et Ek Ee).
    + by eapply copy_not_upstream.
Qed.

Lemma keys_bound m i : NoDup m.*1 -> (forall o j, (o, j) ∈ m -> is_valid g o = true) ->
  i ∉ m.*1 -> is_valid g i = true -> (length m < length (entries g))%nat.
Proof.
  intros Hnd Hm Hi Hv.
  assert (Hsub : (i :: m.*1) ⊆+ node_ids g).
  { apply NoDup_submseteq; [by constructor|]. intros j Hj.
    apply elem_of_node_ids; [apply (copyable_graph _ Hg)|].
    apply elem_of_cons in Hj as [->|Hj]; [done|]. apply list_elem_of_fmap in Hj as ([o k] & -> & Hk).
    by apply (Hm o k). }
  apply submseteq_length in Hsub. simpl in Hsub. rewrite length_fmap in Hsub.
  pose proof (length_live_ids 0 (entries g)). unfold node_ids in Hsub. lia.
Qed.

Lemma copying_room g' m i : copying g r g' m -> i ∉ m.*1 -> is_valid g i = true -> has_room g'.
Proof.
  intros Hc Hi Hv. right. pose proof (cp_room _ _ _ _ Hc).
  assert (length m < length (entries g))%nat.
  { apply (keys_bound m i); [apply Hc| |done..]. intros o j Hoj. by apply (cp_source _ _ _ _ Hc o j). }
  pose proof (copyable_room _ Hg). lia.
Qed.

Lemma elem_of_snoc {A} (l : list A) u v : u ∈ l ++ [v] <-> u ∈ l \/ u = v.
Proof. by rewrite elem_of_app, list_elem_of_singleton. Qed.

Lemma fresh_snoc m o c j : fresh (m ++ [(o, c)]) j <-> fresh m j \/ (j = c /\ o <> c).
Proof.
  unfold fresh. split.
  - intros (k & Hk & Hne). apply elem_of_snoc in Hk as [Hk|Hk]; [left; by exists k|right]. by simplify_eq.
  - intros [(k & Hk & Hne)|[-> Hne]]; [exists k|exists o]; (split; [|done]); apply elem_of_snoc; [by left|by right].
Qed.

Lemma NoDup_snoc {A} (l : list A) u : NoDup l -> u ∉ l -> NoDup (l ++ [u]).
Proof.
  intros Hl Hu. apply NoDup_app. split; [done|]. split; [|apply NoDup_singleton].
  intros v Hv Hw. apply list_elem_of_singleton in Hw as ->. done.
Qed.

(** What both ways of visiting a node add to the map. *)
Lemma copying_extend g' g2 m i c :
  copying g r g' m -> i ∉ m.*1 -> is_valid g i = true -> depends g r i -> c ∉ m.*2 ->
  (i = c <-> is_item g i = true) -> graph_wf g2 -> edges g2 = edges g' -> input_names g2 = input_names g' ->
  (length (entries g2) <= S (length (entries g')))%nat ->
  (forall j, j <> c -> get g2 j = get g' j) -> (i = c -> get g2 c = get g' c) ->
  (i <> c -> get g c = None /\ exists e e', get g i = Some e /\ get g2 c = Some e' /\ is_copy e e') ->
  copying g r g2 (m ++ [(i, c)]).
Proof.
  intros Hc Hi Hv Hd Hcv Hit Hw He Hn Hlen Hget Hself Hnew. split; try rewrite He; try rewrite Hn.
  - done.
  - apply Hc.
  - apply Hc.
  - intros j Hj. rewrite fresh_snoc in Hj. destruct (decide (j = c)) as [->|Hjc].
    + destruct (decide (i = c)) as [E|E]; [|by destruct Hj; right].
      rewrite Hself by done. apply Hc. tauto.
    + rewrite Hget by done. apply Hc. tauto.
  - intros o j Ho Hne. apply elem_of_snoc in Ho as [Ho|Ho]; [|by simplify_eq; apply Hnew].
    rewrite Hget; [by apply (cp_new _ _ _ _ Hc)|]. intros ->. apply Hcv. by apply (list_elem_of_fmap_2' _ _ (o, c)).
  - intros o j Ho. apply elem_of_snoc in Ho as [Ho|Ho]; [by apply (cp_item _ _ _ _ Hc)|by simplify_eq].
  - intros o j Ho. apply elem_of_snoc in Ho as [Ho|Ho]; [by apply (cp_source _ _ _ _ Hc o j)|by simplify_eq].
  - rewrite fmap_app. apply NoDup_snoc; [apply Hc|done].
  - rewrite fmap_app. apply NoDup_snoc; [apply Hc|done].
  - apply Hc.
  - intros x Hx. apply (cp_edges_new _ _ _ _ Hc) in Hx as [Hx|(y & ? & ? & ? & ?)]; [by left|right].
    exists y. rewrite !elem_of_snoc. tauto.
  - rewrite length_app. pose proof (cp_room _ _ _ _ Hc). simpl. lia.
Qed.

Lemma share_item g' m i : copying g r g' m -> i ∉ m.*1 -> is_valid g i = true -> depends g r i ->
  is_item g i = true -> copying g r g' (m ++ [(i, i)]).
Proof.
  intros Hc Hi Hv Hd Hit. apply (copying_extend g'); try done; [|apply Hc|lia].
  - intros Hin. apply list_elem_of_fmap in Hin as ([o j] & Ej & Ho). simpl in Ej. subst j.
    destruct (decide (o = i)) as [->|Hne].
    + apply Hi. by apply (list_elem_of_fmap_2' _ _ (i, i)).
    + destruct (cp_new _ _ _ _ Hc _ _ Ho Hne) as [E _]. apply valid_get in Hv as [e He]. congruence.
Qed.

Lemma add_copy g' m i e b : copying g r g' m -> i ∉ m.*1 -> get g i = Some e -> depends g r i ->
  is_item g i = false -> duplicate (behavior e) (core e) = Some b ->
  let '(g2, c) := add_node g' (remap_contexts m (with_links (core e) [])) b in
  copying g r g2 (m ++ [(i, c)]) /\ i <> c /\ edges g2 = edges g'.
Proof.
  intros Hc Hi He Hd Hit Hb. pose proof (get_valid _ _ _ He) as Hv.
  pose proof (copying_room _ _ _ Hc Hi Hv) as Hr.
  set (co := remap_contexts m (with_links (core e) [])).
  pose proof (graph_wf_add_node g' co b (cp_graph _ _ _ _ Hc) Hr) as Hw.
  pose proof (allocate_length g' co b) as Hlen.
  pose proof (allocate_spec g' co b (graph_arena _ (cp_graph _ _ _ _ Hc)) Hr) as Ha.
  unfold add_node in *. destruct (allocate g' co b) as [g2 c]. simpl in Hw, Hlen. destruct Ha as (_ & Hed & Hn & _ & Hgn & Hget).
  assert (Hdead : get g c = None).
  { destruct (get g c) as [x|] eqn:Hx; [|done]. rewrite (old_live _ _ _ _ Hc Hx) in Hgn. done. }
  assert (Hic : i <> c) by (intros ->; congruence).
  split; [|done]. apply (copying_extend g'); try done.
  - intros Hin. apply list_elem_of_fmap in Hin as ([o j] & Ej & Ho). simpl in Ej. subst j.
    apply (value_live _ _ _ _ Hc) in Ho. apply valid_get in Ho as [x Hx]. congruence.
  - split; [done|congruence].
  - intros j Hj. by rewrite Hget, decide_False.
  - intros _. split; [done|]. exists e. eexists. split; [done|]. rewrite Hget, decide_True by done.
    split; [done|]. split; [by exists m|done].
Qed.

(** * Termination: the sources of a node have fewer ancestors *)

Definition rank i : nat := length (retain (fun j => reaches g j i && negb (NodeId_eqb j i)) (node_ids g)).

Lemma rank_bound i : (rank i <= length (entries g))%nat.
Proof.
  unfold rank, retain. pose proof (List.filter_length_le (fun j => reaches g j i && negb (NodeId_eqb j i)) (node_ids g)).
  pose proof (length_live_ids 0 (entries g)). unfold node_ids in *. lia.
Qed.

Lemma rank_arc i j : arc g j i -> is_valid g j = true -> (rank j < rank i)%nat.
Proof.
  intros Ha Hv. pose proof (graph_acyclic _ (copyable_graph _ Hg)) as Hac.
  apply (length_retain_lt _ _ _ j).
  - intros k. rewrite !andb_true_iff, !negb_true_iff, !NodeId_eqb_false, !reaches_spec. intros [Hk Hne].
    split; [by eapply rtc_r|]. intros ->. apply (Hac j). eapply tc_l; [done|].
    apply rtc_tc in Hk as [E|?]; [by subst|done].
  - by apply elem_of_node_ids; [apply (copyable_graph _ Hg)|].
  - rewrite andb_true_iff, negb_true_iff, NodeId_eqb_false, reaches_spec. split; [by apply rtc_once|].
    intros ->. by apply (Hac i), tc_once.
  - by rewrite NodeId_eqb_refl, andb_false_r.
Qed.

(** * The recursion *)

(** The state of a call: copies were added to the map, edges only grew, and
    the copies this call added have all their inputs. *)
Definition copied_to g1 m1 g2 m2 : Prop :=
  exists l, m2 = m1 ++ l /\ copying g r g2 m2 /\ (forall x, x ∈ edges g1 -> x ∈ edges g2) /\
    forall o c, (o, c) ∈ l -> o <> c -> mirrored g g2 m2 o c.

Lemma mirrored_mono g1 m1 g2 m2 o c : (forall x, x ∈ edges g1 -> x ∈ edges g2) ->
  (forall p, p ∈ m1 -> p ∈ m2) -> mirrored g g1 m1 o c -> mirrored g g2 m2 o c.
Proof. intros He Hm Hx x Hin Ht. destruct (Hx x Hin Ht) as (f & Hf & Hy). exists f. auto. Qed.

Lemma copied_to_trans g1 m1 g2 m2 g3 m3 : copied_to g1 m1 g2 m2 -> copied_to g2 m2 g3 m3 -> copied_to g1 m1 g3 m3.
Proof.
  intros (l & -> & _ & He & Hm) (l' & -> & Hc & He' & Hm'). exists (l ++ l'). rewrite app_assoc.
  split; [done|]. split; [done|]. split; [auto|]. intros o c Ho Hne. apply elem_of_app in Ho as [Ho|Ho]; [|auto].
  eapply mirrored_mono; [exact He'|..|by apply Hm]. intros p Hp. apply elem_of_app. by left.
Qed.

Definition copy_inputs (rec : Graph B -> NodeId -> IdMap -> Graph B * IdMap * option NodeId) (copy : NodeId) :=
  fix copy_inputs (es : list (NodeId * string * Z)) (g : Graph B) (created : IdMap)
      : Graph B * IdMap * option NodeId :=
    match es with
    | [] => (g, created, Some copy)
    | (f, input, elem) :: es =>
        match rec g f created with
        | (g, created, None) => (g, created, None)
        | (g, created, Some f') => copy_inputs es (connect g f' copy input elem).1 created
        end
    end.

Lemma copy_inputs_spec rec i c xs g1 m1 :
  (forall g1 m1 x, x ∈ xs -> copying g r g1 m1 -> exists g2 m2 f,
     rec g1 (from x) m1 = (g2, m2, Some f) /\ copied_to g1 m1 g2 m2 /\ (from x, f) ∈ m2) ->
  (forall x, x ∈ xs -> x ∈ edges g /\ to x = i) -> copying g r g1 m1 -> (i, c) ∈ m1 -> i <> c ->
  exists g2 m2,
    copy_inputs rec c ((fun x => (from x, input_name g (input_key x), element x)) <$> xs) g1 m1 = (g2, m2, Some c) /\
    copied_to g1 m1 g2 m2 /\
    forall x, x ∈ xs -> exists f, (from x, f) ∈ m2 /\ mkEdge f c (input_key x) (element x) ∈ edges g2.
Proof.
  intros Hrec Hxs. revert g1 m1. induction xs as [|x xs IH]; intros g1 m1 Hc Hi Hne.
  - exists g1, m1. split; [done|]. split; [|by intros x ?%elem_of_nil]. exists []. rewrite app_nil_r.
    split; [done|]. split; [done|]. split; [done|]. by intros o k ?%elem_of_nil.
  - assert (Hx : x ∈ x :: xs) by (apply elem_of_cons; by left).
    destruct (Hrec g1 m1 x Hx Hc) as (g2 & m2 & f & Er & Hto & Hf).
    pose proof Hto as (l & El & Hc2 & _ & _). destruct (Hxs x Hx) as [Hxe Hxt].
    assert (Hi2 : (i, c) ∈ m2) by (rewrite El; apply elem_of_app; by left).
    destruct (connect_copy g2 m2 x f c Hc2 Hxe Hf) as (Hc3 & Hin & Hmono); [by rewrite Hxt..|].
    set (g3 := (connect g2 f c (input_name g (input_key x)) (element x)).1) in *.
    destruct (IH) with (g1 := g3) (m1 := m2) as (g4 & m4 & Ec & Hto4 & Hall); [|..|done|done|done|].
    + intros g' m' y Hy. apply Hrec. apply elem_of_cons. by right.
    + intros y Hy. apply Hxs. apply elem_of_cons. by right.
    + exists g4, m4. split; [|split].
      * cbn [fmap list_fmap copy_inputs]. rewrite Er. exact Ec.
      * eapply copied_to_trans; [exact Hto|]. eapply copied_to_trans; [|exact Hto4].
        exists []. rewrite app_nil_r. split; [done|]. split; [done|]. split; [done|]. by intros o k ?%elem_of_nil.
      * intros y Hy. apply elem_of_cons in Hy as [->|Hy]; [|by apply Hall].
        destruct Hto4 as (l' & -> & _ & Hmono' & _). exists f. split; [apply elem_of_app; by left|auto].
Qed.

Lemma copied_to_refl g1 m1 : copying g r g1 m1 -> copied_to g1 m1 g1 m1.
Proof.
  exists []. rewrite app_nil_r. split; [done|]. split; [done|]. split; [done|]. by intros o k ?%elem_of_nil.
Qed.

(** The inputs of an original are those of the graph before the copy. *)
Lemma original_inputs g1 m1 i x : copying g r g1 m1 -> is_valid g i = true -> to x = i ->
  x ∈ edges g1 <-> x ∈ edges g.
Proof.
  intros Hc Hv Ht. split; [|apply (cp_edges_old _ _ _ _ Hc)].
  intros Hx. apply (cp_edges_new _ _ _ _ Hc) in Hx as [Hx|(y & _ & _ & Hy & Hne & _)]; [done|].
  destruct (cp_new _ _ _ _ Hc _ _ Hy Hne) as [E _]. apply valid_get in Hv as [e He]. congruence.
Qed.

Lemma original_connections g1 m1 i : copying g r g1 m1 -> is_valid g i = true ->
  input_connections g1 i =
    (fun x => (from x, input_name g (input_key x), element x)) <$> retain (fun x => NodeId_eqb (to x) i) (edges g1).
Proof.
  intros Hc Hv. apply list_fmap_ext. intros k x Hx. apply list_elem_of_lookup_2, elem_of_retain in Hx as [Hx Ht].
  apply NodeId_eqb_true in Ht. apply (original_inputs _ _ _ _ Hc Hv Ht) in Hx.
  by destruct (input_name_kept _ _ _ Hc Hx) as [-> _].
Qed.

Lemma copy_spec fuel : duplicable g r -> forall g1 m1 i,
  copying g r g1 m1 -> depends g r i -> is_valid g i = true -> (rank i < fuel)%nat ->
  exists g2 m2 f, copy_dependency_graph_internal fuel g1 i m1 = (g2, m2, Some f) /\
    copied_to g1 m1 g2 m2 /\ (i, f) ∈ m2.
Proof.
  intros Hdup. induction fuel as [|fuel IH]; intros g1 m1 i Hc Hd Hv Hr; [lia|].
  cbn [copy_dependency_graph_internal]. fold (copy_inputs (copy_dependency_graph_internal fuel)).
  destruct (map_get m1 i) as [f|] eqn:Em.
  { exists g1, m1, f. split; [done|]. split; [by apply copied_to_refl|by apply map_get_Some]. }
  apply map_get_None in Em. pose proof Hv as [e He]%valid_get.
  rewrite (old_live _ _ _ _ Hc He). destruct (Hdup i e Hd He) as [b Hb]. rewrite Hb.
  destruct (negb _) eqn:Hit.
  { assert (Hit' : is_item g i = true) by (unfold is_item; by rewrite He).
    pose proof (share_item _ _ _ Hc Em Hv Hd Hit') as Hc2.
    exists g1, (m1 ++ [(i, i)]), i. split; [done|]. split; [|apply elem_of_snoc; by right].
    exists [(i, i)]. split; [done|]. split; [done|]. split; [done|].
    intros o c Ho%list_elem_of_singleton. by simplify_eq. }
  assert (Hit' : is_item g i = false) by (unfold is_item; by rewrite He).
  pose proof (add_copy _ _ _ _ _ Hc Em He Hd Hit' Hb) as Ha.
  destruct (add_node g1 _ b) as [g2 c]. destruct Ha as (Hc2 & Hne & Hed).
  assert (Hic : (i, c) ∈ m1 ++ [(i, c)]) by (apply elem_of_snoc; by right).
  set (xs := retain (fun x => NodeId_eqb (to x) i) (edges g2)).
  assert (Hxs : forall x, x ∈ xs <-> x ∈ edges g /\ to x = i).
  { intros x. unfold xs. rewrite elem_of_retain, NodeId_eqb_true.
    split; intros [Hx Ht]; (split; [by apply (original_inputs _ _ _ _ Hc2 Hv Ht)|done]). }
  destruct (copy_inputs_spec (copy_dependency_graph_internal fuel) i c xs g2 (m1 ++ [(i, c)]))
    as (g3 & m3 & Ec & Hto & Hall); [|by intros x ?%Hxs|done..|].
  { intros g' m' x Hx Hc'. apply Hxs in Hx as [Hx Ht].
    assert (Harc : arc g (from x) i) by (by exists x).
    assert (Hvx : is_valid g (from x) = true) by (by apply (graph_live _ (copyable_graph _ Hg) x)).
    apply IH; [done|by eapply dep_source|done|]. pose proof (rank_arc i _ Harc Hvx). lia. }
  exists g3, m3, c. rewrite (original_connections _ _ _ Hc2 Hv). split; [exact Ec|].
  pose proof Hto as (l & El & Hc3 & Hmono & Hmir). split; [|rewrite El; apply elem_of_app; by left].
  exists ((i, c) :: l). rewrite El, <- app_assoc. split; [done|]. rewrite app_assoc, <- El.
  split; [done|]. split; [intros x Hx; apply Hmono; by rewrite Hed|].
  intros o k Ho Hok. apply elem_of_cons in Ho as [Ho|Ho]; [|by apply Hmir].
  simplify_eq. intros x Hx Ht. by apply Hall, Hxs.
Qed.

Lemma copying_start : copying g r g [].
Proof.
  split; try (intros; done); try (intros o j Ho; by apply elem_of_nil in Ho).
  - apply Hg.
  - apply Hg.
  - constructor.
  - constructor.
  - intros x Hx. by left.
  - simpl. lia.
Qed.

(** The whole copy: it always returns, [c] is the copy of [r]. *)
Lemma copy_graph_spec : duplicable g r -> is_valid g r = true ->
  exists g' c m, copy_node_and_dependency_graph_minus_items g r = (g', Some (c, m)) /\
    copying g r g' m /\ (r, c) ∈ m /\ forall o j, (o, j) ∈ m -> o <> j -> mirrored g g' m o j.
Proof.
  intros Hdup Hv. unfold copy_node_and_dependency_graph_minus_items. pose proof (rank_bound r).
  destruct (copy_spec (S (length (entries g))) Hdup g [] r copying_start (dep_root g r) Hv) as
    (g' & m & c & -> & (l & El & Hc & _ & Hm) & Hr); [lia|].
  exists g', c, m. simpl in El. subst l. done.
Qed.

(** The end of the recursion, seen in a graph with the same edges whose new
    nodes keep their cores. *)
Lemma dependency_copy_intro g1 g2 m c : copying g r g1 m -> (r, c) ∈ m ->
  (forall o j, (o, j) ∈ m -> o <> j -> mirrored g g1 m o j) -> edges g2 = edges g1 ->
  (forall j u, fresh m j -> get g1 j = Some u -> exists w, get g2 j = Some w /\ core w = core u /\
     (j <> c -> behavior w = behavior u)) ->
  dependency_copy g r g2 m.
Proof.
  intros Hc Hr Hm He Hget. split; try apply Hc.
  - intros i. split; [|intros [j Hj]; by apply (cp_source _ _ _ _ Hc i j)].
    induction 1 as [|i j _ [k Hk] Hit (x & Hx & <- & <-)]; [by exists c|].
    destruct (Hm _ _ Hk) with (x := x) as (f & Hf & _); [|done|done|by exists f].
    intros E. apply (cp_item _ _ _ _ Hc _ _ Hk) in E. congruence.
  - intros o j Ho Hne. destruct (cp_new _ _ _ _ Hc _ _ Ho Hne) as (Hj & e & e' & He1 & He2 & Hcore & Hd).
    split; [done|]. destruct (Hget j e') as (w & Hw & Ew & Eb); [by exists o|done|].
    exists e, w. split; [done|]. split; [done|]. split; [by rewrite Ew|]. intros Hor. rewrite Eb; [done|].
    intros ->. apply Hor. by eapply value_inj; [apply Hc|..].
  - intros x. rewrite He. split; [apply Hc|]. intros [Hx|(y & Hy & Hf & Ht & Hne & Ek & Ee)]; [by apply Hc|].
    destruct (Hm _ _ Ht Hne y Hy eq_refl) as (f & Hf' & Hin).
    assert (f = from x) as -> by (by eapply key_inj; [apply Hc|..]).
    rewrite Ek, Ee in Hin. by destruct x.
Qed.
End invariant.

(** * Connecting recorded edges again *)

(** An edge with the name of its input, as the commands record it. *)
Definition recorded g x : NodeId * NodeId * string * Z :=
  (from x, to x, input_name g (input_key x), element x).

Lemma connect_again g (l : list Edge) x : graph_wf g -> wired g -> (forall y, y ∈ l -> y ∈ edges g) -> x ∈ edges g ->
  exists l' : list Edge, (connect (with_edges g l) (from x) (to x) (input_name g (input_key x)) (element x)).1 = with_edges g l' /\
    (edges_sorted l -> edges_sorted l') /\ forall y, y ∈ l' <-> y = x \/ y ∈ l.
Proof.
  intros Hg Hwired Hl Hx. destruct (Hwired x Hx) as (s & z & Hs & Hh & Hz & Hz').
  unfold input_name. rewrite Hs. simpl. set (g' := with_edges g l).
  assert (Hget : forall i, get g' i = get g i) by (intros i; apply get_with_edges).
  destruct (connect_cases g' (from x) (to x) s (element x)) as [[-> _]|(err & -> & Hcon)]; cbn [fst].
  - exists (edge_insert x l). split; [|split; [apply edges_sorted_insert|by intros y; rewrite elem_of_edge_insert]].
    unfold connected, intern_input, with_edges. simpl. rewrite Hh, Hs. by destruct x.
  - exists l. split; [done|]. split; [done|]. intros y. split; [by right|]. intros [->|]; [|done].
    destruct (decide (x ∈ l)) as [|Hout]; [done|]. destruct Hcon.
    destruct (graph_live _ Hg x Hx) as [Hf Ht]. rewrite is_valid_get in Hf, Ht.
    split; [by rewrite is_valid_get, Hget|]. split; [by rewrite is_valid_get, Hget|].
    split; [exists z; split; [by unfold target_input; rewrite Hget|done]|]. split.
    + apply connected_output_None. intros y Hy (Et & Ek & Ee). apply Hout.
      rewrite <- (graph_single _ Hg y x); [done|by apply Hl|done|done|congruence|done].
    + intros Hr. apply (graph_acyclic _ Hg (from x)). eapply tc_rtc_r; [apply tc_once; by exists x|].
      revert Hr. apply rtc_subrel. intros i j (y & Hy & ? & ?). exists y. split; [by apply Hl|done].
Qed.

Lemma reconnect_again g (l xs : list Edge) : graph_wf g -> wired g -> (forall y, y ∈ l -> y ∈ edges g) ->
  (forall x, x ∈ xs -> x ∈ edges g) -> edges_sorted l ->
  exists l' : list Edge, foldl (fun g e => (connect g e.1.1.1 e.1.1.2 e.1.2 e.2).1) (with_edges g l) (recorded g <$> xs) =
      with_edges g l' /\ edges_sorted l' /\ forall y, y ∈ l' <-> y ∈ xs \/ y ∈ l.
Proof.
  intros Hg Hwired. revert l. induction xs as [|x xs IH]; intros l Hl Hxs Hs.
  - exists l. split; [done|]. split; [done|]. intros y. rewrite elem_of_nil. tauto.
  - destruct (connect_again g l x Hg Hwired Hl) as (l1 & E & Hs1 & Hl1); [apply Hxs, elem_of_cons; by left|].
    destruct (IH l1) as (l2 & E2 & Hs2 & Hl2).
    + intros y Hy. apply Hl1 in Hy as [->|Hy]; [apply Hxs, elem_of_cons; by left|by apply Hl].
    + intros y Hy. apply Hxs, elem_of_cons. by right.
    + by apply Hs1.
    + exists l2. split; [cbn [fmap list_fmap foldl recorded fst snd]; by rewrite E|]. split; [done|].
      intros y. rewrite Hl2, Hl1, elem_of_cons. tauto.
Qed.
End copies.
