(* ===== verification/Block.v ===== *)
(** Timeline blocks (crates/oak-node/src/block.rs): the span and media range
    every block shares, the clip, gap, transition and adjustment behaviours
    with their constructors, and what they pass to their output.

    Floats are only stored and copied here; the float retiming of
    [input_time_adjustment] and the XML save/load are left out. *)

From S2P Require Import Prelude Rational TimeRange Ids Value Keyframe NodeCore.

Local Open Scope Z_scope.

(** * The shared core *)

(** The bits of [1.0], [4.0] and [0.0]. *)
Definition F64_ONE : F64 := 0x3FF0000000000000.
Definition F64_FOUR : F64 := 0x4010000000000000.
Definition F64_ZERO : F64 := 0.

Record BlockCore : Type := mkBlockCore {
  range : TimeRange;
  media_in : Rational;
  speed : F64;
  reversed : bool;
  block_links : list NodeId;
  enabled : bool;
  maintain_audio_pitch : bool;
  loop_mode : Z;
  track : option NodeId }.

Definition BlockCore_default : BlockCore :=
  mkBlockCore (TimeRange_new (new 0 1) (new 1 1)) (new 0 1) F64_ONE false [] true false 0 None.

Section setters.
Context (c : BlockCore).
Definition with_range x := mkBlockCore x (media_in c) (speed c) (reversed c) (block_links c)
  (enabled c) (maintain_audio_pitch c) (loop_mode c) (track c).
Definition with_media_in x := mkBlockCore (range c) x (speed c) (reversed c) (block_links c)
  (enabled c) (maintain_audio_pitch c) (loop_mode c) (track c).
Definition with_enabled x := mkBlockCore (range c) (media_in c) (speed c) (reversed c) (block_links c)
  x (maintain_audio_pitch c) (loop_mode c) (track c).
Definition with_track x := mkBlockCore (range c) (media_in c) (speed c) (reversed c) (block_links c)
  (enabled c) (maintain_audio_pitch c) (loop_mode c) x.
End setters.

Definition BlockCore_in (c : BlockCore) : Rational := in_ (range c).
Definition BlockCore_out (c : BlockCore) : Rational := out (range c).
Definition BlockCore_length (c : BlockCore) : Rational := length_ (range c).

Definition BlockCore_set_in (c : BlockCore) (i : Rational) : BlockCore :=
  with_range c (TimeRange_new i (add i (BlockCore_length c))).

Definition BlockCore_set_out (c : BlockCore) (o : Rational) : BlockCore :=
  with_range c (TimeRange_new (BlockCore_in c) o).

Definition set_length_and_media_out (c : BlockCore) (len : Rational) : BlockCore :=
  let o := add (BlockCore_in c) (BlockCore_length c) in
  let c := with_range c (TimeRange_new (sub o len) o) in
  with_media_in c (in_ (range c)).

Definition set_length_and_media_in (c : BlockCore) (len : Rational) : BlockCore :=
  with_range c (TimeRange_new (BlockCore_in c) (add (BlockCore_in c) len)).

Definition media_out (c : BlockCore) : Rational := add (media_in c) (BlockCore_length c).

(** * Behaviours *)

Record ClipBlockBehavior : Type := mkClip { clip_core : BlockCore; footage : option NodeId }.
Record GapBlockBehavior : Type := mkGap { gap_core : BlockCore }.
Record TransitionBlockBehavior : Type := mkTransition {
  transition_core : BlockCore; in_offset : Rational; out_offset : Rational }.
Record AdjustmentBlockBehavior : Type := mkAdjustment { adjustment_core : BlockCore }.

Definition ClipBlockBehavior_new : ClipBlockBehavior := mkClip BlockCore_default None.
Definition GapBlockBehavior_new : GapBlockBehavior := mkGap BlockCore_default.
Definition TransitionBlockBehavior_new : TransitionBlockBehavior :=
  mkTransition BlockCore_default (new 0 1) (new 0 1).
Definition AdjustmentBlockBehavior_new : AdjustmentBlockBehavior := mkAdjustment BlockCore_default.

Definition is_dual (_ : TransitionBlockBehavior) : bool := false.

(** Type ids and names. *)
Definition CLIP_TYPE_ID : string := "org.olivevideoeditor.Olive.clipblock".
Definition GAP_TYPE_ID : string := "org.olivevideoeditor.Olive.gapblock".
Definition TRANSITION_TYPE_ID : string := "org.olivevideoeditor.Olive.transitionblock".
Definition ADJUSTMENT_TYPE_ID : string := "org.olivevideoeditor.Olive.adjustment".

(** [duplicate]. *)
Definition clip_duplicate (b : ClipBlockBehavior) : ClipBlockBehavior := mkClip (clip_core b) (footage b).
Definition gap_duplicate (b : GapBlockBehavior) : GapBlockBehavior := mkGap (gap_core b).
Definition transition_duplicate (b : TransitionBlockBehavior) : TransitionBlockBehavior :=
  mkTransition (transition_core b) (in_offset b) (out_offset b).
Definition adjustment_duplicate (b : AdjustmentBlockBehavior) : AdjustmentBlockBehavior :=
  mkAdjustment (adjustment_core b).

(** * Input ids *)

Definition TEXTURE_INPUT : string := "tex_in".
Definition MEDIA_IN : string := "media_in_in".
Definition SPEED : string := "speed_in".
Definition REVERSE : string := "reverse_in".
Definition MAINTAIN_AUDIO_PITCH : string := "maintain_audio_pitch_in".
Definition LOOP_MODE : string := "loop_in".
Definition OUT_BLOCK : string := "out_block_in".
Definition IN_BLOCK : string := "in_block_in".
Definition TYPE_INPUT : string := "type_in".

(** * Constructors *)

Definition as_bytes (s : string) : list Z :=
  (fun a => Z.of_N (Ascii.N_of_ascii a)) <$> String.list_ascii_of_string s.

Definition with_properties (i : Input) (p : list (string * NodeValue)) : Input :=
  mkInput (id i) (input_type i) (default_value i) (flags i) (display_name i) p (array_size i).
Definition with_display_name (i : Input) (s : string) : Input :=
  mkInput (id i) (input_type i) (default_value i) (flags i) s (properties i) (array_size i).
Definition with_effect_input (c : NodeCore) (s : string) : NodeCore :=
  mkCore (inputs c) (keyframes c) (caches c) (core_flags c) (node_position c) (label c)
    (override_color c) s (hints c) (context_positions c) (links c) (bin_folder c)
    (caches_enabled c) (gizmos c) (current_gizmo c) (standard_values c).

(** [flags |= f]. *)
Definition add_flags (i : Input) (f : Z) : Input := with_flags i (Z.lor (flags i) f).
Definition STATIC : Z := Z.lor NOT_CONNECTABLE NOT_KEYFRAMABLE.

Definition clip_create : NodeCore * ClipBlockBehavior :=
  let core := NodeCore_new in
  let tex := add_flags (Input_new TEXTURE_INPUT VT_Texture NV_None) NOT_KEYFRAMABLE in
  let core := with_inputs core (vec_insert 1 tex (inputs core)) in
  let core := with_effect_input core TEXTURE_INPUT in
  let media_in := add_flags (Input_new MEDIA_IN VT_Rational (NV_Rational (new 0 1))) STATIC in
  let core := add_input core media_in in
  let speed := add_flags (Input_new SPEED VT_Float (NV_Float F64_ONE)) STATIC in
  let speed := with_properties speed [("min", NV_Float F64_ZERO); ("max", NV_Float F64_FOUR)] in
  let core := add_input core speed in
  let reverse := add_flags (Input_new REVERSE VT_Boolean (NV_Boolean false)) STATIC in
  let core := add_input core reverse in
  let pitch := add_flags (Input_new MAINTAIN_AUDIO_PITCH VT_Boolean (NV_Boolean false)) STATIC in
  let core := add_input core pitch in
  let loop_mode := add_flags (Input_new LOOP_MODE VT_Combo (NV_Combo 0)) STATIC in
  let loop_mode := with_properties loop_mode
    [("combobox_strings", NV_Binary (as_bytes "No Loop,Loop Clips,Loop Section"))] in
  let core := add_input core loop_mode in
  (core, ClipBlockBehavior_new).

Definition gap_create : NodeCore * GapBlockBehavior := (NodeCore_new, GapBlockBehavior_new).

(** [crate::nodes::transitions::TYPE_NAMES]. *)
Definition TYPE_NAMES : list string := ["Cross Dissolve"; "Fade"; "Wipe"; "Slide"].

Definition transition_create : NodeCore * TransitionBlockBehavior :=
  let core := NodeCore_new in
  let out := add_flags (Input_new OUT_BLOCK VT_NodeRef NV_None) NOT_KEYFRAMABLE in
  let core := add_input core (with_display_name out "From") in
  let inn := add_flags (Input_new IN_BLOCK VT_NodeRef NV_None) NOT_KEYFRAMABLE in
  let core := add_input core (with_display_name inn "To") in
  let ty := add_flags (Input_new TYPE_INPUT VT_Combo (NV_Combo 0)) STATIC in
  let ty := with_properties ty
    [("combobox_strings", NV_Binary (as_bytes (String.concat "," TYPE_NAMES)))] in
  let core := add_input core ty in
  (core, TransitionBlockBehavior_new).

Definition adjustment_create : NodeCore * AdjustmentBlockBehavior :=
  let core := NodeCore_new in
  let tex := add_flags (Input_new TEXTURE_INPUT VT_Texture NV_None) NOT_KEYFRAMABLE in
  let core := with_inputs core (vec_insert 1 tex (inputs core)) in
  let core := with_effect_input core TEXTURE_INPUT in
  (core, AdjustmentBlockBehavior_new).

(** * Output *)

Definition NodeValueRow : Type := gmap string NodeValue.
Definition NodeValueTable : Type := list (ValueType * NodeValue * option string).

Definition table_push (t : NodeValueTable) (ty : ValueType) (v : NodeValue) (tag : option string)
    : NodeValueTable := t ++ [(ty, v, tag)].

Definition table_get (t : NodeValueTable) (ty : ValueType) : option NodeValue :=
  (fun r => r.1.2) <$> find (fun r => bool_decide (r.1.1 = ty)) (rev t).

(** [value] of a clip and of an adjustment layer, from the core's [enabled]
    flag; gaps and transitions push nothing. *)
Definition pass_texture (c : BlockCore) (row : NodeValueRow) (t : NodeValueTable) : NodeValueTable :=
  if negb (enabled c) then t
  else match row !! TEXTURE_INPUT with
       | None => t
       | Some v => table_push t VT_Texture v None
       end.

Definition clip_value (b : ClipBlockBehavior) := pass_texture (clip_core b).
Definition adjustment_value (b : AdjustmentBlockBehavior) := pass_texture (adjustment_core b).
Definition gap_value (_ : GapBlockBehavior) (_ : NodeValueRow) (t : NodeValueTable) := t.
Definition transition_value (_ : TransitionBlockBehavior) (_ : NodeValueRow) (t : NodeValueTable) := t.

(** Only the range and the media in point change. *)
Lemma media_out_form c len : set_length_and_media_out c len =
  with_media_in (with_range c (range (set_length_and_media_out c len))) (media_in (set_length_and_media_out c len)).
Proof. by destruct c. Qed.

(** * Spans on a grid *)

Definition span (D a b : Z) : TimeRange := mkTimeRange (grid D a) (grid D b).

(** The block occupies [[a, b)] in units of [1/D] and plays from [m]. *)
Record plays (D : Z) (c : BlockCore) (a b m : Z) : Prop := {
  plays_range : range c = span D a b;
  plays_media : media_in c = grid D m
}.

Section spans.
Context (D : Z) {HD : GridDen D}.

Lemma TimeRange_new_grid a b : a <= b -> TimeRange_new (grid D a) (grid D b) = span D a b.
Proof.
  intros Hab. unfold TimeRange_new, normalize; cbn [in_ out].
  rewrite grid_ltb by done. by rewrite (proj2 (Z.ltb_ge _ _)) by lia.
Qed.

Lemma length_span a b : in_grid a -> in_grid b -> in_grid (b - a) ->
  length_ (span D a b) = grid D (b - a).
Proof. intros. unfold length_; cbn [in_ out span]. by apply grid_sub. Qed.

Lemma set_in_plays c a b m i : plays D c a b m -> a <= b ->
  in_grid a -> in_grid b -> in_grid (b - a) -> in_grid i -> in_grid (i + (b - a)) ->
  plays D (BlockCore_set_in c (grid D i)) i (i + (b - a)) m.
Proof.
  intros [Hr Hm] Hab Ha Hb Hl Hi Ho. split; [|done].
  unfold BlockCore_set_in, BlockCore_length; cbn [range with_range].
  rewrite Hr, length_span, grid_add by done. apply TimeRange_new_grid. lia.
Qed.

Lemma set_out_plays c a b m o : plays D c a b m -> a <= o ->
  plays D (BlockCore_set_out c (grid D o)) a o m.
Proof.
  intros [Hr Hm] Hao. split; [|done].
  unfold BlockCore_set_out, BlockCore_in; cbn [range with_range].
  rewrite Hr. by apply TimeRange_new_grid.
Qed.

Lemma set_media_in_plays c a b m l : plays D c a b m -> 0 <= l ->
  in_grid a -> in_grid l -> in_grid (a + l) ->
  plays D (set_length_and_media_in c (grid D l)) a (a + l) m.
Proof.
  intros [Hr Hm] Hl Ha Hgl Hal. split; [|done].
  unfold set_length_and_media_in, BlockCore_in; cbn [range with_range].
  rewrite Hr; cbn [span in_]. rewrite grid_add by done. apply TimeRange_new_grid. lia.
Qed.

Lemma set_media_out_plays c a b m l : plays D c a b m -> 0 <= l -> a <= b ->
  in_grid a -> in_grid b -> in_grid (b - a) -> in_grid l -> in_grid (b - l) ->
  plays D (set_length_and_media_out c (grid D l)) (b - l) b (b - l).
Proof.
  intros [Hr Hm] Hl Hab Ha Hb Hba Hgl Hbl.
  unfold set_length_and_media_out, BlockCore_in, BlockCore_length. rewrite Hr.
  rewrite length_span by done. cbn [span in_].
  rewrite grid_add by (try done; by replace (a + (b - a)) with b by lia).
  replace (a + (b - a)) with b by lia. rewrite grid_sub by done.
  rewrite TimeRange_new_grid by lia. done.
Qed.
End spans.

(** C27: the four edits of a block's span, for times on a common grid inside
    the exact range: [set_in] moves the block and keeps its length and media,
    [set_out] and [set_length_and_media_in] keep the in point and the media,
    [set_length_and_media_out] keeps the out point and restarts the media at
    the new timeline in point, so it keeps the media out point only for a block
    whose media started at its timeline in point. *)
Theorem block_span_edits (D : Z) (HD : GridDen D) c a b m x
  (Hc : plays D c a b m) (Hab : a <= b) (Hx : 0 <= x)
  (Hr : Forall in_grid [a; b; b - a; m; m + (b - a); x; a + x; b - x; x + (b - a)]) :
  plays D (BlockCore_set_in c (grid D x)) x (x + (b - a)) m /\
  (a <= x -> plays D (BlockCore_set_out c (grid D x)) a x m) /\
  plays D (set_length_and_media_in c (grid D x)) a (a + x) m /\
  plays D (set_length_and_media_out c (grid D x)) (b - x) b (b - x) /\
  media_out c = grid D (m + (b - a)) /\
  (media_out (set_length_and_media_out c (grid D x)) = media_out c <-> m = a).
Proof.
  repeat (apply list.Forall_cons in Hr as [? Hr]).
  pose proof (set_media_out_plays D c a b m x Hc ltac:(done) ltac:(done) ltac:(done) ltac:(done)
    ltac:(done) ltac:(done) ltac:(done)) as Ho.
  assert (Hmo : media_out c = grid D (m + (b - a))).
  { destruct Hc as [E1 E2]. unfold media_out, BlockCore_length.
    rewrite E1, E2, length_span by done. by apply grid_add. }
  split; [by apply set_in_plays|]. split; [intros; by eapply set_out_plays|].
  split; [by eapply set_media_in_plays|]. split; [done|]. split; [done|].
  rewrite Hmo. destruct Ho as [E1 E2].
  unfold media_out at 1, BlockCore_length. rewrite E1, E2, length_span by (try done; by replace (b - (b - x)) with x by lia).
  rewrite grid_add, grid_inj by (try done; replace (b - (b - x)) with x by lia; try done;
    by replace (b - x + x) with b by lia). lia.
Qed.

(** A ten second clip at 10s playing its media from 5s, cut to its last six
    seconds: the media now starts at the timeline in point. *)
Definition late_clip : BlockCore :=
  with_media_in (with_range BlockCore_default (TimeRange_new (new 10 1) (new 20 1))) (new 5 1).

Lemma block_span_edits_witness :
  set_length_and_media_out late_clip (new 6 1) =
    with_media_in (with_range late_clip (mkTimeRange (new 14 1) (new 20 1))) (new 14 1) /\
  media_out late_clip = new 15 1 /\
  (media_out (set_length_and_media_out late_clip (grid 1 6)) = media_out late_clip <-> 5 = 10).
Proof.
  split; [vm_compute; reflexivity|]. split; [vm_compute; reflexivity|].
  assert (HD : GridDen 1) by done.
  refine (proj2 (proj2 (proj2 (proj2 (proj2 (block_span_edits 1 HD late_clip 10 20 5 6 _ _ _ _)))))).
  - split; vm_compute; reflexivity.
  - lia.
  - lia.
  - repeat constructor.
Defined.
