(* ===== verification/Track.v ===== *)
(** Tracks and track lists (crates/oak-node/src/track.rs): the ordered block
    list of a track with its edits, the time queries over a [BlockRange], and
    the per-type track collection.

    The float height conversions and the XML save/load are left out. *)

From Stdlib Require Import QArith Lqa.
From S2P Require Import Prelude Rational TimeRange Ids Value NodeCore.

Local Open Scope Z_scope.

(** * Track types *)

Inductive TrackType : Type := Video | Audio | Subtitle.

#[export] Instance TrackType_eq_dec : EqDecision TrackType.
Proof. solve_decision. Defined.

Definition to_c (k : TrackType) : Z :=
  match k with Video => 0 | Audio => 1 | Subtitle => 2 end.

Definition from_c (v : Z) : option TrackType :=
  match v with 0 => Some Video | 1 => Some Audio | 2 => Some Subtitle | _ => None end.

(** * Tracks *)

(** [track_idx] is the field [index], an [i32]. *)
Record TrackBehavior : Type := mkTrack {
  track_kind : TrackType; blocks : list NodeId; muted : bool; locked : bool; track_height : F64;
  track_idx : Z; track_list : option NodeId }.

(** The bits of [3.0]. *)
Definition DEFAULT_HEIGHT_INTERNAL : F64 := 0x4008000000000000.

Definition TrackBehavior_new (k : TrackType) : TrackBehavior :=
  mkTrack k [] false false DEFAULT_HEIGHT_INTERNAL 0 None.

Definition TrackBehavior_create : NodeCore * TrackBehavior := (NodeCore_new, TrackBehavior_new Video).

Definition with_blocks (t : TrackBehavior) (x : list NodeId) : TrackBehavior :=
  mkTrack (track_kind t) x (muted t) (locked t) (track_height t) (track_idx t) (track_list t).
Definition with_membership (t : TrackBehavior) (l : option NodeId) (i : Z) : TrackBehavior :=
  mkTrack (track_kind t) (blocks t) (muted t) (locked t) (track_height t) i l.

Definition block_at (t : TrackBehavior) (i : nat) : option NodeId := blocks t !! i.

Definition index_of (x : NodeId) (l : list NodeId) : option nat := position (fun b => NodeId_eqb b x) l.

Definition block_index (t : TrackBehavior) (block : NodeId) : option nat := index_of block (blocks t).

Definition append_block (t : TrackBehavior) (block : NodeId) : TrackBehavior :=
  with_blocks t (blocks t ++ [block]).

Definition prepend_block (t : TrackBehavior) (block : NodeId) : TrackBehavior :=
  with_blocks t (vec_insert 0 block (blocks t)).

Definition insert_block_at_index (t : TrackBehavior) (block : NodeId) (i : nat) : TrackBehavior :=
  with_blocks t (vec_insert (i `min` length (blocks t)) block (blocks t)).

Definition insert_block_after (t : TrackBehavior) (block before : NodeId) : TrackBehavior * bool :=
  match block_index t before with
  | Some i => (with_blocks t (vec_insert (i + 1) block (blocks t)), true)
  | None => (t, false)
  end.

Definition insert_block_before (t : TrackBehavior) (block after : NodeId) : TrackBehavior * bool :=
  match block_index t after with
  | Some i => (with_blocks t (vec_insert i block (blocks t)), true)
  | None => (t, false)
  end.

Definition remove_block (t : TrackBehavior) (block : NodeId) : TrackBehavior * bool :=
  let before := length (blocks t) in
  let t := with_blocks t (retain (fun b => negb (NodeId_eqb b block)) (blocks t)) in
  (t, negb (length (blocks t) =? before)%nat).

Definition ripple_remove_block (t : TrackBehavior) (block : NodeId) : TrackBehavior * bool :=
  remove_block t block.

Definition replace_block (t : TrackBehavior) (old replace : NodeId) : TrackBehavior * bool :=
  match block_index t old with
  | Some i => (with_blocks t (<[i := replace]> (blocks t)), true)
  | None => (t, false)
  end.

Definition reference (t : TrackBehavior) : Z * Z := (to_c (track_kind t), track_idx t).

(** * Time queries *)

(** The [BlockRange] trait object; its three provided methods follow. *)
Record BlockRange : Type := mkBlockRange { br_in : NodeId -> Rational; br_out : NodeId -> Rational }.

Definition br_contains_strict (r : BlockRange) (b : NodeId) (t : Rational) : bool :=
  ltb (br_in r b) t && ltb t (br_out r b).
Definition br_contains (r : BlockRange) (b : NodeId) (t : Rational) : bool :=
  leb (br_in r b) t && ltb t (br_out r b).
Definition br_overlaps (r : BlockRange) (b : NodeId) (range : TimeRange) : bool :=
  negb (leb (br_out r b) (in_ range) || leb (out range) (br_in r b)).

Definition block_containing_time (t : TrackBehavior) (time : Rational) (r : BlockRange) : option NodeId :=
  find (fun b => br_contains_strict r b time) (blocks t).

Definition visible_block_at_time (t : TrackBehavior) (time : Rational) (r : BlockRange) : option NodeId :=
  find (fun b => br_contains r b time) (blocks t).

Definition is_range_free (t : TrackBehavior) (range : TimeRange) (r : BlockRange) : bool :=
  negb (existsb (fun b => br_overlaps r b range) (blocks t)).

(** The greatest of [0/1] and the values of [f]; shared by the track's and
    the list's length. *)
Definition latest (f : NodeId -> Rational) (l : list NodeId) : Rational :=
  foldl (fun acc b => let x := f b in if ltb acc x then x else acc) (new 0 1) l.

Definition track_length_ (t : TrackBehavior) (r : BlockRange) : Rational := latest (br_out r) (blocks t).

(** * Track lists *)

Record TrackListBehavior : Type := mkTrackList {
  list_kind : TrackType; tracks : list NodeId; sequence : option NodeId; array_base : Z }.

Definition TrackListBehavior_new (k : TrackType) : TrackListBehavior := mkTrackList k [] None 0.
Definition TrackListBehavior_create : NodeCore * TrackListBehavior :=
  (NodeCore_new, TrackListBehavior_new Video).

Definition with_tracks (l : TrackListBehavior) (x : list NodeId) : TrackListBehavior :=
  mkTrackList (list_kind l) x (sequence l) (array_base l).

Definition track_at (l : TrackListBehavior) (i : nat) : option NodeId := tracks l !! i.
Definition track_index (l : TrackListBehavior) (t : NodeId) : option nat := index_of t (tracks l).

(** [TrackRange] gives the length of a track. *)
Definition list_total_length (l : TrackListBehavior) (track_range : NodeId -> Rational) : Rational :=
  latest track_range (tracks l).

(** [duplicate] and the type ids. *)
Definition TRACK_TYPE_ID : string := "org.olivevideoeditor.Olive.track".
Definition TRACKLIST_TYPE_ID : string := "org.olivevideoeditor.Olive.tracklist".
Definition track_duplicate (t : TrackBehavior) : TrackBehavior :=
  mkTrack (track_kind t) (blocks t) (muted t) (locked t) (track_height t) (track_idx t) (track_list t).
Definition tracklist_duplicate (l : TrackListBehavior) : TrackListBehavior :=
  mkTrackList (list_kind l) (tracks l) (sequence l) (array_base l).

(** * Lemmas on the block list *)

Lemma with_blocks_with_blocks t x y : with_blocks (with_blocks t x) y = with_blocks t y.
Proof. done. Qed.

Lemma with_blocks_id t : with_blocks t (blocks t) = t.
Proof. by destruct t. Qed.

Lemma index_of_Some x l i : index_of x l = Some i ->
  l !! i = Some x /\ forall j, (j < i)%nat -> l !! j <> Some x.
Proof.
  intros H. apply position_Some in H as (y & Hy & E & Hlt).
  apply NodeId_eqb_true in E. subst. split; [done|].
  intros j Hj E. specialize (Hlt j x Hj E); cbn in Hlt. by rewrite NodeId_eqb_refl in Hlt.
Qed.

Lemma index_of_None x l : index_of x l = None <-> x ∉ l.
Proof.
  unfold index_of. rewrite position_None. split.
  - intros H E. specialize (H x E). by rewrite NodeId_eqb_refl in H.
  - intros H y Hy. apply NodeId_eqb_false. by intros ->.
Qed.

Lemma index_of_elem x l : x ∈ l -> exists i, index_of x l = Some i.
Proof.
  intros H. destruct (index_of x l) eqn:E; [by eexists|].
  by apply index_of_None in E.
Qed.

Lemma index_of_app l1 x l2 : x ∉ l1 -> index_of x (l1 ++ x :: l2) = Some (length l1).
Proof.
  intros H. unfold index_of. rewrite position_app_r; [done| |by apply NodeId_eqb_refl].
  intros y Hy. apply NodeId_eqb_false. by intros ->.
Qed.

Lemma retain_absent x l : x ∉ l -> retain (fun b => negb (NodeId_eqb b x)) l = l.
Proof.
  intros H. apply retain_all. intros y Hy.
  rewrite negb_true_iff. apply NodeId_eqb_false. by intros ->.
Qed.

Lemma retain_vec_insert x i l : x ∉ l ->
  retain (fun b => negb (NodeId_eqb b x)) (vec_insert i x l) = l.
Proof.
  intros H. unfold vec_insert. rewrite retain_app.
  rewrite retain_cons, NodeId_eqb_refl; cbn [negb].
  rewrite <- retain_app, take_drop. by apply retain_absent.
Qed.

Lemma retain_middle x l1 l2 : x ∉ l1 -> x ∉ l2 ->
  retain (fun b => negb (NodeId_eqb b x)) (l1 ++ x :: l2) = l1 ++ l2.
Proof.
  intros H1 H2. rewrite retain_app, retain_absent by done.
  rewrite retain_cons, NodeId_eqb_refl; cbn [negb].
  by rewrite (retain_absent x l2).
Qed.

Lemma length_retain_vec_insert i (x : NodeId) l :
  negb (length l =? length (vec_insert i x l))%nat = true.
Proof. rewrite length_vec_insert. rewrite negb_true_iff. apply Nat.eqb_neq. lia. Qed.

Lemma remove_block_absent t b : b ∉ blocks t -> remove_block t b = (t, false).
Proof.
  intros H. unfold remove_block. rewrite retain_absent, with_blocks_id by done.
  by rewrite Nat.eqb_refl.
Qed.

Lemma remove_block_inserted t b i : b ∉ blocks t ->
  remove_block (with_blocks t (vec_insert i b (blocks t))) b = (t, true).
Proof.
  intros H. unfold remove_block; cbn [blocks with_blocks].
  rewrite retain_vec_insert, length_retain_vec_insert by done.
  by rewrite with_blocks_with_blocks, with_blocks_id.
Qed.

Lemma replace_block_absent t old b : old ∉ blocks t -> replace_block t old b = (t, false).
Proof. intros Hi. unfold replace_block, block_index. by rewrite (proj2 (index_of_None _ _) Hi). Qed.

(** A removed block can be put back after its predecessor. *)
Lemma remove_block_middle t b l1 l2 : blocks t = l1 ++ b :: l2 -> b ∉ l1 -> b ∉ l2 ->
  remove_block t b = (with_blocks t (l1 ++ l2), true).
Proof.
  intros E H1 H2. unfold remove_block. rewrite E, retain_middle by done.
  cbn [blocks with_blocks]. rewrite !length_app; cbn [length]. f_equal.
  rewrite negb_true_iff. apply Nat.eqb_neq. lia.
Qed.

Lemma vec_insert_app {A} (l1 : list A) x l2 : vec_insert (length l1) x (l1 ++ l2) = l1 ++ x :: l2.
Proof. unfold vec_insert. by rewrite take_app_length, drop_app_length. Qed.

(** * Time queries over ordered blocks *)

Definition br_span (r : BlockRange) (b : NodeId) : TimeRange := mkTimeRange (br_in r b) (br_out r b).

(** Every block spans a proper finite interval, and different blocks share no
    instant. *)
Record laid_out (t : TrackBehavior) (r : BlockRange) : Prop := {
  laid_proper b : b ∈ blocks t ->
    finite (br_in r b) /\ finite (br_out r b) /\ (val (br_in r b) < val (br_out r b))%Q;
  laid_apart b b' : b ∈ blocks t -> b' ∈ blocks t -> b <> b' ->
    (val (br_out r b) <= val (br_in r b'))%Q \/ (val (br_out r b') <= val (br_in r b))%Q
}.

Lemma find_Some_elem {A} (p : A -> bool) l x : find p l = Some x -> x ∈ l /\ p x = true.
Proof. intros H. apply List.find_some in H as [? ?]. by rewrite list_elem_of_In. Qed.

Lemma find_None_elem {A} (p : A -> bool) l : find p l = None <-> forall x, x ∈ l -> p x = false.
Proof.
  split.
  - intros H x Hx. apply list_elem_of_In in Hx. by apply (List.find_none p l).
  - intros H. unfold find. destruct (List.find p l) eqn:E; [|done].
    apply List.find_some in E as [E1 E2]. apply list_elem_of_In in E1. by rewrite H in E2.
Qed.

(** A predicate that holds of at most one element of the list is found. *)
Lemma find_unique {A} (p : A -> bool) l x : x ∈ l -> p x = true ->
  (forall y, y ∈ l -> p y = true -> y = x) -> find p l = Some x.
Proof.
  intros Hx Hp Hu. destruct (find p l) as [y|] eqn:E.
  - apply find_Some_elem in E as [Hy Ey]. by rewrite (Hu y).
  - rewrite find_None_elem in E. by rewrite E in Hp.
Qed.

Section queries.
Context (t : TrackBehavior) (r : BlockRange) (HT : laid_out t r).

Lemma br_contains_val b time : b ∈ blocks t -> finite time ->
  br_contains r b time = true <-> (val (br_in r b) <= val time < val (br_out r b))%Q.
Proof.
  intros Hb Ht. destruct (laid_proper _ _ HT b Hb) as (? & ? & _).
  unfold br_contains. by rewrite andb_true_iff, leb_val, ltb_val.
Qed.

Lemma br_contains_strict_val b time : b ∈ blocks t -> finite time ->
  br_contains_strict r b time = true <-> (val (br_in r b) < val time < val (br_out r b))%Q.
Proof.
  intros Hb Ht. destruct (laid_proper _ _ HT b Hb) as (? & ? & _).
  unfold br_contains_strict. by rewrite andb_true_iff, !ltb_val.
Qed.

Lemma visible_unique b b' time : b ∈ blocks t -> b' ∈ blocks t -> finite time ->
  br_contains r b time = true -> br_contains r b' time = true -> b' = b.
Proof.
  intros Hb Hb' Ht E E'. apply br_contains_val in E as [? ?]; [|done..].
  apply br_contains_val in E' as [? ?]; [|done..].
  destruct (decide (b' = b)) as [|Hne]; [done|exfalso].
  destruct (laid_apart _ _ HT b' b Hb' Hb Hne); lra.
Qed.

Lemma br_overlaps_val b range : b ∈ blocks t -> finite (in_ range) -> finite (out range) ->
  (val (in_ range) < val (out range))%Q ->
  br_overlaps r b range = true <->
  exists time, finite time /\ contains range time = true /\ br_contains r b time = true.
Proof.
  intros Hb Hi Ho Hlt. destruct (laid_proper _ _ HT b Hb) as (Fi & Fo & Hbl).
  unfold br_overlaps. rewrite negb_true_iff, orb_false_iff.
  rewrite !leb_negb_ltb by (by apply finite_wf).
  rewrite !negb_false_iff, !ltb_val by done. split.
  - intros [H1 H2]. exists (rmax (br_in r b) (in_ range)).
    assert (Hf : finite (rmax (br_in r b) (in_ range))) by auto with oak.
    split; [done|]. unfold contains. rewrite br_contains_val, andb_true_iff, leb_val, ltb_val by done.
    unfold rmax. destruct (ltb (in_ range) (br_in r b)) eqn:E.
    + apply ltb_val in E; [|done..]. repeat split; lra.
    + rewrite <- not_true_iff_false in E. rewrite ltb_val in E by done.
      repeat split; lra.
  - intros (time & Hf & E1 & E2). apply br_contains_val in E2 as [? ?]; [|done..].
    unfold contains in E1. rewrite andb_true_iff, leb_val, ltb_val in E1 by done.
    destruct E1. split; lra.
Qed.
End queries.

Definition latest_step (f : NodeId -> Rational) (acc : Rational) (b : NodeId) : Rational :=
  if ltb acc (f b) then f b else acc.

Lemma latest_acc f l acc : finite acc -> (forall b, b ∈ l -> finite (f b)) ->
  let m := foldl (latest_step f) acc l in
  finite m /\ (val acc <= val m)%Q /\ (forall b, b ∈ l -> (val (f b) <= val m)%Q) /\
  (m = acc \/ exists b, b ∈ l /\ m = f b).
Proof.
  revert acc; induction l as [|b l IH]; intros acc Ha Hf; cbn [foldl].
  - split; [done|]. split; [lra|]. split; [by intros b Hb; apply elem_of_nil in Hb|by left].
  - assert (Hb : finite (f b)) by (apply Hf; apply elem_of_cons; by left).
    assert (Hs : finite (latest_step f acc b)) by (unfold latest_step; by destruct (ltb _ _)).
    destruct (IH (latest_step f acc b) Hs) as (F & Hle & Hall & Hex);
      [intros; apply Hf; apply elem_of_cons; by right|].
    assert (Hst : (val acc <= val (latest_step f acc b))%Q /\ (val (f b) <= val (latest_step f acc b))%Q).
    { unfold latest_step. destruct (ltb acc (f b)) eqn:E.
      - apply ltb_val in E; [|done..]. split; lra.
      - rewrite <- not_true_iff_false in E. rewrite ltb_val in E by done. split; lra. }
    split; [done|]. split; [lra|]. split.
    + intros x Hx. apply elem_of_cons in Hx as [->|Hx]; [lra|by apply Hall].
    + destruct Hex as [E|(x & Hx & E)].
      * rewrite E. unfold latest_step. destruct (ltb _ _); [right|by left].
        exists b. split; [apply elem_of_cons; by left|done].
      * right. exists x. split; [apply elem_of_cons; by right|done].
Qed.

Lemma finite_ZERO : finite (new 0 1).
Proof. split; [|by vm_compute]. right. by vm_compute. Qed.

(** C28: time queries on a track whose blocks span proper, pairwise disjoint
    intervals, in any list order: the visible block is exactly the one whose
    half-open span holds the time, the containing block exactly the one that
    holds it strictly, a range is free exactly when no instant of it is visible
    on any block (a gap counts as a block), and the length is the last out
    point. *)
Theorem track_time_queries (t : TrackBehavior) (r : BlockRange) (time : Rational) (range : TimeRange)
  (HT : laid_out t r) (Htime : finite time)
  (Hi : finite (in_ range)) (Ho : finite (out range)) (Hlt : (val (in_ range) < val (out range))%Q) :
  (forall b, visible_block_at_time t time r = Some b <->
     b ∈ blocks t /\ (val (br_in r b) <= val time < val (br_out r b))%Q) /\
  (forall b, block_containing_time t time r = Some b <->
     b ∈ blocks t /\ (val (br_in r b) < val time < val (br_out r b))%Q) /\
  (is_range_free t range r = true <->
     forall x, finite x -> contains range x = true -> visible_block_at_time t x r = None) /\
  (forall b, b ∈ blocks t -> (val (br_out r b) <= val (track_length_ t r))%Q) /\
  (track_length_ t r = new 0 1 \/ exists b, b ∈ blocks t /\ track_length_ t r = br_out r b).
Proof.
  split; [|split; [|split]].
  - intros b. split.
    + intros E. apply find_Some_elem in E as [Hb E]. split; [done|]. by eapply br_contains_val.
    + intros [Hb E]. rewrite <- br_contains_val in E by done.
      apply find_unique; [done|done|]. intros y Hy E'. by apply (visible_unique t r HT b y time).
  - intros b. split.
    + intros E. apply find_Some_elem in E as [Hb E]. split; [done|]. by eapply br_contains_strict_val.
    + intros [Hb E]. rewrite <- br_contains_strict_val in E by done.
      apply find_unique; [done|done|]. intros y Hy E'. apply (visible_unique t r HT b y time); try done.
      * rewrite br_contains_strict_val in E by done. rewrite br_contains_val by done. lra.
      * rewrite br_contains_strict_val in E' by done. rewrite br_contains_val by done. lra.
  - unfold is_range_free. rewrite negb_true_iff. split.
    + intros E x Fx Hx. apply find_None_elem. intros b Hb. apply not_true_iff_false. intros Hc.
      apply not_true_iff_false in E. apply E. apply List.existsb_exists.
      exists b. split; [by apply list_elem_of_In|]. rewrite br_overlaps_val by done. by exists x.
    + intros H. apply not_true_iff_false. intros E. apply List.existsb_exists in E as (b & Hb & E).
      apply list_elem_of_In in Hb. rewrite br_overlaps_val in E by done.
      destruct E as (x & Fx & E1 & E2). specialize (H x Fx E1).
      unfold visible_block_at_time in H. rewrite find_None_elem in H. by rewrite H in E2.
  - destruct (latest_acc (br_out r) (blocks t) (new 0 1)) as (_ & _ & H1 & H2);
      [apply finite_ZERO|intros b Hb; by destruct (laid_proper _ _ HT b Hb) as (? & ? & _)|].
    done.
Qed.

(** Three blocks at [0, 2), [2, 5) and [7, 9). *)
Definition demo_track : TrackBehavior :=
  with_blocks (TrackBehavior_new Video) [mkNodeId 1 0; mkNodeId 2 0; mkNodeId 3 0].
Definition demo_ranges : BlockRange := {|
  br_in b := match index b with 1%N => new 0 1 | 2%N => new 2 1 | _ => new 7 1 end;
  br_out b := match index b with 1%N => new 2 1 | 2%N => new 5 1 | _ => new 9 1 end
|}.

Lemma demo_laid_out : laid_out demo_track demo_ranges.
Proof.
  split.
  - intros b Hb. unfold demo_track in Hb; cbn [blocks with_blocks] in Hb.
    rewrite !elem_of_cons, elem_of_nil in Hb.
    destruct Hb as [->|[->|[->|[]]]]; repeat split; try done; right; vm_compute; repeat split; done.
  - intros b b' Hb Hb' Hne. unfold demo_track in Hb, Hb'; cbn [blocks with_blocks] in Hb, Hb'.
    rewrite !elem_of_cons, elem_of_nil in Hb, Hb'.
    destruct Hb as [->|[->|[->|[]]]], Hb' as [->|[->|[->|[]]]]; try done;
      first [left; done|right; done].
Qed.

Lemma track_time_queries_witness :
  visible_block_at_time demo_track (new 4 1) demo_ranges = Some (mkNodeId 2 0) /\
  block_containing_time demo_track (new 2 1) demo_ranges = None /\
  is_range_free demo_track (mkTimeRange (new 5 1) (new 7 1)) demo_ranges = true /\
  track_length_ demo_track demo_ranges = new 9 1 /\
  (forall b, visible_block_at_time demo_track (new 4 1) demo_ranges = Some b <->
     b ∈ blocks demo_track /\
     (val (br_in demo_ranges b) <= val (new 4 1) < val (br_out demo_ranges b))%Q).
Proof.
  do 4 (split; [vm_compute; reflexivity|]).
  refine (proj1 (track_time_queries demo_track demo_ranges (new 4 1) (mkTimeRange (new 5 1) (new 7 1))
    demo_laid_out _ _ _ _)); try done; split; try done; right; vm_compute; repeat split; done.
Defined.

(** * Block list edits *)

Lemma insert_block_after_spec t b before l1 l2 :
  blocks t = l1 ++ before :: l2 -> before ∉ l1 ->
  insert_block_after t b before = (with_blocks t (l1 ++ before :: b :: l2), true).
Proof.
  intros E H1. unfold insert_block_after, block_index. rewrite E, index_of_app by done.
  f_equal. f_equal. replace (length l1 + 1)%nat with (length (l1 ++ [before])) by (rewrite length_app; done).
  replace (l1 ++ before :: l2) with ((l1 ++ [before]) ++ l2) by (by rewrite <- app_assoc).
  by rewrite vec_insert_app, <- app_assoc.
Qed.

Lemma insert_block_before_spec t b after l1 l2 :
  blocks t = l1 ++ after :: l2 -> after ∉ l1 ->
  insert_block_before t b after = (with_blocks t (l1 ++ b :: after :: l2), true).
Proof.
  intros E H1. unfold insert_block_before, block_index. rewrite E, index_of_app by done.
  by rewrite vec_insert_app.
Qed.

Lemma replace_block_spec t old b l1 l2 :
  blocks t = l1 ++ old :: l2 -> old ∉ l1 ->
  replace_block t old b = (with_blocks t (l1 ++ b :: l2), true).
Proof.
  intros E H1. unfold replace_block, block_index. rewrite E, index_of_app by done.
  by rewrite insert_app_r_alt, Nat.sub_diag by lia.
Qed.

Lemma NoDup_split (x : NodeId) l : NoDup l -> x ∈ l ->
  exists l1 l2, l = l1 ++ x :: l2 /\ (x ∉ l1) /\ (x ∉ l2).
Proof.
  intros Hnd Hx. apply list_elem_of_split in Hx as (l1 & l2 & ->). exists l1, l2.
  apply NoDup_app in Hnd as (_ & H1 & H2). apply NoDup_cons in H2 as [H2 _].
  split; [done|]. split; [|done]. intros E. apply (H1 x E). apply elem_of_cons. by left.
Qed.

(** C29: the edits of a track's block list: inserting a block that is not on
    the track anywhere keeps the blocks distinct and is undone exactly by
    removing it; a relative insertion lands right beside its anchor and fails,
    changing nothing, without one; replacing keeps the position and is its own
    inverse; removing a block and inserting it after its former predecessor
    restores the track. *)
Theorem track_block_edits (t : TrackBehavior) (b : NodeId) (i : nat)
  (Hnd : NoDup (blocks t)) (Hb : b ∉ blocks t) :
  (forall t', t' ∈ ([prepend_block t b; append_block t b; insert_block_at_index t b i]) ->
     NoDup (blocks t') /\ remove_block t' b = (t, true)) /\
  (forall l1 p l2, blocks t = l1 ++ p :: l2 ->
     insert_block_after t b p = (with_blocks t (l1 ++ p :: b :: l2), true) /\
     insert_block_before t b p = (with_blocks t (l1 ++ b :: p :: l2), true) /\
     remove_block (insert_block_after t b p).1 b = (t, true) /\
     replace_block t p b = (with_blocks t (l1 ++ b :: l2), true) /\
     replace_block (replace_block t p b).1 b p = (t, true)) /\
  (forall p, p ∉ blocks t ->
     insert_block_after t b p = (t, false) /\ insert_block_before t b p = (t, false) /\
     remove_block t p = (t, false) /\ replace_block t p b = (t, false)) /\
  (forall l1 p x l2, blocks t = l1 ++ p :: x :: l2 ->
     insert_block_after (ripple_remove_block t x).1 x p = (t, true)).
Proof.
  assert (Hmid : forall l1 x l2, blocks t = l1 ++ x :: l2 -> (x ∉ l1) /\ (x ∉ l2)).
  { intros l1 x l2 E. rewrite E in Hnd. apply NoDup_app in Hnd as (_ & H1 & H2).
    apply NoDup_cons in H2 as [H2 _]. split; [|done].
    intros Hx. apply (H1 x Hx). apply elem_of_cons. by left. }
  split; [|split; [|split]].
  - assert (Hins : forall k, NoDup (vec_insert k b (blocks t))).
    { intros k. rewrite vec_insert_Permutation. by apply NoDup_cons. }
    assert (Happ : blocks t ++ [b] = vec_insert (length (blocks t)) b (blocks t)).
    { pose proof (vec_insert_app (blocks t) b []) as E. by rewrite app_nil_r in E. }
    intros t' Ht'. rewrite !elem_of_cons, elem_of_nil in Ht'.
    unfold prepend_block, append_block, insert_block_at_index in Ht'. rewrite Happ in Ht'.
    destruct Ht' as [->|[->|[->|[]]]]; (split; [apply Hins|by apply remove_block_inserted]).
  - intros l1 p l2 E. destruct (Hmid _ _ _ E) as [H1 H2].
    assert (Hb1 : (b ∉ l1) /\ b <> p /\ (b ∉ l2)).
    { rewrite E, elem_of_app, elem_of_cons in Hb. tauto. }
    destruct Hb1 as (? & ? & ?).
    rewrite (insert_block_after_spec t b p l1 l2), (insert_block_before_spec t b p l1 l2),
      (replace_block_spec t p b l1 l2) by done.
    split; [done|]. split; [done|]. cbn [fst]. split; [|split; [done|]].
    + rewrite (remove_block_middle _ b (l1 ++ [p]) l2); cbn [blocks with_blocks].
      * rewrite with_blocks_with_blocks, <- app_assoc; cbn [app]. by rewrite <- E, with_blocks_id.
      * by rewrite <- app_assoc.
      * rewrite elem_of_app, list_elem_of_singleton. tauto.
      * done.
    + rewrite (replace_block_spec _ b p l1 l2) by done.
      by rewrite with_blocks_with_blocks, <- E, with_blocks_id.
  - intros p Hp. pose proof (proj2 (index_of_None p (blocks t)) Hp) as Hi.
    unfold insert_block_after, insert_block_before, replace_block, block_index. rewrite Hi.
    by rewrite remove_block_absent.
  - intros l1 p x l2 E. unfold ripple_remove_block.
    destruct (Hmid _ _ _ E) as [Hp1 _].
    destruct (Hmid (l1 ++ [p]) x l2) as [Hx1 Hx2]; [by rewrite <- app_assoc|].
    rewrite (remove_block_middle t x (l1 ++ [p]) l2) by (try done; by rewrite <- app_assoc).
    cbn [fst]. rewrite (insert_block_after_spec _ x p l1 l2); [|by cbn; rewrite <- app_assoc|done].
    by rewrite with_blocks_with_blocks, <- E, with_blocks_id.
Qed.

Lemma track_block_edits_witness :
  insert_block_after demo_track (mkNodeId 9 0) (mkNodeId 2 0) =
    (with_blocks demo_track [mkNodeId 1 0; mkNodeId 2 0; mkNodeId 9 0; mkNodeId 3 0], true) /\
  remove_block (insert_block_after demo_track (mkNodeId 9 0) (mkNodeId 2 0)).1 (mkNodeId 9 0) =
    (demo_track, true).
Proof.
  split; [reflexivity|].
  refine (proj1 (proj2 (proj2 (proj1 (proj2 (track_block_edits demo_track (mkNodeId 9 0) 0 _ _))
    [mkNodeId 1 0] (mkNodeId 2 0) [mkNodeId 3 0] _)))).
  - by apply (bool_decide_unpack _).
  - by apply (bool_decide_unpack _).
  - reflexivity.
Defined.
