(* ===== verification/Timeline.v ===== *)
(** The timeline's view of the graph (crates/oak-timeline/src/util.rs and the
    sequence behaviour of crates/oak-node/src/sequence.rs): the concrete
    behaviours behind the [NodeBehavior] interface, and the block, track,
    track list and sequence queries and mutations every timeline command is
    made of.

    A node reference is its id: every reference of a command lives in the one
    project whose graph is the state. *)

From Stdlib Require Import QArith Lqa.
From S2P Require Import Prelude Rational TimeRange Ids Value Keyframe NodeCore Graph Arena Block Track.

Local Open Scope Z_scope.

(** * Behaviours *)

Record SequenceBehavior : Type := mkSequence {
  track_lists : list NodeId; markers : CHandle; workarea : CHandle; last_length : Rational;
  autocache_video : bool; autocache_audio : bool; playhead : Rational;
  seq_video_params : list VideoParams; seq_audio_params : list AudioParams }.

Definition SequenceBehavior_new : SequenceBehavior :=
  mkSequence [] 0 0 (new 0 1) false false (new 0 1) [] [].

Definition verify_length (s : SequenceBehavior) (lengths : Rational * Rational * Rational) : SequenceBehavior :=
  mkSequence (track_lists s) (markers s) (workarea s) lengths.2 (autocache_video s) (autocache_audio s)
    (playhead s) (seq_video_params s) (seq_audio_params s).

Definition SEQUENCE_TYPE_ID : string := "org.olivevideoeditor.Olive.sequence".

(** What the timeline needs of a node type it does not know. *)
Class OtherBehavior (Ext : Type) : Type := {
  other_type_id : Ext -> string;
  other_duplicate : Ext -> NodeCore -> option Ext
}.

Inductive Behavior (Ext : Type) : Type :=
| BEmpty
| BGraphInput
| BGraphOutput
| BClip (b : ClipBlockBehavior)
| BGap (b : GapBlockBehavior)
| BTransition (b : TransitionBlockBehavior)
| BAdjustment (b : AdjustmentBlockBehavior)
| BTrack (t : TrackBehavior)
| BTrackList (l : TrackListBehavior)
| BSequence (s : SequenceBehavior)
| BOther (o : Ext).
Arguments BEmpty {Ext}.
Arguments BGraphInput {Ext}.
Arguments BGraphOutput {Ext}.
Arguments BClip {Ext} b.
Arguments BGap {Ext} b.
Arguments BTransition {Ext} b.
Arguments BAdjustment {Ext} b.
Arguments BTrack {Ext} t.
Arguments BTrackList {Ext} l.
Arguments BSequence {Ext} s.
Arguments BOther {Ext} o.

Section behavior.
Context {Ext : Type} `{OtherBehavior Ext}.

Definition behavior_type_id (b : Behavior Ext) : string :=
  match b with
  | BEmpty => ""
  | BGraphInput => GRAPH_INPUT_TYPE_ID
  | BGraphOutput => GRAPH_OUTPUT_TYPE_ID
  | BClip _ => CLIP_TYPE_ID
  | BGap _ => GAP_TYPE_ID
  | BTransition _ => TRANSITION_TYPE_ID
  | BAdjustment _ => ADJUSTMENT_TYPE_ID
  | BTrack _ => TRACK_TYPE_ID
  | BTrackList _ => TRACKLIST_TYPE_ID
  | BSequence _ => SEQUENCE_TYPE_ID
  | BOther o => other_type_id o
  end.

(** [duplicate]; the endpoints refuse. *)
Definition behavior_duplicate (b : Behavior Ext) (c : NodeCore) : option (Behavior Ext) :=
  match b with
  | BEmpty => Some BEmpty
  | BGraphInput | BGraphOutput => None
  | BClip b => Some (BClip (clip_duplicate b))
  | BGap b => Some (BGap (gap_duplicate b))
  | BTransition b => Some (BTransition (transition_duplicate b))
  | BAdjustment b => Some (BAdjustment (adjustment_duplicate b))
  | BTrack t => Some (BTrack (track_duplicate t))
  | BTrackList l => Some (BTrackList (tracklist_duplicate l))
  | BSequence _ => Some (BSequence SequenceBehavior_new)
  | BOther o => BOther <$> other_duplicate o c
  end.

#[export] Instance Behavior_node : NodeBehavior (Behavior Ext) := {|
  type_id := behavior_type_id;
  duplicate := behavior_duplicate;
  EmptyBehavior := BEmpty;
  GraphInputNode := BGraphInput;
  GraphOutputNode := BGraphOutput
|}.

#[export] Instance Behavior_node_laws : NodeBehaviorLaws (Behavior Ext).
Proof. by split. Qed.

(** Downcasts. *)
Definition as_block (b : Behavior Ext) : option BlockCore :=
  match b with
  | BClip b => Some (clip_core b)
  | BGap b => Some (gap_core b)
  | BTransition b => Some (transition_core b)
  | BAdjustment b => Some (adjustment_core b)
  | _ => None
  end.

Definition on_block (f : BlockCore -> BlockCore) (b : Behavior Ext) : Behavior Ext :=
  match b with
  | BClip b => BClip (mkClip (f (clip_core b)) (footage b))
  | BGap b => BGap (mkGap (f (gap_core b)))
  | BTransition b => BTransition (mkTransition (f (transition_core b)) (in_offset b) (out_offset b))
  | BAdjustment b => BAdjustment (mkAdjustment (f (adjustment_core b)))
  | b => b
  end.

Definition as_track (b : Behavior Ext) : option TrackBehavior :=
  match b with BTrack t => Some t | _ => None end.
Definition on_track (f : TrackBehavior -> TrackBehavior) (b : Behavior Ext) : Behavior Ext :=
  match b with BTrack t => BTrack (f t) | b => b end.

Definition as_list (b : Behavior Ext) : option TrackListBehavior :=
  match b with BTrackList l => Some l | _ => None end.
Definition on_list (f : TrackListBehavior -> TrackListBehavior) (b : Behavior Ext) : Behavior Ext :=
  match b with BTrackList l => BTrackList (f l) | b => b end.

Definition as_sequence (b : Behavior Ext) : option SequenceBehavior :=
  match b with BSequence s => Some s | _ => None end.

Definition as_transition (b : Behavior Ext) : option TransitionBlockBehavior :=
  match b with BTransition t => Some t | _ => None end.
Definition on_transition (f : TransitionBlockBehavior -> TransitionBlockBehavior) (b : Behavior Ext) : Behavior Ext :=
  match b with BTransition t => BTransition (f t) | b => b end.
End behavior.

(** * Accessors *)

Section timeline.
Context {Ext : Type} `{OtherBehavior Ext} `{InputHash}.
Abbreviation G := (Graph (Behavior Ext)).
Abbreviation Entry := (NodeEntry (Behavior Ext)).

Definition behavior_of (g : G) (i : NodeId) : option (Behavior Ext) := behavior <$> get g i.

Definition with_behavior (f : Behavior Ext -> Behavior Ext) (e : Entry) : Entry :=
  mkEntry (core e) (f (behavior e)) (entry_generation e) (vacant e).

Definition block_core_of (g : G) (i : NodeId) : option BlockCore := b ← behavior_of g i; as_block b.
Definition track_behavior_of (g : G) (i : NodeId) : option TrackBehavior := b ← behavior_of g i; as_track b.
Definition tracklist_behavior_of (g : G) (i : NodeId) : option TrackListBehavior :=
  b ← behavior_of g i; as_list b.
Definition sequence_behavior_of (g : G) (i : NodeId) : option SequenceBehavior :=
  b ← behavior_of g i; as_sequence b.

(** [block_core_of_mut] and the like: apply [f] when the downcast succeeds. *)
Definition modify_block (g : G) (i : NodeId) (f : BlockCore -> BlockCore) : G :=
  modify g i (with_behavior (on_block f)).
Definition modify_track (g : G) (i : NodeId) (f : TrackBehavior -> TrackBehavior) : G :=
  modify g i (with_behavior (on_track f)).
Definition modify_list (g : G) (i : NodeId) (f : TrackListBehavior -> TrackListBehavior) : G :=
  modify g i (with_behavior (on_list f)).

Definition graph_block_range (g : G) : BlockRange := {|
  br_in b := from_option BlockCore_in (new 0 1) (block_core_of g b);
  br_out b := from_option BlockCore_out (new 0 1) (block_core_of g b)
|}.

(** * Blocks *)

Inductive BlockKind : Type := K_Other | K_Clip | K_Gap | K_Transition.

#[export] Instance BlockKind_eq_dec : EqDecision BlockKind.
Proof. solve_decision. Defined.

Definition block_in (g : G) (b : NodeId) : Rational := from_option BlockCore_in (new 0 1) (block_core_of g b).
Definition block_out (g : G) (b : NodeId) : Rational := from_option BlockCore_out (new 0 1) (block_core_of g b).
Definition block_length (g : G) (b : NodeId) : Rational :=
  from_option BlockCore_length (new 0 1) (block_core_of g b).

Definition block_kind (g : G) (b : NodeId) : BlockKind :=
  match behavior_of g b with
  | Some (BClip _) => K_Clip
  | Some (BGap _) => K_Gap
  | Some (BTransition _) => K_Transition
  | _ => K_Other
  end.

Definition block_enabled (g : G) (b : NodeId) : bool := from_option enabled false (block_core_of g b).
Definition block_set_enabled (g : G) (b : NodeId) (x : bool) : G :=
  modify_block g b (fun c => with_enabled c x).
Definition block_set_length_and_media_out (g : G) (b : NodeId) (len : Rational) : G :=
  modify_block g b (fun c => set_length_and_media_out c len).
Definition block_set_length_and_media_in (g : G) (b : NodeId) (len : Rational) : G :=
  modify_block g b (fun c => set_length_and_media_in c len).
Definition block_set_in (g : G) (b : NodeId) (x : Rational) : G :=
  modify_block g b (fun c => BlockCore_set_in c x).
Definition clip_media_in (g : G) (b : NodeId) : Rational := from_option media_in (new 0 1) (block_core_of g b).
Definition clip_set_media_in (g : G) (b : NodeId) (x : Rational) : G :=
  modify_block g b (fun c => with_media_in c x).
Definition block_range (g : G) (b : NodeId) : option TimeRange := range <$> block_core_of g b.
Definition block_set_range (g : G) (b : NodeId) (x : TimeRange) : G :=
  modify_block g b (fun c => with_range c x).

Definition transition_offsets (g : G) (t : NodeId) : option (Rational * Rational) :=
  b ← behavior_of g t; t ← as_transition b; Some (in_offset t, out_offset t).
Definition transition_set_offsets (g : G) (t : NodeId) (i o : Rational) : G :=
  modify g t (with_behavior (on_transition (fun x => mkTransition (transition_core x) i o))).

Definition block_connected_input (g : G) (b : NodeId) (input : string) : option NodeId :=
  connected_output g b input (-1).
Definition block_connect (g : G) (f t : NodeId) (input : string) : G := (connect g f t input (-1)).1.
Definition block_disconnect_input (g : G) (t : NodeId) (input : string) : G * option NodeId :=
  disconnect_input g t input (-1).

Definition block_previous (g : G) (b : NodeId) : option NodeId :=
  c ← block_core_of g b; t ← track c; tb ← track_behavior_of g t;
  i ← index_of b (blocks tb);
  match i with 0%nat => None | S i => blocks tb !! i end.

Definition block_next (g : G) (b : NodeId) : option NodeId :=
  c ← block_core_of g b; t ← track c; tb ← track_behavior_of g t;
  i ← index_of b (blocks tb);
  blocks tb !! (i + 1)%nat.

Definition block_track (g : G) (b : NodeId) : option NodeId := c ← block_core_of g b; track c.

(** * Tracks *)

Definition track_length (g : G) (t : NodeId) : Rational :=
  match track_behavior_of g t with
  | Some tb => track_length_ tb (graph_block_range g)
  | None => new 0 1
  end.

Definition track_block_count (g : G) (t : NodeId) : nat :=
  from_option (fun tb => length (blocks tb)) 0%nat (track_behavior_of g t).
Definition track_block_at (g : G) (t : NodeId) (i : nat) : option NodeId :=
  tb ← track_behavior_of g t; blocks tb !! i.
Definition track_locked (g : G) (t : NodeId) : bool := from_option locked false (track_behavior_of g t).

Definition covers_time (c : BlockCore) (time : Rational) : bool :=
  leb (BlockCore_in c) time && ltb time (BlockCore_out c).

(** The scans of the block list; a stale block ends them with nothing. *)
Fixpoint nearest_before (g : G) (time : Rational) (before : option NodeId) (l : list NodeId) : option NodeId :=
  match l with
  | [] => before
  | b :: l =>
      match block_core_of g b with
      | None => None
      | Some c =>
          if covers_time c time then Some b
          else nearest_before g time (if leb (BlockCore_out c) time then Some b else before) l
      end
  end.

Definition track_nearest_block_before_or_at (g : G) (t : NodeId) (time : Rational) : option NodeId :=
  tb ← track_behavior_of g t; nearest_before g time None (blocks tb).

Fixpoint nearest_after (g : G) (time : Rational) (l : list NodeId) : option NodeId :=
  match l with
  | [] => None
  | b :: l =>
      match block_core_of g b with
      | None => None
      | Some c =>
          if covers_time c time then Some b
          else if leb time (BlockCore_in c) then Some b
          else nearest_after g time l
      end
  end.

Definition track_nearest_block_after_or_at (g : G) (t : NodeId) (time : Rational) : option NodeId :=
  tb ← track_behavior_of g t; nearest_after g time (blocks tb).

(** Edit the block list, reporting what the edit reports. *)
Definition update_track (g : G) (t : NodeId) (f : TrackBehavior -> TrackBehavior * bool) : G * bool :=
  match track_behavior_of g t with
  | Some tb => (modify_track g t (fun tb => (f tb).1), (f tb).2)
  | None => (g, false)
  end.

Definition set_block_track (g : G) (b : NodeId) (x : option NodeId) : G :=
  modify_block g b (fun c => with_track c x).

Definition track_append_block (g : G) (t b : NodeId) : G :=
  let '(g, ok) := update_track g t (fun tb => (append_block tb b, true)) in
  if ok then set_block_track g b (Some t) else g.

Definition track_insert_block_before (g : G) (t b next : NodeId) : G :=
  let '(g, ok) := update_track g t (fun tb => insert_block_before tb b next) in
  if ok then set_block_track g b (Some t) else g.

Definition track_insert_block_after (g : G) (t b : NodeId) (before : option NodeId) : G :=
  let '(g, ok) := update_track g t (fun tb =>
    match before with
    | Some p => insert_block_after tb b p
    | None => (prepend_block tb b, true)
    end) in
  if ok then set_block_track g b (Some t) else g.

Definition track_prepend_block (g : G) (t b : NodeId) : G :=
  let '(g, ok) := update_track g t (fun tb => (prepend_block tb b, true)) in
  if ok then set_block_track g b (Some t) else g.

Definition track_replace_block (g : G) (t old replace : NodeId) : G :=
  let '(g, ok) := update_track g t (fun tb => replace_block tb old replace) in
  if ok then set_block_track (set_block_track g old None) replace (Some t) else g.

Definition track_ripple_remove_block (g : G) (t b : NodeId) : G :=
  let '(g, ok) := update_track g t (fun tb => ripple_remove_block tb b) in
  if ok then set_block_track g b None else g.

(** * Attach and detach *)

Definition block_add_to_graph (g : G) (b : NodeId) (e : option Entry) : G :=
  match e with Some e => (add_entry g e b).1 | None => g end.
Definition block_remove_from_graph (g : G) (b : NodeId) : G * option Entry := take_node g b.

Definition block_clip_create (g : G) : G * NodeId := add_node g clip_create.1 (BClip clip_create.2).
Definition block_gap_create (g : G) : G * NodeId := add_node g gap_create.1 (BGap gap_create.2).
Definition track_create (g : G) (k : TrackType) : G * NodeId :=
  add_node g NodeCore_new (BTrack (TrackBehavior_new k)).

(** * Track lists and sequences *)

Definition tracklist_track_count (g : G) (l : NodeId) : nat :=
  from_option (fun lb => length (tracks lb)) 0%nat (tracklist_behavior_of g l).
Definition tracklist_track_at (g : G) (l : NodeId) (i : nat) : option NodeId :=
  lb ← tracklist_behavior_of g l; tracks lb !! i.
Definition tracklist_type (g : G) (l : NodeId) : option TrackType := list_kind <$> tracklist_behavior_of g l.

Definition tracklist_append (g : G) (l t : NodeId) : G :=
  let '(g, index) :=
    match tracklist_behavior_of g l with
    | Some lb => (modify_list g l (fun lb => with_tracks lb (tracks lb ++ [t])),
                  i32 (Z.of_nat (length (tracks lb) + 1)) - 1)
    | None => (g, -1)
    end in
  if 0 <=? index then modify_track g t (fun tb => with_membership tb (Some l) index) else g.

Definition tracklist_remove_last (g : G) (l : NodeId) : G * option NodeId :=
  match (lb ← tracklist_behavior_of g l; list.last (tracks lb)) with
  | None => (g, None)
  | Some t =>
      let g := modify_list g l (fun lb => with_tracks lb (removelast (tracks lb))) in
      (modify_track g t (fun tb => with_membership tb None 0), Some t)
  end.

(** Renumber the tracks from [i] on. *)
Fixpoint renumber (g : G) (i : nat) (ts : list NodeId) : G :=
  match ts with
  | [] => g
  | t :: ts =>
      renumber (modify_track g t (fun tb => with_membership tb (track_list tb) (i32 (Z.of_nat i)))) (S i) ts
  end.

Definition tracklist_remove (g : G) (l t : NodeId) : G :=
  match tracklist_behavior_of g l with
  | None => g
  | Some lb =>
      let ids := retain (fun x => negb (NodeId_eqb x t)) (tracks lb) in
      renumber (modify_list g l (fun lb => with_tracks lb (retain (fun x => negb (NodeId_eqb x t)) (tracks lb))))
        0 ids
  end.

Definition sequence_track_list (g : G) (s : NodeId) (k : TrackType) : option NodeId :=
  sb ← sequence_behavior_of g s;
  find (fun l => bool_decide (tracklist_type g l = Some k)) (track_lists sb).

Definition sequence_all_tracks (g : G) (s : NodeId) : list NodeId :=
  match sequence_behavior_of g s with
  | None => []
  | Some sb => flat_map (fun l => from_option tracks [] (tracklist_behavior_of g l)) (track_lists sb)
  end.
End timeline.

(** * Edits of behaviours *)

Section lemmas.
Context {Ext : Type} `{OtherBehavior Ext} `{InputHash}.
Implicit Types (g : Graph (Behavior Ext)) (b t l i j : NodeId).

Lemma with_behavior_keeping f : slot_keeping (with_behavior (Ext := Ext) f).
Proof. by intros e. Qed.
#[local] Hint Resolve with_behavior_keeping : core.

Lemma behavior_of_modify g i f j :
  behavior_of (modify g i (with_behavior f)) j =
    if decide (j = i) then f <$> behavior_of g j else behavior_of g j.
Proof.
  unfold behavior_of. rewrite get_modify_slot by done. case_decide; [|done]. by destruct (get g j).
Qed.

Lemma as_block_on_block f (x : Behavior Ext) : as_block (on_block f x) = f <$> as_block x.
Proof. by destruct x. Qed.
Lemma as_track_on_track f (x : Behavior Ext) : as_track (on_track f x) = f <$> as_track x.
Proof. by destruct x. Qed.

Lemma block_core_of_modify_block g i f j :
  block_core_of (modify_block g i f) j = if decide (j = i) then f <$> block_core_of g j else block_core_of g j.
Proof.
  unfold block_core_of, modify_block. rewrite behavior_of_modify. case_decide; [|done].
  destruct (behavior_of g j); [|done]. apply as_block_on_block.
Qed.

Lemma block_core_of_modify_track g i f j : block_core_of (modify_track g i f) j = block_core_of g j.
Proof.
  unfold block_core_of, modify_track. rewrite behavior_of_modify. case_decide; [|done].
  by destruct (behavior_of g j) as [[]|].
Qed.

Lemma track_behavior_of_modify_track g i f j :
  track_behavior_of (modify_track g i f) j =
    if decide (j = i) then f <$> track_behavior_of g j else track_behavior_of g j.
Proof.
  unfold track_behavior_of, modify_track. rewrite behavior_of_modify. case_decide; [|done].
  destruct (behavior_of g j); [|done]. apply as_track_on_track.
Qed.

Lemma track_behavior_of_modify_block g i f j : track_behavior_of (modify_block g i f) j = track_behavior_of g j.
Proof.
  unfold track_behavior_of, modify_block. rewrite behavior_of_modify. case_decide; [|done].
  by destruct (behavior_of g j) as [[]|].
Qed.

Lemma block_kind_modify_block g i f j : block_kind (modify_block g i f) j = block_kind g j.
Proof.
  unfold block_kind, modify_block. rewrite behavior_of_modify. case_decide; [|done].
  destruct (behavior_of g j) as [x|]; [|done]. by destruct x.
Qed.

Lemma block_kind_modify_track g i f j : block_kind (modify_track g i f) j = block_kind g j.
Proof.
  unfold block_kind, modify_track. rewrite behavior_of_modify. case_decide; [|done].
  destruct (behavior_of g j) as [x|]; [|done]. by destruct x.
Qed.

Lemma modify_block_block g i f h :
  modify_block (modify_block g i f) i h = modify_block g i (fun c => h (f c)).
Proof.
  unfold modify_block. rewrite modify_modify by done. apply modify_ext.
  intros e _. unfold with_behavior. simpl. by destruct (behavior e).
Qed.

Lemma modify_block_comm g i j f h : i <> j ->
  modify_block (modify_block g i f) j h = modify_block (modify_block g j h) i f.
Proof. intros. by apply modify_comm. Qed.

Lemma modify_track_track g i f h :
  modify_track (modify_track g i f) i h = modify_track g i (fun c => h (f c)).
Proof.
  unfold modify_track. rewrite modify_modify by done. apply modify_ext.
  intros e _. unfold with_behavior. simpl. by destruct (behavior e).
Qed.

(** A node is a block or a track, so these edits always commute. *)
Lemma modify_track_block_comm g i j f h :
  modify_block (modify_track g i f) j h = modify_track (modify_block g j h) i f.
Proof.
  destruct (decide (i = j)) as [->|Hne]; [|by apply modify_comm].
  unfold modify_block, modify_track. rewrite !modify_modify by done. apply modify_ext.
  intros e _. unfold with_behavior. simpl. by destruct (behavior e).
Qed.

Lemma modify_block_id g i f : (forall c, block_core_of g i = Some c -> f c = c) -> modify_block g i f = g.
Proof.
  intros Hf. apply modify_id. intros [co be gen va] He. unfold with_behavior; simpl.
  unfold block_core_of, behavior_of in Hf. rewrite He in Hf. simpl in Hf.
  destruct be as [| | |[]|[]|[]|[]| | | |]; simpl in *; try done; by rewrite Hf.
Qed.

Lemma modify_track_id g i f : (forall tb, track_behavior_of g i = Some tb -> f tb = tb) -> modify_track g i f = g.
Proof.
  intros Hf. apply modify_id. intros [co be gen va] He. unfold with_behavior; simpl.
  unfold track_behavior_of, behavior_of in Hf. rewrite He in Hf. simpl in Hf.
  destruct be; simpl in *; try done; by rewrite Hf.
Qed.

Lemma modify_block_ext g i f h :
  (forall c, block_core_of g i = Some c -> f c = h c) -> modify_block g i f = modify_block g i h.
Proof.
  intros Hf. apply modify_ext. intros [co be gen va] He. unfold with_behavior; simpl.
  unfold block_core_of, behavior_of in Hf. rewrite He in Hf. simpl in Hf.
  destruct be as [| | |[]|[]|[]|[]| | | |]; simpl in *; try done; by rewrite Hf.
Qed.

Lemma modify_track_ext g i f h :
  (forall tb, track_behavior_of g i = Some tb -> f tb = h tb) -> modify_track g i f = modify_track g i h.
Proof.
  intros Hf. apply modify_ext. intros [co be gen va] He. unfold with_behavior; simpl.
  unfold track_behavior_of, behavior_of in Hf. rewrite He in Hf. simpl in Hf.
  destruct be; simpl in *; try done; by rewrite Hf.
Qed.
End lemmas.

(** * Observational equality

    Two graphs that resolve every id to the same entry and have the same edges:
    the arena's free slots and their generations may differ. *)

Section observation.
Context {Ext : Type} `{OtherBehavior Ext} `{InputHash}.
Implicit Types (g : Graph (Behavior Ext)).

Definition graph_equiv g g' : Prop := (forall j, get g j = get g' j) /\ edges g = edges g'.

#[export] Instance graph_equiv_equivalence : Equivalence graph_equiv.
Proof.
  split.
  - by intros g.
  - intros g g' [H1 H2]. split; [intros j; by rewrite H1|done].
  - intros g1 g2 g3 [H1 H2] [H3 H4]. split; [intros j; by rewrite H1|by rewrite H2].
Qed.

#[export] Instance get_proper : Proper (graph_equiv ==> eq ==> eq) get.
Proof. intros g g' [H1 _] i j ->. apply H1. Qed.
#[export] Instance block_core_of_proper : Proper (graph_equiv ==> eq ==> eq) (block_core_of (Ext := Ext)).
Proof. intros g g' Hg i j ->. unfold block_core_of, behavior_of. by rewrite Hg. Qed.
#[export] Instance track_behavior_of_proper : Proper (graph_equiv ==> eq ==> eq) (track_behavior_of (Ext := Ext)).
Proof. intros g g' Hg i j ->. unfold track_behavior_of, behavior_of. by rewrite Hg. Qed.
#[export] Instance block_track_proper : Proper (graph_equiv ==> eq ==> eq) (block_track (Ext := Ext)).
Proof. intros g g' Hg i j ->. unfold block_track. by rewrite Hg. Qed.
#[export] Instance block_length_proper : Proper (graph_equiv ==> eq ==> eq) (block_length (Ext := Ext)).
Proof. intros g g' Hg i j ->. unfold block_length. by rewrite Hg. Qed.
#[export] Instance block_in_proper : Proper (graph_equiv ==> eq ==> eq) (block_in (Ext := Ext)).
Proof. intros g g' Hg i j ->. unfold block_in. by rewrite Hg. Qed.
#[export] Instance block_kind_proper : Proper (graph_equiv ==> eq ==> eq) (block_kind (Ext := Ext)).
Proof. intros g g' Hg i j ->. unfold block_kind, behavior_of. by rewrite Hg. Qed.
#[export] Instance block_previous_proper : Proper (graph_equiv ==> eq ==> eq) (block_previous (Ext := Ext)).
Proof.
  intros g g' Hg i j ->. unfold block_previous. rewrite Hg. destruct (block_core_of g' j) as [c|]; [|done].
  simpl. destruct (track c) as [t|]; [|done]. simpl. by rewrite Hg.
Qed.
#[export] Instance block_next_proper : Proper (graph_equiv ==> eq ==> eq) (block_next (Ext := Ext)).
Proof.
  intros g g' Hg i j ->. unfold block_next. rewrite Hg. destruct (block_core_of g' j) as [c|]; [|done].
  simpl. destruct (track c) as [t|]; [|done]. simpl. by rewrite Hg.
Qed.
#[export] Instance connected_output_proper :
  Proper (graph_equiv ==> eq ==> eq ==> eq ==> eq) (connected_output (B := Behavior Ext)).
Proof. intros g g' [_ Hg] i j -> x y -> u v ->. unfold connected_output. by rewrite Hg. Qed.
End observation.

(** * Track membership *)

Section membership.
Context {Ext : Type} `{OtherBehavior Ext} `{InputHash}.
Implicit Types (g : Graph (Behavior Ext)) (b t i j : NodeId) (l : list NodeId).

(** A track lists exactly the blocks that name it, each once. *)
Definition membership g : Prop := forall t tb, track_behavior_of g t = Some tb ->
  NoDup (blocks tb) /\ forall b, b ∈ blocks tb <-> block_track g b = Some t.

(** The effect every block list edit has: a new list on [t], a new track for [b]. *)
Definition relocate g t b l (x : option NodeId) : Graph (Behavior Ext) :=
  set_block_track (modify_track g t (fun tb => with_blocks tb l)) b x.

Lemma block_track_set g b x j :
  block_track (set_block_track g b x) j =
    if decide (j = b) then _ ← block_core_of g b; x else block_track g j.
Proof.
  unfold block_track, set_block_track. rewrite block_core_of_modify_block.
  case_decide; [|done]. subst. by destruct (block_core_of g b).
Qed.

Lemma block_track_modify_track g t f j : block_track (modify_track g t f) j = block_track g j.
Proof. unfold block_track. by rewrite block_core_of_modify_track. Qed.

Lemma block_track_relocate g t b l x j :
  block_track (relocate g t b l x) j = if decide (j = b) then _ ← block_core_of g b; x else block_track g j.
Proof.
  unfold relocate. rewrite block_track_set, block_core_of_modify_track. case_decide; [done|].
  by rewrite block_track_modify_track.
Qed.

Lemma block_core_of_relocate g t b l x j :
  block_core_of (relocate g t b l x) j =
    if decide (j = b) then (fun c => with_track c x) <$> block_core_of g j else block_core_of g j.
Proof.
  unfold relocate, set_block_track. by rewrite block_core_of_modify_block, block_core_of_modify_track.
Qed.

Lemma track_behavior_of_relocate g t b l x j :
  track_behavior_of (relocate g t b l x) j =
    if decide (j = t) then (fun tb => with_blocks tb l) <$> track_behavior_of g j else track_behavior_of g j.
Proof.
  unfold relocate, set_block_track. by rewrite track_behavior_of_modify_block, track_behavior_of_modify_track.
Qed.

Lemma block_kind_relocate g t b l x j : block_kind (relocate g t b l x) j = block_kind g j.
Proof. unfold relocate, set_block_track. by rewrite block_kind_modify_block, block_kind_modify_track. Qed.

Lemma relocate_relocate g t b l x l' y : relocate (relocate g t b l x) t b l' y = relocate g t b l' y.
Proof.
  unfold relocate, set_block_track.
  rewrite <- modify_track_block_comm, modify_block_block, modify_track_track. done.
Qed.

Lemma relocate_id g t b l x :
  (forall tb, track_behavior_of g t = Some tb -> blocks tb = l) ->
  (forall c, block_core_of g b = Some c -> track c = x) -> relocate g t b l x = g.
Proof.
  intros Ht Hb. unfold relocate, set_block_track.
  rewrite modify_track_id by (intros tb E; rewrite <- (Ht tb E); apply with_blocks_id).
  apply modify_block_id. intros c E. rewrite <- (Hb c E). by destruct c.
Qed.

Lemma membership_ext g g' :
  (forall t, blocks <$> track_behavior_of g' t = blocks <$> track_behavior_of g t) ->
  (forall b, block_track g' b = block_track g b) -> membership g -> membership g'.
Proof.
  intros Ht Hb Hm t tb' Ht'. specialize (Ht t). rewrite Ht' in Ht. simpl in Ht.
  destruct (track_behavior_of g t) as [tb|] eqn:E; [|done]. simpl in Ht. simplify_eq.
  destruct (Hm t tb E) as [Hnd Hin]. rewrite Ht. split; [done|]. intros b. by rewrite Hb.
Qed.

#[export] Instance membership_proper : Proper (graph_equiv ==> iff) membership.
Proof.
  intros g g' Hg. split; apply membership_ext; intros; by rewrite Hg.
Qed.

Lemma attach_membership g t b l tb c : membership g ->
  track_behavior_of g t = Some tb -> block_core_of g b = Some c -> track c = None ->
  l ≡ₚ b :: blocks tb -> membership (relocate g t b l (Some t)).
Proof.
  intros Hm Ht Hb Hc Hl t' tb'. rewrite track_behavior_of_relocate.
  assert (Hbt : block_track g b = None) by (unfold block_track; by rewrite Hb).
  destruct (Hm t tb Ht) as [Hnd Hin].
  assert (Hbn : b ∉ blocks tb) by (rewrite Hin; congruence).
  case_decide as E.
  - subst t'. rewrite Ht. simpl. intros [= <-]. cbn [blocks with_blocks]. split.
    + rewrite Hl. by apply NoDup_cons.
    + intros x. rewrite block_track_relocate, Hl, elem_of_cons, Hin.
      case_decide; [subst; rewrite Hb; simpl; naive_solver|naive_solver].
  - intros Ht'. destruct (Hm t' tb' Ht') as [Hnd' Hin']. split; [done|].
    intros x. rewrite block_track_relocate, Hin'. case_decide; [|done].
    subst. rewrite Hb; simpl. naive_solver congruence.
Qed.

Lemma detach_membership g t b l tb : membership g ->
  track_behavior_of g t = Some tb -> blocks tb ≡ₚ b :: l -> membership (relocate g t b l None).
Proof.
  intros Hm Ht Hl t' tb'. rewrite track_behavior_of_relocate.
  destruct (Hm t tb Ht) as [Hnd Hin]. rewrite Hl in Hnd. apply NoDup_cons in Hnd as [Hbl Hnd].
  case_decide as E.
  - subst t'. rewrite Ht. simpl. intros [= <-]. cbn [blocks with_blocks]. split; [done|].
    intros x. rewrite block_track_relocate. specialize (Hin x). rewrite Hl, elem_of_cons in Hin.
    case_decide; [|naive_solver]. subst. split; [done|]. by destruct (block_core_of g b).
  - intros Ht'. destruct (Hm t' tb' Ht') as [Hnd' Hin']. split; [done|].
    intros x. rewrite block_track_relocate, Hin'. case_decide; [|done].
    subst. assert (Hbt : block_track g b = Some t) by (apply Hin; rewrite Hl; apply elem_of_cons; by left).
    rewrite Hbt. split; [congruence|]. by destruct (block_core_of g b).
Qed.

(** The edits as relocations. *)
Lemma update_track_live g t tb f : track_behavior_of g t = Some tb ->
  update_track g t f = (modify_track g t (fun _ => (f tb).1), (f tb).2).
Proof.
  intros Ht. unfold update_track. rewrite Ht. f_equal. apply modify_track_ext. intros tb' E. congruence.
Qed.

Lemma update_track_relocate g t tb b x l f :
  track_behavior_of g t = Some tb -> f tb = (with_blocks tb l, true) ->
  (let '(g', ok) := update_track g t f in if ok then set_block_track g' b x else g') = relocate g t b l x.
Proof.
  intros Ht Hf. rewrite (update_track_live _ _ tb) by done. rewrite Hf. cbn [fst snd].
  unfold relocate. f_equal. apply modify_track_ext. intros tb' E. congruence.
Qed.

Lemma track_append_block_eq g t tb b : track_behavior_of g t = Some tb ->
  track_append_block g t b = relocate g t b (blocks tb ++ [b]) (Some t).
Proof. intros Ht. by apply (update_track_relocate g t tb b). Qed.

Lemma track_prepend_block_eq g t tb b : track_behavior_of g t = Some tb ->
  track_prepend_block g t b = relocate g t b (b :: blocks tb) (Some t).
Proof. intros Ht. by apply (update_track_relocate g t tb b). Qed.

Lemma track_insert_block_after_eq g t tb b p l1 l2 : track_behavior_of g t = Some tb ->
  blocks tb = l1 ++ p :: l2 -> p ∉ l1 ->
  track_insert_block_after g t b (Some p) = relocate g t b (l1 ++ p :: b :: l2) (Some t).
Proof. intros Ht E Hp. apply (update_track_relocate g t tb b); [done|]. by apply insert_block_after_spec. Qed.

Lemma track_insert_block_first_eq g t tb b : track_behavior_of g t = Some tb ->
  track_insert_block_after g t b None = relocate g t b (b :: blocks tb) (Some t).
Proof. intros Ht. by apply (update_track_relocate g t tb b). Qed.

Lemma track_insert_block_before_eq g t tb b p l1 l2 : track_behavior_of g t = Some tb ->
  blocks tb = l1 ++ p :: l2 -> p ∉ l1 ->
  track_insert_block_before g t b p = relocate g t b (l1 ++ b :: p :: l2) (Some t).
Proof. intros Ht E Hp. apply (update_track_relocate g t tb b); [done|]. by apply insert_block_before_spec. Qed.

Lemma track_ripple_remove_block_eq g t tb b l1 l2 : track_behavior_of g t = Some tb ->
  blocks tb = l1 ++ b :: l2 -> b ∉ l1 -> b ∉ l2 ->
  track_ripple_remove_block g t b = relocate g t b (l1 ++ l2) None.
Proof. intros Ht E H1 H2. apply (update_track_relocate g t tb b); [done|]. by apply remove_block_middle. Qed.

Lemma track_replace_block_eq g t tb old new_ l1 l2 : track_behavior_of g t = Some tb ->
  blocks tb = l1 ++ old :: l2 -> old ∉ l1 ->
  track_replace_block g t old new_ =
    relocate (relocate g t old (l1 ++ l2) None) t new_ (l1 ++ new_ :: l2) (Some t).
Proof.
  intros Ht E H1. unfold track_replace_block. rewrite (update_track_live _ _ tb) by done.
  rewrite (replace_block_spec tb old new_ l1 l2) by done. cbn [fst snd].
  unfold relocate, set_block_track. rewrite <- !modify_track_block_comm, modify_track_track.
  f_equal. f_equal. apply modify_track_ext. intros tb' E'. simplify_eq; done.
Qed.

(** Position of a member. *)
Lemma membership_split g t tb b : membership g -> track_behavior_of g t = Some tb -> block_track g b = Some t ->
  exists l1 l2, blocks tb = l1 ++ b :: l2 /\ (b ∉ l1) /\ (b ∉ l2).
Proof. intros Hm Ht Hb. destruct (Hm t tb Ht) as [Hnd Hin]. apply NoDup_split; [done|by apply Hin]. Qed.
End membership.

(** * Membership is an invariant *)

Section track_steps.
Context {Ext : Type} `{OtherBehavior Ext} `{InputHash}.
Implicit Types (g : Graph (Behavior Ext)) (b t p : NodeId).

(** A block that is in the graph and on no track. *)
Definition detached g b : Prop := exists c, block_core_of g b = Some c /\ track c = None.

Inductive track_step g : Graph (Behavior Ext) -> Prop :=
| step_gap : has_room g -> track_step g (block_gap_create g).1
| step_clip : has_room g -> track_step g (block_clip_create g).1
| step_track k : has_room g -> (forall b, block_track g b <> Some (track_create g k).2) ->
    track_step g (track_create g k).1
| step_append t b : detached g b -> track_step g (track_append_block g t b)
| step_prepend t b : detached g b -> track_step g (track_prepend_block g t b)
| step_insert_after t b before : detached g b -> track_step g (track_insert_block_after g t b before)
| step_insert_before t b p : detached g b -> track_step g (track_insert_block_before g t b p)
| step_replace t old b : detached g b -> track_step g (track_replace_block g t old b)
| step_remove t b : track_step g (track_ripple_remove_block g t b)
| step_span b f : (forall c, track (f c) = track c) -> track_step g (modify_block g b f).

Lemma arena_wf_modify_block g i f : arena_wf g -> arena_wf (modify_block g i f).
Proof. apply arena_wf_modify_slot, with_behavior_keeping. Qed.
Lemma arena_wf_modify_track g i f : arena_wf g -> arena_wf (modify_track g i f).
Proof. apply arena_wf_modify_slot, with_behavior_keeping. Qed.
Lemma arena_wf_relocate g t b l x : arena_wf g -> arena_wf (relocate g t b l x).
Proof. intros. by apply arena_wf_modify_block, arena_wf_modify_track. Qed.

(** A new block is on no track and no track lists it. *)
Lemma create_block_membership g c x bc : arena_wf g -> has_room g -> membership g ->
  as_block x = Some bc -> track bc = None ->
  arena_wf (add_node g c x).1 /\ membership (add_node g c x).1.
Proof.
  intros Hwf Hroom Hm Hx Hbc. pose proof (allocate_spec g c x Hwf Hroom) as Ha.
  unfold add_node. destruct (allocate g c x) as [g' n]. cbn [fst].
  destruct Ha as (Hwf' & _ & _ & _ & Hn & Hget). split; [done|].
  assert (Htr : forall t tb, track_behavior_of g' t = Some tb -> track_behavior_of g t = Some tb).
  { intros t tb. unfold track_behavior_of, behavior_of. rewrite Hget. case_decide; [|done].
    simpl. by destruct x. }
  intros t tb Ht. apply Htr in Ht. destruct (Hm t tb Ht) as [Hnd Hin]. split; [done|].
  intros b. rewrite Hin. unfold block_track, block_core_of, behavior_of. rewrite Hget.
  case_decide; [|done]. subst. rewrite Hn. simpl. rewrite Hx. simpl. rewrite Hbc. done.
Qed.

Lemma create_track_membership g k : arena_wf g -> has_room g -> membership g ->
  (forall b, block_track g b <> Some (track_create g k).2) ->
  arena_wf (track_create g k).1 /\ membership (track_create g k).1.
Proof.
  intros Hwf Hroom Hm. unfold track_create, add_node.
  set (x := BTrack (TrackBehavior_new k)).
  pose proof (allocate_spec g NodeCore_new x Hwf Hroom) as Ha.
  destruct (allocate g NodeCore_new x) as [g' n]. cbn [fst snd]. intros Hfresh.
  destruct Ha as (Hwf' & _ & _ & _ & Hn & Hget). split; [done|].
  assert (Hb : forall b, block_track g' b = block_track g b).
  { intros b. unfold block_track, block_core_of, behavior_of. rewrite Hget.
    case_decide; [|done]. subst. by rewrite Hn. }
  intros t tb. unfold track_behavior_of, behavior_of. rewrite Hget. case_decide.
  - subst t. simpl. intros [= <-]. split; [apply NoDup_nil_2|]. intros b. rewrite Hb. split; [|naive_solver].
    intros E. by apply elem_of_nil in E.
  - intros Ht. destruct (Hm t tb Ht) as [Hnd Hin]. split; [done|]. intros b. by rewrite Hb.
Qed.

Lemma update_track_none g t b x f :
  track_behavior_of g t = None \/ (forall tb, track_behavior_of g t = Some tb -> f tb = (tb, false)) ->
  (let '(g', ok) := update_track g t f in if ok then set_block_track g' b x else g') = g.
Proof.
  intros [E|E]; unfold update_track; [by rewrite E|].
  destruct (track_behavior_of g t) as [tb|] eqn:Ht; [|done].
  rewrite (E tb eq_refl). cbn [snd]. apply modify_track_id. intros tb' Ht'.
  rewrite Ht in Ht'. simplify_eq. by rewrite (E tb' eq_refl).
Qed.

(** Shared shape of the insertions. *)
Lemma insertion_membership g t b f : membership g -> detached g b ->
  (forall tb, track_behavior_of g t = Some tb ->
     f tb = (tb, false) \/ exists l, f tb = (with_blocks tb l, true) /\ l ≡ₚ b :: blocks tb) ->
  arena_wf g ->
  let g' := (let '(g', ok) := update_track g t f in if ok then set_block_track g' b (Some t) else g') in
  arena_wf g' /\ membership g'.
Proof.
  intros Hm (c & Hb & Hc) Hf Hwf.
  destruct (track_behavior_of g t) as [tb|] eqn:Ht.
  - destruct (Hf tb eq_refl) as [E|(l & E & Hl)].
    + rewrite update_track_none; [done|]. right. intros tb' Ht'. rewrite Ht in Ht'. by simplify_eq.
    + rewrite (update_track_relocate g t tb b _ l) by done.
      split; [by apply arena_wf_relocate|by eapply attach_membership].
  - rewrite update_track_none; [done|by left].
Qed.

Lemma track_step_keeps g g' : arena_wf g -> membership g -> track_step g g' ->
  arena_wf g' /\ membership g'.
Proof.
  intros Hwf Hm Hs. destruct Hs as [Hr|Hr|k Hr Hfresh|t b Hd|t b Hd|t b p Hd|t b p Hd|t old b Hd|t b|b f Hf].
  - by eapply create_block_membership.
  - by eapply create_block_membership.
  - by apply create_track_membership.
  - apply insertion_membership; try done. intros tb _. right. eexists. split; [done|].
    symmetry. apply Permutation_cons_append.
  - apply insertion_membership; try done. intros tb _. right. eexists. split; [done|].
    apply vec_insert_Permutation.
  - apply insertion_membership; try done. intros tb _. destruct p as [p'|].
    + unfold insert_block_after. destruct (block_index tb p'); [right|by left].
      eexists. split; [done|]. apply vec_insert_Permutation.
    + right. eexists. split; [done|]. apply vec_insert_Permutation.
  - apply insertion_membership; try done. intros tb _. unfold insert_block_before.
    destruct (block_index tb p); [right|by left]. eexists. split; [done|]. apply vec_insert_Permutation.
  - destruct (track_behavior_of g t) as [tb|] eqn:Ht.
    + destruct (decide (old ∈ blocks tb)) as [Hin|Hout].
      * destruct (Hm t tb Ht) as [Hnd Hmem]. destruct Hd as (c & Hb & Hc).
        destruct (NoDup_split old (blocks tb) Hnd Hin) as (l1 & l2 & E & H1 & H2).
        rewrite (track_replace_block_eq g t tb old b l1 l2) by done.
        assert (Hob : b <> old).
        { intros ->. apply Hmem in Hin. unfold block_track in Hin. rewrite Hb in Hin. simpl in Hin. congruence. }
        split; [by do 2 apply arena_wf_relocate|].
        eapply attach_membership; [| | |done|].
        -- eapply detach_membership; [done|done|]. by rewrite E, Permutation_middle.
        -- by rewrite track_behavior_of_relocate, decide_True, Ht by done.
        -- by rewrite block_core_of_relocate, decide_False, Hb by done.
        -- cbn [blocks with_blocks]. by rewrite Permutation_middle.
      * assert (E : track_replace_block g t old b = g); [|by rewrite E].
        unfold track_replace_block. rewrite (update_track_live _ _ tb) by done.
        rewrite replace_block_absent by done. cbn [fst snd].
        apply modify_track_id. intros tb' Ht'. rewrite Ht in Ht'. by simplify_eq.
    + assert (E : track_replace_block g t old b = g); [|by rewrite E].
      unfold track_replace_block, update_track. by rewrite Ht.
  - assert (Hcase : track_ripple_remove_block g t b = g \/
      exists tb l1 l2, track_behavior_of g t = Some tb /\ blocks tb = l1 ++ b :: l2 /\
        track_ripple_remove_block g t b = relocate g t b (l1 ++ l2) None).
    { destruct (track_behavior_of g t) as [tb|] eqn:Ht; [|left; by apply update_track_none; left].
      destruct (decide (b ∈ blocks tb)) as [Hin|Hout].
      - destruct (Hm t tb Ht) as [Hnd _].
        destruct (NoDup_split b (blocks tb) Hnd Hin) as (l1 & l2 & E & H1 & H2).
        right. exists tb, l1, l2. split; [done|]. split; [done|]. by eapply track_ripple_remove_block_eq.
      - left. apply update_track_none. right. intros tb' Ht'. rewrite Ht in Ht'. simplify_eq.
        by apply remove_block_absent. }
    destruct Hcase as [->|(tb & l1 & l2 & Ht & E & ->)]; [done|].
    split; [by apply arena_wf_relocate|]. eapply detach_membership; [done|done|].
    by rewrite E, Permutation_middle.
  - split; [by apply arena_wf_modify_block|]. intros t tb. rewrite track_behavior_of_modify_block.
    intros Ht. destruct (Hm t tb Ht) as [Hnd Hin]. split; [done|]. intros x. rewrite Hin.
    unfold block_track. rewrite block_core_of_modify_block. case_decide; [|done].
    destruct (block_core_of g x); [|done]. simpl. by rewrite Hf.
Qed.

(** The neighbours of a listed block are its neighbours in the list. *)
Lemma neighbours_at g t tb i b : membership g ->
  track_behavior_of g t = Some tb -> blocks tb !! i = Some b ->
  block_next g b = blocks tb !! S i /\
  block_previous g b = match i with O => None | S k => blocks tb !! k end.
Proof.
  intros Hm Ht Hi. destruct (Hm t tb Ht) as [Hnd Hin].
  assert (Hbt : block_track g b = Some t) by (apply Hin; by eapply list_elem_of_lookup_2).
  unfold block_track in Hbt. unfold block_next, block_previous.
  destruct (block_core_of g b) as [cb|]; [|done]. simpl in *. rewrite Hbt. simpl. rewrite Ht. simpl.
  destruct (index_of_elem b (blocks tb)) as [k Hk]; [by eapply list_elem_of_lookup_2|].
  rewrite Hk. simpl. apply index_of_Some in Hk as [Hk _].
  assert (k = i) as -> by (eapply NoDup_lookup; done). by rewrite Nat.add_1_r.
Qed.

(** Only a block listed on its track has neighbours. *)
Lemma neighbours_listed g b : membership g ->
  (exists t tb i, track_behavior_of g t = Some tb /\ blocks tb !! i = Some b /\ block_track g b = Some t) \/
  (block_track g b ≫= track_behavior_of g = None /\ block_next g b = None /\ block_previous g b = None).
Proof.
  intros Hm. unfold block_next, block_previous, block_track.
  destruct (block_core_of g b) as [c|] eqn:Hb; simpl; [|by right].
  destruct (track c) as [t|] eqn:Hc; simpl; [|by right].
  destruct (track_behavior_of g t) as [tb|] eqn:Ht; simpl; [|by right].
  destruct (Hm t tb Ht) as [Hnd Hin].
  assert (b ∈ blocks tb) as Hl by (apply Hin; unfold block_track; by rewrite Hb).
  apply list_elem_of_lookup in Hl as [i Hi]. left. by exists t, tb, i.
Qed.

Lemma next_previous g a b : membership g -> block_next g a = Some b <-> block_previous g b = Some a.
Proof.
  intros Hm. split; intros Hn.
  - destruct (neighbours_listed g a Hm) as [(t & tb & i & Ht & Hi & _)|(_ & E & _)]; [|congruence].
    destruct (neighbours_at g t tb i a Hm Ht Hi) as [E _]. rewrite E in Hn.
    by rewrite (proj2 (neighbours_at g t tb (S i) b Hm Ht Hn)).
  - destruct (neighbours_listed g b Hm) as [(t & tb & i & Ht & Hi & _)|(_ & _ & E)]; [|congruence].
    destruct (neighbours_at g t tb i b Hm Ht Hi) as [_ E]. rewrite E in Hn. destruct i as [|i]; [done|].
    by rewrite (proj1 (neighbours_at g t tb i a Hm Ht Hn)).
Qed.

(** C30: across any sequence of block creations, block list edits and span
    edits in which only blocks that are on no track are inserted and a new
    track's id is one that no block names, every track lists exactly the blocks that name it as their track, each once.  The
    neighbours of a block are then its neighbours in that list: the block at
    position [i] is followed by the one at [i+1], if any, and preceded by the
    one at [i-1], if any; a block whose track does not exist has none; so
    [block_next] and [block_previous] are inverse. *)
Theorem track_membership_invariant g g' (Hwf : arena_wf g) (Hm : membership g)
  (Hs : rtc (fun x y => track_step x y) g g') :
  membership g' /\
  (forall t tb i b, track_behavior_of g' t = Some tb -> blocks tb !! i = Some b ->
     block_track g' b = Some t /\ block_next g' b = blocks tb !! S i /\
     block_previous g' b = match i with O => None | S k => blocks tb !! k end) /\
  (forall b, block_track g' b ≫= track_behavior_of g' = None ->
     block_next g' b = None /\ block_previous g' b = None) /\
  (forall a b, block_next g' a = Some b <-> block_previous g' b = Some a) /\
  (forall a b, block_next g' a = Some b ->
     is_Some (t ← block_track g' a; track_behavior_of g' t) /\ block_track g' b = block_track g' a).
Proof.
  assert (Hinv : arena_wf g' /\ membership g').
  { induction Hs as [x|x y z Hxy _ IH]; [done|]. destruct (track_step_keeps x y Hwf Hm Hxy). by apply IH. }
  clear Hwf Hm Hs. destruct Hinv as [Hwf Hm]. split; [done|].
  assert (Hon : forall t tb i b, track_behavior_of g' t = Some tb -> blocks tb !! i = Some b ->
    block_track g' b = Some t).
  { intros t tb i b Ht Hi. apply (Hm t tb Ht). by eapply list_elem_of_lookup_2. }
  split; [|split; [|split]].
  - intros t tb i b Ht Hi. split; [by eapply Hon|by eapply neighbours_at].
  - intros b Hb. destruct (neighbours_listed g' b Hm) as [(t & tb & i & Ht & _ & Hbt)|(_ & H1 & H2)]; [|done].
    rewrite Hbt in Hb. simpl in Hb. congruence.
  - intros a b. by apply next_previous.
  - intros a b Hn. destruct (neighbours_listed g' a Hm) as [(t & tb & i & Ht & Hi & Hat)|(_ & E & _)]; [|congruence].
    rewrite Hat. simpl. rewrite Ht. split; [by eexists|].
    rewrite (proj1 (neighbours_at g' t tb i a Hm Ht Hi)) in Hn. by eapply Hon.
Qed.
End track_steps.

(** * Nearest blocks *)

Section nearest.
Context {Ext : Type} `{OtherBehavior Ext} `{InputHash}.
Implicit Types (g : Graph (Behavior Ext)) (b : NodeId) (l : list NodeId) (time : Rational).

(** The blocks of the list in time order, each a proper finite span. *)
Inductive ordered g : list NodeId -> Prop :=
| ordered_nil : ordered g []
| ordered_cons b l c :
    block_core_of g b = Some c -> finite (BlockCore_in c) -> finite (BlockCore_out c) ->
    (val (BlockCore_in c) < val (BlockCore_out c))%Q ->
    (forall b', b' ∈ l -> (val (BlockCore_out c) <= val (block_in g b'))%Q) ->
    ordered g l -> ordered g (b :: l).

Definition starts_by g time b : bool := leb (block_in g b) time.
Definition ends_after g time b : bool := ltb time (block_out g b).

Lemma block_in_core g b c : block_core_of g b = Some c -> block_in g b = BlockCore_in c.
Proof. unfold block_in. by intros ->. Qed.
Lemma block_out_core g b c : block_core_of g b = Some c -> block_out g b = BlockCore_out c.
Proof. unfold block_out. by intros ->. Qed.

Lemma ordered_starts g b l : ordered g l -> b ∈ l -> finite (block_in g b).
Proof.
  induction 1 as [|x l c Hc Hi Ho Hlt Hrest Hord IH]; intros Hb; [by apply elem_of_nil in Hb|].
  apply elem_of_cons in Hb as [->|Hb]; [by rewrite (block_in_core _ _ _ Hc)|by apply IH].
Qed.

Lemma retain_none {A} (p : A -> bool) (xs : list A) : (forall x, x ∈ xs -> p x = false) -> retain p xs = [].
Proof.
  induction xs as [|x xs IH]; intros Hp; [done|]. rewrite retain_cons, Hp by (apply elem_of_cons; by left).
  apply IH. intros y Hy. apply Hp. apply elem_of_cons. by right.
Qed.

Lemma nearest_before_spec g time l before : ordered g l -> finite time ->
  nearest_before g time before l =
    match list.last (retain (starts_by g time) l) with Some b => Some b | None => before end.
Proof.
  intros Hord Ht. revert before.
  induction Hord as [|b l c Hc Hi Ho Hlt Hrest Hord IH]; intros before; [done|].
  cbn [nearest_before]. rewrite Hc. unfold covers_time.
  rewrite retain_cons. unfold starts_by at 1. rewrite (block_in_core _ _ _ Hc).
  destruct (leb_spec (BlockCore_in c) time Hi Ht) as [Hle|Hgt]; cbn [andb].
  - destruct (ltb_spec time (BlockCore_out c) Ht Ho) as [Hin|Hout].
    + rewrite (retain_none _ l); [done|]. intros x Hx. unfold starts_by.
      apply not_true_iff_false. rewrite leb_val by (try done; by eapply ordered_starts).
      specialize (Hrest x Hx). lra.
    + rewrite IH, (proj2 (leb_val _ _ Ho Ht) Hout), list.last_cons. by destruct (list.last _).
  - rewrite IH. assert (leb (BlockCore_out c) time = false) as ->; [|done].
    apply not_true_iff_false. rewrite leb_val by done. lra.
Qed.

Lemma nearest_after_spec g time l : ordered g l -> finite time ->
  nearest_after g time l = find (ends_after g time) l.
Proof.
  intros Hord Ht. induction Hord as [|b l c Hc Hi Ho Hlt Hrest Hord IH]; [done|].
  cbn [nearest_after]. rewrite Hc. unfold covers_time, find at 1. cbn [List.find].
  unfold ends_after at 1. rewrite (block_out_core _ _ _ Hc).
  destruct (ltb_spec time (BlockCore_out c) Ht Ho) as [Hin|Hout].
  - rewrite andb_true_r. destruct (leb_spec (BlockCore_in c) time Hi Ht) as [Hle|Hgt]; [done|].
    rewrite (proj2 (leb_val _ _ Ht Hi)); [done|lra].
  - rewrite andb_false_r. assert (leb time (BlockCore_in c) = false) as ->; [|done].
    apply not_true_iff_false. rewrite leb_val by done. lra.
Qed.

(** C31: on a track whose blocks are in time order, gaps between them allowed,
    the nearest block before or at a time is the last one that starts by then,
    the nearest after or at it the first one that ends after it; they are the
    same block exactly when a block is visible at that time. *)
Theorem nearest_block_queries g t tb time (Ht : track_behavior_of g t = Some tb)
  (Hord : ordered g (blocks tb)) (Htime : finite time) :
  track_nearest_block_before_or_at g t time = list.last (retain (starts_by g time) (blocks tb)) /\
  track_nearest_block_after_or_at g t time = find (ends_after g time) (blocks tb) /\
  (forall b, visible_block_at_time tb time (graph_block_range g) = Some b ->
     track_nearest_block_before_or_at g t time = Some b /\
     track_nearest_block_after_or_at g t time = Some b).
Proof.
  assert (Eb : track_nearest_block_before_or_at g t time = list.last (retain (starts_by g time) (blocks tb))).
  { unfold track_nearest_block_before_or_at. rewrite Ht. simpl. rewrite nearest_before_spec by done.
    by destruct (list.last _). }
  assert (Ea : track_nearest_block_after_or_at g t time = find (ends_after g time) (blocks tb)).
  { unfold track_nearest_block_after_or_at. rewrite Ht. simpl. by apply nearest_after_spec. }
  split; [done|]. split; [done|]. clear Ht. intros b Hb. rewrite Eb, Ea. clear Ea Eb.
  unfold visible_block_at_time in Hb. revert Hb. generalize (blocks tb) Hord. clear Hord tb.
  intros l Hord. induction Hord as [|x l c Hc Hi Ho Hlt Hrest Hord IH]; [done|].
  unfold find. cbn [List.find]. unfold br_contains, ends_after; cbn [br_in br_out graph_block_range].
  rewrite retain_cons. unfold starts_by at 1. unfold block_out at 1. rewrite (block_in_core _ _ _ Hc), Hc.
  cbn [from_option].
  destruct (leb_spec (BlockCore_in c) time Hi Htime) as [Hle|Hgt]; cbn [andb].
  - destruct (ltb_spec time (BlockCore_out c) Htime Ho) as [Hin|Hout].
    + intros [= <-]. split; [|done]. rewrite (retain_none _ l); [done|]. intros y Hy. unfold starts_by.
      apply not_true_iff_false. rewrite leb_val by (try done; by eapply ordered_starts).
      specialize (Hrest y Hy). lra.
    + intros Hb. destruct (IH Hb) as [E1 E2]. split; [|done]. by rewrite list.last_cons, E1.
  - intros Hb. destruct (IH Hb) as [E1 E2]. split; [done|].
    apply find_Some_elem in Hb as [Hin Hb]. specialize (Hrest b Hin).
    unfold br_contains in Hb. apply andb_true_iff in Hb as [Hb _].
    pose proof (ordered_starts g b l Hord Hin) as Fb. apply leb_val in Hb; [|done..].
    unfold block_in in Hrest. cbn [br_in graph_block_range] in Hb. lra.
Qed.
End nearest.

(** * A concrete timeline *)

(** No other node types; input ids hashed by their length. *)
#[local] Instance no_others : OtherBehavior Empty_set := {|
  other_type_id := fun o : Empty_set => match o with end;
  other_duplicate := fun (o : Empty_set) _ => match o with end
|}.
#[local] Instance length_hash_ : InputHash := fun s => Z.of_nat (String.length s).

(** A track with a clip at [0, 1), a gap at [1, 3) and a clip at [5, 6). *)
Definition demo_timeline : Graph (Behavior Empty_set) := Eval vm_compute in
  let '(g, t) := track_create Graph_new Video in
  let '(g, a) := block_clip_create g in
  let '(g, b) := block_gap_create g in
  let '(g, c) := block_clip_create g in
  let g := track_append_block (track_append_block (track_append_block g t a) t b) t c in
  let g := block_set_range g b (mkTimeRange (new 1 1) (new 3 1)) in
  block_set_range g c (mkTimeRange (new 5 1) (new 6 1)).

Definition node_at (i : N) : NodeId := mkNodeId i 0.

Lemma behavior_of_new i : behavior_of (Graph_new : Graph (Behavior Empty_set)) i = None.
Proof. unfold behavior_of, get, is_valid. by rewrite andb_false_r. Qed.

Lemma membership_new : membership (Graph_new : Graph (Behavior Empty_set)).
Proof. intros t tb. unfold track_behavior_of. by rewrite behavior_of_new. Qed.

Lemma track_membership_invariant_witness :
  let g0 : Graph (Behavior Empty_set) := Graph_new in
  let g1 := (track_create g0 Video).1 in
  let g2 := (block_gap_create g1).1 in
  let g3 := (block_clip_create g2).1 in
  let g4 := track_append_block g3 (node_at 0) (node_at 1) in
  let g5 := track_insert_block_after g4 (node_at 0) (node_at 2) (Some (node_at 1)) in
  block_next g5 (node_at 1) = Some (node_at 2) /\ block_next g5 (node_at 2) = None /\
  membership g5 /\ (forall a b, block_next g5 a = Some b <-> block_previous g5 b = Some a).
Proof.
  cbv zeta. split; [vm_compute; reflexivity|]. split; [vm_compute; reflexivity|].
  refine ((fun H => conj (proj1 H) (proj1 (proj2 (proj2 (proj2 H)))))
    (track_membership_invariant Graph_new _ arena_wf_new _ _)).
  - apply membership_new.
  - eapply rtc_l; [apply (step_track _ Video); [by right|]|].
    { intros b. unfold block_track, block_core_of. by rewrite behavior_of_new. }
    eapply rtc_l; [apply step_gap; by right|].
    eapply rtc_l; [apply step_clip; by right|].
    eapply rtc_l; [apply (step_append _ (node_at 0) (node_at 1)); eexists; split; [vm_compute; reflexivity|reflexivity]|].
    eapply rtc_l; [|apply rtc_refl].
    apply (step_insert_after _ (node_at 0) (node_at 2) (Some (node_at 1))); eexists; split; [vm_compute; reflexivity|reflexivity].
Defined.

Lemma nearest_block_queries_witness :
  track_nearest_block_before_or_at demo_timeline (node_at 0) (new 4 1) = Some (node_at 2) /\
  track_nearest_block_after_or_at demo_timeline (node_at 0) (new 4 1) = Some (node_at 3) /\
  track_nearest_block_after_or_at demo_timeline (node_at 0) (new 2 1) =
    find (ends_after demo_timeline (new 2 1)) [node_at 1; node_at 2; node_at 3].
Proof.
  split; [vm_compute; reflexivity|]. split; [vm_compute; reflexivity|].
  refine (proj1 (proj2 (nearest_block_queries demo_timeline (node_at 0)
    (mkTrack Video [node_at 1; node_at 2; node_at 3] false false DEFAULT_HEIGHT_INTERNAL 0 None)
    (new 2 1) _ _ _))).
  - vm_compute; reflexivity.
  - repeat (eapply ordered_cons;
      [vm_compute; reflexivity|by split; [right; vm_compute|]|by split; [right; vm_compute|]|done| |]);
      try apply ordered_nil.
    all: intros b' Hb'; rewrite ?elem_of_cons, ?elem_of_nil in Hb'.
    all: repeat destruct Hb' as [->|Hb']; try done.
  - by split; [right; vm_compute|].
Defined.
