(* ===== verification/TrackCommands.v ===== *)
(** Node removal and block list commands (crates/oak-timeline/src/
    {undocommon,undotrack}.rs) as instances of the undo system's [Command]
    interface over the graph, and the proof that they swing the graph between
    two states. *)

From S2P Require Import Prelude Rational TimeRange Undo Ids Value Keyframe NodeCore Graph Arena Dag Block Track Timeline.

Local Open Scope Z_scope.

Section commands.
Context {Ext : Type} `{OtherBehavior Ext} `{InputHash}.
Abbreviation G := (Graph (Behavior Ext)).
Implicit Types (g : Graph (Behavior Ext)) (b t p : NodeId).

(** * Removing nodes *)

Record RemoveNodeCommand : Type := mkRemoveNode {
  rn_node : NodeId; rn_entry : option (NodeEntry (Behavior Ext)) }.

Definition RemoveNodeCommand_new (n : NodeId) : RemoveNodeCommand := mkRemoveNode n None.

Definition RemoveNodeCommand_redo (c : RemoveNodeCommand) (g : G) : RemoveNodeCommand * G :=
  match rn_entry c with
  | None => let '(g, e) := block_remove_from_graph g (rn_node c) in (mkRemoveNode (rn_node c) e, g)
  | Some _ => (c, g)
  end.

Definition RemoveNodeCommand_undo (c : RemoveNodeCommand) (g : G) : RemoveNodeCommand * G :=
  match rn_entry c with
  | Some e => (mkRemoveNode (rn_node c) None, block_add_to_graph g (rn_node c) (Some e))
  | None => (c, g)
  end.

#[export] Instance RemoveNodeCommand_command : Command RemoveNodeCommand G := {|
  redo := RemoveNodeCommand_redo; undo := RemoveNodeCommand_undo |}.

Definition node_can_be_removed (g : G) (n : NodeId) : bool :=
  match output_connections g n with [] => true | _ => false end.
Definition block_can_be_removed (g : G) (b : NodeId) : bool := node_can_be_removed g b.

Definition create_remove_command (n : NodeId) : @UndoCommand G := UndoCommand_new (RemoveNodeCommand_new n).
Definition create_block_remove_command (b : NodeId) : @UndoCommand G := create_remove_command b.
Definition create_and_run_remove_command (n : NodeId) (g : G) : @UndoCommand G * G :=
  redo_now (create_remove_command n) g.

(** * Groups of boxed commands *)

(** [Box<dyn Command>]. *)
Record DynCommand : Type := mkDyn {
  dyn_type : Type; dyn_state : dyn_type;
  dyn_redo : dyn_type -> G -> dyn_type * G; dyn_undo : dyn_type -> G -> dyn_type * G }.

Definition box {C : Type} `{Command C G} (c : C) : DynCommand := mkDyn C c redo undo.

Definition run_redo (d : DynCommand) (g : G) : DynCommand * G :=
  let '(s, g) := dyn_redo d (dyn_state d) g in (mkDyn (dyn_type d) s (dyn_redo d) (dyn_undo d), g).
Definition run_undo (d : DynCommand) (g : G) : DynCommand * G :=
  let '(s, g) := dyn_undo d (dyn_state d) g in (mkDyn (dyn_type d) s (dyn_redo d) (dyn_undo d), g).

Record MultiUndoCommand : Type := mkMultiUndo { children : list DynCommand }.

Definition MultiUndoCommand_new : MultiUndoCommand := mkMultiUndo [].
Definition add_child (m : MultiUndoCommand) (d : DynCommand) : MultiUndoCommand :=
  mkMultiUndo (children m ++ [d]).
Definition multi_empty (m : MultiUndoCommand) : bool := match children m with [] => true | _ => false end.

(** Children in order, and in reverse. *)
Fixpoint redo_all (ds : list DynCommand) (g : G) : list DynCommand * G :=
  match ds with
  | [] => ([], g)
  | d :: ds => let '(d, g) := run_redo d g in let '(ds, g) := redo_all ds g in (d :: ds, g)
  end.
Fixpoint undo_all (ds : list DynCommand) (g : G) : list DynCommand * G :=
  match ds with
  | [] => ([], g)
  | d :: ds => let '(ds, g) := undo_all ds g in let '(d, g) := run_undo d g in (d :: ds, g)
  end.

#[export] Instance MultiUndoCommand_command : Command MultiUndoCommand G := {|
  redo m g := let '(ds, g) := redo_all (children m) g in (mkMultiUndo ds, g);
  undo m g := let '(ds, g) := undo_all (children m) g in (mkMultiUndo ds, g)
|}.

(** * Block list commands *)

Record TrackRippleRemoveBlockCommand : Type := mkTrackRippleRemove {
  rr_track : NodeId; rr_block : NodeId; rr_before : option NodeId }.

Definition TrackRippleRemoveBlockCommand_new (t b : NodeId) : TrackRippleRemoveBlockCommand :=
  mkTrackRippleRemove t b None.

Definition TrackRippleRemoveBlockCommand_redo (c : TrackRippleRemoveBlockCommand) (g : G) :=
  let c := mkTrackRippleRemove (rr_track c) (rr_block c) (block_previous g (rr_block c)) in
  (c, track_ripple_remove_block g (rr_track c) (rr_block c)).
Definition TrackRippleRemoveBlockCommand_undo (c : TrackRippleRemoveBlockCommand) (g : G) :=
  (c, track_insert_block_after g (rr_track c) (rr_block c) (rr_before c)).

#[export] Instance TrackRippleRemoveBlockCommand_command : Command TrackRippleRemoveBlockCommand G := {|
  redo := TrackRippleRemoveBlockCommand_redo; undo := TrackRippleRemoveBlockCommand_undo |}.

Record TrackPrependBlockCommand : Type := mkTrackPrepend { pb_track : NodeId; pb_block : NodeId }.

Definition TrackPrependBlockCommand_redo (c : TrackPrependBlockCommand) (g : G) :=
  (c, track_prepend_block g (pb_track c) (pb_block c)).
Definition TrackPrependBlockCommand_undo (c : TrackPrependBlockCommand) (g : G) :=
  (c, track_ripple_remove_block g (pb_track c) (pb_block c)).

#[export] Instance TrackPrependBlockCommand_command : Command TrackPrependBlockCommand G := {|
  redo := TrackPrependBlockCommand_redo; undo := TrackPrependBlockCommand_undo |}.

Record TrackInsertBlockAfterCommand : Type := mkTrackInsertAfter {
  ia_track : NodeId; ia_block : NodeId; ia_before : option NodeId }.

Definition TrackInsertBlockAfterCommand_redo (c : TrackInsertBlockAfterCommand) (g : G) :=
  (c, track_insert_block_after g (ia_track c) (ia_block c) (ia_before c)).
Definition TrackInsertBlockAfterCommand_undo (c : TrackInsertBlockAfterCommand) (g : G) :=
  (c, track_ripple_remove_block g (ia_track c) (ia_block c)).

#[export] Instance TrackInsertBlockAfterCommand_command : Command TrackInsertBlockAfterCommand G := {|
  redo := TrackInsertBlockAfterCommand_redo; undo := TrackInsertBlockAfterCommand_undo |}.

Record TrackReplaceBlockCommand : Type := mkTrackReplace {
  rb_track : NodeId; rb_old : NodeId; rb_replace : NodeId }.

Definition TrackReplaceBlockCommand_redo (c : TrackReplaceBlockCommand) (g : G) :=
  (c, track_replace_block g (rb_track c) (rb_old c) (rb_replace c)).
Definition TrackReplaceBlockCommand_undo (c : TrackReplaceBlockCommand) (g : G) :=
  (c, track_replace_block g (rb_track c) (rb_replace c) (rb_old c)).

#[export] Instance TrackReplaceBlockCommand_command : Command TrackReplaceBlockCommand G := {|
  redo := TrackReplaceBlockCommand_redo; undo := TrackReplaceBlockCommand_undo |}.
End commands.

(** * Reversibility *)

Section reversible.
Context {Ext : Type} `{OtherBehavior Ext} `{InputHash}.
Implicit Types (g : Graph (Behavior Ext)) (b t p : NodeId) (l : list NodeId).

Lemma block_track_core g b t : block_track g b = Some t -> exists c, block_core_of g b = Some c /\ track c = Some t.
Proof. unfold block_track. destruct (block_core_of g b) as [c|]; [|done]. simpl. eauto. Qed.

Lemma block_previous_spec g t tb b l1 l2 :
  track_behavior_of g t = Some tb -> block_track g b = Some t -> blocks tb = l1 ++ b :: l2 -> b ∉ l1 ->
  block_previous g b = list.last l1.
Proof.
  intros Ht Hb E Hn. apply block_track_core in Hb as (c & Hb & Hc).
  unfold block_previous. rewrite Hb. simpl. rewrite Hc. simpl. rewrite Ht. simpl.
  rewrite E, index_of_app by done. simpl.
  destruct l1 as [|p l1 _] using rev_ind; [done|].
  rewrite length_app, Nat.add_1_r, list.last_snoc, <- app_assoc; cbn [app].
  by rewrite list_lookup_middle.
Qed.

Lemma block_next_spec g t tb b l1 l2 :
  track_behavior_of g t = Some tb -> block_track g b = Some t -> blocks tb = l1 ++ b :: l2 -> b ∉ l1 ->
  block_next g b = head l2.
Proof.
  intros Ht Hb E Hn. apply block_track_core in Hb as (c & Hb & Hc).
  unfold block_next. rewrite Hb. simpl. rewrite Hc. simpl. rewrite Ht. simpl.
  rewrite E, index_of_app by done. simpl.
  rewrite lookup_app_r by lia. replace (length l1 + 1 - length l1)%nat with 1%nat by lia. by destruct l2.
Qed.

(** Putting a block back where it was. *)
Lemma relocate_back g t tb b l l' x : track_behavior_of g t = Some tb -> blocks tb = l ->
  block_track g b = Some t -> relocate (relocate g t b l' x) t b l (Some t) = g.
Proof.
  intros Ht E Hb. rewrite relocate_relocate. apply relocate_id.
  - intros tb' Ht'. congruence.
  - intros c Hc. unfold block_track in Hb. by rewrite Hc in Hb.
Qed.

Lemma relocate_off g t tb b l l' x : track_behavior_of g t = Some tb -> blocks tb = l ->
  detached g b -> relocate (relocate g t b l' x) t b l None = g.
Proof.
  intros Ht E (c & Hb & Hc). rewrite relocate_relocate. apply relocate_id.
  - intros tb' Ht'. congruence.
  - intros c' Hc'. congruence.
Qed.

Lemma track_of_relocate g t tb b l x : track_behavior_of g t = Some tb ->
  track_behavior_of (relocate g t b l x) t = Some (with_blocks tb l).
Proof. intros Ht. by rewrite track_behavior_of_relocate, decide_True, Ht by done. Qed.

Lemma detached_not_listed g t tb b : membership g -> track_behavior_of g t = Some tb -> detached g b ->
  b ∉ blocks tb.
Proof.
  intros Hm Ht (c & Hb & Hc). destruct (Hm t tb Ht) as [_ Hin]. rewrite Hin.
  unfold block_track. rewrite Hb. simpl. congruence.
Qed.

(** Undoing an insertion at any place. *)
Lemma undo_insertion g t tb b l1 l2 : membership g -> track_behavior_of g t = Some tb -> detached g b ->
  blocks tb = l1 ++ l2 ->
  track_ripple_remove_block (relocate g t b (l1 ++ b :: l2) (Some t)) t b = g.
Proof.
  intros Hm Ht Hd E. pose proof (detached_not_listed _ _ _ _ Hm Ht Hd) as Hn.
  rewrite E, not_elem_of_app in Hn. destruct Hn.
  rewrite (track_ripple_remove_block_eq _ t (with_blocks tb (l1 ++ b :: l2)) b l1 l2);
    [|by apply track_of_relocate|done..].
  by apply (relocate_off g t tb).
Qed.

Lemma undo_removal g t tb b l1 l2 : membership g -> track_behavior_of g t = Some tb ->
  block_track g b = Some t -> blocks tb = l1 ++ b :: l2 -> b ∉ l1 ->
  track_insert_block_after (relocate g t b (l1 ++ l2) None) t b (list.last l1) = g.
Proof.
  intros Hm Ht Hb E Hn. destruct l1 as [|p l1 _] using rev_ind.
  - cbn [list.last]. rewrite (track_insert_block_first_eq _ t (with_blocks tb ([] ++ l2))) by (by apply track_of_relocate).
    by apply (relocate_back g t tb).
  - rewrite list.last_snoc. rewrite (track_insert_block_after_eq _ t (with_blocks tb ((l1 ++ [p]) ++ l2)) b p l1 l2).
    + apply (relocate_back g t tb); [done| |done]. by rewrite E, <- app_assoc.
    + by apply track_of_relocate.
    + cbn [blocks with_blocks]. by rewrite <- app_assoc.
    + destruct (Hm t tb Ht) as [Hnd _]. rewrite E, <- app_assoc in Hnd.
      apply NoDup_app in Hnd as (_ & Hx & _). intros Hp. apply (Hx p Hp). apply elem_of_cons. by left.
Qed.

(** Replacing back. *)
Lemma undo_replace g t tb old b l1 l2 : membership g -> track_behavior_of g t = Some tb -> detached g b ->
  blocks tb = l1 ++ old :: l2 -> b <> old ->
  track_replace_block (track_replace_block g t old b) t b old = g.
Proof.
  intros Hm Ht Hd E Hne.
  assert (Hold : block_track g old = Some t).
  { apply (Hm t tb Ht). rewrite E, elem_of_app, elem_of_cons. tauto. }
  destruct (membership_split g t tb old Hm Ht Hold) as (k1 & k2 & E' & Ho1 & Ho2).
  pose proof (detached_not_listed _ _ _ _ Hm Ht Hd) as Hb. clear l1 l2 E. rename E' into E.
  rewrite E, not_elem_of_app, not_elem_of_cons in Hb. destruct Hb as (Hb1 & _ & Hb2).
  rewrite (track_replace_block_eq g t tb old b k1 k2) by done.
  set (g1 := relocate g t old (k1 ++ k2) None).
  assert (Ht1 : track_behavior_of g1 t = Some (with_blocks tb (k1 ++ k2))) by (by apply track_of_relocate).
  rewrite (track_replace_block_eq _ t (with_blocks tb (k1 ++ b :: k2)) b old k1 k2);
    [|by apply (track_of_relocate g1 t (with_blocks tb (k1 ++ k2)))|done..].
  rewrite (relocate_off g1 t (with_blocks tb (k1 ++ k2)) b (k1 ++ k2)); [|done|done|].
  - by apply (relocate_back g t tb).
  - destruct Hd as (c & Hc & Hn). exists c. unfold g1.
    by rewrite block_core_of_relocate, decide_False by done.
Qed.

(** C32: on a timeline whose tracks and blocks agree, each block list command
    is reversible for the undo stack: executing it gives the described graph,
    undoing it gives back the very graph it started from, any number of times.
    Removing remembers the predecessor, so the block returns to its place. *)
Theorem track_commands_reversible g t tb (Hm : membership g) (Ht : track_behavior_of g t = Some tb) :
  (forall l1 b l2, blocks tb = l1 ++ b :: l2 ->
     Undo.links (UndoCommand_new (TrackRippleRemoveBlockCommand_new t b)) g (relocate g t b (l1 ++ l2) None)) /\
  (forall b, detached g b ->
     Undo.links (UndoCommand_new (mkTrackPrepend t b)) g (relocate g t b (b :: blocks tb) (Some t)) /\
     Undo.links (UndoCommand_new (mkTrackInsertAfter t b None)) g (relocate g t b (b :: blocks tb) (Some t))) /\
  (forall l1 p l2 b, detached g b -> blocks tb = l1 ++ p :: l2 ->
     Undo.links (UndoCommand_new (mkTrackInsertAfter t b (Some p))) g
       (relocate g t b (l1 ++ p :: b :: l2) (Some t))) /\
  (forall l1 old l2 b, detached g b -> blocks tb = l1 ++ old :: l2 ->
     Undo.links (UndoCommand_new (mkTrackReplace t old b)) g
       (relocate (relocate g t old (l1 ++ l2) None) t b (l1 ++ b :: l2) (Some t))).
Proof.
  assert (Hmid : forall l1 x l2, blocks tb = l1 ++ x :: l2 -> block_track g x = Some t /\ (x ∉ l1) /\ (x ∉ l2)).
  { intros l1 x l2 E. destruct (Hm t tb Ht) as [Hnd Hin].
    split; [apply Hin; rewrite E, elem_of_app, elem_of_cons; tauto|].
    rewrite E in Hnd. apply NoDup_app in Hnd as (_ & H1 & H2). apply NoDup_cons in H2 as [H2 _].
    split; [|done]. intros Hx. apply (H1 x Hx). apply elem_of_cons. by left. }
  split; [|split; [|split]].
  - intros l1 b l2 E. destruct (Hmid l1 b l2 E) as (Hb & H1 & H2).
    apply (links_new (fun d c => rr_track c = t /\ rr_block c = b /\ (d = true -> rr_before c = list.last l1)));
      [| |done].
    + intros [t' b' x] (E1 & E2 & _). simpl in *. subst. eexists. split.
      * unfold redo; simpl. unfold TrackRippleRemoveBlockCommand_redo; simpl.
        by rewrite (track_ripple_remove_block_eq g t tb b l1 l2).
      * simpl. by rewrite (block_previous_spec g t tb b l1 l2).
    + intros [t' b' x] (E1 & E2 & E3). simpl in *. specialize (E3 eq_refl). subst.
      exists (mkTrackRippleRemove t b (list.last l1)). split; [|done].
      unfold TrackRippleRemoveBlockCommand_undo; simpl. by rewrite (undo_removal g t tb b l1 l2).
  - intros b Hd. pose proof (undo_insertion g t tb b [] (blocks tb) Hm Ht Hd eq_refl) as Hu. cbn [app] in Hu.
    split.
    + apply (links_new (fun _ c => c = mkTrackPrepend t b)); [| |done]; intros c ->; eexists; (split; [|done]).
      * simpl. unfold TrackPrependBlockCommand_redo; simpl. by rewrite (track_prepend_block_eq g t tb).
      * simpl. unfold TrackPrependBlockCommand_undo; simpl. by rewrite Hu.
    + apply (links_new (fun _ c => c = mkTrackInsertAfter t b None)); [| |done]; intros c ->; eexists; (split; [|done]).
      * simpl. unfold TrackInsertBlockAfterCommand_redo; simpl. by rewrite (track_insert_block_first_eq g t tb).
      * simpl. unfold TrackInsertBlockAfterCommand_undo; simpl. by rewrite Hu.
  - intros l1 p l2 b Hd E. destruct (Hmid l1 p l2 E) as (_ & H1 & _).
    apply (links_new (fun _ c => c = mkTrackInsertAfter t b (Some p))); [| |done]; intros c ->; eexists; (split; [|done]).
    + simpl. unfold TrackInsertBlockAfterCommand_redo; simpl. by rewrite (track_insert_block_after_eq g t tb b p l1 l2).
    + simpl. unfold TrackInsertBlockAfterCommand_undo; simpl.
      replace (l1 ++ p :: b :: l2) with ((l1 ++ [p]) ++ b :: l2) by (by rewrite <- app_assoc).
      rewrite (undo_insertion g t tb b (l1 ++ [p]) l2); [done|done|done|done|by rewrite <- app_assoc].
  - intros l1 old l2 b Hd E. destruct (Hmid l1 old l2 E) as (Ho & H1 & _).
    assert (Hne : b <> old).
    { intros ->. destruct Hd as (c & Hc & Hn). unfold block_track in Ho. rewrite Hc in Ho. simpl in Ho. congruence. }
    apply (links_new (fun _ c => c = mkTrackReplace t old b)); [| |done]; intros c ->; eexists; (split; [|done]).
    + simpl. unfold TrackReplaceBlockCommand_redo; simpl. by rewrite (track_replace_block_eq g t tb old b l1 l2).
    + simpl. unfold TrackReplaceBlockCommand_undo; simpl.
      rewrite <- (track_replace_block_eq g t tb old b l1 l2) by done. by rewrite (undo_replace g t tb old b l1 l2).
Qed.
End reversible.

(** * Groups and node removal *)

Section groups.
Context {Ext : Type} `{OtherBehavior Ext} `{InputHash}.
Implicit Types (g w : Graph (Behavior Ext)) (b t n : NodeId).

(** A boxed command that alternates between two worlds; [k] tells whether it
    is executed. *)
Definition alternates (k : bool) (d : DynCommand (Ext := Ext)) w0 w1 : Prop :=
  exists P : bool -> dyn_type d -> Prop,
    (forall s, P false s -> exists s', dyn_redo d s w0 = (s', w1) /\ P true s') /\
    (forall s, P true s -> exists s', dyn_undo d s w1 = (s', w0) /\ P false s') /\ P k (dyn_state d).

Inductive alternation (k : bool) : list (DynCommand (Ext := Ext)) -> Graph (Behavior Ext) -> Graph (Behavior Ext) -> Prop :=
| alternation_nil w : alternation k [] w w
| alternation_cons d ds w0 w1 w2 :
    alternates k d w0 w1 -> alternation k ds w1 w2 -> alternation k (d :: ds) w0 w2.

Lemma alternates_redo d w0 w1 : alternates false d w0 w1 ->
  exists d', run_redo d w0 = (d', w1) /\ alternates true d' w0 w1.
Proof.
  intros (P & H1 & H2 & Hs). destruct (H1 _ Hs) as (s' & E & Hs').
  unfold run_redo. rewrite E. eexists. split; [done|]. by exists P.
Qed.

Lemma alternates_undo d w0 w1 : alternates true d w0 w1 ->
  exists d', run_undo d w1 = (d', w0) /\ alternates false d' w0 w1.
Proof.
  intros (P & H1 & H2 & Hs). destruct (H2 _ Hs) as (s' & E & Hs').
  unfold run_undo. rewrite E. eexists. split; [done|]. by exists P.
Qed.

Lemma redo_all_alternation ds w0 w1 : alternation false ds w0 w1 ->
  exists ds', redo_all ds w0 = (ds', w1) /\ alternation true ds' w0 w1.
Proof.
  induction 1 as [w|d ds w0 w1 w2 Hd Hds IH]; [by eexists; split; [|constructor]|].
  destruct (alternates_redo _ _ _ Hd) as (d' & E & Hd'), IH as (ds' & E' & Hds').
  simpl. rewrite E, E'. eexists. split; [done|]. by econstructor.
Qed.

Lemma undo_all_alternation ds w0 w1 : alternation true ds w0 w1 ->
  exists ds', undo_all ds w1 = (ds', w0) /\ alternation false ds' w0 w1.
Proof.
  induction 1 as [w|d ds w0 w1 w2 Hd Hds IH]; [by eexists; split; [|constructor]|].
  destruct (alternates_undo _ _ _ Hd) as (d' & E & Hd'), IH as (ds' & E' & Hds').
  simpl. rewrite E', E. eexists. split; [done|]. by econstructor.
Qed.

(** A timeline group of alternating commands is reversible as a whole. *)
Lemma multi_undo_links ds w0 w1 : alternation false ds w0 w1 ->
  Undo.links (UndoCommand_new (mkMultiUndo ds)) w0 w1.
Proof.
  intros Hds. apply (links_new (fun k m => alternation k (children m) w0 w1)); [| |done].
  - intros m Hm. destruct (redo_all_alternation _ _ _ Hm) as (ds' & E & Hds').
    simpl. rewrite E. by exists (mkMultiUndo ds').
  - intros m Hm. destruct (undo_all_alternation _ _ _ Hm) as (ds' & E & Hds').
    simpl. rewrite E. by exists (mkMultiUndo ds').
Qed.

(** A node added to [g] and edited since, taken out again. *)
Lemma take_fresh g g1 n u :
  graph_wf g -> arena_wf g1 -> get g n = None -> edges g1 = edges g ->
  (forall j, j <> n -> get g1 j = get g j) -> get g1 n = Some u -> NodeCore.links (core u) = [] ->
  exists g2, take_node g1 n = (g2, Some u) /\ graph_equiv g2 g /\ add_entry g2 u n = (g1, n).
Proof.
  intros Hg Hw Hn Hed Hget Hu Hl.
  assert (Hun : forall x, x ∈ edges g -> touches n x = false).
  { intros x Hx. destruct (graph_live _ Hg x Hx) as [Hf Ht]. unfold touches.
    apply orb_false_iff. rewrite !NodeId_eqb_false. split; intros <-; apply valid_get in Hf as [? ?];
      apply valid_get in Ht as [? ?]; congruence. }
  destruct (take_add_isolated g1 n u Hw Hu Hl) as (g2 & Ht & _ & Ha); [by rewrite Hed|].
  destruct (take_node_spec g1 n u Hw Hu) as (g2' & Ht' & _ & Hed2 & _ & _ & _ & _ & _ & Hget2).
  rewrite Ht in Ht'. simplify_eq. exists g2'. split; [done|]. split; [|done].
  split; [|by rewrite Hed2, Hed, retain_all by (intros x Hx; by rewrite Hun)].
  intros j. rewrite Hget2. case_decide as Ej; [by subst|].
  rewrite bool_decide_eq_false_2; [by apply Hget|]. rewrite Hl. by intros ?%elem_of_nil.
Qed.

(** C33: removing a node is reversible exactly when nothing in the graph refers
    to it: without edges and links the command swings between the graph with
    the node and the one without it; with an edge at the node, undoing the
    executed command gives the node back under its id but that edge is gone. *)
Theorem remove_node_command g n e (Hwf : arena_wf g) (Hn : get g n = Some e) :
  (NodeCore.links (core e) = [] -> (forall x, x ∈ edges g -> touches n x = false) ->
     exists g1, Undo.links (create_remove_command n) g g1 /\ get g1 n = None) /\
  (forall x, x ∈ edges g -> touches n x = true ->
     let '(c, g1) := create_and_run_remove_command n g in
     let '(_, g2) := undo_now c g1 in
     get g1 n = None /\ get g2 n = Some e /\ x ∉ edges g2).
Proof.
  split.
  - intros Hl Hx. destruct (take_add_isolated g n e Hwf Hn Hl Hx) as (g1 & Ht & _ & Ha).
    exists g1. split.
    + apply (links_new (fun k c => c = mkRemoveNode n (if k then Some e else None))); [| |done];
        intros c ->; simpl.
      * unfold RemoveNodeCommand_redo; simpl. unfold block_remove_from_graph. rewrite Ht. by eexists.
      * unfold RemoveNodeCommand_undo; simpl. rewrite Ha. by eexists.
    + destruct (take_node_spec g n e Hwf Hn) as (g1' & Ht' & _ & _ & _ & _ & _ & _ & _ & Hget).
      rewrite Ht in Ht'. simplify_eq. by rewrite Hget, decide_True.
  - intros x Hx Htx.
    destruct (take_node_spec g n e Hwf Hn) as (g1 & Ht & Hw1 & Hed & _ & _ & _ & Hs & _ & Hget).
    apply get_Some in Hn as (_ & Hi & Hv & Hgen). pose proof (arena_gen _ Hwf _ _ Hi) as Hu.
    destruct (add_entry_vacant_spec g1 n e _ Hw1 Hs eq_refl Hv Hu) as (g2 & Ha & _ & Hed2 & _ & _ & _ & _ & Hget2).
    unfold create_and_run_remove_command, create_remove_command, UndoCommand_new, UndoCommand_new_dyn. simpl.
    unfold RemoveNodeCommand_redo; simpl. unfold block_remove_from_graph. rewrite Ht. simpl.
    unfold RemoveNodeCommand_undo; simpl. rewrite Ha. simpl.
    split; [by rewrite Hget, decide_True|]. split.
    + rewrite Hget2, decide_True; [done|]. rewrite Hgen. by destruct n.
    + rewrite Hed2, Hed, elem_of_retain. intros [_ E]. by rewrite Htx in E.
Qed.
End groups.

(** * Runs *)

#[local] Existing Instance no_others.
#[local] Existing Instance length_hash_.

(** [demo_timeline] with one more clip, on no track. *)
Definition demo_edit : Graph (Behavior Empty_set) := Eval vm_compute in (block_clip_create demo_timeline).1.

Lemma demo_edit_track : track_behavior_of demo_edit (node_at 0) =
  Some (mkTrack Video [node_at 1; node_at 2; node_at 3] false false DEFAULT_HEIGHT_INTERNAL 0 None).
Proof. reflexivity. Qed.

Lemma demo_edit_wf : arena_wf demo_edit /\ membership demo_edit.
Proof.
  assert (Hs : rtc (fun x y => track_step x y) (Graph_new : Graph (Behavior Empty_set)) demo_edit).
  { eapply rtc_l; [apply (step_track _ Video); [by right|]|].
    { intros b. unfold block_track, block_core_of. by rewrite behavior_of_new. }
    eapply rtc_l; [apply step_clip; by right|].
    eapply rtc_l; [apply step_gap; by right|].
    eapply rtc_l; [apply step_clip; by right|].
    eapply rtc_l; [apply (step_append _ (node_at 0) (node_at 1)); eexists; split; [vm_compute; reflexivity|reflexivity]|].
    eapply rtc_l; [apply (step_append _ (node_at 0) (node_at 2)); eexists; split; [vm_compute; reflexivity|reflexivity]|].
    eapply rtc_l; [apply (step_append _ (node_at 0) (node_at 3)); eexists; split; [vm_compute; reflexivity|reflexivity]|].
    eapply rtc_l; [apply (step_span _ (node_at 2) (fun c => with_range c (mkTimeRange (new 1 1) (new 3 1)))); done|].
    eapply rtc_l; [apply (step_span _ (node_at 3) (fun c => with_range c (mkTimeRange (new 5 1) (new 6 1)))); done|].
    eapply rtc_l; [apply step_clip; by right|].
    vm_compute. apply rtc_refl. }
  assert (Hinv : forall x y : Graph (Behavior Empty_set), rtc (fun x y => track_step x y) x y ->
    arena_wf x /\ membership x -> arena_wf y /\ membership y).
  { induction 1 as [x|x y z Hxy _ IH]; [done|]. intros [Hw Hm]. apply IH. by apply (track_step_keeps x). }
  apply (Hinv _ _ Hs). split; [apply arena_wf_new|apply membership_new].
Qed.

Lemma track_commands_reversible_witness :
  (let '(c, g1) := redo_now (UndoCommand_new (TrackRippleRemoveBlockCommand_new (node_at 0) (node_at 2))) demo_edit in
   let '(_, g2) := undo_now c g1 in
   block_next g1 (node_at 1) = Some (node_at 3) /\ block_next g2 (node_at 1) = Some (node_at 2)) /\
  Undo.links (UndoCommand_new (TrackRippleRemoveBlockCommand_new (node_at 0) (node_at 2))) demo_edit
    (relocate demo_edit (node_at 0) (node_at 2) [node_at 1; node_at 3] None).
Proof.
  split; [vm_compute; split; reflexivity|].
  refine (proj1 (track_commands_reversible demo_edit (node_at 0) _ (proj2 demo_edit_wf) demo_edit_track)
    [node_at 1] (node_at 2) [node_at 3] _).
  reflexivity.
Defined.

Lemma remove_node_command_witness :
  exists g1, Undo.links (create_remove_command (node_at 4)) demo_edit g1 /\ get g1 (node_at 4) = None.
Proof.
  assert (exists e, get demo_edit (node_at 4) = Some e /\ NodeCore.links (core e) = []) as (e & He & Hl).
  { eexists. split; [vm_compute; reflexivity|reflexivity]. }
  refine (proj1 (remove_node_command demo_edit (node_at 4) e (proj1 demo_edit_wf) He) Hl _).
  intros x Hx. by apply elem_of_nil in Hx.
Defined.
