(* ===== verification/Marker.v ===== *)
(** Timeline markers (crates/oak-timeline/src/marker.rs): the list sorted by
    in point, its queries, and the five marker commands over a shared list.

    The shared [Arc<Mutex<TimelineMarkerList>>] is the world the commands act
    on; a command built from a null handle holds no list and does nothing.  A
    reference into the list is the index it points at. *)

From Stdlib Require Import QArith Lqa Sorted.
From S2P Require Import Prelude Rational TimeRange Undo.

Local Open Scope Z_scope.

(** * Markers *)

Record TimelineMarker : Type := mkMarker { time_ : TimeRange; name_ : string; color_ : Z }.

Definition TimelineMarker_with_time (color : Z) (time : TimeRange) (name : string) : TimelineMarker :=
  mkMarker time name color.
Definition TimelineMarker_new : TimelineMarker :=
  TimelineMarker_with_time 0 (TimeRange_new (new 0 1) (new 0 1)) "".

Definition set_time (m : TimelineMarker) (t : TimeRange) : TimelineMarker := mkMarker t (name_ m) (color_ m).
Definition set_time_point (m : TimelineMarker) (t : Rational) : TimelineMarker :=
  let len := length_ (time_ m) in set_time m (TimeRange_new t (add t len)).
Definition has_sibling_at_time (_ : TimelineMarker) (_ : Rational) : bool := false.
Definition set_name (m : TimelineMarker) (n : string) : TimelineMarker := mkMarker (time_ m) n (color_ m).
Definition set_color (m : TimelineMarker) (c : Z) : TimelineMarker := mkMarker (time_ m) (name_ m) c.

Definition marker_in (m : TimelineMarker) : Rational := in_ (time_ m).

(** * The list *)

Abbreviation TimelineMarkerList := (list TimelineMarker).
Implicit Types l : TimelineMarkerList.

Definition empty l : bool := match l with [] => true | _ => false end.
Definition size l : nat := length l.
Definition at_ l (i : nat) : option TimelineMarker := l !! i.
Definition back l : option TimelineMarker := list.last l.
Definition front l : option TimelineMarker := head l.

Definition add_marker l (m : TimelineMarker) : TimelineMarkerList :=
  match position (fun x => ltb (marker_in m) (marker_in x)) l with
  | Some i => vec_insert i m l
  | None => l ++ [m]
  end.

Definition remove_at l (i : nat) : TimelineMarkerList * option TimelineMarker :=
  match l !! i with Some m => (delete i l, Some m) | None => (l, None) end.

(** [None]: a reference that is not into the list. *)
Definition remove_marker l (m : option nat) : TimelineMarkerList * option TimelineMarker :=
  match m with Some i => remove_at l i | None => (l, None) end.

Definition get_marker_at_time l (t : Rational) : option TimelineMarker :=
  find (fun m => eqb (marker_in m) t) l.

Definition rational_abs (r : Rational) : Rational := if ltb r (new 0 1) then sub (new 0 1) r else r.

Definition distance (t : Rational) (m : TimelineMarker) : Rational := rational_abs (sub (marker_in m) t).

(** The scan stops when the distance grows. *)
Fixpoint closest_loop (t : Rational) (closest : option TimelineMarker) (closest_diff : Rational) l
    : option TimelineMarker :=
  match l with
  | [] => closest
  | m :: l =>
      let this_diff := distance t m in
      match closest with
      | Some _ =>
          if ltb closest_diff this_diff then closest
          else if ltb this_diff closest_diff then closest_loop t (Some m) this_diff l
          else closest_loop t closest closest_diff l
      | None => closest_loop t (Some m) this_diff l
      end
  end.

Definition get_closest_marker_to_time l (t : Rational) : option TimelineMarker :=
  closest_loop t None (new 0 1) l.

Definition at_mut l (i : nat) (f : TimelineMarker -> TimelineMarker) : TimelineMarkerList := update_at i f l.

Definition resort_at l (i : nat) : TimelineMarkerList :=
  match l !! i with Some m => add_marker (delete i l) m | None => l end.
Definition resort l (m : option nat) : TimelineMarkerList :=
  match m with Some i => resort_at l i | None => l end.

(** * Commands

    [has_list] is false for a command built from a null handle. *)

Record MarkerAddCommand : Type := mkMarkerAdd {
  ma_list : bool; ma_range : TimeRange; ma_name : string; ma_color : Z; added : bool }.

Definition MarkerAddCommand_new (has_list : bool) (range : TimeRange) (name : string) (color : Z) :=
  mkMarkerAdd has_list range name color false.

Definition ma_with (c : MarkerAddCommand) (x : bool) : MarkerAddCommand :=
  mkMarkerAdd (ma_list c) (ma_range c) (ma_name c) (ma_color c) x.

Definition MarkerAddCommand_redo (c : MarkerAddCommand) l : MarkerAddCommand * TimelineMarkerList :=
  if added c then (c, l)
  else if ma_list c then
    (ma_with c true, add_marker l (TimelineMarker_with_time (ma_color c) (ma_range c) (ma_name c)))
  else (c, l).

Definition MarkerAddCommand_undo (c : MarkerAddCommand) l : MarkerAddCommand * TimelineMarkerList :=
  if negb (added c) then (c, l)
  else if ma_list c then
    (ma_with c false,
     match position (fun m => eqb (marker_in m) (in_ (ma_range c))) l with
     | Some i => (remove_at l i).1
     | None => l
     end)
  else (c, l).

#[export] Instance MarkerAddCommand_command : Command MarkerAddCommand TimelineMarkerList := {|
  redo := MarkerAddCommand_redo; undo := MarkerAddCommand_undo |}.

Record MarkerRemoveCommand : Type := mkMarkerRemove {
  mr_list : bool; mr_index : nat; removed : option TimelineMarker }.

Definition MarkerRemoveCommand_new (has_list : bool) (i : nat) := mkMarkerRemove has_list i None.

Definition MarkerRemoveCommand_redo (c : MarkerRemoveCommand) l : MarkerRemoveCommand * TimelineMarkerList :=
  match removed c with
  | Some _ => (c, l)
  | None =>
      if mr_list c then
        match remove_at l (mr_index c) with
        | (l', Some m) => (mkMarkerRemove (mr_list c) (mr_index c) (Some m), l')
        | (l', None) => (c, l')
        end
      else (c, l)
  end.

Definition MarkerRemoveCommand_undo (c : MarkerRemoveCommand) l : MarkerRemoveCommand * TimelineMarkerList :=
  if mr_list c then
    match removed c with
    | Some m => (mkMarkerRemove (mr_list c) (mr_index c) None, add_marker l m)
    | None => (c, l)
    end
  else (c, l).

#[export] Instance MarkerRemoveCommand_command : Command MarkerRemoveCommand TimelineMarkerList := {|
  redo := MarkerRemoveCommand_redo; undo := MarkerRemoveCommand_undo |}.

Record MarkerChangeColorCommand : Type := mkMarkerColor {
  mc_list : bool; mc_index : nat; old_color : Z; new_color : Z }.

(** [world]: the list the handle points at. *)
Definition MarkerChangeColorCommand_new (world : option TimelineMarkerList) (i : nat) (c : Z) :=
  mkMarkerColor (bool_decide (is_Some world)) i (from_option color_ 0 (l ← world; at_ l i)) c.

Definition MarkerChangeColorCommand_redo (c : MarkerChangeColorCommand) l :=
  (c, if mc_list c then at_mut l (mc_index c) (fun m => set_color m (new_color c)) else l).
Definition MarkerChangeColorCommand_undo (c : MarkerChangeColorCommand) l :=
  (c, if mc_list c then at_mut l (mc_index c) (fun m => set_color m (old_color c)) else l).

#[export] Instance MarkerChangeColorCommand_command : Command MarkerChangeColorCommand TimelineMarkerList := {|
  redo := MarkerChangeColorCommand_redo; undo := MarkerChangeColorCommand_undo |}.

Record MarkerChangeNameCommand : Type := mkMarkerName {
  mn_list : bool; mn_index : nat; old_name : string; new_name : string }.

Definition MarkerChangeNameCommand_new (world : option TimelineMarkerList) (i : nat) (n : string) :=
  mkMarkerName (bool_decide (is_Some world)) i (from_option name_ "" (l ← world; at_ l i)) n.

Definition MarkerChangeNameCommand_redo (c : MarkerChangeNameCommand) l :=
  (c, if mn_list c then at_mut l (mn_index c) (fun m => set_name m (new_name c)) else l).
Definition MarkerChangeNameCommand_undo (c : MarkerChangeNameCommand) l :=
  (c, if mn_list c then at_mut l (mn_index c) (fun m => set_name m (old_name c)) else l).

#[export] Instance MarkerChangeNameCommand_command : Command MarkerChangeNameCommand TimelineMarkerList := {|
  redo := MarkerChangeNameCommand_redo; undo := MarkerChangeNameCommand_undo |}.

Record MarkerChangeTimeCommand : Type := mkMarkerTime {
  mt_list : bool; mt_index : nat; old_time : TimeRange; new_time : TimeRange }.

Definition MarkerChangeTimeCommand_new (world : option TimelineMarkerList) (i : nat) (t : TimeRange) :=
  mkMarkerTime (bool_decide (is_Some world)) i
    (from_option time_ (TimeRange_new (new 0 1) (new 0 1)) (l ← world; at_ l i)) t.

Definition MarkerChangeTimeCommand_redo (c : MarkerChangeTimeCommand) l :=
  (c, if mt_list c then resort_at (at_mut l (mt_index c) (fun m => set_time m (new_time c))) (mt_index c) else l).
Definition MarkerChangeTimeCommand_undo (c : MarkerChangeTimeCommand) l :=
  (c, if mt_list c then resort_at (at_mut l (mt_index c) (fun m => set_time m (old_time c))) (mt_index c) else l).

#[export] Instance MarkerChangeTimeCommand_command : Command MarkerChangeTimeCommand TimelineMarkerList := {|
  redo := MarkerChangeTimeCommand_redo; undo := MarkerChangeTimeCommand_undo |}.

(** * Sortedness *)

Definition before_or_at (a b : TimelineMarker) : Prop := leb (marker_in a) (marker_in b) = true.
Definition strictly_before (a b : TimelineMarker) : Prop := ltb (marker_in a) (marker_in b) = true.
Definition marker_wf (m : TimelineMarker) : Prop := wf (marker_in m).

Definition sorted l : Prop := Forall marker_wf l /\ StronglySorted before_or_at l.

(** [m] belongs between [l1] and [l2], after its equals. *)
Definition slots_in (l1 : TimelineMarkerList) (m : TimelineMarker) (l2 : TimelineMarkerList) : Prop :=
  Forall (fun x => before_or_at x m) l1 /\ Forall (strictly_before m) l2.

Lemma before_trans a b c : marker_wf a -> marker_wf b -> marker_wf c ->
  before_or_at a b -> before_or_at b c -> before_or_at a c.
Proof. intros. unfold before_or_at in *. by apply (leb_trans _ (marker_in b)). Qed.

Lemma strictly_weak a b : marker_wf a -> marker_wf b -> strictly_before a b -> before_or_at a b.
Proof. intros. by apply ltb_leb. Qed.

Lemma not_strictly a b : marker_wf a -> marker_wf b ->
  ltb (marker_in a) (marker_in b) = false <-> before_or_at b a.
Proof. intros Ha Hb. unfold before_or_at. rewrite leb_negb_ltb, negb_true_iff by done. done. Qed.

Lemma add_marker_slot l1 l2 m : Forall marker_wf (l1 ++ l2) -> marker_wf m -> slots_in l1 m l2 ->
  add_marker (l1 ++ l2) m = l1 ++ m :: l2.
Proof.
  intros Hwf Hm [H1 H2]. apply Forall_app in Hwf as [W1 W2]. unfold add_marker.
  assert (Hn : forall x, x ∈ l1 -> ltb (marker_in m) (marker_in x) = false).
  { intros x Hx. rewrite list.Forall_forall in W1, H1. apply not_strictly; [done|by apply W1|by apply H1]. }
  destruct l2 as [|y l2].
  - rewrite app_nil_r. by rewrite (proj2 (position_None _ _) Hn).
  - apply list.Forall_cons in H2 as [Hy _]. rewrite (position_app_r _ l1 y l2) by done.
    unfold vec_insert. by rewrite take_app_length, drop_app_length.
Qed.

Lemma sorted_slot l m : sorted l -> marker_wf m -> exists l1 l2, l = l1 ++ l2 /\ slots_in l1 m l2.
Proof.
  intros [Hwf Hs] Hm. induction l as [|x l IH].
  - exists [], []. split; [done|split; constructor].
  - apply list.Forall_cons in Hwf as [Wx Wl]. apply StronglySorted_inv in Hs as [Hs Hx].
    destruct (ltb (marker_in m) (marker_in x)) eqn:E.
    + exists [], (x :: l). split; [done|]. split; [constructor|]. constructor; [done|].
      rewrite list.Forall_forall in Hx, Wl |- *. intros y Hy. unfold strictly_before.
      apply (ltb_leb_trans _ (marker_in x)); [done|done|by apply Wl|done|by apply Hx].
    + destruct (IH Wl Hs) as (l1 & l2 & -> & H1 & H2). exists (x :: l1), l2. split; [done|].
      split; [|done]. constructor; [|done]. by apply not_strictly.
Qed.

Lemma StronglySorted_mid (R : TimelineMarker -> TimelineMarker -> Prop) l1 m l2 :
  StronglySorted R (l1 ++ l2) -> Forall (fun x => R x m) l1 -> Forall (R m) l2 ->
  StronglySorted R (l1 ++ m :: l2).
Proof.
  induction l1 as [|x l1 IH]; cbn [app]; intros Hs H1 H2; [by constructor|].
  apply StronglySorted_inv in Hs as [Hs Hx]. apply list.Forall_cons in H1 as [Hxm H1].
  constructor; [by apply IH|]. rewrite Forall_app in Hx |- *. destruct Hx. split; [done|]. by constructor.
Qed.

Lemma add_marker_sorted l m : sorted l -> marker_wf m ->
  exists l1 l2, l = l1 ++ l2 /\ slots_in l1 m l2 /\ add_marker l m = l1 ++ m :: l2 /\ sorted (add_marker l m).
Proof.
  intros Hs Hm. destruct (sorted_slot l m Hs Hm) as (l1 & l2 & -> & Hsl). exists l1, l2.
  destruct Hs as [Hwf Hs]. pose proof (add_marker_slot l1 l2 m Hwf Hm Hsl) as E.
  split; [done|]. split; [done|]. split; [done|]. rewrite E. destruct Hsl as [H1 H2].
  apply Forall_app in Hwf as [W1 W2]. split.
  - apply Forall_app. split; [done|by constructor].
  - apply StronglySorted_mid; [done|done|]. rewrite list.Forall_forall in H2, W2 |- *.
    intros x Hx. apply strictly_weak; [done|by apply W2|by apply H2].
Qed.

Lemma sorted_delete l i : sorted l -> sorted (delete i l).
Proof.
  intros [Hwf Hs]. split; [by apply Forall_delete|].
  revert i Hwf. induction Hs as [|x l Hs IH Hx]; intros i Hwf; [constructor|].
  apply list.Forall_cons in Hwf as [_ Hwf].
  destruct i as [|i]; [done|]. cbn [delete list_delete]. constructor; [by apply IH|by apply Forall_delete].
Qed.

(** * The closest marker *)

Section closest.
Context (D : Z) {HD : GridDen D} (s : Z).

Definition near_grid (m : TimelineMarker) : Prop :=
  exists k, marker_in m = grid D k /\ in_grid k /\ in_grid (k - s).

Lemma distance_grid m k : in_grid s -> marker_in m = grid D k -> in_grid k -> in_grid (k - s) ->
  distance (grid D s) m = grid D (Z.abs (k - s)).
Proof.
  intros Hs E Hk Hks. unfold distance, rational_abs. rewrite E, grid_sub by done.
  change (new 0 1) with ZERO. rewrite <- (grid_0 D), grid_ltb by done.
  destruct (Z.ltb_spec (k - s) 0).
  - rewrite grid_sub by in_grid_solve. f_equal. lia.
  - f_equal. lia.
Qed.

Lemma before_grid a b ka kb : marker_in a = grid D ka -> marker_in b = grid D kb ->
  before_or_at a b <-> ka <= kb.
Proof. intros Ea Eb. unfold before_or_at. rewrite Ea, Eb, grid_leb by done. apply Z.leb_le. Qed.

Lemma closest_loop_spec l m0 : in_grid s -> Forall near_grid (m0 :: l) -> StronglySorted before_or_at (m0 :: l) ->
  exists m, closest_loop (grid D s) (Some m0) (distance (grid D s) m0) l = Some m /\ m ∈ m0 :: l /\
    forall m', m' ∈ m0 :: l -> leb (distance (grid D s) m) (distance (grid D s) m') = true.
Proof.
  intros Hs. revert m0. induction l as [|x l IH]; intros m0 Hg Hso.
  - exists m0. split; [done|]. split; [apply elem_of_cons; by left|].
    intros m' Hm'. apply list_elem_of_singleton in Hm' as ->.
    apply list.Forall_cons in Hg as [(k & E & Hk & Hks) _].
    rewrite (distance_grid m0 k), grid_leb by done. apply Z.leb_le. lia.
  - apply list.Forall_cons in Hg as [G0 Hg]. pose proof Hg as Hg'. apply list.Forall_cons in Hg as [Gx Hg].
    apply StronglySorted_inv in Hso as [Hso H0]. pose proof Hso as Hso'.
    apply StronglySorted_inv in Hso as [Hso Hx]. apply list.Forall_cons in H0 as [H0x H0].
    destruct G0 as (k0 & E0 & Hk0 & Hs0), Gx as (kx & Ex & Hkx & Hsx).
    pose proof (proj1 (before_grid m0 x k0 kx E0 Ex) H0x) as Hle.
    assert (Hfar : Z.abs (k0 - s) < Z.abs (kx - s) -> forall y, y ∈ x :: l ->
      leb (distance (grid D s) m0) (distance (grid D s) y) = true).
    { intros Hlt y Hy.
      assert (Gy : near_grid y) by (rewrite list.Forall_forall in Hg'; by apply Hg').
      destruct Gy as (ky & Ey & Hky & Hsy).
      assert (kx <= ky).
      { apply elem_of_cons in Hy as [->|Hy]; [rewrite Ex in Ey; pose proof (proj1 (grid_inj D _ _) Ey); lia|].
        rewrite list.Forall_forall in Hx. by apply (before_grid x y kx ky Ex Ey), Hx. }
      rewrite (distance_grid m0 k0), (distance_grid y ky), grid_leb by done. apply Z.leb_le. lia. }
    cbn [closest_loop].
    pose proof (distance_grid m0 k0 Hs E0 Hk0 Hs0) as D0. pose proof (distance_grid x kx Hs Ex Hkx Hsx) as Dx.
    rewrite D0, Dx, !grid_ltb by done.
    destruct (Z.ltb_spec (Z.abs (k0 - s)) (Z.abs (kx - s))) as [Hlt|Hge].
    + exists m0. split; [done|]. split; [apply elem_of_cons; by left|].
      intros m' Hm'. apply elem_of_cons in Hm' as [->|Hm']; [|by apply Hfar].
      rewrite D0, grid_leb by done. apply Z.leb_le. lia.
    + destruct (Z.ltb_spec (Z.abs (kx - s)) (Z.abs (k0 - s))) as [Hlt|Heq].
      * rewrite <- Dx. destruct (IH x) as (m & Em & Hm & Hmin); [done|done|].
        exists m. split; [done|]. split; [apply elem_of_cons; by right|].
        intros m' Hm'. apply elem_of_cons in Hm' as [->|Hm']; [|by apply Hmin].
        specialize (Hmin x ltac:(apply elem_of_cons; by left)).
        assert (Gm : near_grid m) by (rewrite list.Forall_forall in Hg'; by apply Hg').
        destruct Gm as (km & Ekm & Hkm & Hsm).
        rewrite (distance_grid m km), Dx, grid_leb in Hmin by done.
        rewrite (distance_grid m km), D0, grid_leb by done. b2p. lia.
      * assert (Edist : grid D (Z.abs (k0 - s)) = distance (grid D s) m0) by done. rewrite Edist.
        destruct (IH m0) as (m & Em & Hm & Hmin).
        { constructor; [by exists k0|done]. }
        { constructor; [done|]. done. }
        exists m. split; [done|]. split; [rewrite !elem_of_cons in *; tauto|].
        intros m' Hm'. rewrite !elem_of_cons in Hm'.
        destruct Hm' as [->|[->|Hm']]; [by apply Hmin; apply elem_of_cons; left| |by apply Hmin; apply elem_of_cons; right].
        specialize (Hmin m0 ltac:(apply elem_of_cons; by left)).
        assert (Z.abs (k0 - s) = Z.abs (kx - s)) as E by lia.
        by rewrite Dx, <- E, Edist.
Qed.
End closest.

Lemma at_mut_sorted l i f : (forall m, marker_in (f m) = marker_in m) -> sorted l -> sorted (at_mut l i f).
Proof.
  intros Hf [Hwf Hs]. unfold at_mut, update_at. destruct (l !! i) as [m|] eqn:Hi; [|by split].
  apply list_elem_of_split_length in Hi as (l1 & l2 & -> & ->).
  rewrite insert_app_r_alt, Nat.sub_diag by lia. cbn [insert list_insert].
  rewrite Forall_app, list.Forall_cons in Hwf. destruct Hwf as (W1 & Wm & W2).
  assert (Hfm : marker_wf (f m)) by (unfold marker_wf; by rewrite Hf).
  split; [rewrite Forall_app, list.Forall_cons; done|].
  clear W1 W2. induction l1 as [|x l1 IH]; cbn [app] in *.
  - apply StronglySorted_inv in Hs as [Hs Hm]. constructor; [done|].
    unfold before_or_at in *. by rewrite Hf.
  - apply StronglySorted_inv in Hs as [Hs Hx]. constructor; [by apply IH|].
    rewrite Forall_app, list.Forall_cons in Hx |- *. destruct Hx as (? & Hxm & ?). split; [done|].
    split; [|done]. unfold before_or_at in *. by rewrite Hf.
Qed.

Lemma at_mut_wf l i f : Forall marker_wf l -> (forall m, marker_wf (f m)) -> Forall marker_wf (at_mut l i f).
Proof.
  intros Hwf Hf. unfold at_mut, update_at. destruct (l !! i); [|done]. by apply Forall_insert.
Qed.

Lemma delete_insert_same {A} (xs : list A) i x : delete i (<[i := x]> xs) = delete i xs.
Proof. revert i. induction xs as [|y xs IH]; intros [|i]; try done. cbn. f_equal. apply IH. Qed.

(** Re-sorting the one marker that moved. *)
Lemma resort_moved l i m : sorted l -> marker_wf m -> (i < length l)%nat ->
  resort_at (at_mut l i (fun _ => m)) i = add_marker (delete i l) m.
Proof.
  intros Hs Hm Hi. destruct (lookup_lt_is_Some_2 l i Hi) as [x Hx].
  unfold at_mut, update_at. rewrite Hx. unfold resort_at.
  rewrite list_lookup_insert_eq by done. by rewrite delete_insert_same.
Qed.

(** The first marker with the in point [t]. *)
Lemma get_marker_at_time_Some l t m :
  get_marker_at_time l t = Some m <->
  exists l1 l2, l = l1 ++ m :: l2 /\ marker_in m = t /\ forall x, x ∈ l1 -> marker_in x <> t.
Proof.
  unfold get_marker_at_time, find. induction l as [|y l IH]; cbn [List.find].
  - split; [done|]. by intros ([|] & ? & ? & _).
  - unfold eqb at 1. case_bool_decide as E.
    + split.
      * intros [= <-]. exists [], l. split; [done|]. split; [done|]. intros x Hx. by apply elem_of_nil in Hx.
      * intros ([|z l1] & l2 & El & _ & Hn); simplify_eq/=; [done|].
        by destruct (Hn z); [apply elem_of_cons; left|].
    + rewrite IH. split.
      * intros (l1 & l2 & -> & Hm & Hn). exists (y :: l1), l2. split; [done|]. split; [done|].
        intros x Hx. apply elem_of_cons in Hx as [->|Hx]; auto.
      * intros ([|z l1] & l2 & El & Hm & Hn); simplify_eq/=.
        exists l1, l2. split; [done|]. split; [done|]. intros x Hx. apply Hn, elem_of_cons. by right.
Qed.

Lemma get_marker_at_time_None l t :
  get_marker_at_time l t = None <-> forall x, x ∈ l -> marker_in x <> t.
Proof.
  split.
  - intros E x Hx Ht. unfold get_marker_at_time, find in E.
    apply list_elem_of_In, (List.find_none _ _ E) in Hx.
    unfold eqb in Hx. by rewrite bool_decide_eq_true_2 in Hx.
  - intros Hn. destruct (get_marker_at_time l t) as [m|] eqn:E; [|done].
    apply get_marker_at_time_Some in E as (l1 & l2 & -> & Hm & _).
    exfalso. apply (Hn m); [|done]. apply elem_of_app. right. apply elem_of_cons. by left.
Qed.

(** C34: the marker list stays sorted by in point under every edit, a re-sort
    after a time change included, and an added marker comes after those that
    share its in point; the query at a time returns the first marker whose in
    point is exactly that time and nothing when there is none; on a sorted
    list whose times lie on a common grid, the early-exiting search returns a
    marker of least distance. *)
Theorem marker_list_sorted (l : TimelineMarkerList) (i : nat) (m : TimelineMarker) (n : string) (c : Z)
  (D s : Z) (HD : GridDen D)
  (Hl : sorted l) (Hm : marker_wf m) (Hi : (i < length l)%nat)
  (Hgrid : Forall (near_grid D s) l) (Hs : in_grid s) :
  (exists l1 l2, l = l1 ++ l2 /\ slots_in l1 m l2 /\ add_marker l m = l1 ++ m :: l2 /\ sorted (add_marker l m)) /\
  sorted (remove_at l i).1 /\
  sorted (at_mut l i (fun x => set_name x n)) /\ sorted (at_mut l i (fun x => set_color x c)) /\
  sorted (resort_at (at_mut l i (fun _ => m)) i) /\
  (forall t x, get_marker_at_time l t = Some x <->
     exists l1 l2, l = l1 ++ x :: l2 /\ marker_in x = t /\ forall y, y ∈ l1 -> marker_in y <> t) /\
  (forall t, get_marker_at_time l t = None <-> forall x, x ∈ l -> marker_in x <> t) /\
  (exists best, get_closest_marker_to_time l (grid D s) = Some best /\ best ∈ l /\
     forall x, x ∈ l -> leb (distance (grid D s) best) (distance (grid D s) x) = true).
Proof.
  split; [by apply add_marker_sorted|].
  split; [unfold remove_at; destruct (l !! i); [by apply sorted_delete|done]|].
  split; [by apply at_mut_sorted|]. split; [by apply at_mut_sorted|]. split; [|split; [|split]].
  2: intros t x; apply get_marker_at_time_Some.
  2: apply get_marker_at_time_None.
  - rewrite resort_moved by done.
    by destruct (add_marker_sorted (delete i l) m (sorted_delete l i Hl) Hm) as (? & ? & _ & _ & _ & ?).
  - destruct l as [|m0 l]; [simpl in Hi; lia|]. destruct Hl as [_ Hso].
    unfold get_closest_marker_to_time; cbn [closest_loop]. by apply closest_loop_spec.
Qed.

(** * Reversibility *)

Lemma sorted_middle l1 m l2 : sorted (l1 ++ m :: l2) ->
  Forall marker_wf l1 /\ marker_wf m /\ Forall marker_wf l2 /\
  Forall (fun x => before_or_at x m) l1 /\ Forall (before_or_at m) l2 /\ sorted (l1 ++ l2).
Proof.
  intros Hs. pose proof (sorted_delete _ (length l1) Hs) as Hd. rewrite delete_middle in Hd.
  destruct Hs as [Hwf Hs]. rewrite Forall_app, list.Forall_cons in Hwf. destruct Hwf as (W1 & Wm & W2).
  do 3 (split; [done|]).
  assert (H : Forall (fun x => before_or_at x m) l1 /\ Forall (before_or_at m) l2); [|tauto].
  clear W1 Wm W2 Hd. induction l1 as [|x l1 IH]; cbn [app] in Hs; apply StronglySorted_inv in Hs as [Hs Hx].
  - split; [constructor|done].
  - destruct (IH Hs) as [H1 H2]. split; [|done]. constructor; [|done].
    rewrite Forall_app, list.Forall_cons in Hx. tauto.
Qed.

(** Without a second marker at its in point, order is strict around [m]. *)
Lemma strict_slot l1 m l2 : sorted (l1 ++ m :: l2) -> Forall (fun x => marker_in x <> marker_in m) l2 ->
  slots_in l1 m l2.
Proof.
  intros Hs Hne. destruct (sorted_middle _ _ _ Hs) as (W1 & Wm & W2 & H1 & H2 & _). split; [done|].
  rewrite list.Forall_forall in *. intros x Hx. specialize (H2 x Hx). specialize (Hne x Hx).
  unfold strictly_before. apply not_false_is_true. intros E.
  apply not_strictly in E; [|done|by apply W2]. apply Hne.
  by apply (leb_antisym (marker_in x) (marker_in m)); [apply W2|..].
Qed.

Lemma at_mut_middle l1 m l2 f : at_mut (l1 ++ m :: l2) (length l1) f = l1 ++ f m :: l2.
Proof.
  unfold at_mut, update_at. rewrite list_lookup_middle by done.
  by rewrite insert_app_r_alt, Nat.sub_diag by lia.
Qed.

Lemma find_in_point l1 m l2 t : in_ t = marker_in m -> Forall (fun x => marker_in x <> marker_in m) l1 ->
  position (fun x => eqb (marker_in x) (in_ t)) (l1 ++ m :: l2) = Some (length l1).
Proof.
  intros E H1. apply position_app_r.
  - intros y Hy. rewrite list.Forall_forall in H1. unfold eqb. apply bool_decide_eq_false. rewrite E. by apply H1.
  - unfold eqb. by apply bool_decide_eq_true.
Qed.

(** C35: on a sorted list, adding and removing a marker whose in point no other
    marker shares are reversible, renaming and recolouring always; a time
    change is reversible when the marker keeps its place. *)
Theorem marker_commands_reversible l1 m l2 (n : string) (c : Z) (t : TimeRange)
  (Hs : sorted (l1 ++ m :: l2)) (Ht : wf (in_ t))
  (Hne : Forall (fun x => marker_in x <> marker_in m) (l1 ++ l2)) :
  Undo.links (UndoCommand_new (MarkerAddCommand_new true (time_ m) (name_ m) (color_ m))) (l1 ++ l2) (l1 ++ m :: l2) /\
  Undo.links (UndoCommand_new (MarkerRemoveCommand_new true (length l1))) (l1 ++ m :: l2) (l1 ++ l2) /\
  Undo.links (UndoCommand_new (MarkerChangeNameCommand_new (Some (l1 ++ m :: l2)) (length l1) n))
    (l1 ++ m :: l2) (l1 ++ set_name m n :: l2) /\
  Undo.links (UndoCommand_new (MarkerChangeColorCommand_new (Some (l1 ++ m :: l2)) (length l1) c))
    (l1 ++ m :: l2) (l1 ++ set_color m c :: l2) /\
  (slots_in l1 (set_time m t) l2 ->
   Undo.links (UndoCommand_new (MarkerChangeTimeCommand_new (Some (l1 ++ m :: l2)) (length l1) t))
     (l1 ++ m :: l2) (l1 ++ set_time m t :: l2)).
Proof.
  destruct (sorted_middle _ _ _ Hs) as (W1 & Wm & W2 & _ & _ & Hs').
  apply Forall_app in Hne as [N1 N2]. pose proof (strict_slot _ _ _ Hs N2) as Hsl.
  assert (Hadd : add_marker (l1 ++ l2) m = l1 ++ m :: l2) by (apply add_marker_slot; [apply Hs'|done|done]).
  assert (Hrem : remove_at (l1 ++ m :: l2) (length l1) = (l1 ++ l2, Some m)).
  { unfold remove_at. by rewrite list_lookup_middle, delete_middle by done. }
  assert (Eat : at_ (l1 ++ m :: l2) (length l1) = Some m) by (by apply list_lookup_middle).
  split; [|split; [|split; [|split]]].
  - apply (links_new (fun k x => x = mkMarkerAdd true (time_ m) (name_ m) (color_ m) k)); [| |done];
      intros x ->; eexists; (split; [|done]); simpl.
    + unfold MarkerAddCommand_redo; simpl. replace (TimelineMarker_with_time (color_ m) (time_ m) (name_ m)) with m by (by destruct m).
      by rewrite Hadd.
    + unfold MarkerAddCommand_undo; simpl. by rewrite (find_in_point l1 m l2), Hrem.
  - apply (links_new (fun k x => x = mkMarkerRemove true (length l1) (if k then Some m else None))); [| |done];
      intros x ->; eexists; (split; [|done]); simpl.
    + unfold MarkerRemoveCommand_redo; simpl. by rewrite Hrem.
    + unfold MarkerRemoveCommand_undo; simpl. by rewrite Hadd.
  - unfold MarkerChangeNameCommand_new. simpl. rewrite Eat. simpl.
    apply (links_new (fun _ x => x = mkMarkerName true (length l1) (name_ m) n)); [| |done];
      intros x ->; eexists; (split; [|done]); simpl.
    + unfold MarkerChangeNameCommand_redo; simpl. by rewrite at_mut_middle.
    + unfold MarkerChangeNameCommand_undo; simpl. rewrite at_mut_middle. by destruct m.
  - unfold MarkerChangeColorCommand_new. simpl. rewrite Eat. simpl.
    apply (links_new (fun _ x => x = mkMarkerColor true (length l1) (color_ m) c)); [| |done];
      intros x ->; eexists; (split; [|done]); simpl.
    + unfold MarkerChangeColorCommand_redo; simpl. by rewrite at_mut_middle.
    + unfold MarkerChangeColorCommand_undo; simpl. rewrite at_mut_middle. by destruct m.
  - intros Hslt. unfold MarkerChangeTimeCommand_new. simpl. rewrite Eat. simpl.
    assert (Hres : forall x, marker_wf x -> slots_in l1 x l2 ->
      resort_at (l1 ++ x :: l2) (length l1) = l1 ++ x :: l2).
    { intros x Hx Hslx. unfold resort_at. rewrite list_lookup_middle, delete_middle by done.
      apply add_marker_slot; [apply Hs'|done|done]. }
    apply (links_new (fun _ x => x = mkMarkerTime true (length l1) (time_ m) t)); [| |done];
      intros x ->; eexists; (split; [|done]); simpl.
    + unfold MarkerChangeTimeCommand_redo; simpl. by rewrite at_mut_middle, Hres.
    + unfold MarkerChangeTimeCommand_undo; simpl. rewrite at_mut_middle.
      replace (set_time (set_time m t) (time_ m)) with m by (by destruct m). by rewrite Hres.
Qed.

(** C36: undoing a time change that moved a marker past its neighbour edits the
    neighbour: the command still holds the index from before the re-sort, so of
    two markers the second gets the first one's old time and the first keeps
    its new time. *)
Theorem marker_time_undo_stale_index (a b : TimelineMarker) (t : TimeRange)
  (Ha : marker_wf a) (Hb : marker_wf b) (Ht : wf (in_ t))
  (Hab : strictly_before a b) (Hbt : ltb (marker_in b) (in_ t) = true) :
  let '(c, l1) := redo_now (UndoCommand_new (MarkerChangeTimeCommand_new (Some [a; b]) 0 t)) [a; b] in
  let '(_, l2) := undo_now c l1 in
  l1 = [b; set_time a t] /\ l2 = [set_time b (time_ a); set_time a t] /\ l2 <> [a; b].
Proof.
  unfold UndoCommand_new, UndoCommand_new_dyn. simpl. unfold MarkerChangeTimeCommand_redo; simpl.
  assert (E1 : resort_at (at_mut [a; b] 0 (fun m => set_time m t)) 0 = [b; set_time a t]).
  { change (at_mut [a; b] 0 (fun m => set_time m t)) with [set_time a t; b]. unfold resort_at. simpl.
    apply (add_marker_slot [b] [] (set_time a t)); [by constructor; [done|constructor]|done|].
    split; [|constructor]. constructor; [|constructor]. unfold before_or_at. by apply ltb_leb. }
  rewrite E1. simpl. unfold MarkerChangeTimeCommand_undo; simpl.
  assert (E2 : resort_at (at_mut [b; set_time a t] 0 (fun m => set_time m (time_ a))) 0 =
    [set_time b (time_ a); set_time a t]).
  { change (at_mut [b; set_time a t] 0 (fun m => set_time m (time_ a))) with [set_time b (time_ a); set_time a t].
    unfold resort_at. simpl.
    apply (add_marker_slot [] [set_time a t] (set_time b (time_ a))); [by constructor; [done|constructor]|done|].
    split; [constructor|]. constructor; [|constructor]. unfold strictly_before.
    change (ltb (marker_in a) (in_ t) = true).
    apply (ltb_leb_trans _ (marker_in b)); [done..|by apply ltb_leb]. }
  rewrite E2. split; [done|]. split; [done|].
  intros E. injection E as _ E. rewrite <- E in Hbt. unfold marker_in in Hbt. simpl in Hbt.
  by rewrite ltb_irrefl in Hbt.
Qed.

(** * Runs *)

Definition mark (s : Z) (n : string) : TimelineMarker :=
  TimelineMarker_with_time 0 (TimeRange_new (new s 1) (new s 1)) n.

Lemma three_sorted : sorted [mark 1 "a"; mark 4 "b"; mark 9 "c"].
Proof.
  split; [do 3 (constructor; [right; by vm_compute|]); constructor|].
  repeat constructor; by vm_compute.
Qed.

Lemma marker_list_sorted_witness :
  get_closest_marker_to_time [mark 1 "a"; mark 4 "b"; mark 9 "c"] (new 6 1) = Some (mark 4 "b") /\
  add_marker [mark 1 "a"; mark 4 "b"; mark 9 "c"] (mark 4 "d") =
    [mark 1 "a"; mark 4 "b"; mark 4 "d"; mark 9 "c"] /\
  get_marker_at_time [mark 1 "a"; mark 4 "b"; mark 9 "c"] (new 4 1) = Some (mark 4 "b") /\
  get_marker_at_time [mark 1 "a"; mark 4 "b"; mark 9 "c"] (new 5 1) = None /\
  sorted (resort_at (at_mut [mark 1 "a"; mark 4 "b"; mark 9 "c"] 0 (fun _ => mark 5 "a")) 0).
Proof.
  split; [vm_compute; reflexivity|]. split; [vm_compute; reflexivity|].
  split; [vm_compute; reflexivity|]. split; [vm_compute; reflexivity|].
  assert (HD : GridDen 1) by done.
  refine (proj1 (proj2 (proj2 (proj2 (proj2 (marker_list_sorted [mark 1 "a"; mark 4 "b"; mark 9 "c"] 0
    (mark 5 "a") "" 0 1 6 HD three_sorted _ _ _ _)))))).
  - right; by vm_compute.
  - simpl. lia.
  - constructor; [by exists 1|]. constructor; [by exists 4|]. constructor; [by exists 9|constructor].
  - done.
Defined.

Lemma marker_commands_reversible_witness :
  Undo.links (UndoCommand_new (MarkerRemoveCommand_new true 1))
    [mark 1 "a"; mark 4 "b"; mark 9 "c"] [mark 1 "a"; mark 9 "c"].
Proof.
  refine (proj1 (proj2 (marker_commands_reversible [mark 1 "a"] (mark 4 "b") [mark 9 "c"] "" 0
    (mkTimeRange (new 5 1) (new 5 1)) three_sorted _ _))).
  - right; by vm_compute.
  - constructor; [done|]. constructor; [done|constructor].
Defined.

Lemma marker_time_undo_stale_index_witness :
  let '(c, l1) := redo_now (UndoCommand_new (MarkerChangeTimeCommand_new (Some [mark 0 "a"; mark 5 "b"]) 0
    (mkTimeRange (new 10 1) (new 10 1)))) [mark 0 "a"; mark 5 "b"] in
  let '(_, l2) := undo_now c l1 in
  l1 = [mark 5 "b"; set_time (mark 0 "a") (mkTimeRange (new 10 1) (new 10 1))] /\
  l2 = [mark 0 "b"; set_time (mark 0 "a") (mkTimeRange (new 10 1) (new 10 1))] /\
  l2 <> [mark 0 "a"; mark 5 "b"].
Proof.
  refine (marker_time_undo_stale_index (mark 0 "a") (mark 5 "b") (mkTimeRange (new 10 1) (new 10 1)) _ _ _ _ _);
    first [done|right; by vm_compute].
Defined.
