(* ===== verification/WorkArea.v ===== *)
(** The timeline work area (crates/oak-timeline/src/workarea.rs): the in/out
    range with its enabled flag, and the two commands that change it.  The
    shared work area is the world of the commands; a command built from a null
    handle does nothing. *)

From S2P Require Import Prelude Rational TimeRange Undo.

Definition reset_in : Rational := new 0 1.
Definition reset_out : Rational := new 2147483647 1.

Record TimelineWorkArea : Type := mkWorkArea { workarea_enabled : bool; workarea_range : TimeRange }.

Definition TimelineWorkArea_new : TimelineWorkArea := mkWorkArea false (TimeRange_new reset_in reset_out).

Definition wa_set_enabled (w : TimelineWorkArea) (e : bool) : TimelineWorkArea := mkWorkArea e (workarea_range w).
Definition wa_set_range (w : TimelineWorkArea) (r : TimeRange) : TimelineWorkArea :=
  mkWorkArea (workarea_enabled w) r.
Definition wa_in (w : TimelineWorkArea) : Rational := in_ (workarea_range w).
Definition wa_out (w : TimelineWorkArea) : Rational := out (workarea_range w).
Definition wa_length (w : TimelineWorkArea) : Rational := length_ (workarea_range w).

Record WorkareaSetEnabledCommand : Type := mkSetEnabled {
  se_points : bool; new_enabled : bool; old_enabled : bool }.

(** [world]: the work area the handle points at. *)
Definition WorkareaSetEnabledCommand_new (world : option TimelineWorkArea) (e : bool) :=
  mkSetEnabled (bool_decide (is_Some world)) e (from_option workarea_enabled false world).

#[export] Instance WorkareaSetEnabledCommand_command : Command WorkareaSetEnabledCommand TimelineWorkArea := {|
  redo c w := (c, if se_points c then wa_set_enabled w (new_enabled c) else w);
  undo c w := (c, if se_points c then wa_set_enabled w (old_enabled c) else w)
|}.

Record WorkareaSetRangeCommand : Type := mkSetRange {
  sr_workarea : bool; new_range : TimeRange; old_range : TimeRange }.

Definition new_with_old_opt (has : bool) (r old : TimeRange) : WorkareaSetRangeCommand := mkSetRange has r old.

Definition WorkareaSetRangeCommand_new (world : option TimelineWorkArea) (r : TimeRange) :=
  new_with_old_opt (bool_decide (is_Some world)) r (from_option workarea_range r world).

Definition WorkareaSetRangeCommand_new_with_old (world : option TimelineWorkArea) (r old : TimeRange) :=
  new_with_old_opt (bool_decide (is_Some world)) r old.

#[export] Instance WorkareaSetRangeCommand_command : Command WorkareaSetRangeCommand TimelineWorkArea := {|
  redo c w := (c, if sr_workarea c then wa_set_range w (new_range c) else w);
  undo c w := (c, if sr_workarea c then wa_set_range w (old_range c) else w)
|}.

Lemma set_enabled_links w e :
  links (UndoCommand_new (WorkareaSetEnabledCommand_new (Some w) e)) w (wa_set_enabled w e).
Proof.
  apply (links_new (fun _ c => c = WorkareaSetEnabledCommand_new (Some w) e)); [| |done];
    intros c ->; eexists; (split; [|done]); simpl; [done|]. by destruct w.
Qed.

Lemma set_range_links w r :
  links (UndoCommand_new (WorkareaSetRangeCommand_new (Some w) r)) w (wa_set_range w r).
Proof.
  apply (links_new (fun _ c => c = WorkareaSetRangeCommand_new (Some w) r)); [| |done];
    intros c ->; eexists; (split; [|done]); simpl; [done|]. by destruct w.
Qed.

(** C37: work area edits on the undo stack: pushing either command, built from
    the current work area, applies it and extends the recorded history by the
    new work area, so every later jump can return to it; a range command built
    with an explicit old range undoes to that range and leaves the enabled flag
    alone; a command built from a null handle changes nothing on redo and
    nothing on undo, whichever constructor built it.  The length of a reset
    work area is the undefined rational, not the maximum. *)
Theorem workarea_history (s : UndoStack) ws w (e : bool) (r : TimeRange) (nm : string)
  (Hh : history s ws w) (Hcap : (length (commands s) <= K_MAX_UNDO_COMMANDS)%nat) :
  (exists s1, UndoStack_push s (UndoCommand_new (WorkareaSetEnabledCommand_new (Some w) e)) nm w =
       (s1, wa_set_enabled w e) /\
     history s1 (worlds_after_push s ws (wa_set_enabled w e)) (wa_set_enabled w e)) /\
  (exists s1, UndoStack_push s (UndoCommand_new (WorkareaSetRangeCommand_new (Some w) r)) nm w =
       (s1, wa_set_range w r) /\
     history s1 (worlds_after_push s ws (wa_set_range w r)) (wa_set_range w r)) /\
  (forall v old, (redo (WorkareaSetRangeCommand_new_with_old (Some w) r old) v).2 =
       mkWorkArea (workarea_enabled v) r /\
     (undo (WorkareaSetRangeCommand_new_with_old (Some w) r old) v).2 = mkWorkArea (workarea_enabled v) old) /\
  (forall v old,
     (redo (WorkareaSetEnabledCommand_new None e) v).2 = v /\
     (undo (WorkareaSetEnabledCommand_new None e) v).2 = v /\
     (redo (WorkareaSetRangeCommand_new None r) v).2 = v /\
     (undo (WorkareaSetRangeCommand_new None r) v).2 = v /\
     (redo (WorkareaSetRangeCommand_new_with_old None r old) v).2 = v /\
     (undo (WorkareaSetRangeCommand_new_with_old None r old) v).2 = v) /\
  wa_length TimelineWorkArea_new = NULL.
Proof.
  split; [|split; [|split; [done|split; [done|reflexivity]]]].
  - destruct (push_history s ws w _ _ nm Hh Hcap (set_enabled_links w e)) as (s1 & E & H1 & _); try done.
    by exists s1.
  - destruct (push_history s ws w _ _ nm Hh Hcap (set_range_links w r)) as (s1 & E & H1 & _); try done.
    by exists s1.
Qed.

Lemma workarea_history_witness :
  exists s1, UndoStack_push UndoStack_new
      (UndoCommand_new (WorkareaSetEnabledCommand_new (Some TimelineWorkArea_new) true)) "enable" TimelineWorkArea_new =
    (s1, wa_set_enabled TimelineWorkArea_new true) /\
    history s1 (worlds_after_push UndoStack_new [TimelineWorkArea_new; TimelineWorkArea_new]
      (wa_set_enabled TimelineWorkArea_new true)) (wa_set_enabled TimelineWorkArea_new true).
Proof.
  refine (proj1 (workarea_history UndoStack_new [TimelineWorkArea_new; TimelineWorkArea_new] TimelineWorkArea_new true
    TimeRange_default "enable" _ _)).
  - apply history_new.
  - unfold K_MAX_UNDO_COMMANDS. simpl. lia.
Defined.
