(* ===== verification/SplitCommands.v ===== *)
(** Splitting blocks (crates/oak-timeline/src/undosplit.rs): one block with a
    copy of its dependency graph as the second half, several blocks keeping
    their link groups, and the block of a track under a time.

    The id map of the dependency copy is a [HashMap]; the order it is walked in
    is the class [MapOrder]. *)

From Stdlib Require Import QArith Lqa.
From S2P Require Import Prelude Rational TimeRange Undo Ids Value Keyframe NodeCore Graph Arena Dag GraphOps Copies Block Track Timeline TrackCommands.

Local Open Scope Z_scope.

(** The iteration order of a [HashMap<NodeId, NodeId>]. *)
Class MapOrder : Type := map_order : IdMap -> IdMap.
Class MapOrderLaws `{MapOrder} : Prop := map_order_perm m : map_order m ≡ₚ m.

Section split.
Context {Ext : Type} `{OtherBehavior Ext} `{InputHash} `{MapOrder}.
Abbreviation G := (Graph (Behavior Ext)).
Abbreviation Entry := (NodeEntry (Behavior Ext)).

(** * One block *)

Record BlockSplitCommand : Type := mkBlockSplit {
  bs_block : NodeId; bs_point : Rational; new_block : option NodeId; copied : list NodeId;
  copied_edges : list (NodeId * NodeId * string * Z); detached_entries : list (option Entry);
  bs_old_length : Rational }.

Definition BlockSplitCommand_new (b : NodeId) (p : Rational) : BlockSplitCommand :=
  mkBlockSplit b p None [] [] [] (new 0 1).

Definition copied_ids (id : NodeId) (m : IdMap) : list NodeId :=
  id :: (snd <$> retain (fun p => negb (NodeId_eqb p.1 p.2) && negb (NodeId_eqb p.2 id)) (map_order m)).

Definition BlockSplitCommand_prepare (c : BlockSplitCommand) (g : G) : BlockSplitCommand * G :=
  match new_block c with
  | Some _ => (c, g)
  | None =>
      match copy_node_and_dependency_graph_minus_items g (bs_block c) with
      | (g, None) => (c, g)
      | (g, Some (id, m)) =>
          let ids := copied_ids id m in
          let es := flat_map (fun n =>
            (fun e => (e.1.1, n, e.1.2, e.2)) <$> input_connections g n) ids in
          (mkBlockSplit (bs_block c) (bs_point c) (Some id) ids es (replicate (length ids) None)
             (bs_old_length c), g)
      end
  end.

Definition with_detached (c : BlockSplitCommand) (x : list (option Entry)) : BlockSplitCommand :=
  mkBlockSplit (bs_block c) (bs_point c) (new_block c) (copied c) (copied_edges c) x (bs_old_length c).
Definition with_old_length (c : BlockSplitCommand) (x : Rational) : BlockSplitCommand :=
  mkBlockSplit (bs_block c) (bs_point c) (new_block c) (copied c) (copied_edges c) (detached_entries c) x.

(** Re-insert the entries index by index; [None]s are skipped. *)
Fixpoint add_entries (g : G) (ids : list NodeId) (es : list (option Entry)) : G :=
  match ids, es with
  | i :: ids, Some e :: es => add_entries (add_entry g e i).1 ids es
  | _ :: ids, None :: es => add_entries g ids es
  | _, _ => g
  end.

Definition re_attach_subgraph (c : BlockSplitCommand) (g : G) : BlockSplitCommand * G :=
  if forallb (fun e => match e with None => true | Some _ => false end) (detached_entries c) then (c, g)
  else
    let g := add_entries g (copied c) (detached_entries c) in
    let g := foldl (fun g e => (connect g e.1.1.1 e.1.1.2 e.1.2 e.2).1) g (copied_edges c) in
    (with_detached c ((fun _ => None) <$> detached_entries c), g).

(** Take the entries out, index by index, where none is held yet. *)
Fixpoint take_entries (g : G) (ids : list NodeId) (es : list (option Entry)) : list (option Entry) * G :=
  match ids, es with
  | i :: ids, None :: es =>
      let '(g, e) := take_node g i in let '(es, g) := take_entries g ids es in (e :: es, g)
  | _ :: ids, Some e :: es => let '(es, g) := take_entries g ids es in (Some e :: es, g)
  | _, es => (es, g)
  end.

Definition detach_subgraph (c : BlockSplitCommand) (g : G) : BlockSplitCommand * G :=
  let '(es, g) := take_entries g (copied c) (detached_entries c) in (with_detached c es, g).

(** The edits of [redo] once the second half is in the graph. *)
Definition split_halves (c : BlockSplitCommand) (g : G) : BlockSplitCommand * G :=
  let c := with_old_length c (block_length g (bs_block c)) in
  let first_half_length := sub (bs_point c) (block_in g (bs_block c)) in
  let second_half_length := sub (block_out g (bs_block c)) (bs_point c) in
  match new_block c with
  | None => (c, g)
  | Some n =>
      let g := block_set_length_and_media_in g (bs_block c) first_half_length in
      let g := block_set_length_and_media_out g n second_half_length in
      (c, match block_track g (bs_block c) with
          | Some t => track_insert_block_after g t n (Some (bs_block c))
          | None => g
          end)
  end.

Definition BlockSplitCommand_redo (c : BlockSplitCommand) (g : G) : BlockSplitCommand * G :=
  let '(c, g) := BlockSplitCommand_prepare c g in
  let '(c, g) := re_attach_subgraph c g in
  split_halves c g.

Definition BlockSplitCommand_undo (c : BlockSplitCommand) (g : G) : BlockSplitCommand * G :=
  let g :=
    match block_track g (bs_block c) with
    | Some t =>
        let g := block_set_length_and_media_in g (bs_block c) (bs_old_length c) in
        match new_block c with
        | Some n => track_ripple_remove_block g t n
        | None => g
        end
    | None => g
    end in
  detach_subgraph c g.

#[export] Instance BlockSplitCommand_command : Command BlockSplitCommand G := {|
  redo := BlockSplitCommand_redo; undo := BlockSplitCommand_undo |}.

(** * Several blocks *)

Record BlockSplitPreservingLinksCommand : Type := mkSplitLinks {
  sl_blocks : list NodeId; sl_times : list Rational; sl_commands : list BlockSplitCommand;
  splits : list (list (option NodeId)) }.

Definition BlockSplitPreservingLinksCommand_new (bs : list NodeId) (ts : list Rational) :=
  mkSplitLinks bs ts [] [].

(** The blocks one time strictly cuts; returns the row of second halves. *)
Fixpoint split_row (time : Rational) (bs : list NodeId) (cs : list BlockSplitCommand) (g : G)
    : list (option NodeId) * list BlockSplitCommand * G :=
  match bs with
  | [] => ([], cs, g)
  | b :: bs =>
      let '(n, cs, g) :=
        if ltb (block_in g b) time && ltb time (block_out g b) then
          let '(c, g) := BlockSplitCommand_prepare (BlockSplitCommand_new b time) g in
          let '(c, g) := BlockSplitCommand_redo c g in
          (new_block c, cs ++ [c], g)
        else (None, cs, g) in
      let '(row, cs, g) := split_row time bs cs g in
      (n :: row, cs, g)
  end.

Fixpoint split_rows (ts : list Rational) (bs : list NodeId) (cs : list BlockSplitCommand) (g : G)
    : list (list (option NodeId)) * list BlockSplitCommand * G :=
  match ts with
  | [] => ([], cs, g)
  | time :: ts =>
      let '(row, cs, g) := split_row time bs cs g in
      let '(rows, cs, g) := split_rows ts bs cs g in
      (row :: rows, cs, g)
  end.

(** Link the halves of every linked pair that was cut at one time. *)
Fixpoint link_halves (xs : list (NodeId * option NodeId)) (g : G) : G :=
  match xs with
  | [] => g
  | (b, n) :: xs =>
      let g := foldl (fun g y =>
        if are_linked g b y.1 then
          match n, y.2 with Some n, Some n' => (link g n n').1 | _, _ => g end
        else g) g xs in
      link_halves xs g
  end.

Definition BlockSplitPreservingLinksCommand_prepare (c : BlockSplitPreservingLinksCommand) (g : G)
    : BlockSplitPreservingLinksCommand * G :=
  let '(rows, cs, g) := split_rows (sl_times c) (sl_blocks c) (sl_commands c) g in
  let c := mkSplitLinks (sl_blocks c) (sl_times c) cs rows in
  match sl_blocks c with
  | [] => (c, g)
  | _ => (c, foldl (fun g row => link_halves (zip (sl_blocks c) row) g) g rows)
  end.

Fixpoint redo_splits (cs : list BlockSplitCommand) (g : G) : list BlockSplitCommand * G :=
  match cs with
  | [] => ([], g)
  | c :: cs =>
      let '(c, g) := BlockSplitCommand_redo c g in let '(cs, g) := redo_splits cs g in (c :: cs, g)
  end.
Fixpoint undo_splits (cs : list BlockSplitCommand) (g : G) : list BlockSplitCommand * G :=
  match cs with
  | [] => ([], g)
  | c :: cs =>
      let '(cs, g) := undo_splits cs g in let '(c, g) := BlockSplitCommand_undo c g in (c :: cs, g)
  end.

Definition with_commands (c : BlockSplitPreservingLinksCommand) (cs : list BlockSplitCommand) :=
  mkSplitLinks (sl_blocks c) (sl_times c) cs (splits c).

Definition BlockSplitPreservingLinksCommand_redo (c : BlockSplitPreservingLinksCommand) (g : G)
    : BlockSplitPreservingLinksCommand * G :=
  match sl_commands c with
  | [] => BlockSplitPreservingLinksCommand_prepare c g
  | cs => let '(cs, g) := redo_splits cs g in (with_commands c cs, g)
  end.

Definition BlockSplitPreservingLinksCommand_undo (c : BlockSplitPreservingLinksCommand) (g : G)
    : BlockSplitPreservingLinksCommand * G :=
  let '(cs, g) := undo_splits (sl_commands c) g in (with_commands c cs, g).

#[export] Instance BlockSplitPreservingLinksCommand_command : Command BlockSplitPreservingLinksCommand G := {|
  redo := BlockSplitPreservingLinksCommand_redo; undo := BlockSplitPreservingLinksCommand_undo |}.

Definition get_split (c : BlockSplitPreservingLinksCommand) (original : NodeId) (time_index : nat) : option NodeId :=
  if (time_index <? length (sl_times c))%nat then
    i ← index_of original (sl_blocks c);
    row ← splits c !! time_index;
    mjoin (row !! i)
  else None.

(** * The block of a track at a time *)

Record TrackSplitAtTimeCommand : Type := mkTrackSplit {
  st_track : NodeId; st_point : Rational; st_command : option BlockSplitCommand }.

Definition TrackSplitAtTimeCommand_new (t : NodeId) (p : Rational) := mkTrackSplit t p None.

Definition TrackSplitAtTimeCommand_prepare (c : TrackSplitAtTimeCommand) (g : G) : TrackSplitAtTimeCommand :=
  match st_command c with
  | Some _ => c
  | None =>
      match (tb ← track_behavior_of g (st_track c); block_containing_time tb (st_point c) (graph_block_range g)) with
      | Some b => mkTrackSplit (st_track c) (st_point c) (Some (BlockSplitCommand_new b (st_point c)))
      | None => c
      end
  end.

Definition TrackSplitAtTimeCommand_redo (c : TrackSplitAtTimeCommand) (g : G) : TrackSplitAtTimeCommand * G :=
  let c := TrackSplitAtTimeCommand_prepare c g in
  match st_command c with
  | Some s => let '(s, g) := BlockSplitCommand_redo s g in (mkTrackSplit (st_track c) (st_point c) (Some s), g)
  | None => (c, g)
  end.

Definition TrackSplitAtTimeCommand_undo (c : TrackSplitAtTimeCommand) (g : G) : TrackSplitAtTimeCommand * G :=
  match st_command c with
  | Some s => let '(s, g) := BlockSplitCommand_undo s g in (mkTrackSplit (st_track c) (st_point c) (Some s), g)
  | None => (c, g)
  end.

#[export] Instance TrackSplitAtTimeCommand_command : Command TrackSplitAtTimeCommand G := {|
  redo := TrackSplitAtTimeCommand_redo; undo := TrackSplitAtTimeCommand_undo |}.
End split.

(** * Detaching and re-attaching copies *)

Section split_correct.
Context {Ext : Type} `{OtherBehavior Ext} `{InputHash} `{MapOrderLaws}.
Implicit Types (g : Graph (Behavior Ext)) (b t n : NodeId) (l : list NodeId).

Lemma input_connections_frame g g' i : edges g' = edges g -> input_names g' = input_names g ->
  input_connections g' i = input_connections g i.
Proof. unfold input_connections, input_name. by intros -> ->. Qed.

Lemma duplicate_block (y : Behavior Ext) co c : as_block y = Some c ->
  exists x, duplicate y co = Some x /\ as_block x = Some c /\ as_track x = None.
Proof. destruct y; try done; simpl; intros [= <-]; eexists; split; done. Qed.

Lemma duplicate_other (y z : Behavior Ext) co : duplicate y co = Some z ->
  as_block y = None -> as_track y = None -> as_block z = None /\ as_track z = None.
Proof.
  destruct y; simpl; try done; intros Hd _ _; try (injection Hd as <-; done).
  destruct (other_duplicate o co); [|done]. injection Hd as <-. done.
Qed.

(** An edit of another block's core passes through a relocation. *)
Lemma relocate_modify_block g t n l x b f : b <> n ->
  modify_block (relocate g t n l x) b f = relocate (modify_block g b f) t n l x.
Proof.
  intros Hbn. unfold relocate, set_block_track.
  rewrite (modify_block_comm _ n b) by done. by rewrite modify_track_block_comm.
Qed.

Lemma relocate_set g t n l x h : relocate (modify_block g n h) t n l x =
  modify_track (modify_block g n (fun c => with_track (h c) x)) t (fun tb => with_blocks tb l).
Proof.
  unfold relocate, set_block_track.
  by rewrite modify_track_block_comm, modify_block_block.
Qed.

Lemma modify_track_same g t tb l : track_behavior_of g t = Some tb -> blocks tb = l ->
  modify_track g t (fun tb => with_blocks tb l) = g.
Proof.
  intros Ht E. apply modify_track_id. intros tb' Ht'. assert (tb' = tb) as -> by congruence.
  rewrite <- E. apply with_blocks_id.
Qed.

Lemma get_modify_block_ne g i f j : j <> i -> get (modify_block g i f) j = get g j.
Proof. intros Hj. unfold modify_block. rewrite get_modify_slot by apply with_behavior_keeping. by rewrite decide_False. Qed.
Lemma get_modify_track_ne g i f j : j <> i -> get (modify_track g i f) j = get g j.
Proof. intros Hj. unfold modify_track. rewrite get_modify_slot by apply with_behavior_keeping. by rewrite decide_False. Qed.
Lemma get_modify_block_eq g i f e : get g i = Some e ->
  get (modify_block g i f) i = Some (with_behavior (on_block f) e).
Proof.
  intros He. unfold modify_block. rewrite get_modify_slot by apply with_behavior_keeping.
  by rewrite decide_True, He by done.
Qed.

Lemma modify_edges g i f : edges (modify g i f) = edges g.
Proof. by destruct (modify_frame g i f). Qed.

Lemma Forall2_impl_in {A C} (P Q : A -> C -> Prop) (l : list A) (k : list C) :
  (forall (x : A) (y : C), x ∈ l -> P x y -> Q x y) -> Forall2 P l k -> Forall2 Q l k.
Proof.
  intros Hpq. induction 1 as [|x y l k Hxy _ IH]; constructor.
  - apply Hpq; [apply elem_of_cons; by left|done].
  - apply IH. intros u v Hu. apply Hpq, elem_of_cons. by right.
Qed.

Lemma NoDup_fmap_retain {A C} (f : A -> C) (p : A -> bool) (l : list A) : NoDup (f <$> l) -> NoDup (f <$> retain p l).
Proof.
  unfold retain. induction l as [|x l IH]; simpl; [done|]. intros [Hx Hl]%NoDup_cons.
  destruct (p x); [|by apply IH]. simpl. constructor; [|by apply IH]. intros Hin. apply Hx.
  apply list_elem_of_fmap in Hin as (y & -> & Hy). apply (elem_of_retain p) in Hy as [Hy _].
  by apply list_elem_of_fmap_2.
Qed.

Lemma list_choice {A C} (P : A -> C -> Prop) (l : list A) :
  (forall x, x ∈ l -> exists y, P x y) -> exists k, Forall2 P l k.
Proof.
  induction l as [|x l IH]; intros Hl; [by exists []|].
  destruct (Hl x) as [y Hy]; [apply elem_of_cons; by left|].
  destruct IH as [k Hk]; [intros u Hu; apply Hl, elem_of_cons; by right|]. exists (y :: k). by constructor.
Qed.

Lemma forallb_none {A} k :
  forallb (fun e : option A => match e with None => true | Some _ => false end) (replicate k None) = true.
Proof. by induction k. Qed.

Lemma fmap_none {A C} (l : list A) : (fun _ => None) <$> l = replicate (length l) (None : option C).
Proof. induction l as [|x l IH]; [done|]. cbn [fmap list_fmap length replicate]. by rewrite <- IH. Qed.

(** What [prepare] records of the inputs of some nodes. *)
Lemma recorded_inputs g (l : list NodeId) :
  flat_map (fun i => (fun e => (e.1.1, i, e.1.2, e.2)) <$> input_connections g i) l =
  recorded g <$> flat_map (fun i => retain (fun x => NodeId_eqb (to x) i) (edges g)) l.
Proof.
  induction l as [|i l IH]; [done|]. cbn [flat_map]. rewrite fmap_app, <- IH. f_equal.
  unfold input_connections. rewrite <- list_fmap_compose. apply list_fmap_ext. intros k x Hx.
  apply list_elem_of_lookup_2, elem_of_retain in Hx as [_ Hx]. apply NodeId_eqb_true in Hx. by subst i.
Qed.

(** The entries [us] of [ids] were taken out of [g]. *)
Record taken_out g (ids : list NodeId) g' : Prop := {
  det_arena : arena_wf g';
  det_length : length (entries g') = length (entries g);
  det_other k : (forall i, i ∈ ids -> slot (index i) <> k) -> entries g' !! k = entries g !! k;
  det_vacant i : i ∈ ids -> exists v, entries g' !! slot (index i) = Some v /\ vacant v = true;
  det_free : free_list g' = free_list g ++ (index <$> ids);
  det_names : input_names g' = input_names g;
  det_edges : edges g' = retain (fun x => negb (existsb (fun i => touches i x) ids)) (edges g);
  det_get j : get g' j = if bool_decide (j ∈ ids) then None else get g j
}.

Definition loose g i (u : NodeEntry (Behavior Ext)) : Prop := get g i = Some u /\ NodeCore.links (core u) = [].

Lemma take_entries_spec g ids us : arena_wf g -> NoDup ids -> Forall2 (loose g) ids us ->
  exists g', take_entries g ids (replicate (length ids) None) = (Some <$> us, g') /\ taken_out g ids g'.
Proof.
  intros Hw Hnd Hus. revert g Hw Hus. revert us. induction Hnd as [|i ids Hi Hnd IH]; intros us g Hw Hus.
  - apply Forall2_nil_inv_l in Hus as ->. exists g. split; [done|]. split; try done.
    + by intros i ?%elem_of_nil.
    + simpl. by rewrite app_nil_r.
    + simpl. by rewrite retain_all.
  - apply Forall2_cons_inv_l in Hus as (u & us' & [Hu Hl] & Hus & ->).
    destruct (take_node_spec g i u Hw Hu) as (g1 & Ht & Hw1 & He & Hn & Hf & Hlen & Hs & Hent & Hget).
    specialize (Hent Hl).
    assert (Hget' : forall j, get g1 j = if decide (j = i) then None else get g j).
    { intros j. rewrite Hget. case_decide; [done|]. rewrite bool_decide_eq_false_2; [done|].
      rewrite Hl. by intros ?%elem_of_nil. }
    assert (Hne : forall j v, j ∈ ids -> get g j = Some v -> slot (index i) <> slot (index j)).
    { intros j v Hj Hv E. apply slot_inj in E. apply Hi. by rewrite (get_same_index g i j u v Hu Hv E). }
    assert (Hlive : forall j, j ∈ ids -> exists v, get g j = Some v).
    { intros j Hj. apply list_elem_of_lookup in Hj as [k Hk].
      assert (exists v, us' !! k = Some v /\ loose g j v) as (v & _ & Hv & _) by (by eapply Forall2_lookup_l). eauto. }
    destruct (IH us' g1 Hw1) as (g2 & Ht2 & D).
    { eapply Forall2_impl_in; [|exact Hus]. intros j v Hj [Hv Hvl]. split; [|done].
      rewrite Hget', decide_False; [done|]. by intros ->. }
    exists g2. split; [cbn [length replicate take_entries]; by rewrite Ht, Ht2|]. destruct D. split.
    + done.
    + congruence.
    + intros k Hk. rewrite det_other0 by (intros j Hj; apply Hk, elem_of_cons; by right).
      rewrite Hent, list_lookup_insert_ne; [done|]. apply Hk, elem_of_cons. by left.
    + intros j Hj. apply elem_of_cons in Hj as [->|Hj]; [|by apply det_vacant0].
      rewrite det_other0; [by eexists|]. intros j Hj E. destruct (Hlive j Hj) as [v Hv]. by apply (Hne j v).
    + rewrite det_free0, Hf, <- app_assoc. done.
    + congruence.
    + rewrite det_edges0, He, retain_retain. apply retain_ext. intros x _. simpl. by rewrite negb_orb.
    + intros j. rewrite det_get0, Hget'. destruct (decide (j = i)) as [->|Hji].
      * rewrite (bool_decide_eq_true_2 (i ∈ i :: ids)) by (apply elem_of_cons; by left). by case_bool_decide.
      * rewrite (bool_decide_ext (j ∈ i :: ids) (j ∈ ids)); [done|]. rewrite elem_of_cons. tauto.
Qed.

(** Entries put back into their own vacant slots. *)
Lemma add_entries_spec g ids us : NoDup (index <$> ids) ->
  Forall2 (fun i u => vacant u = false) ids us ->
  (forall i, i ∈ ids -> exists v, entries g !! slot (index i) = Some v /\ vacant v = true) ->
  let g' := add_entries g ids (Some <$> us) in
  edges g' = edges g /\ input_names g' = input_names g /\
  free_list g' = foldl (fun F i => retain (fun x => negb (x =? index i)%N) F) (free_list g) ids /\
  (forall k, (forall i, i ∈ ids -> slot (index i) <> k) -> entries g' !! k = entries g !! k) /\
  (forall q i u, ids !! q = Some i -> us !! q = Some u -> entries g' !! slot (index i) = Some u).
Proof.
  intros Hnd Hus. revert g Hnd. induction Hus as [|i u ids us Hu Hus IH]; intros g Hnd Hv; [done|].
  rewrite fmap_cons in Hnd. apply NoDup_cons in Hnd as [Hi Hnd].
  destruct (Hv i) as (v & Hvi & Hvv); [apply elem_of_cons; by left|].
  assert (Hne : forall j, j ∈ ids -> slot (index i) <> slot (index j)).
  { intros j Hj E. apply slot_inj in E. apply Hi. rewrite E. by apply list_elem_of_fmap_2. }
  set (g1 := (add_entry g u i).1).
  assert (E : g1 = mkGraph (<[slot (index i) := u]> (entries g))
    (retain (fun x => negb (x =? index i)%N) (free_list g)) (edges g) (input_names g)).
  { unfold g1, add_entry. by rewrite Hvi, Hvv. }
  destruct (IH g1 Hnd) as (E1 & E2 & E3 & E4 & E5).
  { intros j Hj. rewrite E. simpl. rewrite list_lookup_insert_ne by (by apply Hne).
    apply Hv, elem_of_cons. by right. }
  cbn [fmap list_fmap add_entries]. fold g1. split; [by rewrite E1, E|]. split; [by rewrite E2, E|].
  split; [by rewrite E3, E|]. split.
  - intros k Hk. rewrite E4 by (intros j Hj; apply Hk, elem_of_cons; by right).
    rewrite E. simpl. rewrite list_lookup_insert_ne; [done|]. apply Hk, elem_of_cons. by left.
  - intros [|q] j w Hj Hw; simpl in Hj, Hw; [|by eapply E5]. simplify_eq.
    rewrite E4 by (intros k Hk; by apply not_eq_sym, Hne). rewrite E. simpl.
    apply list_lookup_insert_eq. by apply lookup_lt_Some in Hvi.
Qed.

Lemma retain_snoc_list (ks : list N) F : NoDup ks -> (forall k, k ∈ ks -> k ∉ F) ->
  foldl (fun F i => retain (fun x => negb (x =? i)%N) F) (F ++ ks) ks = F.
Proof.
  intros Hnd. induction Hnd as [|k ks Hk _ IH]; intros HF; simpl; [apply app_nil_r|].
  rewrite retain_app, retain_cons, N.eqb_refl. simpl. rewrite !retain_all.
  - apply IH. intros j Hj. apply HF, elem_of_cons. by right.
  - intros x Hx. apply negb_true_iff, N.eqb_neq. by intros ->.
  - intros x Hx. apply negb_true_iff, N.eqb_neq. intros ->. apply (HF k); [apply elem_of_cons; by left|done].
Qed.

(** Taking entries out and putting them back only costs the edges. *)
Lemma detach_attach g ids us g' : arena_wf g -> NoDup ids -> Forall2 (loose g) ids us ->
  taken_out g ids g' -> add_entries g' ids (Some <$> us) = with_edges g (edges g').
Proof.
  intros Hw Hnd Hus D.
  assert (Hlive : forall i, i ∈ ids -> exists q u, ids !! q = Some i /\ us !! q = Some u /\ get g i = Some u).
  { intros i Hi. apply list_elem_of_lookup in Hi as [q Hn].
    assert (exists u, us !! q = Some u /\ loose g i u) as (u & Hu & Hl & _) by (by eapply Forall2_lookup_l). eauto. }
  assert (Hidx : NoDup (index <$> ids)).
  { apply NoDup_fmap_2_strong; [|done]. intros i j Hi Hj E.
    destruct (Hlive i Hi) as (_ & u & _ & _ & Hu), (Hlive j Hj) as (_ & v & _ & _ & Hv).
    by eapply get_same_index. }
  destruct (add_entries_spec g' ids us Hidx) as (E1 & E2 & E3 & E4 & E5).
  { eapply Forall2_impl; [exact Hus|]. intros i u [Hu _]. apply get_Some in Hu. tauto. }
  { apply (det_vacant _ _ _ D). }
  set (g2 := add_entries g' ids (Some <$> us)) in *.
  assert (entries g2 = entries g).
  { apply list_eq. intros k. destruct (decide (k ∈ (slot ∘ index) <$> ids)) as [Hk|Hk].
    - apply list_elem_of_fmap in Hk as (i & -> & Hi). destruct (Hlive i Hi) as (q & u & Hn & Hu & Hg).
      unfold compose. rewrite (E5 q i u Hn Hu). by apply get_Some in Hg as (_ & Hg & _).
    - assert (Hk' : forall i, i ∈ ids -> slot (index i) <> k).
      { intros i Hi <-. apply Hk, list_elem_of_fmap. by exists i. }
      by rewrite (E4 k Hk'), (det_other _ _ _ D k Hk'). }
  assert (free_list g2 = free_list g).
  { rewrite E3, (det_free _ _ _ D).
    assert (Hfm : forall (F : list N) l, foldl (fun F i => retain (fun x => negb (x =? index i)%N) F) F l =
      foldl (fun F i => retain (fun x => negb (x =? i)%N) F) F (index <$> l)).
    { intros F l. revert F. induction l as [|j l IH]; intros F; simpl; [done|apply IH]. }
    rewrite Hfm. apply retain_snoc_list; [done|]. intros k Hk. apply list_elem_of_fmap in Hk as (i & -> & Hi).
    destruct (Hlive i Hi) as (_ & u & _ & _ & Hu). by eapply arena_live_not_free. }
  pose proof (det_names _ _ _ D). destruct g2, g; simpl in *. unfold with_edges. simpl. congruence.
Qed.
End split_correct.

Section one_block.
Context {Ext : Type} `{OtherBehavior Ext} `{InputHash} `{MapOrderLaws}.
Context (D : Z) {HD : GridDen D}.
Context (g : Graph (Behavior Ext)) (t b : NodeId) (tb : TrackBehavior) (l1 l2 : list NodeId).
Context (e : NodeEntry (Behavior Ext)) (c : BlockCore) (a z m p : Z).

(** A block of track [t] at [[a, z)], cut at [p]: its whole dependency chain
    duplicates and holds no second block and no track, which would be copied
    with the track they are on. *)
Record cuttable : Prop := {
  cut_graph : copyable g;
  cut_duplicable : duplicable g b;
  cut_chain i u : depends g b i -> i <> b -> is_item g i = false -> get g i = Some u ->
    as_block (behavior u) = None /\ as_track (behavior u) = None;
  cut_member : membership g;
  cut_track : track_behavior_of g t = Some tb;
  cut_place : blocks tb = l1 ++ b :: l2;
  cut_entry : get g b = Some e;
  cut_core : as_block (behavior e) = Some c;
  cut_not_item : is_item g b = false;
  cut_plays : plays D c a z m;
  cut_inside : a < p < z;
  cut_grid : Forall in_grid [a; p; z; z - a; p - a; z - p]
}.
Context (HC : cuttable).

Definition keep_head (x : BlockCore) : BlockCore := set_length_and_media_in x (grid D (p - a)).
Definition keep_tail (x : BlockCore) : BlockCore := set_length_and_media_out x (grid D (z - p)).

Lemma cut_block_core : block_core_of g b = Some c.
Proof. unfold block_core_of, behavior_of. rewrite (cut_entry HC). apply (cut_core HC). Qed.

Lemma cut_block_track : block_track g b = Some t.
Proof.
  destruct (cut_member HC t tb (cut_track HC)) as [_ Hin]. apply Hin.
  rewrite (cut_place HC), elem_of_app, elem_of_cons. tauto.
Qed.

Lemma cut_track_field : track c = Some t.
Proof. pose proof cut_block_track as E. unfold block_track in E. by rewrite cut_block_core in E. Qed.

Lemma cut_head : plays D (keep_head c) a p m.
Proof.
  destruct (cut_inside HC) as [Hap Hpz]. pose proof (cut_grid HC) as Hg.
  repeat (apply list.Forall_cons in Hg as [? Hg]).
  assert (Hp : plays D (keep_head c) a (a + (p - a)) m).
  { apply (set_media_in_plays D c a z m (p - a)); [apply HC|lia|done|done|]. by replace (a + (p - a)) with p by lia. }
  by replace (a + (p - a)) with p in Hp by lia.
Qed.

Lemma cut_tail x x' m' : plays D x x' z m' -> x' < z -> in_grid x' -> in_grid (z - x') -> plays D (keep_tail x) p z p.
Proof.
  intros Hx Hlt Hgx Hgl. destruct (cut_inside HC) as [Hap Hpz]. pose proof (cut_grid HC) as Hg.
  repeat (apply list.Forall_cons in Hg as [? Hg]).
  assert (Hp : plays D (keep_tail x) (z - (z - p)) z (z - (z - p))).
  { apply (set_media_out_plays D x x' z m' (z - p)); [done|lia|lia|done|done|done|done|]. by replace (z - (z - p)) with p by lia. }
  by replace (z - (z - p)) with p in Hp by lia.
Qed.

Lemma restore_head : set_length_and_media_in (keep_head c) (grid D (z - a)) = c.
Proof.
  destruct (cut_inside HC) as [Hap Hpz]. pose proof (cut_grid HC) as Hg.
  repeat (apply list.Forall_cons in Hg as [? Hg]).
  pose proof (set_media_in_plays D (keep_head c) a p m (z - a) cut_head) as Hp.
  destruct (cut_plays HC) as [Er Em].
  destruct Hp as [Er' Em']; [lia|done|done|by replace (a + (z - a)) with z by lia|].
  replace (a + (z - a)) with z in Er' by lia. rewrite <- Er in Er'.
  unfold set_length_and_media_in in *; cbn [range with_range] in Er'. unfold keep_head, set_length_and_media_in in *.
  cbn [range with_range] in Er'. destruct c; cbn in *. by rewrite Er'.
Qed.

(** The copy: fresh nodes, the first with the block's core. *)
Lemma cut_copy : exists g1 n m1,
  copy_node_and_dependency_graph_minus_items g b = (g1, Some (n, m1)) /\
  copying g b g1 m1 /\ (b, n) ∈ m1 /\ (forall o j, (o, j) ∈ m1 -> o <> j -> mirrored g g1 m1 o j).
Proof.
  apply (copy_graph_spec g b (cut_graph HC) (cut_duplicable HC)). by eapply get_valid, HC.
Qed.

(** The second half is a new node. *)
Lemma half_new g1 n m1 : copying g b g1 m1 -> (b, n) ∈ m1 -> b <> n /\ get g n = None /\ t <> n.
Proof.
  intros Hcp Hm. assert (Hbn : b <> n).
  { intros E. apply (cp_item _ _ _ _ Hcp _ _ Hm) in E. rewrite (cut_not_item HC) in E. done. }
  assert (Hn : get g n = None) by (by apply (cp_new _ _ _ _ Hcp b n)).
  split; [done|]. split; [done|]. intros <-. pose proof (cut_track HC) as Ht.
  unfold track_behavior_of, behavior_of in Ht. by rewrite Hn in Ht.
Qed.

Section halves.
Context (g1 : Graph (Behavior Ext)) (n : NodeId) (m1 : IdMap).
Context (Hcp : copying g b g1 m1) (Hm : (b, n) ∈ m1).
Context (Hbn : b <> n) (Hn : get g n = None) (Htn : t <> n).

Lemma half_fresh : fresh m1 n.
Proof. by exists b. Qed.

Lemma fresh_absent j : fresh m1 j -> get g j = None.
Proof. by eapply fresh_dead. Qed.
Lemma live_not_fresh j u : get g j = Some u -> ~ fresh m1 j.
Proof. intros Hu Hf. rewrite (fresh_absent _ Hf) in Hu. done. Qed.

Lemma half_entry : exists en, get g1 n = Some en /\ as_block (behavior en) = Some c /\
  as_track (behavior en) = None.
Proof.
  destruct (cp_new _ _ _ _ Hcp _ _ Hm Hbn) as (_ & e' & en & He & Hen & _ & Hd).
  assert (e' = e) as -> by (rewrite (cut_entry HC) in He; congruence). exists en. split; [done|].
  destruct (duplicate_block (behavior e) (core e) c (cut_core HC)) as (x & Hx & Hb & Ht).
  rewrite Hd in Hx. injection Hx as <-. done.
Qed.

Lemma track_not_fresh : ~ fresh m1 t.
Proof.
  pose proof (cut_track HC) as Ht. unfold track_behavior_of, behavior_of in Ht.
  destruct (get g t) as [u|] eqn:E; [by eapply live_not_fresh|done].
Qed.

(** The other copies are neither blocks nor tracks. *)
Lemma copy_plain j : fresh m1 j -> block_core_of g1 j = (if decide (j = n) then Some c else None) /\
  track_behavior_of g1 j = None.
Proof.
  intros (o & Ho & Hne). destruct (cp_new _ _ _ _ Hcp _ _ Ho Hne) as (_ & e1 & e2 & He1 & He2 & _ & Hd).
  unfold block_core_of, track_behavior_of, behavior_of. rewrite He2. simpl. destruct (decide (j = n)) as [->|Hj].
  - destruct half_entry as (en & Hen & Hb & Ht). rewrite He2 in Hen. by simplify_eq.
  - assert (Hob : o <> b) by (intros ->; apply Hj; by eapply key_inj; [apply Hcp|..]).
    destruct (cp_source _ _ _ _ Hcp _ _ Ho) as [_ Hdep].
    destruct (cut_chain HC o e1 Hdep Hob) as [Hb Ht]; [|done|].
    + pose proof (cp_item _ _ _ _ Hcp _ _ Ho). destruct (is_item g o); [|done]. tauto.
    + by eapply duplicate_other.
Qed.

Definition both_halves : list NodeId := l1 ++ b :: n :: l2.
Definition cut_graph_body (g0 : Graph (Behavior Ext)) : Graph (Behavior Ext) :=
  relocate (modify_block (modify_block g0 b keep_head) n keep_tail) t n both_halves (Some t).
(** The graph before the second half is taken out. *)
Definition parked : Graph (Behavior Ext) := modify_block g1 n (fun x => with_track (keep_tail x) None).

Lemma g1_block : block_core_of g1 b = Some c.
Proof.
  unfold block_core_of, behavior_of. rewrite (old_live _ _ _ _ _ _ Hcp (cut_entry HC)). apply (cut_core HC).
Qed.
Lemma g1_half : block_core_of g1 n = Some c.
Proof. destruct (copy_plain n half_fresh) as [-> _]. by rewrite decide_True. Qed.
Lemma g1_track j : track_behavior_of g1 j = track_behavior_of g j.
Proof.
  destruct (decide (j ∈ m1.*2 /\ get g j = None)) as [[Hj Hno]|Hj].
  - apply list_elem_of_fmap in Hj as ([o k] & -> & Ho). simpl in *.
    assert (Hf : fresh m1 k).
    { exists o. split; [done|]. intros ->. apply (cp_source _ _ _ _ Hcp) in Ho as [Hv _].
      apply valid_get in Hv as [u Hu]. congruence. }
    apply copy_plain in Hf as [_ ->]. unfold track_behavior_of, behavior_of. by rewrite Hno.
  - unfold track_behavior_of, behavior_of. rewrite (cp_old _ _ _ _ Hcp); [done|]. intros Hf. apply Hj.
    split; [|by apply fresh_absent]. destruct Hf as (o & Ho & _). apply list_elem_of_fmap. by exists (o, j).
Qed.

(** The part of [redo] after the copy, on any graph where the block is whole. *)
Lemma split_body g0 (k : BlockSplitCommand) :
  bs_block k = b -> bs_point k = grid D p -> new_block k = Some n ->
  block_core_of g0 b = Some c -> track_behavior_of g0 t = Some tb -> n <> b ->
  split_halves k g0 = (with_old_length k (grid D (z - a)), cut_graph_body g0).
Proof.
  intros E1 E2 E3 Hb Ht Hne. destruct k as [kb kp kn ki ke kd kl]; cbn in E1, E2, E3; subst.
  unfold split_halves; cbn [bs_block bs_point new_block with_old_length].
  destruct (cut_inside HC) as [Hap Hpz]. pose proof (cut_grid HC) as Hg.
  repeat (apply list.Forall_cons in Hg as [? Hg]). destruct (cut_plays HC) as [Er Em].
  assert (El : block_length g0 b = grid D (z - a)).
  { unfold block_length. rewrite Hb. simpl. unfold BlockCore_length. rewrite Er. by apply length_span. }
  assert (Ei : block_in g0 b = grid D a) by (rewrite (block_in_core _ _ _ Hb); unfold BlockCore_in; by rewrite Er).
  assert (Eo : block_out g0 b = grid D z) by (rewrite (block_out_core _ _ _ Hb); unfold BlockCore_out; by rewrite Er).
  rewrite El, Ei, Eo, !grid_sub by done. f_equal.
  unfold block_set_length_and_media_in, block_set_length_and_media_out.
  fold keep_head keep_tail. set (g2 := modify_block (modify_block g0 b keep_head) n keep_tail).
  assert (Ebt : block_track g2 b = Some t).
  { unfold g2, block_track. rewrite block_core_of_modify_block, decide_False by done.
    rewrite block_core_of_modify_block, decide_True, Hb by done. simpl. by apply cut_track_field. }
  rewrite Ebt. apply (track_insert_block_after_eq g2 t tb n b l1 l2).
  - unfold g2. by rewrite !track_behavior_of_modify_block.
  - apply HC.
  - destruct (cut_member HC t tb (cut_track HC)) as [Hnd _]. rewrite (cut_place HC) in Hnd.
    apply NoDup_app in Hnd as (_ & Hd & _). intros Hin. apply (Hd b Hin). apply elem_of_cons. by left.
Qed.

(** The copies, in the order the command records them, and their inputs. *)
Definition split_copies : list NodeId := copied_ids n m1.
Definition split_inputs : list Edge := flat_map (fun i => retain (fun x => NodeId_eqb (to x) i) (edges g1)) split_copies.

Lemma ids_fresh j : j ∈ split_copies <-> fresh m1 j.
Proof.
  unfold split_copies, copied_ids. rewrite elem_of_cons, list_elem_of_fmap. split.
  - intros [->|([o k] & -> & Ho)]; [apply half_fresh|].
    apply elem_of_retain in Ho as [Ho Hne]. rewrite map_order_perm in Ho. apply andb_true_iff in Hne as [Hne _].
    apply negb_true_iff, NodeId_eqb_false in Hne.
    by exists o.
  - intros (o & Ho & Hne). destruct (decide (j = n)) as [->|Hj]; [by left|right]. exists (o, j).
    split; [done|]. apply elem_of_retain. rewrite map_order_perm. split; [done|]. cbn [fst snd].
    by rewrite !(proj2 (NodeId_eqb_false _ _)).
Qed.

Lemma ids_NoDup : NoDup split_copies.
Proof.
  assert (Hnd : NoDup (map_order m1).*2) by (rewrite map_order_perm; apply Hcp).
  unfold split_copies, copied_ids. constructor; [|by apply NoDup_fmap_retain].
  intros Hin. apply list_elem_of_fmap in Hin as ([o k] & -> & Ho). apply elem_of_retain in Ho as [_ Hne].
  cbn [fst snd] in Hne. by rewrite NodeId_eqb_refl, andb_false_r in Hne.
Qed.

Lemma elem_of_inputs x : x ∈ split_inputs <-> x ∈ edges g1 /\ fresh m1 (to x).
Proof.
  unfold split_inputs. rewrite <- ids_fresh, list_elem_of_In, in_flat_map. split.
  - intros (i & Hi & Hx). apply list_elem_of_In in Hi, Hx. apply elem_of_retain in Hx as [Hx Ht].
    apply NodeId_eqb_true in Ht as ->. done.
  - intros [Hx Hi]. exists (to x). rewrite <- !list_elem_of_In, elem_of_retain, NodeId_eqb_refl. done.
Qed.

(** An edge at a copy is an input of a copy. *)
Lemma touched_input i x : x ∈ edges g1 -> fresh m1 i -> touches i x = true -> fresh m1 (to x).
Proof.
  intros Hx Hi Ht. apply (cp_edges_new _ _ _ _ Hcp) in Hx as [Hx|(y & _ & _ & Hy & Hne & _)]; [|by exists (to y)].
  destruct (graph_live _ (copyable_graph _ (cut_graph HC)) x Hx) as [[u Hu]%valid_get [w Hw]%valid_get].
  apply orb_true_iff in Ht. rewrite !NodeId_eqb_true in Ht.
  destruct Ht as [<-| <-]; [destruct (live_not_fresh _ _ Hu Hi)|destruct (live_not_fresh _ _ Hw Hi)].
Qed.

Definition split_done : BlockSplitCommand (Ext := Ext) :=
  mkBlockSplit b (grid D p) (Some n) split_copies (recorded g1 <$> split_inputs) (replicate (length split_copies) None) (grid D (z - a)).
Definition split_undone (us : list (NodeEntry (Behavior Ext))) : BlockSplitCommand (Ext := Ext) :=
  mkBlockSplit b (grid D p) (Some n) split_copies (recorded g1 <$> split_inputs) (Some <$> us) (grid D (z - a)).

Lemma redo_first : copy_node_and_dependency_graph_minus_items g b = (g1, Some (n, m1)) ->
  BlockSplitCommand_redo (BlockSplitCommand_new b (grid D p)) g = (split_done, cut_graph_body g1).
Proof.
  intros Hcopy.
  unfold BlockSplitCommand_redo, BlockSplitCommand_prepare; cbn [new_block BlockSplitCommand_new bs_block bs_point bs_old_length].
  rewrite Hcopy. cbv zeta. fold split_copies. rewrite recorded_inputs. fold split_inputs.
  unfold re_attach_subgraph; cbn [detached_entries]. rewrite forallb_none.
  rewrite (split_body g1); [done|done|done|done|apply g1_block|rewrite g1_track; apply HC|apply not_eq_sym, Hbn].
Qed.

Lemma parked_edges : edges parked = edges g1 /\ input_names parked = input_names g1.
Proof. unfold parked, modify_block. by destruct (modify_frame g1 n (with_behavior (on_block (fun x => with_track (keep_tail x) None)))) as (? & ? & ? & ?). Qed.

Lemma parked_get j u : get parked j = Some u -> exists w, get g1 j = Some w /\ core u = core w.
Proof.
  unfold parked, modify_block. rewrite get_modify_slot by apply with_behavior_keeping.
  case_decide; [|by eauto]. destruct (get g1 j) as [w|]; [|done]. intros [= <-]. by exists w.
Qed.

Lemma parked_live j w : get g1 j = Some w -> exists u, get parked j = Some u /\ core u = core w.
Proof.
  intros Hw. unfold parked, modify_block. rewrite get_modify_slot by apply with_behavior_keeping.
  rewrite Hw. case_decide; eexists; done.
Qed.

Lemma parked_other j : j <> n -> get parked j = get g1 j.
Proof. intros Hj. unfold parked. by rewrite get_modify_block_ne. Qed.

Lemma parked_wf : graph_wf parked.
Proof.
  apply (graph_wf_grow g1); [apply Hcp|apply arena_wf_modify_block, (cp_graph _ _ _ _ Hcp)|apply parked_edges|].
  intros j [w Hw]%valid_get. destruct (parked_live j w Hw) as (u & Hu & _). by eapply get_valid.
Qed.

Lemma parked_wired : wired parked.
Proof.
  intros x. destruct parked_edges as [-> Hnm]. intros Hx.
  destruct (copying_wired _ _ (cut_graph HC) _ _ Hcp x Hx) as (s & w & Hs & Hh & Hw & Hr).
  exists s, w. rewrite Hnm. split; [done|]. split; [done|]. split; [|done]. revert Hw. unfold target_input.
  destruct (get g1 (to x)) as [u|] eqn:Hu; [|done]. destruct (parked_live _ _ Hu) as (u' & -> & Hc).
  simpl. by rewrite Hc.
Qed.

Lemma parked_block : block_core_of parked b = Some c.
Proof. unfold parked. rewrite block_core_of_modify_block, decide_False by done. apply g1_block. Qed.
Lemma parked_track : track_behavior_of parked t = Some tb.
Proof. unfold parked. rewrite track_behavior_of_modify_block, g1_track. apply HC. Qed.

(** What [undo] leaves before detaching. *)
Lemma undo_edits :
  track_ripple_remove_block (block_set_length_and_media_in (cut_graph_body g1) b (grid D (z - a))) t n = parked.
Proof.
  unfold block_set_length_and_media_in, cut_graph_body. rewrite relocate_modify_block by done.
  rewrite (modify_block_comm _ n b), modify_block_block by done.
  rewrite (modify_block_id g1 b).
  2:{ intros c' E. rewrite g1_block in E. simplify_eq. apply restore_head. }
  set (g2 := modify_block g1 n keep_tail).
  assert (Ht2 : track_behavior_of g2 t = Some tb).
  { unfold g2. rewrite track_behavior_of_modify_block, g1_track. apply HC. }
  assert (Hout : n ∉ l1 ++ b :: l2).
  { rewrite <- (cut_place HC). destruct (cut_member HC t tb (cut_track HC)) as [_ Hin]. rewrite Hin.
    unfold block_track, block_core_of, behavior_of. by rewrite Hn. }
  rewrite not_elem_of_app, not_elem_of_cons in Hout. destruct Hout as (H1n & H2n & H3n).
  rewrite (track_ripple_remove_block_eq _ t (with_blocks tb both_halves) n (l1 ++ [b]) l2).
  - rewrite relocate_relocate. unfold g2. rewrite relocate_set.
    apply (modify_track_same _ t tb); [apply parked_track|]. rewrite (cut_place HC). by rewrite <- app_assoc.
  - by apply track_of_relocate.
  - cbn [blocks with_blocks]. unfold both_halves. by rewrite <- app_assoc.
  - rewrite not_elem_of_app, list_elem_of_singleton. by split.
  - done.
Qed.

Lemma parked_loose : exists us, Forall2 (loose parked) split_copies us.
Proof.
  apply list_choice. intros j (o & Ho & Hne)%ids_fresh.
  destruct (cp_new _ _ _ _ Hcp _ _ Ho Hne) as (_ & e1 & e2 & _ & He2 & [mm Hmm] & _).
  destruct (parked_live j e2 He2) as (u & Hu & Hc). exists u. split; [done|]. by rewrite Hc, Hmm.
Qed.

Section away.
Context (us : list (NodeEntry (Behavior Ext))) (g2 : Graph (Behavior Ext)).
Context (Hus : Forall2 (loose parked) split_copies us) (HD2 : taken_out parked split_copies g2).

Lemma away_edges x : x ∈ edges g2 <-> x ∈ edges g1 /\ ~ fresh m1 (to x).
Proof.
  rewrite (det_edges _ _ _ HD2), (proj1 parked_edges), elem_of_retain, negb_true_iff. split; intros [Hx Hi]; (split; [done|]).
  - intros Hf. apply not_true_iff_false in Hi. apply Hi, existsb_exists. exists (to x).
    split; [by apply list_elem_of_In, ids_fresh|]. unfold touches. by rewrite NodeId_eqb_refl, orb_true_r.
  - apply not_true_iff_false. intros (i & Hin & Ht)%existsb_exists. apply list_elem_of_In, ids_fresh in Hin.
    by apply Hi, (touched_input i).
Qed.

Lemma away_sorted : edges_sorted (edges g2).
Proof. rewrite (det_edges _ _ _ HD2), (proj1 parked_edges). apply edges_sorted_retain, Hcp. Qed.

Lemma away_equiv : graph_equiv g2 g.
Proof.
  split.
  - intros j. rewrite (det_get _ _ _ HD2). case_bool_decide as Hj.
    + apply ids_fresh in Hj. symmetry. by apply fresh_absent.
    + rewrite parked_other by (intros ->; apply Hj, ids_fresh, half_fresh).
      apply (cp_old _ _ _ _ Hcp). by rewrite <- ids_fresh.
  - apply edges_sorted_unique; [apply away_sorted|apply (cut_graph HC)|]. intros x. rewrite away_edges. split.
    + intros [Hx Hf]. apply (cp_edges_new _ _ _ _ Hcp) in Hx as [Hx|(y & _ & _ & Hy & Hne & _)]; [done|].
      destruct Hf. by exists (to y).
    + intros Hx. split; [by apply (cp_edges_old _ _ _ _ Hcp)|].
      destruct (graph_live _ (copyable_graph _ (cut_graph HC)) x Hx) as [_ [w Hw]%valid_get].
      by eapply live_not_fresh.
Qed.

(** Re-attaching gives the graph before the detachment, edges included. *)
Lemma re_attached : foldl (fun g e => (connect g e.1.1.1 e.1.1.2 e.1.2 e.2).1)
  (add_entries g2 split_copies (Some <$> us)) (recorded g1 <$> split_inputs) = parked.
Proof.
  rewrite (detach_attach parked split_copies us g2 (graph_arena _ parked_wf) ids_NoDup Hus HD2).
  destruct parked_edges as [Ee En].
  assert (Hrec : recorded g1 <$> split_inputs = recorded parked <$> split_inputs).
  { apply list_fmap_ext. intros k x _. unfold recorded, input_name. by rewrite En. }
  rewrite Hrec. destruct (reconnect_again parked (edges g2) split_inputs parked_wf parked_wired) as (l & -> & Hl & Hin).
  - intros y Hy. rewrite Ee. by apply away_edges.
  - intros y Hy. rewrite Ee. by apply elem_of_inputs.
  - apply away_sorted.
  - assert (l = edges parked) as ->; [|by destruct parked].
    apply edges_sorted_unique; [done|rewrite Ee; apply Hcp|]. intros y. rewrite Hin, away_edges, elem_of_inputs, Ee.
    rewrite <- ids_fresh. destruct (decide (to y ∈ split_copies)); tauto.
Qed.
End away.

Lemma undo_done : exists g2 us,
  BlockSplitCommand_undo split_done (cut_graph_body g1) = (split_undone us, g2) /\
  BlockSplitCommand_redo (split_undone us) g2 = (split_done, cut_graph_body parked) /\ graph_equiv g2 g.
Proof.
  destruct parked_loose as [us Hus].
  destruct (take_entries_spec parked split_copies us (graph_arena _ parked_wf) ids_NoDup Hus) as (g2 & Ht & HD2).
  exists g2, us. split; [|split; [|by apply away_equiv]].
  - unfold BlockSplitCommand_undo. cbn [bs_block bs_old_length new_block split_done].
    assert (Hbt : block_track (cut_graph_body g1) b = Some t).
    { unfold cut_graph_body. rewrite block_track_relocate, decide_False by done.
      unfold block_track. rewrite block_core_of_modify_block, decide_False by done.
      rewrite block_core_of_modify_block, decide_True, g1_block by done. simpl. apply cut_track_field. }
    rewrite Hbt, undo_edits. unfold detach_subgraph; cbn [copied detached_entries split_done]. by rewrite Ht.
  - unfold BlockSplitCommand_redo, BlockSplitCommand_prepare. cbn [new_block split_undone].
    unfold re_attach_subgraph. cbn [detached_entries split_undone copied copied_edges].
    rewrite (re_attached us g2 Hus HD2).
    assert (Hlen : length us = length split_copies) by (symmetry; by eapply Forall2_length).
    rewrite fmap_none, length_fmap, Hlen.
    unfold split_copies at 1, copied_ids in Hus. destruct us as [|u us]; [by apply Forall2_nil_inv_r in Hus|].
    cbn [fmap list_fmap forallb andb].
    rewrite (split_body parked); [done|done|done|done|apply parked_block|apply parked_track|done].
Qed.

(** Cutting the whole block again gives the same graph. *)
Lemma body_again : cut_graph_body parked = cut_graph_body g1.
Proof.
  unfold cut_graph_body, parked. rewrite (modify_block_comm g1 n b), modify_block_block by done.
  rewrite !relocate_set.
  apply (f_equal (fun g2 => modify_track g2 t (fun tb => with_blocks tb both_halves))).
  apply modify_block_ext. intros c' E.
  rewrite block_core_of_modify_block, decide_False, g1_half in E by done. simplify_eq.
  destruct (cut_inside HC) as [Hap Hpz]. pose proof (cut_grid HC) as Hg.
  repeat (apply list.Forall_cons in Hg as [? Hg]).
  pose proof (cut_tail c a m (cut_plays HC) ltac:(lia) ltac:(done) ltac:(done)) as [Er Em].
  assert (Hp2 : plays D (with_track (keep_tail c) None) p z p) by (by split).
  pose proof (cut_tail _ p p Hp2 ltac:(lia) ltac:(done) ltac:(done)) as [Er2 Em2].
  unfold keep_tail in *. rewrite (media_out_form (with_track _ None)), Er2, Em2, (media_out_form c), Er, Em. done.
Qed.

Lemma body_block : exists cb, block_core_of (cut_graph_body g1) b = Some cb /\ plays D cb a p m.
Proof.
  exists (keep_head c). split; [|apply cut_head]. unfold cut_graph_body.
  rewrite block_core_of_relocate, decide_False by done.
  by rewrite !block_core_of_modify_block, decide_False, decide_True, g1_block by done.
Qed.

Lemma body_half : exists cn, block_core_of (cut_graph_body g1) n = Some cn /\ plays D cn p z p.
Proof.
  destruct (cut_inside HC) as [Hap Hpz]. pose proof (cut_grid HC) as Hg.
  repeat (apply list.Forall_cons in Hg as [? Hg]).
  exists (with_track (keep_tail c) (Some t)). split.
  - unfold cut_graph_body. rewrite block_core_of_relocate, decide_True by done.
    by rewrite block_core_of_modify_block, decide_True, block_core_of_modify_block, decide_False, g1_half by done.
  - destruct (cut_tail c a m (cut_plays HC)) as [Er Em]; [lia|done|done|]. by split.
Qed.

Lemma body_get j : j <> b -> j <> n -> j <> t -> get (cut_graph_body g1) j = get g1 j.
Proof.
  intros Hjb Hjn Hjt. unfold cut_graph_body, relocate, set_block_track.
  by rewrite get_modify_block_ne, get_modify_track_ne, !get_modify_block_ne.
Qed.

Lemma body_other j : j <> b -> j ∉ split_copies -> j <> t -> get (cut_graph_body g1) j = get g j.
Proof.
  intros Hjb Hj Hjt. rewrite ids_fresh in Hj. rewrite body_get; [|done| |done].
  - by apply (cp_old _ _ _ _ Hcp).
  - intros ->. apply Hj, half_fresh.
Qed.

Lemma body_edges : edges (cut_graph_body g1) = edges g1.
Proof. unfold cut_graph_body, relocate, set_block_track, modify_block, modify_track. by rewrite !modify_edges. Qed.

Lemma body_copy : (forall o j, (o, j) ∈ m1 -> o <> j -> mirrored g g1 m1 o j) ->
  dependency_copy g b (cut_graph_body g1) m1.
Proof.
  intros Hmir. apply (dependency_copy_intro g b g1 _ m1 n Hcp Hm Hmir body_edges).
  intros j u Hj Hu.
  assert (Hjb : j <> b) by (intros ->; by apply (live_not_fresh _ _ (cut_entry HC))).
  assert (Hjt : j <> t) by (intros ->; by apply track_not_fresh).
  destruct (decide (j = n)) as [->|Hjn].
  - eexists. split.
    + unfold cut_graph_body, relocate, set_block_track. apply get_modify_block_eq.
      rewrite get_modify_track_ne by done. apply get_modify_block_eq. by rewrite get_modify_block_ne.
    + by split.
  - exists u. by rewrite body_get.
Qed.

Lemma body_tracks : blocks <$> track_behavior_of (cut_graph_body g1) t = Some (l1 ++ b :: n :: l2).
Proof.
  unfold cut_graph_body. rewrite (track_of_relocate _ t tb); [done|].
  rewrite !track_behavior_of_modify_block, g1_track. apply HC.
Qed.

Lemma relocate_after_set (g0 : Graph (Behavior Ext)) l x y :
  relocate (set_block_track g0 n x) t n l y = relocate g0 t n l y.
Proof.
  unfold relocate, set_block_track. by rewrite !modify_track_block_comm, modify_block_block.
Qed.

Lemma body_membership : membership (cut_graph_body g1).
Proof.
  unfold cut_graph_body. rewrite <- (relocate_after_set _ _ None).
  set (g2 := set_block_track _ n None).
  assert (Hb2 : block_core_of g2 n = Some (with_track (keep_tail c) None)).
  { unfold g2, set_block_track. rewrite block_core_of_modify_block, decide_True by done.
    by rewrite block_core_of_modify_block, decide_True, block_core_of_modify_block, decide_False, g1_half by done. }
  assert (Ht2 : forall j, track_behavior_of g2 j = track_behavior_of g j).
  { intros j. unfold g2, set_block_track. by rewrite !track_behavior_of_modify_block, g1_track. }
  eapply (attach_membership g2 t n _ tb); [|by rewrite Ht2; apply HC|done|done|].
  - apply (membership_ext g); [intros j; by rewrite Ht2| |apply HC].
    intros j. unfold g2. rewrite block_track_set. case_decide as Ej.
    + subst j. rewrite block_core_of_modify_block, decide_True by done.
      rewrite block_core_of_modify_block, decide_False, g1_half by done. simpl.
      unfold block_track, block_core_of, behavior_of. by rewrite Hn.
    + unfold block_track. rewrite !block_core_of_modify_block, decide_False by done.
      case_decide as Ejb.
      * subst j. rewrite g1_block, cut_block_core. simpl. by rewrite cut_track_field.
      * destruct (decide (j ∈ split_copies)) as [Hf%ids_fresh|Hf].
        -- destruct (copy_plain j Hf) as [-> _]. rewrite decide_False by done.
           unfold block_core_of, behavior_of. by rewrite fresh_absent.
        -- rewrite ids_fresh in Hf. unfold block_core_of, behavior_of. by rewrite (cp_old _ _ _ _ Hcp).
  - rewrite (cut_place HC). unfold both_halves. by rewrite <- !Permutation_middle, perm_swap.
Qed.
End halves.

(** C38: splitting a block inside its span, in a graph with room for the copies
    whose connections end in inputs that exist, when the nodes the block depends
    on all duplicate and are no further blocks or tracks ([cuttable]), any
    number of inputs and effects included: the block keeps its head and its
    media, and a fresh block right after it on the track takes the tail; the
    split adds a copy of the block's whole dependency chain, items shared, with
    the inputs of the originals carried over, the command records exactly the
    new nodes, membership still holds and no other node changes.  Undo removes
    every copy and gives a graph that resolves every id and has the edges as
    before; redo brings back the same nodes, free slots, names and edges, so
    that redo and undo swing exactly between the two.  The tail's media starts
    at the timeline split point, so the picture at a time is the one shown
    before the split only if the block's media started at its in point. *)
Theorem block_split_command :
  exists n m1 k1 g1 k2 g2 cb cn,
    BlockSplitCommand_redo (BlockSplitCommand_new b (grid D p)) g = (k1, g1) /\
    new_block k1 = Some n /\ (b, n) ∈ m1 /\ b <> n /\
    dependency_copy g b g1 m1 /\ NoDup (copied k1) /\
    (forall j, j ∈ copied k1 <-> exists o, (o, j) ∈ m1 /\ o <> j) /\
    block_core_of g1 b = Some cb /\ plays D cb a p m /\
    block_core_of g1 n = Some cn /\ plays D cn p z p /\
    blocks <$> track_behavior_of g1 t = Some (l1 ++ b :: n :: l2) /\ membership g1 /\
    (forall j, j <> b -> j <> t -> j ∉ copied k1 -> get g1 j = get g j) /\
    BlockSplitCommand_undo k1 g1 = (k2, g2) /\ graph_equiv g2 g /\
    BlockSplitCommand_redo k2 g2 = (k1, g1) /\
    (media_in cn = grid D (m + (p - a)) <-> m = a).
Proof.
  destruct cut_copy as (g1 & n & m1 & Hcopy & Hcp & Hm & Hmir).
  destruct (half_new g1 n m1 Hcp Hm) as (Hbn & Hn & Htn).
  destruct (undo_done g1 n m1 Hcp Hm Hbn Hn Htn) as (g2 & us & Hu & Hr & Heq).
  destruct (body_block g1 n m1 Hcp Hbn) as (cb & Hcb & Hpb).
  destruct (body_half g1 n m1 Hcp Hm Hbn) as (cn & Hcn & Hpn).
  exists n, m1, (split_done g1 n m1), (cut_graph_body n g1), (split_undone g1 n m1 us), g2, cb, cn.
  split; [by eapply redo_first|]. split; [done|]. split; [done|]. split; [done|].
  split; [by eapply body_copy|]. split; [by eapply ids_NoDup|]. split; [intros j; by eapply ids_fresh|].
  split; [done|]. split; [done|]. split; [done|]. split; [done|].
  split; [by eapply body_tracks|]. split; [by eapply body_membership|].
  split; [intros j Hjb Hjt Hj; by eapply body_other|]. split; [done|]. split; [done|].
  split; [by erewrite <- body_again|].
  destruct Hpn as [_ ->]. rewrite (grid_inj D). lia.
Qed.
End one_block.

(** * A run *)

#[local] Existing Instance no_others.
#[local] Existing Instance length_hash_.
#[local] Instance insertion_order : MapOrder := fun m => m.
#[local] Instance insertion_order_laws : MapOrderLaws.
Proof. by intros m. Qed.

(** A node that is neither a block nor a track, and a connection, change no
    membership. *)
Lemma add_plain_membership (g : Graph (Behavior Empty_set)) co x : arena_wf g -> has_room g -> membership g ->
  as_block x = None -> as_track x = None -> membership (add_node g co x).1.
Proof.
  intros Hw Hr Hm Hb Ht. pose proof (allocate_spec g co x Hw Hr) as Ha. unfold add_node.
  destruct (allocate g co x) as [g' n]. destruct Ha as (_ & _ & _ & _ & Hn & Hget).
  apply (membership_ext g); [| |done]; intros j;
    unfold track_behavior_of, block_track, block_core_of, behavior_of; rewrite Hget;
    (case_decide; [subst|done]); rewrite Hn; simpl; by rewrite ?Hb, ?Ht.
Qed.

Lemma connect_membership (g : Graph (Behavior Empty_set)) f t input el :
  membership g -> membership (connect g f t input el).1.
Proof.
  intros Hm. destruct (connect_cases g f t input el) as [[-> _]|(err & -> & _)]; [cbn [fst]|done].
  apply (membership_ext g); [| |done]; intros j;
    unfold track_behavior_of, block_track, block_core_of, behavior_of; by rewrite connected_get.
Qed.

(** The clip at [5, 8) with an effect in front of it, fed by a shared item. *)
Definition FX_IN : string := "fx_in".
Definition effect_core : NodeCore := add_input NodeCore_new (Input_new FX_IN VT_Texture NV_None).
Definition item_core : NodeCore := with_core_flags NodeCore_new IS_ITEM.

Definition demo_nodes : Graph (Behavior Empty_set) :=
  let g := block_set_range demo_edit (node_at 3) (mkTimeRange (new 5 1) (new 8 1)) in
  (add_node (add_node g effect_core BEmpty).1 item_core BEmpty).1.
Definition demo_chain : Graph (Behavior Empty_set) :=
  (connect (connect demo_nodes (node_at 6) (node_at 5) FX_IN (-1)).1
    (node_at 5) (node_at 3) TEXTURE_INPUT (-1)).1.

Definition demo_chain_edges : list Edge := Eval vm_compute in edges demo_chain.

Lemma demo_chain_wf : graph_wf demo_chain /\ membership demo_chain.
Proof.
  destruct demo_edit_wf as [Hw Hm].
  set (g := block_set_range demo_edit (node_at 3) (mkTimeRange (new 5 1) (new 8 1))).
  assert (Hg : graph_wf g).
  { split; [by apply arena_wf_modify_block| | |].
    - intros x Hx. by apply elem_of_nil in Hx.
    - intros x y Hx. by apply elem_of_nil in Hx.
    - intros i Hi. destruct Hi as [i j (x & Hx & _)|i j k (x & Hx & _)]; by apply elem_of_nil in Hx. }
  assert (Hgm : membership g).
  { apply (track_step_keeps demo_edit _ Hw Hm). apply (step_span demo_edit (node_at 3)). done. }
  assert (R1 : has_room g) by (right; vm_compute; reflexivity).
  pose proof (graph_wf_add_node g effect_core BEmpty Hg R1) as Hg1.
  pose proof (add_plain_membership g effect_core BEmpty (graph_arena _ Hg) R1 Hgm eq_refl eq_refl) as Hm1.
  set (g1 := (add_node g effect_core BEmpty).1) in *.
  assert (R2 : has_room g1) by (right; vm_compute; reflexivity).
  split.
  - do 2 apply graph_wf_connect. by apply graph_wf_add_node.
  - do 2 apply connect_membership. by apply add_plain_membership; [apply Hg1|..].
Qed.

(** What the split of the clip copies: the clip and the effect, not the item. *)
Lemma demo_depends i : depends demo_chain (node_at 3) i ->
  i = node_at 3 \/ i = node_at 5 \/ i = node_at 6.
Proof.
  induction 1 as [|i j _ IH _ (x & Hx & <- & <-)]; [by left|].
  change (edges demo_chain) with demo_chain_edges in Hx.
  unfold demo_chain_edges in Hx. rewrite !elem_of_cons, elem_of_nil in Hx.
  destruct Hx as [->|[->|[]]]; simpl; tauto.
Qed.

Definition demo_clip : NodeEntry (Behavior Empty_set) := Eval vm_compute in
  default (vacant_entry 0) (get demo_chain (node_at 3)).
Definition demo_clip_core : BlockCore := Eval vm_compute in
  default BlockCore_default (as_block (behavior demo_clip)).

Lemma demo_copyable : copyable demo_chain.
Proof.
  split.
  - apply demo_chain_wf.
  - vm_compute. repeat constructor.
  - intros x Hx. change (edges demo_chain) with demo_chain_edges in Hx.
    unfold demo_chain_edges in Hx. rewrite !elem_of_cons, elem_of_nil in Hx.
    destruct Hx as [->|[->|[]]]; eexists _, _; (split; [vm_compute; reflexivity|]);
      (split; [reflexivity|]); (split; [vm_compute; reflexivity|]); (split; [reflexivity|by right]).
  - by vm_compute.
Qed.

Lemma demo_cuttable : cuttable 1 demo_chain (node_at 0) (node_at 3)
  (mkTrack Video [node_at 1; node_at 2; node_at 3] false false DEFAULT_HEIGHT_INTERNAL 0 None)
  [node_at 1; node_at 2] [] demo_clip demo_clip_core 5 8 0 6.
Proof.
  split; try reflexivity.
  - exact demo_copyable.
  - intros i u Hi. destruct (demo_depends i Hi) as [->|[->| ->]]; vm_compute; intros [= <-]; by eexists.
  - intros i u Hi Hne Hit. destruct (demo_depends i Hi) as [->|[->| ->]]; [done| |by vm_compute in Hit].
    vm_compute. by intros [= <-].
  - apply demo_chain_wf.
  - split; reflexivity.
  - lia.
  - repeat constructor.
Qed.

(** The effect (node 5) is copied to node 8, which the item (node 6) feeds,
    away after the undo and back after the next redo. *)
Lemma block_split_command_witness :
  (let '(k1, g1) := BlockSplitCommand_redo (BlockSplitCommand_new (node_at 3) (grid 1 6)) demo_chain in
   let '(k2, g2) := BlockSplitCommand_undo k1 g1 in
   copied k1 = [node_at 7; node_at 8] /\ is_valid g2 (node_at 8) = false /\
   connected_output g1 (node_at 8) FX_IN (-1) = Some (node_at 6) /\
   connected_output (BlockSplitCommand_redo k2 g2).2 (node_at 7) TEXTURE_INPUT (-1) = Some (node_at 8)) /\
  exists n m1 k1 g1 k2 g2 cb cn,
    BlockSplitCommand_redo (BlockSplitCommand_new (node_at 3) (grid 1 6)) demo_chain = (k1, g1) /\
    new_block k1 = Some n /\ (node_at 3, n) ∈ m1 /\ node_at 3 <> n /\
    dependency_copy demo_chain (node_at 3) g1 m1 /\ NoDup (copied k1) /\
    (forall j, j ∈ copied k1 <-> exists o, (o, j) ∈ m1 /\ o <> j) /\
    block_core_of g1 (node_at 3) = Some cb /\ plays 1 cb 5 6 0 /\
    block_core_of g1 n = Some cn /\ plays 1 cn 6 8 6 /\
    blocks <$> track_behavior_of g1 (node_at 0) = Some ([node_at 1; node_at 2] ++ [node_at 3; n]) /\ membership g1 /\
    (forall j, j <> node_at 3 -> j <> node_at 0 -> j ∉ copied k1 -> get g1 j = get demo_chain j) /\
    BlockSplitCommand_undo k1 g1 = (k2, g2) /\ graph_equiv g2 demo_chain /\
    BlockSplitCommand_redo k2 g2 = (k1, g1) /\
    (media_in cn = grid 1 (0 + (6 - 5)) <-> 0 = 5).
Proof.
  split; [vm_compute; done|].
  assert (HD : GridDen 1) by done.
  exact (block_split_command 1 demo_chain (node_at 0) (node_at 3) _ [node_at 1; node_at 2] [] demo_clip demo_clip_core
    5 8 0 6 demo_cuttable).
Defined.
