(* ===== verification/GeneralCommands.v ===== *)
(** General timeline commands (crates/oak-timeline/src/undogeneral.rs): block
    resizing, media in, enabling, track addition and removal, transition
    offsets and removal.  Gap commands are in GapCommands.v.

    A constructor that creates a node or captures state takes the graph. *)

From Stdlib Require Import QArith Lqa.
From S2P Require Import Prelude Rational TimeRange Undo Ids Value Keyframe NodeCore Graph Arena Dag Block Track Timeline TrackCommands SplitCommands.

Local Open Scope Z_scope.

Section general.
Context {Ext : Type} `{OtherBehavior Ext} `{InputHash} `{MapOrder}.
Abbreviation G := (Graph (Behavior Ext)).
Abbreviation Entry := (NodeEntry (Behavior Ext)).

(** * Resizing *)

Record BlockResizeCommand : Type := mkResize { re_block : NodeId; re_new : Rational; re_old : Rational }.
Definition BlockResizeCommand_new (b : NodeId) (len : Rational) := mkResize b len (new 0 1).
Definition BlockResizeCommand_redo (c : BlockResizeCommand) (g : G) : BlockResizeCommand * G :=
  let c := mkResize (re_block c) (re_new c) (block_length g (re_block c)) in
  (c, block_set_length_and_media_out g (re_block c) (re_new c)).
Definition BlockResizeCommand_undo (c : BlockResizeCommand) (g : G) : BlockResizeCommand * G :=
  (c, block_set_length_and_media_out g (re_block c) (re_old c)).
#[export] Instance BlockResizeCommand_command : Command BlockResizeCommand G := {|
  redo := BlockResizeCommand_redo; undo := BlockResizeCommand_undo |}.

Record BlockResizeWithMediaInCommand : Type := mkResizeIn {
  ri_block : NodeId; ri_new : Rational; ri_old : Rational }.
Definition BlockResizeWithMediaInCommand_new (b : NodeId) (len : Rational) := mkResizeIn b len (new 0 1).
Definition BlockResizeWithMediaInCommand_redo (c : BlockResizeWithMediaInCommand) (g : G)
    : BlockResizeWithMediaInCommand * G :=
  let c := mkResizeIn (ri_block c) (ri_new c) (block_length g (ri_block c)) in
  (c, block_set_length_and_media_in g (ri_block c) (ri_new c)).
Definition BlockResizeWithMediaInCommand_undo (c : BlockResizeWithMediaInCommand) (g : G)
    : BlockResizeWithMediaInCommand * G :=
  (c, block_set_length_and_media_in g (ri_block c) (ri_old c)).
#[export] Instance BlockResizeWithMediaInCommand_command : Command BlockResizeWithMediaInCommand G := {|
  redo := BlockResizeWithMediaInCommand_redo; undo := BlockResizeWithMediaInCommand_undo |}.

Record BlockSetMediaInCommand : Type := mkSetMediaIn {
  sm_block : NodeId; sm_new : Rational; sm_old : Rational }.
Definition BlockSetMediaInCommand_new (b : NodeId) (m : Rational) := mkSetMediaIn b m (new 0 1).
Definition BlockSetMediaInCommand_redo (c : BlockSetMediaInCommand) (g : G) : BlockSetMediaInCommand * G :=
  let c := mkSetMediaIn (sm_block c) (sm_new c) (clip_media_in g (sm_block c)) in
  (c, clip_set_media_in g (sm_block c) (sm_new c)).
Definition BlockSetMediaInCommand_undo (c : BlockSetMediaInCommand) (g : G) : BlockSetMediaInCommand * G :=
  (c, clip_set_media_in g (sm_block c) (sm_old c)).
#[export] Instance BlockSetMediaInCommand_command : Command BlockSetMediaInCommand G := {|
  redo := BlockSetMediaInCommand_redo; undo := BlockSetMediaInCommand_undo |}.

Record BlockEnableDisableCommand : Type := mkEnable {
  en_block : NodeId; en_new : bool; en_old : bool }.
Definition BlockEnableDisableCommand_new (g : G) (b : NodeId) (x : bool) := mkEnable b x (block_enabled g b).
Definition BlockEnableDisableCommand_redo (c : BlockEnableDisableCommand) (g : G) :=
  (c, block_set_enabled g (en_block c) (en_new c)).
Definition BlockEnableDisableCommand_undo (c : BlockEnableDisableCommand) (g : G) :=
  (c, block_set_enabled g (en_block c) (en_old c)).
#[export] Instance BlockEnableDisableCommand_command : Command BlockEnableDisableCommand G := {|
  redo := BlockEnableDisableCommand_redo; undo := BlockEnableDisableCommand_undo |}.

(** * Tracks *)

(** The merge fields stay empty and have no effect; they are left out. *)
Record TimelineAddTrackCommand : Type := mkAddTrack {
  at_timeline : NodeId; at_track : NodeId; direct_input : string; automerge_tracks : bool;
  at_entry : option Entry }.

Definition TimelineAddTrackCommand_with_automerge (g : G) (timeline : NodeId) (automerge : bool)
    : TimelineAddTrackCommand * G :=
  let kind := default Video (tracklist_type g timeline) in
  let '(g, t) := track_create g kind in
  (mkAddTrack timeline t
     (match kind with Video => "tex_in" | Audio => "samples_in" | Subtitle => "" end) automerge None, g).
Definition TimelineAddTrackCommand_new (g : G) (timeline : NodeId) :=
  TimelineAddTrackCommand_with_automerge g timeline false.

Definition at_with_entry (c : TimelineAddTrackCommand) (x : option Entry) : TimelineAddTrackCommand :=
  mkAddTrack (at_timeline c) (at_track c) (direct_input c) (automerge_tracks c) x.

Definition TimelineAddTrackCommand_redo (c : TimelineAddTrackCommand) (g : G) : TimelineAddTrackCommand * G :=
  let g := block_add_to_graph g (at_track c) (at_entry c) in
  (at_with_entry c None, tracklist_append g (at_timeline c) (at_track c)).

Definition TimelineAddTrackCommand_undo (c : TimelineAddTrackCommand) (g : G) : TimelineAddTrackCommand * G :=
  let g := tracklist_remove g (at_timeline c) (at_track c) in
  match at_entry c with
  | None => let '(g, e) := block_remove_from_graph g (at_track c) in (at_with_entry c e, g)
  | Some _ => (c, g)
  end.

#[export] Instance TimelineAddTrackCommand_command : Command TimelineAddTrackCommand G := {|
  redo := TimelineAddTrackCommand_redo; undo := TimelineAddTrackCommand_undo |}.

Definition run_immediately (g : G) (timeline : NodeId) (automerge : bool) : G * NodeId :=
  let '(c, g) := TimelineAddTrackCommand_with_automerge g timeline automerge in
  let '(c, g) := TimelineAddTrackCommand_redo c g in (g, at_track c).

Record TimelineRemoveTrackCommand : Type := mkRemoveTrack {
  rt_track : NodeId; rt_list : option NodeId; rt_index : option nat; rt_entry : option Entry }.
Definition TimelineRemoveTrackCommand_new (t : NodeId) := mkRemoveTrack t None None None.

Definition TimelineRemoveTrackCommand_prepare (c : TimelineRemoveTrackCommand) (g : G)
    : TimelineRemoveTrackCommand :=
  match rt_list c with
  | Some _ => c
  | None =>
      match (tb ← track_behavior_of g (rt_track c); l ← track_list tb; _ ← get g l; Some l) with
      | None => c
      | Some l =>
          mkRemoveTrack (rt_track c) (Some l)
            (lb ← tracklist_behavior_of g l; track_index lb (rt_track c)) (rt_entry c)
      end
  end.

(** Shift the stored indexes of the later tracks that satisfy [p]. *)
Definition shift_indexes (g : G) (p : Z -> bool) (d : Z) (later : list NodeId) : G :=
  foldl (fun g t => modify_track g t (fun tb =>
    if p (track_idx tb) then with_membership tb (track_list tb) (i32 (track_idx tb + d)) else tb)) g later.

Definition TimelineRemoveTrackCommand_redo (c : TimelineRemoveTrackCommand) (g : G)
    : TimelineRemoveTrackCommand * G :=
  let c := TimelineRemoveTrackCommand_prepare c g in
  match rt_list c with
  | None => (c, g)
  | Some l =>
      match (lb ← tracklist_behavior_of g l; i ← track_index lb (rt_track c); Some (i, delete i (tracks lb))) with
      | None => (c, g)
      | Some (i, ts) =>
          let g := modify_list g l (fun lb => with_tracks lb ts) in
          let idx := i32 (Z.of_nat (default 0%nat (rt_index c))) in
          let g := shift_indexes g (fun x => idx <? x) (-1) (drop i ts) in
          match rt_entry c with
          | None =>
              let '(g, e) := block_remove_from_graph g (rt_track c) in
              (mkRemoveTrack (rt_track c) (rt_list c) (rt_index c) e, g)
          | Some _ => (c, g)
          end
      end
  end.

Definition TimelineRemoveTrackCommand_undo (c : TimelineRemoveTrackCommand) (g : G)
    : TimelineRemoveTrackCommand * G :=
  match rt_list c with
  | None => (c, g)
  | Some l =>
      let g := block_add_to_graph g (rt_track c) (rt_entry c) in
      let c := mkRemoveTrack (rt_track c) (rt_list c) (rt_index c) None in
      let index := default 0%nat (rt_index c) in
      let '(g, later) :=
        match tracklist_behavior_of g l with
        | Some lb =>
            let insert_at := (index `min` length (tracks lb))%nat in
            let ts := vec_insert insert_at (rt_track c) (tracks lb) in
            (modify_list g l (fun lb => with_tracks lb ts), drop (insert_at + 1) ts)
        | None => (g, [])
        end in
      let idx := i32 (Z.of_nat index) in
      let g := shift_indexes g (fun x => idx <=? x) 1 later in
      (c, modify_track g (rt_track c) (fun tb => with_membership tb (Some l) idx))
  end.

#[export] Instance TimelineRemoveTrackCommand_command : Command TimelineRemoveTrackCommand G := {|
  redo := TimelineRemoveTrackCommand_redo; undo := TimelineRemoveTrackCommand_undo |}.

(** * Transitions *)

Record TransitionSetOffsetsCommand : Type := mkSetOffsets {
  so_block : NodeId; new_in_offset : option Rational; new_out_offset : option Rational; so_captured : bool;
  old_in_offset : Rational; old_out_offset : Rational; so_old_range : TimeRange; seam : Rational }.

Definition TransitionSetOffsetsCommand_new (b : NodeId) (i o : option Rational) :=
  mkSetOffsets b i o false (new 0 1) (new 0 1) TimeRange_default (new 0 1).

Definition so_capture (c : TransitionSetOffsetsCommand) (g : G) : TransitionSetOffsetsCommand :=
  if so_captured c then c
  else
    let offs := default (old_in_offset c, old_out_offset c) (transition_offsets g (so_block c)) in
    mkSetOffsets (so_block c) (new_in_offset c) (new_out_offset c) true offs.1 offs.2
      (default (so_old_range c) (block_range g (so_block c)))
      (add (block_in g (so_block c)) offs.1).

Definition TransitionSetOffsetsCommand_redo (c : TransitionSetOffsetsCommand) (g : G)
    : TransitionSetOffsetsCommand * G :=
  let c := so_capture c g in
  let i := default (old_in_offset c) (new_in_offset c) in
  let o := default (old_out_offset c) (new_out_offset c) in
  let g := transition_set_offsets g (so_block c) i o in
  (c, block_set_range g (so_block c) (TimeRange_new (sub (seam c) i) (add (seam c) o))).

Definition TransitionSetOffsetsCommand_undo (c : TransitionSetOffsetsCommand) (g : G)
    : TransitionSetOffsetsCommand * G :=
  let g := transition_set_offsets g (so_block c) (old_in_offset c) (old_out_offset c) in
  (c, block_set_range g (so_block c) (so_old_range c)).

#[export] Instance TransitionSetOffsetsCommand_command : Command TransitionSetOffsetsCommand G := {|
  redo := TransitionSetOffsetsCommand_redo; undo := TransitionSetOffsetsCommand_undo |}.

Record TransitionRemoveCommand : Type := mkTransitionRemove {
  tr_block : NodeId; remove_from_graph : bool; tr_track : option NodeId; out_block : option NodeId;
  in_block : option NodeId; tr_captured : bool; tr_in_offset : Rational; tr_out_offset : Rational;
  tr_range : TimeRange; connected_out : option NodeId; connected_in : option NodeId;
  remove_command : option (@UndoCommand G) }.

Definition TransitionRemoveCommand_new (b : NodeId) (from_graph : bool) :=
  mkTransitionRemove b from_graph None None None false (new 0 1) (new 0 1) TimeRange_default None None None.

Definition tr_capture (c : TransitionRemoveCommand) (g : G) : TransitionRemoveCommand :=
  let b := tr_block c in
  let t := block_track g b in let o := block_next g b in let i := block_previous g b in
  if tr_captured c then
    mkTransitionRemove b (remove_from_graph c) t o i true (tr_in_offset c) (tr_out_offset c) (tr_range c)
      (connected_out c) (connected_in c) (remove_command c)
  else
    let offs := default (tr_in_offset c, tr_out_offset c) (transition_offsets g b) in
    mkTransitionRemove b (remove_from_graph c) t o i true offs.1 offs.2
      (default (tr_range c) (block_range g b)) (block_connected_input g b OUT_BLOCK)
      (block_connected_input g b IN_BLOCK) (remove_command c).

Definition with_remove_command (c : TransitionRemoveCommand) (x : option (@UndoCommand G)) :=
  mkTransitionRemove (tr_block c) (remove_from_graph c) (tr_track c) (out_block c) (in_block c) (tr_captured c)
    (tr_in_offset c) (tr_out_offset c) (tr_range c) (connected_out c) (connected_in c) x.

Definition TransitionRemoveCommand_redo (c : TransitionRemoveCommand) (g : G) : TransitionRemoveCommand * G :=
  let c := tr_capture c g in
  let g := (block_disconnect_input g (tr_block c) OUT_BLOCK).1 in
  let g := (block_disconnect_input g (tr_block c) IN_BLOCK).1 in
  let g := match tr_track c with Some t => track_ripple_remove_block g t (tr_block c) | None => g end in
  if remove_from_graph c then
    let r := default (create_block_remove_command (tr_block c)) (remove_command c) in
    let '(r, g) := redo_now r g in (with_remove_command c (Some r), g)
  else (c, g).

Definition TransitionRemoveCommand_undo (c : TransitionRemoveCommand) (g : G) : TransitionRemoveCommand * G :=
  let '(c, g) :=
    match remove_from_graph c, remove_command c with
    | true, Some r => let '(r, g) := undo_now r g in (with_remove_command c (Some r), g)
    | _, _ => (c, g)
    end in
  let g := match tr_track c with Some t => track_insert_block_after g t (tr_block c) (in_block c) | None => g end in
  let g := transition_set_offsets g (tr_block c) (tr_in_offset c) (tr_out_offset c) in
  let g := block_set_range g (tr_block c) (tr_range c) in
  let g := match connected_out c with Some s => block_connect g s (tr_block c) OUT_BLOCK | None => g end in
  (c, match connected_in c with Some s => block_connect g s (tr_block c) IN_BLOCK | None => g end).

#[export] Instance TransitionRemoveCommand_command : Command TransitionRemoveCommand G := {|
  redo := TransitionRemoveCommand_redo; undo := TransitionRemoveCommand_undo |}.
End general.

(** * Reversibility of block edits *)

Section edits.
Context {Ext : Type} `{OtherBehavior Ext} `{InputHash}.
Implicit Types (g : Graph (Behavior Ext)) (b t n : NodeId).

Lemma modify_back g b f h : (forall c, block_core_of g b = Some c -> h (f c) = c) ->
  modify_block (modify_block g b f) b h = g.
Proof. intros Hf. rewrite modify_block_block. by apply modify_block_id. Qed.

Lemma set_media_in_links g b c y : block_core_of g b = Some c ->
  Undo.links (UndoCommand_new (BlockSetMediaInCommand_new b y)) g (clip_set_media_in g b y).
Proof.
  intros Hc. apply (links_new (fun k x => sm_block x = b /\ sm_new x = y /\ (k = true -> sm_old x = media_in c)));
    [| |done]; intros [b' y' o] (E1 & E2 & E3); simpl in *; subst.
  - eexists. split; [done|]. simpl. unfold clip_media_in. by rewrite Hc.
  - specialize (E3 eq_refl). subst. exists (mkSetMediaIn b y (media_in c)). split; [|done].
    unfold BlockSetMediaInCommand_undo, clip_set_media_in; simpl. rewrite modify_back; [done|].
    intros c' E. rewrite Hc in E. simplify_eq. by destruct c'.
Qed.

Lemma enable_links g b c x : block_core_of g b = Some c ->
  Undo.links (UndoCommand_new (BlockEnableDisableCommand_new g b x)) g (block_set_enabled g b x).
Proof.
  intros Hc. apply (links_new (fun _ k => k = BlockEnableDisableCommand_new g b x)); [| |done];
    intros k ->; eexists; (split; [|done]); simpl; [done|].
  unfold BlockEnableDisableCommand_undo, block_set_enabled; simpl. rewrite modify_back; [done|].
  intros c' E. unfold block_enabled. rewrite E. by destruct c'.
Qed.

Lemma set_offsets_links g b tr i o : behavior_of g b = Some (BTransition tr) ->
  Undo.links (UndoCommand_new (TransitionSetOffsetsCommand_new b i o)) g
    (TransitionSetOffsetsCommand_redo (TransitionSetOffsetsCommand_new b i o) g).2.
Proof.
  intros Hb. set (c0 := TransitionSetOffsetsCommand_new b i o). set (c1 := so_capture c0 g).
  assert (Ho : transition_offsets g b = Some (in_offset tr, out_offset tr)) by (unfold transition_offsets; by rewrite Hb).
  assert (Hr : block_range g b = Some (range (transition_core tr)))
    by (unfold block_range, block_core_of; by rewrite Hb).
  assert (E1 : old_in_offset c1 = in_offset tr /\ old_out_offset c1 = out_offset tr /\
    so_old_range c1 = range (transition_core tr) /\ so_captured c1 = true /\ so_block c1 = b).
  { unfold c1, so_capture; simpl. by rewrite Ho, Hr. }
  destruct E1 as (Ei & Eo & Er & Ec & Eb).
  apply (links_new (fun k x => (k = false /\ x = c0) \/ x = c1)); [| |by left].
  - intros x [[_ ->]| ->]; exists c1; (split; [|by right]); simpl.
    + unfold TransitionSetOffsetsCommand_redo. fold c1. done.
    + unfold TransitionSetOffsetsCommand_redo. fold c1. unfold so_capture. by rewrite Ec.
  - intros x [[? _]| ->]; [done|]. exists c1. split; [|by right]. simpl.
    unfold TransitionSetOffsetsCommand_undo, TransitionSetOffsetsCommand_redo. fold c1. cbn [snd].
    rewrite Eb, Ei, Eo, Er. unfold block_set_range, transition_set_offsets, modify_block.
    rewrite !modify_modify by apply with_behavior_keeping. f_equal. apply modify_id.
    intros e He. unfold behavior_of in Hb. rewrite He in Hb. simpl in Hb. simplify_eq.
    destruct e as [co be gen va]; simpl in *. subst be. unfold with_behavior; simpl. by destruct tr as [[] ? ?].
Qed.
End edits.

Section resize.
Context {Ext : Type} `{OtherBehavior Ext} `{InputHash}.
Context (D : Z) {HD : GridDen D}.
Implicit Types (g : Graph (Behavior Ext)) (b : NodeId).

(** C39: block property commands: resizing with the in point anchored, setting
    the media in point and enabling are reversible.  A plain resize keeps the
    out point, and its undo brings the block back to its span with the media
    restarted at the in point: it restores the graph exactly when the media
    started there. *)
Theorem resize_commands g b c a z m x y en
  (Hc : block_core_of g b = Some c) (Hp : plays D c a z m) (Haz : a <= z) (Hx : 0 <= x)
  (Hgrid : Forall in_grid [a; z; z - a; x; a + x; z - x]) :
  Undo.links (UndoCommand_new (BlockResizeWithMediaInCommand_new b (grid D x))) g
    (block_set_length_and_media_in g b (grid D x)) /\
  Undo.links (UndoCommand_new (BlockSetMediaInCommand_new b y)) g (clip_set_media_in g b y) /\
  Undo.links (UndoCommand_new (BlockEnableDisableCommand_new g b en)) g (block_set_enabled g b en) /\
  (let '(k, g1) := BlockResizeCommand_redo (BlockResizeCommand_new b (grid D x)) g in
   let '(_, g2) := BlockResizeCommand_undo k g1 in
   exists c1 c2, block_core_of g1 b = Some c1 /\ plays D c1 (z - x) z (z - x) /\
     block_core_of g2 b = Some c2 /\ plays D c2 a z a /\ (g2 = g <-> m = a)).
Proof.
  repeat (apply list.Forall_cons in Hgrid as [? Hgrid]).
  assert (El : block_length g b = grid D (z - a)).
  { unfold block_length. rewrite Hc. simpl. unfold BlockCore_length. destruct Hp as [Er _].
    rewrite Er. by apply length_span. }
  split; [|split; [by eapply set_media_in_links|split; [by eapply enable_links|]]].
  - pose proof (set_media_in_plays D c a z m x Hp) as Hin.
    assert (Hback : set_length_and_media_in (set_length_and_media_in c (grid D x)) (grid D (z - a)) = c).
    { destruct (set_media_in_plays D _ a (a + x) m (z - a) (Hin ltac:(done) ltac:(done) ltac:(done) ltac:(done)))
        as [Er _]; [lia|done|done|by replace (a + (z - a)) with z by lia|].
      replace (a + (z - a)) with z in Er by lia. destruct Hp as [Er0 _]. rewrite <- Er0 in Er.
      unfold set_length_and_media_in in *. destruct c; cbn in *. by rewrite Er. }
    apply (links_new (fun k q => ri_block q = b /\ ri_new q = grid D x /\ (k = true -> ri_old q = grid D (z - a))));
      [| |done]; intros [b' y' o] (E1 & E2 & E3); simpl in *; subst.
    + eexists. split; [done|]. simpl. by rewrite El.
    + specialize (E3 eq_refl). subst. exists (mkResizeIn b (grid D x) (grid D (z - a))). split; [|done].
      unfold BlockResizeWithMediaInCommand_undo, block_set_length_and_media_in; simpl.
      rewrite modify_back; [done|]. intros c' E. rewrite Hc in E. by simplify_eq.
  - pose proof (set_media_out_plays D c a z m x Hp) as H1p.
    specialize (H1p ltac:(done) ltac:(done) ltac:(done) ltac:(done) ltac:(done) ltac:(done) ltac:(done)).
    pose proof (set_media_out_plays D _ (z - x) z (z - x) (z - a) H1p ltac:(lia) ltac:(lia)) as H2p.
    specialize (H2p ltac:(done) ltac:(done)).
    replace (z - (z - x)) with x in H2p by lia. replace (z - (z - a)) with a in H2p by lia.
    specialize (H2p ltac:(done) ltac:(done) ltac:(done)).
    unfold BlockResizeCommand_redo, BlockResizeCommand_undo; simpl. rewrite El.
    unfold block_set_length_and_media_out. rewrite modify_block_block.
    eexists _, _. rewrite !block_core_of_modify_block, !decide_True, !Hc by done.
    split; [done|]. split; [done|]. split; [done|]. split; [done|]. split.
    + intros E. destruct Hp as [_ Em]. destruct H2p as [_ Em2].
      pose proof (f_equal (fun g => block_core_of g b) E) as Ec. cbv beta in Ec.
      rewrite block_core_of_modify_block, decide_True, Hc in Ec by done. simpl in Ec.
      injection Ec as Ec. rewrite Ec, Em in Em2. by apply (grid_inj D) in Em2.
    + intros ->. apply modify_block_id. intros c' E. rewrite Hc in E. simplify_eq.
      destruct Hp as [Er Em], H2p as [Er2 Em2].
      rewrite media_out_form, Er2, Em2, <- Er, <- Em, (media_out_form c'). by destruct c'.
Qed.
End resize.

(** * A run *)

#[local] Existing Instance no_others.
#[local] Existing Instance length_hash_.

Definition demo_gap_core : BlockCore := Eval vm_compute in
  default BlockCore_default (block_core_of demo_edit (node_at 2)).

Lemma resize_commands_witness :
  Undo.links (UndoCommand_new (BlockResizeWithMediaInCommand_new (node_at 2) (grid 1 1))) demo_edit
    (block_set_length_and_media_in demo_edit (node_at 2) (grid 1 1)) /\
  Undo.links (UndoCommand_new (BlockSetMediaInCommand_new (node_at 2) (new 1 2))) demo_edit
    (clip_set_media_in demo_edit (node_at 2) (new 1 2)) /\
  Undo.links (UndoCommand_new (BlockEnableDisableCommand_new demo_edit (node_at 2) false)) demo_edit
    (block_set_enabled demo_edit (node_at 2) false) /\
  (let '(k, g1) := BlockResizeCommand_redo (BlockResizeCommand_new (node_at 2) (grid 1 1)) demo_edit in
   let '(_, g2) := BlockResizeCommand_undo k g1 in
   exists c1 c2, block_core_of g1 (node_at 2) = Some c1 /\ plays 1 c1 (3 - 1) 3 (3 - 1) /\
     block_core_of g2 (node_at 2) = Some c2 /\ plays 1 c2 1 3 1 /\ (g2 = demo_edit <-> 0 = 1)).
Proof.
  assert (HD : GridDen 1) by done.
  refine (resize_commands 1 demo_edit (node_at 2) demo_gap_core 1 3 0 1 (new 1 2) false _ _ _ _ _).
  - reflexivity.
  - split; reflexivity.
  - lia.
  - lia.
  - repeat constructor.
Defined.
