(* ===== verification/GapCommands.v ===== *)
(** Gap commands (crates/oak-timeline/src/undogeneral.rs): replacing a block
    with a gap, and inserting gaps on every track of a list. *)

From Stdlib Require Import QArith Lqa.
From S2P Require Import Prelude Rational TimeRange Undo Ids Value Keyframe NodeCore Graph Arena Dag Block Track Timeline TrackCommands SplitCommands GeneralCommands.

Local Open Scope Z_scope.

Section gaps.
Context {Ext : Type} `{OtherBehavior Ext} `{InputHash} `{MapOrder}.
Abbreviation G := (Graph (Behavior Ext)).
Abbreviation Entry := (NodeEntry (Behavior Ext)).

(** * Replacing a block with a gap *)

Record TrackReplaceBlockWithGapCommand : Type := mkReplaceGap {
  rg_track : NodeId; rg_block : NodeId; block_in_point : Rational; handle_transitions : bool;
  existing_gap : option NodeId; existing_merged_gap : option NodeId; existing_gap_precedes : bool;
  our_gap : option NodeId; our_gap_entry : option Entry; merged_gap_entry : option Entry;
  transition_remove_commands : list (TransitionRemoveCommand (Ext := Ext)) }.

Definition TrackReplaceBlockWithGapCommand_new (g : G) (t b : NodeId) (handle : bool) :=
  mkReplaceGap t b (block_in g b) handle None None false None None None [].

Definition rg_with_gaps (c : TrackReplaceBlockWithGapCommand) (existing merged : option NodeId) (precedes : bool)
    (entry : option Entry) :=
  mkReplaceGap (rg_track c) (rg_block c) (block_in_point c) (handle_transitions c) existing merged precedes
    (our_gap c) (our_gap_entry c) entry (transition_remove_commands c).
Definition rg_with_ours (c : TrackReplaceBlockWithGapCommand) (ours : option NodeId) (entry : option Entry) :=
  mkReplaceGap (rg_track c) (rg_block c) (block_in_point c) (handle_transitions c) (existing_gap c)
    (existing_merged_gap c) (existing_gap_precedes c) ours entry (merged_gap_entry c)
    (transition_remove_commands c).
Definition rg_with_transitions (c : TrackReplaceBlockWithGapCommand) (ts : list (TransitionRemoveCommand (Ext := Ext))) :=
  mkReplaceGap (rg_track c) (rg_block c) (block_in_point c) (handle_transitions c) (existing_gap c)
    (existing_merged_gap c) (existing_gap_precedes c) (our_gap c) (our_gap_entry c) (merged_gap_entry c) ts.

Definition is_gap (g : G) (b : option NodeId) : bool :=
  match b with Some b => bool_decide (block_kind g b = K_Gap) | None => false end.

(** [create_remove_transition_command_if_necessary]. *)
Definition transition_at (g : G) (b : option NodeId) : list (TransitionRemoveCommand (Ext := Ext)) :=
  match b with
  | Some b => if bool_decide (block_kind g b = K_Transition) then [TransitionRemoveCommand_new b true] else []
  | None => []
  end.

Fixpoint redo_transitions (cs : list (TransitionRemoveCommand (Ext := Ext))) (g : G) : list (TransitionRemoveCommand (Ext := Ext)) * G :=
  match cs with
  | [] => ([], g)
  | c :: cs =>
      let '(c, g) := TransitionRemoveCommand_redo c g in
      let '(cs, g) := redo_transitions cs g in (c :: cs, g)
  end.
Fixpoint undo_transitions (cs : list (TransitionRemoveCommand (Ext := Ext))) (g : G) : list (TransitionRemoveCommand (Ext := Ext)) * G :=
  match cs with
  | [] => ([], g)
  | c :: cs =>
      let '(cs, g) := undo_transitions cs g in
      let '(c, g) := TransitionRemoveCommand_undo c g in (c :: cs, g)
  end.

(** Which existing gaps take over the span: the one to extend, the one merged
    into it, and the length so far. *)
Definition rg_choose (c : TrackReplaceBlockWithGapCommand) (g : G)
    : TrackReplaceBlockWithGapCommand * G * Rational :=
  let len := block_length g (rg_block c) in
  let previous := block_previous g (rg_block c) in
  let next := block_next g (rg_block c) in
  match is_gap g previous, is_gap g next, next with
  | true, true, Some m =>
      let len := add len (block_length g m) in
      let g := track_ripple_remove_block g (rg_track c) m in
      let '(g, e) := block_remove_from_graph g m in
      (rg_with_gaps c previous next (existing_gap_precedes c) e, g, len)
  | true, _, _ =>
      (rg_with_gaps c previous (existing_merged_gap c) (existing_gap_precedes c) (merged_gap_entry c), g, len)
  | false, true, _ =>
      (rg_with_gaps c next (existing_merged_gap c) (existing_gap_precedes c) (merged_gap_entry c), g, len)
  | false, false, _ => (c, g, len)
  end.

Definition rg_make_gap (c : TrackReplaceBlockWithGapCommand) (g : G) (len : Rational)
    : TrackReplaceBlockWithGapCommand * G :=
  match our_gap c with
  | Some _ => (c, g)
  | None =>
      let '(g, gap) := block_gap_create g in
      let g := block_set_in g gap (block_in_point c) in
      (rg_with_ours c (Some gap) (our_gap_entry c), block_set_length_and_media_in g gap len)
  end.

(** The block is followed by another. *)
Definition rg_redo_inner (c : TrackReplaceBlockWithGapCommand) (g : G) : TrackReplaceBlockWithGapCommand * G :=
  let previous := block_previous g (rg_block c) in
  let '(c, g, len) := rg_choose c g in
  match existing_gap c with
  | Some gap =>
      let g := block_set_length_and_media_in g gap (add len (block_length g gap)) in
      let g := track_ripple_remove_block g (rg_track c) (rg_block c) in
      (rg_with_gaps c (existing_gap c) (existing_merged_gap c)
         (match previous with Some p => NodeId_eqb gap p | None => false end) (merged_gap_entry c), g)
  | None =>
      let '(c, g) := rg_make_gap c g len in
      match our_gap c with
      | Some gap =>
          let g := block_add_to_graph g gap (our_gap_entry c) in
          (rg_with_ours c (our_gap c) None, track_replace_block g (rg_track c) (rg_block c) gap)
      | None => (c, g)
      end
  end.

(** The block is the last of its track. *)
Definition rg_redo_last (c : TrackReplaceBlockWithGapCommand) (g : G) : TrackReplaceBlockWithGapCommand * G :=
  let preceding := block_previous g (rg_block c) in
  let g := track_ripple_remove_block g (rg_track c) (rg_block c) in
  match preceding with
  | Some gap =>
      if is_gap g (Some gap) then
        let g := track_ripple_remove_block g (rg_track c) gap in
        let '(g, e) := block_remove_from_graph g gap in
        (rg_with_gaps c (existing_gap c) (Some gap) (existing_gap_precedes c) e, g)
      else (c, g)
  | None => (c, g)
  end.

Definition TrackReplaceBlockWithGapCommand_redo (c : TrackReplaceBlockWithGapCommand) (g : G)
    : TrackReplaceBlockWithGapCommand * G :=
  let c :=
    match handle_transitions c, transition_remove_commands c with
    | true, [] => rg_with_transitions c
        (transition_at g (block_previous g (rg_block c)) ++ transition_at g (block_next g (rg_block c)))
    | _, _ => c
    end in
  let '(ts, g) := redo_transitions (transition_remove_commands c) g in
  let c := rg_with_transitions c ts in
  match block_next g (rg_block c) with
  | Some _ => rg_redo_inner c g
  | None => rg_redo_last c g
  end.

(** Undo of the branch that extended an existing gap. *)
Definition rg_undo_existing (c : TrackReplaceBlockWithGapCommand) (g : G) (gap : NodeId)
    : TrackReplaceBlockWithGapCommand * G :=
  let original := sub (block_length g gap) (block_length g (rg_block c)) in
  let '(c, g, original) :=
    match existing_merged_gap c with
    | Some m =>
        let original := sub original (block_length g m) in
        let g := track_insert_block_after g (rg_track c) m (Some gap) in
        let g := block_add_to_graph g m (merged_gap_entry c) in
        (rg_with_gaps c (existing_gap c) None (existing_gap_precedes c) None, g, original)
    | None => (c, g, original)
    end in
  let g :=
    if existing_gap_precedes c then track_insert_block_after g (rg_track c) (rg_block c) (Some gap)
    else track_insert_block_before g (rg_track c) (rg_block c) gap in
  (rg_with_gaps c None (existing_merged_gap c) (existing_gap_precedes c) (merged_gap_entry c),
   block_set_length_and_media_in g gap original).

Definition TrackReplaceBlockWithGapCommand_undo (c : TrackReplaceBlockWithGapCommand) (g : G)
    : TrackReplaceBlockWithGapCommand * G :=
  let '(c, g) :=
    match our_gap c, existing_gap c with
    | Some gap, _ =>
        let g := track_replace_block g (rg_track c) gap (rg_block c) in
        match our_gap_entry c with
        | None => let '(g, e) := block_remove_from_graph g gap in (rg_with_ours c (our_gap c) e, g)
        | Some _ => (c, g)
        end
    | None, Some gap => rg_undo_existing c g gap
    | None, None =>
        let '(c, g) :=
          match existing_merged_gap c with
          | Some m =>
              let g := track_append_block g (rg_track c) m in
              let g := block_add_to_graph g m (merged_gap_entry c) in
              (rg_with_gaps c (existing_gap c) None (existing_gap_precedes c) None, g)
          | None => (c, g)
          end in
        (c, track_append_block g (rg_track c) (rg_block c))
    end in
  let '(ts, g) := undo_transitions (transition_remove_commands c) g in
  (rg_with_transitions c ts, g).

#[export] Instance TrackReplaceBlockWithGapCommand_command : Command TrackReplaceBlockWithGapCommand G := {|
  redo := TrackReplaceBlockWithGapCommand_redo; undo := TrackReplaceBlockWithGapCommand_undo |}.

(** * Inserting gaps on every track of a list *)

Record AddGap : Type := mkAddGap {
  ag_gap : NodeId; ag_entry : option Entry; ag_before : option NodeId; ag_track : NodeId }.

Record TrackListInsertGaps : Type := mkInsertGaps {
  ig_list : NodeId; ig_point : Rational; ig_length : Rational; working_tracks : list NodeId;
  gaps_to_extend : list NodeId; gaps_added : list AddGap;
  ig_split : option (BlockSplitPreservingLinksCommand (Ext := Ext)) }.

Definition TrackListInsertGaps_new (l : NodeId) (point len : Rational) :=
  mkInsertGaps l point len [] [] [] None.

Definition unlocked_tracks (g : G) (l : NodeId) : list NodeId :=
  omap (fun i => t ← tracklist_track_at g l i; if track_locked g t then None else Some t)
    (seq 0 (tracklist_track_count g l)).

(** What [prepare] collects over the tracks: the gaps to extend, the blocks to
    split, and the gaps to append with the block they follow. *)
Record gap_plan : Type := mkPlan {
  to_extend : list NodeId; to_split : list NodeId; to_append : list (option NodeId * NodeId) }.

(** The scan of one track's blocks, up to the first that decides. *)
Fixpoint plan_track (g : G) (point : Rational) (t : NodeId) (bs : list NodeId) (p : gap_plan) : gap_plan :=
  match bs with
  | [] => p
  | b :: bs =>
      let kind := block_kind g b in
      if bool_decide (kind = K_Gap) && leb (block_in g b) point && leb point (block_out g b) then
        mkPlan (to_extend p ++ [b]) (to_split p) (to_append p)
      else if bool_decide (kind = K_Clip) && leb point (block_out g b) then
        if eqb (block_in g b) point then
          mkPlan (to_extend p) (to_split p) (to_append p ++ [(None, t)])
        else if ltb point (block_out g b) then
          mkPlan (to_extend p) (to_split p ++ [b]) (to_append p ++ [(Some b, t)])
        else match block_next g b with
             | None => p
             | Some _ => mkPlan (to_extend p) (to_split p) (to_append p ++ [(Some b, t)])
             end
      else plan_track g point t bs p
  end.

Fixpoint create_gaps (rows : list (option NodeId * NodeId)) (g : G) : list AddGap * G :=
  match rows with
  | [] => ([], g)
  | (before, t) :: rows =>
      let '(g, gap) := block_gap_create g in
      let '(gs, g) := create_gaps rows g in (mkAddGap gap None before t :: gs, g)
  end.

Definition TrackListInsertGaps_prepare (c : TrackListInsertGaps) (g : G) : TrackListInsertGaps * G :=
  let ts := working_tracks c ++ unlocked_tracks g (ig_list c) in
  let p := foldl (fun p t => plan_track g (ig_point c) t (from_option blocks [] (track_behavior_of g t)) p)
    (mkPlan (gaps_to_extend c) [] []) ts in
  let split :=
    match to_split p with
    | [] => ig_split c
    | bs => Some (BlockSplitPreservingLinksCommand_new bs [ig_point c])
    end in
  let '(gs, g) := create_gaps (to_append p) g in
  (mkInsertGaps (ig_list c) (ig_point c) (ig_length c) ts (to_extend p) (gaps_added c ++ gs) split, g).

Definition redo_gap (point len : Rational) (a : AddGap) (g : G) : AddGap * G :=
  let gap_in := match ag_before a with Some b => block_out g b | None => point end in
  let g := block_set_in g (ag_gap a) gap_in in
  let g := block_set_length_and_media_in g (ag_gap a) len in
  let g := block_add_to_graph g (ag_gap a) (ag_entry a) in
  (mkAddGap (ag_gap a) None (ag_before a) (ag_track a),
   track_insert_block_after g (ag_track a) (ag_gap a) (ag_before a)).

Definition undo_gap (a : AddGap) (g : G) : AddGap * G :=
  let g := match block_track g (ag_gap a) with
           | Some t => track_ripple_remove_block g t (ag_gap a)
           | None => g
           end in
  match ag_entry a with
  | None => let '(g, e) := block_remove_from_graph g (ag_gap a) in
            (mkAddGap (ag_gap a) e (ag_before a) (ag_track a), g)
  | Some _ => (a, g)
  end.

Fixpoint each_gap (f : AddGap -> G -> AddGap * G) (gs : list AddGap) (g : G) : list AddGap * G :=
  match gs with
  | [] => ([], g)
  | a :: gs => let '(a, g) := f a g in let '(gs, g) := each_gap f gs g in (a :: gs, g)
  end.

Definition ig_with (c : TrackListInsertGaps) (gs : list AddGap) s : TrackListInsertGaps :=
  mkInsertGaps (ig_list c) (ig_point c) (ig_length c) (working_tracks c) (gaps_to_extend c) gs s.

Definition TrackListInsertGaps_redo (c : TrackListInsertGaps) (g : G) : TrackListInsertGaps * G :=
  let g := foldl (fun g gap => block_set_length_and_media_out g gap (add (block_length g gap) (ig_length c)))
    g (gaps_to_extend c) in
  let '(s, g) :=
    match ig_split c with
    | Some s => let '(s, g) := BlockSplitPreservingLinksCommand_redo s g in (Some s, g)
    | None => (None, g)
    end in
  let '(gs, g) := each_gap (redo_gap (ig_point c) (ig_length c)) (gaps_added c) g in (ig_with c gs s, g).

Definition TrackListInsertGaps_undo (c : TrackListInsertGaps) (g : G) : TrackListInsertGaps * G :=
  let '(gs, g) := each_gap undo_gap (gaps_added c) g in
  let '(s, g) :=
    match ig_split c with
    | Some s => let '(s, g) := BlockSplitPreservingLinksCommand_undo s g in (Some s, g)
    | None => (None, g)
    end in
  let g := foldl (fun g gap => block_set_length_and_media_out g gap (sub (block_length g gap) (ig_length c)))
    g (gaps_to_extend c) in
  (ig_with c gs s, g).

#[export] Instance TrackListInsertGaps_command : Command TrackListInsertGaps G := {|
  redo := TrackListInsertGaps_redo; undo := TrackListInsertGaps_undo |}.
End gaps.

(** * A block between blocks *)

Section one_gap.
Context {Ext : Type} `{OtherBehavior Ext} `{InputHash}.
Context (D : Z) {HD : GridDen D}.
Context (g : Graph (Behavior Ext)) (t b nx : NodeId) (tb : TrackBehavior) (l1 l2 : list NodeId).
Context (c : BlockCore) (a z m : Z).

(** A block of track [t] at [[a, z)], followed by a block, next to no gap. *)
Record replaceable : Prop := {
  rep_graph : graph_wf g;
  rep_room : has_room g;
  rep_member : membership g;
  rep_track : track_behavior_of g t = Some tb;
  rep_place : blocks tb = l1 ++ b :: nx :: l2;
  rep_core : block_core_of g b = Some c;
  rep_plays : plays D c a z m;
  rep_order : a <= z;
  rep_previous : is_gap g (list.last l1) = false;
  rep_next : is_gap g (Some nx) = false;
  rep_grid : Forall in_grid [a; z; z - a; D; a + D]
}.
Context (HR : replaceable).

Definition rg_done (n : NodeId) (u : option (NodeEntry (Behavior Ext))) : TrackReplaceBlockWithGapCommand (Ext := Ext) :=
  mkReplaceGap t b (grid D a) false None None false (Some n) u None [].

Lemma rep_block_track : block_track g b = Some t.
Proof.
  destruct (rep_member HR t tb (rep_track HR)) as [_ Hin]. apply Hin.
  rewrite (rep_place HR), elem_of_app, elem_of_cons. tauto.
Qed.

Lemma rep_not_before : b ∉ l1.
Proof.
  destruct (rep_member HR t tb (rep_track HR)) as [Hnd _]. rewrite (rep_place HR) in Hnd.
  apply NoDup_app in Hnd as (_ & Hx & _). intros Hb. apply (Hx b Hb). apply elem_of_cons. by left.
Qed.

Lemma is_gap_equiv g' x : graph_equiv g' g -> is_gap g' x = is_gap g x.
Proof. intros Hg. destruct x as [x|]; [|done]. assert (E : block_kind g' x = block_kind g x) by (by rewrite Hg). simpl. by rewrite E. Qed.

(** What the command reads, before and after an undo. *)
Lemma rep_reads g' : graph_equiv g' g ->
  block_next g' b = Some nx /\ block_previous g' b = list.last l1 /\ block_length g' b = grid D (z - a).
Proof.
  intros Hg. pose proof (rep_grid HR) as Hgr. repeat (apply list.Forall_cons in Hgr as [? Hgr]).
  pose proof rep_block_track as Hbt. pose proof rep_not_before as Hnb. split; [|split].
  - transitivity (block_next g b); [by rewrite Hg|].
    by rewrite (block_next_spec g t tb b l1 (nx :: l2) (rep_track HR) Hbt (rep_place HR) Hnb).
  - transitivity (block_previous g b); [by rewrite Hg|].
    by apply (block_previous_spec g t tb b l1 (nx :: l2) (rep_track HR) Hbt (rep_place HR) Hnb).
  - transitivity (block_length g b); [by rewrite Hg|].
    unfold block_length. rewrite (rep_core HR). simpl. unfold BlockCore_length.
    destruct (rep_plays HR) as [-> _]. by apply length_span.
Qed.

Lemma rep_choose k g' : graph_equiv g' g -> rg_block k = b -> rg_choose k g' = (k, g', grid D (z - a)).
Proof.
  intros Hg E. unfold rg_choose. rewrite E. destruct (rep_reads g' Hg) as (-> & -> & ->).
  by rewrite (is_gap_equiv g' (list.last l1)), (is_gap_equiv g' (Some nx)), (rep_previous HR), (rep_next HR) by done.
Qed.
(** The gap, filled in. *)
Definition filled_gap : BlockCore := set_length_and_media_in (BlockCore_set_in BlockCore_default (grid D a)) (grid D (z - a)).

Lemma grid_one : grid D D = new 1 1.
Proof.
  pose proof (grid_den_pos D). unfold grid, lowest. rewrite Z.gcd_diag, Z.abs_eq by lia.
  rewrite !Z.quot_same by lia. done.
Qed.

Lemma filled_gap_plays : plays D filled_gap a z 0.
Proof.
  pose proof (rep_grid HR) as Hgr. repeat (apply list.Forall_cons in Hgr as [? Hgr]).
  pose proof (rep_order HR).
  assert (Hz : plays D BlockCore_default 0 D 0).
  { split; cbn [range media_in BlockCore_default]; [|by rewrite (grid_0 D)].
    unfold span. rewrite (grid_0 D), grid_one. done. }
  pose proof (grid_den_pos D).
  assert (Ha : plays D (BlockCore_set_in BlockCore_default (grid D a)) a (a + D) 0).
  { replace (a + D) with (a + (D - 0)) by lia.
    apply (set_in_plays D _ 0 D 0 a Hz); try done; try lia; by rewrite Z.sub_0_r. }
  replace z with (a + (z - a)) by lia. unfold filled_gap.
  replace (a + (z - a) - a) with (z - a) by lia.
  apply (set_media_in_plays D _ a (a + D) 0 (z - a) Ha); try done; [lia|].
  by replace (a + (z - a)) with z by lia.
Qed.

(** The graph with the filled gap, not yet on the track. *)
Lemma gap_made : exists n ge u,
  rg_make_gap (TrackReplaceBlockWithGapCommand_new g t b false) g (grid D (z - a)) = (rg_done n None, ge) /\
  get g n = None /\ get ge n = Some u /\ behavior u = BGap (mkGap filled_gap) /\ NodeCore.links (core u) = [] /\
  edges ge = edges g /\ (forall j, j <> n -> get ge j = get g j) /\
  arena_wf ge /\ membership ge /\ detached ge n.
Proof.
  destruct (track_step_keeps g _ (graph_arena _ (rep_graph HR)) (rep_member HR) (step_gap g (rep_room HR)))
    as [Hw Hm].
  unfold rg_make_gap. cbn [our_gap TrackReplaceBlockWithGapCommand_new].
  pose proof (allocate_spec g gap_create.1 (BGap gap_create.2) (graph_arena _ (rep_graph HR)) (rep_room HR)) as Hal.
  unfold block_gap_create, add_node in *. destruct (allocate g _ _) as [ga n]. cbn [fst] in *.
  destruct Hal as (_ & Hed & _ & _ & Hn & Hget).
  unfold block_set_in, block_set_length_and_media_in. rewrite modify_block_block. cbn [block_in_point rg_with_ours].
  assert (Hi : block_in g b = grid D a).
  { rewrite (block_in_core _ _ _ (rep_core HR)). unfold BlockCore_in. by destruct (rep_plays HR) as [-> _]. }
  set (f := fun c => set_length_and_media_in (BlockCore_set_in c (block_in g b)) (grid D (z - a))).
  assert (Hg : get ga n = Some (mkEntry gap_create.1 (BGap gap_create.2) (generation n) false))
    by (by rewrite Hget, decide_True).
  pose proof (get_modify_block_eq ga n f _ Hg) as Hu.
  eexists n, (modify_block ga n f), _. split; [unfold rg_done; by rewrite <- Hi|]. split; [done|].
  split; [exact Hu|]. split; [unfold f; by rewrite Hi|]. split; [done|].
  split; [unfold modify_block; by rewrite modify_edges|].
  split; [intros j Hj; by rewrite get_modify_block_ne, Hget, decide_False by done|].
  destruct (track_step_keeps ga (modify_block ga n f) Hw Hm) as [Hw2 Hm2]; [by apply step_span|].
  split; [done|]. split; [done|].
  exists (f BlockCore_default). split; [|done].
  unfold block_core_of, behavior_of. by rewrite Hu.
Qed.

(** Swapping the filled gap in, on any graph equivalent to the original. *)
Definition swapped (ge : Graph (Behavior Ext)) (n : NodeId) : Graph (Behavior Ext) := track_replace_block ge t b n.

Lemma redo_again g2 ge n u : graph_equiv g2 g -> add_entry g2 u n = (ge, n) ->
  TrackReplaceBlockWithGapCommand_redo (rg_done n (Some u)) g2 = (rg_done n None, swapped ge n).
Proof.
  intros Hg Ha. unfold TrackReplaceBlockWithGapCommand_redo.
  cbn [handle_transitions transition_remove_commands rg_done redo_transitions rg_block].
  change (rg_with_transitions (rg_done n (Some u)) []) with (rg_done n (Some u)).
  change (rg_block (rg_done n (Some u))) with b. rewrite (proj1 (rep_reads g2 Hg)). unfold rg_redo_inner. rewrite rep_choose by done.
  unfold rg_make_gap, block_add_to_graph. cbn [existing_gap our_gap our_gap_entry rg_done]. by rewrite Ha.
Qed.

(** C40: replacing a block with a gap, for a block followed by another block and
    next to no gap: a fresh gap takes exactly the block's place on the track and
    its span, so nothing after it moves, the block is off the track but stays
    in the graph and no other node changes; undo gives a graph that resolves
    every id as before, and redo and undo then swing exactly between the two. *)
Theorem gap_replacement :
  exists n k1 g1 k2 g2 cn,
    TrackReplaceBlockWithGapCommand_redo (TrackReplaceBlockWithGapCommand_new g t b false) g = (k1, g1) /\
    our_gap k1 = Some n /\ get g n = None /\
    block_kind g1 n = K_Gap /\ block_core_of g1 n = Some cn /\ plays D cn a z 0 /\
    blocks <$> track_behavior_of g1 t = Some (l1 ++ n :: nx :: l2) /\ membership g1 /\
    block_core_of g1 b = Some (with_track c None) /\
    (forall j, j <> b -> j <> n -> j <> t -> get g1 j = get g j) /\
    TrackReplaceBlockWithGapCommand_undo k1 g1 = (k2, g2) /\ graph_equiv g2 g /\
    TrackReplaceBlockWithGapCommand_redo k2 g2 = (k1, g1).
Proof.
  destruct gap_made as (n & ge & u & Hmk & Hn & Hu & Hub & Hul & Hed & Hget & Hw & Hm & Hd).
  destruct (take_fresh g ge n u (rep_graph HR) Hw Hn Hed Hget Hu Hul) as (g2 & Htk & Heq & Ha).
  exists n, (rg_done n None), (swapped ge n), (rg_done n (Some u)), g2, (with_track filled_gap (Some t)).
  assert (Hbn : b <> n) by (intros E0; rewrite <- E0 in Hn; pose proof (rep_core HR) as E; unfold block_core_of, behavior_of in E; by rewrite Hn in E).
  assert (Htn : t <> n) by (intros E0; rewrite <- E0 in Hn; pose proof (rep_track HR) as E; unfold track_behavior_of, behavior_of in E; by rewrite Hn in E).
  assert (Ht : track_behavior_of ge t = Some tb)
    by (rewrite <- (rep_track HR); unfold track_behavior_of, behavior_of; by rewrite Hget).
  assert (Hc : block_core_of ge b = Some c)
    by (rewrite <- (rep_core HR); unfold block_core_of, behavior_of; by rewrite Hget).
  assert (Hcn : block_core_of ge n = Some filled_gap) by (unfold block_core_of, behavior_of; rewrite Hu; simpl; by rewrite Hub).
  assert (Esw : swapped ge n = relocate (relocate ge t b (l1 ++ nx :: l2) None) t n (l1 ++ n :: nx :: l2) (Some t)).
  { apply (track_replace_block_eq ge t tb b n l1 (nx :: l2) Ht (rep_place HR) rep_not_before). }
  split; [|do 2 (split; [done|])].
  { unfold TrackReplaceBlockWithGapCommand_redo.
    cbn [handle_transitions transition_remove_commands TrackReplaceBlockWithGapCommand_new redo_transitions
      rg_with_transitions rg_block].
    rewrite (proj1 (rep_reads g ltac:(done))). unfold rg_redo_inner.
    rewrite rep_choose by done. cbn [existing_gap].
    change (rg_with_transitions _ []) with (TrackReplaceBlockWithGapCommand_new g t b false).
    cbn [existing_gap TrackReplaceBlockWithGapCommand_new]. by rewrite Hmk. }
  assert (Hkind : block_kind (swapped ge n) n = K_Gap). 
  { rewrite Esw, !block_kind_relocate. unfold block_kind, behavior_of. rewrite Hu. simpl. by rewrite Hub. }
  split; [done|]. split; [by rewrite Esw, block_core_of_relocate, decide_True, block_core_of_relocate, decide_False, Hcn by done|].
  split.
  { destruct filled_gap_plays as [Er Em]. by split. }
  split; [by rewrite Esw, !track_behavior_of_relocate, !decide_True, Ht by done|].
  split; [apply (proj2 (track_step_keeps ge _ Hw Hm (step_replace ge t b n Hd)))|].
  split; [by rewrite Esw, block_core_of_relocate, decide_False, block_core_of_relocate, decide_True, Hc by done|].
  split; [intros j Hjb Hjn Hjt; rewrite Esw; unfold relocate, set_block_track|].
  { by rewrite get_modify_block_ne, get_modify_track_ne, get_modify_block_ne, get_modify_track_ne, Hget by done. }
  split; [|split; [done|by apply redo_again]].
  unfold TrackReplaceBlockWithGapCommand_undo. cbn [our_gap rg_done rg_track rg_block our_gap_entry].
  unfold swapped. rewrite (undo_replace ge t tb b n l1 (nx :: l2)) by (done || apply HR || congruence).
  unfold block_remove_from_graph. by rewrite Htk.
Qed.
End one_gap.

(** * Runs *)

#[local] Existing Instance no_others.
#[local] Existing Instance length_hash_.

(** Extending a following gap keeps its in point, so it does not cover the
    removed block's span and runs into what follows: [[1,3)] before a gap at
    [[3,5)] leaves a gap at [[3,7)]. *)
Definition gap_after : Graph (Behavior Empty_set) := Eval vm_compute in
  let '(g, t) := track_create Graph_new Video in
  let '(g, a) := block_clip_create g in
  let '(g, b) := block_clip_create g in
  let '(g, c) := block_gap_create g in
  let g := track_append_block (track_append_block (track_append_block g t a) t b) t c in
  let g := block_set_range g b (mkTimeRange (new 1 1) (new 3 1)) in
  block_set_range g c (mkTimeRange (new 3 1) (new 5 1)).

Lemma following_gap_misses_the_span :
  block_range (TrackReplaceBlockWithGapCommand_redo
    (TrackReplaceBlockWithGapCommand_new gap_after (node_at 0) (node_at 2) false) gap_after).2 (node_at 3) =
  Some (mkTimeRange (new 3 1) (new 7 1)).
Proof. vm_compute. reflexivity. Qed.

(** Between two gaps: undo lists the merged gap on the track while it is still
    out of the graph, so the gap comes back naming no track, and the surviving
    gap keeps the merged gap's length. *)
Definition gap_both : Graph (Behavior Empty_set) := Eval vm_compute in
  let '(g, t) := track_create Graph_new Video in
  let '(g, a) := block_gap_create g in
  let '(g, b) := block_clip_create g in
  let '(g, c) := block_gap_create g in
  let g := track_append_block (track_append_block (track_append_block g t a) t b) t c in
  let g := block_set_range g b (mkTimeRange (new 1 1) (new 3 1)) in
  block_set_range g c (mkTimeRange (new 3 1) (new 5 1)).

Lemma merged_gap_undo_breaks_membership :
  let '(k, g1) := TrackReplaceBlockWithGapCommand_redo
    (TrackReplaceBlockWithGapCommand_new gap_both (node_at 0) (node_at 2) false) gap_both in
  let '(_, g2) := TrackReplaceBlockWithGapCommand_undo k g1 in
  blocks <$> track_behavior_of g2 (node_at 0) = Some [node_at 1; node_at 2; node_at 3] /\
  block_track g2 (node_at 3) = None /\
  block_range gap_both (node_at 1) = Some (mkTimeRange (new 0 1) (new 1 1)) /\
  block_range g2 (node_at 1) = Some (mkTimeRange (new 0 1) (new 3 1)).
Proof. vm_compute. auto. Qed.

(** [demo_edit] with the spare clip in front of the track. *)
Definition demo_front : Graph (Behavior Empty_set) := Eval vm_compute in
  track_prepend_block demo_edit (node_at 0) (node_at 4).
Definition demo_front_core : BlockCore := Eval vm_compute in
  default BlockCore_default (block_core_of demo_front (node_at 4)).

Lemma demo_front_replaceable : replaceable 1 demo_front (node_at 0) (node_at 4) (node_at 1)
  (mkTrack Video [node_at 4; node_at 1; node_at 2; node_at 3] false false DEFAULT_HEIGHT_INTERNAL 0 None)
  [] [node_at 2; node_at 3] demo_front_core 0 1 0.
Proof.
  assert (Hk : arena_wf demo_front /\ membership demo_front).
  { destruct demo_edit_wf as [Hw Hm]. apply (track_step_keeps demo_edit _ Hw Hm).
    apply (step_prepend demo_edit (node_at 0) (node_at 4)). eexists. split; [vm_compute; reflexivity|reflexivity]. }
  destruct Hk as [Hw Hm]. split; try reflexivity; try done.
  - split; [done| | |].
    + intros x Hx. by apply elem_of_nil in Hx.
    + intros x y Hx. by apply elem_of_nil in Hx.
    + intros i Hi. destruct Hi as [i j (x & Hx & _)|i j k (x & Hx & _)]; by apply elem_of_nil in Hx.
  - right. by vm_compute.
  - repeat constructor.
Qed.

Lemma gap_replacement_witness :
  block_kind demo_front (node_at 4) = K_Clip /\
  exists n k1 g1 k2 g2 cn,
    TrackReplaceBlockWithGapCommand_redo
      (TrackReplaceBlockWithGapCommand_new demo_front (node_at 0) (node_at 4) false) demo_front = (k1, g1) /\
    our_gap k1 = Some n /\ get demo_front n = None /\
    block_kind g1 n = K_Gap /\ block_core_of g1 n = Some cn /\ plays 1 cn 0 1 0 /\
    blocks <$> track_behavior_of g1 (node_at 0) = Some ([] ++ n :: node_at 1 :: [node_at 2; node_at 3]) /\
    membership g1 /\
    block_core_of g1 (node_at 4) = Some (with_track demo_front_core None) /\
    (forall j, j <> node_at 4 -> j <> n -> j <> node_at 0 -> get g1 j = get demo_front j) /\
    TrackReplaceBlockWithGapCommand_undo k1 g1 = (k2, g2) /\ graph_equiv g2 demo_front /\
    TrackReplaceBlockWithGapCommand_redo k2 g2 = (k1, g1).
Proof.
  split; [reflexivity|].
  assert (HD : GridDen 1) by done.
  exact (gap_replacement 1 demo_front (node_at 0) (node_at 4) (node_at 1) _ [] [node_at 2; node_at 3]
    demo_front_core 0 1 0 demo_front_replaceable).
Defined.
